(* ===== verification/_CoqProject ===== *)
-Q . S2P
Prelude.v
Text.v
Core.v
QueueTypes.v
Telemetry.v
QueueSpec.v
MemoryQueue.v
MemoryQueueInv.v
MemoryQueueProofs.v
MemoryQueueCalls.v
MemoryQueueRunning.v
MemoryQueueTheorems.v
SqliteQueue.v
SqliteQueueProofs.v
SqliteQueueClaims.v
SqliteQueueTheorems.v
SpendTypes.v
SpendLedger.v
SpendInv.v
SpendProofs.v
SpendTheorems.v
JobTypes.v
JobStore.v
JobInv.v
JobProofs.v
JobLawful.v
JobRequests.v
JobHistory.v
JobPages.v
JobTheorems.v
JobRunner.v
JobRunnerProofs.v
JobRunnerTheorems.v
ModelJobs.v
ModelJobsProofs.v
ModelJobsTheorems.v
PortabilityTypes.v
PortableTable.v
PortableValidate.v
PortableProofs.v
PortableFiles.v
PortableTableProofs.v
PortabilityTheorems.v
Program.v
Json.v
Trace.v
ExecutionPolicy.v
Responses.v
Executor.v
ExecutorProofs.v
ExecutorCalls.v
ExecutorGuards.v
ExecutorLedger.v
ExecutorBooks.v
ExecutorPool.v
ExecutorJobs.v
ExecutorTheorems.v
Float64.v
Wire.v
ModelRegistry.v
Adapters.v
ChatAdapters.v
RetrievalAdapters.v
AdapterProofs.v
AdapterTheorems.v
RetrievalTheorems.v
Classify.v
Classifiers.v
ClassifyTheorems.v
EgressTypes.v
EgressRegistry.v
EgressRoutes.v
EgressDeployment.v
EgressProcess.v
EgressInv.v
EgressProofs.v
EgressMachine.v
EgressHistory.v
EgressTheorems.v
EgressStory.v
