(* ===== verification/Prelude.v ===== *)
(** * Symbiotic Foundation: the durable core, modelled and verified

    Symbiotic Foundation is a workspace of Rust crates that run model
    providers (and other work) on behalf of applications: a queue contract with
    two backends, a durable job store, a spend ledger and the runtime that
    composes them around provider adapters.  This library models the parts
    that keep durable state and proves what the rest of the system relies on.

    ** The parts and the files that model them

    - This file: results with panics, machine integers, instants, the SQL-style
      tables (lists of rows with [select_where], [update_where] and
      [count_where]) with their lemmas, checking loops ([for_each]), the hint database [sql] and the proof
      automation ([bools], [walk], [rsimpl]).
    - [Core]: crates/symbiotic-core/src ([diagnostics.rs], [lib.rs]).  The closed
      vocabularies of diagnostics and failure classes with their printers and
      parsers, model and binding identities.
    - [QueueTypes], [Telemetry]: crates/symbiotic-queue/src/lib.rs.  Requests, items,
      events and errors of the queue contract; the latency statistics.
    - [QueueSpec]: the abstract queue.  [lawful] says which changes of an item
      the contract allows; the class [QueueBackend] says what a backend owes to
      its clients, and [backend_run_ok], [terminal_final] and [active_kept] are
      proved against that class alone.
    - [MemoryQueue] (operations, from memory.rs), [MemoryQueueInv],
      [MemoryQueueProofs], [MemoryQueueCalls], [MemoryQueueRunning],
      [MemoryQueueTheorems]: the in-process backend.  A mutex that a panic
      poisons and every panicking lookup are outcomes of the model; the proofs
      show that the one panic is a retry time outside chrono's range.
    - [SqliteQueue] (operations, from symbiotic-queue-sqlite/src/lib.rs),
      [SqliteQueueProofs], [SqliteQueueClaims], [SqliteQueueTheorems]: the SQLite
      backend, one transaction per call.
    - [JobTypes] (from symbiotic-queue/src/jobs.rs), [JobStore] (from
      symbiotic-queue-sqlite/src/jobs.rs: the two tables, every query and one
      definition per request handler, under [jobs_in_transaction]), [JobInv],
      [JobProofs], [JobLawful], [JobRequests], [JobHistory], [JobPages],
      [JobTheorems]: the durable job store.
    - [JobRunner] (from symbiotic-queue/src/runner.rs), [JobRunnerProofs],
      [JobRunnerTheorems]: the pool of handler workers over the job store.
      [Pool] is the shared tables with the workers' states; [pool_step] is one
      step of a worker, of the maintenance task, of the supervisor or of
      another client of the store.
    - [SpendTypes] (from symbiotic-model/src/spend.rs and lib.rs, symbiotic-trace/src/lib.rs),
      [SpendLedger] (from symbiotic-ai-runtime/src/spend.rs), [SpendInv],
      [SpendProofs], [SpendTheorems]: the spend ledger.
    - [ModelJobs] (from symbiotic-ai-runtime/src/jobs.rs, the job rules of
      spend.rs and [account_scope] of lib.rs), [ModelJobsProofs],
      [ModelJobsTheorems]: durable model jobs, which run the job store, the
      registry of bindings and the ledger in one transaction.  [Store] is the
      shared database; [request_sync], [completions_sync] and [recover_page]
      are the methods of [ModelJobs], the [owner_*] definitions those of
      [ClaimOwner].
    - [Text]: Rust's [str] functions on UTF-8 bytes, with their lemmas.
    - [PortabilityTypes] (crates/symbiotic-portability/src lib.rs and model.rs),
      [PortableTable] (table.rs), [PortableValidate] (validate.rs),
      [PortableProofs], [PortableFiles], [PortableTableProofs],
      [PortabilityTheorems]: the interchange crate, which keeps no state:
      decoding guards, structural validation, verification of bundled files,
      and the table import and presentations.
    - [Json] (serde_json's values), [Trace] (symbiotic-trace/src/lib.rs: records
      and sinks), [ExecutionPolicy] and [Responses] (symbiotic-model/src/lib.rs,
      queue_runtime.rs, registry.rs and secrets.rs: queue policies, retry rules and
      backoff, provider responses and the credential boundary they pass).
    - [Program]: programs as trees of calls, with the program logic [safe] (a
      monitor follows every call), their histories [runs] and an interpreter.
    - [Executor] (symbiotic-model/src/lib.rs): one queued model call, from
      [run_queued] through the loop over attempts, the attempt under its queue
      lease ([run_attempt]) and the durable job ([run_job]) to the settlement.
      [ExecutorProofs], [ExecutorCalls], [ExecutorGuards]: the attempt and the
      call against their monitors.  [ExecutorLedger], [ExecutorBooks]: what
      a history of calls spent, released, settled and gave back.  [ExecutorPool]:
      any number of callers interleaved over one spend ledger, whose calls
      [SpendLedger] answers.  [ExecutorJobs]: the durable job against its monitor.
      [ExecutorTheorems]: what follows.
    - [Float64]: binary64 and binary32 numbers, from the Standard Library's
      executable IEEE 754.
    - [Wire] (wire.rs: the request bodies and the capped writer),
      [ModelRegistry] (registry.rs), [Adapters], [ChatAdapters] and
      [RetrievalAdapters] (lib.rs, anthropic.rs and retrieval.rs: the provider
      adapters as programs over one HTTP exchange), [AdapterProofs],
      [AdapterTheorems], [RetrievalTheorems].
    - [Classify] (classify.rs: questions, answers, limits, prompts and replies),
      [Classifiers] (its providers), [ClassifyTheorems].
    - [EgressTypes] (symbiotic-egress/src/lib.rs: the protocol, its digests, frames
      and signatures), [EgressRegistry] (symbiotic-credential-process/src/registry.rs:
      the permits, revisions and allowances beside the ledger, one definition per
      transaction), [EgressRoutes] (routes, attempts and payloads, from lib.rs
      and provider.rs), [EgressDeployment] (the model registry they compile
      into), [EgressProcess] (lib.rs and the [Admission] of jobs.rs): the
      credential process.  [Process] is the tables with the dispatches
      under way; [process_step] is one transaction or one thing the environment
      does, a crash included.  [EgressInv], [EgressProofs]: the invariant of the
      tables and that every transaction keeps it.  [EgressMachine]: the same for
      every interleaving.  [EgressHistory]: what a later history keeps of an
      admission and of a recorded completion.  [EgressTheorems], and
      [EgressStory], its examples.

    ** How state and effects are represented

    An operation of the code is a function from the state to a [result]: [Ok]
    with the new state and the answer, [Err] with the error the code returns,
    or [Panic].  A transaction commits the state of an [Ok] and keeps the old
    one otherwise.  SQL tables are lists of rows in rowid order, or finite maps
    where the primary key is all that is used; a column that holds the JSON
    text of a value is held as the value.  Statements themselves succeed:
    failures of the disk or of SQLite are not modelled, while every error the
    code computes is.

    Machine integers are [Z] with their bounds written out where the code
    checks, saturates or casts.  Instants are nanoseconds from the epoch in
    the queues and in the ledger, and whole milliseconds in the job store, as
    the columns have them; RFC 3339 columns are compared as instants, which is
    their text order for the four-digit years a clock produces.

    What lives outside the repository is a parameter: chrono's ranges
    ([Chrono]), the iteration order of a hash set ([HashIter]), the order SQL
    leaves open among equal rows ([SqlOrder], [ExpiryOrder]), the text encodings
    of columns ([TextCodec] with its laws), lengths of JSON encodings and
    SHA-256 ([JobCodec]), JSON values ([JsonValues]), the JSON and digests of model
    jobs ([ModelCodec], whose one law is that an invocation key parses back).
    For the interchange crate they are the JSON reader ([WireJson]), the digest
    and date parser ([Digests]), the CSV crate ([Csv]), the file system
    ([FileSystem]) and byte sources ([Read], whose law is the documented
    contract of [Read::read]).  For the
    adapters they are the HTTP client ([Web], [WireResponses]), the JSON text
    writer ([JsonWriter]), URLs ([Urls]) and SHA-256 ([Sha256]); the credential
    process adds HMAC ([Hmac]), the order of equal deadlines ([PermitOrder]) and
    of a hash map's values ([MapValues]).
    The admission owner of a job is a trait other crates implement: its methods
    are the functions of [AdmissionHooks], on a state of their own; those of the
    credential process are the [job_*] definitions of [EgressProcess].  Clock
    readings, fresh ids and random jitter are arguments.

    The executor is a program over its calls: queue, ledger, caches, sinks,
    clock, provider, slots and rate budgets.  A monitor sees the history; an
    answer is arbitrary unless a theorem says who gives it.  Renewals of a
    lease run beside the work in the code and between its calls in the model.

    ** What the theorems show

    - Executor: a provider is called only with an accepted reservation of its
      own, unused, under a lease renewed since ([dispatch_guarded]); a call that
      returns has given back every item it claimed, and the reservations it was
      granted are exactly those it spent and those it released, or it was handed
      one and left it to its owner ([call_accounts]).  Over one ledger, for any
      number of callers that are no durable jobs, each reservation is dispatched
      at most once ([pool_dispatches_once]), and an invocation's provider calls
      with every other attempt the ledger counts stay within its frozen limit
      ([pool_attempts_bounded]).  The other users of that ledger, durable jobs
      among them, may call anything, but release and settle only what was
      granted to them ([others_may]).  A durable job calls its provider once,
      after claim and admission ([job_dispatch_guarded]), and its end says no
      more than the answer proved ([job_end_evidence]).  What the credential
      boundary lets through spells the credential nowhere, in none of the listed
      encodings ([credential_contained]; [clean] says so without the checker).
    - Adapters: a call posts at most one request, whole and within its limits,
      the output ceiling included ([chat_requests_bounded],
      [retrieval_requests_bounded]); an answer is computed from the provider's
      answer to that request, accounted, and free of the credential
      ([chat_answers_accounted]); embeddings are complete and those of the
      provider, of the compatible adapters and of Gemini
      ([embeddings_complete]), reranked hits distinct and sorted
      ([rerank_hits_ranked]); a registry serves what it was configured with,
      every entry of which meets its rules ([registry_resolves]).
    - Classification: what a classifier returns meets the public contract
      ([classified_answers_valid]); a request is sent exactly when it fits
      ([jev_requests_exact]).
    - Credential process, in every interleaving of requests, dispatches, signed
      jobs, other users of the ledger, crashes and restarts: an accepted attempt
      is never accepted again ([accepted_once]); of the accepted attempts of an
      invocation all but one were free ([invocation_charged_once]), their number
      stays within the route's limit ([handoffs_bounded]), and one whose charge is
      open admits no successor ([open_charge_blocks]); a request has one open send
      ([one_open_send]), and one that was free leaves the allowance its admission
      found ([allowance_settled]); a recorded completion is what every query of
      any later history reads until its deadline ([completion_recovered]), and a
      purge is one that no query can notice ([purge_invisible]); what a completion says of its charge is what it knows
      ([completion_honest]).  Signatures verify what they signed, each kind in
      its own domain ([signatures_exact]); frames are whole ([frame_exact]).  A
      deployment that is accepted serves each route as configured, without
      hidden retries ([deployment_resolves]).
    - Core: printing and parsing of the closed codes are inverse; queue ids are
      injective where the parts hold no colon (and collide otherwise).
    - Queue backends: every call refines the abstract contract, and the in-process
      queue panics exactly on a retry time out of range ([memory_calls_lawful],
      [sqlite_calls_lawful]); a claim returns the due items in order, within
      limit and cap, and leases them ([*_claim_serves], [*_cap_holds]); the fence
      refuses every holder but the current one ([*_fence]); failures, sweeps,
      cooldowns and deduplication do what the contract says; a stored row reads
      back as the item it was written from.
    - Job store: every request moves each job along the lifecycle and keeps the
      invariant ([jobs_calls_lawful]); a stale claim can do nothing ([jobs_fence]);
      claims, completions, confirmations, erasure, paging and maintenance are
      characterised on every branch, with their bounds.
    - Runner: in every interleaving no two workers execute the same attempt
      ([pool_exclusive]); a worker goes on only after the store has its result
      ([finished_work_stored]); after the stop signal the pool takes no new
      request, ends after a bounded number of steps and never blocks
      ([pool_drains]); the supervisor reports every failure
      ([pool_reports_errors]), heartbeat failures with their counts
      ([heartbeats_counted]).
    - Spend ledger: counters equal what they count, in every reachable state
      ([ledger_accounts_sound]); a reservation is accepted exactly within its
      budgets ([reserve_decides]); evidence is final, refunds happen once,
      handoffs are used once; the batched expiry loop terminates and equals one
      sweep; answers are readable until they expire.
    - Model jobs: jobs and ledger keep both invariants through every
      interleaving of client requests, worker steps and direct ledger calls
      ([model_jobs_sound]); a claim is handed out together with exactly one
      reservation ([claim_pays_once]); confirmed jobs are acknowledged and the jobs
      of an erased owner purged, and their paid answers leave the ledger in the
      same transaction ([erasure_reaches_ledger]).
    - Interchange: decoding accepts exactly the well-formed bundles and plans
      ([decode_bundle_exact]); a bundle bound to a
      destination cannot widen it ([destination_contains]); a verified file
      lies below its root, behind no link, with the declared bytes
      ([bundle_file_verified], [verification_terminates]); no presented CSV
      cell is a formula, imports are exact
      ([csv_import_exact]) and Markdown presentations read back
      ([markdown_roundtrip]).

    ** Fuel

    [expire_loop] has one round more than there are receipts, which is enough
    because each round but the last clears at least one ([expire_loop_spec]).
    [hash_loop] has one round more than the bytes it may read, and each round
    but the last reads one ([hash_loop_ends]).  The executor's waits
    ([queued_loop], [job_admission] and the like) may go round forever in the code;
    their fuel is a variable of every theorem, and a program that has used it
    up is one that still waits.  Every other recursion of the models is
    structural.

    ** Not modelled

    Durable jobs as callers of [ExecutorPool]: their reservations are made by
    the claim of [ModelJobs], in its transaction, and count there as those of
    another user.  The error of a job whose call is shared when it is prepared
    ([Arc::get_mut]); the commits between
    the batches of [expire_recovery] and between the look-up of a grant and its
    issue, which are one step here; the signing domain of the job commands.
    Opening files, pragmas and schema versions; timers and the scheduler (a
    store call is one step, which is what the mutexes and immediate
    transactions enforce, and steps of different tasks come in any order); the
    float arithmetic of rate buckets and the slot semaphore (calls of the
    executor); the signed job commands of the credential process, how it builds
    its provider adapters and loads secrets, its sockets and sandbox; process
    supervision. *)

From Stdlib Require Import ZArith Lia.
From stdpp Require Import base gmap strings list sets fin_maps sorting.

#[local] Open Scope Z_scope.

(** ** Outcomes of Rust calls *)

(** [Ok] and [Err] are the two variants of Rust's [Result]; [Panic] is a
    panicking call ([expect], an absent map index, overflowing date
    arithmetic), which returns no value at all. *)
Inductive result (E A : Type) : Type :=
| Ok (a : A)
| Err (e : E)
| Panic.
Arguments Ok {E A} a.
Arguments Err {E A} e.
Arguments Panic {E A}.

Definition rbind {E A B : Type} (c : result E A) (k : A → result E B) : result E B :=
  match c with
  | Ok a => k a
  | Err e => Err e
  | Panic => Panic
  end.

Declare Scope rust_scope.
Delimit Scope rust_scope with rust.
Notation "'let?' x ':=' c 'in' k" := (rbind c (λ x, k))
  (at level 10, x binder, c at level 100, k at level 200) : rust_scope.
#[global] Open Scope rust_scope.

(** Option to result, Rust's [ok_or]. *)
Definition ok_or {E A : Type} (o : option A) (e : E) : result E A :=
  match o with Some a => Ok a | None => Err e end.

(** [map_err]. *)
Definition map_err {E F A : Type} (f : E → F) (c : result E A) : result F A :=
  match c with Ok a => Ok a | Err e => Err (f e) | Panic => Panic end.

(** [expect] and map indexing: absence is a panic. *)
Definition expect {E A : Type} (o : option A) : result E A :=
  match o with Some a => Ok a | None => Panic end.

(** [Option::is_some]. *)
Definition is_some {A : Type} (o : option A) : bool := match o with Some _ => true | None => false end.

Definition is_panic {E A : Type} (r : result E A) : bool :=
  match r with Panic => true | _ => false end.

Definition is_ok {E A : Type} (r : result E A) : bool :=
  match r with Ok _ => true | _ => false end.

#[global] Instance result_eq_dec {E A : Type} `{EqDecision E, EqDecision A} :
  EqDecision (result E A).
Proof. solve_decision. Defined.

Lemma rbind_ok {E A B : Type} (c : result E A) (k : A → result E B) b :
  rbind c k = Ok b → ∃ a, c = Ok a ∧ k a = Ok b.
Proof. destruct c; simpl; naive_solver. Qed.

Lemma rbind_panic {E A B : Type} (c : result E A) (k : A → result E B) :
  c ≠ Panic → (∀ a, c = Ok a → k a ≠ Panic) → rbind c k ≠ Panic.
Proof. destruct c; simpl; naive_solver. Qed.

Lemma ok_or_ok {E A : Type} (o : option A) (e : E) a : ok_or o e = Ok a → o = Some a.
Proof. destruct o; simpl; naive_solver. Qed.

Lemma map_err_ok {E F A : Type} (f : E → F) (c : result E A) a : map_err f c = Ok a → c = Ok a.
Proof. destruct c; simpl; naive_solver. Qed.

(** A [for] loop whose body returns early on an error. *)
Fixpoint for_each {E S A : Type} (body : S → A → result E S) (s : S) (l : list A) : result E S :=
  match l with
  | [] => Ok s
  | a :: l => let? s := body s a in for_each body s l
  end.

(** A guard: [if b { return Err(e) }]. *)
Definition reject_if {E : Type} (b : bool) (e : E) : result E unit := if b then Err e else Ok tt.

Lemma reject_if_ok {E : Type} (b : bool) (e : E) : reject_if b e = Ok tt ↔ b = false.
Proof. by destruct b. Qed.

(** A check passes when its parts do. *)
Lemma rbind_unit_ok {E B : Type} (c : result E unit) (k : result E B) b :
  (let? _ := c in k) = Ok b ↔ c = Ok tt ∧ k = Ok b.
Proof. destruct c as [[]| |]; simpl; naive_solver. Qed.

(** A loop that only checks. *)
Lemma for_each_unit {E A : Type} (body : A → result E unit) l :
  for_each (λ _, body) tt l = Ok tt ↔ Forall (λ a, body a = Ok tt) l.
Proof.
  induction l as [|a l IH]; simpl; [by split|]. rewrite Forall_cons, <-IH.
  destruct (body a) as [[]| |]; simpl; naive_solver.
Qed.

(** The response of an operation that returns a new state with it. *)
Definition answer {E S A : Type} (c : result E (S * A)) : option A :=
  match c with Ok (_, a) => Some a | _ => None end.

Lemma answered {E S A : Type} (c : result E (S * A)) a : answer c = Some a → ∃ s, c = Ok (s, a).
Proof. destruct c as [[s b]| |]; simpl; [|done..]. intros [= ->]. by exists s. Qed.

(** ** Machine integers *)

(** Unsigned integers are [Z]s in the range of their width; the operations
    below write out what Rust does at the bounds. *)
Definition u32_max : Z := 4294967295.
Definition u64_max : Z := 18446744073709551615.
Definition i64_max : Z := 9223372036854775807.
(** [usize] on the 64-bit targets the workspace builds for. *)
Definition usize_max : Z := u64_max.

(** [a.checked_add(b)] for a type whose largest value is [max]. *)
Definition checked_add (max a b : Z) : option Z :=
  if a + b <=? max then Some (a + b) else None.

(** [a.saturating_add(b)]. *)
Definition saturating_add (max a b : Z) : Z := Z.min max (a + b).

(** [a.saturating_sub(b)] on an unsigned type. *)
Definition saturating_sub (a b : Z) : Z := Z.max 0 (a - b).

(** [i64::try_from(n)] for an unsigned [n]. *)
Definition i64_try_from (n : Z) : option Z := if n <=? i64_max then Some n else None.

(** [n as i64] for a [u64]: two's complement reinterpretation. *)
Definition u64_as_i64 (n : Z) : Z := if n <=? i64_max then n else n - 18446744073709551616.

Lemma checked_add_some max a b c : checked_add max a b = Some c → c = a + b ∧ c ≤ max.
Proof. unfold checked_add. case_match eqn:E; [|done]. intros [= <-]. lia. Qed.

Lemma checked_add_none max a b : checked_add max a b = None → max < a + b.
Proof. unfold checked_add. case_match eqn:E; [done|]. lia. Qed.

(** ** Instants *)

(** A [chrono::DateTime<Utc>] is its distance in nanoseconds from the Unix
    epoch; [Utc::now()] is an argument of every operation that reads it. *)
Abbreviation DateTime := Z (only parsing).

Definition nanos_per_second : Z := 1000000000.

(** What the code uses of chrono's bounded types: which second counts
    [Duration::try_seconds] accepts, which standard durations (in nanoseconds)
    [Duration::from_std] accepts and which instants a [DateTime<Utc>] can
    hold. *)
Class Chrono : Type := {
  duration_ok : Z → bool;
  from_std_ok : Z → bool;
  instant_ok : Z → bool;
}.

(** The bounds chrono documents: [TimeDelta] holds at most [i64::MAX]
    milliseconds, [DateTime::MIN_UTC] and [MAX_UTC] are 262,143 years before
    and 262,142 years after year zero. *)
Definition chrono_range : Chrono := {|
  duration_ok s := (-9223372036854775 <=? s) && (s <=? 9223372036854775);
  from_std_ok d := d <=? i64_max * 1000000;
  instant_ok t := (-8334601228800 * nanos_per_second <=? t)
                  && (t <? 8210266876800 * nanos_per_second);
|}.

(** [Duration::try_seconds(s)] followed by [now.checked_add_signed]. *)
Definition checked_add_seconds `{Chrono} (now : DateTime) (s : Z) : option DateTime :=
  if duration_ok s && instant_ok (now + s * nanos_per_second)
  then Some (now + s * nanos_per_second) else None.

(** [now + Duration::seconds(s)]: the same values, but a panic out of range. *)
Definition add_seconds {E : Type} `{Chrono} (now : DateTime) (s : Z) : result E DateTime :=
  expect (checked_add_seconds now s).

Lemma checked_add_seconds_some `{Chrono} now s t :
  checked_add_seconds now s = Some t → t = now + s * nanos_per_second.
Proof. unfold checked_add_seconds. case_match; naive_solver. Qed.

(** ** Text *)

(** Bytes ([Vec<u8>]) and UTF-8 strings are both [string]s, one character per
    byte. *)
Abbreviation Bytes := string (only parsing).

(** [Vec::len] and [str::len]. *)
Definition byte_len (b : Bytes) : Z := Z.of_nat (String.length b).

(** UTF-8 encodings of Unicode [White_Space], which [str::trim] strips. *)
Definition ws1 (a : Ascii.ascii) : bool :=
  let a := Ascii.nat_of_ascii a in ((9 <=? a) && (a <=? 13) || (a =? 32))%nat.

Definition ws2 (a b : Ascii.ascii) : bool :=
  let a := Ascii.nat_of_ascii a in
  let b := Ascii.nat_of_ascii b in
  ((a =? 194) && ((b =? 133) || (b =? 160)))%nat.

Definition ws3 (a b c : Ascii.ascii) : bool :=
  let a := Ascii.nat_of_ascii a in
  let b := Ascii.nat_of_ascii b in
  let c := Ascii.nat_of_ascii c in
  ((a =? 225) && (b =? 154) && (c =? 128)
   || (a =? 226) && (b =? 128)
      && ((128 <=? c) && (c <=? 138) || (c =? 168) || (c =? 169) || (c =? 175))
   || (a =? 226) && (b =? 129) && (c =? 159)
   || (a =? 227) && (b =? 128) && (c =? 128))%nat.

(** [s.trim().is_empty()] for a string held as its UTF-8 bytes. *)
Fixpoint blank (s : string) : bool :=
  match s with
  | EmptyString => true
  | String a s1 =>
      if ws1 a then blank s1
      else match s1 with
           | String b s2 =>
               if ws2 a b then blank s2
               else match s2 with
                    | String c s3 => if ws3 a b c then blank s3 else false
                    | EmptyString => false
                    end
           | EmptyString => false
           end
  end.

(** ** SQL-style table updates *)

(** [UPDATE t SET ... WHERE p] on a table held as a list of rows. *)
Definition update_where {A : Type} (p : A → bool) (f : A → A) (l : list A) : list A :=
  (λ x, if p x then f x else x) <$> l.

(** The rows of [t] satisfying [p]. *)
Definition select_where {A : Type} (p : A → bool) (l : list A) : list A :=
  filter (λ x, p x = true) l.

Lemma elem_of_select_where {A : Type} (p : A → bool) l x :
  x ∈ select_where p l ↔ x ∈ l ∧ p x = true.
Proof. unfold select_where. rewrite list_elem_of_filter. tauto. Qed.

Lemma select_where_none {A : Type} (p : A → bool) l :
  (∀ x, x ∈ l → p x = false) → select_where p l = [].
Proof.
  unfold select_where. induction l as [|x l IH]; intros Hno; [done|].
  rewrite filter_cons_False by (rewrite (Hno x); [done|left]). apply IH.
  intros y Hy. apply Hno. by right.
Qed.

Lemma select_where_all {A : Type} (p : A → bool) l :
  (∀ x, x ∈ l → p x = true) → select_where p l = l.
Proof.
  unfold select_where. induction l as [|x l IH]; intros Hall; [done|].
  rewrite filter_cons_True by (apply Hall; left). f_equal. apply IH.
  intros y Hy. apply Hall. by right.
Qed.

Lemma length_update_where {A : Type} (p : A → bool) f l :
  length (update_where p f l) = length l.
Proof. apply length_fmap. Qed.

Lemma elem_of_update_where {A : Type} (p : A → bool) f l y :
  y ∈ update_where p f l ↔ ∃ x, x ∈ l ∧ y = (if p x then f x else x).
Proof. unfold update_where. rewrite list_elem_of_fmap. naive_solver. Qed.

(** An update that keeps a key column keeps the list of keys. *)
Lemma update_where_key {A K : Type} (key : A → K) p f (l : list A) :
  (∀ x, key (f x) = key x) → key <$> update_where p f l = key <$> l.
Proof.
  intros Hk. unfold update_where. rewrite <-list_fmap_compose.
  apply list_fmap_ext. intros i x _. simpl. by destruct (p x).
Qed.

Lemma select_where_app {A : Type} (p : A → bool) l k :
  select_where p (l ++ k) = select_where p l ++ select_where p k.
Proof. apply filter_app. Qed.

Lemma select_where_cons {A : Type} (p : A → bool) x l :
  select_where p (x :: l) = if p x then x :: select_where p l else select_where p l.
Proof.
  unfold select_where. destruct (p x) eqn:E;
    [by rewrite filter_cons_True|rewrite filter_cons_False; [done|congruence]].
Qed.

Lemma update_where_app {A : Type} (p : A → bool) f l k :
  update_where p f (l ++ k) = update_where p f l ++ update_where p f k.
Proof. apply fmap_app. Qed.

Lemma update_where_none {A : Type} (p : A → bool) f l :
  (∀ x, x ∈ l → p x = false) → update_where p f l = l.
Proof.
  induction l as [|x l IH]; intros Hno; [done|]. unfold update_where. simpl.
  rewrite (Hno x) by left. f_equal. apply IH. intros y Hy. apply Hno. by right.
Qed.

(** [SELECT count(... WHERE p)]. *)
Definition count_where {A : Type} (p : A → bool) (l : list A) : Z :=
  Z.of_nat (length (select_where p l)).

Lemma count_where_app {A : Type} (p : A → bool) l k :
  count_where p (l ++ k) = count_where p l + count_where p k.
Proof. unfold count_where. rewrite select_where_app, length_app. lia. Qed.

Lemma count_where_cons {A : Type} (p : A → bool) x l :
  count_where p (x :: l) = (if p x then 1 else 0) + count_where p l.
Proof. unfold count_where. rewrite select_where_cons. destruct (p x); simpl length; lia. Qed.

Lemma count_where_nil {A : Type} (p : A → bool) : count_where p [] = 0.
Proof. done. Qed.

Lemma count_where_nonneg {A : Type} (p : A → bool) l : 0 ≤ count_where p l.
Proof. unfold count_where. lia. Qed.

(** An update that keeps what a selection looks at commutes with it. *)
Lemma select_update {A : Type} (q p : A → bool) f l :
  (∀ x, q (f x) = q x) → select_where q (update_where p f l) = update_where p f (select_where q l).
Proof.
  intros Hq. unfold update_where. induction l as [|x l IH]; [done|].
  rewrite fmap_cons, !select_where_cons, IH. destruct (p x) eqn:E; [rewrite Hq|]; destruct (q x);
    rewrite ?fmap_cons, ?E; done.
Qed.

Lemma head_update {A : Type} (p : A → bool) f l :
  head (update_where p f l) = (λ x, if p x then f x else x) <$> head l.
Proof. by destruct l. Qed.

Lemma last_update {A : Type} (p : A → bool) f l :
  last (update_where p f l) = (λ x, if p x then f x else x) <$> last l.
Proof. apply fmap_last. Qed.

Lemma update_where_compose {A : Type} (p : A → bool) f g l :
  (∀ x, p (f x) = p x) → update_where p g (update_where p f l) = update_where p (g ∘ f) l.
Proof.
  intros Hp. unfold update_where. rewrite <-list_fmap_compose. apply list_fmap_ext.
  intros i x _. simpl. destruct (p x) eqn:E; [by rewrite Hp, E|by rewrite E].
Qed.

Lemma update_where_id {A : Type} (p : A → bool) f l :
  (∀ x, x ∈ l → p x = true → f x = x) → update_where p f l = l.
Proof.
  intros Hf. rewrite <-(list_fmap_id l) at 2. apply Forall_fmap_ext_1, Forall_forall. intros x Hx.
  simpl. destruct (p x) eqn:E; [by apply Hf|done].
Qed.

Lemma count_where_length {A : Type} (p : A → bool) l : count_where p l ≤ Z.of_nat (length l).
Proof. induction l as [|x l IH]; [done|]. rewrite count_where_cons. simpl length. destruct (p x); lia. Qed.

(** The rows of a table with their positions, and how many of [chosen], part of
    the selection [sel], a count finds. *)
Lemma count_chosen {A : Type} (chosen rest sel : list (nat * A)) :
  NoDup sel.*1 → sel ≡ₚ chosen ++ rest →
  count_where (λ p, bool_decide (p.1 ∈ chosen.*1)) sel = Z.of_nat (length chosen).
Proof.
  intros Hnd Hp. unfold count_where, select_where. rewrite Hp in Hnd |- *.
  fold (select_where (λ p : nat * A, bool_decide (p.1 ∈ chosen.*1)) (chosen ++ rest)).
  rewrite select_where_app, (select_where_none _ rest), select_where_all, app_nil_r; [done| |].
  - intros p Hc. apply bool_decide_eq_true. by apply list_elem_of_fmap_2.
  - intros p Hr. apply bool_decide_eq_false. rewrite fmap_app in Hnd.
    apply NoDup_app in Hnd as (_ & Hd & _). intros Hc. eapply Hd; [done|]. by apply list_elem_of_fmap_2.
Qed.

Lemma imap_pair_snd {A : Type} (l : list A) : (imap pair l).*2 = l.
Proof. rewrite fmap_imap. rewrite <-(list_fmap_id l) at 2. apply (imap_const id). Qed.

Lemma imap_pair_fst {A : Type} (l : list A) : NoDup (imap pair l).*1.
Proof. rewrite fmap_imap. change (NoDup (imap (λ n _, id n) l)). rewrite imap_seq_0. apply NoDup_fmap_2; [apply _|apply NoDup_seq]. Qed.

(** In a table with a unique key, the row with the key is found, and an update
    by the key changes that row alone. *)
Lemma unique_key_split {A : Type} (key : A → string) k (l : list A) x :
  NoDup (key <$> l) → head (select_where (λ y, bool_decide (key y = k)) l) = Some x →
  ∃ l1 l2, l = l1 ++ x :: l2 ∧ key x = k
    ∧ (∀ y, y ∈ l1 → key y ≠ k) ∧ (∀ y, y ∈ l2 → key y ≠ k).
Proof.
  induction l as [|y l IH]; [done|]. rewrite fmap_cons, NoDup_cons, select_where_cons.
  intros [Hy Hnd]. case_bool_decide as E.
  - intros [= ->]. exists [], l. split_and!; [done|done|by intros ? ?%elem_of_nil|].
    intros z Hz Ez. apply Hy. rewrite E, <-Ez. by apply list_elem_of_fmap_2.
  - intros Hh. destruct (IH Hnd Hh) as (l1 & l2 & -> & Hk & H1 & H2).
    exists (y :: l1), l2. split_and!; [done|done| |done].
    intros z [->|Hz]%elem_of_cons; [done|by apply H1].
Qed.

Lemma unique_key_update {A : Type} (key : A → string) k f (l1 l2 : list A) x :
  key x = k → (∀ y, y ∈ l1 → key y ≠ k) → (∀ y, y ∈ l2 → key y ≠ k) →
  update_where (λ y, bool_decide (key y = k)) f (l1 ++ x :: l2) = l1 ++ f x :: l2.
Proof.
  intros Hx H1 H2. rewrite update_where_app, (update_where_none _ _ l1).
  - f_equal. unfold update_where at 1. simpl. rewrite bool_decide_eq_true_2 by done. f_equal.
    apply update_where_none. intros y Hy. by apply bool_decide_eq_false, H2.
  - intros y Hy. by apply bool_decide_eq_false, H1.
Qed.

(** Counting lemmas, for [autorewrite with sql]. *)
Create HintDb sql.
#[export] Hint Rewrite @select_where_app @select_where_cons @count_where_app @count_where_cons
  @count_where_nil : sql.
#[export] Hint Resolve count_where_nonneg : sql.

(** ** Maps *)

Lemma alter_as_insert {V : Type} (f : V → V) k v (m : gmap string V) :
  m !! k = Some v → alter f k m = <[k := f v]> m.
Proof.
  intros Hk. apply map_eq. intros k'. destruct (decide (k = k')) as [<-|Hne].
  - by rewrite lookup_alter_eq, lookup_insert_eq, Hk.
  - by rewrite lookup_alter_ne, lookup_insert_ne.
Qed.

(** ** Automation *)

(** Splits the leftmost conditional or match of a hypothesis. *)
Ltac split_in H :=
  match type of H with
  | context [if ?b then _ else _] => destruct b eqn:?
  | context [match ?x with _ => _ end] => destruct x eqn:?
  end.

(** Boolean connectives in hypotheses to propositions. *)
Ltac bools :=
  repeat match goal with
  | H : _ && _ = true |- _ => apply andb_true_iff in H; destruct H
  | H : _ || _ = false |- _ => apply orb_false_iff in H; destruct H
  | H : negb _ = true |- _ => apply negb_true_iff in H
  | H : negb _ = false |- _ => apply negb_false_iff in H
  | H : (_ <=? _) = true |- _ => apply Z.leb_le in H
  | H : (_ <=? _) = false |- _ => apply Z.leb_gt in H
  | H : (_ <? _) = true |- _ => apply Z.ltb_lt in H
  | H : (_ <? _) = false |- _ => apply Z.ltb_ge in H
  | H : (_ =? _) = true |- _ => apply Z.eqb_eq in H
  | H : (_ =? _) = false |- _ => apply Z.eqb_neq in H
  | H : bool_decide _ = true |- _ => apply bool_decide_eq_true in H
  | H : bool_decide _ = false |- _ => apply bool_decide_eq_false in H
  end.

(** Evaluates binds of known outcomes, and nothing else. *)
Ltac rsimpl := cbn [rbind expect ok_or fst snd].

(** Runs a request to its last write: binds that failed and guards that
    refused are closed, the others named by [E], [E0], ... *)
Ltac walk :=
  repeat match goal with
  | |- rbind ?c _ = _ → _ =>
      let E := fresh "E" in destruct c as [?| |] eqn:E; rsimpl; [|done..]
  | |- (match ?p with (_, _) => _ end = _ → _) => destruct p as [? ?]; rsimpl
  | |- ((if ?b then Err _ else _) = _ → _) => let E := fresh "E" in destruct b eqn:E; [done|]
  end.

(** Splits the conditional a request runs into. *)
Ltac branch :=
  match goal with
  | |- ((if ?b then _ else _) = _ → _) => let E := fresh "E" in destruct b eqn:E
  end.

Lemma Forall2_impl_elem {A B : Type} (P Q : A → B → Prop) l k :
  Forall2 P l k → (∀ x y, x ∈ l → P x y → Q x y) → Forall2 Q l k.
Proof.
  induction 1; intros Himp; constructor; [by apply Himp; [left|]|].
  apply IHForall2. intros. apply Himp; [by right|done].
Qed.
