(* ===== verification/Text.v ===== *)
(** Rust's [str] as the workspace uses it: searching, splitting, trimming and
    replacing on the UTF-8 bytes of a string, with the lemmas the text
    components share. *)

From Stdlib Require Import ZArith Lia.
From stdpp Require Import base gmap strings list.
From S2P Require Import Prelude.

#[local] Open Scope Z_scope.

(** ** Characters and bytes *)

Definition code (a : Ascii.ascii) : Z := Z.of_nat (Ascii.nat_of_ascii a).

(** [s.bytes().all(p)] and [s.bytes().any(p)]. *)
Fixpoint all_bytes (p : Ascii.ascii → bool) (s : string) : bool :=
  match s with
  | EmptyString => true
  | String a s => p a && all_bytes p s
  end.

(** [s.contains(c)] for an ASCII character. *)
Fixpoint contains_char (c : Ascii.ascii) (s : string) : bool :=
  match s with
  | EmptyString => false
  | String a s => Ascii.eqb a c || contains_char c s
  end.

(** [s.contains(pattern)]. *)
Fixpoint contains_str (pattern s : string) : bool :=
  String.prefix pattern s
  || match s with EmptyString => false | String _ s => contains_str pattern s end.

(** [s.starts_with([c, ...])] for ASCII characters. *)
Definition starts_with_any (cs : list Ascii.ascii) (s : string) : bool :=
  match s with
  | EmptyString => false
  | String a _ => existsb (Ascii.eqb a) cs
  end.

(** [s.trim_start()]. *)
Fixpoint trim_start (s : string) : string :=
  match s with
  | EmptyString => EmptyString
  | String a s1 =>
      if ws1 a then trim_start s1
      else match s1 with
           | String b s2 =>
               if ws2 a b then trim_start s2
               else match s2 with
                    | String c s3 => if ws3 a b c then trim_start s3 else s
                    | EmptyString => s
                    end
           | EmptyString => s
           end
  end.

(** [s.split(c)] for an ASCII character: one piece more than separators. *)
Fixpoint split_on (c : Ascii.ascii) (s : string) : list string :=
  match s with
  | EmptyString => [EmptyString]
  | String a s =>
      if Ascii.eqb a c then EmptyString :: split_on c s
      else match split_on c s with
           | piece :: pieces => String a piece :: pieces
           | [] => [String a EmptyString]
           end
  end.

(** [pieces.join(separator)]. *)
Fixpoint join (separator : string) (pieces : list string) : string :=
  match pieces with
  | [] => EmptyString
  | [piece] => piece
  | piece :: pieces => piece +:+ separator +:+ join separator pieces
  end.

(** A string rewritten byte by byte. *)
Fixpoint map_bytes (f : Ascii.ascii → string) (s : string) : string :=
  match s with
  | EmptyString => EmptyString
  | String a s => f a +:+ map_bytes f s
  end.

(** [s.replace(c, by)] for an ASCII character. *)
Definition replace_char (c : Ascii.ascii) (by_ : string) (s : string) : string :=
  map_bytes (λ a, if Ascii.eqb a c then by_ else String a EmptyString) s.

(** ** UTF-8 *)

Definition between (lo hi : Z) (a : Ascii.ascii) : bool := (lo <=? code a) && (code a <=? hi).

(** A continuation byte. *)
Definition continuation (a : Ascii.ascii) : bool := between 128 191 a.

(** [str::from_utf8(bytes).is_ok()]: the well-formed byte sequences. *)
Fixpoint utf8_valid (s : string) : bool :=
  match s with
  | EmptyString => true
  | String a s1 =>
      if code a <? 128 then utf8_valid s1
      else match s1 with
           | EmptyString => false
           | String b s2 =>
               if between 194 223 a then continuation b && utf8_valid s2
               else match s2 with
                    | EmptyString => false
                    | String c s3 =>
                        if (code a =? 224) && between 160 191 b
                           || between 225 236 a && continuation b
                           || (code a =? 237) && between 128 159 b
                           || between 238 239 a && continuation b
                        then continuation c && utf8_valid s3
                        else match s3 with
                             | EmptyString => false
                             | String d s4 =>
                                 ((code a =? 240) && between 144 191 b
                                  || between 241 243 a && continuation b
                                  || (code a =? 244) && between 128 143 b)
                                 && continuation c && continuation d && utf8_valid s4
                             end
                    end
           end
  end.

(** ** Lemmas *)

Lemma str_app_cons a s t : String a s +:+ t = String a (s +:+ t).
Proof. done. Qed.

Lemma str_app_nil s : EmptyString +:+ s = s.
Proof. done. Qed.

Lemma str_app_nil_r s : s +:+ EmptyString = s.
Proof. induction s as [|a s IH]; [done|]. by rewrite str_app_cons, IH. Qed.

Lemma str_app_assoc s t u : s +:+ (t +:+ u) = (s +:+ t) +:+ u.
Proof. induction s as [|a s IH]; [done|]. by rewrite !str_app_cons, IH. Qed.

(** Appends evaluated from the left, for [autorewrite with text]. *)
Create HintDb text.
#[export] Hint Rewrite str_app_cons str_app_nil str_app_nil_r : text.

Lemma byte_len_app s t : byte_len (s +:+ t) = byte_len s + byte_len t.
Proof. unfold byte_len. induction s as [|a s IH]; [done|]. rewrite str_app_cons. simpl String.length in *. lia. Qed.

Lemma byte_len_nonneg s : 0 ≤ byte_len s.
Proof. unfold byte_len. lia. Qed.

Lemma byte_len_zero s : byte_len s = 0 → s = EmptyString.
Proof. unfold byte_len. destruct s; [done|simpl String.length; lia]. Qed.

Lemma map_bytes_app f s t : map_bytes f (s +:+ t) = map_bytes f s +:+ map_bytes f t.
Proof. induction s as [|a s IH]; [done|]. rewrite str_app_cons. simpl. by rewrite IH, str_app_assoc. Qed.

Lemma map_bytes_compose f g s : map_bytes g (map_bytes f s) = map_bytes (λ a, map_bytes g (f a)) s.
Proof. induction s as [|a s IH]; [done|]. simpl. by rewrite map_bytes_app, IH. Qed.

Lemma map_bytes_ext f g s : (∀ a, f a = g a) → map_bytes f s = map_bytes g s.
Proof. intros Hfg. induction s as [|a s IH]; [done|]. simpl. by rewrite Hfg, IH. Qed.

Lemma map_bytes_id s : map_bytes (λ a, String a EmptyString) s = s.
Proof. induction s as [|a s IH]; [done|]. simpl. by rewrite IH. Qed.

Lemma contains_char_app c s t : contains_char c (s +:+ t) = contains_char c s || contains_char c t.
Proof. induction s as [|a s IH]; [done|]. rewrite str_app_cons. simpl. by rewrite IH, orb_assoc. Qed.

Lemma contains_map_bytes c f s : (∀ a, contains_char c (f a) = false) → contains_char c (map_bytes f s) = false.
Proof.
  intros Hf. induction s as [|a s IH]; [done|]. simpl. by rewrite contains_char_app, Hf, IH.
Qed.

(** A text without the separator is one piece. *)
Lemma split_on_clean c s : contains_char c s = false → split_on c s = [s].
Proof.
  induction s as [|a s IH]; [done|]. simpl. intros [-> Hs]%orb_false_iff. by rewrite IH.
Qed.

Lemma split_on_cut c s t : contains_char c s = false → split_on c (s +:+ String c t) = s :: split_on c t.
Proof.
  induction s as [|a s IH]; autorewrite with text; simpl.
  - intros _. by rewrite Ascii.eqb_refl.
  - intros [-> Hs]%orb_false_iff. by rewrite IH.
Qed.

Lemma split_on_nonempty c s : split_on c s ≠ [].
Proof. destruct s as [|a s]; simpl; [done|]. by destruct (Ascii.eqb a c), (split_on c s). Qed.

(** Splitting and joining by the separator is the identity, and the pieces do
    not hold it. *)
Lemma join_split_on c s : join (String c EmptyString) (split_on c s) = s.
Proof.
  induction s as [|a s IH]; [done|]. simpl. pose proof (split_on_nonempty c s) as Hne.
  destruct (Ascii.eqb a c) eqn:E; destruct (split_on c s) as [|p ps] eqn:Es; try done.
  - apply Ascii.eqb_eq in E as ->. simpl in IH |- *. by rewrite IH.
  - simpl in IH |- *. destruct ps; simpl; by rewrite <-IH.
Qed.

Lemma split_on_pieces c s : Forall (λ piece, contains_char c piece = false) (split_on c s).
Proof.
  induction s as [|a s IH]; [by constructor|]. simpl. destruct (Ascii.eqb a c) eqn:E; [by constructor|].
  destruct (split_on c s) as [|p ps]; inversion_clear IH; constructor; simpl; by rewrite ?E.
Qed.

(** ** Occurrences *)

(** The text [needle] stands somewhere in [hay]. *)
Definition occurs (needle hay : string) : Prop := ∃ before after, hay = before +:+ needle +:+ after.

Lemma prefix_spec p s : String.prefix p s = true ↔ ∃ after, s = p +:+ after.
Proof.
  revert s. induction p as [|a p IH]; intros s; [split; [by exists s|by destruct s]|].
  destruct s as [|b s]; cbn [String.prefix]; [split; [done|intros [? Hx]; rewrite str_app_cons in Hx; discriminate Hx]|].
  destruct (Ascii.ascii_dec a b) as [->|Hne].
  - rewrite IH. split; intros [t Ht]; exists t; rewrite str_app_cons in *; [by rewrite Ht|by injection Ht].
  - split; [done|]. intros [t Ht]. rewrite str_app_cons in Ht. congruence.
Qed.

(** [str::contains] decides occurrence. *)
Lemma contains_str_spec p s : contains_str p s = true ↔ occurs p s.
Proof.
  induction s as [|a s IH]; cbn [contains_str]; rewrite orb_true_iff, prefix_spec.
  - split; [intros [[t Ht]|]; [by exists EmptyString, t|done]|].
    intros (b & t & Ht). left. destruct b; [by exists t|by rewrite str_app_cons in Ht].
  - rewrite IH. split.
    + intros [[t Ht]|(b & t & ->)]; [by exists EmptyString, t|by exists (String a b), t; rewrite str_app_cons].
    + intros (b & t & Ht). destruct b as [|c b]; [left; by exists t|right]. rewrite str_app_cons in Ht. injection Ht as _ ->. by exists b, t.
Qed.

Lemma contains_str_false p s : contains_str p s = false ↔ ¬ occurs p s.
Proof. rewrite <-contains_str_spec. by destruct (contains_str p s). Qed.
