(* ===== verification/Core.v ===== *)
(** [symbiotic-core]: the shared vocabulary of the workspace.

    Identifiers are newtypes over [String]; here they are strings.  The two
    closed vocabularies of [diagnostics.rs] ([DiagnosticCode], [FailureClass])
    are enumerations with the [code], [as_str] and [parse] functions that the
    [closed_codes!] macro generates for each of them; [ModelIdentity] and
    [BindingIdentity] carry the derived queue id and the identity check.
    The theorems show that a stored code always parses back to the value that
    was stored, and that no other text parses to it. *)

From Stdlib Require Import ZArith Ascii.
From stdpp Require Import base strings list.
From S2P Require Import Prelude.

#[local] Open Scope string_scope.

(** ** Closed codes *)

Inductive DiagnosticCode : Type :=
| AClassifyRequestNeedsAtLeastOneQuestion
| AdapterBoundsDifferFromConfiguredBinding
| AdapterCapabilitiesDifferFromConfiguredModel
| BindingDiffersFromConfiguredIdentityModel
| BindingOverridesConfiguredAccountPolicy
| BindingRequiresAnExplicitExecutionPolicyOrConfiguredRegistry
| ClassificationQuestionsCannotBeEncoded
| ConfiguredCredentialModeIsUnsupportedOrEmpty
| CredentialBearingProviderResponseRefused
| CredentialResultBoundaryIsUnavailable
| EffectiveTransportDiffersFromConfiguredBinding
| FiniteNonzeroRequestResponseByteLimitsAreRequired
| GeminiBatchResponseMissingEmbeddings
| GeminiEmbeddingContainsNonFiniteComponents
| GeminiRequestDimensionsDifferFromConfiguredBinding
| OpenaiCompatibleResponseHadNoChoices
| TerminalQueueItemIsMissingItsErrorClass
| UnsupportedChatSettingsReasoningEffortRequiresThinkingAndMustBeNonempty
| AccountSharingKeyIsEmpty
| InvocationCompleted
| AttemptBudgetExhausted
| AuthenticationRejected
| BindingIdentityIsRequired
| CacheFailure
| CachePathRefused
| ChatOutputLimitRequired
| EmbeddingDimensionsMustBeNonzero
| EmbeddingDimensionsRequired
| FiniteOutputTokensAreRequired
| FiniteTimeoutIsRequired
| GeminiEmbeddingDimensionMismatch
| GeminiResponseMissingEmbedding
| GeminiTaskOptionIsUnsupported
| HttpBudgetExhausted
| HttpFailure
| HttpRateLimited
| HttpTimeout
| HttpUnavailable
| InvalidAdapterResponse
| InvalidConfiguration
| InvalidCredentialEncoding
| InvalidHttpClientConfiguration
| InvalidProviderResponse
| InvalidResponse
| LeaseExpired
| MemoryQueueLockPoisoned
| ModelAdmissionLockPoisoned
| ModelRegistryIsNotConfigured
| OutputTokenLimitExceeded
| OutputTokenLimitMustBeNonzero
| ProviderFailure
| ProviderRedirectRefused
| ProviderRequestLimitExceeded
| ProviderResponseIsNotValidUtf8
| ProviderResponseLimitExceeded
| ProviderResponseReadFailed
| QueueResultTooLarge
| QueueFailure
| QueueItemKindMustNotBeEmpty
| RateBucketDisappeared
| RateBucketLockPoisoned
| RateGateLockPoisoned
| RuntimePolicyLockPoisoned
| SqliteQueueLockPoisoned
| StaleQueueItem
| StorageFailure
| SpendReceiptRefTooLong
| SpendLedgerUnavailable
| SpendReconciliationRequired
| SpendBudgetExhausted
| SystemOneNeedsABearerApiKey
| UnsupportedQueueSchema
| WorkerIdMustNotBeEmpty.

#[export] Instance DiagnosticCode_eq_dec : EqDecision DiagnosticCode.
Proof. solve_decision. Defined.

Definition all_DiagnosticCode : list DiagnosticCode :=
  [ AClassifyRequestNeedsAtLeastOneQuestion
  ; AdapterBoundsDifferFromConfiguredBinding
  ; AdapterCapabilitiesDifferFromConfiguredModel
  ; BindingDiffersFromConfiguredIdentityModel
  ; BindingOverridesConfiguredAccountPolicy
  ; BindingRequiresAnExplicitExecutionPolicyOrConfiguredRegistry
  ; ClassificationQuestionsCannotBeEncoded
  ; ConfiguredCredentialModeIsUnsupportedOrEmpty
  ; CredentialBearingProviderResponseRefused
  ; CredentialResultBoundaryIsUnavailable
  ; EffectiveTransportDiffersFromConfiguredBinding
  ; FiniteNonzeroRequestResponseByteLimitsAreRequired
  ; GeminiBatchResponseMissingEmbeddings
  ; GeminiEmbeddingContainsNonFiniteComponents
  ; GeminiRequestDimensionsDifferFromConfiguredBinding
  ; OpenaiCompatibleResponseHadNoChoices
  ; TerminalQueueItemIsMissingItsErrorClass
  ; UnsupportedChatSettingsReasoningEffortRequiresThinkingAndMustBeNonempty
  ; AccountSharingKeyIsEmpty
  ; InvocationCompleted
  ; AttemptBudgetExhausted
  ; AuthenticationRejected
  ; BindingIdentityIsRequired
  ; CacheFailure
  ; CachePathRefused
  ; ChatOutputLimitRequired
  ; EmbeddingDimensionsMustBeNonzero
  ; EmbeddingDimensionsRequired
  ; FiniteOutputTokensAreRequired
  ; FiniteTimeoutIsRequired
  ; GeminiEmbeddingDimensionMismatch
  ; GeminiResponseMissingEmbedding
  ; GeminiTaskOptionIsUnsupported
  ; HttpBudgetExhausted
  ; HttpFailure
  ; HttpRateLimited
  ; HttpTimeout
  ; HttpUnavailable
  ; InvalidAdapterResponse
  ; InvalidConfiguration
  ; InvalidCredentialEncoding
  ; InvalidHttpClientConfiguration
  ; InvalidProviderResponse
  ; InvalidResponse
  ; LeaseExpired
  ; MemoryQueueLockPoisoned
  ; ModelAdmissionLockPoisoned
  ; ModelRegistryIsNotConfigured
  ; OutputTokenLimitExceeded
  ; OutputTokenLimitMustBeNonzero
  ; ProviderFailure
  ; ProviderRedirectRefused
  ; ProviderRequestLimitExceeded
  ; ProviderResponseIsNotValidUtf8
  ; ProviderResponseLimitExceeded
  ; ProviderResponseReadFailed
  ; QueueResultTooLarge
  ; QueueFailure
  ; QueueItemKindMustNotBeEmpty
  ; RateBucketDisappeared
  ; RateBucketLockPoisoned
  ; RateGateLockPoisoned
  ; RuntimePolicyLockPoisoned
  ; SqliteQueueLockPoisoned
  ; StaleQueueItem
  ; StorageFailure
  ; SpendReceiptRefTooLong
  ; SpendLedgerUnavailable
  ; SpendReconciliationRequired
  ; SpendBudgetExhausted
  ; SystemOneNeedsABearerApiKey
  ; UnsupportedQueueSchema
  ; WorkerIdMustNotBeEmpty ].

Definition DiagnosticCode_code (c : DiagnosticCode) : string :=
  match c with
  | AClassifyRequestNeedsAtLeastOneQuestion => "a_classify_request_needs_at_least_one_question"
  | AdapterBoundsDifferFromConfiguredBinding => "adapter_bounds_differ_from_configured_binding"
  | AdapterCapabilitiesDifferFromConfiguredModel => "adapter_capabilities_differ_from_configured_model"
  | BindingDiffersFromConfiguredIdentityModel => "binding_differs_from_configured_identity_model"
  | BindingOverridesConfiguredAccountPolicy => "binding_overrides_configured_account_policy"
  | BindingRequiresAnExplicitExecutionPolicyOrConfiguredRegistry => "binding_requires_an_explicit_execution_policy_or_configured_registry"
  | ClassificationQuestionsCannotBeEncoded => "classification_questions_cannot_be_encoded"
  | ConfiguredCredentialModeIsUnsupportedOrEmpty => "configured_credential_mode_is_unsupported_or_empty"
  | CredentialBearingProviderResponseRefused => "credential_bearing_provider_response_refused"
  | CredentialResultBoundaryIsUnavailable => "credential_result_boundary_is_unavailable"
  | EffectiveTransportDiffersFromConfiguredBinding => "effective_transport_differs_from_configured_binding"
  | FiniteNonzeroRequestResponseByteLimitsAreRequired => "finite_nonzero_request_response_byte_limits_are_required"
  | GeminiBatchResponseMissingEmbeddings => "gemini_batch_response_missing_embeddings"
  | GeminiEmbeddingContainsNonFiniteComponents => "gemini_embedding_contains_non_finite_components"
  | GeminiRequestDimensionsDifferFromConfiguredBinding => "gemini_request_dimensions_differ_from_configured_binding"
  | OpenaiCompatibleResponseHadNoChoices => "openai_compatible_response_had_no_choices"
  | TerminalQueueItemIsMissingItsErrorClass => "terminal_queue_item_is_missing_its_error_class"
  | UnsupportedChatSettingsReasoningEffortRequiresThinkingAndMustBeNonempty => "unsupported_chat_settings_reasoning_effort_requires_thinking_and_must_be_nonempty"
  | AccountSharingKeyIsEmpty => "account_sharing_key_is_empty"
  | InvocationCompleted => "invocation_completed"
  | AttemptBudgetExhausted => "attempt_budget_exhausted"
  | AuthenticationRejected => "authentication_rejected"
  | BindingIdentityIsRequired => "binding_identity_is_required"
  | CacheFailure => "cache_failure"
  | CachePathRefused => "cache_path_refused"
  | ChatOutputLimitRequired => "chat_output_limit_required"
  | EmbeddingDimensionsMustBeNonzero => "embedding_dimensions_must_be_nonzero"
  | EmbeddingDimensionsRequired => "embedding_dimensions_required"
  | FiniteOutputTokensAreRequired => "finite_output_tokens_are_required"
  | FiniteTimeoutIsRequired => "finite_timeout_is_required"
  | GeminiEmbeddingDimensionMismatch => "gemini_embedding_dimension_mismatch"
  | GeminiResponseMissingEmbedding => "gemini_response_missing_embedding"
  | GeminiTaskOptionIsUnsupported => "gemini_task_option_is_unsupported"
  | HttpBudgetExhausted => "http_budget_exhausted"
  | HttpFailure => "http_failure"
  | HttpRateLimited => "http_rate_limited"
  | HttpTimeout => "http_timeout"
  | HttpUnavailable => "http_unavailable"
  | InvalidAdapterResponse => "invalid_adapter_response"
  | InvalidConfiguration => "invalid_configuration"
  | InvalidCredentialEncoding => "invalid_credential_encoding"
  | InvalidHttpClientConfiguration => "invalid_http_client_configuration"
  | InvalidProviderResponse => "invalid_provider_response"
  | InvalidResponse => "invalid_response"
  | LeaseExpired => "lease_expired"
  | MemoryQueueLockPoisoned => "memory_queue_lock_poisoned"
  | ModelAdmissionLockPoisoned => "model_admission_lock_poisoned"
  | ModelRegistryIsNotConfigured => "model_registry_is_not_configured"
  | OutputTokenLimitExceeded => "output_token_limit_exceeded"
  | OutputTokenLimitMustBeNonzero => "output_token_limit_must_be_nonzero"
  | ProviderFailure => "provider_failure"
  | ProviderRedirectRefused => "provider_redirect_refused"
  | ProviderRequestLimitExceeded => "provider_request_limit_exceeded"
  | ProviderResponseIsNotValidUtf8 => "provider_response_is_not_valid_utf8"
  | ProviderResponseLimitExceeded => "provider_response_limit_exceeded"
  | ProviderResponseReadFailed => "provider_response_read_failed"
  | QueueResultTooLarge => "queue_result_too_large"
  | QueueFailure => "queue_failure"
  | QueueItemKindMustNotBeEmpty => "queue_item_kind_must_not_be_empty"
  | RateBucketDisappeared => "rate_bucket_disappeared"
  | RateBucketLockPoisoned => "rate_bucket_lock_poisoned"
  | RateGateLockPoisoned => "rate_gate_lock_poisoned"
  | RuntimePolicyLockPoisoned => "runtime_policy_lock_poisoned"
  | SqliteQueueLockPoisoned => "sqlite_queue_lock_poisoned"
  | StaleQueueItem => "stale_queue_item"
  | StorageFailure => "storage_failure"
  | SpendReceiptRefTooLong => "spend_receipt_ref_too_long"
  | SpendLedgerUnavailable => "spend_ledger_unavailable"
  | SpendReconciliationRequired => "spend_reconciliation_required"
  | SpendBudgetExhausted => "spend_budget_exhausted"
  | SystemOneNeedsABearerApiKey => "system_one_needs_a_bearer_api_key"
  | UnsupportedQueueSchema => "unsupported_queue_schema"
  | WorkerIdMustNotBeEmpty => "worker_id_must_not_be_empty"
  end.

Definition DiagnosticCode_as_str (c : DiagnosticCode) : string :=
  match c with
  | AClassifyRequestNeedsAtLeastOneQuestion => "a classify request needs at least one question"
  | AdapterBoundsDifferFromConfiguredBinding => "adapter bounds differ from configured binding"
  | AdapterCapabilitiesDifferFromConfiguredModel => "adapter capabilities differ from configured model"
  | BindingDiffersFromConfiguredIdentityModel => "binding differs from configured identity/model"
  | BindingOverridesConfiguredAccountPolicy => "binding overrides configured account policy"
  | BindingRequiresAnExplicitExecutionPolicyOrConfiguredRegistry => "binding requires an explicit execution policy or configured registry"
  | ClassificationQuestionsCannotBeEncoded => "classification questions cannot be encoded"
  | ConfiguredCredentialModeIsUnsupportedOrEmpty => "configured credential mode is unsupported or empty"
  | CredentialBearingProviderResponseRefused => "credential-bearing provider response refused"
  | CredentialResultBoundaryIsUnavailable => "credential result boundary is unavailable"
  | EffectiveTransportDiffersFromConfiguredBinding => "effective transport differs from configured binding"
  | FiniteNonzeroRequestResponseByteLimitsAreRequired => "finite nonzero request/response byte limits are required"
  | GeminiBatchResponseMissingEmbeddings => "Gemini batch response missing embeddings"
  | GeminiEmbeddingContainsNonFiniteComponents => "Gemini embedding contains non-finite components"
  | GeminiRequestDimensionsDifferFromConfiguredBinding => "Gemini request dimensions differ from configured binding"
  | OpenaiCompatibleResponseHadNoChoices => "OpenAI-compatible response had no choices"
  | TerminalQueueItemIsMissingItsErrorClass => "terminal queue item is missing its error class"
  | UnsupportedChatSettingsReasoningEffortRequiresThinkingAndMustBeNonempty => "unsupported chat settings: reasoning effort requires thinking and must be nonempty"
  | AccountSharingKeyIsEmpty => "account sharing key is empty"
  | InvocationCompleted => "invocation completed; recovery answer discarded or expired"
  | AttemptBudgetExhausted => "attempt budget exhausted"
  | AuthenticationRejected => "authentication rejected"
  | BindingIdentityIsRequired => "binding identity is required"
  | CacheFailure => "cache failure"
  | CachePathRefused => "cache path refused"
  | ChatOutputLimitRequired => "chat output limit required"
  | EmbeddingDimensionsMustBeNonzero => "embedding dimensions must be nonzero"
  | EmbeddingDimensionsRequired => "embedding dimensions required"
  | FiniteOutputTokensAreRequired => "finite output tokens are required"
  | FiniteTimeoutIsRequired => "finite timeout is required"
  | GeminiEmbeddingDimensionMismatch => "Gemini embedding dimension mismatch"
  | GeminiResponseMissingEmbedding => "Gemini response missing embedding"
  | GeminiTaskOptionIsUnsupported => "Gemini task option is unsupported"
  | HttpBudgetExhausted => "HTTP budget exhausted"
  | HttpFailure => "HTTP failure"
  | HttpRateLimited => "HTTP rate limited"
  | HttpTimeout => "HTTP timeout"
  | HttpUnavailable => "HTTP unavailable"
  | InvalidAdapterResponse => "invalid adapter response"
  | InvalidConfiguration => "invalid configuration"
  | InvalidCredentialEncoding => "invalid credential encoding"
  | InvalidHttpClientConfiguration => "invalid HTTP client configuration"
  | InvalidProviderResponse => "invalid provider response"
  | InvalidResponse => "invalid response"
  | LeaseExpired => "lease expired"
  | MemoryQueueLockPoisoned => "memory queue lock poisoned"
  | ModelAdmissionLockPoisoned => "model admission lock poisoned"
  | ModelRegistryIsNotConfigured => "model registry is not configured"
  | OutputTokenLimitExceeded => "output token limit exceeded"
  | OutputTokenLimitMustBeNonzero => "output token limit must be nonzero"
  | ProviderFailure => "provider failure"
  | ProviderRedirectRefused => "provider redirect refused"
  | ProviderRequestLimitExceeded => "provider request limit exceeded"
  | ProviderResponseIsNotValidUtf8 => "provider response is not valid UTF-8"
  | ProviderResponseLimitExceeded => "provider response limit exceeded"
  | ProviderResponseReadFailed => "provider response read failed"
  | QueueResultTooLarge => "job result exceeds retained result limit"
  | QueueFailure => "queue failure"
  | QueueItemKindMustNotBeEmpty => "queue item kind must not be empty"
  | RateBucketDisappeared => "rate bucket disappeared"
  | RateBucketLockPoisoned => "rate bucket lock poisoned"
  | RateGateLockPoisoned => "rate gate lock poisoned"
  | RuntimePolicyLockPoisoned => "runtime policy lock poisoned"
  | SqliteQueueLockPoisoned => "sqlite queue lock poisoned"
  | StaleQueueItem => "stale queue item"
  | StorageFailure => "storage failure"
  | SpendReceiptRefTooLong => "spend receipt reference exceeds maximum byte length"
  | SpendLedgerUnavailable => "spend ledger unavailable"
  | SpendReconciliationRequired => "spend reconciliation required"
  | SpendBudgetExhausted => "account request budget exhausted"
  | SystemOneNeedsABearerApiKey => "System One needs a bearer API key"
  | UnsupportedQueueSchema => "unsupported queue schema; rebuild the queue database"
  | WorkerIdMustNotBeEmpty => "worker_id must not be empty"
  end.

(** The generated [match] on literals: the first variant with that code. *)
Definition DiagnosticCode_parse (code : string) : option DiagnosticCode :=
  find (λ c, String.eqb (DiagnosticCode_code c) code) all_DiagnosticCode.

Inductive FailureClass : Type :=
| ClassUnavailable
| ClassAuth
| ClassRateLimited
| ClassBudgetExhausted
| ClassTimeout
| ClassInvalidRequest
| ClassProvider
| ClassQueue
| ClassCache
| ClassUnsupportedChat
| ClassUnsupportedEmbedding
| ClassUnsupportedRerank
| ClassUnsupportedClassify
| ClassUnsupportedVision
| ClassUnsupportedImageGeneration
| ClassUnsupportedVideoGeneration
| ClassUnsupportedAgentTask.

#[export] Instance FailureClass_eq_dec : EqDecision FailureClass.
Proof. solve_decision. Defined.

Definition all_FailureClass : list FailureClass :=
  [ ClassUnavailable
  ; ClassAuth
  ; ClassRateLimited
  ; ClassBudgetExhausted
  ; ClassTimeout
  ; ClassInvalidRequest
  ; ClassProvider
  ; ClassQueue
  ; ClassCache
  ; ClassUnsupportedChat
  ; ClassUnsupportedEmbedding
  ; ClassUnsupportedRerank
  ; ClassUnsupportedClassify
  ; ClassUnsupportedVision
  ; ClassUnsupportedImageGeneration
  ; ClassUnsupportedVideoGeneration
  ; ClassUnsupportedAgentTask ].

Definition FailureClass_code (c : FailureClass) : string :=
  match c with
  | ClassUnavailable => "unavailable"
  | ClassAuth => "auth"
  | ClassRateLimited => "rate_limited"
  | ClassBudgetExhausted => "budget_exhausted"
  | ClassTimeout => "timeout"
  | ClassInvalidRequest => "invalid_request"
  | ClassProvider => "provider"
  | ClassQueue => "queue"
  | ClassCache => "cache"
  | ClassUnsupportedChat => "unsupported_chat"
  | ClassUnsupportedEmbedding => "unsupported_embedding"
  | ClassUnsupportedRerank => "unsupported_rerank"
  | ClassUnsupportedClassify => "unsupported_classify"
  | ClassUnsupportedVision => "unsupported_vision"
  | ClassUnsupportedImageGeneration => "unsupported_image_generation"
  | ClassUnsupportedVideoGeneration => "unsupported_video_generation"
  | ClassUnsupportedAgentTask => "unsupported_agent_task"
  end.

Definition FailureClass_as_str (c : FailureClass) : string :=
  match c with
  | ClassUnavailable => "unavailable"
  | ClassAuth => "auth"
  | ClassRateLimited => "rate_limited"
  | ClassBudgetExhausted => "budget_exhausted"
  | ClassTimeout => "timeout"
  | ClassInvalidRequest => "invalid_request"
  | ClassProvider => "provider"
  | ClassQueue => "queue"
  | ClassCache => "cache"
  | ClassUnsupportedChat => "unsupported_chat"
  | ClassUnsupportedEmbedding => "unsupported_embedding"
  | ClassUnsupportedRerank => "unsupported_rerank"
  | ClassUnsupportedClassify => "unsupported_classify"
  | ClassUnsupportedVision => "unsupported_vision"
  | ClassUnsupportedImageGeneration => "unsupported_image_generation"
  | ClassUnsupportedVideoGeneration => "unsupported_video_generation"
  | ClassUnsupportedAgentTask => "unsupported_agent_task"
  end.

(** The generated [match] on literals: the first variant with that code. *)
Definition FailureClass_parse (code : string) : option FailureClass :=
  find (λ c, String.eqb (FailureClass_code c) code) all_FailureClass.

(** ** Identities *)

Record ModelIdentity : Type := mkModelIdentity {
  mi_operation : string;
  mi_operator : string;
  mi_model : string;
}.

Definition ModelIdentity_queue_id (m : ModelIdentity) : string :=
  mi_operation m ++ ":" ++ mi_operator m ++ ":" ++ mi_model m.

Record BindingIdentity : Type := mkBindingIdentity {
  bi_tenant : string;
  bi_provider : string;
  bi_revision : string;
  bi_account : string;
}.

Definition BindingIdentity_is_valid (b : BindingIdentity) : bool :=
  forallb (λ s, negb (blank s)) [bi_tenant b; bi_provider b; bi_revision b; bi_account b].

(** ** Lemmas *)

(** [find] on a duplicate-free image returns the element with that image. *)
Lemma find_code_some {C : Type} (code : C → string) (all : list C) s c :
  find (λ c, String.eqb (code c) s) all = Some c → code c = s ∧ c ∈ all.
Proof.
  intros Hf. apply List.find_some in Hf as [Hin Heq].
  split; [by apply String.eqb_eq | by apply list_elem_of_In].
Qed.

Lemma find_code_hit {C : Type} (code : C → string) (all : list C) c :
  NoDup (code <$> all) → c ∈ all → find (λ c', String.eqb (code c') (code c)) all = Some c.
Proof.
  intros Hnd Hin. destruct (find _ all) as [c'|] eqn:Hf.
  - apply find_code_some in Hf as [Hc Hin'].
    apply list_elem_of_lookup in Hin as [i Hi], Hin' as [j Hj].
    assert (i = j) as ->; [|congruence].
    eapply NoDup_lookup; [done| |]; rewrite list_lookup_fmap.
    + by rewrite Hi.
    + rewrite Hj. simpl. congruence.
  - exfalso. eapply List.find_none in Hf; [|by apply list_elem_of_In].
    by rewrite String.eqb_refl in Hf.
Qed.

Lemma all_DiagnosticCode_complete c : c ∈ all_DiagnosticCode.
Proof. apply list_elem_of_In. destruct c; simpl; tauto. Qed.

Lemma DiagnosticCode_codes_nodup : NoDup (DiagnosticCode_code <$> all_DiagnosticCode).
Proof. apply (bool_decide_unpack _). vm_compute. exact I. Qed.

Lemma all_FailureClass_complete c : c ∈ all_FailureClass.
Proof. apply list_elem_of_In. destruct c; simpl; tauto. Qed.

Lemma FailureClass_codes_nodup : NoDup (FailureClass_code <$> all_FailureClass).
Proof. apply (bool_decide_unpack _). vm_compute. exact I. Qed.

Lemma DiagnosticCode_parse_code c : DiagnosticCode_parse (DiagnosticCode_code c) = Some c.
Proof.
  apply find_code_hit; [apply DiagnosticCode_codes_nodup | apply all_DiagnosticCode_complete].
Qed.

Lemma FailureClass_parse_code c : FailureClass_parse (FailureClass_code c) = Some c.
Proof.
  apply find_code_hit; [apply FailureClass_codes_nodup | apply all_FailureClass_complete].
Qed.

(** The SQLite backend stores a failure class by [as_str] and reads it back
    with [parse], which matches codes: both names agree for every class. *)
Lemma FailureClass_as_str_code c : FailureClass_as_str c = FailureClass_code c.
Proof. by destruct c. Qed.

(** ** Properties *)

(** A text parses to a diagnostic exactly when it is that
    diagnostic's stored code, and to a failure class exactly when it is the
    text the queue stores for that class. *)
Theorem closed_codes_roundtrip (s : string) (d : DiagnosticCode) (f : FailureClass) :
  (DiagnosticCode_parse s = Some d ↔ s = DiagnosticCode_code d)
  ∧ (FailureClass_parse s = Some f ↔ s = FailureClass_as_str f).
Proof.
  rewrite FailureClass_as_str_code. split; split.
  - by intros [-> _]%find_code_some.
  - intros ->. apply DiagnosticCode_parse_code.
  - by intros [-> _]%find_code_some.
  - intros ->. apply FailureClass_parse_code.
Qed.

(** ** Queue ids *)

Fixpoint no_colon (s : string) : bool :=
  match s with
  | EmptyString => true
  | String a s => negb (Ascii.eqb a ":"%char) && no_colon s
  end.

Lemma split_colon a a' r r' :
  no_colon a = true → no_colon a' = true → a ++ ":" ++ r = a' ++ ":" ++ r' → a = a' ∧ r = r'.
Proof.
  revert a'. induction a as [|c a IH]; intros [|c' a'] Ha Ha' E; simpl in *.
  - by injection E.
  - injection E as <- _. done.
  - injection E as -> _. done.
  - bools. injection E as -> E. destruct (IH a' ltac:(done) ltac:(done) E). by subst.
Qed.

(** Two models whose operation and operator contain no colon share a
    queue id only when they are the same model; the model name is free to
    contain colons. *)
Theorem queue_id_injective m m' :
  no_colon (mi_operation m) = true → no_colon (mi_operator m) = true →
  no_colon (mi_operation m') = true → no_colon (mi_operator m') = true →
  ModelIdentity_queue_id m = ModelIdentity_queue_id m' → m = m'.
Proof.
  intros H1 H2 H3 H4 E. unfold ModelIdentity_queue_id in E.
  apply split_colon in E as [Eo E]; [|done..]. apply split_colon in E as [Ep Em]; [|done..].
  destruct m, m'. simpl in *. by subst.
Qed.

(** The hypothesis is needed: a colon in the operator makes two models share
    a queue id. *)
Example queue_id_collision :
  let m := mkModelIdentity "chat" "a:b" "c" in
  let m' := mkModelIdentity "chat" "a" "b:c" in
  m ≠ m' ∧ ModelIdentity_queue_id m = ModelIdentity_queue_id m'.
Proof. split; [done|reflexivity]. Qed.

Lemma queue_id_injective_witness :
  mkModelIdentity "chat" "acme" "pro:1" = mkModelIdentity "chat" "acme" "pro:1".
Proof. by apply queue_id_injective. Defined.
