(* ===== verification/QueueTypes.v ===== *)
(** [symbiotic-queue]: the contracts every queue backend shares.

    The item, request, outcome and error types of [lib.rs], the item setters
    the backends' field assignments use, the trait's default
    [enqueue_replacing], and the latency telemetry ([LatencyStats],
    [nearest_rank], [QueueTelemetryAccumulator]).

    A [serde_json::Value] payload is opaque to every queue; it is held as its
    serialised text. *)

From Stdlib Require Import ZArith Lia.
From stdpp Require Import base gmap strings list sorting.
From S2P Require Import Prelude Core.

#[local] Open Scope Z_scope.

(** ** Items and requests *)

Inductive QueueStatus : Type :=
| Pending
| Running
| Succeeded
| Failed
| Dead
| Stopped.

#[export] Instance QueueStatus_eq_dec : EqDecision QueueStatus.
Proof. solve_decision. Defined.

Record EnqueueRequest : Type := mkEnqueueRequest {
  er_queue_id : string;
  er_kind : string;
  er_payload : string;
  er_idempotency_key : option string;
  er_run_after : option DateTime;
  er_max_attempts : option Z;
  er_force : bool;
}.

Definition with_force (b : bool) (r : EnqueueRequest) : EnqueueRequest :=
  mkEnqueueRequest (er_queue_id r) (er_kind r) (er_payload r) (er_idempotency_key r)
    (er_run_after r) (er_max_attempts r) b.

Inductive EnqueueDisposition : Type :=
| Inserted
| ActiveDuplicate
| TerminalDuplicate.

#[export] Instance EnqueueDisposition_eq_dec : EqDecision EnqueueDisposition.
Proof. solve_decision. Defined.

Record QueueItem : Type := mkQueueItem {
  qi_item_id : string;
  qi_queue_id : string;
  qi_kind : string;
  qi_payload : string;
  qi_status : QueueStatus;
  qi_attempt : Z;
  qi_max_attempts : Z;
  qi_run_after : DateTime;
  qi_lease_owner : option string;
  qi_lease_until : option DateTime;
  qi_idempotency_key : option string;
  qi_last_error : option DiagnosticCode;
  qi_last_error_class : option FailureClass;
  qi_created_at : DateTime;
  qi_updated_at : DateTime;
}.

#[export] Instance QueueItem_eq_dec : EqDecision QueueItem.
Proof. solve_decision. Defined.

(** Assignments to the mutable fields of an item. *)
Definition with_status (v : QueueStatus) (i : QueueItem) : QueueItem :=
  mkQueueItem (qi_item_id i) (qi_queue_id i) (qi_kind i) (qi_payload i) v (qi_attempt i)
    (qi_max_attempts i) (qi_run_after i) (qi_lease_owner i) (qi_lease_until i)
    (qi_idempotency_key i) (qi_last_error i) (qi_last_error_class i) (qi_created_at i)
    (qi_updated_at i).

Definition with_attempt (v : Z) (i : QueueItem) : QueueItem :=
  mkQueueItem (qi_item_id i) (qi_queue_id i) (qi_kind i) (qi_payload i) (qi_status i) v
    (qi_max_attempts i) (qi_run_after i) (qi_lease_owner i) (qi_lease_until i)
    (qi_idempotency_key i) (qi_last_error i) (qi_last_error_class i) (qi_created_at i)
    (qi_updated_at i).

Definition with_run_after (v : DateTime) (i : QueueItem) : QueueItem :=
  mkQueueItem (qi_item_id i) (qi_queue_id i) (qi_kind i) (qi_payload i) (qi_status i)
    (qi_attempt i) (qi_max_attempts i) v (qi_lease_owner i) (qi_lease_until i)
    (qi_idempotency_key i) (qi_last_error i) (qi_last_error_class i) (qi_created_at i)
    (qi_updated_at i).

Definition with_lease_owner (v : option string) (i : QueueItem) : QueueItem :=
  mkQueueItem (qi_item_id i) (qi_queue_id i) (qi_kind i) (qi_payload i) (qi_status i)
    (qi_attempt i) (qi_max_attempts i) (qi_run_after i) v (qi_lease_until i) (qi_idempotency_key
    i) (qi_last_error i) (qi_last_error_class i) (qi_created_at i) (qi_updated_at i).

Definition with_lease_until (v : option DateTime) (i : QueueItem) : QueueItem :=
  mkQueueItem (qi_item_id i) (qi_queue_id i) (qi_kind i) (qi_payload i) (qi_status i)
    (qi_attempt i) (qi_max_attempts i) (qi_run_after i) (qi_lease_owner i) v (qi_idempotency_key
    i) (qi_last_error i) (qi_last_error_class i) (qi_created_at i) (qi_updated_at i).

Definition with_last_error (v : option DiagnosticCode) (i : QueueItem) : QueueItem :=
  mkQueueItem (qi_item_id i) (qi_queue_id i) (qi_kind i) (qi_payload i) (qi_status i)
    (qi_attempt i) (qi_max_attempts i) (qi_run_after i) (qi_lease_owner i) (qi_lease_until i)
    (qi_idempotency_key i) v (qi_last_error_class i) (qi_created_at i) (qi_updated_at i).

Definition with_last_error_class (v : option FailureClass) (i : QueueItem) : QueueItem :=
  mkQueueItem (qi_item_id i) (qi_queue_id i) (qi_kind i) (qi_payload i) (qi_status i)
    (qi_attempt i) (qi_max_attempts i) (qi_run_after i) (qi_lease_owner i) (qi_lease_until i)
    (qi_idempotency_key i) (qi_last_error i) v (qi_created_at i) (qi_updated_at i).

Definition with_updated_at (v : DateTime) (i : QueueItem) : QueueItem :=
  mkQueueItem (qi_item_id i) (qi_queue_id i) (qi_kind i) (qi_payload i) (qi_status i)
    (qi_attempt i) (qi_max_attempts i) (qi_run_after i) (qi_lease_owner i) (qi_lease_until i)
    (qi_idempotency_key i) (qi_last_error i) (qi_last_error_class i) (qi_created_at i) v.

Record EnqueueOutcome : Type := mkEnqueueOutcome {
  eo_item : QueueItem;
  eo_disposition : EnqueueDisposition;
}.

Record ClaimRequest : Type := mkClaimRequest {
  cr_queue_id : string;
  cr_worker_id : string;
  cr_limit : Z;
  cr_lease_seconds : Z;
  cr_max_in_flight : option Z;
}.

Record QueueEvent : Type := mkQueueEvent {
  qe_item_id : string;
  qe_queue_id : string;
  qe_kind : string;
  qe_status : QueueStatus;
  qe_attempt : Z;
  qe_timestamp : DateTime;
  qe_error : option DiagnosticCode;
}.

Record Failure : Type := mkFailure {
  f_error : DiagnosticCode;
  f_error_class : option FailureClass;
  f_run_after : option DateTime;
}.

Inductive FailOutcome : Type :=
| RetryScheduled
| MovedToDead
| FailStopped.

#[export] Instance FailOutcome_eq_dec : EqDecision FailOutcome.
Proof. solve_decision. Defined.

Inductive QueueError : Type :=
| NotFound (c : DiagnosticCode)
| LeaseMismatch (c : DiagnosticCode)
| NotRunning (c : DiagnosticCode)
| Unavailable (c : DiagnosticCode)
| InvalidRequest (c : DiagnosticCode)
| Storage (c : DiagnosticCode).

#[export] Instance QueueError_eq_dec : EqDecision QueueError.
Proof. solve_decision. Defined.

Definition QueueError_code (e : QueueError) : DiagnosticCode :=
  match e with
  | NotFound c | LeaseMismatch c | NotRunning c
  | Unavailable c | InvalidRequest c | Storage c => c
  end.

(** [Pending], [Running] and [Failed] items are active; the others terminal. *)
Definition is_active (s : QueueStatus) : bool :=
  match s with Pending | Running | Failed => true | Succeeded | Dead | Stopped => false end.

Definition is_terminal (s : QueueStatus) : bool := negb (is_active s).

(** Waiting for a claim. *)
Definition is_waiting (s : QueueStatus) : bool :=
  match s with Pending | Failed => true | _ => false end.

(** [lease_deadline]: the validated end of a lease taken at [now]. *)
Definition lease_deadline `{Chrono} (now : DateTime) (seconds : Z) : result QueueError DateTime :=
  ok_or (s ← i64_try_from (Z.max seconds 1); checked_add_seconds now s)
    (InvalidRequest InvalidConfiguration).

(** The retry time [QueueBackend::fail] computes, with its [u64 as i64] cast. *)
Definition fail_run_after `{Chrono} (now : DateTime) (retry_after_seconds : option Z) :
    result QueueError DateTime :=
  add_seconds now (u64_as_i64 (default 1 retry_after_seconds)).

(** One item becomes one event for the sink. *)
Definition event_of (timestamp : DateTime) (e : QueueItem * option DiagnosticCode) : QueueEvent :=
  mkQueueEvent (qi_item_id e.1) (qi_queue_id e.1) (qi_kind e.1) (qi_status e.1)
    (qi_attempt e.1) timestamp e.2.
