(* ===== verification/Telemetry.v ===== *)
(** [symbiotic-queue], the latency telemetry of [lib.rs]: [LatencyStats],
    [nearest_rank] and [QueueTelemetryAccumulator].

    A [BTreeMap] iterates in key order; [summaries] sorts the keys of the map
    by the byte order of strings. *)

From Stdlib Require Import ZArith Lia.
From stdpp Require Import base gmap strings list fin_maps sorting.
From S2P Require Import Prelude.

#[local] Open Scope Z_scope.

Record LatencyStats : Type := mkLatencyStats {
  ls_count : Z;
  ls_p50_ms : Z;
  ls_p95_ms : Z;
  ls_max_ms : Z;
}.

Definition default_stats : LatencyStats := mkLatencyStats 0 0 0 0.

(** [n.div_ceil(d)]. *)
Definition div_ceil (n d : Z) : Z := (n + d - 1) / d.

(** A [u64] product; the release profile wraps, the debug profile panics. *)
Definition u64_mul (a b : Z) : Z := (a * b) mod (u64_max + 1).

(** The rank of [nearest_rank]; an index past the end panics. *)
Definition nearest_rank (sorted : list Z) (percentile : Z) : result Empty_set Z :=
  let rank := Z.max (div_ceil (u64_mul percentile (Z.of_nat (length sorted))) 100) 1 in
  expect (sorted !! Z.to_nat (rank - 1)).

Definition from_samples (samples : list Z) : result Empty_set LatencyStats :=
  match samples with
  | [] => Ok default_stats
  | _ =>
      let sorted := merge_sort Z.le samples in
      let? p50 := nearest_rank sorted 50 in
      let? p95 := nearest_rank sorted 95 in
      let? max := expect (last sorted) in
      Ok (mkLatencyStats (Z.of_nat (length sorted)) p50 p95 max)
  end.

Record QueueTelemetrySummary : Type := mkSummary {
  qs_queue_id : string;
  qs_queue_wait : LatencyStats;
  qs_throttle_wait : LatencyStats;
  qs_provider : LatencyStats;
}.

Record QueueTelemetrySamples : Type := mkSamples {
  queue_wait_ms : list Z;
  throttle_wait_ms : list Z;
  provider_ms : list Z;
}.

Definition default_samples : QueueTelemetrySamples := mkSamples [] [] [].

(** [QueueTelemetryAccumulator]: the samples by queue id. *)
Abbreviation Accumulator := (gmap string QueueTelemetrySamples) (only parsing).

(** [samples]: [entry(queue_id).or_default()], then a push to it. *)
Definition with_samples (f : QueueTelemetrySamples → QueueTelemetrySamples) (queue_id : string)
    (a : Accumulator) : Accumulator :=
  <[queue_id := f (default default_samples (a !! queue_id))]> a.

Definition observe_queue_wait (queue_id : string) (ms : Z) (a : Accumulator) : Accumulator :=
  with_samples (λ s, mkSamples (queue_wait_ms s ++ [ms]) (throttle_wait_ms s) (provider_ms s))
    queue_id a.
Definition observe_throttle_wait (queue_id : string) (ms : Z) (a : Accumulator) : Accumulator :=
  with_samples (λ s, mkSamples (queue_wait_ms s) (throttle_wait_ms s ++ [ms]) (provider_ms s))
    queue_id a.
Definition observe_provider (queue_id : string) (ms : Z) (a : Accumulator) : Accumulator :=
  with_samples (λ s, mkSamples (queue_wait_ms s) (throttle_wait_ms s) (provider_ms s ++ [ms]))
    queue_id a.

Definition summary_of (queue_id : string) (s : QueueTelemetrySamples) :
    result Empty_set QueueTelemetrySummary :=
  let? qw := from_samples (queue_wait_ms s) in
  let? tw := from_samples (throttle_wait_ms s) in
  let? pr := from_samples (provider_ms s) in
  Ok (mkSummary queue_id qw tw pr).

(** Summarises the rows in order. *)
Fixpoint summaries_of (rows : list (string * QueueTelemetrySamples)) :
    result Empty_set (list QueueTelemetrySummary) :=
  match rows with
  | [] => Ok []
  | (queue_id, s) :: rows =>
      let? summary := summary_of queue_id s in
      let? rest := summaries_of rows in
      Ok (summary :: rest)
  end.

Definition key_le (a b : string * QueueTelemetrySamples) : Prop := String.le a.1 b.1.

#[export] Instance key_le_dec : RelDecision key_le.
Proof. intros a b. unfold key_le. apply _. Defined.

Definition summaries (a : Accumulator) : result Empty_set (list QueueTelemetrySummary) :=
  summaries_of (merge_sort key_le (map_to_list a)).

(** ** Nearest rank *)

(** How many samples satisfy [p]. *)
Definition tally (p : Z → bool) (l : list Z) : Z := Z.of_nat (length (select_where p l)).

Lemma tally_app p l k : tally p (l ++ k) = tally p l + tally p k.
Proof. unfold tally, select_where. rewrite filter_app, length_app. lia. Qed.

Lemma tally_perm p l k : l ≡ₚ k → tally p l = tally p k.
Proof. intros Hp. unfold tally, select_where. by rewrite Hp. Qed.

Lemma tally_le p l : tally p l ≤ Z.of_nat (length l).
Proof. unfold tally, select_where. pose proof (length_filter (λ x, p x = true) l). lia. Qed.

Lemma tally_all p l : Forall (λ x, p x = true) l → tally p l = Z.of_nat (length l).
Proof.
  unfold tally, select_where. induction 1 as [|x l Hx _ IH]; [done|].
  rewrite filter_cons_True by done. csimpl. lia.
Qed.

Lemma tally_none p l : Forall (λ x, p x = false) l → tally p l = 0.
Proof.
  unfold tally, select_where. induction 1 as [|x l Hx _ IH]; [done|].
  rewrite filter_cons_False by congruence. done.
Qed.

(** The [n]-th of an ascending list: more than [n] entries are at most it, at
    most [n] below it. *)
Lemma sorted_rank l (n : nat) v :
  StronglySorted Z.le l → l !! n = Some v →
  Z.of_nat n < tally (λ x, x <=? v) l ∧ tally (λ x, x <? v) l ≤ Z.of_nat n.
Proof.
  intros Hs Hn. pose proof (lookup_lt_Some _ _ _ Hn) as Hlt.
  rewrite <-(take_drop_middle l n v Hn) in Hs |- *.
  change (v :: drop (S n) l) with ([v] ++ drop (S n) l). rewrite !tally_app.
  apply StronglySorted_app in Hs as (Hle & _ & Hs2). apply StronglySorted_inv in Hs2 as [_ Hge].
  rewrite (tally_all (λ x, x <=? v) (take n l)), (tally_all (λ x, x <=? v) [v]),
    (tally_none (λ x, x <? v) [v]), (tally_none (λ x, x <? v) (drop (S n) l)).
  - rewrite length_take_le by lia. pose proof (tally_le (λ x, x <? v) (take n l)).
    rewrite length_take_le in * by lia. simpl. unfold tally at 1. lia.
  - eapply Forall_impl; [exact Hge|]. simpl. intros. lia.
  - repeat constructor. lia.
  - repeat constructor. lia.
  - apply Forall_forall. intros x Hx. apply Z.leb_le. apply Hle; [done|]. left.
Qed.

(** [v] is the nearest-rank [p]-th percentile of [l]: a sample, at least [p]
    percent of the samples are at most [v], and fewer than [p] percent are
    below it. *)
Definition is_percentile (p : Z) (l : list Z) (v : Z) : Prop :=
  v ∈ l ∧ p * Z.of_nat (length l) ≤ 100 * tally (λ x, x <=? v) l
  ∧ 100 * tally (λ x, x <? v) l < p * Z.of_nat (length l).

Lemma nearest_rank_percentile l p :
  StronglySorted Z.le l → l ≠ [] → 1 ≤ p ≤ 100 → p * Z.of_nat (length l) ≤ u64_max →
  ∃ v, nearest_rank l p = Ok v ∧ is_percentile p l v.
Proof.
  intros Hs Hne Hp Hmax. unfold nearest_rank, div_ceil, u64_mul.
  assert (1 ≤ Z.of_nat (length l)) by (destruct l; [done|simpl; lia]).
  rewrite Z.mod_small by nia. set (n := Z.of_nat (length l)) in *.
  set (rank := Z.max ((p * n + 100 - 1) / 100) 1).
  assert (1 ≤ rank ∧ p * n ≤ 100 * rank ∧ 100 * (rank - 1) < p * n) as (Hr1 & Hr2 & Hr3).
  { unfold rank. pose proof (Z.div_mod (p * n + 100 - 1) 100 ltac:(lia)).
    pose proof (Z.mod_pos_bound (p * n + 100 - 1) 100 ltac:(lia)). nia. }
  destruct (lookup_lt_is_Some_2 l (Z.to_nat (rank - 1))) as [v Hv]; [nia|].
  rewrite Hv. exists v. split; [done|].
  destruct (sorted_rank l _ v Hs Hv) as [Hle Hlt].
  split_and!; [by eapply list_elem_of_lookup_2| |]; fold n; lia.
Qed.

#[local] Instance Zle_total : Total Z.le.
Proof. intros x y. lia. Qed.

Lemma merge_sort_strongly l : StronglySorted Z.le (merge_sort Z.le l).
Proof. apply Sorted_StronglySorted; [intros x y z; lia|]. apply Sorted_merge_sort, _. Qed.

Lemma is_percentile_perm p l k v : l ≡ₚ k → is_percentile p l v → is_percentile p k v.
Proof.
  intros Hp. unfold is_percentile. rewrite (Permutation_length Hp).
  rewrite (tally_perm _ _ _ Hp), (tally_perm (λ x, x <? v) _ _ Hp). by rewrite Hp.
Qed.

Lemma last_sorted l v x : StronglySorted Z.le l → last l = Some v → x ∈ l → x ≤ v.
Proof.
  intros Hs (l' & ->)%last_Some Hx. apply elem_of_app in Hx as [Hx|Hx%list_elem_of_singleton]; [|lia].
  apply StronglySorted_app in Hs as (Hle & _). apply Hle; [done|]. by apply list_elem_of_singleton.
Qed.

(** Sample sets for which the rank computation does not overflow. *)
Definition samples_fit (l : list Z) : Prop := 95 * Z.of_nat (length l) ≤ u64_max.

Lemma from_samples_ok l : samples_fit l → ∃ st, from_samples l = Ok st.
Proof.
  intros Hfit. destruct l as [|x l]; [by eexists|]. unfold from_samples.
  set (k := merge_sort Z.le (x :: l)).
  assert (k ≡ₚ x :: l) as Hk by apply merge_sort_Permutation.
  assert (k ≠ []) as Hne by (intros E; rewrite E in Hk; by apply Permutation_nil in Hk).
  unfold samples_fit in Hfit. rewrite <-Hk in Hfit.
  destruct (nearest_rank_percentile k 50 (merge_sort_strongly _) Hne) as (p50 & -> & _); [lia..|].
  destruct (nearest_rank_percentile k 95 (merge_sort_strongly _) Hne) as (p95 & -> & _); [lia..|].
  rsimpl. destruct (last k) as [m|] eqn:Hl; [by eexists|]. by apply last_None in Hl.
Qed.

(** The latency summary of a sample set counts it, its p50 and p95 are
    nearest-rank percentiles, and its maximum is the largest sample. *)
Theorem latency_stats_percentiles samples :
  samples ≠ [] → 95 * Z.of_nat (length samples) ≤ u64_max →
  ∃ st, from_samples samples = Ok st
    ∧ ls_count st = Z.of_nat (length samples)
    ∧ is_percentile 50 samples (ls_p50_ms st) ∧ is_percentile 95 samples (ls_p95_ms st)
    ∧ ls_max_ms st ∈ samples ∧ ∀ x, x ∈ samples → x ≤ ls_max_ms st.
Proof.
  intros Hne Hfit. destruct samples as [|x l]; [done|]. clear Hne. unfold from_samples.
  set (k := merge_sort Z.le (x :: l)).
  assert (k ≡ₚ x :: l) as Hk by apply merge_sort_Permutation.
  assert (k ≠ []) as Hne by (intros E; rewrite E in Hk; by apply Permutation_nil in Hk).
  pose proof (merge_sort_strongly (x :: l)) as Hs. fold k in Hs.
  rewrite <-(Permutation_length Hk) in Hfit |- *.
  destruct (nearest_rank_percentile k 50 Hs Hne) as (p50 & -> & H50); [lia..|].
  destruct (nearest_rank_percentile k 95 Hs Hne) as (p95 & -> & H95); [lia..|].
  rsimpl. destruct (last k) as [m|] eqn:Hl; [|by apply last_None in Hl].
  rsimpl. eexists. split; [done|]. simpl.
  split_and!; [done|by eapply is_percentile_perm..| |].
  - rewrite <-Hk. by apply last_Some_elem_of.
  - intros y Hy. rewrite <-Hk in Hy. by eapply last_sorted.
Qed.

Lemma latency_stats_percentiles_witness :
  ∃ st, from_samples [40; 10; 20] = Ok st ∧ is_percentile 50 [40; 10; 20] (ls_p50_ms st).
Proof.
  destruct (latency_stats_percentiles [40; 10; 20]) as (st & E & _ & H50 & _);
    [done|unfold u64_max; simpl; lia|]. by exists st.
Defined.

(** ** Summaries *)

Lemma summaries_of_ok rows :
  (∀ id s, (id, s) ∈ rows →
     samples_fit (queue_wait_ms s) ∧ samples_fit (throttle_wait_ms s) ∧ samples_fit (provider_ms s)) →
  ∃ out, summaries_of rows = Ok out
    ∧ Forall2 (λ row r, qs_queue_id r = row.1
        ∧ from_samples (queue_wait_ms row.2) = Ok (qs_queue_wait r)
        ∧ from_samples (throttle_wait_ms row.2) = Ok (qs_throttle_wait r)
        ∧ from_samples (provider_ms row.2) = Ok (qs_provider r)) rows out.
Proof.
  induction rows as [|[id s] rows IH]; intros Hfit; [by exists []|].
  destruct (Hfit id s) as (H1 & H2 & H3); [left|].
  destruct IH as (out & Eo & Ho); [intros; eapply Hfit; by right|].
  destruct (from_samples_ok _ H1) as [qw E1], (from_samples_ok _ H2) as [tw E2],
    (from_samples_ok _ H3) as [pr E3].
  simpl. unfold summary_of. rewrite E1, E2, E3, Eo. rsimpl. eexists. split; [done|].
  by constructor.
Qed.

#[local] Instance key_le_total : Total key_le.
Proof. intros a b. unfold key_le. apply (total String.le). Qed.

#[local] Instance key_le_trans : Transitive key_le.
Proof. intros a b c. unfold key_le. intros H1 H2. by trans b.1. Qed.

(** The accumulator's summary has one row per observed queue, in queue-id
    order, and each phase of a row summarises exactly that queue's samples of
    that phase. *)
Theorem telemetry_summaries (a : gmap string QueueTelemetrySamples) :
  (∀ id s, a !! id = Some s →
     samples_fit (queue_wait_ms s) ∧ samples_fit (throttle_wait_ms s) ∧ samples_fit (provider_ms s)) →
  ∃ out, summaries a = Ok out ∧ NoDup (qs_queue_id <$> out)
    ∧ StronglySorted String.le (qs_queue_id <$> out)
    ∧ (∀ id, is_Some (a !! id) → id ∈ qs_queue_id <$> out)
    ∧ ∀ r, r ∈ out → ∃ s, a !! qs_queue_id r = Some s
        ∧ from_samples (queue_wait_ms s) = Ok (qs_queue_wait r)
        ∧ from_samples (throttle_wait_ms s) = Ok (qs_throttle_wait r)
        ∧ from_samples (provider_ms s) = Ok (qs_provider r).
Proof.
  intros Hfit. unfold summaries. set (rows := merge_sort key_le (map_to_list a)).
  assert (rows ≡ₚ map_to_list a) as Hrows by apply merge_sort_Permutation.
  destruct (summaries_of_ok rows) as (out & E & Ho).
  { intros id s Hin. rewrite Hrows in Hin. apply elem_of_map_to_list in Hin. eauto. }
  assert (qs_queue_id <$> out = rows.*1) as Eids.
  { clear -Ho. induction Ho as [|? ? ? ? (Hid & _) _ IH]; csimpl; [done|]. by rewrite Hid, IH. }
  exists out. rewrite E, Eids. split_and!; [done| | | |].
  - rewrite Hrows. apply NoDup_fst_map_to_list.
  - pose proof (Sorted_StronglySorted key_le _ (Sorted_merge_sort key_le (map_to_list a))) as Hs.
    fold rows in Hs. clear -Hs. induction Hs as [|row rows' Hs IH Hall]; csimpl; constructor; [done|].
    by apply Forall_fmap.
  - intros id [s Hs]. rewrite <-elem_of_map_to_list, <-Hrows in Hs.
    by apply (list_elem_of_fmap_2 fst) in Hs.
  - intros r [n Hn]%list_elem_of_lookup.
    destruct (Forall2_lookup_r _ _ _ _ _ Ho Hn) as ([id s] & Hr & Hid & ? & ? & ?).
    exists s. simpl in *. subst. split_and!; try done.
    rewrite <-elem_of_map_to_list, <-Hrows. by eapply list_elem_of_lookup_2.
Qed.

Lemma telemetry_summaries_witness :
  ∃ out, summaries (observe_provider "b" 40 (observe_queue_wait "a" 7 ∅)) = Ok out
    ∧ NoDup (qs_queue_id <$> out).
Proof.
  destruct (telemetry_summaries (observe_provider "b" 40 (observe_queue_wait "a" 7 ∅)))
    as (out & E & Hnd & _); [|by exists out].
  intros id s Hs. unfold samples_fit, u64_max.
  assert (Forall (λ p : string * QueueTelemetrySamples, (length (queue_wait_ms p.2) ≤ 1)%nat
    ∧ (length (throttle_wait_ms p.2) ≤ 1)%nat ∧ (length (provider_ms p.2) ≤ 1)%nat)
    (map_to_list (observe_provider "b" 40 (observe_queue_wait "a" 7 ∅)))) as Hall.
  { vm_compute map_to_list. repeat constructor. }
  rewrite Forall_forall in Hall. specialize (Hall (id, s)). rewrite elem_of_map_to_list in Hall.
  destruct (Hall Hs) as (? & ? & ?). simpl in *. lia.
Defined.
