(* ===== verification/QueueSpec.v ===== *)
(** What every queue backend promises about an item's life.

    [item_step] is the lifecycle of one item as the contracts of
    [symbiotic-queue] describe it: claimed while waiting and within its attempt
    budget, acknowledged only while running, reclaimed only after its lease
    ran out, never revived from a terminal status.  [evolves] is what one call
    on a backend may do to one id.  [Backend] states the promise a backend
    makes; the backends discharge it, and the theorems of the last section are
    proved once against the class. *)

From Stdlib Require Import ZArith Lia.
From stdpp Require Import base gmap strings list relations.
From S2P Require Import Prelude Core QueueTypes.

#[local] Open Scope Z_scope.

(** ** Lifecycle of one item *)

Definition spec_claimed (worker : string) (until now : DateTime) (i : QueueItem) : QueueItem :=
  with_updated_at now (with_lease_until (Some until) (with_lease_owner (Some worker)
    (with_attempt (qi_attempt i + 1) (with_status Running i)))).

Definition spec_renewed (until now : DateTime) (i : QueueItem) : QueueItem :=
  with_updated_at now (with_lease_until (Some until) i).

(** The lease given up with a status, an error and an error class. *)
Definition spec_released (status : QueueStatus) (error : option DiagnosticCode)
    (class : option FailureClass) (now : DateTime) (i : QueueItem) : QueueItem :=
  with_updated_at now (with_last_error_class class (with_last_error error
    (with_lease_until None (with_lease_owner None (with_status status i))))).

Definition attempts_left (i : QueueItem) : Prop := qi_attempt i < qi_max_attempts i.

Inductive item_step : relation QueueItem :=
| step_claim i worker until now :
    is_waiting (qi_status i) = true → attempts_left i →
    item_step i (spec_claimed worker until now i)
| step_heartbeat i until now :
    qi_status i = Running →
    item_step i (spec_renewed until now i)
| step_complete i now :
    qi_status i = Running →
    item_step i (spec_released Succeeded None None now i)
| step_retry i run_after error class now :
    qi_status i = Running → attempts_left i →
    item_step i (spec_released Failed (Some error) class now (with_run_after run_after i))
| step_exhaust i run_after error class now :
    qi_status i = Running → ¬ attempts_left i →
    item_step i (spec_released Dead (Some error) class now (with_run_after run_after i))
| step_stop i run_after error class now :
    qi_status i = Running →
    item_step i (spec_released Stopped (Some error) class now (with_run_after run_after i))
| step_reclaim i until now :
    qi_status i = Running → qi_lease_until i = Some until → until < now →
    item_step i (spec_released (if qi_max_attempts i <=? qi_attempt i then Dead else Failed)
                   (Some LeaseExpired) (Some ClassQueue) now i)
| step_retire i error now :
    is_waiting (qi_status i) = true → ¬ attempts_left i →
    item_step i (with_last_error (Some error) (with_updated_at now (with_status Dead i)))
| step_replaced i :
    qi_status i = Failed →
    item_step i (with_last_error_class (Some ClassQueue) (with_status Stopped i))
| step_stale i error now :
    is_active (qi_status i) = true →
    (qi_status i = Running → ∃ until, qi_lease_until i = Some until ∧ until < now) →
    item_step i (with_updated_at now (with_last_error (Some error)
                   (with_lease_until None (with_lease_owner None (with_status Dead i))))).

(** An item as enqueueing creates it. *)
Definition fresh_item (i : QueueItem) : Prop :=
  qi_status i = Pending ∧ qi_attempt i = 0 ∧ 1 ≤ qi_max_attempts i ≤ u32_max
  ∧ qi_lease_owner i = None ∧ qi_lease_until i = None
  ∧ qi_last_error i = None ∧ qi_last_error_class i = None.

(** What one call may do to one id: nothing, create it, move it along its
    lifecycle, or forget it once terminal. *)
Inductive evolves : option QueueItem → option QueueItem → Prop :=
| evolves_absent : evolves None None
| evolves_created i : fresh_item i → evolves None (Some i)
| evolves_kept i j : rtc item_step i j → evolves (Some i) (Some j)
| evolves_forgotten i j :
    rtc item_step i j → is_terminal (qi_status j) = true → evolves (Some i) None.

(** ** Well-formed items *)

(** An attempt count within its budget, and a lease exactly while running. *)
Record item_wf (i : QueueItem) : Prop := {
  wf_max : 1 ≤ qi_max_attempts i ≤ u32_max;
  wf_attempt : 0 ≤ qi_attempt i ≤ qi_max_attempts i;
  wf_waiting : is_waiting (qi_status i) = true → attempts_left i;
  wf_running : qi_status i = Running →
    1 ≤ qi_attempt i ∧ is_Some (qi_lease_owner i) ∧ is_Some (qi_lease_until i);
  wf_unleased : qi_status i ≠ Running → qi_lease_owner i = None ∧ qi_lease_until i = None;
}.

(** Fields no operation changes. *)
Definition same_identity (i j : QueueItem) : Prop :=
  qi_item_id j = qi_item_id i ∧ qi_queue_id j = qi_queue_id i ∧ qi_kind j = qi_kind i
  ∧ qi_payload j = qi_payload i ∧ qi_idempotency_key j = qi_idempotency_key i
  ∧ qi_created_at j = qi_created_at i ∧ qi_max_attempts j = qi_max_attempts i.

Lemma fresh_item_wf i : fresh_item i → item_wf i.
Proof.
  intros (Hs & Ha & Hm & Ho & Hu & _). split; rewrite ?Hs, ?Ha; unfold attempts_left;
    naive_solver lia.
Qed.

Lemma waiting_not_running s : is_waiting s = true → s ≠ Running.
Proof. by destruct s. Qed.

Lemma active_cases s : is_active s = true → s = Running ∨ is_waiting s = true.
Proof. destruct s; simpl; auto. Qed.

Lemma item_step_wf i j : item_step i j → item_wf i → item_wf j.
Proof.
  intros Hs [Hm Ha Hw Hr Hu]; unfold attempts_left in *.
  destruct Hs; split; unfold attempts_left in *; simpl in *; try case_match; bools;
    try done; try lia; intros; simpl in *; split_and?; try done; try lia;
    first [by eexists | by apply Hr | by apply Hu | apply Hu; congruence
          | apply Hu, waiting_not_running; done].
Qed.

Lemma item_steps_wf i j : rtc item_step i j → item_wf i → item_wf j.
Proof. induction 1; eauto using item_step_wf. Qed.

Lemma item_step_identity i j : item_step i j → same_identity i j.
Proof. by destruct 1. Qed.

Lemma item_steps_identity i j : rtc item_step i j → same_identity i j.
Proof.
  induction 1 as [|i j k Hij Hjk IH]; [done|].
  apply item_step_identity in Hij. unfold same_identity in *. naive_solver congruence.
Qed.

(** A terminal item takes no step. *)
Lemma item_step_active i j : item_step i j → is_active (qi_status i) = true.
Proof.
  destruct 1 as [? ? ? ? H|? ? ? H|? ? H|? ? ? ? ? H|? ? ? ? ? H|? ? ? ? ? H|? ? ? H|? ? ? H|? H|? ? ? H];
    try (by rewrite H); try done; by destruct (qi_status _).
Qed.

Lemma terminal_stuck i j : rtc item_step i j → is_terminal (qi_status i) = true → j = i.
Proof.
  intros Hs Ht. destruct Hs as [|i k j Hik _]; [done|].
  apply item_step_active in Hik. unfold is_terminal in Ht. by rewrite Hik in Ht.
Qed.

(** Attempts only grow. *)
Lemma item_steps_attempt i j : rtc item_step i j → qi_attempt i ≤ qi_attempt j.
Proof.
  induction 1 as [|i j k Hij Hjk IH]; [lia|].
  enough (qi_attempt i ≤ qi_attempt j) by lia. destruct Hij; simpl; lia.
Qed.

(** ** Tables moving along the lifecycle *)

(** [evolves] without creation; unlike it, this composes. *)
Inductive moved : option QueueItem → option QueueItem → Prop :=
| moved_absent : moved None None
| moved_kept i j : rtc item_step i j → moved (Some i) (Some j)
| moved_forgotten i j :
    rtc item_step i j → is_terminal (qi_status j) = true → moved (Some i) None.

Definition moves (m m' : gmap string QueueItem) : Prop := ∀ id, moved (m !! id) (m' !! id).

Lemma moved_refl o : moved o o.
Proof. destruct o; constructor. done. Qed.

Lemma moved_trans o1 o2 o3 : moved o1 o2 → moved o2 o3 → moved o1 o3.
Proof.
  intros [|i j Hij|i j Hij Hj] H; [done| |].
  - inversion H as [|? k Hjk|? k Hjk]; simplify_eq.
    + apply moved_kept. by trans j.
    + eapply moved_forgotten; [by trans j|done].
  - inversion H. by eapply moved_forgotten.
Qed.

#[export] Instance moves_preorder : PreOrder moves.
Proof.
  split; [intros m id; apply moved_refl|].
  intros m1 m2 m3 H1 H2 id. eapply moved_trans; [apply H1 | apply H2].
Qed.

Lemma moved_evolves o1 o2 : moved o1 o2 → evolves o1 o2.
Proof. destruct 1; by econstructor. Qed.

Lemma moved_wf o1 o2 i :
  moved o1 o2 → o2 = Some i → (∀ j, o1 = Some j → item_wf j) → item_wf i.
Proof. destruct 1; intros ? Hwf; simplify_eq. eauto using item_steps_wf. Qed.

(** [m'] is [m] less some terminal items. *)
Definition forgets (m m' : gmap string QueueItem) : Prop :=
  ∀ id, m' !! id = m !! id
        ∨ m' !! id = None ∧ ∃ j, m !! id = Some j ∧ is_terminal (qi_status j) = true.

#[export] Instance forgets_preorder : PreOrder forgets.
Proof.
  split; [by intros m id; left|].
  intros m1 m2 m3 H1 H2 id.
  destruct (H1 id) as [E1|[E1 Hj]], (H2 id) as [E2|[E2 Hj']]; rewrite E2; auto.
  rewrite E1 in Hj'. auto.
Qed.

Lemma forgets_moves m m' : forgets m m' → moves m m'.
Proof.
  intros Hf id. destruct (Hf id) as [->|[-> (j & -> & Ht)]]; [apply moved_refl|].
  by econstructor.
Qed.

(** One item stepping, then terminal items forgotten. *)
Lemma step_forgets_moves m m' id i j :
  m !! id = Some i → rtc item_step i j → forgets (<[id := j]> m) m' → moves m m'.
Proof.
  intros Hi Hs Hf. trans (<[id := j]> m); [|by apply forgets_moves].
  intros id'. destruct (decide (id = id')) as [->|Hne]; simplify_map_eq.
  - by constructor.
  - apply moved_refl.
Qed.

(** ** The promise of a backend *)

(** [backend_items] is what a backend stores, by id; [backend_step] one
    state-changing call; [backend_ok] its invariant; [backend_env] what the
    environment owes a call: machine-width arguments and a fresh UUID. *)
Class Backend (Q C : Type) : Type := {
  backend_items : Q → gmap string QueueItem;
  backend_step : Q → C → Q;
  backend_ok : Q → Prop;
  backend_env : Q → C → Prop;
}.

Class BackendLaws (Q C : Type) `{!Backend Q C} : Prop := {
  backend_step_ok (q : Q) (c : C) :
    backend_ok q → backend_env q c → backend_ok (backend_step q c);
  backend_step_evolves (q : Q) (c : C) id :
    backend_ok q → backend_env q c →
    evolves (backend_items q !! id) (backend_items (backend_step q c) !! id);
  backend_ok_wf (q : Q) id i :
    backend_ok q → backend_items q !! id = Some i → item_wf i ∧ qi_item_id i = id;
}.

(** A sequence of calls, each in the environment it needs. *)
Inductive backend_run {Q C : Type} `{!Backend Q C} : Q → list C → Q → Prop :=
| run_nil q : backend_run q [] q
| run_cons q c cs q' :
    backend_env q c → backend_run (backend_step q c) cs q' → backend_run q (c :: cs) q'.

Section Clients.
Context {Q C : Type} `{!Backend Q C} `{!BackendLaws Q C}.
Implicit Types (q : Q) (c : C).

Lemma backend_run_ok q cs q' : backend_run q cs q' → backend_ok q → backend_ok q'.
Proof. induction 1; eauto using backend_step_ok. Qed.

(** A terminal item is final: one call keeps it unchanged or forgets it. *)
Lemma terminal_final q c id i :
  backend_ok q → backend_env q c →
  backend_items q !! id = Some i → is_terminal (qi_status i) = true →
  backend_items (backend_step q c) !! id ∈ [None; Some i].
Proof.
  intros Hok Henv Hi Ht. pose proof (backend_step_evolves q c id Hok Henv) as He.
  rewrite Hi in He. inversion He as [| |? j Hs|? j Hs Hj]; simplify_eq; [|set_solver].
  rewrite (terminal_stuck _ _ Hs Ht). set_solver.
Qed.

(** An active item is never lost. *)
Lemma active_kept q c id i :
  backend_ok q → backend_env q c →
  backend_items q !! id = Some i →
  (∃ j, backend_items (backend_step q c) !! id = Some j ∧ same_identity i j
        ∧ qi_attempt i ≤ qi_attempt j ≤ qi_max_attempts i)
  ∨ backend_items (backend_step q c) !! id = None
    ∧ ∃ j, rtc item_step i j ∧ is_terminal (qi_status j) = true.
Proof.
  intros Hok Henv Hi. pose proof (backend_step_evolves q c id Hok Henv) as He.
  destruct (backend_ok_wf q id i Hok Hi) as [Hwf _].
  rewrite Hi in He. inversion He as [| |? j Hs|? j Hs Hj]; simplify_eq; [left|right; eauto].
  exists j. pose proof (item_steps_identity _ _ Hs) as Hid. split_and!; try done.
  - by apply item_steps_attempt.
  - destruct (wf_attempt j (item_steps_wf _ _ Hs Hwf)). unfold same_identity in Hid. lia.
Qed.
End Clients.
