(* ===== verification/MemoryQueue.v ===== *)
(** [symbiotic-queue], [memory.rs]: the in-process backend.

    [State] is the structure behind the mutex and [MemoryQueue] the handle:
    the state and the mutex's poison flag.  Every operation of the backend is
    one definition.  [self.items[id]] and [expect] are the partial reads they
    are in the source: an absent entry is a [Panic], which poisons the mutex.

    Readings of the system clock ([Utc::now()]) and the fresh UUID of a new
    item are arguments.  The iteration order of a [HashSet] is unspecified, so
    it is the parameter [set_iter] of the class [HashIter].  An operation
    returns the new handle, the events it hands to [emit] in order, and its
    result. *)

From Stdlib Require Import ZArith Lia.
From stdpp Require Import base gmap strings list fin_maps sorting.
From S2P Require Import Prelude Core QueueTypes.

#[local] Open Scope Z_scope.

(** Iteration over a [HashSet<String>]: every element once, in some order. *)
Class HashIter : Type := {
  set_iter : gset string → list string;
  set_iter_elements : ∀ s, set_iter s ≡ₚ elements s;
}.

(** One such order. *)
Definition hash_elements : HashIter :=
  {| set_iter := elements; set_iter_elements := λ s, Permutation_refl (elements s) |}.

(** ** State *)

Record State : Type := mkState {
  items : gmap string QueueItem;
  idempotency : gmap (string * string) string;
  running : gmap string (gset string);
  terminal : list string;
  retain_terminal : nat;
  cooldowns : gmap string DateTime;
}.

Definition set_items (m : gmap string QueueItem) (s : State) : State :=
  mkState m (idempotency s) (running s) (terminal s) (retain_terminal s) (cooldowns s).
Definition set_idempotency (m : gmap (string * string) string) (s : State) : State :=
  mkState (items s) m (running s) (terminal s) (retain_terminal s) (cooldowns s).
Definition set_running (m : gmap string (gset string)) (s : State) : State :=
  mkState (items s) (idempotency s) m (terminal s) (retain_terminal s) (cooldowns s).
Definition set_terminal (l : list string) (s : State) : State :=
  mkState (items s) (idempotency s) (running s) l (retain_terminal s) (cooldowns s).
Definition set_cooldowns (m : gmap string DateTime) (s : State) : State :=
  mkState (items s) (idempotency s) (running s) (terminal s) (retain_terminal s) m.

(** [self.items.get_mut(id)] followed by assignments to the item's fields. *)
Definition modify_item (id : string) (f : QueueItem → QueueItem) (s : State) : State :=
  set_items (alter f id (items s)) s.

Record MemoryQueue : Type := mkMemoryQueue {
  mq_state : State;
  mq_poisoned : bool;
}.

Definition with_terminal_retention (retain : nat) : MemoryQueue :=
  mkMemoryQueue (mkState ∅ ∅ ∅ [] (Nat.max retain 1) ∅) false.

Definition DEFAULT_RETAINED_TERMINAL_ITEMS : nat := Z.to_nat 10000.

Definition new : MemoryQueue := with_terminal_retention DEFAULT_RETAINED_TERMINAL_ITEMS.

(** Events handed to [emit], with the error each carries. *)
Abbreviation Events := (list (QueueItem * option DiagnosticCode)) (only parsing).

(** [emit]: nothing without a sink; with one, an event per item, the [n]-th
    stamped with the [n]-th reading of the clock. *)
Definition emit (has_sink : bool) (clock : nat → DateTime) (events : Events) : list QueueEvent :=
  if has_sink then imap (λ n e, event_of (clock n) e) events else [].

(** ** Operations on the locked state *)

Definition running_count (queue_id : string) (s : State) : Z :=
  Z.of_nat (match running s !! queue_id with Some ids => size ids | None => 0%nat end).

(** The body of [evict_terminal]'s loop for one popped id. *)
Definition evict_one (evicted : string) (s : State) : State :=
  match items s !! evicted with
  | None => s
  | Some item =>
      let s := set_items (delete evicted (items s)) s in
      match qi_idempotency_key item with
      | None => s
      | Some key =>
          let index := (qi_queue_id item, key) in
          if bool_decide (idempotency s !! index = Some evicted)
          then set_idempotency (delete index (idempotency s)) s
          else s
      end
  end.

(** [while self.terminal.len() > self.retain_terminal]: [pop_front] until the
    deque fits; [term] is the deque. *)
Fixpoint evict_loop (term : list string) (s : State) : State :=
  match term with
  | [] => set_terminal [] s
  | evicted :: rest =>
      if (retain_terminal s <? length term)%nat
      then evict_loop rest (evict_one evicted s)
      else set_terminal term s
  end.

Definition evict_terminal (s : State) : State := evict_loop (terminal s) s.

(** [running.remove(item_id)], dropping a set that becomes empty. *)
Definition running_remove (queue_id item_id : string) (m : gmap string (gset string)) :
    gmap string (gset string) :=
  match m !! queue_id with
  | None => m
  | Some ids =>
      let ids := ids ∖ {[item_id]} in
      if bool_decide (ids = ∅) then delete queue_id m else <[queue_id := ids]> m
  end.

(** [entry(queue_id).or_default().insert(item_id)]. *)
Definition running_insert (queue_id item_id : string) (m : gmap string (gset string)) :
    gmap string (gset string) :=
  <[queue_id := {[item_id]} ∪ default ∅ (m !! queue_id)]> m.

Definition set_status (item_id : string) (status : QueueStatus) (s : State) : State :=
  match items s !! item_id with
  | None => s
  | Some item =>
      let previous := qi_status item in
      let queue_id := qi_queue_id item in
      let s := modify_item item_id (with_status status) s in
      let s :=
        if bool_decide (previous = Running) && negb (bool_decide (status = Running))
        then set_running (running_remove queue_id item_id (running s)) s else s in
      let s :=
        if bool_decide (status = Running) && negb (bool_decide (previous = Running))
        then set_running (running_insert queue_id item_id (running s)) s else s in
      match status with
      | Succeeded | Dead | Stopped =>
          evict_terminal (set_terminal (terminal s ++ [item_id]) s)
      | _ => s
      end
  end.

Section MemoryQueue.
Context `{!Chrono} `{!HashIter}.

(** Ids of [ids] whose item's lease has run out; an id without item panics. *)
Fixpoint expired_of (s : State) (now : DateTime) (ids : list string) :
    result QueueError (list string) :=
  match ids with
  | [] => Ok []
  | id :: ids =>
      let? item := expect (items s !! id) in
      let? rest := expired_of s now ids in
      Ok (match qi_lease_until item with
          | Some until => if until <? now then id :: rest else rest
          | None => rest
          end)
  end.

(** The fields [reclaim_expired] assigns after the status change. *)
Definition reclaimed_fields (now : DateTime) (i : QueueItem) : QueueItem :=
  with_last_error_class (Some ClassQueue) (with_last_error (Some LeaseExpired)
    (with_updated_at now (with_lease_until None (with_lease_owner None i)))).

(** One iteration of [reclaim_expired]'s loop. *)
Definition reclaim_one (now : DateTime) (id : string) (s : State) :
    result QueueError (State * QueueItem) :=
  let? item := expect (items s !! id) in
  let status := if qi_max_attempts item <=? qi_attempt item then Dead else Failed in
  let s := set_status id status s in
  let s := modify_item id (reclaimed_fields now) s in
  let? item := expect (items s !! id) in
  Ok (s, item).

Fixpoint reclaim_loop (now : DateTime) (expired : list string) (s : State) :
    result QueueError (State * list QueueItem) :=
  match expired with
  | [] => Ok (s, [])
  | id :: expired =>
      let? '(s, item) := reclaim_one now id s in
      let? '(s, reclaimed) := reclaim_loop now expired s in
      Ok (s, item :: reclaimed)
  end.

Definition reclaim_expired (queue_id : string) (now : DateTime) (s : State) :
    result QueueError (State * list QueueItem) :=
  let? expired :=
    match running s !! queue_id with
    | Some ids => expired_of s now (set_iter ids)
    | None => Ok []
    end in
  reclaim_loop now expired s.

(** [last_error.get_or_insert(...)] of [retire_if_exhausted]. *)
Definition retired_fields (now : DateTime) (i : QueueItem) : QueueItem :=
  with_last_error (Some (default AttemptBudgetExhausted (qi_last_error i)))
    (with_updated_at now i).

Definition retire_if_exhausted (item_id : string) (now : DateTime) (s : State) :
    State * option QueueItem :=
  match items s !! item_id with
  | None => (s, None)
  | Some item =>
      if negb (is_waiting (qi_status item)) || (qi_attempt item <? qi_max_attempts item)
      then (s, None)
      else
        let s := modify_item item_id (retired_fields now) s in
        let s := set_status item_id Dead s in
        (s, items s !! item_id)
  end.

(** The fields [lease] assigns after the status change. *)
Definition leased_fields (worker_id : string) (lease_until now : DateTime) (i : QueueItem) :
    QueueItem :=
  with_updated_at now (with_lease_until (Some lease_until)
    (with_lease_owner (Some worker_id)
      (with_attempt (saturating_add u32_max (qi_attempt i) 1) i))).

Definition lease (item_id worker_id : string) (lease_until now : DateTime) (s : State) :
    result QueueError State :=
  let s := set_status item_id Running s in
  let? _ := expect (items s !! item_id) in
  Ok (modify_item item_id (leased_fields worker_id lease_until now) s).

(** ** The handle's operations *)

(** [self.lock()?] and the critical section.  The section returns the new
    state, the events for after the unlock and the call's result; an early
    error leaves the state as it was; a panic poisons the mutex. *)
Definition with_lock {A : Type} (q : MemoryQueue)
    (section : State → result QueueError (State * Events * result QueueError A)) :
    MemoryQueue * Events * result QueueError A :=
  if mq_poisoned q then (q, [], Err (Unavailable MemoryQueueLockPoisoned))
  else match section (mq_state q) with
       | Ok (s, events, r) => (mkMemoryQueue s false, events, r)
       | Err e => (q, [], Err e)
       | Panic => (mkMemoryQueue (mq_state q) true, [], Panic)
       end.

(** [MemoryQueue::len]: zero when the lock is poisoned. *)
Definition len (q : MemoryQueue) : nat :=
  if mq_poisoned q then 0%nat else size (items (mq_state q)).

(** The item [enqueue_inner] inserts. *)
Definition new_item (now : DateTime) (uuid : string) (r : EnqueueRequest) : QueueItem :=
  mkQueueItem uuid (er_queue_id r) (er_kind r) (er_payload r) Pending 0
    (Z.max (default 3 (er_max_attempts r)) 1) (default now (er_run_after r)) None None
    (er_idempotency_key r) None None now now.

(** The item the request's idempotency key currently names. *)
Definition existing_for (r : EnqueueRequest) (s : State) : option QueueItem :=
  key ← er_idempotency_key r;
  existing_id ← idempotency s !! (er_queue_id r, key);
  items s !! existing_id.

(** Whether the existing item answers the request instead of a new one. *)
Definition answers (r : EnqueueRequest) (replacing : option string) (existing : QueueItem) : bool :=
  let active := is_active (qi_status existing) in
  let superseded :=
    match replacing with Some current => negb (bool_decide (qi_item_id existing = current))
    | None => false end in
  let reclaimed :=
    bool_decide (is_Some replacing) && bool_decide (qi_status existing = Failed)
    && bool_decide (qi_last_error existing = Some LeaseExpired) in
  (active && negb reclaimed) || negb (er_force r) || superseded.

(** [Failed] [current] retires as [Stopped] before its replacement exists. *)
Definition retire_replaced (replacing : option string) (s : State) : State :=
  match replacing with
  | Some current =>
      match items s !! current with
      | Some i =>
          if bool_decide (qi_status i = Failed)
          then modify_item current (with_last_error_class (Some ClassQueue))
                 (set_status current Stopped s)
          else s
      | None => s
      end
  | None => s
  end.

(** The insertion into the idempotency index and the item table. *)
Definition insert_item (item : QueueItem) (s : State) : State :=
  let s := match qi_idempotency_key item with
           | Some key =>
               set_idempotency (<[(qi_queue_id item, key) := qi_item_id item]> (idempotency s)) s
           | None => s
           end in
  set_items (<[qi_item_id item := item]> (items s)) s.

Definition enqueue_inner (q : MemoryQueue) (now : DateTime) (uuid : string)
    (r : EnqueueRequest) (replacing : option string) :
    MemoryQueue * Events * result QueueError EnqueueOutcome :=
  if blank (er_kind r) then (q, [], Err (InvalidRequest QueueItemKindMustNotBeEmpty))
  else with_lock q (λ s,
    let insert_new :=
      let item := new_item now uuid r in
      let s := insert_item item (retire_replaced replacing s) in
      Ok (s, [(item, None)], Ok (mkEnqueueOutcome item Inserted)) in
    match existing_for r s with
    | Some existing =>
        if answers r replacing existing
        then Ok (s, [], Ok (mkEnqueueOutcome existing
               (if is_active (qi_status existing) then ActiveDuplicate else TerminalDuplicate)))
        else insert_new
    | None => insert_new
    end).

Definition enqueue q now uuid r := enqueue_inner q now uuid r None.

Definition enqueue_replacing q now uuid r (current : string) :=
  enqueue_inner q now uuid (with_force true r) (Some current).

(** [update_running]: the lease fence around every acknowledgement. *)
Definition update_running {A : Type} (q : MemoryQueue) (now : DateTime)
    (item_id worker_id : string)
    (update : State → QueueItem → result QueueError (State * A)) :
    MemoryQueue * option QueueItem * result QueueError A :=
  match with_lock q (λ s,
    let? current := ok_or (items s !! item_id) (NotFound InvalidConfiguration) in
    if negb (bool_decide (qi_status current = Running))
    then Err (NotRunning InvalidConfiguration)
    else if negb (bool_decide (qi_lease_owner current = Some worker_id))
    then Err (LeaseMismatch InvalidConfiguration)
    else if match qi_lease_until current with Some until => until <? now | None => true end
    then Err (LeaseMismatch InvalidConfiguration)
    else
      let? '(s, a) := update s current in
      let? item := expect (items s !! item_id) in
      Ok (s, [(item, None)], Ok a))
  with
  | (q, events, r) => (q, fst <$> head events, r)
  end.

Definition heartbeat_fields (now lease_until : DateTime) (i : QueueItem) : QueueItem :=
  with_updated_at now (with_lease_until (Some lease_until) i).

Definition heartbeat (q : MemoryQueue) (now : DateTime) (item_id worker_id : string)
    (lease_seconds : Z) : MemoryQueue * Events * result QueueError unit :=
  let '(q, item, r) :=
    update_running q now item_id worker_id (λ s _,
      let? until := lease_deadline now lease_seconds in
      Ok (modify_item item_id (heartbeat_fields now until) s, tt)) in
  (q, (λ i, (i, None)) <$> option_list item, r).

Definition completed_fields (now : DateTime) (i : QueueItem) : QueueItem :=
  with_updated_at now (with_last_error_class None (with_last_error None
    (with_lease_until None (with_lease_owner None i)))).

Definition complete (q : MemoryQueue) (now : DateTime) (item_id worker_id : string) :
    MemoryQueue * Events * result QueueError unit :=
  let '(q, item, r) :=
    update_running q now item_id worker_id (λ s _,
      Ok (set_status item_id Succeeded (modify_item item_id (completed_fields now) s), tt)) in
  (q, (λ i, (i, None)) <$> option_list item, r).

Definition failed_fields (now run_after : DateTime) (f : Failure) (i : QueueItem) : QueueItem :=
  with_updated_at now (with_last_error_class (f_error_class f)
    (with_last_error (Some (f_error f)) (with_lease_until None (with_lease_owner None
      (with_run_after run_after i))))).

(** Status and outcome of a recorded failure. *)
Definition fail_decision (f : Failure) (exhausted : bool) : QueueStatus * FailOutcome :=
  match f_run_after f with
  | None => (Stopped, FailStopped)
  | Some _ => if exhausted then (Dead, MovedToDead) else (Failed, RetryScheduled)
  end.

Definition fail_with (q : MemoryQueue) (now : DateTime) (item_id worker_id : string)
    (f : Failure) : MemoryQueue * Events * result QueueError FailOutcome :=
  let '(q, item, r) :=
    update_running q now item_id worker_id (λ s item,
      let exhausted := qi_max_attempts item <=? qi_attempt item in
      let? run_after := match f_run_after f with
                        | Some t => Ok t
                        | None => add_seconds now 1
                        end in
      let s := modify_item item_id (failed_fields now run_after f) s in
      let '(status, outcome) := fail_decision f exhausted in
      Ok (set_status item_id status s, outcome)) in
  (q, (λ i, (i, Some (f_error f))) <$> option_list item, r).

(** [fail]: the retry time is computed at [now0], before [fail_with]. *)
Definition fail (q : MemoryQueue) (now0 now : DateTime) (item_id worker_id : string)
    (error : DiagnosticCode) (retry_after_seconds : option Z) :
    MemoryQueue * Events * result QueueError FailOutcome :=
  match fail_run_after now0 retry_after_seconds with
  | Ok run_after => fail_with q now item_id worker_id (mkFailure error None (Some run_after))
  | Err e => (q, [], Err e)
  | Panic => (q, [], Panic)
  end.

(** [lease_events]. *)
Definition lease_events (l : list QueueItem) : Events := (λ i, (i, Some LeaseExpired)) <$> l.

Definition reclaim_expired_leases (q : MemoryQueue) (now : DateTime) (queue_id : string) :
    MemoryQueue * Events * result QueueError Z :=
  with_lock q (λ s,
    let? '(s, reclaimed) := reclaim_expired queue_id now s in
    Ok (s, lease_events reclaimed, Ok (Z.of_nat (length reclaimed)))).

(** The order claims are served in: [(run_after, created_at, item_id)]. *)
Definition claim_le (a b : QueueItem) : Prop :=
  qi_run_after a < qi_run_after b
  ∨ qi_run_after a = qi_run_after b
    ∧ (qi_created_at a < qi_created_at b
       ∨ qi_created_at a = qi_created_at b ∧ String.le (qi_item_id a) (qi_item_id b)).

#[global] Instance claim_le_dec : RelDecision claim_le.
Proof. unfold claim_le. intros a b. apply _. Defined.

(** Items of the queue a claim at [now] may take. *)
Definition ready (queue_id : string) (now : DateTime) (i : QueueItem) : bool :=
  bool_decide (qi_queue_id i = queue_id) && is_waiting (qi_status i)
  && (qi_attempt i <? qi_max_attempts i) && (qi_run_after i <=? now).

Definition ready_items (queue_id : string) (now : DateTime) (s : State) : list QueueItem :=
  merge_sort claim_le (select_where (ready queue_id now) (map_to_list (items s)).*2).

(** Leases the chosen ids in order and reads each back. *)
Fixpoint lease_loop (worker_id : string) (lease_until now : DateTime) (ids : list string)
    (s : State) : result QueueError (State * list QueueItem) :=
  match ids with
  | [] => Ok (s, [])
  | id :: ids =>
      let? s := lease id worker_id lease_until now s in
      let? item := expect (items s !! id) in
      let? '(s, claimed) := lease_loop worker_id lease_until now ids s in
      Ok (s, item :: claimed)
  end.

(** How many items a claim may take, given the queue's running count. *)
Definition claim_limit (r : ClaimRequest) (s : State) : Z :=
  let limit := Z.max (cr_limit r) 1 in
  match cr_max_in_flight r with
  | Some cap => Z.min limit (saturating_sub cap (running_count (cr_queue_id r) s))
  | None => limit
  end.

(** Whether the queue cools down at the clock reading [t]. *)
Definition cooling (queue_id : string) (t : DateTime) (s : State) : bool :=
  match cooldowns s !! queue_id with Some until => t <? until | None => false end.

(** [claim]: the clock is read at entry ([now]) and again for the cooldown
    check under the lock ([now']). *)
Definition claim (q : MemoryQueue) (now now' : DateTime) (r : ClaimRequest) :
    MemoryQueue * Events * result QueueError (list QueueItem) :=
  if blank (cr_worker_id r) then (q, [], Err (InvalidRequest WorkerIdMustNotBeEmpty))
  else match lease_deadline now (cr_lease_seconds r) with
  | Err e => (q, [], Err e)
  | Panic => (q, [], Panic)
  | Ok lease_until =>
      with_lock q (λ s,
        if cooling (cr_queue_id r) now' s then Ok (s, [], Ok [])
        else
          let? '(s, reclaimed) := reclaim_expired (cr_queue_id r) now s in
          let limit := claim_limit r s in
          let ids := qi_item_id <$> take (Z.to_nat limit) (ready_items (cr_queue_id r) now s) in
          let? '(s, claimed) := lease_loop (cr_worker_id r) lease_until now ids s in
          Ok (s, lease_events reclaimed ++ ((λ i, (i, None)) <$> claimed), Ok claimed))
  end.

(** [claim_item]'s test on the item as reclaiming and retiring left it. *)
Definition item_claimable (now now' : DateTime) (max_in_flight : option Z) (current : QueueItem)
    (queue_id : string) (s : State) : bool :=
  is_waiting (qi_status current) && (qi_run_after current <=? now)
  && negb (cooling queue_id now' s)
  && match max_in_flight with Some cap => running_count queue_id s <? cap | None => true end.

Definition claim_item (q : MemoryQueue) (now now' : DateTime) (item_id worker_id : string)
    (lease_seconds : Z) (max_in_flight : option Z) :
    MemoryQueue * Events * result QueueError (option QueueItem) :=
  if blank worker_id then (q, [], Err (InvalidRequest WorkerIdMustNotBeEmpty))
  else match lease_deadline now lease_seconds with
  | Err e => (q, [], Err e)
  | Panic => (q, [], Panic)
  | Ok lease_until =>
      with_lock q (λ s,
        let? item := ok_or (items s !! item_id) (NotFound InvalidConfiguration) in
        let queue_id := qi_queue_id item in
        let? '(s, reclaimed) := reclaim_expired queue_id now s in
        if negb (bool_decide (is_Some (items s !! item_id)))
        then Ok (s, lease_events reclaimed, Err (NotFound InvalidConfiguration))
        else
          let '(s, retired) := retire_if_exhausted item_id now s in
          let? current := expect (items s !! item_id) in
          let? '(s, claimed) :=
            if item_claimable now now' max_in_flight current queue_id s
            then let? s := lease item_id worker_id lease_until now s in
                 let? item := expect (items s !! item_id) in
                 Ok (s, Some item)
            else Ok (s, None) in
          Ok (s, lease_events reclaimed
                 ++ ((λ i, (i, qi_last_error i)) <$> option_list retired)
                 ++ ((λ i, (i, None)) <$> option_list claimed), Ok claimed))
  end.

Definition get_item (q : MemoryQueue) (item_id : string) :
    result QueueError (option QueueItem) :=
  if mq_poisoned q then Err (Unavailable MemoryQueueLockPoisoned)
  else Ok (items (mq_state q) !! item_id).

Definition cooldown_until (q : MemoryQueue) (queue_id : string) :
    result QueueError (option DateTime) :=
  if mq_poisoned q then Err (Unavailable MemoryQueueLockPoisoned)
  else Ok (cooldowns (mq_state q) !! queue_id).

Definition note_cooldown (q : MemoryQueue) (queue_id : string) (until : DateTime) :
    MemoryQueue * Events * result QueueError unit :=
  with_lock q (λ s,
    let current := default until (cooldowns s !! queue_id) in
    let current := if current <? until then until else current in
    Ok (set_cooldowns (<[queue_id := current]> (cooldowns s)) s, [], Ok tt)).

(** ** Calls as one step function *)

(** A state-changing call of the trait, with the clock readings and the UUID
    the environment supplies. *)
Inductive call : Type :=
| CallEnqueue (now : DateTime) (uuid : string) (r : EnqueueRequest)
| CallEnqueueReplacing (now : DateTime) (uuid : string) (r : EnqueueRequest) (current : string)
| CallClaim (now now' : DateTime) (r : ClaimRequest)
| CallClaimItem (now now' : DateTime) (item_id worker_id : string) (lease_seconds : Z)
    (max_in_flight : option Z)
| CallHeartbeat (now : DateTime) (item_id worker_id : string) (lease_seconds : Z)
| CallComplete (now : DateTime) (item_id worker_id : string)
| CallFail (now0 now : DateTime) (item_id worker_id : string) (error : DiagnosticCode)
    (retry_after_seconds : option Z)
| CallFailWith (now : DateTime) (item_id worker_id : string) (f : Failure)
| CallReclaim (now : DateTime) (queue_id : string)
| CallNoteCooldown (queue_id : string) (until : DateTime).

(** The value a call returns. *)
Inductive reply : Type :=
| ReplyEnqueued (o : EnqueueOutcome)
| ReplyClaimed (l : list QueueItem)
| ReplyItem (o : option QueueItem)
| ReplyUnit
| ReplyFail (o : FailOutcome)
| ReplyCount (n : Z).

Definition reply_of {A : Type} (f : A → reply) (r : result QueueError A) :
    result QueueError reply :=
  let? a := r in Ok (f a).

Definition exec (q : MemoryQueue) (c : call) : MemoryQueue * Events * result QueueError reply :=
  let on {A : Type} (f : A → reply) (x : MemoryQueue * Events * result QueueError A) :=
    let '(q, ev, r) := x in (q, ev, reply_of f r) in
  match c with
  | CallEnqueue now uuid r => on ReplyEnqueued (enqueue q now uuid r)
  | CallEnqueueReplacing now uuid r current =>
      on ReplyEnqueued (enqueue_replacing q now uuid r current)
  | CallClaim now now' r => on ReplyClaimed (claim q now now' r)
  | CallClaimItem now now' id w ls cap => on ReplyItem (claim_item q now now' id w ls cap)
  | CallHeartbeat now id w ls => on (λ _ : unit, ReplyUnit) (heartbeat q now id w ls)
  | CallComplete now id w => on (λ _ : unit, ReplyUnit) (complete q now id w)
  | CallFail now0 now id w e ra => on ReplyFail (fail q now0 now id w e ra)
  | CallFailWith now id w f => on ReplyFail (fail_with q now id w f)
  | CallReclaim now qid => on ReplyCount (reclaim_expired_leases q now qid)
  | CallNoteCooldown qid until => on (λ _ : unit, ReplyUnit) (note_cooldown q qid until)
  end.

End MemoryQueue.
