(* ===== verification/MemoryQueueInv.v ===== *)
(** The in-process backend's invariant and how its state operations keep it.

    [index_inv] says that the four indices of [State] describe the item table:
    the running sets are exactly the running items of each queue, the terminal
    deque holds every terminal item once and fits its bound, and the
    idempotency map leads to the only active item of each key.  [state_inv]
    adds that every item is well formed. *)

From Stdlib Require Import ZArith Lia.
From stdpp Require Import base gmap strings list fin_maps fin_sets sorting relations.
From S2P Require Import Prelude Core QueueTypes QueueSpec MemoryQueue.

#[local] Open Scope Z_scope.

(** The item table behind a handle. *)
Abbreviation table q := (items (mq_state q)).

(** ** The indices describe the table *)

Definition running_ids (s : State) (queue_id : string) : gset string :=
  default ∅ (running s !! queue_id).

(** All of the invariant but the bound on the terminal deque, which
    [set_status] exceeds by one between its push and its eviction. *)
Record index_core (s : State) : Prop := {
  ix_keyed id i : items s !! id = Some i → qi_item_id i = id;
  ix_running queue_id id : id ∈ running_ids s queue_id ↔
    ∃ i, items s !! id = Some i ∧ qi_queue_id i = queue_id ∧ qi_status i = Running;
  ix_terminal id : id ∈ terminal s ↔
    ∃ i, items s !! id = Some i ∧ is_terminal (qi_status i) = true;
  ix_nodup : NoDup (terminal s);
  ix_retain : (1 ≤ retain_terminal s)%nat;
  ix_idem queue_id key id : idempotency s !! (queue_id, key) = Some id →
    ∃ i, items s !! id = Some i ∧ qi_queue_id i = queue_id ∧ qi_idempotency_key i = Some key;
  ix_active id i key :
    items s !! id = Some i → is_active (qi_status i) = true → qi_idempotency_key i = Some key →
    idempotency s !! (qi_queue_id i, key) = Some id;
}.

Record index_inv (s : State) : Prop := {
  ix_core : index_core s;
  ix_bound : (length (terminal s) ≤ retain_terminal s)%nat;
}.

Definition items_wf (s : State) : Prop := ∀ id i, items s !! id = Some i → item_wf i.

Record state_inv (s : State) : Prop := {
  inv_index : index_inv s;
  inv_items : items_wf s;
}.

Lemma running_count_ids s queue_id : running_count queue_id s = Z.of_nat (size (running_ids s queue_id)).
Proof. unfold running_count, running_ids. by destruct (running s !! queue_id). Qed.

(** Moving along the lifecycle keeps items well formed. *)
Lemma moves_wf s s' : moves (items s) (items s') → items_wf s → items_wf s'.
Proof. intros Hm Hwf id i Hi. eapply moved_wf; [apply (Hm id)|done|eauto]. Qed.

(** ** Field updates *)

(** A change of fields the indices do not read. *)
Definition index_stable (f : QueueItem → QueueItem) : Prop :=
  ∀ i, qi_item_id (f i) = qi_item_id i ∧ qi_queue_id (f i) = qi_queue_id i
       ∧ qi_status (f i) = qi_status i ∧ qi_idempotency_key (f i) = qi_idempotency_key i.

Lemma modify_item_core f id s : index_stable f → index_core s → index_core (modify_item id f s).
Proof.
  intros Hf [H1 H2 H3 H4 H5 H6 H7].
  assert (Halter : ∀ id', ∃ g, index_stable g ∧ alter f id (items s) !! id' = g <$> items s !! id').
  { intros id'. rewrite lookup_alter. case_decide; [subst; by exists f|].
    exists (λ i, i). split; [by intros i|]. by destruct (items s !! id'). }
  split; simpl; try done.
  - intros id' i. destruct (Halter id') as (g & Hg & ->).
    intros (j & Hj & ->)%fmap_Some. destruct (Hg j) as (-> & _). eauto.
  - intros q id'. change (running_ids _ q) with (running_ids s q). rewrite H2. destruct (Halter id') as (g & Hg & ->). split.
    + intros (i & -> & ? & ?). exists (g i). destruct (Hg i) as (?&?&?&?). split_and!; simpl; congruence.
    + intros (i & (j & Hj & ->)%fmap_Some & ? & ?). exists j. destruct (Hg j) as (?&?&?&?).
      split_and?; congruence.
  - intros id'. rewrite H3. destruct (Halter id') as (g & Hg & ->). split.
    + intros (i & -> & ?). exists (g i). destruct (Hg i) as (?&?&?&?). split_and!; simpl; congruence.
    + intros (i & (j & Hj & ->)%fmap_Some & ?). exists j. destruct (Hg j) as (?&?&?&?).
      split_and?; congruence.
  - intros q k id' Hq. destruct (H6 q k id' Hq) as (i & Hi & ? & ?).
    destruct (Halter id') as (g & Hg & ->). exists (g i). rewrite Hi.
    destruct (Hg i) as (?&?&?&?). split_and!; simpl; congruence.
  - intros id' i k. destruct (Halter id') as (g & Hg & ->).
    intros (j & Hj & ->)%fmap_Some. destruct (Hg j) as (?&->&->&->). eauto.
Qed.

(** ** Eviction *)

Lemma evict_one_items x s : items (evict_one x s) = delete x (items s).
Proof.
  unfold evict_one. destruct (items s !! x) as [i|] eqn:Hx.
  - by repeat case_match.
  - by rewrite delete_id.
Qed.

Lemma evict_one_frame x s :
  running (evict_one x s) = running s ∧ retain_terminal (evict_one x s) = retain_terminal s
  ∧ cooldowns (evict_one x s) = cooldowns s.
Proof. unfold evict_one. by repeat case_match. Qed.

(** Evicting an id leaves the other index entries, and none that names it. *)
Lemma evict_one_idem x i s index id :
  items s !! x = Some i →
  (∀ q k, idempotency s !! (q, k) = Some x → qi_queue_id i = q ∧ qi_idempotency_key i = Some k) →
  idempotency (evict_one x s) !! index = Some id ↔ idempotency s !! index = Some id ∧ id ≠ x.
Proof.
  intros Hx Hidx. unfold evict_one. rewrite Hx. destruct index as [q k].
  destruct (qi_idempotency_key i) as [k'|] eqn:Hk; simpl; [|naive_solver].
  case_bool_decide as Hd; simpl; [|naive_solver].
  destruct (decide ((qi_queue_id i, k') = (q, k))) as [[= <- <-]|Hne].
  - rewrite lookup_delete_eq. naive_solver.
  - rewrite lookup_delete_ne by done. naive_solver.
Qed.

Lemma evict_one_core x rest s :
  index_core (set_terminal (x :: rest) s) →
  index_core (set_terminal rest (evict_one x s)) ∧ forgets (items s) (items (evict_one x s)).
Proof.
  intros [H1 H2 H3 H4 H5 H6 H7]; simpl in *.
  destruct (proj1 (H3 x) ltac:(set_solver)) as (i & Hi & Ht).
  apply NoDup_cons in H4 as [Hx Hnd].
  destruct (evict_one_frame x s) as (Er & Ert & _).
  assert (Hidem := λ index id, evict_one_idem x i s index id Hi ltac:(naive_solver)).
  split; [split; simpl; rewrite ?evict_one_items, ?Er, ?Ert; try done|].
  - intros id j [? Hj]%lookup_delete_Some. eauto.
  - intros q id. change (running_ids _ q) with (default ∅ (running (evict_one x s) !! q)).
    rewrite Er. fold (running_ids s q). rewrite (H2 q id).
    setoid_rewrite lookup_delete_Some. split; [|naive_solver].
    intros (j & Hj & ? & Hr). exists j. split_and!; try done. intros <-. simplify_eq.
    by rewrite Hr in Ht.
  - intros id. setoid_rewrite lookup_delete_Some. split.
    + intros Hid. destruct (proj1 (H3 id) ltac:(set_solver)) as (j & Hj & ?).
      exists j. split_and!; try done. intros <-. done.
    + intros (j & [? Hj] & ?). pose proof (proj2 (H3 id) ltac:(eauto)) as Hin.
      apply elem_of_cons in Hin as [|]; [naive_solver|done].
  - intros q k id [Hq Hne]%Hidem. destruct (H6 q k id Hq) as (j & ? & ?).
    exists j. rewrite lookup_delete_ne by done. eauto.
  - intros id j k [? Hj]%lookup_delete_Some Ha Hk. apply Hidem. eauto.
  - intros id. rewrite evict_one_items. destruct (decide (x = id)) as [<-|Hne].
    + right. rewrite lookup_delete_eq. eauto.
    + left. by rewrite lookup_delete_ne.
Qed.

Lemma evict_loop_spec term s :
  index_core (set_terminal term s) →
  let s' := evict_loop term s in
  index_inv s' ∧ forgets (items s) (items s')
  ∧ terminal s' = drop (length term - retain_terminal s) term
  ∧ retain_terminal s' = retain_terminal s ∧ cooldowns s' = cooldowns s
  ∧ running s' = running s.
Proof.
  revert s. induction term as [|x rest IH]; intros s Hc; simpl.
  { split_and!; try done. split; [done|]. simpl. lia. }
  case_match eqn:Hlt.
  - destruct (evict_one_core x rest s Hc) as [Hc' Hf].
    destruct (IH _ Hc') as (Hi & Hf' & Ht & Hr & Hcd & Hru).
    destruct (evict_one_frame x s) as (Er & Ert & Ec).
    split_and!; try done; try congruence.
    + by etrans.
    + rewrite Ht, Ert. apply Nat.ltb_lt in Hlt. simpl in Hlt.
      by replace (S (length rest) - retain_terminal s)%nat
        with (S (length rest - retain_terminal s)) by lia.
  - apply Nat.ltb_ge in Hlt. simpl in Hlt.
    assert (S (length rest) - retain_terminal s = 0)%nat as -> by lia.
    by split_and!.
Qed.

(** ** Status changes *)

Lemma running_remove_ids q id m q' x :
  x ∈ default ∅ (running_remove q id m !! q' : option (gset string))
  ↔ x ∈ default ∅ (m !! q' : option (gset string)) ∧ ¬ (q' = q ∧ x = id).
Proof.
  unfold running_remove. destruct (m !! q) as [ids|] eqn:Hq.
  - case_bool_decide as He; (destruct (decide (q = q')) as [<-|Hne];
      [rewrite ?lookup_delete_eq, ?lookup_insert_eq, Hq
      |rewrite ?lookup_delete_ne, ?lookup_insert_ne by done]); set_solver.
  - destruct (decide (q = q')) as [<-|Hne]; [rewrite Hq|]; set_solver.
Qed.

Lemma running_insert_ids q id m q' x :
  x ∈ default ∅ (running_insert q id m !! q' : option (gset string))
  ↔ x ∈ default ∅ (m !! q' : option (gset string)) ∨ q' = q ∧ x = id.
Proof.
  unfold running_insert. rewrite lookup_insert.
  destruct (decide (q = q')) as [<-|Hne]; set_solver.
Qed.

(** The state [set_status] reaches before the terminal push: the item with its
    new status and the running sets following it. *)
Definition status_marked (id : string) (st : QueueStatus) (i : QueueItem) (s : State) : State :=
  let previous := qi_status i in
  let s := modify_item id (with_status st) s in
  let s := if bool_decide (previous = Running) && negb (bool_decide (st = Running))
           then set_running (running_remove (qi_queue_id i) id (running s)) s else s in
  if bool_decide (st = Running) && negb (bool_decide (previous = Running))
  then set_running (running_insert (qi_queue_id i) id (running s)) s else s.

Lemma status_marked_frame id st i s :
  items s !! id = Some i →
  items (status_marked id st i s) = <[id := with_status st i]> (items s)
  ∧ idempotency (status_marked id st i s) = idempotency s
  ∧ terminal (status_marked id st i s) = terminal s
  ∧ retain_terminal (status_marked id st i s) = retain_terminal s
  ∧ cooldowns (status_marked id st i s) = cooldowns s.
Proof.
  intros Hi. unfold status_marked, modify_item. rewrite (alter_as_insert _ _ _ _ Hi).
  split_and!; by repeat case_match.
Qed.

Lemma status_marked_running id st i s q x :
  index_core s → items s !! id = Some i →
  x ∈ running_ids (status_marked id st i s) q
  ↔ if decide (x = id) then st = Running ∧ q = qi_queue_id i else x ∈ running_ids s q.
Proof.
  intros Hc Hi. unfold status_marked, running_ids.
  pose proof (ix_running s Hc q id) as Hid. unfold running_ids in Hid. rewrite Hi in Hid.
  do 2 case_bool_decide; simpl;
    rewrite ?running_remove_ids, ?running_insert_ids; case_decide; subst; simpl; naive_solver.
Qed.

(** Giving an active item a new status keeps the indices; a terminal status
    enters the deque. *)
Lemma status_marked_core id st i s :
  index_core s → items s !! id = Some i → is_active (qi_status i) = true →
  index_core (if is_active st then status_marked id st i s
              else set_terminal (terminal s ++ [id]) (status_marked id st i s)).
Proof.
  intros Hc Hi Ha. pose proof Hc as [H1 H2 H3 H4 H5 H6 H7].
  destruct (status_marked_frame id st i s Hi) as (Ei & Ed & Et & Er & _).
  set (s' := status_marked id st i s) in *.
  assert (Hrun := λ q x, status_marked_running id st i s q x Hc Hi). fold s' in Hrun.
  assert (Hnt : id ∉ terminal s).
  { rewrite H3. intros (j & Hj & Ht). simplify_eq. unfold is_terminal in Ht. by rewrite Ha in Ht. }
  assert (Hitems : ∀ s'', items s'' = items s' → idempotency s'' = idempotency s →
    running s'' = running s' → retain_terminal s'' = retain_terminal s →
    (∀ x, x ∈ terminal s'' ↔ x ∈ terminal s ∨ is_active st = false ∧ x = id) →
    NoDup (terminal s'') → index_core s'').
  { intros s'' Gi Gd Gr Gt Gterm Gnd. rewrite Ei in Gi. split; try done; try congruence; try lia.
    - intros x j. rewrite Gi, lookup_insert. case_decide; intros; simplify_eq/=; eauto.
    - intros q x. unfold running_ids. rewrite Gr. fold (running_ids s' q). rewrite Hrun, Gi.
      case_decide as Hd; [subst; rewrite lookup_insert_eq; naive_solver|].
      rewrite lookup_insert_ne by done. apply H2.
    - intros x. rewrite Gterm, Gi. destruct (decide (x = id)) as [->|Hd].
      + rewrite lookup_insert_eq. split.
        * intros [?|[Ef _]]; [done|]. eexists. split; [done|]. unfold is_terminal. simpl.
          by rewrite Ef.
        * intros (j & [= <-] & Hj). right. unfold is_terminal in Hj. simpl in Hj.
          by destruct (is_active st).
      + rewrite lookup_insert_ne, <-H3 by done. naive_solver.
    - rewrite Gd, Gi. intros q k x Hq. destruct (H6 q k x Hq) as (j & Hj & ? & ?).
      destruct (decide (x = id)) as [->|Hd]; simplify_eq; [rewrite lookup_insert_eq; eauto|].
      rewrite lookup_insert_ne by done. eauto.
    - rewrite Gd, Gi. intros x j k. rewrite lookup_insert. case_decide; intros; simplify_eq/=; eauto. }
  destruct (is_active st) eqn:E; apply Hitems; simpl; try done; try congruence.
  - intros x. rewrite Et. naive_solver.
  - intros x. rewrite elem_of_app, list_elem_of_singleton. naive_solver.
  - apply NoDup_app. split_and!; [done|set_solver|apply NoDup_singleton].
Qed.

(** [set_status] on an active item: the item has its new status, the indices
    follow, and at most terminal items of other ids are forgotten. *)
Lemma set_status_spec id st i s :
  index_inv s → items s !! id = Some i → is_active (qi_status i) = true →
  let s' := set_status id st s in
  index_inv s' ∧ forgets (<[id := with_status st i]> (items s)) (items s')
  ∧ items s' !! id = Some (with_status st i)
  ∧ cooldowns s' = cooldowns s ∧ retain_terminal s' = retain_terminal s
  ∧ (∀ q, running_ids s' q = running_ids (status_marked id st i s) q).
Proof.
  intros [Hc Hb] Hi Ha. pose proof (status_marked_core id st i s Hc Hi Ha) as Hm.
  destruct (status_marked_frame id st i s Hi) as (Ei & _ & Et & Er & Ec).
  assert (Es : set_status id st s =
    if is_active st then status_marked id st i s
    else evict_terminal (set_terminal (terminal s ++ [id]) (status_marked id st i s))).
  { unfold set_status. rewrite Hi. fold (status_marked id st i s). rewrite <-Et. by destruct st. }
  simpl. rewrite Es. destruct (is_active st).
  - split_and!; try done; try congruence.
    + split; [done|]. rewrite Et, Er. done.
    + rewrite Ei. done.
    + rewrite Ei. apply lookup_insert_eq.
  - destruct (evict_loop_spec (terminal s ++ [id]) (set_terminal (terminal s ++ [id])
      (status_marked id st i s)) Hm) as (Hinv & Hf & Ht & Hr & Hcd & Hrun).
    unfold evict_terminal. simpl in *. rewrite Ei in Hf. split_and!; try done; try congruence.
    + assert (id ∈ terminal (evict_loop (terminal s ++ [id]) (set_terminal (terminal s ++ [id])
        (status_marked id st i s)))) as Hin.
      { rewrite Ht, Er. pose proof (ix_retain s Hc). rewrite length_app. simpl.
        rewrite drop_app_le by lia. set_solver. }
      apply (ix_terminal _ (ix_core _ Hinv)) in Hin as (j & Hj & _).
      destruct (Hf id) as [->|[? _]]; [apply lookup_insert_eq|congruence].
    + intros q. unfold running_ids. by rewrite Hrun.
Qed.

(** ** One item advances *)

(** [s'] is [s] with the item of [id] replaced by [j] and at most terminal
    items of other ids forgotten, indices in order. *)
Record advances (id : string) (j : QueueItem) (s s' : State) : Prop := {
  adv_inv : index_inv s';
  adv_item : items s' !! id = Some j;
  adv_forgets : forgets (<[id := j]> (items s)) (items s');
  adv_cooldowns : cooldowns s' = cooldowns s;
  adv_retain : retain_terminal s' = retain_terminal s;
}.

Lemma modify_item_inv f id s : index_stable f → index_inv s → index_inv (modify_item id f s).
Proof. intros Hf [Hc Hb]. split; [by apply modify_item_core|done]. Qed.

Lemma insert_forgets id (i : QueueItem) (m m' : gmap string QueueItem) j :
  forgets (<[id := i]> m) m' → m' !! id = Some i → forgets (<[id := j]> m) (<[id := j]> m').
Proof.
  intros Hf Hid id'. specialize (Hf id').
  destruct (decide (id = id')) as [<-|Hne]; [left; by rewrite !lookup_insert_eq|].
  by rewrite !lookup_insert_ne in * by done.
Qed.

Lemma advances_modify f id i s :
  index_inv s → items s !! id = Some i → index_stable f →
  advances id (f i) s (modify_item id f s).
Proof.
  intros Hinv Hi Hf. split; simpl; try done.
  - by apply modify_item_inv.
  - rewrite (alter_as_insert _ _ _ _ Hi). apply lookup_insert_eq.
  - by rewrite (alter_as_insert _ _ _ _ Hi).
Qed.

Lemma advances_status_modify f id i st s :
  index_inv s → items s !! id = Some i → is_active (qi_status i) = true → index_stable f →
  advances id (f (with_status st i)) s (modify_item id f (set_status id st s)).
Proof.
  intros Hinv Hi Ha Hf. destruct (set_status_spec id st i s Hinv Hi Ha) as (Hinv' & Hfg & Hi' & Hc & Hr & _).
  split; simpl; try done.
  - by apply modify_item_inv.
  - rewrite (alter_as_insert _ _ _ _ Hi'). apply lookup_insert_eq.
  - rewrite (alter_as_insert _ _ _ _ Hi'). by eapply insert_forgets.
Qed.

Lemma advances_modify_status f id i st s :
  index_inv s → items s !! id = Some i → is_active (qi_status i) = true → index_stable f →
  advances id (with_status st (f i)) s (set_status id st (modify_item id f s)).
Proof.
  intros Hinv Hi Ha Hf. pose proof (advances_modify f id i s Hinv Hi Hf) as [Hinv1 Hi1 _ Hc1 Hr1].
  destruct (set_status_spec id st (f i) _ Hinv1 Hi1) as (Hinv' & Hfg & Hi' & Hc & Hr & _).
  { destruct (Hf i) as (_ & _ & -> & _). done. }
  split; try done; try congruence.
  simpl in Hfg. by rewrite (alter_as_insert _ _ _ _ Hi), insert_insert_eq in Hfg.
Qed.

(** An item that advances by a lifecycle step keeps the whole invariant. *)
Lemma advances_step id i j s s' :
  state_inv s → items s !! id = Some i → advances id j s s' → item_step i j →
  state_inv s' ∧ moves (items s) (items s').
Proof.
  intros [Hidx Hwf] Hi [Hinv' Hj Hf _ _] Hstep.
  assert (moves (items s) (items s')) as Hm.
  { eapply step_forgets_moves; [done|by apply rtc_once|done]. }
  split; [|done]. split; [done|]. by eapply moves_wf.
Qed.

(** Other ids are left alone or forgotten once terminal. *)
Lemma advances_other id j s s' id' :
  advances id j s s' → id ≠ id' →
  items s' !! id' = items s !! id'
  ∨ items s' !! id' = None ∧ ∃ k, items s !! id' = Some k ∧ is_terminal (qi_status k) = true.
Proof. intros [_ _ Hf _ _] Hne. specialize (Hf id'). by rewrite lookup_insert_ne in Hf. Qed.

(** An active item of another id is untouched. *)
Lemma advances_active id j s s' id' k :
  advances id j s s' → id ≠ id' → items s !! id' = Some k → is_active (qi_status k) = true →
  items s' !! id' = Some k.
Proof.
  intros Hadv Hne Hk Ha. destruct (advances_other _ _ _ _ id' Hadv Hne) as [->|[_ (? & ? & Ht)]];
    [done|]. simplify_eq. unfold is_terminal in Ht. by rewrite Ha in Ht.
Qed.

Ltac stable := by intros [].

(** Running after an advance: the item itself by its new status, the others
    as before. *)
Lemma advances_running id i j s s' q x :
  index_inv s → items s !! id = Some i → advances id j s s' → qi_queue_id j = qi_queue_id i →
  x ∈ running_ids s' q
  ↔ if decide (x = id) then qi_status j = Running ∧ qi_queue_id i = q else x ∈ running_ids s q.
Proof.
  intros Hinv Hi Hadv Hq. rewrite (ix_running s' (ix_core _ (adv_inv _ _ _ _ Hadv))).
  case_decide as Hd.
  - subst. rewrite (adv_item _ _ _ _ Hadv). naive_solver congruence.
  - rewrite (ix_running s (ix_core _ Hinv)). split; intros (k & Hk & ? & Hr).
    + destruct (advances_other _ _ _ _ x Hadv ltac:(done)) as [E|[E _]]; [|congruence].
      exists k. by rewrite <-E.
    + exists k. split; [|done]. eapply advances_active; [done..|]. by rewrite Hr.
Qed.
