(* ===== verification/MemoryQueueProofs.v ===== *)
(** Every operation of the in-process backend keeps its invariant, never
    panics, and moves items only along the lifecycle of [QueueSpec]. *)

From Stdlib Require Import ZArith Lia.
From stdpp Require Import base gmap strings list fin_maps fin_sets sorting relations.
From S2P Require Import Prelude Core QueueTypes QueueSpec MemoryQueue MemoryQueueInv.

#[local] Open Scope Z_scope.

Section Proofs.
Context `{!Chrono} `{!HashIter}.

(** ** Reclaiming *)

(** A running item whose lease ended before [now]. *)
Definition lapsed (now : DateTime) (s : State) (id : string) : Prop :=
  ∃ i until, items s !! id = Some i ∧ qi_status i = Running
             ∧ qi_lease_until i = Some until ∧ until < now.

Definition spec_reclaimed (now : DateTime) (i : QueueItem) : QueueItem :=
  spec_released (if qi_max_attempts i <=? qi_attempt i then Dead else Failed)
    (Some LeaseExpired) (Some ClassQueue) now i.

Lemma reclaim_one_spec now id i until s :
  state_inv s → items s !! id = Some i → qi_status i = Running →
  qi_lease_until i = Some until → until < now →
  ∃ s', reclaim_one now id s = Ok (s', spec_reclaimed now i)
        ∧ advances id (spec_reclaimed now i) s s' ∧ item_step i (spec_reclaimed now i).
Proof.
  intros [Hidx _] Hi Hr Hu Hlt. unfold reclaim_one. rewrite Hi. rsimpl.
  set (st := if qi_max_attempts i <=? qi_attempt i then Dead else Failed).
  pose proof (advances_status_modify (reclaimed_fields now) id i st s Hidx Hi
    ltac:(by rewrite Hr) ltac:(stable)) as Hadv.
  assert (reclaimed_fields now (with_status st i) = spec_reclaimed now i) as E by (by destruct i).
  rewrite E in Hadv. fold st. rewrite (adv_item _ _ _ _ Hadv). rsimpl.
  eexists. split_and!; [done|done|]. by eapply step_reclaim.
Qed.

(** What reclaiming the ids of a list does: the listed items are released, the
    running sets lose exactly them. *)
Lemma reclaim_loop_spec now ids s :
  state_inv s → NoDup ids → (∀ id, id ∈ ids → lapsed now s id) →
  ∃ s' l, reclaim_loop now ids s = Ok (s', l) ∧ state_inv s' ∧ moves (items s) (items s')
    ∧ cooldowns s' = cooldowns s ∧ retain_terminal s' = retain_terminal s
    ∧ Forall2 (λ id j, ∃ i, items s !! id = Some i ∧ j = spec_reclaimed now i) ids l
    ∧ (∀ q x, x ∈ running_ids s' q ↔ x ∈ running_ids s q ∧ x ∉ ids)
    ∧ (∀ id i, id ∉ ids → items s !! id = Some i → is_active (qi_status i) = true →
         items s' !! id = Some i).
Proof.
  revert s. induction ids as [|id ids IH]; intros s Hinv Hnd Hl; simpl.
  { exists s, []. split_and!; try done. intros. set_solver. }
  apply NoDup_cons in Hnd as [Hid Hnd].
  destruct (Hl id ltac:(set_solver)) as (i & until & Hi & Hr & Hu & Hlt).
  destruct (reclaim_one_spec now id i until s Hinv Hi Hr Hu Hlt) as (s1 & E1 & Hadv & Hstep).
  destruct (advances_step id i _ s s1 Hinv Hi Hadv Hstep) as [Hinv1 Hm1].
  destruct (IH s1 Hinv1 Hnd) as (s' & l & E2 & Hinv' & Hm & Hc & Hret & Hl' & Hrun & Hother).
  { intros id' Hin. destruct (Hl id' ltac:(set_solver)) as (k & u & Hk & Hkr & ? & ?).
    exists k, u. split; [|done]. eapply advances_active; [done|set_solver|done|by rewrite Hkr]. }
  rewrite E1. simpl. rewrite E2. simpl. exists s', (spec_reclaimed now i :: l).
  split_and!; try done; try (by etrans).
  - by rewrite Hc, (adv_cooldowns _ _ _ _ Hadv).
  - by rewrite Hret, (adv_retain _ _ _ _ Hadv).
  - constructor; [eauto|]. eapply Forall2_impl_elem; [exact Hl'|].
    intros id' j Hin (k & Hk & ->). exists k. split; [|done].
    destruct (Hl id' ltac:(set_solver)) as (k' & u & Hk' & Hkr & _).
    assert (items s1 !! id' = Some k'); [|congruence].
    eapply advances_active; [done|set_solver|done|by rewrite Hkr].
  - intros q x. rewrite Hrun, (advances_running id i _ s s1 q x (inv_index _ Hinv) Hi Hadv eq_refl).
    case_decide; [subst|set_solver].
    split; [intros [[Hs _] _]|set_solver]. exfalso. revert Hs. simpl. by case_match.
  - intros id' k Hnin Hk Ha. apply Hother; [set_solver| |done].
    eapply advances_active; [done|set_solver|done|done].
Qed.

Lemma expired_of_spec s now ids :
  (∀ id, id ∈ ids → ∃ i, items s !! id = Some i ∧ qi_status i = Running) →
  ∃ l, expired_of s now ids = Ok l ∧ sublist l ids
       ∧ ∀ id, id ∈ l ↔ id ∈ ids ∧ lapsed now s id.
Proof.
  induction ids as [|id ids IH]; intros Hrun; simpl.
  { exists []. split_and!; try done. set_solver. }
  destruct (Hrun id ltac:(set_solver)) as (i & Hi & Hr).
  destruct IH as (l & El & Hsub & Hin); [intros; apply Hrun; set_solver|].
  rewrite Hi, El. rsimpl. destruct (qi_lease_until i) as [until|] eqn:Hu.
  - destruct (until <? now) eqn:Hlt; bools.
    + exists (id :: l). split_and!; [done|by apply sublist_skip|].
      intros id'. rewrite !elem_of_cons, Hin. split; [|tauto].
      intros [->|[? ?]]; [|by auto]. split; [by left|]. exists i, until. done.
    + exists l. split_and!; [done|by apply sublist_cons|].
      intros id'. rewrite elem_of_cons, Hin. split; [tauto|].
      intros [[->|?] Hl]; [|done]. destruct Hl as (j & u & ? & ? & ? & ?). simplify_eq. lia.
  - exists l. split_and!; [done|by apply sublist_cons|].
    intros id'. rewrite elem_of_cons, Hin. split; [tauto|].
    intros [[->|?] Hl]; [|done]. destruct Hl as (j & u & ? & ? & ? & ?). simplify_eq.
Qed.

(** [reclaim_expired] returns; afterwards the queue's running set is what it
    was less the lapsed leases, and no other queue's set changed. *)
Lemma reclaim_expired_spec q now s :
  state_inv s →
  ∃ s' l, reclaim_expired q now s = Ok (s', l) ∧ state_inv s' ∧ moves (items s) (items s')
    ∧ cooldowns s' = cooldowns s ∧ retain_terminal s' = retain_terminal s
    ∧ (∀ j, j ∈ l → ∃ id i, lapsed now s id ∧ items s !! id = Some i ∧ j = spec_reclaimed now i)
    ∧ (∀ q' x, x ∈ running_ids s' q' ↔ x ∈ running_ids s q' ∧ ¬ (q' = q ∧ lapsed now s x))
    ∧ (∀ id i, ¬ lapsed now s id → items s !! id = Some i → is_active (qi_status i) = true →
         items s' !! id = Some i).
Proof.
  intros Hinv. pose proof (ix_core _ (inv_index _ Hinv)) as Hc. unfold reclaim_expired.
  assert (∃ l, match running s !! q with
               | Some ids => expired_of s now (set_iter ids) | None => Ok [] end = Ok l
               ∧ NoDup l ∧ ∀ id, id ∈ l ↔ id ∈ running_ids s q ∧ lapsed now s id)
    as (l & El & Hnd & Hin).
  { destruct (running s !! q) as [ids|] eqn:Hq.
    - assert (Hids : running_ids s q = ids) by (unfold running_ids; by rewrite Hq).
      destruct (expired_of_spec s now (set_iter ids)) as (l & El & Hsub & Hin).
      + intros id Hid. rewrite set_iter_elements in Hid. apply elem_of_elements in Hid.
        rewrite <-Hids in Hid. apply (ix_running s Hc) in Hid as (i & ? & _ & ?). eauto.
      + exists l. split_and!; [done| |].
        * eapply sublist_NoDup; [|done]. rewrite set_iter_elements. apply NoDup_elements.
        * intros id. by rewrite Hin, set_iter_elements, elem_of_elements, Hids.
    - exists []. split_and!; try done; [constructor|]. intros id. unfold running_ids. rewrite Hq.
      set_solver. }
  rewrite El. rsimpl.
  destruct (reclaim_loop_spec now l s Hinv Hnd) as (s' & js & E & Hinv' & Hm & Hcd & Hret & Hjs & Hrun & Hother).
  { intros id Hid. by apply Hin. }
  exists s', js. split_and!; try done.
  - intros j Hj. apply list_elem_of_lookup in Hj as [n Hn].
    destruct (Forall2_lookup_r _ _ _ _ _ Hjs Hn) as (id & Hid & i & Hi & ->).
    apply list_elem_of_lookup_2, Hin in Hid as [_ ?]. eauto.
  - intros q' x. rewrite Hrun, Hin. split; intros [Hx Hn]; (split; [done|]).
    + intros [-> Hlx]. by apply Hn.
    + intros [Hx' Hlx]. apply Hn. split; [|done].
      apply (ix_running s Hc) in Hx as (i & Hi & <- & _).
      apply (ix_running s Hc) in Hx' as (j & Hj & <- & _). congruence.
  - intros id i Hnl Hi Ha. apply Hother; [|done..]. rewrite Hin. by intros [_ ?].
Qed.

(** ** Leasing *)

Lemma lease_spec id i worker until now s :
  state_inv s → items s !! id = Some i → is_waiting (qi_status i) = true → attempts_left i →
  ∃ s', lease id worker until now s = Ok s' ∧ advances id (spec_claimed worker until now i) s s'
        ∧ item_step i (spec_claimed worker until now i).
Proof.
  intros [Hidx Hwf] Hi Hw Hleft. unfold lease.
  assert (is_active (qi_status i) = true) as Ha by (destruct (qi_status i); done).
  destruct (set_status_spec id Running i s Hidx Hi Ha) as (_ & _ & Hi' & _).
  rewrite Hi'. rsimpl.
  pose proof (advances_status_modify (leased_fields worker until now) id i Running s Hidx Hi
    Ha ltac:(stable)) as Hadv.
  assert (leased_fields worker until now (with_status Running i) = spec_claimed worker until now i)
    as E.
  { destruct (wf_max i (Hwf _ _ Hi)). destruct (wf_attempt i (Hwf _ _ Hi)).
    unfold attempts_left in Hleft. unfold leased_fields, spec_claimed, saturating_add.
    rewrite Z.min_r by (simpl; lia). by destruct i. }
  rewrite E in Hadv. eexists. split_and!; [done..|]. by apply step_claim.
Qed.

(** An item a claim may take. *)
Definition leasable (s : State) (id : string) : Prop :=
  ∃ i, items s !! id = Some i ∧ is_waiting (qi_status i) = true ∧ attempts_left i.

Lemma lease_loop_spec worker until now ids s :
  state_inv s → NoDup ids → (∀ id, id ∈ ids → leasable s id) →
  ∃ s' l, lease_loop worker until now ids s = Ok (s', l) ∧ state_inv s'
    ∧ moves (items s) (items s') ∧ cooldowns s' = cooldowns s
    ∧ Forall2 (λ id j, ∃ i, items s !! id = Some i ∧ j = spec_claimed worker until now i
                            ∧ items s' !! id = Some j) ids l
    ∧ (∀ q x, x ∈ running_ids s' q ↔
         x ∈ running_ids s q ∨ x ∈ ids ∧ ∃ i, items s !! x = Some i ∧ qi_queue_id i = q)
    ∧ (∀ id i, id ∉ ids → items s !! id = Some i → is_active (qi_status i) = true →
         items s' !! id = Some i).
Proof.
  revert s. induction ids as [|id ids IH]; intros s Hinv Hnd Hl; simpl.
  { exists s, []. split_and!; try done. intros. set_solver. }
  apply NoDup_cons in Hnd as [Hid Hnd].
  destruct (Hl id ltac:(set_solver)) as (i & Hi & Hw & Hleft).
  destruct (lease_spec id i worker until now s Hinv Hi Hw Hleft) as (s1 & E1 & Hadv & Hstep).
  destruct (advances_step id i _ s s1 Hinv Hi Hadv Hstep) as [Hinv1 Hm1].
  assert (Hothers : ∀ id' k, id ≠ id' → items s !! id' = Some k → is_active (qi_status k) = true →
    items s1 !! id' = Some k) by (intros; by eapply advances_active).
  destruct (IH s1 Hinv1 Hnd) as (s' & l & E2 & Hinv' & Hm & Hc & Hl' & Hrun & Hother).
  { intros id' Hin. destruct (Hl id' ltac:(set_solver)) as (k & Hk & Hkw & ?).
    exists k. split; [|done]. apply Hothers; [set_solver|done|by destruct (qi_status k)]. }
  rewrite E1. rsimpl. rewrite (adv_item _ _ _ _ Hadv). rsimpl. rewrite E2. rsimpl.
  exists s', (spec_claimed worker until now i :: l). split_and!; try done; try (by etrans).
  - by rewrite Hc, (adv_cooldowns _ _ _ _ Hadv).
  - constructor.
    + exists i. split_and!; try done. apply Hother; [done|apply (adv_item _ _ _ _ Hadv)|done].
    + eapply Forall2_impl_elem; [exact Hl'|].
      intros id' j Hin (k & Hk & -> & Hj). exists k. split_and!; try done.
      destruct (Hl id' ltac:(set_solver)) as (k' & Hk' & Hkw & _).
      assert (items s1 !! id' = Some k'); [|congruence].
      apply Hothers; [set_solver|done|by destruct (qi_status k')].
  - intros q x. rewrite Hrun, (advances_running id i _ s s1 q x (inv_index _ Hinv) Hi Hadv eq_refl).
    destruct (decide (x = id)) as [->|Hx]; simpl.
    + split; [intros [[_ <-]|[? _]]; [right; set_solver|done]|].
      intros [Hr|[_ (? & ? & <-)]]; [|naive_solver].
      apply (ix_running s (ix_core _ (inv_index _ Hinv))) in Hr as (? & ? & _ & Hr). simplify_eq.
      rewrite Hr in Hw. done.
    + destruct (decide (x ∈ ids)) as [Hin|Hnin]; [|set_solver].
      destruct (Hl x ltac:(set_solver)) as (k & Hk & Hkw & _).
      rewrite (Hothers x k) by (done || by destruct (qi_status k)). rewrite Hk. set_solver.
  - intros id' k Hnin Hk Ha. apply Hother; [set_solver| |done]. apply Hothers; [set_solver|done..].
Qed.

(** ** What a call leaves behind *)

Definition queue_ok (q : MemoryQueue) : Prop := mq_poisoned q = false ∧ state_inv (mq_state q).

(** A call that returned, kept the invariant and moved items only along their
    lifecycle. *)
Record lawful {A : Type} (q : MemoryQueue) (x : MemoryQueue * Events * result QueueError A) :
    Prop := {
  lw_ok : queue_ok x.1.1;
  lw_moves id : evolves (table q !! id) (table x.1.1 !! id);
  lw_panic : x.2 ≠ Panic;
}.

(** A refused call: the queue as it was, no event, an error. *)
Lemma lawful_same {A : Type} q ev (r : result QueueError A) :
  queue_ok q → r ≠ Panic → lawful q (q, ev, r).
Proof. intros Hq Hr. split; try done. intros id. apply moved_evolves, moved_refl. Qed.

Lemma lawful_moves {A : Type} q s ev (r : result QueueError A) :
  state_inv s → moves (table q) (items s) → r ≠ Panic →
  lawful q (mkMemoryQueue s false, ev, r).
Proof. intros Hs Hm Hr. split; try done. intros id. apply moved_evolves, Hm. Qed.

(** ** Acknowledgements *)

(** The fence of [update_running]: the worker holds the item's current,
    unexpired lease. *)
Definition holds_lease (now : DateTime) (id worker : string) (i : QueueItem) (s : State) : Prop :=
  items s !! id = Some i ∧ qi_status i = Running ∧ qi_lease_owner i = Some worker
  ∧ ∃ until, qi_lease_until i = Some until ∧ now ≤ until.

(** The error a caller without the lease gets. *)
Definition fence_error (worker : string) (o : option QueueItem) : QueueError :=
  match o with
  | None => NotFound InvalidConfiguration
  | Some i => if bool_decide (qi_status i = Running) then LeaseMismatch InvalidConfiguration
              else NotRunning InvalidConfiguration
  end.

Lemma update_running_refused {A : Type} q now id worker
    (update : State → QueueItem → result QueueError (State * A)) :
  queue_ok q → (¬ ∃ i, holds_lease now id worker i (mq_state q)) →
  update_running q now id worker update = (q, None, Err (fence_error worker (table q !! id))).
Proof.
  intros [Hp _] Hno. unfold update_running, with_lock. rewrite Hp.
  destruct (table q !! id) as [i|] eqn:Hi; rsimpl; [|done]. simpl.
  case_bool_decide as Hr; simpl; [|done].
  case_bool_decide as Ho; simpl; [|done].
  destruct (qi_lease_until i) as [until|] eqn:Hu; [|done].
  destruct (until <? now) eqn:Hlt; [done|]. bools.
  exfalso. apply Hno. exists i. unfold holds_lease. eauto 10.
Qed.

Lemma update_running_held {A : Type} q now id worker i
    (update : State → QueueItem → result QueueError (State * A)) :
  queue_ok q → holds_lease now id worker i (mq_state q) →
  update_running q now id worker update =
    match (let? '(s, a) := update (mq_state q) i in
           let? item := expect (items s !! id) in Ok (s, item, a)) with
    | Ok (s, item, a) => (mkMemoryQueue s false, Some item, Ok a)
    | Err e => (q, None, Err e)
    | Panic => (mkMemoryQueue (mq_state q) true, None, Panic)
    end.
Proof.
  intros [Hp _] (Hi & Hr & Ho & until & Hu & Hle). unfold update_running, with_lock.
  rewrite Hp, Hi. rsimpl. rewrite Hr, Ho, Hu, !bool_decide_true by done. cbn [negb].
  destruct (until <? now) eqn:Hlt; [bools; lia|].
  destruct (update (mq_state q) i) as [[s a]| |]; rsimpl; [|done..].
  by destruct (items s !! id).
Qed.

(** An update that advances the item goes through and reports it. *)
Lemma update_running_advances {A : Type} q now id worker i j s'
    (update : State → QueueItem → result QueueError (State * A)) a :
  queue_ok q → holds_lease now id worker i (mq_state q) →
  update (mq_state q) i = Ok (s', a) → advances id j (mq_state q) s' →
  update_running q now id worker update = (mkMemoryQueue s' false, Some j, Ok a).
Proof.
  intros Hq Hh Hu Hadv. rewrite (update_running_held q now id worker i) by done.
  rewrite Hu. rsimpl. rewrite (adv_item _ _ _ _ Hadv). done.
Qed.

Lemma holds_lease_or now id worker s :
  (∃ i, holds_lease now id worker i s) ∨ ¬ ∃ i, holds_lease now id worker i s.
Proof.
  unfold holds_lease. destruct (items s !! id) as [i|]; [|right; by intros (? & ? & _)].
  destruct (decide (qi_status i = Running)); [|right; by intros (? & [= <-] & ? & _)].
  destruct (decide (qi_lease_owner i = Some worker)); [|right; by intros (? & [= <-] & _ & ? & _)].
  destruct (qi_lease_until i) as [until|] eqn:Hu.
  - destruct (decide (now ≤ until)); [left; eauto 10|].
    right. intros (? & [= <-] & _ & _ & u & Eu & ?). rewrite Hu in Eu. by injection Eu as <-.
  - right. intros (? & [= <-] & _ & _ & u & Eu & ?). by rewrite Hu in Eu.
Qed.

Lemma lease_deadline_no_panic now seconds : lease_deadline now seconds ≠ Panic.
Proof. unfold lease_deadline, ok_or. by case_match. Qed.

Lemma heartbeat_held q now id worker i seconds :
  queue_ok q → holds_lease now id worker i (mq_state q) →
  match lease_deadline now seconds with
  | Ok until => ∃ s', heartbeat q now id worker seconds
        = (mkMemoryQueue s' false, [(spec_renewed until now i, None)], Ok tt)
      ∧ advances id (spec_renewed until now i) (mq_state q) s'
  | Err e => heartbeat q now id worker seconds = (q, [], Err e)
  | Panic => False
  end.
Proof.
  intros Hq Hh. pose proof (lease_deadline_no_panic now seconds) as Hnp.
  unfold heartbeat. destruct (lease_deadline now seconds) as [until|e|] eqn:Hd; [| |done].
  - pose proof (advances_modify (heartbeat_fields now until) id i (mq_state q)
      (inv_index _ (proj2 Hq)) (proj1 Hh) ltac:(stable)) as Hadv.
    eexists. split; [|exact Hadv].
    erewrite update_running_advances; [|done|done|by rsimpl|exact Hadv]. done.
  - by rewrite (update_running_held _ _ _ _ i).
Qed.

Lemma complete_held q now id worker i :
  queue_ok q → holds_lease now id worker i (mq_state q) →
  ∃ s', complete q now id worker
      = (mkMemoryQueue s' false, [(spec_released Succeeded None None now i, None)], Ok tt)
    ∧ advances id (spec_released Succeeded None None now i) (mq_state q) s'.
Proof.
  intros Hq Hh. pose proof Hh as (Hi & Hr & _).
  pose proof (advances_modify_status (completed_fields now) id i Succeeded (mq_state q)
    (inv_index _ (proj2 Hq)) Hi ltac:(by rewrite Hr) ltac:(stable)) as Hadv.
  assert (with_status Succeeded (completed_fields now i) = spec_released Succeeded None None now i)
    as E by (by destruct i).
  rewrite E in Hadv. eexists. split; [|exact Hadv].
  unfold complete. by erewrite update_running_advances.
Qed.

(** The retry time a failure records: its own, or a second from now. *)
Definition failure_run_after (now : DateTime) (f : Failure) : result QueueError DateTime :=
  match f_run_after f with Some t => Ok t | None => add_seconds now 1 end.

Definition spec_failed (now run_after : DateTime) (f : Failure) (i : QueueItem) : QueueItem :=
  spec_released (fail_decision f (qi_max_attempts i <=? qi_attempt i)).1
    (Some (f_error f)) (f_error_class f) now (with_run_after run_after i).

Lemma fail_with_held q now id worker i f run_after :
  queue_ok q → holds_lease now id worker i (mq_state q) →
  failure_run_after now f = Ok run_after →
  ∃ s', fail_with q now id worker f
      = (mkMemoryQueue s' false, [(spec_failed now run_after f i, Some (f_error f))],
         Ok (fail_decision f (qi_max_attempts i <=? qi_attempt i)).2)
    ∧ advances id (spec_failed now run_after f i) (mq_state q) s'.
Proof.
  intros Hq Hh Hra. pose proof Hh as (Hi & Hr & _).
  set (d := fail_decision f (qi_max_attempts i <=? qi_attempt i)).
  pose proof (advances_modify_status (failed_fields now run_after f) id i d.1 (mq_state q)
    (inv_index _ (proj2 Hq)) Hi ltac:(by rewrite Hr) ltac:(stable)) as Hadv.
  assert (with_status d.1 (failed_fields now run_after f i) = spec_failed now run_after f i)
    as E by (by destruct i).
  rewrite E in Hadv. eexists. split; [|exact Hadv].
  unfold fail_with. erewrite update_running_advances; [|done|done| |exact Hadv]; [done|].
  unfold failure_run_after in Hra. rewrite Hra. rsimpl. subst d. by destruct (fail_decision _ _).
Qed.

Lemma spec_failed_step now run_after f i :
  qi_status i = Running → item_step i (spec_failed now run_after f i).
Proof.
  intros Hr. unfold spec_failed, fail_decision.
  destruct (f_run_after f); [|by apply step_stop].
  destruct (qi_max_attempts i <=? qi_attempt i) eqn:E; bools.
  - apply step_exhaust; [done|]. unfold attempts_left. lia.
  - by apply step_retry.
Qed.

(** A held lease whose item advances by a step makes a lawful call. *)
Lemma lawful_advances {A : Type} q id i j s' ev (r : result QueueError A) :
  queue_ok q → table q !! id = Some i → advances id j (mq_state q) s' → item_step i j →
  r ≠ Panic → lawful q (mkMemoryQueue s' false, ev, r).
Proof.
  intros [_ Hinv] Hi Hadv Hs Hr. destruct (advances_step _ _ _ _ _ Hinv Hi Hadv Hs).
  by apply lawful_moves.
Qed.

Lemma heartbeat_lawful q now id worker seconds :
  queue_ok q → lawful q (heartbeat q now id worker seconds).
Proof.
  intros Hq. destruct (holds_lease_or now id worker (mq_state q)) as [[i Hh]|Hno].
  - pose proof (heartbeat_held q now id worker i seconds Hq Hh) as Hb.
    destruct (lease_deadline now seconds); [|rewrite Hb; by apply lawful_same|done].
    destruct Hb as (s' & -> & Hadv). destruct Hh as (Hi & Hr & _).
    by eapply lawful_advances; [..|apply step_heartbeat|].
  - unfold heartbeat. rewrite update_running_refused by done. by apply lawful_same.
Qed.

Lemma complete_lawful q now id worker : queue_ok q → lawful q (complete q now id worker).
Proof.
  intros Hq. destruct (holds_lease_or now id worker (mq_state q)) as [[i Hh]|Hno].
  - destruct (complete_held q now id worker i Hq Hh) as (s' & -> & Hadv).
    destruct Hh as (Hi & Hr & _). by eapply lawful_advances; [..|apply step_complete|].
  - unfold complete. rewrite update_running_refused by done. by apply lawful_same.
Qed.

Lemma fail_with_lawful q now id worker f run_after :
  queue_ok q → failure_run_after now f = Ok run_after →
  lawful q (fail_with q now id worker f).
Proof.
  intros Hq Hra.
  destruct (holds_lease_or now id worker (mq_state q)) as [[i Hh]|Hno].
  - destruct (fail_with_held q now id worker i f run_after Hq Hh Hra) as (s' & -> & Hadv).
    destruct Hh as (Hi & Hr & _). by eapply lawful_advances; [..|apply spec_failed_step|].
  - unfold fail_with. rewrite update_running_refused by done. by apply lawful_same.
Qed.

End Proofs.
