(* ===== verification/MemoryQueueCalls.v ===== *)
(** Whole calls of the in-process backend: claiming, enqueueing and the step
    function [exec], each lawful in the sense of [MemoryQueueProofs]. *)

From Stdlib Require Import ZArith Lia.
From stdpp Require Import base gmap strings list fin_maps fin_sets sorting relations.
From S2P Require Import Prelude Core QueueTypes QueueSpec MemoryQueue MemoryQueueInv.
From S2P Require Import MemoryQueueProofs.

#[local] Open Scope Z_scope.

Section Calls.
Context `{!Chrono} `{!HashIter}.

(** ** Claim order *)

#[global] Instance claim_le_total : Total claim_le.
Proof.
  intros a b. unfold claim_le.
  destruct (Z.lt_trichotomy (qi_run_after a) (qi_run_after b)) as [?|[Er|?]]; [by auto| |by auto].
  destruct (Z.lt_trichotomy (qi_created_at a) (qi_created_at b)) as [?|[Ec|?]];
    [left; by auto 6| |right; by auto 6].
  destruct (total String.le (qi_item_id a) (qi_item_id b)); [left|right]; by auto 6.
Qed.

#[global] Instance claim_le_trans : Transitive claim_le.
Proof.
  intros a b c. unfold claim_le.
  intros [?|(Er & [?|(Ec & ?)])] [?|(Er' & [?|(Ec' & ?)])];
    try (left; lia); right; (split; [lia|]); try (left; lia).
  right. split; [lia|]. by trans (qi_item_id b).
Qed.

Lemma ready_items_sorted q now s : StronglySorted claim_le (ready_items q now s).
Proof.
  apply Sorted_StronglySorted; [exact claim_le_trans|]. apply Sorted_merge_sort, _.
Qed.

Lemma elem_of_ready_items q now s i :
  i ∈ ready_items q now s ↔ (∃ id, items s !! id = Some i) ∧ ready q now i = true.
Proof.
  unfold ready_items. rewrite merge_sort_Permutation, elem_of_select_where, list_elem_of_fmap.
  split; intros [Hi Hr]; (split; [|done]).
  - destruct Hi as ([id j] & -> & Hj%elem_of_map_to_list). eauto.
  - destruct Hi as (id & Hj%elem_of_map_to_list). by exists (id, i).
Qed.

Lemma ready_items_ids_nodup q now s :
  state_inv s → NoDup (qi_item_id <$> ready_items q now s).
Proof.
  intros Hinv. unfold ready_items. rewrite merge_sort_Permutation.
  eapply sublist_NoDup; [|eapply fmap_sublist, sublist_filter].
  assert (qi_item_id <$> (map_to_list (items s)).*2 = (map_to_list (items s)).*1) as ->;
    [|apply NoDup_fst_map_to_list].
  rewrite <-list_fmap_compose. apply list_fmap_ext. intros n [id i] Hn. simpl.
  apply list_elem_of_lookup_2, elem_of_map_to_list in Hn.
  by apply (ix_keyed s (ix_core _ (inv_index _ Hinv))).
Qed.

(** ** Claiming *)

Lemma Forall2_eq_fmap {A B : Type} (f : A → B) l k :
  Forall2 (λ x y, y = f x) l k → k = f <$> l.
Proof. induction 1; csimpl; congruence. Qed.

(** The items a claim takes from the state [s] its reclaiming left. *)
Definition taken (r : ClaimRequest) (now : DateTime) (s : State) : list QueueItem :=
  take (Z.to_nat (claim_limit r s)) (ready_items (cr_queue_id r) now s).

Lemma taken_ready r now s i :
  state_inv s → i ∈ taken r now s →
  items s !! qi_item_id i = Some i ∧ qi_queue_id i = cr_queue_id r
  ∧ is_waiting (qi_status i) = true ∧ attempts_left i ∧ qi_run_after i ≤ now.
Proof.
  intros Hinv Hi. assert (i ∈ ready_items (cr_queue_id r) now s) as Hr.
  { eapply elem_of_submseteq; [exact Hi|apply submseteq_take]. }
  apply elem_of_ready_items in Hr as [[id Hid] Hr]. unfold ready in Hr. bools.
  by rewrite (ix_keyed s (ix_core _ (inv_index _ Hinv)) _ _ Hid).
Qed.

Lemma taken_nodup r now s : state_inv s → NoDup (qi_item_id <$> taken r now s).
Proof.
  intros Hinv. eapply sublist_NoDup; [apply (ready_items_ids_nodup (cr_queue_id r) now s Hinv)|].
  apply fmap_sublist, sublist_take.
Qed.

(** Leasing the taken items: each is claimed, and the queue's running set
    grows by exactly them. *)
Lemma lease_taken r now until s :
  state_inv s →
  let worker := cr_worker_id r in
  let claimed := spec_claimed worker until now <$> taken r now s in
  ∃ s', lease_loop worker until now (qi_item_id <$> taken r now s) s = Ok (s', claimed)
    ∧ state_inv s' ∧ moves (items s) (items s') ∧ cooldowns s' = cooldowns s
    ∧ (∀ j, j ∈ claimed → items s' !! qi_item_id j = Some j)
    ∧ running_count (cr_queue_id r) s'
      = running_count (cr_queue_id r) s + Z.of_nat (length claimed)
    ∧ (∀ q, q ≠ cr_queue_id r → running_ids s' q = running_ids s q).
Proof.
  intros Hinv worker claimed.
  destruct (lease_loop_spec worker until now (qi_item_id <$> taken r now s) s Hinv
    (taken_nodup r now s Hinv)) as (s' & l & El & Hinv' & Hm & Hc & Hl & Hrun & _).
  { intros id (i & -> & Hi)%list_elem_of_fmap. destruct (taken_ready r now s i Hinv Hi) as (?&?&?&?&?).
    exists i. done. }
  rewrite Forall2_fmap_l in Hl.
  assert (Forall2 (λ i j, j = spec_claimed worker until now i ∧ items s' !! qi_item_id j = Some j)
    (taken r now s) l) as Hl'.
  { eapply Forall2_impl_elem; [exact Hl|]. intros i j Hi (k & Hk & -> & Hj).
    destruct (taken_ready r now s i Hinv Hi) as (Hi' & _). simpl in Hk, Hj. by simplify_eq. }
  assert (l = claimed) as -> by (apply Forall2_eq_fmap; eapply Forall2_impl; [exact Hl'|naive_solver]).
  exists s'. split_and!; try done.
  - intros j [n Hn]%list_elem_of_lookup.
    by destruct (Forall2_lookup_r _ _ _ _ _ Hl' Hn) as (? & _ & _ & ?).
  - rewrite !running_count_ids. subst claimed. rewrite length_fmap.
    assert (running_ids s' (cr_queue_id r) = running_ids s (cr_queue_id r)
      ∪ list_to_set (qi_item_id <$> taken r now s)) as ->.
    { apply leibniz_equiv. intros x. rewrite Hrun, elem_of_union, elem_of_list_to_set.
      split; [tauto|]. intros [?|Hx]; [by left|right]. split; [done|].
      apply list_elem_of_fmap in Hx as (i & -> & Hi).
      destruct (taken_ready r now s i Hinv Hi) as (?&?&_). eauto. }
    rewrite size_union, size_list_to_set by first [apply taken_nodup; done |
      intros x Hx (i & -> & Hi)%elem_of_list_to_set%list_elem_of_fmap;
      destruct (taken_ready r now s i Hinv Hi) as (?&?&Hw&_);
      apply (ix_running s (ix_core _ (inv_index _ Hinv))) in Hx as (j & ? & _ & Hj);
      simplify_eq; rewrite Hj in Hw; done].
    rewrite length_fmap. lia.
  - intros q Hq. apply leibniz_equiv. intros x. rewrite Hrun. split; [|by left].
    intros [?|[(i & -> & Hi)%list_elem_of_fmap (j & Hj & <-)]]; [done|].
    destruct (taken_ready r now s i Hinv Hi) as (?&?&_). simplify_eq.
Qed.

(** A claim that gets past its guards. *)
Lemma claim_taken q now now' r until :
  queue_ok q → blank (cr_worker_id r) = false →
  lease_deadline now (cr_lease_seconds r) = Ok until →
  cooling (cr_queue_id r) now' (mq_state q) = false →
  ∃ s1 reclaimed s',
    reclaim_expired (cr_queue_id r) now (mq_state q) = Ok (s1, reclaimed) ∧
    let claimed := spec_claimed (cr_worker_id r) until now <$> taken r now s1 in
    claim q now now' r
      = (mkMemoryQueue s' false,
         lease_events reclaimed ++ ((λ i, (i, None)) <$> claimed), Ok claimed)
    ∧ state_inv s' ∧ moves (table q) (items s')
    ∧ (∀ j, j ∈ claimed → items s' !! qi_item_id j = Some j)
    ∧ running_count (cr_queue_id r) s'
      = running_count (cr_queue_id r) s1 + Z.of_nat (length claimed)
    ∧ (∀ q, q ≠ cr_queue_id r → running_ids s' q = running_ids s1 q).
Proof.
  intros [Hp Hinv] Hb Hd Hcool. unfold claim, with_lock. rewrite Hb, Hd, Hp, Hcool.
  destruct (reclaim_expired_spec (cr_queue_id r) now (mq_state q) Hinv)
    as (s1 & reclaimed & E & Hinv1 & Hm1 & _).
  destruct (lease_taken r now until s1 Hinv1) as (s' & El & Hinv' & Hm & _ & Hj & Hcnt & Hq).
  exists s1, reclaimed, s'. rewrite E. rsimpl. fold (taken r now s1). rewrite El. rsimpl.
  split_and!; try done. by etrans.
Qed.

Lemma claim_lawful q now now' r : queue_ok q → lawful q (claim q now now' r).
Proof.
  intros Hq. destruct (blank (cr_worker_id r)) eqn:Hb.
  { unfold claim. rewrite Hb. by apply lawful_same. }
  pose proof (lease_deadline_no_panic now (cr_lease_seconds r)).
  destruct (lease_deadline now (cr_lease_seconds r)) as [until|e|] eqn:Hd;
    [|unfold claim; rewrite Hb, Hd; by apply lawful_same|done].
  destruct (cooling (cr_queue_id r) now' (mq_state q)) eqn:Hc.
  - unfold claim, with_lock. rewrite Hb, Hd, (proj1 Hq), Hc.
    apply lawful_moves; [apply Hq|done|done].
  - destruct (claim_taken q now now' r until Hq Hb Hd Hc)
      as (s1 & rec & s' & _ & -> & Hinv & Hm & _).
    by apply lawful_moves.
Qed.

Lemma reclaim_expired_leases_lawful q now queue_id :
  queue_ok q → lawful q (reclaim_expired_leases q now queue_id).
Proof.
  intros [Hp Hinv]. unfold reclaim_expired_leases, with_lock. rewrite Hp.
  destruct (reclaim_expired_spec queue_id now (mq_state q) Hinv) as (s1 & l & E & Hinv1 & Hm & _).
  rewrite E. rsimpl. by apply lawful_moves.
Qed.

(** ** Claiming one item *)

(** Retiring needs a waiting item without attempts left, which a well-formed
    table does not hold. *)
Lemma retire_if_exhausted_none id now s :
  items_wf s → retire_if_exhausted id now s = (s, None).
Proof.
  intros Hwf. unfold retire_if_exhausted. destruct (items s !! id) as [i|] eqn:Hi; [|done].
  destruct (is_waiting (qi_status i)) eqn:Hw; [|done]. simpl.
  pose proof (wf_waiting i (Hwf _ _ Hi) Hw) as Hleft. unfold attempts_left in Hleft.
  destruct (qi_attempt i <? qi_max_attempts i) eqn:E; [done|]. bools. lia.
Qed.

(** What a single-item claim does once past its argument checks: reclaim the
    item's queue, then lease the item when it is still there, waiting, due,
    not cooling and below the cap. *)
Lemma claim_item_spec q now now' id worker seconds cap until item :
  queue_ok q → blank worker = false → lease_deadline now seconds = Ok until →
  table q !! id = Some item →
  ∃ s1 reclaimed,
    reclaim_expired (qi_queue_id item) now (mq_state q) = Ok (s1, reclaimed)
    ∧ state_inv s1 ∧ moves (table q) (items s1) ∧
    match items s1 !! id with
    | None => claim_item q now now' id worker seconds cap
        = (mkMemoryQueue s1 false, lease_events reclaimed, Err (NotFound InvalidConfiguration))
    | Some i =>
        if item_claimable now now' cap i (qi_queue_id item) s1
        then ∃ s', claim_item q now now' id worker seconds cap
            = (mkMemoryQueue s' false,
               lease_events reclaimed ++ [(spec_claimed worker until now i, None)],
               Ok (Some (spec_claimed worker until now i)))
          ∧ advances id (spec_claimed worker until now i) s1 s'
          ∧ item_step i (spec_claimed worker until now i)
        else claim_item q now now' id worker seconds cap
          = (mkMemoryQueue s1 false, lease_events reclaimed, Ok None)
    end.
Proof.
  intros [Hp Hinv] Hb Hd Hitem.
  destruct (reclaim_expired_spec (qi_queue_id item) now (mq_state q) Hinv)
    as (s1 & reclaimed & E & Hinv1 & Hm1 & _).
  exists s1, reclaimed. split_and!; try done.
  unfold claim_item, with_lock. rewrite Hb, Hd, Hp, Hitem. rsimpl. rewrite E. rsimpl.
  destruct (items s1 !! id) as [i|] eqn:Hi; [|done].
  rewrite bool_decide_true by done. cbn [negb].
  rewrite retire_if_exhausted_none by apply Hinv1. rewrite Hi. rsimpl.
  destruct (item_claimable now now' cap i (qi_queue_id item) s1) eqn:Hc; rsimpl;
    [|by rewrite !app_nil_r].
  assert (is_waiting (qi_status i) = true) as Hw by (unfold item_claimable in Hc; by bools).
  destruct (lease_spec id i worker until now s1 Hinv1 Hi Hw) as (s' & El & Hadv & Hs).
  { by apply (wf_waiting i (inv_items _ Hinv1 _ _ Hi)). }
  exists s'. rewrite El. rsimpl. rewrite (adv_item _ _ _ _ Hadv). done.
Qed.

Lemma claim_item_lawful q now now' id worker seconds cap :
  queue_ok q → lawful q (claim_item q now now' id worker seconds cap).
Proof.
  intros Hq. destruct (blank worker) eqn:Hb.
  { unfold claim_item. rewrite Hb. by apply lawful_same. }
  pose proof (lease_deadline_no_panic now seconds).
  destruct (lease_deadline now seconds) as [until|e|] eqn:Hd;
    [|unfold claim_item; rewrite Hb, Hd; by apply lawful_same|done].
  destruct (table q !! id) as [item|] eqn:Hitem.
  - destruct (claim_item_spec q now now' id worker seconds cap until item Hq Hb Hd Hitem)
      as (s1 & rec & _ & Hinv1 & Hm1 & Hi).
    destruct (items s1 !! id) as [i|] eqn:Hi1; [|rewrite Hi; by apply lawful_moves].
    case_match; [|rewrite Hi; by apply lawful_moves].
    destruct Hi as (s' & -> & Hadv & Hs).
    destruct (advances_step _ _ _ _ _ Hinv1 Hi1 Hadv Hs) as [Hinv' Hm'].
    apply lawful_moves; [done|by etrans|done].
  - unfold claim_item, with_lock. rewrite Hb, Hd, (proj1 Hq), Hitem. by apply lawful_same.
Qed.

(** ** Enqueueing *)

Lemma retire_replaced_spec replacing s :
  state_inv s →
  let s' := retire_replaced replacing s in
  state_inv s' ∧ moves (items s) (items s') ∧ cooldowns s' = cooldowns s
  ∧ retain_terminal s' = retain_terminal s
  ∧ ∀ id i, replacing = Some id → items s !! id = Some i → qi_status i = Failed →
      ∃ j, items s' !! id = Some j ∧ qi_status j = Stopped.
Proof.
  intros Hinv. unfold retire_replaced.
  destruct replacing as [id|]; [|by split_and!].
  destruct (items s !! id) as [i|] eqn:Hi; [|split_and!; try done; naive_solver].
  case_bool_decide as Hf; [|split_and!; try done; naive_solver].
  pose proof (advances_status_modify (with_last_error_class (Some ClassQueue)) id i Stopped s
    (inv_index _ Hinv) Hi ltac:(by rewrite Hf) ltac:(stable)) as Hadv.
  destruct (advances_step _ _ _ _ _ Hinv Hi Hadv (step_replaced i Hf)).
  split_and!; try done; [apply Hadv|apply Hadv|].
  intros id' i' [= <-] _ _. eexists. split; [apply Hadv|done].
Qed.

(** Adding an item whose key no active item of its queue holds. *)
Lemma insert_item_core item s :
  index_core s → items s !! qi_item_id item = None → qi_status item = Pending →
  (∀ id i key, qi_idempotency_key item = Some key → items s !! id = Some i →
     qi_queue_id i = qi_queue_id item → qi_idempotency_key i = Some key →
     is_active (qi_status i) = false) →
  index_core (insert_item item s).
Proof.
  intros [H1 H2 H3 H4 H5 H6 H7] Hnew Hp Hkey.
  assert (Hidem : ∀ q k, idempotency (insert_item item s) !! (q, k)
    = if decide (qi_queue_id item = q ∧ qi_idempotency_key item = Some k)
      then Some (qi_item_id item) else idempotency s !! (q, k)).
  { intros q k. unfold insert_item. destruct (qi_idempotency_key item) as [k'|]; simpl.
    - rewrite lookup_insert. repeat case_decide; naive_solver.
    - case_decide; naive_solver. }
  assert (Hsame : items (insert_item item s) = <[qi_item_id item := item]> (items s)
    ∧ running (insert_item item s) = running s ∧ terminal (insert_item item s) = terminal s
    ∧ retain_terminal (insert_item item s) = retain_terminal s).
  { unfold insert_item. by destruct (qi_idempotency_key item). }
  destruct Hsame as (Ei & Er & Et & Ert).
  split; rewrite ?Ei, ?Et, ?Ert; try done.
  - intros id i [[<- <-]|[_ Hi]]%lookup_insert_Some; eauto.
  - intros q id. unfold running_ids. rewrite Er. fold (running_ids s q). rewrite H2.
    setoid_rewrite lookup_insert_Some. split; [naive_solver congruence|].
    intros (i & [[<- <-]|[_ Hi]] & Hq & Hr); [by rewrite Hp in Hr|eauto].
  - intros id. rewrite H3. setoid_rewrite lookup_insert_Some. split; [naive_solver congruence|].
    intros (i & [[<- <-]|[_ Hi]] & Ht); [by rewrite Hp in Ht|eauto].
  - intros q k id. rewrite Hidem. case_decide as Hd.
    + intros [= <-]. exists item. by rewrite lookup_insert_eq.
    + intros Hq. destruct (H6 q k id Hq) as (i & Hi & ?). exists i.
      rewrite lookup_insert_ne by congruence. done.
  - intros id i k [[<- <-]|[Hne Hi]]%lookup_insert_Some Ha Hk; rewrite Hidem;
      (case_decide as Hd; [|naive_solver]); [done|].
    destruct Hd as [Hd Hk']. by rewrite (Hkey id i k) in Ha.
Qed.

Lemma new_item_fresh now uuid r :
  (∀ n, er_max_attempts r = Some n → 0 ≤ n ≤ u32_max) → fresh_item (new_item now uuid r).
Proof.
  intros Hm. unfold fresh_item, new_item. simpl. split_and!; try done.
  - lia.
  - destruct (er_max_attempts r) as [n|]; simpl; [specialize (Hm n eq_refl)|]; unfold u32_max in *; lia.
Qed.

(** An active item of the table [retire_replaced] leaves was active before. *)
Lemma moves_active m m' id j :
  moves m m' → m' !! id = Some j → is_active (qi_status j) = true →
  ∃ i, m !! id = Some i ∧ is_active (qi_status i) = true ∧ same_identity i j.
Proof.
  intros Hm Hj Ha. pose proof (Hm id) as Hid. rewrite Hj in Hid.
  inversion Hid as [|i ? Hs|]; simplify_eq. exists i. split_and!; try done.
  - destruct (is_active (qi_status i)) eqn:E; [done|].
    rewrite (terminal_stuck i j Hs) in Ha; [congruence|]. unfold is_terminal. by rewrite E.
  - by apply item_steps_identity.
Qed.

(** Only a replacement of a reclaimed item displaces an active one. *)
Lemma answers_active r replacing i :
  answers r replacing i = false → is_active (qi_status i) = true →
  replacing = Some (qi_item_id i) ∧ qi_status i = Failed
  ∧ qi_last_error i = Some LeaseExpired ∧ er_force r = true.
Proof.
  unfold answers. intros Hans Ha. rewrite Ha in Hans. bools.
  destruct replacing as [current|]; [|done]. bools. subst.
  destruct (decide (qi_status i = Failed)) as [E|E]; [|by rewrite (bool_decide_false _ E) in *].
  destruct (decide (qi_last_error i = Some LeaseExpired)) as [E'|E'];
    [done|by rewrite (bool_decide_false _ E'), andb_false_r in *].
Qed.

Lemma insert_new_spec now uuid r replacing s :
  state_inv s → items s !! uuid = None →
  (∀ n, er_max_attempts r = Some n → 0 ≤ n ≤ u32_max) →
  (∀ existing, existing_for r s = Some existing → answers r replacing existing = false) →
  let item := new_item now uuid r in
  let s' := insert_item item (retire_replaced replacing s) in
  state_inv s' ∧ items s' !! uuid = Some item
  ∧ (∀ id, evolves (items s !! id) (items s' !! id)).
Proof.
  intros Hinv Huuid Hmax Hans item s'.
  destruct (retire_replaced_spec replacing s Hinv) as (Hinv1 & Hm & _ & _ & Hstop).
  set (s1 := retire_replaced replacing s) in *.
  assert (items s1 !! uuid = None) as Huuid1.
  { pose proof (Hm uuid) as Hu. rewrite Huuid in Hu. by inversion Hu. }
  assert (items s' = <[uuid := item]> (items s1)) as Ei.
  { unfold s', insert_item. by destruct (qi_idempotency_key item). }
  assert (index_inv s') as Hidx.
  { split.
    - apply insert_item_core; [apply Hinv1|done|done|].
      intros id j key Hk Hj Hq Hk'. apply not_true_is_false. intros Ha.
      destruct (moves_active _ _ id j Hm Hj Ha) as (i & Hi & Hia & Hsame).
      destruct Hsame as (_ & Hqi & _ & _ & Hki & _).
      assert (existing_for r s = Some i) as He.
      { unfold existing_for. simpl in Hk. rewrite Hk. simpl.
        pose proof (ix_active s (ix_core _ (inv_index _ Hinv)) id i key Hi Hia) as Hx.
        rewrite <-Hki in Hx. specialize (Hx Hk'). simpl in Hq.
        rewrite <-Hqi, Hq in Hx. rewrite Hx. done. }
      destruct (answers_active r replacing i (Hans i He) Hia) as (Hr & Hf & _).
      rewrite (ix_keyed s (ix_core _ (inv_index _ Hinv)) _ _ Hi) in Hr.
      destruct (Hstop id i Hr Hi Hf) as (j' & Hj' & Hst).
      simplify_eq. by rewrite Hst in Ha.
    - unfold s', insert_item. destruct (qi_idempotency_key item); apply Hinv1. }
  split_and!.
  - split; [done|]. intros id i. rewrite Ei.
    intros [[<- <-]|[_ Hi]]%lookup_insert_Some; [by apply fresh_item_wf, new_item_fresh|].
    by apply (inv_items _ Hinv1 id).
  - rewrite Ei. apply lookup_insert_eq.
  - intros id. rewrite Ei. destruct (decide (uuid = id)) as [<-|Hne].
    + rewrite lookup_insert_eq, Huuid. by apply evolves_created, new_item_fresh.
    + rewrite lookup_insert_ne by done. apply moved_evolves, Hm.
Qed.

(** What an enqueue needs of its caller and the UUID source. *)
Definition enqueue_env (q : MemoryQueue) (uuid : string) (r : EnqueueRequest) : Prop :=
  table q !! uuid = None ∧ ∀ n, er_max_attempts r = Some n → 0 ≤ n ≤ u32_max.

(** The three outcomes of an enqueue past its argument check. *)
Lemma enqueue_inner_spec q now uuid r replacing :
  queue_ok q → enqueue_env q uuid r → blank (er_kind r) = false →
  match existing_for r (mq_state q) with
  | Some existing =>
      answers r replacing existing = true ∧
      enqueue_inner q now uuid r replacing
        = (q, [], Ok (mkEnqueueOutcome existing
             (if is_active (qi_status existing) then ActiveDuplicate else TerminalDuplicate)))
  | None => False
  end ∨
  ∃ s', enqueue_inner q now uuid r replacing
      = (mkMemoryQueue s' false, [(new_item now uuid r, None)],
         Ok (mkEnqueueOutcome (new_item now uuid r) Inserted))
    ∧ state_inv s' ∧ items s' !! uuid = Some (new_item now uuid r)
    ∧ (∀ id, evolves (table q !! id) (items s' !! id))
    ∧ (∀ existing, existing_for r (mq_state q) = Some existing →
         answers r replacing existing = false).
Proof.
  intros [Hp Hinv] [Huuid Hmax] Hb. unfold enqueue_inner, with_lock. rewrite Hb, Hp.
  destruct (existing_for r (mq_state q)) as [e|] eqn:He.
  - destruct (answers r replacing e) eqn:Ha.
    + left. split; [done|]. destruct q; simpl in *. by subst.
    + right. destruct (insert_new_spec now uuid r replacing (mq_state q) Hinv Huuid Hmax)
        as (? & ? & ?); [naive_solver|]. eexists. split; [done|]. naive_solver.
  - right. destruct (insert_new_spec now uuid r replacing (mq_state q) Hinv Huuid Hmax)
      as (? & ? & ?); [naive_solver|]. eexists. split; [done|]. naive_solver.
Qed.

Lemma enqueue_inner_lawful q now uuid r replacing :
  queue_ok q → enqueue_env q uuid r → lawful q (enqueue_inner q now uuid r replacing).
Proof.
  intros Hq Henv. destruct (blank (er_kind r)) eqn:Hb.
  { unfold enqueue_inner. rewrite Hb. by apply lawful_same. }
  destruct (enqueue_inner_spec q now uuid r replacing Hq Henv Hb) as [He|(s' & -> & ? & ? & ? & _)].
  - destruct (existing_for r (mq_state q)); [|done]. destruct He as [_ ->]. by apply lawful_same.
  - by split.
Qed.

(** ** Cooldowns *)

Lemma note_cooldown_lawful q queue_id until :
  queue_ok q → lawful q (note_cooldown q queue_id until).
Proof.
  intros [Hp Hinv]. unfold note_cooldown, with_lock. rewrite Hp.
  apply lawful_moves; [|done|done].
  destruct Hinv as [[[H1 H2 H3 H4 H5 H6 H7] Hb] Hwf]. by split; [split; [split|]|].
Qed.

(** ** Any call *)

(** What a call relies on: machine-width arguments, an unused UUID, and a
    clock whose next second chrono can represent where a failure without a
    retry time adds one. *)
Definition call_env (q : MemoryQueue) (c : call) : Prop :=
  match c with
  | CallEnqueue _ uuid r | CallEnqueueReplacing _ uuid r _ => enqueue_env q uuid r
  | CallFail now0 _ _ _ _ retry => is_ok (fail_run_after now0 retry) = true
  | CallFailWith now _ _ f => is_ok (failure_run_after now f) = true
  | _ => True
  end.

Lemma fail_lawful q now0 now id worker error retry :
  queue_ok q → is_ok (fail_run_after now0 retry) = true →
  lawful q (fail q now0 now id worker error retry).
Proof.
  intros Hq Hok. unfold fail. destruct (fail_run_after now0 retry) as [t| |]; [|done..].
  by eapply fail_with_lawful.
Qed.

Lemma lawful_reply {A : Type} (f : A → reply) q x :
  lawful q x → lawful q (let '(q', ev, r) := x in (q', ev, reply_of f r)).
Proof. destruct x as [[q' ev] r]. intros [H1 H2 H3]. split; try done. by destruct r. Qed.

Lemma exec_lawful q c : queue_ok q → call_env q c → lawful q (exec q c).
Proof.
  intros Hq Henv. destruct c; simpl in Henv; simpl; apply lawful_reply;
    eauto using enqueue_inner_lawful, claim_lawful, claim_item_lawful, heartbeat_lawful,
      complete_lawful, fail_lawful, reclaim_expired_leases_lawful, note_cooldown_lawful.
  destruct (failure_run_after now f) eqn:E; [|done..]. by eapply fail_with_lawful.
Qed.

(** ** Any call at any clock *)

(** The arguments of a call alone: machine-width counts and an unused UUID. *)
Definition call_args (q : MemoryQueue) (c : call) : Prop :=
  match c with
  | CallEnqueue _ uuid r | CallEnqueueReplacing _ uuid r _ => enqueue_env q uuid r
  | _ => True
  end.

(** The calls whose retry time chrono cannot represent: [fail] with such a
    delay, and [fail_with] without a retry time by the item's holder within a
    second of the end of time. *)
Definition out_of_range (q : MemoryQueue) (c : call) : Prop :=
  match c with
  | CallFail now0 _ _ _ _ retry => checked_add_seconds now0 (u64_as_i64 (default 1 retry)) = None
  | CallFailWith now id worker f =>
      f_run_after f = None ∧ checked_add_seconds now 1 = None ∧ ∃ i, holds_lease now id worker i (mq_state q)
  | _ => False
  end.

(** Whether the call adds under the lock. *)
Definition adds_locked (c : call) : bool := match c with CallFailWith _ _ _ _ => true | _ => false end.

Inductive memory_run : MemoryQueue → list call → MemoryQueue → Prop :=
| memory_run_nil q : memory_run q [] q
| memory_run_snoc q cs q' c : memory_run q cs q' → call_args q' c → memory_run q (cs ++ [c]) (exec q' c).1.1.

Lemma add_seconds_result {E : Type} now n :
  (add_seconds now n : result E DateTime) = match checked_add_seconds now n with Some t => Ok t | None => Panic end.
Proof. unfold add_seconds. by destruct (checked_add_seconds now n). Qed.

Lemma fail_with_panics q now id worker f i : queue_ok q → holds_lease now id worker i (mq_state q) →
  f_run_after f = None → checked_add_seconds now 1 = None →
  fail_with q now id worker f = (mkMemoryQueue (mq_state q) true, [], Panic).
Proof.
  intros [Hp _] (Hi & Hr & Ho & until & Hu & Hle) Hf Hn. unfold fail_with, update_running, with_lock. rewrite Hp, Hi. rsimpl.
  rewrite !bool_decide_eq_true_2 by done. rewrite Hu. apply Z.ltb_ge in Hle. rewrite Hle. simpl.
  rewrite Hf, add_seconds_result, Hn. done.
Qed.

(** A call on a sound queue is lawful, or its retry time is out of range: then
    it panics, and the table is as it was. *)
Lemma exec_outcome q c : queue_ok q → call_args q c →
  (¬ out_of_range q c ∧ lawful q (exec q c))
  ∨ out_of_range q c ∧ exec q c = (mkMemoryQueue (mq_state q) (adds_locked c), [], Panic).
Proof.
  intros Hq Ha. destruct c as [| | | | | |now0 now id worker error retry|now id worker f| |];
    try (left; split; [tauto|]; by apply exec_lawful).
  - cbn [out_of_range exec adds_locked]. destruct (checked_add_seconds now0 (u64_as_i64 (default 1 retry))) as [t|] eqn:E; [left|right].
    + split; [done|]. apply (exec_lawful q (CallFail now0 now id worker error retry) Hq).
      simpl. unfold fail_run_after. by rewrite add_seconds_result, E.
    + split; [done|]. unfold fail, fail_run_after. rewrite add_seconds_result, E. destruct Hq as [Hp _].
      destruct q; simpl in *. by subst.
  - destruct (f_run_after f) as [t|] eqn:Ef.
    { left. cbn [out_of_range]. rewrite Ef. split; [naive_solver|]. apply exec_lawful; [done|]. simpl. unfold failure_run_after. by rewrite Ef. }
    destruct (checked_add_seconds now 1) as [t|] eqn:E.
    { left. cbn [out_of_range]. rewrite E. split; [naive_solver|]. apply exec_lawful; [done|]. simpl. unfold failure_run_after.
      by rewrite Ef, add_seconds_result, E. }
    destruct (holds_lease_or now id worker (mq_state q)) as [[i Hh]|Hno].
    + right. split; [split_and!; [done..|by exists i]|]. cbn [exec adds_locked].
      by rewrite (fail_with_panics q now id worker f i Hq Hh Ef E).
    + left. split; [intros (_ & _ & Hh); naive_solver|]. cbn [exec]. apply lawful_reply. unfold fail_with.
      rewrite update_running_refused by done. by apply lawful_same.
Qed.

(** A poisoned queue answers nothing and stays as it is. *)
Lemma exec_poisoned q c : mq_poisoned q = true →
  (exec q c).1 = (q, []) ∧ ∀ x, (exec q c).2 ≠ Ok x.
Proof.
  intros Hp. assert (∀ A section, @with_lock A q section = (q, [], Err (Unavailable MemoryQueueLockPoisoned))) as Hl.
  { intros A section. unfold with_lock. by rewrite Hp. }
  destruct c; cbn [exec]; unfold enqueue, enqueue_replacing, enqueue_inner, claim, claim_item, heartbeat, complete, fail,
    fail_with, update_running, reclaim_expired_leases, note_cooldown; rewrite ?Hl;
    repeat (destruct (blank _) || destruct (lease_deadline _ _) || destruct (fail_run_after _ _)); rewrite ?Hl; done.
Qed.

Lemma memory_run_inv q cs q' : memory_run q cs q' → state_inv (mq_state q) → state_inv (mq_state q').
Proof.
  intros Hrun Hi. induction Hrun as [q|q cs q' c _ IH Ha]; [done|]. specialize (IH Hi).
  destruct (mq_poisoned q') eqn:Hp; [by destruct (exec_poisoned q' c Hp) as [-> _]|].
  destruct (exec_outcome q' c (conj Hp IH) Ha) as [[_ [[_ Hinv] _ _]]|[_ ->]]; done.
Qed.

Lemma new_ok retain : queue_ok (with_terminal_retention retain).
Proof.
  split; [done|]. split; [split; [split|]|]; simpl; try done; try lia.
  - intros q id. unfold running_ids. simpl. rewrite lookup_empty. set_solver.
  - set_solver.
  - constructor.
Qed.

(** The in-process queue as a backend of [QueueSpec]. *)
#[global] Instance memory_backend : Backend MemoryQueue call := {
  backend_items q := table q;
  backend_step q c := (exec q c).1.1;
  backend_ok := queue_ok;
  backend_env := call_env;
}.

#[global] Instance memory_backend_laws : BackendLaws MemoryQueue call.
Proof.
  split; simpl.
  - intros q c Hq He. apply (exec_lawful q c Hq He).
  - intros q c id Hq He. apply (exec_lawful q c Hq He).
  - intros q id i [_ Hinv] Hi. split; [by apply (inv_items _ Hinv id)|].
    by apply (ix_keyed _ (ix_core _ (inv_index _ Hinv))).
Qed.

End Calls.
