(* ===== verification/MemoryQueueRunning.v ===== *)
(** How many items of a queue run at once under the in-process backend.

    Only claims put items into a queue's running set, and a claim that names a
    cap stops at it; so a queue whose claims all name a cap never runs more
    items than that, whatever else the callers do. *)

From Stdlib Require Import ZArith Lia.
From stdpp Require Import base gmap strings list fin_maps fin_sets relations.
From S2P Require Import Prelude Core QueueTypes QueueSpec MemoryQueue MemoryQueueInv.
From S2P Require Import MemoryQueueProofs MemoryQueueCalls.

#[local] Open Scope Z_scope.

Section Running.
Context `{!Chrono} `{!HashIter}.

(** No queue's running set grows. *)
Definition no_growth (s s' : State) : Prop := ∀ q, running_ids s' q ⊆ running_ids s q.

#[local] Instance no_growth_preorder : PreOrder no_growth.
Proof. split; [by intros s q|]. intros s1 s2 s3 H1 H2 q. specialize (H1 q). specialize (H2 q). set_solver. Qed.

Lemma no_growth_count s s' q : no_growth s s' → running_count q s' ≤ running_count q s.
Proof.
  intros Hg. rewrite !running_count_ids. apply Nat2Z.inj_le, subseteq_size, Hg.
Qed.

Lemma advances_no_growth id i j s s' :
  state_inv s → items s !! id = Some i → advances id j s s' → same_identity i j →
  (qi_status j = Running → qi_status i = Running) → no_growth s s'.
Proof.
  intros Hinv Hi Hadv (_ & Hq & _) Hr q x.
  rewrite (advances_running id i j s s' q x (inv_index _ Hinv) Hi Hadv Hq).
  case_decide; [subst|done]. intros [Hj <-].
  apply (ix_running s (ix_core _ (inv_index _ Hinv))). eauto.
Qed.

Lemma reclaim_no_growth q now s s' l :
  state_inv s → reclaim_expired q now s = Ok (s', l) → no_growth s s'.
Proof.
  intros Hinv E. destruct (reclaim_expired_spec q now s Hinv)
    as (s1 & l1 & E' & _ & _ & _ & _ & _ & Hrun & _).
  rewrite E' in E. simplify_eq. intros q' x. rewrite Hrun. by intros [? _].
Qed.

Lemma heartbeat_no_growth q now id worker seconds :
  queue_ok q → no_growth (mq_state q) (mq_state (heartbeat q now id worker seconds).1.1).
Proof.
  intros Hq. destruct (holds_lease_or now id worker (mq_state q)) as [[i Hh]|Hno].
  - pose proof (heartbeat_held q now id worker i seconds Hq Hh) as Hb.
    destruct (lease_deadline now seconds); [|by rewrite Hb|done].
    destruct Hb as (s' & -> & Hadv). destruct Hh as (Hi & Hr & _).
    by eapply advances_no_growth; [apply Hq|..].
  - unfold heartbeat. by rewrite update_running_refused.
Qed.

Lemma complete_no_growth q now id worker :
  queue_ok q → no_growth (mq_state q) (mq_state (complete q now id worker).1.1).
Proof.
  intros Hq. destruct (holds_lease_or now id worker (mq_state q)) as [[i Hh]|Hno].
  - destruct (complete_held q now id worker i Hq Hh) as (s' & -> & Hadv).
    destruct Hh as (Hi & Hr & _). by eapply advances_no_growth; [apply Hq|..].
  - unfold complete. by rewrite update_running_refused.
Qed.

Lemma fail_with_no_growth q now id worker f run_after :
  queue_ok q → failure_run_after now f = Ok run_after →
  no_growth (mq_state q) (mq_state (fail_with q now id worker f).1.1).
Proof.
  intros Hq Hra. destruct (holds_lease_or now id worker (mq_state q)) as [[i Hh]|Hno].
  - destruct (fail_with_held q now id worker i f run_after Hq Hh Hra) as (s' & -> & Hadv).
    destruct Hh as (Hi & Hr & _). by eapply advances_no_growth; [apply Hq|..].
  - unfold fail_with. by rewrite update_running_refused.
Qed.

Lemma retire_replaced_no_growth replacing s :
  state_inv s → no_growth s (retire_replaced replacing s).
Proof.
  intros Hinv. unfold retire_replaced. destruct replacing as [id|]; [|done].
  destruct (items s !! id) as [i|] eqn:Hi; [|done]. case_bool_decide as Hf; [|done].
  pose proof (advances_status_modify (with_last_error_class (Some ClassQueue)) id i Stopped s
    (inv_index _ Hinv) Hi ltac:(by rewrite Hf) ltac:(stable)) as Hadv.
  by eapply advances_no_growth.
Qed.

Lemma enqueue_no_growth q now uuid r replacing :
  queue_ok q → no_growth (mq_state q) (mq_state (enqueue_inner q now uuid r replacing).1.1).
Proof.
  intros [Hp Hinv]. unfold enqueue_inner, with_lock. rewrite Hp.
  assert (∀ item, no_growth (mq_state q) (insert_item item (retire_replaced replacing (mq_state q))))
    as Hins.
  { intros item q'. trans (running_ids (retire_replaced replacing (mq_state q)) q').
    - unfold insert_item. by destruct (qi_idempotency_key item).
    - by apply retire_replaced_no_growth. }
  destruct (blank (er_kind r)); [done|].
  destruct (existing_for r (mq_state q)) as [e|]; [|apply Hins].
  destruct (answers r replacing e); [done|apply Hins].
Qed.

(** ** Claims *)

(** Every claim that can reach [queue_id] names a cap of at most [cap]. *)
Definition capped (queue_id : string) (cap : Z) (c : call) : Prop :=
  match c with
  | CallClaim _ _ r => cr_queue_id r = queue_id → ∃ k, cr_max_in_flight r = Some k ∧ 0 ≤ k ≤ cap
  | CallClaimItem _ _ _ _ _ max_in_flight => ∃ k, max_in_flight = Some k ∧ 0 ≤ k ≤ cap
  | _ => True
  end.

Lemma claim_limit_capped r now s k cap :
  cr_max_in_flight r = Some k → 0 ≤ k ≤ cap →
  running_count (cr_queue_id r) s + Z.of_nat (length (taken r now s))
  ≤ Z.max cap (running_count (cr_queue_id r) s).
Proof.
  intros Hk Hcap. unfold taken, claim_limit. rewrite Hk, length_take. unfold saturating_sub. lia.
Qed.

Lemma claim_running q now now' r queue_id cap :
  queue_ok q → (cr_queue_id r = queue_id → ∃ k, cr_max_in_flight r = Some k ∧ 0 ≤ k ≤ cap) →
  running_count queue_id (mq_state (claim q now now' r).1.1)
  ≤ Z.max cap (running_count queue_id (mq_state q)).
Proof.
  intros Hq Hcap. destruct (blank (cr_worker_id r)) eqn:Hb.
  { unfold claim. rewrite Hb. simpl. lia. }
  pose proof (lease_deadline_no_panic now (cr_lease_seconds r)).
  destruct (lease_deadline now (cr_lease_seconds r)) as [until|e|] eqn:Hd;
    [|unfold claim; rewrite Hb, Hd; simpl; lia|done].
  destruct (cooling (cr_queue_id r) now' (mq_state q)) eqn:Hc.
  { unfold claim, with_lock. rewrite Hb, Hd, (proj1 Hq), Hc. simpl. lia. }
  destruct (claim_taken q now now' r until Hq Hb Hd Hc)
    as (s1 & rec & s' & Er & -> & _ & _ & _ & Hown & Hothers). simpl.
  pose proof (no_growth_count _ _ queue_id (reclaim_no_growth _ _ _ _ _ (proj2 Hq) Er)).
  destruct (decide (cr_queue_id r = queue_id)) as [<-|Hne].
  - destruct (Hcap eq_refl) as (k & Hk & Hle). rewrite Hown, length_fmap.
    pose proof (claim_limit_capped r now s1 k cap Hk Hle). lia.
  - rewrite !running_count_ids in *. rewrite Hothers by done. lia.
Qed.

(** A leased item adds itself to its queue's running set only. *)
Lemma lease_running id i worker until now s s' queue_id :
  state_inv s → items s !! id = Some i → is_waiting (qi_status i) = true →
  advances id (spec_claimed worker until now i) s s' →
  running_count queue_id s'
  = running_count queue_id s + (if decide (qi_queue_id i = queue_id) then 1 else 0).
Proof.
  intros Hinv Hi Hw Hadv. rewrite !running_count_ids.
  assert (Hrun := λ x, advances_running id i _ s s' queue_id x (inv_index _ Hinv) Hi Hadv eq_refl).
  assert (id ∉ running_ids s queue_id) as Hnot.
  { rewrite (ix_running s (ix_core _ (inv_index _ Hinv))). intros (j & ? & _ & Hj). simplify_eq.
    by rewrite Hj in Hw. }
  case_decide as Hd.
  - assert (running_ids s' queue_id = {[id]} ∪ running_ids s queue_id) as ->.
    { apply leibniz_equiv. intros x. rewrite Hrun. case_decide; set_solver. }
    rewrite size_union, size_singleton by set_solver. lia.
  - assert (running_ids s' queue_id = running_ids s queue_id) as ->; [|lia].
    apply leibniz_equiv. intros x. rewrite Hrun. case_decide; set_solver.
Qed.

Lemma claim_item_running q now now' id worker seconds k queue_id cap :
  queue_ok q → 0 ≤ k ≤ cap →
  running_count queue_id (mq_state (claim_item q now now' id worker seconds (Some k)).1.1)
  ≤ Z.max cap (running_count queue_id (mq_state q)).
Proof.
  intros Hq Hk. destruct (blank worker) eqn:Hb.
  { unfold claim_item. rewrite Hb. simpl. lia. }
  pose proof (lease_deadline_no_panic now seconds).
  destruct (lease_deadline now seconds) as [until|e|] eqn:Hd;
    [|unfold claim_item; rewrite Hb, Hd; simpl; lia|done].
  destruct (table q !! id) as [item|] eqn:Hitem.
  2: { unfold claim_item, with_lock. rewrite Hb, Hd, (proj1 Hq), Hitem. simpl. lia. }
  destruct (claim_item_spec q now now' id worker seconds (Some k) until item Hq Hb Hd Hitem)
    as (s1 & rec & Er & Hinv1 & Hm1 & Hi).
  pose proof (no_growth_count _ _ queue_id (reclaim_no_growth _ _ _ _ _ (proj2 Hq) Er)).
  destruct (items s1 !! id) as [i|] eqn:Hi1; [|rewrite Hi; simpl; lia].
  destruct (item_claimable _ _ _ _ _ _) eqn:Hc; [|rewrite Hi; simpl; lia].
  destruct Hi as (s' & -> & Hadv & _). simpl. unfold item_claimable in Hc. bools.
  rewrite (lease_running id i worker until now s1 s' queue_id) by done.
  assert (qi_queue_id i = qi_queue_id item) as Hqi.
  { pose proof (Hm1 id) as Hm. rewrite Hitem, Hi1 in Hm. inversion Hm as [|? ? Hs|]; simplify_eq.
    by apply item_steps_identity in Hs as (_ & ? & _). }
  case_decide; [|lia]. subst. rewrite Hqi in *. lia.
Qed.

(** One call: a capped queue stays at its cap, or no higher than it was. *)
Lemma exec_running q c queue_id cap :
  queue_ok q → call_env q c → capped queue_id cap c →
  running_count queue_id (mq_state (exec q c).1.1)
  ≤ Z.max cap (running_count queue_id (mq_state q)).
Proof.
  intros Hq Henv Hcap.
  assert (∀ q', no_growth (mq_state q) (mq_state q') →
    running_count queue_id (mq_state q') ≤ Z.max cap (running_count queue_id (mq_state q))) as Hng.
  { intros q' Hg. pose proof (no_growth_count _ _ queue_id Hg). lia. }
  assert (Hon : ∀ A (f : A → reply) x,
    (let '(q', ev, r) := x in (q', ev, reply_of f r) : MemoryQueue * Events * result QueueError reply).1.1
    = x.1.1) by (by intros A f [[? ?] ?]).
  destruct c; simpl in *; rewrite Hon.
  - by apply Hng, enqueue_no_growth.
  - by apply Hng, enqueue_no_growth.
  - by apply claim_running.
  - destruct Hcap as (k & -> & Hk). by apply claim_item_running.
  - by apply Hng, heartbeat_no_growth.
  - by apply Hng, complete_no_growth.
  - apply Hng. unfold fail. destruct (fail_run_after now0 retry_after_seconds); [|done..].
    by eapply fail_with_no_growth.
  - apply Hng. destruct (failure_run_after now f) eqn:E; [|done..]. by eapply fail_with_no_growth.
  - apply Hng. unfold reclaim_expired_leases, with_lock. rewrite (proj1 Hq).
    destruct (reclaim_expired_spec queue_id0 now (mq_state q) (proj2 Hq)) as (s1 & l & E & _).
    rewrite E. rsimpl. by eapply reclaim_no_growth; [apply Hq|].
  - apply Hng. unfold note_cooldown, with_lock. rewrite (proj1 Hq). by intros q0.
Qed.

End Running.
