(* ===== verification/MemoryQueueTheorems.v ===== *)
(** The theorems about the in-process backend, each with an instance on a
    concrete queue.

    [memory_run] is any sequence of calls from [with_terminal_retention], those
    that panic included; [backend_run] is one of calls that return.  Both keep
    the invariant the other theorems assume of the queue they start from. *)

From Stdlib Require Import ZArith Lia.
From stdpp Require Import base gmap strings list fin_maps fin_sets sorting relations.
From S2P Require Import Prelude Core QueueTypes QueueSpec MemoryQueue MemoryQueueInv.
From S2P Require Import MemoryQueueProofs MemoryQueueCalls MemoryQueueRunning.

#[local] Open Scope Z_scope.

Section Theorems.
Context `{!Chrono} `{!HashIter}.

(** C24: Whatever calls were made on an in-process queue, at whatever clock
    readings, with unused ids and 32-bit attempts, the next call leaves the four
    indices describing the item table (running sets, terminal window within its
    bound, one active item per idempotency key, attempts within budget) and
    changes every item only along the lifecycle of the queue contract.  It
    panics exactly where the retry time it computes is out of chrono's range,
    and then changes no item and emits nothing; only a [fail_with] does so under
    the lock and poisons it.  Otherwise it returns and the lock is unpoisoned; a
    poisoned queue answers nothing and stays as it is. *)
Theorem memory_calls_lawful retain cs q c :
  memory_run (with_terminal_retention retain) cs q → call_args q c →
  let '(q', ev, r) := exec q c in
  state_inv (mq_state q') ∧ (∀ id, evolves (items (mq_state q) !! id) (items (mq_state q') !! id))
  ∧ if mq_poisoned q then q' = q ∧ ev = [] ∧ ∀ x, r ≠ Ok x
    else (r = Panic ↔ out_of_range q c) ∧ (r ≠ Panic → mq_poisoned q' = false)
         ∧ (r = Panic → mq_state q' = mq_state q ∧ ev = [] ∧ mq_poisoned q' = adds_locked c).
Proof.
  intros Hrun Ha. pose proof (memory_run_inv _ _ _ Hrun (proj2 (new_ok retain))) as Hinv.
  destruct (mq_poisoned q) eqn:Hp.
  - destruct (exec_poisoned q c Hp) as [He Hr]. destruct (exec q c) as [[q' ev] r]. injection He as -> ->.
    split; [done|]. split; [|done]. intros id. apply moved_evolves, moved_refl.
  - destruct (exec_outcome q c (conj Hp Hinv) Ha) as [[Hn [[Hp' Hinv'] Hev Hnp]]|[Hout ->]].
    + destruct (exec q c) as [[q' ev] r]. simpl in *. split; [done|]. split; [done|]. by split_and!.
    + split; [done|]. split; [intros id; apply moved_evolves, moved_refl|]. by split_and!.
Qed.

(** A claim past its argument checks and the queue's cooldown first
    reclaims lapsed leases, then leases a prefix of the due, waiting items of
    its queue in the order (run_after, created_at, id): as many as the limit
    and the cap leave room for.  Every returned item is stored leased to the
    worker until the deadline with one more attempt. *)
Theorem memory_claim_serves q now now' r until :
  queue_ok q → blank (cr_worker_id r) = false →
  lease_deadline now (cr_lease_seconds r) = Ok until →
  cooling (cr_queue_id r) now' (mq_state q) = false →
  ∃ s1 reclaimed served rest q' ev,
    reclaim_expired (cr_queue_id r) now (mq_state q) = Ok (s1, reclaimed)
    ∧ StronglySorted claim_le (served ++ rest) ∧ NoDup (qi_item_id <$> served ++ rest)
    ∧ (∀ i, i ∈ served ++ rest ↔
         (∃ id, items s1 !! id = Some i) ∧ ready (cr_queue_id r) now i = true)
    ∧ length served = Nat.min (Z.to_nat (claim_limit r s1)) (length (served ++ rest))
    ∧ claim q now now' r
      = (q', ev, Ok (spec_claimed (cr_worker_id r) until now <$> served))
    ∧ ∀ i, i ∈ served →
        items (mq_state q') !! qi_item_id i = Some (spec_claimed (cr_worker_id r) until now i)
        ∧ qi_attempt i + 1 ≤ qi_max_attempts i.
Proof.
  intros Hq Hb Hd Hc. destruct (claim_taken q now now' r until Hq Hb Hd Hc)
    as (s1 & rec & s' & Er & Ec & Hinv' & Hm & Hj & _).
  destruct (reclaim_expired_spec (cr_queue_id r) now (mq_state q) (proj2 Hq))
    as (s1' & rec' & Er' & Hinv1 & _). rewrite Er in Er'. injection Er' as <- <-.
  exists s1, rec, (taken r now s1),
    (drop (Z.to_nat (claim_limit r s1)) (ready_items (cr_queue_id r) now s1)).
  eexists _, _. unfold taken at 1 2 3 5. rewrite take_drop. split_and!; try done.
  - apply ready_items_sorted.
  - by apply ready_items_ids_nodup.
  - apply elem_of_ready_items.
  - unfold taken. by rewrite length_take.
  - intros i Hi. destruct (taken_ready r now s1 i Hinv1 Hi) as (_ & _ & _ & Hleft & _).
    split; [|unfold attempts_left in Hleft; lia].
    apply (Hj (spec_claimed _ _ _ _)). by apply list_elem_of_fmap_2.
Qed.

(** If every claim that can reach a queue names a cap of at most [cap],
    no sequence of calls ever has more than [cap] items of the queue running. *)
Theorem memory_cap_holds retain cs q queue_id cap :
  backend_run (with_terminal_retention retain) cs q → 0 ≤ cap →
  Forall (capped queue_id cap) cs → running_count queue_id (mq_state q) ≤ cap.
Proof.
  intros Hrun Hcap Hcs.
  enough (running_count queue_id (mq_state q)
          ≤ Z.max cap (running_count queue_id (mq_state (with_terminal_retention retain)))) as Hle.
  { revert Hle. unfold running_count at 2. simpl. rewrite lookup_empty. lia. }
  pose proof (new_ok retain) as Hok. revert Hok.
  generalize dependent (with_terminal_retention retain). intros q0 Hrun Hok.
  induction Hrun as [q|q c cs q' Henv Hrun IH]; [lia|].
  apply Forall_cons in Hcs as [Hc Hcs].
  pose proof (exec_running q c queue_id cap Hok Henv Hc).
  specialize (IH Hcs (backend_step_ok q c Hok Henv)). simpl in IH. lia.
Qed.

(** C27: The lease fence: a heartbeat, completion or failure by a caller who
    does not hold the item's current unexpired lease changes nothing, emits
    nothing and returns NotFound, NotRunning or LeaseMismatch as the item is
    absent, not running, or running under another or a lapsed lease. *)
Theorem memory_fence q now id worker seconds f :
  queue_ok q → (∀ i, holds_lease now id worker i (mq_state q) → False) →
  let e := fence_error worker (items (mq_state q) !! id) in
  heartbeat q now id worker seconds = (q, [], Err e)
  ∧ complete q now id worker = (q, [], Err e)
  ∧ fail_with q now id worker f = (q, [], Err e).
Proof.
  intros Hq Hno. simpl. unfold heartbeat, complete, fail_with.
  rewrite !update_running_refused by (done || (by intros [i ?]; apply (Hno i))). done.
Qed.

(** A failure recorded under the lease gives the lease up and stores the
    error: without a retry time the item stops for good; with one it waits
    until that time while attempts are left and is dead otherwise; the outcome
    and the single event say which. *)
Theorem memory_failure_recorded q now id worker i f run_after :
  queue_ok q → holds_lease now id worker i (mq_state q) →
  failure_run_after now f = Ok run_after →
  let status := match f_run_after f with
                | None => Stopped
                | Some _ => if decide (attempts_left i) then Failed else Dead
                end in
  let j := spec_released status (Some (f_error f)) (f_error_class f) now
             (with_run_after run_after i) in
  ∃ q', fail_with q now id worker f
      = (q', [(j, Some (f_error f))],
         Ok (match status with Stopped => FailStopped | Dead => MovedToDead
             | _ => RetryScheduled end))
    ∧ items (mq_state q') !! id = Some j.
Proof.
  intros Hq Hh Hra. destruct (fail_with_held q now id worker i f run_after Hq Hh Hra)
    as (s' & -> & Hadv).
  exists (mkMemoryQueue s' false). simpl. rewrite (adv_item _ _ _ _ Hadv).
  unfold spec_failed, fail_decision, attempts_left.
  destruct (f_run_after f) as [t|]; [|done]. simpl.
  destruct (qi_max_attempts i <=? qi_attempt i) eqn:E; bools; case_decide; done || lia.
Qed.

(** Whatever calls were made, two active items of one queue never share
    an idempotency key. *)
Theorem memory_single_active retain cs q id1 id2 i1 i2 key :
  backend_run (with_terminal_retention retain) cs q →
  items (mq_state q) !! id1 = Some i1 → items (mq_state q) !! id2 = Some i2 →
  is_active (qi_status i1) = true → is_active (qi_status i2) = true →
  qi_queue_id i1 = qi_queue_id i2 →
  qi_idempotency_key i1 = Some key → qi_idempotency_key i2 = Some key → id1 = id2.
Proof.
  intros Hrun H1 H2 Ha1 Ha2 Hq Hk1 Hk2.
  pose proof (backend_run_ok _ _ _ Hrun (new_ok retain)) as [_ Hinv].
  pose proof (ix_core _ (inv_index _ Hinv)) as Hc.
  pose proof (ix_active _ Hc id1 i1 key H1 Ha1 Hk1) as E1.
  pose proof (ix_active _ Hc id2 i2 key H2 Ha2 Hk2) as E2.
  rewrite Hq, E2 in E1. by injection E1.
Qed.

(** Of the callers racing to replace one finished item, one wins: once a
    replacement of [current] was inserted under a key, a second replacement of
    the same item under that key gets the first one's item back as an active
    duplicate and changes nothing. *)
Theorem memory_replaces_once q now uuid r current key q1 ev item now2 uuid2 r2 :
  queue_ok q → enqueue_env q uuid r →
  er_idempotency_key r = Some key →
  enqueue_replacing q now uuid r current = (q1, ev, Ok (mkEnqueueOutcome item Inserted)) →
  er_idempotency_key r2 = Some key → er_queue_id r2 = er_queue_id r → blank (er_kind r2) = false →
  enqueue_replacing q1 now2 uuid2 r2 current
  = (q1, [], Ok (mkEnqueueOutcome item ActiveDuplicate)).
Proof.
  intros Hq Henv Hk E1 Hk2 Hq2 Hb2. destruct (blank (er_kind r)) eqn:Hb.
  { unfold enqueue_replacing, enqueue_inner in E1. simpl in E1. by rewrite Hb in E1. }
  destruct (enqueue_inner_spec q now uuid (with_force true r) (Some current) Hq Henv Hb)
    as [He|(s' & E & Hinv & Hitem & _)].
  { destruct (existing_for _ _) as [e|]; [|done]. destruct He as [_ He].
    unfold enqueue_replacing in E1. rewrite He in E1. exfalso. revert E1. by case_match. }
  unfold enqueue_replacing in E1. rewrite E in E1. simplify_eq.
  assert (existing_for (with_force true r2) s' = Some (new_item now uuid r)) as Hex.
  { unfold existing_for. simpl. rewrite Hk2. simpl. rewrite Hq2.
    pose proof (ix_active s' (ix_core _ (inv_index _ Hinv)) uuid _ key Hitem) as Hx. simpl in Hx.
    by rewrite Hx. }
  unfold enqueue_replacing, enqueue_inner, with_lock. simpl. rewrite Hb2, Hex.
  done.
Qed.

(** After reclaiming at [now], no item of the queue still runs under a
    lease that ended before [now]; running items of the queue whose lease
    stands, and every other queue's running items, are untouched. *)
Theorem memory_reclaim_complete q now queue_id :
  queue_ok q →
  ∃ q' ev n, reclaim_expired_leases q now queue_id = (q', ev, Ok n)
    ∧ (∀ id i until, items (mq_state q') !! id = Some i → qi_status i = Running →
         qi_queue_id i = queue_id → qi_lease_until i = Some until → now ≤ until)
    ∧ ∀ id i, items (mq_state q) !! id = Some i → is_active (qi_status i) = true →
        ¬ lapsed now (mq_state q) id → items (mq_state q') !! id = Some i.
Proof.
  intros [Hp Hinv]. unfold reclaim_expired_leases, with_lock. rewrite Hp.
  destruct (reclaim_expired_spec queue_id now (mq_state q) Hinv)
    as (s' & l & E & Hinv' & Hm & _ & _ & _ & Hrun & Hkept).
  rewrite E. rsimpl. eexists _, _, _. split_and!; [done| |eauto].
  intros id i until Hi Hr Hq Hu. simpl in Hi.
  destruct (Z.le_gt_cases now until) as [|Hlt]; [done|exfalso].
  assert (id ∈ running_ids s' queue_id) as Hin.
  { apply (ix_running s' (ix_core _ (inv_index _ Hinv'))). eauto. }
  apply Hrun in Hin as [Hin Hnl]. apply Hnl. split; [done|].
  pose proof (Hrun queue_id id) as Hrun'.
  apply (ix_running _ (ix_core _ (inv_index _ Hinv))) in Hin as (i0 & Hi0 & Hq0 & Hr0).
  exists i0. destruct (decide (i0 = i)) as [->|Hne]; [eauto|].
  destruct (qi_lease_until i0) as [u0|] eqn:Hu0.
  - destruct (Z.lt_ge_cases u0 now); [eauto|].
    assert (items s' !! id = Some i0); [|congruence].
    apply Hkept; [|done|by rewrite Hr0].
    intros (k & u & Hk & _ & Hku & ?). rewrite Hi0 in Hk. simplify_eq. lia.
  - destruct (wf_running i0 (inv_items _ Hinv _ _ Hi0) Hr0) as (_ & _ & Hsome).
    rewrite Hu0 in Hsome. by destruct Hsome.
Qed.

(** A noted cooldown only ever moves later, and while it lasts a claim
    on its queue takes nothing and changes nothing. *)
Theorem memory_cooldown_holds q queue_id until :
  queue_ok q →
  ∃ q' until', note_cooldown q queue_id until = (q', [], Ok tt)
    ∧ cooldown_until q' queue_id = Ok (Some until') ∧ until ≤ until'
    ∧ (∀ old, cooldown_until q queue_id = Ok (Some old) → until' = Z.max old until)
    ∧ (∀ other, other ≠ queue_id → cooldown_until q' other = cooldown_until q other)
    ∧ ∀ r now now' d, cr_queue_id r = queue_id → blank (cr_worker_id r) = false →
        lease_deadline now (cr_lease_seconds r) = Ok d → now' < until' →
        claim q' now now' r = (q', [], Ok []).
Proof.
  intros [Hp _]. unfold note_cooldown, cooldown_until, with_lock. rewrite Hp.
  set (t := if default until (cooldowns (mq_state q) !! queue_id) <? until then until
            else default until (cooldowns (mq_state q) !! queue_id)).
  eexists _, t. split; [done|]. split_and!; cbn [mq_state mq_poisoned cooldowns set_cooldowns]; try done.
  - by rewrite lookup_insert_eq.
  - unfold t. case_match eqn:E; bools; lia.
  - intros old. unfold t. intros [= ->]. simpl. case_match eqn:E; bools; lia.
  - intros other Hne. by rewrite lookup_insert_ne.
  - intros r now now' d <- Hb Hd Hlt. unfold claim, with_lock, cooling. simpl.
    rewrite Hb, Hd, lookup_insert_eq. apply Z.ltb_lt in Hlt. by rewrite Hlt.
Qed.

End Theorems.

(** ** A concrete queue *)

#[local] Existing Instance chrono_range.
#[local] Existing Instance hash_elements.

Definition sample_request : EnqueueRequest :=
  mkEnqueueRequest "chat:op:model" "chat" "{}" (Some "key") None (Some 2) false.
Definition sample_claim : ClaimRequest := mkClaimRequest "chat:op:model" "worker" 5 60 (Some 1).
Definition sample_empty : MemoryQueue := with_terminal_retention 2.
Definition sample_enqueue : call := CallEnqueue 1000 "a" sample_request.
Definition sample_queued : MemoryQueue := (exec sample_empty sample_enqueue).1.1.
Definition sample_take : call := CallClaimItem 2000 2000 "a" "worker" 60 (Some 1).
Definition sample_running : MemoryQueue := (exec sample_queued sample_take).1.1.
(** The item of [sample_running]. *)
Definition sample_item : QueueItem :=
  mkQueueItem "a" "chat:op:model" "chat" "{}" Running 1 2 1000 (Some "worker")
    (Some 60000002000) (Some "key") None None 1000 2000.

Lemma sample_run : backend_run sample_empty [sample_enqueue; sample_take] sample_running.
Proof.
  constructor; [|constructor; [done|constructor]].
  split; [done|]. intros n [= <-]. unfold u32_max. lia.
Qed.

Lemma sample_run1 : backend_run sample_empty [sample_enqueue] sample_queued.
Proof. constructor; [|constructor]. split; [done|]. intros n [= <-]. unfold u32_max. lia. Qed.

Lemma sample_queued_ok : queue_ok sample_queued.
Proof. exact (backend_run_ok _ _ _ sample_run1 (new_ok 2)). Qed.

Lemma sample_running_ok : queue_ok sample_running.
Proof. exact (backend_run_ok _ _ _ sample_run (new_ok 2)). Qed.

Lemma sample_holds : holds_lease 3000 "a" "worker" sample_item (mq_state sample_running).
Proof. split_and!; [by vm_compute..|]. exists 60000002000. by vm_compute. Qed.

Lemma sample_memory_run : memory_run sample_empty [sample_enqueue; sample_take] sample_running.
Proof.
  apply (memory_run_snoc sample_empty [sample_enqueue] sample_queued sample_take); [|exact I].
  apply (memory_run_snoc sample_empty [] sample_empty sample_enqueue); [constructor|].
  split; [done|]. intros n [= <-]. unfold u32_max. lia.
Qed.

(** The holder completes the item; or fails it with a delay past the end of
    time, which panics and changes nothing. *)
Lemma memory_calls_lawful_witness :
  (exec sample_running (CallComplete 3000 "a" "worker")).2 = Ok ReplyUnit
  ∧ mq_poisoned (exec sample_running (CallComplete 3000 "a" "worker")).1.1 = false
  ∧ (exec sample_running (CallFail 3000 3000 "a" "worker" ProviderFailure (Some i64_max))).2 = Panic.
Proof.
  pose proof (memory_calls_lawful 2 _ _ (CallComplete 3000 "a" "worker") sample_memory_run I) as Hc.
  pose proof (memory_calls_lawful 2 _ _ (CallFail 3000 3000 "a" "worker" ProviderFailure (Some i64_max)) sample_memory_run I) as Hf.
  assert ((exec sample_running (CallComplete 3000 "a" "worker")).2 = Ok ReplyUnit) as Hr by (vm_compute; reflexivity).
  split; [exact Hr|]. split.
  - destruct (exec sample_running (CallComplete 3000 "a" "worker")) as [[q' ev] r]. cbn in Hr. subst r.
    destruct Hc as (_ & _ & _ & Hp & _). apply Hp. discriminate.
  - destruct (exec sample_running (CallFail 3000 3000 "a" "worker" ProviderFailure (Some i64_max))) as [[q' ev] r].
    destruct Hf as (_ & _ & Hp & _). apply Hp. vm_compute. reflexivity.
Defined.

Lemma memory_claim_serves_witness :
  ∃ q' ev served, claim sample_queued 2000 2000 sample_claim
    = (q', ev, Ok (spec_claimed "worker" 60000002000 2000 <$> served)).
Proof.
  destruct (memory_claim_serves sample_queued 2000 2000 sample_claim 60000002000 sample_queued_ok
    eq_refl ltac:(by vm_compute) ltac:(by vm_compute))
    as (s1 & rec & served & rest & q' & ev & _ & _ & _ & _ & _ & E & _).
  by exists q', ev, served.
Defined.

Lemma memory_cap_holds_witness :
  running_count "chat:op:model" (mq_state sample_running) ≤ 1.
Proof.
  apply (memory_cap_holds 2 _ _ "chat:op:model" 1 sample_run); [lia|].
  repeat constructor. exists 1. split; [done|lia].
Defined.

Lemma memory_fence_witness :
  complete sample_running 3000 "a" "intruder"
  = (sample_running, [], Err (LeaseMismatch InvalidConfiguration)).
Proof.
  refine (proj1 (proj2 (memory_fence sample_running 3000 "a" "intruder" 60
    (mkFailure LeaseExpired None None) sample_running_ok _))).
  intros i (Hi & _ & Ho & _). vm_compute in Hi. injection Hi as <-. by vm_compute in Ho.
Defined.

Lemma memory_failure_recorded_witness :
  ∃ q', fail_with sample_running 3000 "a" "worker" (mkFailure LeaseExpired None (Some 9000))
    = (q', [(spec_released Failed (Some LeaseExpired) None 3000 (with_run_after 9000 sample_item),
             Some LeaseExpired)], Ok RetryScheduled).
Proof.
  destruct (memory_failure_recorded sample_running 3000 "a" "worker" sample_item
    (mkFailure LeaseExpired None (Some 9000)) 9000 sample_running_ok sample_holds eq_refl)
    as (q' & E & _).
  exists q'. exact E.
Defined.

Lemma memory_single_active_witness : "a" = "a".
Proof.
  apply (memory_single_active 2 _ _ "a" "a" sample_item sample_item "key" sample_run);
    by vm_compute.
Defined.

(** The sample item completed, then replaced under its key. *)
Definition sample_done : MemoryQueue := (complete sample_running 3000 "a" "worker").1.1.
Definition sample_replaced : MemoryQueue :=
  (enqueue_replacing sample_done 4000 "b" sample_request "a").1.1.

Lemma sample_done_ok : queue_ok sample_done.
Proof. apply (complete_lawful sample_running 3000 "a" "worker" sample_running_ok). Qed.

Lemma memory_replaces_once_witness :
  enqueue_replacing sample_replaced 5000 "c" sample_request "a"
  = (sample_replaced, [],
     Ok (mkEnqueueOutcome (new_item 4000 "b" sample_request) ActiveDuplicate)).
Proof.
  refine (memory_replaces_once sample_done 4000 "b" sample_request "a" "key" sample_replaced
    [(new_item 4000 "b" sample_request, None)] (new_item 4000 "b" sample_request) 5000 "c"
    sample_request sample_done_ok _ eq_refl _ eq_refl eq_refl eq_refl).
  - split; [by vm_compute|]. intros n [= <-]. unfold u32_max. lia.
  - vm_compute. reflexivity.
Defined.

Lemma memory_reclaim_complete_witness :
  ∃ q' ev, reclaim_expired_leases sample_running 70000000000 "chat:op:model" = (q', ev, Ok 1).
Proof.
  destruct (memory_reclaim_complete sample_running 70000000000 "chat:op:model" sample_running_ok)
    as (q' & ev & n & E & _).
  exists q', ev. rewrite E. vm_compute in E. injection E as _ _ <-. done.
Defined.

Lemma memory_cooldown_holds_witness :
  ∃ q', note_cooldown sample_queued "chat:op:model" 9000 = (q', [], Ok tt).
Proof.
  destruct (memory_cooldown_holds sample_queued "chat:op:model" 9000 sample_queued_ok)
    as (q' & t & E & _).
  by exists q'.
Defined.
