(* ===== verification/SqliteQueue.v ===== *)
(** [symbiotic-queue-sqlite], [lib.rs]: the durable backend.

    [Db] holds the two tables of the queue: [queue_items] as the list of its
    rows in rowid order and [queue_cooldowns] by queue id.  An SQL statement
    is the list operation it denotes: [UPDATE ... WHERE] is [update_where],
    [DELETE ... WHERE] keeps the other rows, [SELECT ... WHERE] is
    [select_where], [LIMIT] is [sql_limit].  [ORDER BY] leaves the order of
    equal rows open, so sorting is the parameter [order_by] of [SqlOrder].

    Every operation runs in one immediate transaction: [transaction] keeps the
    new tables when the body commits and the old ones when it returns an error.
    Rows are typed [QueueItem]s; [row_to_item] and the columns an insert writes
    are the codec between them and the stored text.  The source compares
    timestamps as RFC 3339 text; the model compares the instants.

    A failing statement (disk, lock timeout) surfaces as [Storage] and rolls
    back; the model follows the runs in which the statements themselves
    succeed. *)

From Stdlib Require Import ZArith Lia.
From stdpp Require Import base gmap strings list fin_maps sorting.
From S2P Require Import Prelude Core QueueTypes.

#[local] Open Scope Z_scope.

(** ** Stored text *)

Definition status_str (s : QueueStatus) : string :=
  match s with
  | Pending => "pending"
  | Running => "running"
  | Succeeded => "succeeded"
  | Failed => "failed"
  | Dead => "dead"
  | Stopped => "stopped"
  end.

Definition parse_status (value : string) : result QueueError QueueStatus :=
  if bool_decide (value = "pending") then Ok Pending
  else if bool_decide (value = "running") then Ok Running
  else if bool_decide (value = "succeeded") then Ok Succeeded
  else if bool_decide (value = "failed") then Ok Failed
  else if bool_decide (value = "dead") then Ok Dead
  else if bool_decide (value = "stopped") then Ok Stopped
  else Err (Storage StorageFailure).

(** RFC 3339 text of an instant and JSON text of a payload, as chrono and
    serde_json write and read them back. *)
Class TextCodec : Type := {
  ts : DateTime → string;
  parse_rfc3339 : string → option DateTime;
  json_text : string → string;
  parse_json : string → option string;
}.

Class TextCodecLaws `{!TextCodec} : Prop := {
  parse_ts_print t : parse_rfc3339 (ts t) = Some t;
  parse_json_print v : parse_json (json_text v) = Some v;
}.

(** A row of [queue_items] as SQLite returns it. *)
Record Row : Type := mkRow {
  row_item_id : string;
  row_queue_id : string;
  row_kind : string;
  row_payload_json : string;
  row_status : string;
  row_attempt : Z;
  row_max_attempts : Z;
  row_run_after : string;
  row_lease_owner : option string;
  row_lease_until : option string;
  row_idempotency_key : option string;
  row_last_error : option string;
  row_created_at : string;
  row_updated_at : string;
  row_last_error_class : option string;
}.

Section Codec.
Context `{!TextCodec}.

Definition parse_ts (value : string) : result QueueError DateTime :=
  ok_or (parse_rfc3339 value) (Storage StorageFailure).

(** [read_code] on the column's text. *)
Definition read_code (column : option string) : result QueueError (option DiagnosticCode) :=
  match column with
  | None => Ok None
  | Some code =>
      let? c := ok_or (DiagnosticCode_parse code) (Storage UnsupportedQueueSchema) in Ok (Some c)
  end.

Definition read_class (column : option string) : result QueueError (option FailureClass) :=
  match column with
  | None => Ok None
  | Some class =>
      let? c := ok_or (FailureClass_parse class) (Storage UnsupportedQueueSchema) in Ok (Some c)
  end.

(** [row.get::<_, u32>]: rusqlite refuses an integer outside the width. *)
Definition get_u32 (n : Z) : result QueueError Z :=
  if (0 <=? n) && (n <=? u32_max) then Ok n else Err (Storage StorageFailure).

Definition read_lease (column : option string) : result QueueError (option DateTime) :=
  match column with
  | None => Ok None
  | Some text => let? t := parse_ts text in Ok (Some t)
  end.

Definition row_to_item (r : Row) : result QueueError QueueItem :=
  let? payload := ok_or (parse_json (row_payload_json r)) (Storage StorageFailure) in
  let? status := parse_status (row_status r) in
  let? attempt := get_u32 (row_attempt r) in
  let? max_attempts := get_u32 (row_max_attempts r) in
  let? run_after := parse_ts (row_run_after r) in
  let? lease_until := read_lease (row_lease_until r) in
  let? last_error := read_code (row_last_error r) in
  let? last_error_class := read_class (row_last_error_class r) in
  let? created_at := parse_ts (row_created_at r) in
  let? updated_at := parse_ts (row_updated_at r) in
  Ok (mkQueueItem (row_item_id r) (row_queue_id r) (row_kind r) payload status attempt
        max_attempts run_after (row_lease_owner r) lease_until (row_idempotency_key r)
        last_error last_error_class created_at updated_at).

(** The columns the statements bind for an item: [status_str], [ts], [code]
    and [as_str] of the fields. *)
Definition item_to_row (i : QueueItem) : Row :=
  mkRow (qi_item_id i) (qi_queue_id i) (qi_kind i) (json_text (qi_payload i))
    (status_str (qi_status i)) (qi_attempt i) (qi_max_attempts i) (ts (qi_run_after i))
    (qi_lease_owner i) (ts <$> qi_lease_until i) (qi_idempotency_key i)
    (DiagnosticCode_code <$> qi_last_error i) (ts (qi_created_at i)) (ts (qi_updated_at i))
    (FailureClass_code <$> qi_last_error_class i).

End Codec.

(** ** Tables *)

Record Cooldown : Type := mkCooldown { cd_until : DateTime; cd_updated_at : DateTime }.

Record Db : Type := mkDb {
  db_items : list QueueItem;
  db_cooldowns : gmap string Cooldown;
}.

Definition set_rows (l : list QueueItem) (db : Db) : Db := mkDb l (db_cooldowns db).

(** [in_memory], or [open] of a new file. *)
Definition empty_db : Db := mkDb [] ∅.

(** [ORDER BY]: a sorted permutation; equal rows may come in any order. *)
Class SqlOrder : Type := {
  order_by : ∀ (R : QueueItem → QueueItem → Prop), RelDecision R → list QueueItem → list QueueItem;
  order_by_perm R dec l : order_by R dec l ≡ₚ l;
  order_by_sorted R dec l : Total R → Transitive R → StronglySorted R (order_by R dec l);
}.

(** [LIMIT n]; a negative limit is none. *)
Definition sql_limit {A : Type} (n : Z) (l : list A) : list A :=
  if n <? 0 then l else take (Z.to_nat n) l.

(** [order by created_at desc]. *)
Definition newest_first (a b : QueueItem) : Prop := qi_created_at b ≤ qi_created_at a.
(** [order by updated_at asc]. *)
Definition updated_first (a b : QueueItem) : Prop := qi_updated_at a ≤ qi_updated_at b.
(** [order by run_after asc, created_at asc]. *)
Definition due_first (a b : QueueItem) : Prop :=
  qi_run_after a < qi_run_after b
  ∨ qi_run_after a = qi_run_after b ∧ qi_created_at a ≤ qi_created_at b.

#[export] Instance newest_first_dec : RelDecision newest_first.
Proof. intros a b. unfold newest_first. apply _. Defined.
#[export] Instance updated_first_dec : RelDecision updated_first.
Proof. intros a b. unfold updated_first. apply _. Defined.
#[export] Instance due_first_dec : RelDecision due_first.
Proof. intros a b. unfold due_first. apply _. Defined.

(** One order SQLite may choose. *)
Definition order_merge : SqlOrder.
Proof.
  refine {| order_by := λ R dec l, @merge_sort QueueItem R dec l |}.
  - intros R dec l. apply merge_sort_Permutation.
  - intros R dec l Htot Htr. apply Sorted_StronglySorted; [exact Htr|]. by apply Sorted_merge_sort.
Defined.

Section SqliteQueue.
Context `{!Chrono} `{!SqlOrder}.

Abbreviation Events := (list (QueueItem * option DiagnosticCode)) (only parsing).

(** An immediate transaction: the body's tables on success, the old ones on an
    error. *)
Definition transaction {A : Type} (db : Db) (body : Db → result QueueError (Db * A)) :
    Db * result QueueError A :=
  match body db with
  | Ok (db', a) => (db', Ok a)
  | Err e => (db, Err e)
  | Panic => (db, Panic)
  end.

(** ** Reads *)

Definition has_id (item_id : string) (i : QueueItem) : bool :=
  bool_decide (qi_item_id i = item_id).

Definition get_in_tx (db : Db) (item_id : string) : option QueueItem :=
  head (select_where (has_id item_id) (db_items db)).

(** [get] and [get_item]. *)
Definition get (db : Db) (item_id : string) : option QueueItem := get_in_tx db item_id.

Definition get_required (db : Db) (item_id : string) : result QueueError QueueItem :=
  ok_or (get_in_tx db item_id) (NotFound InvalidConfiguration).

Definition has_key (queue_id key : string) (i : QueueItem) : bool :=
  bool_decide (qi_queue_id i = queue_id) && bool_decide (qi_idempotency_key i = Some key).

Definition find_by_idempotency (db : Db) (queue_id key : string) : option QueueItem :=
  head (order_by newest_first _ (select_where (has_key queue_id key) (db_items db))).

(** [select count] of the running rows of a queue. *)
Definition running_rows (db : Db) (queue_id : string) : Z :=
  Z.of_nat (length (select_where
    (λ i, bool_decide (qi_queue_id i = queue_id) && bool_decide (qi_status i = Running))
    (db_items db))).

Definition cooldown_active (db : Db) (queue_id : string) (now : DateTime) : bool :=
  match db_cooldowns db !! queue_id with Some c => now <? cd_until c | None => false end.

Definition cooldown_until (db : Db) (queue_id : string) : option DateTime :=
  cd_until <$> db_cooldowns db !! queue_id.

(** ** Stale and terminal rows *)

(** The condition both sweeps share; [None] sweeps every queue. *)
Definition stale_active (queue_id : option string) (stale_before now : DateTime)
    (i : QueueItem) : bool :=
  match queue_id with Some q => bool_decide (qi_queue_id i = q) | None => true end
  && is_active (qi_status i) && (qi_updated_at i <? stale_before)
  && (negb (bool_decide (qi_status i = Running))
      || match qi_lease_until i with None => true | Some until => until <? now end).

Definition marked_dead (reason : DiagnosticCode) (now : DateTime) (i : QueueItem) : QueueItem :=
  with_updated_at now (with_last_error (Some reason)
    (with_lease_until None (with_lease_owner None (with_status Dead i)))).

Definition stale_active_items_in_tx (db : Db) (queue_id : option string)
    (stale_before now : DateTime) : list QueueItem :=
  order_by updated_first _ (select_where (stale_active queue_id stale_before now) (db_items db)).

Definition mark_stale_active_dead_inner (db : Db) (now : DateTime) (queue_id : option string)
    (stale_before : DateTime) (reason : DiagnosticCode) : Db * Events * Z :=
  let items := stale_active_items_in_tx db queue_id stale_before now in
  let p := stale_active queue_id stale_before now in
  let updated := Z.of_nat (length (select_where p (db_items db))) in
  let db := set_rows (update_where p (marked_dead reason now) (db_items db)) db in
  (db, (λ i, (marked_dead reason now i, Some reason)) <$> items, updated).

Definition mark_stale_active_dead db now (queue_id : string) stale_before reason :=
  mark_stale_active_dead_inner db now (Some queue_id) stale_before reason.

Definition mark_all_stale_active_dead db now stale_before reason :=
  mark_stale_active_dead_inner db now None stale_before reason.

(** The same sweep without events. *)
Definition retire_stale_active (db : Db) (now stale_before : DateTime) (reason : DiagnosticCode) :
    Db * Z :=
  let p := stale_active None stale_before now in
  (set_rows (update_where p (marked_dead reason now) (db_items db)) db,
   Z.of_nat (length (select_where p (db_items db)))).

Definition prunable (before : DateTime) (i : QueueItem) : bool :=
  is_terminal (qi_status i) && (qi_updated_at i <? before).

Definition prune_terminal_before (db : Db) (before : DateTime) : Db * Z :=
  (set_rows (select_where (λ i, negb (prunable before i)) (db_items db)) db,
   Z.of_nat (length (select_where (prunable before) (db_items db)))).

(** ** Enqueue *)

(** The primary key and the unique index on active idempotency keys. *)
Definition violates (db : Db) (item : QueueItem) : bool :=
  existsb (λ i, has_id (qi_item_id item) i
                || match qi_idempotency_key item with
                   | Some key => has_key (qi_queue_id item) key i && is_active (qi_status i)
                                 && is_active (qi_status item)
                   | None => false
                   end) (db_items db).

Definition new_item (now : DateTime) (uuid : string) (r : EnqueueRequest) : QueueItem :=
  mkQueueItem uuid (er_queue_id r) (er_kind r) (er_payload r) Pending 0
    (Z.max (default 3 (er_max_attempts r)) 1) (default now (er_run_after r)) None None
    (er_idempotency_key r) None None now now.

Definition answers (r : EnqueueRequest) (replacing : option string) (existing : QueueItem) : bool :=
  let active := is_active (qi_status existing) in
  let terminal := is_terminal (qi_status existing) in
  let superseded :=
    match replacing with Some current => negb (bool_decide (qi_item_id existing = current))
    | None => false end in
  let reclaimed :=
    bool_decide (is_Some replacing) && bool_decide (qi_status existing = Failed)
    && bool_decide (qi_last_error existing = Some LeaseExpired) in
  (active && negb reclaimed) || (terminal && negb (er_force r)) || superseded.

(** [UPDATE ... SET status='stopped', last_error_class='queue'] of a failed
    [current]. *)
Definition retire_replaced (replacing : option string) (db : Db) : Db :=
  match replacing with
  | Some current =>
      set_rows (update_where (λ i, has_id current i && bool_decide (qi_status i = Failed))
        (λ i, with_last_error_class (Some ClassQueue) (with_status Stopped i)) (db_items db)) db
  | None => db
  end.

(** The insert and its fallback when a constraint refuses it. *)
Definition insert_new (now : DateTime) (uuid : string) (r : EnqueueRequest)
    (replacing : option string) (db : Db) : result QueueError (Db * EnqueueOutcome) :=
  let db := retire_replaced replacing db in
  let item := new_item now uuid r in
  if violates db item
  then match (key ← qi_idempotency_key item; find_by_idempotency db (qi_queue_id item) key) with
       | Some existing => Ok (db, mkEnqueueOutcome existing ActiveDuplicate)
       | None => Err (Storage StorageFailure)
       end
  else Ok (set_rows (db_items db ++ [item]) db, mkEnqueueOutcome item Inserted).

Definition enqueue_inner (db : Db) (now : DateTime) (uuid : string) (r : EnqueueRequest)
    (replacing : option string) : Db * Events * result QueueError EnqueueOutcome :=
  if blank (er_kind r) then (db, [], Err (InvalidRequest QueueItemKindMustNotBeEmpty))
  else
    let '(db, outcome) :=
      transaction db (λ db,
        match (key ← er_idempotency_key r; find_by_idempotency db (er_queue_id r) key) with
        | Some existing =>
            if answers r replacing existing
            then Ok (db, mkEnqueueOutcome existing
                   (if is_active (qi_status existing) then ActiveDuplicate else TerminalDuplicate))
            else insert_new now uuid r replacing db
        | None => insert_new now uuid r replacing db
        end) in
    (db, match outcome with
         | Ok (mkEnqueueOutcome item Inserted) => [(item, None)]
         | _ => []
         end, outcome).

Definition enqueue db now uuid r := enqueue_inner db now uuid r None.

Definition enqueue_replacing db now uuid r (current : string) :=
  enqueue_inner db now uuid (with_force true r) (Some current).

(** ** Leases *)

(** A running row of the queue whose lease ended before [now]. *)
Definition lease_lapsed (queue_id : string) (now : DateTime) (i : QueueItem) : bool :=
  bool_decide (qi_queue_id i = queue_id) && bool_decide (qi_status i = Running)
  && match qi_lease_until i with Some until => until <? now | None => false end.

Definition reclaimed_row (now : DateTime) (i : QueueItem) : QueueItem :=
  with_last_error_class (Some ClassQueue) (with_last_error (Some LeaseExpired)
    (with_updated_at now (with_lease_until None (with_lease_owner None
      (with_status (if qi_max_attempts i <=? qi_attempt i then Dead else Failed) i))))).

(** [reclaim_expired_in_tx], returning the number of rows updated too. *)
Definition reclaim_expired_in_tx (db : Db) (queue_id : string) (now : DateTime) : Db * Z :=
  let p := lease_lapsed queue_id now in
  (set_rows (update_where p (reclaimed_row now) (db_items db)) db,
   Z.of_nat (length (select_where p (db_items db)))).

Definition expired_running_items_in_tx (db : Db) (queue_id : string) (now : DateTime) :
    list QueueItem :=
  order_by updated_first _ (select_where (lease_lapsed queue_id now) (db_items db)).

(** The item an expired lease is reported with: [get_or_insert] keeps an
    earlier error. *)
Definition reported_expired (now : DateTime) (i : QueueItem) : QueueItem :=
  with_updated_at now (with_last_error (Some (default LeaseExpired (qi_last_error i)))
    (with_lease_until None (with_lease_owner None
      (with_status (if qi_max_attempts i <=? qi_attempt i then Dead else Failed) i)))).

Definition reclaim_expired_leases (db : Db) (now : DateTime) (queue_id : string) :
    Db * Events * Z :=
  let expired := expired_running_items_in_tx db queue_id now in
  let '(db, reclaimed) := reclaim_expired_in_tx db queue_id now in
  (db, (λ i, (reported_expired now i, Some LeaseExpired)) <$> expired, reclaimed).

Definition leased_row (worker_id : string) (lease_until now : DateTime) (i : QueueItem) :
    QueueItem :=
  with_updated_at now (with_lease_until (Some lease_until) (with_lease_owner (Some worker_id)
    (with_attempt (qi_attempt i + 1) (with_status Running i)))).

(** Rows a claim at [now] may take. *)
Definition ready (queue_id : string) (now : DateTime) (i : QueueItem) : bool :=
  bool_decide (qi_queue_id i = queue_id) && is_waiting (qi_status i)
  && (qi_attempt i <? qi_max_attempts i) && (qi_run_after i <=? now).

(** The guarded update of one chosen id and its read back. *)
Definition lease_one (worker_id : string) (lease_until now : DateTime) (id : string) (db : Db) :
    Db * list QueueItem :=
  let p i := has_id id i && is_waiting (qi_status i) && (qi_attempt i <? qi_max_attempts i) in
  let updated := length (select_where p (db_items db)) in
  let db := set_rows (update_where p (leased_row worker_id lease_until now) (db_items db)) db in
  (db, if (updated =? 1)%nat then option_list (get_in_tx db id) else []).

Fixpoint lease_ids (worker_id : string) (lease_until now : DateTime) (ids : list string) (db : Db) :
    Db * list QueueItem :=
  match ids with
  | [] => (db, [])
  | id :: ids =>
      let '(db, out) := lease_one worker_id lease_until now id db in
      let '(db, rest) := lease_ids worker_id lease_until now ids db in
      (db, out ++ rest)
  end.

(** The limit left by the cap: [None] when the queue is at it.  The count and
    the cap are compared as [i64]. *)
Definition room (limit : Z) (max_in_flight : option Z) (running : Z) : option Z :=
  match max_in_flight with
  | None => Some limit
  | Some cap =>
      if u64_as_i64 cap <=? running then None else Some (Z.min limit (saturating_sub cap running))
  end.

Definition claim (db : Db) (now now' : DateTime) (r : ClaimRequest) :
    Db * Events * result QueueError (list QueueItem) :=
  if blank (cr_worker_id r) then (db, [], Err (InvalidRequest WorkerIdMustNotBeEmpty))
  else match lease_deadline now (cr_lease_seconds r) with
  | Err e => (db, [], Err e)
  | Panic => (db, [], Panic)
  | Ok lease_until =>
      if cooldown_active db (cr_queue_id r) now' then (db, [], Ok [])
      else
        let '(db, _) := reclaim_expired_in_tx db (cr_queue_id r) now in
        match room (Z.max (cr_limit r) 1) (cr_max_in_flight r) (running_rows db (cr_queue_id r)) with
        | None => (db, [], Ok [])
        | Some limit =>
            let ids := qi_item_id <$> sql_limit (u64_as_i64 limit)
                         (order_by due_first _
                            (select_where (ready (cr_queue_id r) now) (db_items db))) in
            let '(db, claimed) := lease_ids (cr_worker_id r) lease_until now ids db in
            (db, (λ i, (i, None)) <$> claimed, Ok claimed)
        end
  end.

Definition retired_row (now : DateTime) (i : QueueItem) : QueueItem :=
  with_updated_at now (with_last_error (Some (default AttemptBudgetExhausted (qi_last_error i)))
    (with_status Dead i)).

(** The part of [claim_item] after the cap check. *)
Definition claim_refreshed (db : Db) (now lease_until : DateTime) (item_id worker_id : string) :
    result QueueError (Db * option QueueItem) :=
  let? refreshed := get_required db item_id in
  if is_waiting (qi_status refreshed) && (qi_max_attempts refreshed <=? qi_attempt refreshed)
  then Ok (set_rows (update_where (has_id item_id) (retired_row now) (db_items db)) db, None)
  else if negb (is_waiting (qi_status refreshed)) || (now <? qi_run_after refreshed)
  then Ok (db, None)
  else
    let p i := has_id item_id i && is_waiting (qi_status i) in
    let updated := length (select_where p (db_items db)) in
    let db := set_rows (update_where p (leased_row worker_id lease_until now) (db_items db)) db in
    if negb (updated =? 1)%nat then Ok (db, None)
    else let? claimed := get_required db item_id in Ok (db, Some claimed).

Definition claim_item (db : Db) (now now' : DateTime) (item_id worker_id : string)
    (lease_seconds : Z) (max_in_flight : option Z) :
    Db * Events * result QueueError (option QueueItem) :=
  if blank worker_id then (db, [], Err (InvalidRequest WorkerIdMustNotBeEmpty))
  else match lease_deadline now lease_seconds with
  | Err e => (db, [], Err e)
  | Panic => (db, [], Panic)
  | Ok lease_until =>
      let '(db, claimed) :=
        transaction db (λ db,
          let? item := get_required db item_id in
          if cooldown_active db (qi_queue_id item) now' then Ok (db, None)
          else
            let '(db, _) := reclaim_expired_in_tx db (qi_queue_id item) now in
            match room 1 max_in_flight (running_rows db (qi_queue_id item)) with
            | None => Ok (db, None)
            | Some _ => claim_refreshed db now lease_until item_id worker_id
            end) in
      (db, match claimed with Ok (Some item) => [(item, None)] | _ => [] end, claimed)
  end.

(** ** Acknowledgements *)

(** [update_running_item]: the lease fence at the clock reading [now']. *)
Definition update_running_item {A : Type} (db : Db) (now' : DateTime) (item_id worker_id : string)
    (update : Db → result QueueError (Db * A)) : Db * result QueueError A :=
  transaction db (λ db,
    let? current := get_required db item_id in
    if negb (bool_decide (qi_status current = Running))
    then Err (NotRunning InvalidConfiguration)
    else if negb (bool_decide (qi_lease_owner current = Some worker_id))
    then Err (LeaseMismatch InvalidConfiguration)
    else if match qi_lease_until current with Some until => until <? now' | None => true end
    then Err (LeaseMismatch InvalidConfiguration)
    else update db).

(** [conn.execute("update ... where item_id = ?1")] and the read back. *)
Definition update_by_id (f : QueueItem → QueueItem) (item_id : string) (db : Db) :
    result QueueError (Db * QueueItem) :=
  let db := set_rows (update_where (has_id item_id) f (db_items db)) db in
  let? item := get_required db item_id in
  Ok (db, item).

Definition renewed_row (lease_until now : DateTime) (i : QueueItem) : QueueItem :=
  with_updated_at now (with_lease_until (Some lease_until) i).

(** [heartbeat]: a first reading [now0] only validates the duration; the fence
    reads [now'] and the renewal [now]. *)
Definition heartbeat (db : Db) (now0 now' now : DateTime) (item_id worker_id : string)
    (lease_seconds : Z) : Db * Events * result QueueError unit :=
  match lease_deadline now0 lease_seconds with
  | Err e => (db, [], Err e)
  | Panic => (db, [], Panic)
  | Ok _ =>
      let '(db, r) :=
        update_running_item db now' item_id worker_id (λ db,
          let? lease_until := lease_deadline now lease_seconds in
          update_by_id (renewed_row lease_until now) item_id db) in
      match r with
      | Ok item => (db, [(item, None)], Ok tt)
      | Err e => (db, [], Err e)
      | Panic => (db, [], Panic)
      end
  end.

Definition completed_row (now : DateTime) (i : QueueItem) : QueueItem :=
  with_updated_at now (with_last_error_class None (with_last_error None
    (with_lease_until None (with_lease_owner None (with_status Succeeded i))))).

Definition complete (db : Db) (now now' : DateTime) (item_id worker_id : string) :
    Db * Events * result QueueError unit :=
  let '(db, r) :=
    update_running_item db now' item_id worker_id (update_by_id (completed_row now) item_id) in
  match r with
  | Ok item => (db, [(item, None)], Ok tt)
  | Err e => (db, [], Err e)
  | Panic => (db, [], Panic)
  end.

Definition failed_row (status : QueueStatus) (run_after : DateTime) (f : Failure) (now : DateTime)
    (i : QueueItem) : QueueItem :=
  with_updated_at now (with_last_error_class (f_error_class f) (with_last_error (Some (f_error f))
    (with_lease_until None (with_lease_owner None (with_run_after run_after
      (with_status status i)))))).

Definition fail_with (db : Db) (now now' : DateTime) (item_id worker_id : string) (f : Failure) :
    Db * Events * result QueueError FailOutcome :=
  match (match f_run_after f with Some t => Ok t | None => add_seconds now 1 end) with
  | Err e => (db, [], Err e)
  | Panic => (db, [], Panic)
  | Ok run_after =>
      let '(db, r) :=
        update_running_item db now' item_id worker_id (λ db,
          let? item := get_required db item_id in
          let exhausted := qi_max_attempts item <=? qi_attempt item in
          let status := match f_run_after f with
                        | None => Stopped
                        | Some _ => if exhausted then Dead else Failed
                        end in
          let? '(db, updated) := update_by_id (failed_row status run_after f now) item_id db in
          let outcome := match f_run_after f with
                         | None => FailStopped
                         | Some _ => if exhausted then MovedToDead else RetryScheduled
                         end in
          Ok (db, (updated, outcome))) in
      match r with
      | Ok (item, outcome) => (db, [(item, Some (f_error f))], Ok outcome)
      | Err e => (db, [], Err e)
      | Panic => (db, [], Panic)
      end
  end.

Definition fail (db : Db) (now0 now now' : DateTime) (item_id worker_id : string)
    (error : DiagnosticCode) (retry_after_seconds : option Z) :
    Db * Events * result QueueError FailOutcome :=
  match fail_run_after now0 retry_after_seconds with
  | Ok run_after => fail_with db now now' item_id worker_id (mkFailure error None (Some run_after))
  | Err e => (db, [], Err e)
  | Panic => (db, [], Panic)
  end.

Definition note_cooldown (db : Db) (now : DateTime) (queue_id : string) (until : DateTime) : Db :=
  let row := match db_cooldowns db !! queue_id with
             | None => mkCooldown until now
             | Some c => mkCooldown (if cd_until c <? until then until else cd_until c) now
             end in
  mkDb (db_items db) (<[queue_id := row]> (db_cooldowns db)).

(** ** Calls as one step function *)

Inductive sql_call : Type :=
| SqlEnqueue (now : DateTime) (uuid : string) (r : EnqueueRequest)
| SqlEnqueueReplacing (now : DateTime) (uuid : string) (r : EnqueueRequest) (current : string)
| SqlClaim (now now' : DateTime) (r : ClaimRequest)
| SqlClaimItem (now now' : DateTime) (item_id worker_id : string) (lease_seconds : Z)
    (max_in_flight : option Z)
| SqlHeartbeat (now0 now' now : DateTime) (item_id worker_id : string) (lease_seconds : Z)
| SqlComplete (now now' : DateTime) (item_id worker_id : string)
| SqlFail (now0 now now' : DateTime) (item_id worker_id : string) (error : DiagnosticCode)
    (retry_after_seconds : option Z)
| SqlFailWith (now now' : DateTime) (item_id worker_id : string) (f : Failure)
| SqlReclaim (now : DateTime) (queue_id : string)
| SqlNoteCooldown (now : DateTime) (queue_id : string) (until : DateTime)
| SqlMarkStale (now : DateTime) (queue_id : option string) (stale_before : DateTime)
    (reason : DiagnosticCode)
| SqlRetireStale (now stale_before : DateTime) (reason : DiagnosticCode)
| SqlPrune (before : DateTime).

Definition sql_exec (db : Db) (c : sql_call) : Db :=
  match c with
  | SqlEnqueue now uuid r => (enqueue db now uuid r).1.1
  | SqlEnqueueReplacing now uuid r current => (enqueue_replacing db now uuid r current).1.1
  | SqlClaim now now' r => (claim db now now' r).1.1
  | SqlClaimItem now now' id w ls cap => (claim_item db now now' id w ls cap).1.1
  | SqlHeartbeat now0 now' now id w ls => (heartbeat db now0 now' now id w ls).1.1
  | SqlComplete now now' id w => (complete db now now' id w).1.1
  | SqlFail now0 now now' id w e ra => (fail db now0 now now' id w e ra).1.1
  | SqlFailWith now now' id w f => (fail_with db now now' id w f).1.1
  | SqlReclaim now qid => (reclaim_expired_leases db now qid).1.1
  | SqlNoteCooldown now qid until => note_cooldown db now qid until
  | SqlMarkStale now qid before reason => (mark_stale_active_dead_inner db now qid before reason).1.1
  | SqlRetireStale now before reason => (retire_stale_active db now before reason).1
  | SqlPrune before => (prune_terminal_before db before).1
  end.

End SqliteQueue.
