(* ===== verification/SqliteQueueProofs.v ===== *)
(** Every operation of the SQLite backend keeps its invariant and moves rows
    only along the lifecycle of [QueueSpec]: [update_rows_lawful] reduces an
    [UPDATE] to the lifecycle step it makes on each row it matches. *)

From Stdlib Require Import ZArith Lia.
From stdpp Require Import base gmap strings list fin_maps sorting relations.
From S2P Require Import Prelude Core QueueTypes QueueSpec SqliteQueue.

#[local] Open Scope Z_scope.

(** ** The invariant *)

(** The constraints of the schema (primary key, unique active key) and rows
    within the lifecycle. *)
Record db_ok (db : Db) : Prop := {
  ok_ids : NoDup (qi_item_id <$> db_items db);
  ok_wf i : i ∈ db_items db → item_wf i;
  ok_unique i j key :
    i ∈ db_items db → j ∈ db_items db →
    is_active (qi_status i) = true → is_active (qi_status j) = true →
    qi_queue_id i = qi_queue_id j →
    qi_idempotency_key i = Some key → qi_idempotency_key j = Some key → i = j;
}.

(** The rows by id. *)
Definition table (db : Db) : gmap string QueueItem :=
  list_to_map ((λ i, (qi_item_id i, i)) <$> db_items db).

Lemma table_lookup db id i :
  NoDup (qi_item_id <$> db_items db) →
  table db !! id = Some i ↔ i ∈ db_items db ∧ qi_item_id i = id.
Proof.
  intros Hnd. unfold table. rewrite <-elem_of_list_to_map.
  - rewrite list_elem_of_fmap. naive_solver.
  - by rewrite <-list_fmap_compose.
Qed.

Lemma table_none db id :
  NoDup (qi_item_id <$> db_items db) →
  table db !! id = None ↔ ∀ i, i ∈ db_items db → qi_item_id i ≠ id.
Proof.
  intros Hnd. rewrite eq_None_not_Some. split.
  - intros Hn i Hi Hid. apply Hn. exists i. by apply table_lookup.
  - intros Hn [i Hi]. apply table_lookup in Hi as [Hi Hid]; [|done]. by eapply Hn.
Qed.

Lemma same_id_eq l (i j : QueueItem) :
  NoDup (qi_item_id <$> l) → i ∈ l → j ∈ l → qi_item_id i = qi_item_id j → i = j.
Proof.
  intros Hnd [n Hn]%list_elem_of_lookup [m Hm]%list_elem_of_lookup Hid.
  assert (n = m) as ->; [|congruence].
  apply (NoDup_lookup _ n m (qi_item_id i) Hnd); rewrite list_lookup_fmap, ?Hn, ?Hm; simpl; congruence.
Qed.

Lemma get_in_tx_some db id i :
  NoDup (qi_item_id <$> db_items db) →
  get_in_tx db id = Some i ↔ i ∈ db_items db ∧ qi_item_id i = id.
Proof.
  intros Hnd. unfold get_in_tx.
  assert (Hsel : ∀ j, j ∈ select_where (has_id id) (db_items db) ↔ j ∈ db_items db ∧ qi_item_id j = id).
  { intros j. rewrite elem_of_select_where. unfold has_id. by rewrite bool_decide_eq_true. }
  destruct (select_where (has_id id) (db_items db)) as [|x l]; simpl.
  - split; [done|]. intros H. by apply Hsel, not_elem_of_nil in H.
  - split; [intros [= ->]; apply Hsel; left|]. intros [Hi Hid]. f_equal.
    destruct (proj1 (Hsel x) ltac:(left)) as [Hx Hxid]. eapply same_id_eq; [done..|congruence].
Qed.

Lemma get_in_tx_table db id : NoDup (qi_item_id <$> db_items db) → get_in_tx db id = table db !! id.
Proof.
  intros Hnd. apply option_eq. intros i. by rewrite get_in_tx_some, table_lookup.
Qed.

(** ** Updates of rows *)

Lemma update_where_ids p f (l : list QueueItem) :
  (∀ x, x ∈ l → p x = true → qi_item_id (f x) = qi_item_id x) →
  qi_item_id <$> update_where p f l = qi_item_id <$> l.
Proof.
  unfold update_where. induction l as [|x l IH]; intros Hf; csimpl; [done|].
  rewrite IH by (intros; apply Hf; [by right|done]). f_equal.
  destruct (p x) eqn:Hp; [|done]. apply Hf; [left|done].
Qed.

(** What one operation leaves: the invariant and lifecycle moves. *)
Definition lawful (db db' : Db) : Prop :=
  db_ok db' ∧ ∀ id, evolves (table db !! id) (table db' !! id).

Definition moves_to (db db' : Db) : Prop := db_ok db' ∧ moves (table db) (table db').

Lemma moves_to_lawful db db' : moves_to db db' → lawful db db'.
Proof. intros [Hok Hm]. split; [done|]. intros id. apply moved_evolves, Hm. Qed.

Lemma moves_to_refl db : db_ok db → moves_to db db.
Proof. by split. Qed.

Lemma moves_to_trans db1 db2 db3 : moves_to db1 db2 → moves_to db2 db3 → moves_to db1 db3.
Proof. intros [_ H1] [? H2]. split; [done|]. by etrans. Qed.

(** A row with an active status descends from an active row. *)
Lemma updated_active p f (l : list QueueItem) y :
  (∀ x, x ∈ l → p x = true → item_step x (f x)) →
  y ∈ update_where p f l → is_active (qi_status y) = true →
  ∃ x, x ∈ l ∧ y = (if p x then f x else x) ∧ is_active (qi_status x) = true ∧ same_identity x y.
Proof.
  intros Hstep (x & Hx & ->)%elem_of_update_where Ha. exists x.
  destruct (p x) eqn:Hp; [|by split_and!].
  pose proof (Hstep x Hx Hp) as Hs. split_and!; try done.
  - by eapply item_step_active.
  - by apply item_step_identity.
Qed.

Lemma update_rows_ok p f db :
  db_ok db → (∀ x, x ∈ db_items db → p x = true → item_step x (f x)) →
  moves_to db (set_rows (update_where p f (db_items db)) db).
Proof.
  intros [Hnd Hwf Huq] Hstep.
  assert (qi_item_id <$> update_where p f (db_items db) = qi_item_id <$> db_items db) as Eids.
  { apply update_where_ids. intros x Hx Hp. by destruct (item_step_identity _ _ (Hstep x Hx Hp)). }
  assert (db_ok (set_rows (update_where p f (db_items db)) db)) as Hok.
  { split; simpl.
    - by rewrite Eids.
    - intros y (x & Hx & ->)%elem_of_update_where. destruct (p x) eqn:Hp; [|by apply Hwf].
      eapply item_step_wf; [by apply Hstep|by apply Hwf].
    - intros y1 y2 key H1 H2 Ha1 Ha2 Hq Hk1 Hk2.
      destruct (updated_active p f _ y1 Hstep H1 Ha1) as (x1 & Hx1 & -> & Hxa1 & (_ & Q1 & _ & _ & K1 & _)).
      destruct (updated_active p f _ y2 Hstep H2 Ha2) as (x2 & Hx2 & -> & Hxa2 & (_ & Q2 & _ & _ & K2 & _)).
      by rewrite (Huq x1 x2 key) by congruence. }
  split; [done|]. intros id. pose proof (ok_ids _ Hok) as Hnd'.
  destruct (table db !! id) as [x|] eqn:Hx.
  - apply table_lookup in Hx as [Hx <-]; [|done].
    assert (table (set_rows (update_where p f (db_items db)) db) !! qi_item_id x
            = Some (if p x then f x else x)) as ->.
    { apply table_lookup; [done|]. split; [apply elem_of_update_where; eauto|].
      destruct (p x) eqn:Hp; [|done]. by destruct (item_step_identity _ _ (Hstep x Hx Hp)). }
    constructor. destruct (p x) eqn:Hp; [by apply rtc_once, Hstep|done].
  - assert (table (set_rows (update_where p f (db_items db)) db) !! id = None) as ->; [|constructor].
    rewrite table_none in Hx |- * by done. simpl.
    intros y (x & Hx' & ->)%elem_of_update_where. specialize (Hx x Hx').
    destruct (p x) eqn:Hp; [|done]. by destruct (item_step_identity _ _ (Hstep x Hx' Hp)) as [-> _].
Qed.

(** Deleting terminal rows. *)
Lemma select_rows_ok p db :
  db_ok db → (∀ x, x ∈ db_items db → p x = false → is_terminal (qi_status x) = true) →
  moves_to db (set_rows (select_where p (db_items db)) db).
Proof.
  intros [Hnd Hwf Huq] Hterm.
  assert (NoDup (qi_item_id <$> select_where p (db_items db))) as Hnd'.
  { eapply sublist_NoDup; [exact Hnd|]. apply fmap_sublist, sublist_filter. }
  split.
  - split; simpl; [done|..]; intros i; try intros j key; rewrite !elem_of_select_where; naive_solver.
  - intros id. destruct (table db !! id) as [x|] eqn:Hx.
    + apply table_lookup in Hx as [Hx Hid]; [|done]. destruct (p x) eqn:Hp.
      * assert (table (set_rows (select_where p (db_items db)) db) !! id = Some x) as ->.
        { apply table_lookup; [done|]. simpl. by rewrite elem_of_select_where. }
        by constructor.
      * assert (table (set_rows (select_where p (db_items db)) db) !! id = None) as ->.
        { apply table_none; [done|]. simpl. intros y [Hy Hpy]%elem_of_select_where Hyid.
          rewrite (same_id_eq (db_items db) y x) in Hpy by congruence. congruence. }
        eapply moved_forgotten; [done|by apply Hterm].
    + assert (table (set_rows (select_where p (db_items db)) db) !! id = None) as ->; [|constructor].
      rewrite table_none in Hx |- * by done. simpl. intros y [Hy _]%elem_of_select_where. by apply Hx.
Qed.

Section Proofs.
Context `{!Chrono} `{!SqlOrder}.

(** ** Sweeps *)

Lemma stale_step db queue_id stale_before now reason x :
  db_ok db → x ∈ db_items db → stale_active queue_id stale_before now x = true →
  item_step x (marked_dead reason now x).
Proof.
  intros Hok Hx Hp. unfold stale_active in Hp. bools. apply step_stale; [done|].
  intros Hr. destruct (wf_running x (ok_wf _ Hok x Hx) Hr) as (_ & _ & [until Hu]).
  exists until. split; [done|]. rewrite Hu, Hr in *. rewrite bool_decide_true in * by done.
  simpl in *. by bools.
Qed.

Lemma mark_stale_ok db now queue_id stale_before reason :
  db_ok db → moves_to db (mark_stale_active_dead_inner db now queue_id stale_before reason).1.1.
Proof. intros Hok. apply update_rows_ok; [done|]. intros x. by apply stale_step. Qed.

Lemma retire_stale_ok db now stale_before reason :
  db_ok db → moves_to db (retire_stale_active db now stale_before reason).1.
Proof. intros Hok. apply update_rows_ok; [done|]. intros x. by apply stale_step. Qed.

Lemma prune_ok db before : db_ok db → moves_to db (prune_terminal_before db before).1.
Proof.
  intros Hok. apply select_rows_ok; [done|]. intros x _ Hp. unfold prunable in Hp. by bools.
Qed.

(** ** Leases *)

Lemma reclaimed_row_spec now i :
  reclaimed_row now i
  = spec_released (if qi_max_attempts i <=? qi_attempt i then Dead else Failed)
      (Some LeaseExpired) (Some ClassQueue) now i.
Proof. by destruct i. Qed.

Lemma reclaim_ok db queue_id now : db_ok db → moves_to db (reclaim_expired_in_tx db queue_id now).1.
Proof.
  intros Hok. apply update_rows_ok; [done|]. intros x _ Hp. unfold lease_lapsed in Hp. bools.
  destruct (qi_lease_until x) as [until|] eqn:Hu; [|done]. bools.
  rewrite reclaimed_row_spec. by eapply step_reclaim.
Qed.

Lemma lease_one_ok worker until now id db :
  db_ok db → moves_to db (lease_one worker until now id db).1.
Proof.
  intros Hok. apply update_rows_ok; [done|]. intros x _ Hp. bools. by apply step_claim.
Qed.

Lemma lease_ids_ok worker until now ids db :
  db_ok db → moves_to db (lease_ids worker until now ids db).1.
Proof.
  revert db. induction ids as [|id ids IH]; intros db Hok; cbn [lease_ids]; [by apply moves_to_refl|].
  pose proof (lease_one_ok worker until now id db Hok) as H1.
  destruct (lease_one worker until now id db) as [db1 out]. simpl in H1.
  specialize (IH db1 (proj1 H1)). destruct (lease_ids worker until now ids db1) as [db2 rest].
  by eapply moves_to_trans.
Qed.

Lemma claim_ok db now now' r : db_ok db → moves_to db (claim db now now' r).1.1.
Proof.
  intros Hok. pose proof (moves_to_refl db Hok) as Hrefl. unfold claim.
  destruct (blank (cr_worker_id r)); [done|].
  destruct (lease_deadline now (cr_lease_seconds r)) as [until| |]; [|done..].
  destruct (cooldown_active db (cr_queue_id r) now'); [done|].
  pose proof (reclaim_ok db (cr_queue_id r) now Hok) as H1.
  destruct (reclaim_expired_in_tx db (cr_queue_id r) now) as [db1 n]. simpl in H1.
  destruct (room _ _ _) as [limit|]; [|done].
  set (ids := qi_item_id <$> _).
  pose proof (lease_ids_ok (cr_worker_id r) until now ids db1 (proj1 H1)) as H2.
  destruct (lease_ids (cr_worker_id r) until now ids db1) as [db2 out]. by eapply moves_to_trans.
Qed.

(** A transaction is lawful when its body is. *)
Lemma transaction_ok {A : Type} db (body : Db → result QueueError (Db * A)) :
  db_ok db → (∀ db' a, body db = Ok (db', a) → moves_to db db') →
  moves_to db (transaction db body).1.
Proof.
  intros Hok Hbody. unfold transaction. destruct (body db) as [[db' a]| |]; [by eapply Hbody|..];
    by apply moves_to_refl.
Qed.

Lemma get_required_ok db id i :
  db_ok db → get_required db id = Ok i → i ∈ db_items db ∧ qi_item_id i = id.
Proof. intros Hok Hg%ok_or_ok. apply get_in_tx_some in Hg; [done|apply Hok]. Qed.

(** An update of the row of one id. *)
Lemma update_by_id_ok f id i db :
  db_ok db → i ∈ db_items db → qi_item_id i = id → item_step i (f i) →
  update_by_id f id db
    = Ok (set_rows (update_where (has_id id) f (db_items db)) db, f i)
  ∧ moves_to db (set_rows (update_where (has_id id) f (db_items db)) db).
Proof.
  intros Hok Hi Hid Hs.
  assert (moves_to db (set_rows (update_where (has_id id) f (db_items db)) db)) as Hm.
  { apply update_rows_ok; [done|]. intros x Hx Hp. unfold has_id in Hp. bools.
    by rewrite (same_id_eq (db_items db) x i) by (apply Hok || congruence). }
  split; [|done]. unfold update_by_id, get_required.
  assert (get_in_tx (set_rows (update_where (has_id id) f (db_items db)) db) id = Some (f i)) as ->;
    [|done].
  apply get_in_tx_some; [apply Hm|]. simpl. split.
  - apply elem_of_update_where. exists i. split; [done|]. unfold has_id.
    by rewrite bool_decide_true.
  - destruct (item_step_identity _ _ Hs) as [-> _]. done.
Qed.

Lemma claim_refreshed_ok db now until id worker db' o :
  db_ok db → claim_refreshed db now until id worker = Ok (db', o) → moves_to db db'.
Proof.
  intros Hok. unfold claim_refreshed. destruct (get_required db id) as [i| |] eqn:Hg; [|done..].
  rsimpl. apply get_required_ok in Hg as [Hi Hid]; [|done].
  destruct (is_waiting (qi_status i) && (qi_max_attempts i <=? qi_attempt i)) eqn:He.
  { intros [= <- <-]. bools. pose proof (wf_waiting i (ok_wf _ Hok i Hi) ltac:(done)) as Hl.
    unfold attempts_left in Hl. lia. }
  destruct (negb (is_waiting (qi_status i)) || (now <? qi_run_after i)) eqn:Hw.
  { intros [= <- <-]. by apply moves_to_refl. }
  bools. set (p := λ j, has_id id j && is_waiting (qi_status j)).
  assert (moves_to db (set_rows (update_where p (leased_row worker until now) (db_items db)) db))
    as Hm.
  { apply update_rows_ok; [done|]. intros x Hx Hp. unfold p in Hp. bools. apply step_claim; [done|].
    by apply (wf_waiting x (ok_wf _ Hok x Hx)). }
  destruct (negb (length (select_where p (db_items db)) =? 1)%nat); [by intros [= <- <-]|].
  destruct (get_required _ id); rsimpl; [|done..]. by intros [= <- <-].
Qed.

Lemma claim_item_ok db now now' id worker seconds cap :
  db_ok db → moves_to db (claim_item db now now' id worker seconds cap).1.1.
Proof.
  intros Hok. unfold claim_item. destruct (blank worker); [by apply moves_to_refl|].
  destruct (lease_deadline now seconds) as [until| |]; [|by apply moves_to_refl..].
  match goal with |- context [transaction db ?b] =>
    pose proof (transaction_ok db b Hok) as Ht; destruct (transaction db b) as [db2 o]; cbn [fst] in * end.
  apply Ht. clear Ht. intros db' a.
  destruct (get_required db id) as [i| |] eqn:Hg; rsimpl; [|done..].
  destruct (cooldown_active db (qi_queue_id i) now'); [intros [= <- <-]; by apply moves_to_refl|].
  pose proof (reclaim_ok db (qi_queue_id i) now Hok) as H1.
  destruct (reclaim_expired_in_tx db (qi_queue_id i) now) as [db1 n]. simpl in H1.
  destruct (room _ _ _); [|by intros [= <- <-]].
  intros Hc. eapply moves_to_trans; [exact H1|]. eapply claim_refreshed_ok; [apply H1|done].
Qed.

(** ** Acknowledgements *)

(** The worker holds the item's current unexpired lease. *)
Definition holds_lease (now : DateTime) (id worker : string) (i : QueueItem) (db : Db) : Prop :=
  table db !! id = Some i ∧ qi_status i = Running ∧ qi_lease_owner i = Some worker
  ∧ ∃ until, qi_lease_until i = Some until ∧ now ≤ until.

(** The error of an acknowledgement without the lease. *)
Definition fence_error (o : option QueueItem) : QueueError :=
  match o with
  | None => NotFound InvalidConfiguration
  | Some i => if bool_decide (qi_status i = Running) then LeaseMismatch InvalidConfiguration
              else NotRunning InvalidConfiguration
  end.

Lemma update_running_cases {A : Type} db now' id worker (update : Db → result QueueError (Db * A)) :
  db_ok db →
  (∃ i, holds_lease now' id worker i db
        ∧ update_running_item db now' id worker update = transaction db update)
  ∨ (¬ (∃ i, holds_lease now' id worker i db)
     ∧ update_running_item db now' id worker update = (db, Err (fence_error (table db !! id)))).
Proof.
  intros Hok. unfold update_running_item, transaction, get_required, holds_lease.
  rewrite get_in_tx_table by apply Hok.
  destruct (table db !! id) as [i|] eqn:Hi; rsimpl; [|right; split; [naive_solver|done]].
  simpl. case_bool_decide as Hr; simpl; [|right; split; [naive_solver|done]].
  case_bool_decide as Ho; simpl; [|right; split; [naive_solver|done]].
  destruct (qi_lease_until i) as [until|] eqn:Hu; [|right; split; [naive_solver|done]].
  destruct (until <? now') eqn:Hlt; bools.
  - right. split; [|done]. intros (j & [= <-] & _ & _ & u & Eu & ?). rewrite Hu in Eu.
    injection Eu as <-. lia.
  - left. exists i. split; [|done]. eauto 10.
Qed.

Lemma holds_lease_row now' id worker i db :
  db_ok db → holds_lease now' id worker i db →
  i ∈ db_items db ∧ qi_item_id i = id ∧ qi_status i = Running.
Proof. intros Hok (Hi & Hr & _). apply table_lookup in Hi as [? ?]; [done|apply Hok]. Qed.

Lemma update_by_id_table f id db db' j :
  db_ok db' → update_by_id f id db = Ok (db', j) → table db' !! id = Some j.
Proof.
  intros Hok. unfold update_by_id. destruct (get_required _ id) as [k| |] eqn:Eg; rsimpl; [|done..].
  intros [= <- <-]. apply ok_or_ok in Eg. by rewrite <-get_in_tx_table by apply Hok.
Qed.

Lemma sql_heartbeat_held db now0 now' now id worker i seconds d0 until :
  db_ok db → lease_deadline now0 seconds = Ok d0 → lease_deadline now seconds = Ok until →
  holds_lease now' id worker i db →
  ∃ db', heartbeat db now0 now' now id worker seconds
      = (db', [(spec_renewed until now i, None)], Ok tt)
    ∧ moves_to db db' ∧ table db' !! id = Some (spec_renewed until now i).
Proof.
  intros Hok Hd0 Hd Hh. destruct (holds_lease_row _ _ _ _ _ Hok Hh) as (Hi & Hid & Hr).
  destruct (update_by_id_ok (renewed_row until now) id i db Hok Hi Hid) as [Eu Hm];
    [by apply step_heartbeat|].
  unfold heartbeat. rewrite Hd0.
  destruct (update_running_cases db now' id worker (λ db,
    let? lease_until := lease_deadline now seconds in
    update_by_id (renewed_row lease_until now) id db) Hok) as [(j & _ & ->)|[Hno _]];
    [|exfalso; eauto].
  unfold transaction. rewrite Hd. rsimpl. rewrite Eu. eexists. split_and!; [done|done|].
  by eapply update_by_id_table; [apply Hm|].
Qed.

Lemma sql_complete_held db now now' id worker i :
  db_ok db → holds_lease now' id worker i db →
  ∃ db', complete db now now' id worker
      = (db', [(spec_released Succeeded None None now i, None)], Ok tt)
    ∧ moves_to db db' ∧ table db' !! id = Some (spec_released Succeeded None None now i).
Proof.
  intros Hok Hh. destruct (holds_lease_row _ _ _ _ _ Hok Hh) as (Hi & Hid & Hr).
  destruct (update_by_id_ok (completed_row now) id i db Hok Hi Hid) as [Eu Hm];
    [by apply step_complete|].
  unfold complete.
  destruct (update_running_cases db now' id worker (update_by_id (completed_row now) id) Hok)
    as [(j & _ & ->)|[Hno _]]; [|exfalso; eauto].
  unfold transaction. rewrite Eu. eexists. split_and!; [done|done|].
  by eapply update_by_id_table; [apply Hm|].
Qed.

Definition failure_run_after (now : DateTime) (f : Failure) : result QueueError DateTime :=
  match f_run_after f with Some t => Ok t | None => add_seconds now 1 end.

(** Status and outcome of a recorded failure. *)
Definition fail_decision (f : Failure) (exhausted : bool) : QueueStatus * FailOutcome :=
  match f_run_after f with
  | None => (Stopped, FailStopped)
  | Some _ => if exhausted then (Dead, MovedToDead) else (Failed, RetryScheduled)
  end.

Lemma failed_row_step f exhausted run_after now i :
  qi_status i = Running → exhausted = (qi_max_attempts i <=? qi_attempt i) →
  item_step i (failed_row (fail_decision f exhausted).1 run_after f now i).
Proof.
  intros Hr ->.
  assert (∀ st, failed_row st run_after f now i
    = spec_released st (Some (f_error f)) (f_error_class f) now (with_run_after run_after i)) as E
    by (by destruct i).
  rewrite E. unfold fail_decision. destruct (f_run_after f); [|by apply step_stop].
  destruct (qi_max_attempts i <=? qi_attempt i) eqn:He; bools.
  - apply step_exhaust; [done|]. unfold attempts_left. lia.
  - by apply step_retry.
Qed.

Lemma sql_fail_with_held db now now' id worker i f run_after :
  db_ok db → failure_run_after now f = Ok run_after → holds_lease now' id worker i db →
  let d := fail_decision f (qi_max_attempts i <=? qi_attempt i) in
  let j := failed_row d.1 run_after f now i in
  ∃ db', fail_with db now now' id worker f = (db', [(j, Some (f_error f))], Ok d.2)
    ∧ moves_to db db' ∧ table db' !! id = Some j.
Proof.
  intros Hok Hra Hh. destruct (holds_lease_row _ _ _ _ _ Hok Hh) as (Hi & Hid & Hr).
  set (d := fail_decision f (qi_max_attempts i <=? qi_attempt i)). cbv zeta. fold d.
  destruct (update_by_id_ok (failed_row d.1 run_after f now) id i db Hok Hi Hid) as [Eu Hm];
    [by apply failed_row_step|].
  unfold fail_with. unfold failure_run_after in Hra. rewrite Hra.
  match goal with |- context [update_running_item db now' id worker ?u] =>
    destruct (update_running_cases db now' id worker u Hok) as [(k & Hk & ->)|[Hno _]];
      [|exfalso; eauto] end.
  unfold transaction, get_required at 1.
  rewrite (proj2 (get_in_tx_some db id i (ok_ids _ Hok)) (conj Hi Hid)). rsimpl.
  assert (match f_run_after f with
          | Some _ => if qi_max_attempts i <=? qi_attempt i then Dead else Failed
          | None => Stopped end = d.1) as -> by (unfold d, fail_decision; by repeat case_match).
  rewrite Eu. rsimpl. eexists. split_and!; [|done|by eapply update_by_id_table; [apply Hm|]].
  do 2 f_equal. unfold d, fail_decision. by repeat case_match.
Qed.

Lemma heartbeat_ok db now0 now' now id worker seconds :
  db_ok db → moves_to db (heartbeat db now0 now' now id worker seconds).1.1.
Proof.
  intros Hok. destruct (lease_deadline now0 seconds) as [d0| |] eqn:Hd0;
    [|unfold heartbeat; rewrite Hd0; by apply moves_to_refl..].
  unfold heartbeat. rewrite Hd0.
  match goal with |- context [update_running_item db now' id worker ?u] =>
    destruct (update_running_cases db now' id worker u Hok) as [(i & Hh & ->)|[_ ->]];
      [|by apply moves_to_refl] end.
  destruct (lease_deadline now seconds) as [until| |] eqn:Hd;
    [|unfold transaction; by apply moves_to_refl..].
  destruct (holds_lease_row _ _ _ _ _ Hok Hh) as (Hi & Hid & Hr).
  destruct (update_by_id_ok (renewed_row until now) id i db Hok Hi Hid) as [Eu Hm];
    [by apply step_heartbeat|].
  unfold transaction. rsimpl. by rewrite Eu.
Qed.

Lemma complete_ok db now now' id worker :
  db_ok db → moves_to db (complete db now now' id worker).1.1.
Proof.
  intros Hok.
  destruct (update_running_cases db now' id worker (update_by_id (completed_row now) id) Hok)
    as [(i & Hh & _)|[_ E]].
  - by destruct (sql_complete_held db now now' id worker i Hok Hh) as (db' & -> & Hm & _).
  - unfold complete. rewrite E. by apply moves_to_refl.
Qed.

Lemma fail_with_ok db now now' id worker f :
  db_ok db → moves_to db (fail_with db now now' id worker f).1.1.
Proof.
  intros Hok. destruct (failure_run_after now f) as [ra| |] eqn:Hra;
    [|unfold failure_run_after in Hra; unfold fail_with; rewrite Hra; by apply moves_to_refl..].
  destruct (update_running_cases (A := unit) db now' id worker (λ db, Ok (db, tt)) Hok)
    as [(i & Hh & _)|[Hno _]].
  - by destruct (sql_fail_with_held db now now' id worker i f ra Hok Hra Hh) as (db' & -> & Hm & _).
  - unfold fail_with. unfold failure_run_after in Hra. rewrite Hra.
    match goal with |- context [update_running_item db now' id worker ?u] =>
      destruct (update_running_cases db now' id worker u Hok) as [(i & Hh & _)|[_ ->]];
        [exfalso; eauto|by apply moves_to_refl] end.
Qed.

Lemma fail_ok db now0 now now' id worker e retry :
  db_ok db → moves_to db (fail db now0 now now' id worker e retry).1.1.
Proof.
  intros Hok. unfold fail. destruct (fail_run_after now0 retry);
    [by apply fail_with_ok|by apply moves_to_refl..].
Qed.

(** ** Enqueue *)

Definition width_ok (r : EnqueueRequest) : Prop :=
  ∀ n, er_max_attempts r = Some n → 0 ≤ n ≤ u32_max.

Lemma sql_new_item_fresh now uuid r : width_ok r → fresh_item (new_item now uuid r).
Proof.
  intros Hm. unfold fresh_item, new_item. simpl. split_and!; try done; [lia|].
  destruct (er_max_attempts r) as [n|] eqn:E; simpl; [specialize (Hm n E)|]; unfold u32_max in *; lia.
Qed.

Lemma retire_replaced_ok replacing db : db_ok db → moves_to db (retire_replaced replacing db).
Proof.
  intros Hok. destruct replacing as [current|]; [|by apply moves_to_refl].
  apply update_rows_ok; [done|]. intros x _ Hp. bools. by apply step_replaced.
Qed.

Lemma violates_false db item :
  violates db item = false →
  (∀ i, i ∈ db_items db → qi_item_id i ≠ qi_item_id item)
  ∧ ∀ i key, i ∈ db_items db → qi_idempotency_key item = Some key → is_active (qi_status item) = true →
      qi_queue_id i = qi_queue_id item → qi_idempotency_key i = Some key →
      is_active (qi_status i) = false.
Proof.
  intros Hv. unfold violates in Hv. rewrite <-not_true_iff_false, existsb_exists in Hv.
  split; [intros i Hi Hid|intros i key Hi Hk Hp Hq Hki].
  - apply Hv. exists i. split; [by apply list_elem_of_In|]. unfold has_id. by rewrite bool_decide_true.
  - apply not_true_is_false. intros Ha. apply Hv. exists i. split; [by apply list_elem_of_In|].
    rewrite Hk, Ha, Hp. unfold has_key. rewrite !bool_decide_true by done. by rewrite orb_true_r.
Qed.

Lemma insert_row_ok db item :
  db_ok db → fresh_item item → violates db item = false →
  lawful db (set_rows (db_items db ++ [item]) db).
Proof.
  intros [Hnd Hwf Huq] Hf Hv. destruct (violates_false _ _ Hv) as [Hid Hkey].
  assert (NoDup (qi_item_id <$> db_items db ++ [item])) as Hnd'.
  { rewrite fmap_app. apply NoDup_app. split_and!; [done| |apply NoDup_singleton].
    intros x (i & -> & Hi)%list_elem_of_fmap. csimpl. rewrite list_elem_of_singleton. by apply Hid. }
  split.
  - split; simpl; [done| |].
    + intros i [Hi|Hi%list_elem_of_singleton]%elem_of_app; [by apply Hwf|subst; by apply fresh_item_wf].
    + intros i j key [Hi|Hi%list_elem_of_singleton]%elem_of_app
        [Hj|Hj%list_elem_of_singleton]%elem_of_app Ha Hb Hq Hk Hk'; subst; [by eapply Huq| | |done].
      * by rewrite (Hkey i key) in Ha.
      * by rewrite (Hkey j key) in Hb.
  - intros id. destruct (decide (id = qi_item_id item)) as [->|Hne].
    + assert (table db !! qi_item_id item = None) as -> by (by apply table_none).
      assert (table (set_rows (db_items db ++ [item]) db) !! qi_item_id item = Some item) as ->.
      { apply table_lookup; [done|]. simpl. split; [|done]. apply elem_of_app. right.
        by apply list_elem_of_singleton. }
      by constructor.
    + assert (table (set_rows (db_items db ++ [item]) db) !! id = table db !! id) as ->;
        [|apply moved_evolves, moved_refl].
      apply option_eq. intros i. rewrite !table_lookup by done. simpl.
      rewrite elem_of_app, list_elem_of_singleton. naive_solver.
Qed.

(** The retiring update drops no row, so creation after it is creation. *)
Lemma retire_replaced_rows replacing db id :
  db_ok db → table (retire_replaced replacing db) !! id = None → table db !! id = None.
Proof.
  intros Hok. pose proof (retire_replaced_ok replacing db Hok) as [Hok' _].
  rewrite !table_none by (apply Hok || apply Hok').
  destruct replacing as [current|]; simpl; [|done].
  intros Hn i Hi. set (p := λ i, has_id current i && bool_decide (qi_status i = Failed)).
  specialize (Hn _ (proj2 (elem_of_update_where p _ _ _) (ex_intro _ i (conj Hi eq_refl)))).
  by destruct (p i).
Qed.

Lemma moves_to_then_lawful db1 db2 db3 :
  moves_to db1 db2 → lawful db2 db3 → (∀ id, table db2 !! id = None → table db1 !! id = None) →
  lawful db1 db3.
Proof.
  intros [_ Hm] [Hok Hev] Hnone. split; [done|]. intros id.
  specialize (Hm id). specialize (Hev id). specialize (Hnone id). revert Hev Hnone.
  destruct Hm as [|i j Hij|i j Hij Ht]; intros Hev Hnone; [done| |by specialize (Hnone eq_refl)].
  inversion Hev as [| |? k Hjk|? k Hjk Hk]; simplify_eq.
  - constructor. by etrans.
  - eapply evolves_forgotten; [by etrans|done].
Qed.

Lemma insert_new_ok now uuid r replacing db db' o :
  db_ok db → width_ok r → insert_new now uuid r replacing db = Ok (db', o) → lawful db db'.
Proof.
  intros Hok Hw. unfold insert_new. pose proof (retire_replaced_ok replacing db Hok) as Hm.
  pose proof (retire_replaced_rows replacing db) as Hrows.
  destruct (violates (retire_replaced replacing db) (new_item now uuid r)) eqn:Hv.
  - destruct (_ ≫= _) as [e|]; [|done]. intros [= <- <-]. by apply moves_to_lawful.
  - intros [= <- <-]. eapply moves_to_then_lawful; [exact Hm| |auto].
    apply insert_row_ok; [apply Hm|by apply sql_new_item_fresh|done].
Qed.

Lemma enqueue_inner_ok db now uuid r replacing :
  db_ok db → width_ok r → lawful db (enqueue_inner db now uuid r replacing).1.1.
Proof.
  intros Hok Hw. pose proof (moves_to_lawful _ _ (moves_to_refl db Hok)) as Hrefl.
  unfold enqueue_inner. destruct (blank (er_kind r)); [done|]. unfold transaction.
  assert (∀ x, (∀ db' o, x = Ok (db', o) → lawful db db') →
    lawful db (match x with Ok (db', a) => (db', Ok a) | Err e => (db, Err e)
               | Panic => (db, Panic) end : Db * result QueueError EnqueueOutcome).1) as Htx.
  { intros [[db' o]| |] Hx; [by eapply Hx|done..]. }
  match goal with |- context [match ?x with Ok _ => _ | Err _ => _ | Panic => _ end] =>
    specialize (Htx x); destruct (match x with Ok (db', a) => (db', Ok a) | Err e => (db, Err e)
               | Panic => (db, Panic) end : Db * result QueueError EnqueueOutcome) as [db2 o2] end.
  cbn [fst] in *. apply Htx. clear Htx. intros db' o.
  destruct (_ ≫= _) as [e|]; [|by apply insert_new_ok].
  destruct (answers r replacing e); [by intros [= <- <-]|by apply insert_new_ok].
Qed.

Lemma note_cooldown_ok db now queue_id until : db_ok db → moves_to db (note_cooldown db now queue_id until).
Proof. intros [H1 H2 H3]. by split. Qed.

(** ** Any call *)

Definition sql_env (c : sql_call) : Prop :=
  match c with
  | SqlEnqueue _ _ r | SqlEnqueueReplacing _ _ r _ => width_ok r
  | _ => True
  end.

Lemma sql_exec_ok db c : db_ok db → sql_env c → lawful db (sql_exec db c).
Proof.
  intros Hok Henv. destruct c; cbn [sql_exec sql_env] in *;
    first [by apply enqueue_inner_ok | apply moves_to_lawful];
    eauto using claim_ok, claim_item_ok, heartbeat_ok, complete_ok, fail_ok, fail_with_ok,
      note_cooldown_ok, mark_stale_ok, retire_stale_ok, prune_ok.
  unfold reclaim_expired_leases. pose proof (reclaim_ok db queue_id now Hok).
  by destruct (reclaim_expired_in_tx db queue_id now).
Qed.

Lemma empty_db_ok : db_ok empty_db.
Proof. split; simpl; [constructor|set_solver..]. Qed.

(** The SQLite queue as a backend of [QueueSpec]. *)
#[global] Instance sqlite_backend : Backend Db sql_call := {
  backend_items db := table db;
  backend_step := sql_exec;
  backend_ok := db_ok;
  backend_env _ c := sql_env c;
}.

#[global] Instance sqlite_backend_laws : BackendLaws Db sql_call.
Proof.
  split; simpl.
  - intros db c Hok He. apply (sql_exec_ok db c Hok He).
  - intros db c id Hok He. apply (sql_exec_ok db c Hok He).
  - intros db id i Hok Hi. apply table_lookup in Hi as [Hi ?]; [|apply Hok].
    split; [by apply (ok_wf _ Hok)|done].
Qed.

End Proofs.
