(* ===== verification/SqliteQueueClaims.v ===== *)
(** Claims of the SQLite backend: which rows a claim leases, and how many
    items of a queue run at once. *)

From Stdlib Require Import ZArith Lia.
From stdpp Require Import base gmap strings list fin_maps sorting relations.
From S2P Require Import Prelude Core QueueTypes QueueSpec SqliteQueue SqliteQueueProofs.

#[local] Open Scope Z_scope.

(** ** One row replaced *)

(** Updating the only row [p] matches replaces that row and no other. *)
Lemma update_one_perm p f (l : list QueueItem) i :
  NoDup (qi_item_id <$> l) → i ∈ l → p i = true →
  (∀ x, x ∈ l → p x = true → qi_item_id x = qi_item_id i) →
  ∃ l0, l ≡ₚ i :: l0 ∧ update_where p f l ≡ₚ f i :: l0 ∧ length (select_where p l) = 1%nat.
Proof.
  intros Hnd Hi Hp Hid. apply elem_of_Permutation in Hi as [l0 Hl]. exists l0.
  assert (NoDup (qi_item_id <$> i :: l0)) as Hnd' by (by rewrite <-Hl).
  assert (∀ x, x ∈ l0 → p x = false) as Hno.
  { intros x Hx. destruct (p x) eqn:Hpx; [|done]. csimpl in Hnd'. apply NoDup_cons in Hnd' as [Hn _].
    exfalso. apply Hn. rewrite <-(Hid x), list_elem_of_fmap; [eauto| |done]. rewrite Hl. by right. }
  split_and!; [done| |].
  - unfold update_where. rewrite Hl. csimpl. rewrite Hp. f_equiv.
    enough (((λ x, if p x then f x else x) <$> l0) = l0) as -> by done.
    rewrite <-(list_fmap_id l0) at 2. apply list_fmap_ext. intros n x Hx%list_elem_of_lookup_2.
    by rewrite (Hno x).
  - unfold select_where. rewrite Hl, filter_cons_True by done.
    fold (select_where p l0). by rewrite select_where_none.
Qed.

Section Claims.
Context `{!Chrono} `{!SqlOrder}.

Lemma lease_one_spec worker until now i db :
  db_ok db → i ∈ db_items db → is_waiting (qi_status i) = true → attempts_left i →
  ∃ db' l0, lease_one worker until now (qi_item_id i) db = (db', [leased_row worker until now i])
    ∧ db_ok db' ∧ db_cooldowns db' = db_cooldowns db
    ∧ db_items db ≡ₚ i :: l0 ∧ db_items db' ≡ₚ leased_row worker until now i :: l0.
Proof.
  intros Hok Hi Hw Hl. pose proof (lease_one_ok worker until now (qi_item_id i) db Hok) as [Hok' _].
  unfold lease_one in *. cbn [fst] in Hok'.
  set (p := λ j, has_id (qi_item_id i) j && is_waiting (qi_status j)
                 && (qi_attempt j <? qi_max_attempts j)) in *.
  destruct (update_one_perm p (leased_row worker until now) (db_items db) i (ok_ids _ Hok) Hi)
    as (l0 & Hp1 & Hp2 & Hlen).
  { unfold p, has_id. rewrite bool_decide_true, Hw by done. by apply Z.ltb_lt. }
  { intros x _ Hx. unfold p, has_id in Hx. by bools. }
  eexists _, l0. split_and!; [|done|done|done|done].
  f_equal. rewrite Hlen. simpl.
  assert (get_in_tx (set_rows (update_where p (leased_row worker until now) (db_items db)) db)
    (qi_item_id i) = Some (leased_row worker until now i)) as ->; [|done].
  apply get_in_tx_some; [apply Hok'|]. simpl. split; [|done]. rewrite Hp2. left.
Qed.

(** Leasing a list of claimable rows replaces exactly those rows. *)
Lemma lease_ids_spec worker until now served db :
  db_ok db → NoDup (qi_item_id <$> served) →
  (∀ i, i ∈ served → i ∈ db_items db ∧ is_waiting (qi_status i) = true ∧ attempts_left i) →
  ∃ db' l0, lease_ids worker until now (qi_item_id <$> served) db
      = (db', leased_row worker until now <$> served)
    ∧ db_items db ≡ₚ served ++ l0
    ∧ db_items db' ≡ₚ (leased_row worker until now <$> served) ++ l0.
Proof.
  revert db. induction served as [|i served IH]; intros db Hok Hnd Hall.
  { by exists db, (db_items db). }
  rewrite !fmap_cons in *. cbn [lease_ids]. apply NoDup_cons in Hnd as [Hni Hnd].
  destruct (Hall i ltac:(left)) as (Hi & Hw & Hl).
  destruct (lease_one_spec worker until now i db Hok Hi Hw Hl) as (db1 & l1 & E1 & Hok1 & _ & P1 & P2).
  destruct (IH db1 Hok1 Hnd) as (db' & l2 & E2 & P3 & P4).
  { intros x Hx. destruct (Hall x ltac:(by right)) as (Hxin & ? & ?). split_and!; try done.
    rewrite P2. right. rewrite P1 in Hxin. apply elem_of_cons in Hxin as [->|?]; [|done].
    exfalso. apply Hni. by apply list_elem_of_fmap_2. }
  rewrite E1, E2.
  assert (leased_row worker until now i ∈ l2) as Hin.
  { assert (leased_row worker until now i ∈ served ++ l2) as Hin by (rewrite <-P3, P2; left).
    apply elem_of_app in Hin as [Hin|Hin]; [|done].
    exfalso. apply Hni. apply list_elem_of_fmap. by exists (leased_row worker until now i). }
  apply elem_of_Permutation in Hin as [l0 P5]. exists db', l0. split_and!; [done| |].
  - rewrite P1. simpl. f_equiv. rewrite P2, P5, <-Permutation_middle in P3.
    by apply Permutation_cons_inv in P3.
  - rewrite P4, P5. simpl. by rewrite <-Permutation_middle.
Qed.

(** The rows a claim serves from the tables its reclaiming left. *)
Definition served_rows (limit : Z) (queue_id : string) (now : DateTime) (db : Db) : list QueueItem :=
  sql_limit (u64_as_i64 limit)
    (order_by due_first _ (select_where (ready queue_id now) (db_items db))).

Lemma sql_limit_app {A : Type} n (l : list A) : ∃ rest, l = sql_limit n l ++ rest.
Proof.
  unfold sql_limit. destruct (n <? 0); [exists []; by rewrite app_nil_r|].
  exists (drop (Z.to_nat n) l). by rewrite take_drop.
Qed.

Lemma served_rows_ready limit queue_id now db i :
  i ∈ served_rows limit queue_id now db →
  i ∈ db_items db ∧ ready queue_id now i = true.
Proof.
  intros Hi. unfold served_rows in Hi.
  destruct (sql_limit_app (u64_as_i64 limit)
    (order_by due_first _ (select_where (ready queue_id now) (db_items db)))) as [rest E].
  apply elem_of_select_where. rewrite <-(order_by_perm due_first _), E. apply elem_of_app. by left.
Qed.

Lemma served_rows_nodup limit queue_id now db :
  db_ok db → NoDup (qi_item_id <$> served_rows limit queue_id now db).
Proof.
  intros Hok. unfold served_rows.
  destruct (sql_limit_app (u64_as_i64 limit)
    (order_by due_first _ (select_where (ready queue_id now) (db_items db)))) as [rest E].
  assert (NoDup (qi_item_id <$> order_by due_first _ (select_where (ready queue_id now) (db_items db))))
    as Hnd.
  { rewrite order_by_perm. eapply sublist_NoDup; [apply Hok|]. apply fmap_sublist, sublist_filter. }
  rewrite E, fmap_app in Hnd. by apply NoDup_app in Hnd as [? _].
Qed.

(** A claim past its guards and below the cap. *)
Lemma claim_served db now now' r until limit :
  db_ok db → blank (cr_worker_id r) = false →
  lease_deadline now (cr_lease_seconds r) = Ok until →
  cooldown_active db (cr_queue_id r) now' = false →
  let db1 := (reclaim_expired_in_tx db (cr_queue_id r) now).1 in
  room (Z.max (cr_limit r) 1) (cr_max_in_flight r) (running_rows db1 (cr_queue_id r)) = Some limit →
  let served := served_rows limit (cr_queue_id r) now db1 in
  let claimed := leased_row (cr_worker_id r) until now <$> served in
  ∃ db' l0, claim db now now' r = (db', (λ i, (i, None)) <$> claimed, Ok claimed)
    ∧ db_items db1 ≡ₚ served ++ l0 ∧ db_items db' ≡ₚ claimed ++ l0.
Proof.
  intros Hok Hb Hd Hc db1 Hroom served claimed.
  pose proof (reclaim_ok db (cr_queue_id r) now Hok) as [Hok1 _]. fold db1 in Hok1.
  destruct (lease_ids_spec (cr_worker_id r) until now served db1 Hok1) as (db' & l0 & El & P1 & P2).
  { by apply served_rows_nodup. }
  { intros i [Hi Hr]%served_rows_ready. unfold ready in Hr. bools. done. }
  exists db', l0. split; [|done].
  unfold claim. rewrite Hb, Hd, Hc. unfold db1 in *.
  destruct (reclaim_expired_in_tx db (cr_queue_id r) now) as [db2 n]. cbn [fst] in *.
  rewrite Hroom. unfold served, served_rows in El. rewrite El. done.
Qed.

(** ** Running rows *)

Definition runs_in (queue_id : string) (i : QueueItem) : bool :=
  bool_decide (qi_queue_id i = queue_id) && bool_decide (qi_status i = Running).

(** How many rows of [l] run in the queue. *)
Definition count_runs (queue_id : string) (l : list QueueItem) : Z :=
  Z.of_nat (length (select_where (runs_in queue_id) l)).

Lemma running_rows_count db queue_id : running_rows db queue_id = count_runs queue_id (db_items db).
Proof. done. Qed.

Lemma count_runs_perm queue_id l k : l ≡ₚ k → count_runs queue_id l = count_runs queue_id k.
Proof. intros Hp. unfold count_runs, select_where. by rewrite Hp. Qed.

Lemma count_runs_app queue_id l k :
  count_runs queue_id (l ++ k) = count_runs queue_id l + count_runs queue_id k.
Proof. unfold count_runs, select_where. rewrite filter_app, length_app. lia. Qed.

Lemma count_runs_cons queue_id i l :
  count_runs queue_id (i :: l) = (if runs_in queue_id i then 1 else 0) + count_runs queue_id l.
Proof.
  unfold count_runs, select_where. destruct (runs_in queue_id i) eqn:E.
  - rewrite filter_cons_True by done. simpl. lia.
  - rewrite filter_cons_False by congruence. lia.
Qed.

Lemma count_runs_none queue_id l : (∀ x, x ∈ l → runs_in queue_id x = false) → count_runs queue_id l = 0.
Proof. intros Hno. unfold count_runs. by rewrite select_where_none. Qed.

(** An update that starts no row running. *)
Lemma update_count_runs queue_id p f l :
  (∀ x, x ∈ l → p x = true → runs_in queue_id (f x) = true → runs_in queue_id x = true) →
  count_runs queue_id (update_where p f l) ≤ count_runs queue_id l.
Proof.
  unfold update_where. induction l as [|x l IH]; intros Hf; csimpl; [done|].
  rewrite !count_runs_cons. specialize (IH (λ y Hy, Hf y ltac:(by right))).
  specialize (Hf x ltac:(left)). destruct (p x); [|lia].
  destruct (runs_in queue_id (f x)); [rewrite Hf by done|]; [lia|]. destruct (runs_in queue_id x); lia.
Qed.

Lemma select_count_runs queue_id p l :
  count_runs queue_id (select_where p l) ≤ count_runs queue_id l.
Proof.
  induction l as [|x l IH]; [done|]. unfold select_where in *. rewrite (count_runs_cons queue_id x l).
  destruct (p x) eqn:Hp.
  - rewrite filter_cons_True by done. rewrite count_runs_cons. lia.
  - rewrite filter_cons_False by congruence. destruct (runs_in queue_id x); lia.
Qed.

Lemma reclaim_runs db queue_id now q :
  running_rows (reclaim_expired_in_tx db queue_id now).1 q ≤ running_rows db q.
Proof.
  rewrite !running_rows_count. apply update_count_runs. intros x _ _. unfold runs_in. simpl.
  case_match; intros; by bools.
Qed.

(** The cap bounds what a claim may add. *)
Lemma room_bound limit k running n :
  0 ≤ running → 1 ≤ limit → 0 ≤ k ≤ u64_max → room limit (Some k) running = Some n →
  running < k ∧ 0 ≤ n ≤ i64_max ∧ running + n ≤ k.
Proof.
  intros Hr Hl Hk. unfold room. destruct (u64_as_i64 k <=? running) eqn:E; [done|].
  intros [= <-]. bools. unfold u64_as_i64, saturating_sub in *.
  destruct (k <=? i64_max) eqn:E2; bools; unfold i64_max, u64_max in *; lia.
Qed.

Lemma length_served limit queue_id now db :
  0 ≤ limit ≤ i64_max → Z.of_nat (length (served_rows limit queue_id now db)) ≤ limit.
Proof.
  intros Hl. unfold served_rows, sql_limit, u64_as_i64.
  rewrite (proj2 (Z.leb_le _ _)) by lia. rewrite (proj2 (Z.ltb_ge _ _)) by lia.
  rewrite length_take. lia.
Qed.

Lemma claim_runs db now now' r q cap :
  db_ok db → (cr_queue_id r = q → ∃ k, cr_max_in_flight r = Some k ∧ 0 ≤ k ≤ cap ∧ k ≤ u64_max) →
  running_rows (claim db now now' r).1.1 q ≤ Z.max cap (running_rows db q).
Proof.
  intros Hok Hcap. unfold claim. destruct (blank (cr_worker_id r)) eqn:Hb; [simpl; lia|].
  destruct (lease_deadline now (cr_lease_seconds r)) as [until| |] eqn:Hd; [|simpl; lia..].
  destruct (cooldown_active db (cr_queue_id r) now') eqn:Hc; [simpl; lia|].
  pose proof (claim_served db now now' r until) as Hclaim.
  pose proof (reclaim_runs db (cr_queue_id r) now q) as Hrec. unfold claim in Hclaim.
  rewrite Hb, Hd, Hc in Hclaim.
  destruct (reclaim_expired_in_tx db (cr_queue_id r) now) as [db1 n]. cbn [fst] in *.
  destruct (room _ _ _) as [limit|] eqn:Hroom; [|cbn [fst]; lia].
  destruct (Hclaim limit Hok eq_refl eq_refl eq_refl eq_refl) as (db' & l0 & E & P1 & P2).
  rewrite E. cbn [fst]. rewrite running_rows_count, (count_runs_perm _ _ _ P2), count_runs_app.
  rewrite running_rows_count, (count_runs_perm _ _ _ P1), count_runs_app in Hrec.
  set (served := served_rows limit (cr_queue_id r) now db1) in *.
  assert (0 ≤ count_runs q served) by (unfold count_runs; lia).
  destruct (decide (cr_queue_id r = q)) as [<-|Hne].
  - destruct (Hcap eq_refl) as (k & Hk & Hkc & Hku). rewrite Hk in Hroom.
    assert (count_runs (cr_queue_id r) (leased_row (cr_worker_id r) until now <$> served)
      ≤ Z.of_nat (length served)) as Hlen.
    { unfold count_runs, select_where.
      pose proof (length_filter (λ x, runs_in (cr_queue_id r) x = true)
        (leased_row (cr_worker_id r) until now <$> served)) as Hl. rewrite length_fmap in Hl. lia. }
    assert (count_runs (cr_queue_id r) l0 ≤ running_rows db1 (cr_queue_id r)) as Hl0.
    { rewrite running_rows_count, (count_runs_perm _ _ _ P1), count_runs_app. lia. }
    destruct (room_bound (Z.max (cr_limit r) 1) k (running_rows db1 (cr_queue_id r)) limit
      ltac:(unfold running_rows; lia) ltac:(lia) ltac:(lia) Hroom) as (_ & Hlim & Hb2).
    pose proof (length_served limit (cr_queue_id r) now db1 Hlim) as Hs. fold served in Hs. lia.
  - rewrite (count_runs_none q (leased_row _ _ _ <$> served)); [lia|].
    intros x (i & -> & Hi)%list_elem_of_fmap. apply served_rows_ready in Hi as [_ Hr].
    unfold ready in Hr. bools. unfold runs_in. simpl. rewrite bool_decide_false; [done|congruence].
Qed.

Lemma claim_refreshed_runs db now until id worker db' o q :
  db_ok db → claim_refreshed db now until id worker = Ok (db', o) →
  running_rows db' q ≤ running_rows db q
  ∨ running_rows db' q = running_rows db q + 1
    ∧ ∃ i, get_in_tx db id = Some i ∧ qi_queue_id i = q.
Proof.
  intros Hok. unfold claim_refreshed, get_required at 1.
  destruct (get_in_tx db id) as [i|] eqn:Hg; rsimpl; [|done].
  pose proof (proj1 (get_in_tx_some db id i (ok_ids _ Hok)) Hg) as [Hi Hid].
  destruct (is_waiting (qi_status i) && (qi_max_attempts i <=? qi_attempt i)).
  { intros [= <- <-]. left. rewrite !running_rows_count. apply update_count_runs.
    intros x _ _. unfold runs_in. simpl. rewrite andb_false_r. done. }
  destruct (negb (is_waiting (qi_status i)) || (now <? qi_run_after i)) eqn:Hw;
    [intros [= <- <-]; left; lia|]. bools.
  set (p := λ j, has_id id j && is_waiting (qi_status j)).
  destruct (update_one_perm p (leased_row worker until now) (db_items db) i (ok_ids _ Hok) Hi)
    as (l0 & P1 & P2 & Hlen).
  { unfold p, has_id. by rewrite bool_decide_true. }
  { intros x _ Hx. unfold p, has_id in Hx. bools. congruence. }
  assert (∀ d, db_items d = update_where p (leased_row worker until now) (db_items db) →
    running_rows d q ≤ running_rows db q
    ∨ running_rows d q = running_rows db q + 1 ∧ ∃ i0, Some i = Some i0 ∧ qi_queue_id i0 = q) as Hgo.
  { intros d Hdb. rewrite !running_rows_count, Hdb, (count_runs_perm _ _ _ P2),
      (count_runs_perm _ _ _ P1), !count_runs_cons.
    assert (runs_in q i = false) as ->.
    { unfold runs_in. rewrite (bool_decide_false (qi_status i = Running)) by (by apply waiting_not_running).
      by rewrite andb_false_r. }
    assert (runs_in q (leased_row worker until now i) = bool_decide (qi_queue_id i = q)) as ->
      by apply andb_true_r.
    case_bool_decide as Hq; [right|left; lia].
    split; [lia|eauto]. }
  destruct (negb (length (select_where p (db_items db)) =? 1)%nat); [intros [= <- <-]; by apply Hgo|].
  destruct (get_required _ id); rsimpl; [|done..]. intros [= <- <-]. by apply Hgo.
Qed.

Lemma claim_item_runs db now now' id worker seconds k q cap :
  db_ok db → 0 ≤ k ≤ cap → k ≤ u64_max →
  running_rows (claim_item db now now' id worker seconds (Some k)).1.1 q
  ≤ Z.max cap (running_rows db q).
Proof.
  intros Hok Hk Hu. unfold claim_item. destruct (blank worker); [simpl; lia|].
  destruct (lease_deadline now seconds) as [until| |]; [|simpl; lia..].
  unfold transaction, get_required. rewrite get_in_tx_table by apply Hok.
  destruct (table db !! id) as [i|] eqn:Hi; rsimpl; [|simpl; lia].
  destruct (cooldown_active db (qi_queue_id i) now'); [simpl; lia|].
  pose proof (reclaim_ok db (qi_queue_id i) now Hok) as [Hok1 Hm1].
  pose proof (reclaim_runs db (qi_queue_id i) now q) as Hrec.
  destruct (reclaim_expired_in_tx db (qi_queue_id i) now) as [db1 n]. cbn [fst] in *.
  destruct (room 1 (Some k) (running_rows db1 (qi_queue_id i))) as [lim|] eqn:Hroom; [|cbn [fst]; lia].
  destruct (claim_refreshed db1 now until id worker) as [[db' o]| |] eqn:Hc; [|simpl; lia..].
  cbn [fst]. destruct (claim_refreshed_runs db1 now until id worker db' o q Hok1 Hc)
    as [|[Hr (j & Hj & Hq)]]; [lia|].
  assert (qi_queue_id j = qi_queue_id i) as E.
  { rewrite get_in_tx_table in Hj by apply Hok1. specialize (Hm1 id). rewrite Hi, Hj in Hm1.
    inversion Hm1 as [|? ? Hs|]; simplify_eq. by apply item_steps_identity in Hs as (_ & ? & _). }
  destruct (room_bound 1 k (running_rows db1 (qi_queue_id i)) lim
    ltac:(unfold running_rows; lia) ltac:(lia) ltac:(lia) Hroom) as (Hlt & _).
  rewrite E in Hq. subst q. lia.
Qed.

End Claims.
