(* ===== verification/SqliteQueueTheorems.v ===== *)
(** The theorems about the SQLite backend, each with an instance on concrete
    tables. *)

From Stdlib Require Import ZArith Lia Ascii.
From stdpp Require Import base gmap strings list fin_maps sorting relations.
From S2P Require Import Prelude Core QueueTypes QueueSpec SqliteQueue SqliteQueueProofs.
From S2P Require Import SqliteQueueClaims.

#[local] Open Scope Z_scope.

Section Theorems.
Context `{!Chrono} `{!SqlOrder}.

(** ** Running rows over any call *)

(** Every claim that can reach [queue_id] names a cap of at most [cap]. *)
Definition capped (queue_id : string) (cap : Z) (c : sql_call) : Prop :=
  match c with
  | SqlClaim _ _ r =>
      cr_queue_id r = queue_id → ∃ k, cr_max_in_flight r = Some k ∧ 0 ≤ k ≤ cap ∧ k ≤ u64_max
  | SqlClaimItem _ _ _ _ _ max_in_flight => ∃ k, max_in_flight = Some k ∧ 0 ≤ k ≤ cap ∧ k ≤ u64_max
  | _ => True
  end.

(** An update by a function that does not change the queue and leaves no row
    running that did not run. *)
Lemma update_runs_le p f db q :
  (∀ x, qi_queue_id (f x) = qi_queue_id x) → (∀ x, qi_status (f x) = Running → qi_status x = Running) →
  running_rows (set_rows (update_where p f (db_items db)) db) q ≤ running_rows db q.
Proof.
  intros Hq Hr. rewrite !running_rows_count. apply update_count_runs. intros x _ _.
  unfold runs_in. rewrite Hq. intros. bools. rewrite !bool_decide_true by auto. done.
Qed.

Lemma update_running_runs {A : Type} db now' id worker (update : Db → result QueueError (Db * A)) q :
  (∀ db' a, update db = Ok (db', a) → running_rows db' q ≤ running_rows db q) →
  running_rows (update_running_item db now' id worker update).1 q ≤ running_rows db q.
Proof.
  intros Hu. unfold update_running_item, transaction.
  destruct (get_required db id) as [i| |]; rsimpl; [|simpl; lia..].
  destruct (negb _); [simpl; lia|]. destruct (negb _); [simpl; lia|].
  destruct (match qi_lease_until i with Some _ => _ | None => _ end); [simpl; lia|].
  destruct (update db) as [[db' a]| |] eqn:E; [by eapply Hu|simpl; lia..].
Qed.

Lemma update_by_id_runs f id db db' j q :
  (∀ x, qi_queue_id (f x) = qi_queue_id x) → (∀ x, qi_status (f x) = Running → qi_status x = Running) →
  update_by_id f id db = Ok (db', j) → running_rows db' q ≤ running_rows db q.
Proof.
  intros Hq Hr. unfold update_by_id. destruct (get_required _ id); rsimpl; [|done..].
  intros [= <- <-]. by apply update_runs_le.
Qed.

Lemma heartbeat_runs db now0 now' now id worker seconds q :
  running_rows (heartbeat db now0 now' now id worker seconds).1.1 q ≤ running_rows db q.
Proof.
  unfold heartbeat. destruct (lease_deadline now0 seconds); [|simpl; lia..].
  match goal with |- context [update_running_item db now' id worker ?u] =>
    pose proof (update_running_runs db now' id worker u q) as Hu;
    destruct (update_running_item db now' id worker u) as [db' [|?|]] end;
    cbn [fst] in *; apply Hu; intros d ?;
    (destruct (lease_deadline now seconds); rsimpl; [|done..]); by apply update_by_id_runs.
Qed.

Lemma complete_runs db now now' id worker q :
  running_rows (complete db now now' id worker).1.1 q ≤ running_rows db q.
Proof.
  unfold complete.
  match goal with |- context [update_running_item db now' id worker ?u] =>
    pose proof (update_running_runs db now' id worker u q) as Hu;
    destruct (update_running_item db now' id worker u) as [db' [|?|]] end;
    cbn [fst] in *; apply Hu; intros d ?; by apply update_by_id_runs.
Qed.

Lemma fail_with_runs db now now' id worker f q :
  running_rows (fail_with db now now' id worker f).1.1 q ≤ running_rows db q.
Proof.
  unfold fail_with. destruct (match f_run_after f with Some _ => _ | None => _ end) as [ra| |];
    [|simpl; lia..].
  match goal with |- context [update_running_item db now' id worker ?u] =>
    pose proof (update_running_runs db now' id worker u q) as Hu;
    destruct (update_running_item db now' id worker u) as [db' [[? ?]|?|]] end;
    cbn [fst] in *; apply Hu; intros d ?;
    (destruct (get_required db id) as [i| |]; rsimpl; [|done..]);
    (destruct (update_by_id _ id db) as [[d' j]| |] eqn:E; rsimpl; [|done..]); intros [= <- <-];
    (eapply update_by_id_runs; [| |exact E]; [done|]); intros x; simpl; by repeat case_match.
Qed.

Lemma enqueue_runs db now uuid r replacing q :
  running_rows (enqueue_inner db now uuid r replacing).1.1 q ≤ running_rows db q.
Proof.
  assert (∀ db' o, insert_new now uuid r replacing db = Ok (db', o) →
    running_rows db' q ≤ running_rows db q) as Hins.
  { intros db' o. unfold insert_new.
    assert (running_rows (retire_replaced replacing db) q ≤ running_rows db q) as Hret.
    { destruct replacing; [|simpl; lia]. by apply update_runs_le. }
    destruct (violates _ _); [destruct (_ ≫= _); [|done]; intros [= <- <-]; done|].
    intros [= <- <-]. rewrite running_rows_count. simpl.
    rewrite count_runs_app, (count_runs_cons q _ []). unfold runs_in at 1. simpl.
    rewrite andb_false_r. change (count_runs q []) with 0. rewrite running_rows_count in Hret. lia. }
  unfold enqueue_inner. destruct (blank (er_kind r)); [simpl; lia|]. unfold transaction.
  destruct (_ ≫= _) as [e|]; [destruct (answers r replacing e); [simpl; lia|]|];
    (destruct (insert_new now uuid r replacing db) as [[db' o]| |]; [|simpl; lia..]); by eapply Hins.
Qed.

Lemma sql_exec_runs db c q cap :
  db_ok db → capped q cap c → running_rows (sql_exec db c) q ≤ Z.max cap (running_rows db q).
Proof.
  intros Hok Hcap.
  assert (∀ db', running_rows db' q ≤ running_rows db q → running_rows db' q ≤ Z.max cap (running_rows db q))
    as Hle by (intros; lia).
  destruct c; cbn [sql_exec capped] in *.
  - apply Hle, enqueue_runs.
  - apply Hle, enqueue_runs.
  - by apply claim_runs.
  - destruct Hcap as (k & -> & ? & ?). by apply claim_item_runs.
  - apply Hle, heartbeat_runs.
  - apply Hle, complete_runs.
  - apply Hle. unfold fail. destruct (fail_run_after now0 retry_after_seconds);
      [apply fail_with_runs|simpl; lia..].
  - apply Hle, fail_with_runs.
  - apply Hle. unfold reclaim_expired_leases. pose proof (reclaim_runs db queue_id now q).
    by destruct (reclaim_expired_in_tx db queue_id now).
  - apply Hle. done.
  - apply Hle. by apply update_runs_le.
  - apply Hle. by apply update_runs_le.
  - apply Hle. unfold prune_terminal_before. cbn [fst]. rewrite !running_rows_count. simpl.
    apply select_count_runs.
Qed.

(** ** Theorems *)

(** C25: Whatever calls were made on a new database, the next call keeps the
    schema's constraints (unique ids, one active row per queue and key) and
    every row within its attempt budget and lease discipline, and changes rows
    only along the lifecycle of the queue contract. *)
Theorem sqlite_calls_lawful cs db c :
  backend_run empty_db cs db → sql_env c →
  db_ok (sql_exec db c) ∧ ∀ id, evolves (table db !! id) (table (sql_exec db c) !! id).
Proof.
  intros Hrun Henv. pose proof (backend_run_ok _ _ _ Hrun empty_db_ok) as Hok.
  exact (sql_exec_ok db c Hok Henv).
Qed.

#[local] Instance due_first_total : Total due_first.
Proof. intros a b. unfold due_first. lia. Qed.

#[local] Instance due_first_trans : Transitive due_first.
Proof. intros a b c. unfold due_first. lia. Qed.

(** A claim past its argument checks and the cooldown reclaims lapsed
    leases and then leases the earliest due rows of its queue, in the order
    (run_after, created_at), as many as the limit and the cap leave room for;
    exactly those rows change, each to the worker's lease with one more
    attempt. *)
Theorem sqlite_claim_serves db now now' r until limit :
  db_ok db → blank (cr_worker_id r) = false →
  lease_deadline now (cr_lease_seconds r) = Ok until →
  cooldown_active db (cr_queue_id r) now' = false →
  room (Z.max (cr_limit r) 1) (cr_max_in_flight r)
    (running_rows (reclaim_expired_in_tx db (cr_queue_id r) now).1 (cr_queue_id r)) = Some limit →
  limit ≤ i64_max →
  ∃ served rest others db',
    served ++ rest ≡ₚ select_where (ready (cr_queue_id r) now)
                        (db_items (reclaim_expired_in_tx db (cr_queue_id r) now).1)
    ∧ StronglySorted due_first (served ++ rest)
    ∧ length served = Nat.min (Z.to_nat limit) (length (served ++ rest))
    ∧ claim db now now' r
      = (db', (λ i, (i, None)) <$> (leased_row (cr_worker_id r) until now <$> served),
         Ok (leased_row (cr_worker_id r) until now <$> served))
    ∧ db_items (reclaim_expired_in_tx db (cr_queue_id r) now).1 ≡ₚ served ++ others
    ∧ db_items db' ≡ₚ (leased_row (cr_worker_id r) until now <$> served) ++ others.
Proof.
  intros Hok Hb Hd Hc Hroom Hlim.
  destruct (claim_served db now now' r until limit Hok Hb Hd Hc Hroom) as (db' & l0 & E & P1 & P2).
  set (db1 := (reclaim_expired_in_tx db (cr_queue_id r) now).1) in *.
  set (all := order_by due_first _ (select_where (ready (cr_queue_id r) now) (db_items db1))).
  destruct (Z.lt_ge_cases limit 0) as [Hneg|Hpos].
  { exfalso. revert Hroom. unfold room. destruct (cr_max_in_flight r); [case_match; [done|]|];
      intros [= <-]; unfold saturating_sub in *; lia. }
  assert (served_rows limit (cr_queue_id r) now db1 = take (Z.to_nat limit) all) as Es.
  { unfold served_rows, sql_limit, u64_as_i64. rewrite (proj2 (Z.leb_le _ _)) by lia.
    by rewrite (proj2 (Z.ltb_ge _ _)) by lia. }
  rewrite Es in *. exists (take (Z.to_nat limit) all), (drop (Z.to_nat limit) all), l0, db'.
  rewrite take_drop, length_take. split_and!; try done.
  - apply order_by_perm.
  - apply order_by_sorted; apply _.
Qed.

(** If every claim that can reach a queue names a cap of at most [cap], no
    sequence of calls on a new database ever has more than [cap] rows of the
    queue running. *)
Theorem sqlite_cap_holds cs db queue_id cap :
  backend_run empty_db cs db → 0 ≤ cap → Forall (capped queue_id cap) cs →
  running_rows db queue_id ≤ cap.
Proof.
  intros Hrun Hcap Hcs.
  enough (running_rows db queue_id ≤ Z.max cap (running_rows empty_db queue_id)) as Hle.
  { change (running_rows empty_db queue_id) with 0 in Hle. lia. }
  pose proof empty_db_ok as Hok. revert Hok. generalize dependent empty_db. intros db0 Hrun Hok.
  induction Hrun as [d|d c cs d' Henv Hrun IH]; [lia|].
  apply Forall_cons in Hcs as [Hc Hcs].
  pose proof (sql_exec_runs d c queue_id cap Hok Hc).
  specialize (IH Hcs (backend_step_ok d c Hok Henv)). simpl in IH. lia.
Qed.

(** The lease fence of the SQLite backend: a heartbeat, completion or
    failure by a caller who does not hold the row's current unexpired lease
    changes nothing, emits nothing and returns NotFound, NotRunning or
    LeaseMismatch as the row is absent, not running, or running under another
    or a lapsed lease. *)
Theorem sqlite_fence db now0 now now' id worker seconds f d0 run_after :
  db_ok db → (∀ i, holds_lease now' id worker i db → False) →
  lease_deadline now0 seconds = Ok d0 → failure_run_after now f = Ok run_after →
  let e := fence_error (table db !! id) in
  heartbeat db now0 now' now id worker seconds = (db, [], Err e)
  ∧ complete db now now' id worker = (db, [], Err e)
  ∧ fail_with db now now' id worker f = (db, [], Err e).
Proof.
  intros Hok Hno Hd Hra e.
  assert (∀ A (u : Db → result QueueError (Db * A)),
    update_running_item db now' id worker u = (db, Err e)) as Hu.
  { intros A u. destruct (update_running_cases db now' id worker u Hok) as [(i & Hi & _)|[_ ->]];
      [by destruct (Hno i)|done]. }
  unfold heartbeat, complete, fail_with. rewrite Hd. unfold failure_run_after in Hra. rewrite Hra.
  rewrite !Hu. done.
Qed.

(** A failure recorded under the lease gives the lease up and stores the
    error: without a retry time the row stops for good; with one it waits until
    that time while attempts are left and is dead otherwise; the outcome and
    the single event say which. *)
Theorem sqlite_failure_recorded db now now' id worker i f run_after :
  db_ok db → failure_run_after now f = Ok run_after → holds_lease now' id worker i db →
  let status := match f_run_after f with
                | None => Stopped
                | Some _ => if decide (attempts_left i) then Failed else Dead
                end in
  let j := spec_released status (Some (f_error f)) (f_error_class f) now
             (with_run_after run_after i) in
  ∃ db', fail_with db now now' id worker f
      = (db', [(j, Some (f_error f))],
         Ok (match status with Stopped => FailStopped | Dead => MovedToDead
             | _ => RetryScheduled end))
    ∧ table db' !! id = Some j.
Proof.
  intros Hok Hra Hh. destruct (sql_fail_with_held db now now' id worker i f run_after Hok Hra Hh)
    as (db' & E & _ & Ht).
  exists db'. rewrite E, Ht.
  assert (∀ st, failed_row st run_after f now i
    = spec_released st (Some (f_error f)) (f_error_class f) now (with_run_after run_after i)) as Ej
    by (by destruct i).
  rewrite Ej. unfold fail_decision, attempts_left. destruct (f_run_after f); [|done].
  destruct (qi_max_attempts i <=? qi_attempt i) eqn:He; bools; case_decide; done || lia.
Qed.

(** The maintenance sweeps: marking stale rows dead changes exactly the
    active rows unchanged since the cutoff that hold no live lease, reports
    each once and counts them; pruning deletes exactly the terminal rows last
    updated before the cutoff and counts them. *)
Theorem sqlite_sweeps db now queue_id stale_before reason before :
  let '(db1, events, n) := mark_stale_active_dead_inner db now queue_id stale_before reason in
  let '(db2, m) := prune_terminal_before db before in
  (∀ i, i ∈ db_items db →
     (if stale_active queue_id stale_before now i then marked_dead reason now i else i) ∈ db_items db1)
  ∧ length (db_items db1) = length (db_items db) ∧ Z.of_nat (length events) = n
  ∧ (∀ e, e ∈ events ↔
       ∃ i, i ∈ db_items db ∧ stale_active queue_id stale_before now i = true
            ∧ e = (marked_dead reason now i, Some reason))
  ∧ (∀ i, i ∈ db_items db2 ↔ i ∈ db_items db
       ∧ (is_active (qi_status i) = true ∨ before ≤ qi_updated_at i))
  ∧ Z.of_nat (length (db_items db2)) + m = Z.of_nat (length (db_items db)).
Proof.
  simpl. split_and!.
  - intros i Hi. apply elem_of_update_where. eauto.
  - apply length_update_where.
  - rewrite length_fmap. unfold stale_active_items_in_tx. by rewrite order_by_perm.
  - intros e. rewrite list_elem_of_fmap. unfold stale_active_items_in_tx.
    setoid_rewrite order_by_perm. setoid_rewrite elem_of_select_where. naive_solver.
  - intros i. rewrite elem_of_select_where. unfold prunable, is_terminal.
    rewrite negb_true_iff, andb_false_iff, negb_false_iff, Z.ltb_ge. done.
  - unfold select_where. generalize (db_items db). intros l.
    induction l as [|x l IH]; [done|]. destruct (prunable before x) eqn:E.
    + rewrite filter_cons_False by (rewrite E; done). rewrite filter_cons_True by done. simpl. lia.
    + rewrite filter_cons_True by (rewrite E; done). rewrite filter_cons_False by congruence. simpl. lia.
Qed.

(** A cap above [i64::MAX], such as the [usize::MAX] a caller may use for
    no cap, is compared as a negative number: the claim takes nothing although
    the queue is far below its cap. *)
Theorem sqlite_huge_cap_claims_nothing db now now' r k :
  cr_max_in_flight r = Some k → i64_max < k ≤ u64_max → blank (cr_worker_id r) = false →
  (∀ e, lease_deadline now (cr_lease_seconds r) ≠ Err e) →
  (claim db now now' r).2 = Ok [].
Proof.
  intros Hk Hbig Hb Hd. unfold claim. rewrite Hb.
  destruct (lease_deadline now (cr_lease_seconds r)) as [until|e|] eqn:El; [|by destruct (Hd e)|].
  2: { unfold lease_deadline, ok_or in El. by case_match. }
  destruct (cooldown_active db (cr_queue_id r) now'); [done|].
  destruct (reclaim_expired_in_tx db (cr_queue_id r) now) as [db1 n].
  unfold room. rewrite Hk.
  rewrite (proj2 (Z.leb_le (u64_as_i64 k) (running_rows db1 (cr_queue_id r)))); [done|].
  unfold u64_as_i64, running_rows. rewrite (proj2 (Z.leb_gt _ _)) by lia. unfold i64_max, u64_max in *. lia.
Qed.

(** A retry delay past [i64::MAX] seconds given to [fail] wraps to a
    negative one: when the call returns at all, the retry time lies before the
    clock reading instead of in the far future. *)
Theorem fail_retry_delay_wraps now n t :
  i64_max < n ≤ u64_max → fail_run_after now (Some n) = Ok t →
  t = now + (n - 18446744073709551616) * nanos_per_second ∧ t < now.
Proof.
  intros Hn. unfold fail_run_after, add_seconds, u64_as_i64. simpl.
  rewrite (proj2 (Z.leb_gt _ _)) by lia.
  destruct (checked_add_seconds now (n - 18446744073709551616)) as [u|] eqn:E; [|done].
  intros [= <-]. apply checked_add_seconds_some in E. split; [done|].
  unfold i64_max, u64_max, nanos_per_second in *. lia.
Qed.

End Theorems.

Section CodecTheorems.
Context `{!TextCodec} `{!TextCodecLaws}.

(** A row written from an item reads back as that item. *)
Theorem sqlite_row_roundtrip i :
  0 ≤ qi_attempt i ≤ u32_max → 0 ≤ qi_max_attempts i ≤ u32_max →
  row_to_item (item_to_row i) = Ok i.
Proof.
  intros Ha Hm. unfold row_to_item, item_to_row. simpl. rewrite parse_json_print. rsimpl.
  assert (parse_status (status_str (qi_status i)) = Ok (qi_status i)) as -> by (by destruct (qi_status i)).
  unfold get_u32, parse_ts. rewrite !parse_ts_print.
  rewrite !(proj2 (Z.leb_le _ _)) by lia. rsimpl. simpl.
  assert (read_lease (ts <$> qi_lease_until i) = Ok (qi_lease_until i)) as ->.
  { destruct (qi_lease_until i); simpl; [|done]. unfold parse_ts. by rewrite parse_ts_print. }
  assert (read_code (DiagnosticCode_code <$> qi_last_error i) = Ok (qi_last_error i)) as ->.
  { destruct (qi_last_error i) as [c|]; simpl; [|done]. by rewrite DiagnosticCode_parse_code. }
  assert (read_class (FailureClass_code <$> qi_last_error_class i) = Ok (qi_last_error_class i)) as ->.
  { destruct (qi_last_error_class i) as [c|]; simpl; [|done]. by rewrite FailureClass_parse_code. }
  by destruct i.
Qed.

End CodecTheorems.

(** ** Concrete tables *)

#[local] Existing Instance chrono_range.
#[local] Existing Instance order_merge.

Definition stored_request : EnqueueRequest :=
  mkEnqueueRequest "chat:op:model" "chat" "{}" (Some "key") None (Some 2) false.
Definition stored_claim (cap : Z) : ClaimRequest :=
  mkClaimRequest "chat:op:model" "worker" 5 60 (Some cap).
Definition stored_enqueue : sql_call := SqlEnqueue 1000 "a" stored_request.
Definition stored_queued : Db := sql_exec empty_db stored_enqueue.
Definition stored_take : sql_call := SqlClaim 2000 2000 (stored_claim 1).
Definition stored_running : Db := sql_exec stored_queued stored_take.
(** The row of [stored_running]. *)
Definition stored_item : QueueItem :=
  mkQueueItem "a" "chat:op:model" "chat" "{}" Running 1 2 1000 (Some "worker")
    (Some 60000002000) (Some "key") None None 1000 2000.

Lemma stored_width : width_ok stored_request.
Proof. intros n [= <-]. unfold u32_max. lia. Qed.

Lemma stored_run : backend_run empty_db [stored_enqueue; stored_take] stored_running.
Proof. constructor; [exact stored_width|]. constructor; [done|constructor]. Qed.

Lemma stored_queued_ok : db_ok stored_queued.
Proof. apply (sql_exec_ok empty_db stored_enqueue empty_db_ok stored_width). Qed.

Lemma stored_running_ok : db_ok stored_running.
Proof. apply (sql_exec_ok stored_queued stored_take stored_queued_ok I). Qed.

Lemma stored_holds : holds_lease 3000 "a" "worker" stored_item stored_running.
Proof. split_and!; [by vm_compute..|]. exists 60000002000. by vm_compute. Qed.

Lemma sqlite_calls_lawful_witness :
  db_ok (sql_exec stored_running (SqlComplete 3000 3000 "a" "worker")).
Proof. apply (sqlite_calls_lawful _ _ (SqlComplete 3000 3000 "a" "worker") stored_run I). Defined.

Lemma sqlite_claim_serves_witness :
  ∃ served db', claim stored_queued 2000 2000 (stored_claim 1)
    = (db', (λ i, (i, None)) <$> (leased_row "worker" 60000002000 2000 <$> served),
       Ok (leased_row "worker" 60000002000 2000 <$> served)) ∧ length served = 1%nat.
Proof.
  destruct (sqlite_claim_serves stored_queued 2000 2000 (stored_claim 1) 60000002000 1
    stored_queued_ok eq_refl ltac:(by vm_compute) ltac:(by vm_compute) ltac:(by vm_compute)
    ltac:(by vm_compute)) as (served & rest & others & db' & P & _ & Hlen & E & _).
  exists served, db'. split; [exact E|]. rewrite Hlen, P. by vm_compute.
Defined.

Lemma sqlite_cap_holds_witness : running_rows stored_running "chat:op:model" ≤ 1.
Proof.
  apply (sqlite_cap_holds _ _ "chat:op:model" 1 stored_run); [lia|].
  repeat constructor. intros _. exists 1. unfold u64_max. split_and!; [done|lia..].
Defined.

Lemma sqlite_fence_witness :
  complete stored_running 3000 3000 "a" "intruder"
  = (stored_running, [], Err (LeaseMismatch InvalidConfiguration)).
Proof.
  refine (proj1 (proj2 (sqlite_fence stored_running 3000 3000 3000 "a" "intruder" 60
    (mkFailure LeaseExpired None (Some 9000)) 60000003000 9000 stored_running_ok _ _ eq_refl))).
  - intros i (Hi & _ & Ho & _). vm_compute in Hi. injection Hi as <-. by vm_compute in Ho.
  - by vm_compute.
Defined.

Lemma sqlite_failure_recorded_witness :
  ∃ db', fail_with stored_running 3000 3000 "a" "worker" (mkFailure LeaseExpired None (Some 9000))
    = (db', [(spec_released Failed (Some LeaseExpired) None 3000 (with_run_after 9000 stored_item),
              Some LeaseExpired)], Ok RetryScheduled).
Proof.
  destruct (sqlite_failure_recorded stored_running 3000 3000 "a" "worker" stored_item
    (mkFailure LeaseExpired None (Some 9000)) 9000 stored_running_ok eq_refl stored_holds)
    as (db' & E & _).
  exists db'. exact E.
Defined.

Lemma sqlite_huge_cap_claims_nothing_witness :
  (claim stored_queued 2000 2000 (stored_claim u64_max)).2 = Ok []
  ∧ (claim stored_queued 2000 2000 (stored_claim 1)).2 ≠ Ok [].
Proof.
  split; [|by vm_compute].
  apply (sqlite_huge_cap_claims_nothing stored_queued 2000 2000 (stored_claim u64_max) u64_max eq_refl);
    [unfold i64_max, u64_max; lia|done|]. intros e. by vm_compute.
Defined.

Lemma fail_retry_delay_wraps_witness :
  fail_run_after 5000000000 (Some u64_max) = Ok 4000000000 ∧ 4000000000 < 5000000000.
Proof.
  split; [by vm_compute|].
  apply (fail_retry_delay_wraps 5000000000 u64_max 4000000000);
    [unfold i64_max, u64_max; lia|by vm_compute].
Defined.

(** A codec that writes an instant as the bits of its number and JSON
    verbatim. *)
Fixpoint pos_text (p : positive) : string :=
  match p with
  | xH => ""
  | xO p => String "0"%char (pos_text p)
  | xI p => String "1"%char (pos_text p)
  end.

Fixpoint text_pos (s : string) : option positive :=
  match s with
  | EmptyString => Some xH
  | String c s =>
      p ← text_pos s;
      if bool_decide (c = "0"%char) then Some (xO p)
      else if bool_decide (c = "1"%char) then Some (xI p) else None
  end.

Lemma text_pos_text p : text_pos (pos_text p) = Some p.
Proof. induction p as [p IH|p IH|]; simpl; rewrite ?IH; done. Qed.

Definition bit_codec : TextCodec := {|
  ts t := pos_text (encode t);
  parse_rfc3339 s := p ← text_pos s; decode p;
  json_text v := v;
  parse_json v := Some v;
|}.

Lemma bit_codec_laws : @TextCodecLaws bit_codec.
Proof.
  split; [|done]. intros t. unfold ts, parse_rfc3339, bit_codec.
  rewrite text_pos_text. apply decode_encode.
Qed.

Lemma sqlite_row_roundtrip_witness :
  @row_to_item bit_codec (@item_to_row bit_codec stored_item) = Ok stored_item.
Proof. apply (@sqlite_row_roundtrip bit_codec bit_codec_laws stored_item); simpl; unfold u32_max; lia. Defined.
