(* ===== verification/SpendTypes.v ===== *)
(** [symbiotic-model]: the error type of [lib.rs] and the accounting types of
    [spend.rs]; [symbiotic-trace]: the usage record they carry.

    A [serde_json::Value] is an element of the parameter [Json], of which the
    code only compares values and writes the one constant [output_received],
    [{"output_received": true}]. *)

From Stdlib Require Import ZArith Lia.
From stdpp Require Import base gmap strings list pretty.
From S2P Require Import Prelude Core.

#[local] Open Scope Z_scope.

(** ** Model errors *)

Inductive ModelCapability : Type :=
| Chat | Embedding | Rerank | Classify | Vision | ImageGeneration | VideoGeneration | AgentTask.

(** [HttpNotSent] holds the primary of its [HttpNotSentError] evidence. *)
Inductive ModelError : Type :=
| HttpNotSent (primary : ModelError)
| Http (primary : ModelError) (status : Z) (retry_after_seconds : option Z)
| Unavailable (c : DiagnosticCode)
| Auth (c : DiagnosticCode)
| RateLimited (c : DiagnosticCode)
| BudgetExhausted (c : DiagnosticCode)
| Timeout (c : DiagnosticCode)
| Unsupported (cap : ModelCapability)
| InvalidRequest (c : DiagnosticCode)
| Provider (c : DiagnosticCode)
| Queue (c : DiagnosticCode)
| Cache (c : DiagnosticCode)
| Diagnostics (primary : ModelError) (secondary : list DiagnosticCode).

Fixpoint ModelError_code (e : ModelError) : DiagnosticCode :=
  match e with
  | HttpNotSent primary | Http primary _ _ | Diagnostics primary _ => ModelError_code primary
  | Unavailable c | Auth c | RateLimited c | BudgetExhausted c | Timeout c | InvalidRequest c
  | Provider c | Queue c | Cache c => c
  | Unsupported _ => InvalidConfiguration
  end.

Fixpoint ModelError_primary (e : ModelError) : ModelError :=
  match e with
  | HttpNotSent primary | Http primary _ _ | Diagnostics primary _ => ModelError_primary primary
  | e => e
  end.

Fixpoint http_details (e : ModelError) : option (Z * option Z) :=
  match e with
  | Http _ status retry_after_seconds => Some (status, retry_after_seconds)
  | Diagnostics primary _ => http_details primary
  | _ => None
  end.

Definition ModelError_diagnostics (e : ModelError) : list DiagnosticCode :=
  match e with Diagnostics _ secondary => secondary | _ => [] end.

Inductive FailureCharge : Type := ChargeUnknown | KnownZero.

Fixpoint failure_charge (e : ModelError) : FailureCharge :=
  match e with
  | HttpNotSent _ => KnownZero
  | Diagnostics primary _ => failure_charge primary
  | _ => ChargeUnknown
  end.

Definition with_diagnostics (e : ModelError) (diagnostics : list DiagnosticCode) : ModelError :=
  match diagnostics with
  | [] => e
  | _ =>
      match e with
      | Diagnostics primary secondary => Diagnostics primary (secondary ++ diagnostics)
      | primary => Diagnostics primary diagnostics
      end
  end.

(** ** Usage *)

Record UsageTrace : Type := mkUsageTrace {
  cache_hit_tokens : option Z;
  cache_miss_tokens : option Z;
  response_id : option string;
  served_model : option string;
  created : option Z;
  input_tokens : option Z;
  output_tokens : option Z;
  reasoning_tokens : option Z;
  media_units : option Z;
  cost_micro_usd : option Z;
  reported_cost_usd : option string;
}.

#[export] Instance UsageTrace_eq_dec : EqDecision UsageTrace.
Proof. solve_decision. Defined.

Definition has_measured_usage (u : UsageTrace) : bool :=
  is_some (cache_hit_tokens u) || is_some (cache_miss_tokens u) || is_some (input_tokens u)
  || is_some (output_tokens u) || is_some (reasoning_tokens u) || is_some (media_units u)
  || is_some (cost_micro_usd u) || is_some (reported_cost_usd u).

(** ** Receipts *)

Definition storage : ModelError := Queue SpendLedgerUnavailable.
Definition conflict : ModelError := Queue SpendReconciliationRequired.

(** [SpendReceiptRef::MAX_BYTES]. *)
Definition MAX_BYTES : Z := 256.

(** [SpendReceiptRef::new]; a reference is held as its text. *)
Definition SpendReceiptRef_new (value : string) : result ModelError string :=
  if MAX_BYTES <? Z.of_nat (String.length value) then Err (InvalidRequest SpendReceiptRefTooLong)
  else Ok value.

(** [runtime_reference]: the attempt in decimal. *)
Definition runtime_reference (item_id : string) (attempt : N) : result ModelError string :=
  SpendReceiptRef_new ("runtime:" +:+ item_id +:+ ":" +:+ pretty attempt).

Inductive SpendState : Type := SpendUnknown | SpendReleased | SpendSettled.

#[export] Instance SpendState_eq_dec : EqDecision SpendState.
Proof. solve_decision. Defined.

Record SpendReservation : Type := mkReservation {
  sr_reference : string;
  sr_account : string;
  sr_invocation : string;
  sr_binding : string;
  sr_request_limit : option Z;
}.

#[export] Instance SpendReservation_eq_dec : EqDecision SpendReservation.
Proof. solve_decision. Defined.

Record AcceptedSpendHandoff : Type := mkHandoff {
  ah_reservation : SpendReservation;
  ah_input_identity : string;
}.

(** Whether a route keeps provider answers for recovery. *)
Inductive AnswerRecovery : Type := Retain | Off.

#[export] Instance AnswerRecovery_eq_dec : EqDecision AnswerRecovery.
Proof. solve_decision. Defined.

(** JSON values. *)
Class JsonValues : Type := {
  Json : Type;
  Json_eq_dec :: EqDecision Json;
  output_received : Json;
}.

Record SpendReceipt `{!JsonValues} : Type := mkReceipt {
  rc_reservation : SpendReservation;
  rc_state : SpendState;
  rc_pre_dispatch_released : bool;
  rc_usage : option UsageTrace;
  rc_output : option Json;
  rc_attempt_limit : option Z;
  rc_attempts_used : Z;
  rc_recovery : option Json;
}.
Arguments mkReceipt {_}.

(** ** Errors keep their class *)

(** Bookkeeping diagnostics are appended to a failure and change nothing that
    classifies it. *)
Lemma with_diagnostics_class e l :
  ModelError_code (with_diagnostics e l) = ModelError_code e
  ∧ ModelError_primary (with_diagnostics e l) = ModelError_primary e
  ∧ http_details (with_diagnostics e l) = http_details e
  ∧ failure_charge (with_diagnostics e l) = failure_charge e
  ∧ ModelError_diagnostics (with_diagnostics e l) = ModelError_diagnostics e ++ l.
Proof. destruct l, e; simpl; split_and!; try done; by rewrite app_nil_r. Qed.
