(* ===== verification/SpendLedger.v ===== *)
(** [symbiotic-ai-runtime], [spend.rs]: the durable spend ledger.

    [Ledger] holds the two tables of the accounting: [spend_accounts], the
    requests each account has in use, and [spend_receipts], its rows in
    [rowid] order, the order in which attempts were accepted.  No statement
    deletes a receipt.  A column holding the JSON of a value is held as that
    value.

    Each operation is a function from the tables to an error or the new
    tables and an answer; [commit] is the immediate transaction around it.
    [chrono::Utc::now()] is the argument [clock] of the operations that read
    it.  [policy] is [job_recovery_policy], which reads the job tables. *)

From Stdlib Require Import ZArith Lia.
From stdpp Require Import base gmap strings list sorting.
From S2P Require Import Prelude Core SpendTypes.

#[local] Open Scope Z_scope.

(** ** Tables *)

(** A row of [spend_receipts]; the columns [reference], [account],
    [invocation] and [binding] repeat those of [reservation]. *)
Record ReceiptRow `{!JsonValues} : Type := mkRow {
  rr_reservation : SpendReservation;
  rr_state : SpendState;
  rr_usage : option UsageTrace;
  rr_output : option Json;
  rr_handoff_input : option string;
  rr_dispatch_owner : option string;
  rr_pre_dispatch_released : bool;
  rr_attempt_limit : option Z;
  rr_attempts_used : Z;
  rr_recovery : option Json;
  rr_recovery_expires_at : option DateTime;
}.
Arguments mkRow {_}.

Record Ledger `{!JsonValues} : Type := mkLedger {
  spend_accounts : gmap string Z;
  spend_receipts : list ReceiptRow;
}.
Arguments mkLedger {_}.

(** The earlier expiry; the rows compared all have one. *)
Definition expires_first `{!JsonValues} (p q : nat * ReceiptRow) : Prop :=
  default 0 (rr_recovery_expires_at p.2) ≤ default 0 (rr_recovery_expires_at q.2).

#[export] Instance expires_first_dec `{!JsonValues} : RelDecision expires_first.
Proof. intros p q. unfold expires_first. apply _. Defined.

(** [ORDER BY recovery_expires_at] of rows with their [rowid]s: sorted, equal
    rows in any order. *)
Class ExpiryOrder `{!JsonValues} : Type := {
  expiry_order : list (nat * ReceiptRow) → list (nat * ReceiptRow);
  expiry_order_perm l : expiry_order l ≡ₚ l;
  expiry_order_sorted l : Sorted expires_first (expiry_order l);
}.

(** One order SQLite may choose. *)
Definition expiry_merge `{!JsonValues} : ExpiryOrder.
Proof.
  refine {| expiry_order := merge_sort expires_first |}.
  - intros l. apply merge_sort_Permutation.
  - intros l. apply Sorted_merge_sort. intros p q. unfold expires_first. lia.
Defined.

Section Ledger.
Context `{!JsonValues}.

Abbreviation Policy := (option string → string → result ModelError (bool * option DateTime)).

Definition empty_ledger : Ledger := mkLedger ∅ [].

Definition row_reference (row : ReceiptRow) : string := sr_reference (rr_reservation row).

(** The chain of an account's logical invocation. *)
Definition in_chain (account invocation : string) (row : ReceiptRow) : bool :=
  bool_decide (sr_account (rr_reservation row) = account)
  && bool_decide (sr_invocation (rr_reservation row) = invocation).

Definition has_reference (reference : string) (row : ReceiptRow) : bool :=
  bool_decide (row_reference row = reference).

(** [UPDATE spend_receipts SET ... WHERE reference=?]. *)
Definition update_receipt (reference : string) (f : ReceiptRow → ReceiptRow) (l : Ledger) : Ledger :=
  mkLedger (spend_accounts l) (update_where (has_reference reference) f (spend_receipts l)).

(** [SET recovery=?, recovery_expires_at=?]. *)
Definition set_recovery (value : option Json) (expires : option DateTime) (row : ReceiptRow) :
    ReceiptRow :=
  mkRow (rr_reservation row) (rr_state row) (rr_usage row) (rr_output row) (rr_handoff_input row)
    (rr_dispatch_owner row) (rr_pre_dispatch_released row) (rr_attempt_limit row)
    (rr_attempts_used row) value expires.

(** [SET recovery=NULL, recovery_expires_at=NULL]. *)
Definition clear_recovery : ReceiptRow → ReceiptRow := set_recovery None None.

(** [SET state=?, usage=?, output=?]. *)
Definition set_evidence (state : SpendState) (usage : option UsageTrace) (output : option Json)
    (row : ReceiptRow) : ReceiptRow :=
  mkRow (rr_reservation row) state usage output (rr_handoff_input row) (rr_dispatch_owner row)
    (rr_pre_dispatch_released row) (rr_attempt_limit row) (rr_attempts_used row)
    (rr_recovery row) (rr_recovery_expires_at row).

(** [SET handoff_input=?]. *)
Definition set_handoff_input (input : string) (row : ReceiptRow) : ReceiptRow :=
  mkRow (rr_reservation row) (rr_state row) (rr_usage row) (rr_output row) (Some input)
    (rr_dispatch_owner row) (rr_pre_dispatch_released row) (rr_attempt_limit row)
    (rr_attempts_used row) (rr_recovery row) (rr_recovery_expires_at row).

(** [SET dispatch_owner=?]. *)
Definition set_dispatch_owner (owner : string) (row : ReceiptRow) : ReceiptRow :=
  mkRow (rr_reservation row) (rr_state row) (rr_usage row) (rr_output row) (rr_handoff_input row)
    (Some owner) (rr_pre_dispatch_released row) (rr_attempt_limit row)
    (rr_attempts_used row) (rr_recovery row) (rr_recovery_expires_at row).

(** [SET pre_dispatch_released=1, attempts_used=CASE ...]: the right-hand
    sides read the old row. *)
Definition set_released (row : ReceiptRow) : ReceiptRow :=
  mkRow (rr_reservation row) (rr_state row) (rr_usage row) (rr_output row) (rr_handoff_input row)
    (rr_dispatch_owner row) true (rr_attempt_limit row)
    (if is_some (rr_attempt_limit row) && negb (rr_pre_dispatch_released row)
     then rr_attempts_used row - 1 else rr_attempts_used row)
    (rr_recovery row) (rr_recovery_expires_at row).

(** The row a reservation inserts. *)
Definition new_receipt (r : SpendReservation) (attempt_limit : option Z) (used : Z) : ReceiptRow :=
  mkRow r SpendUnknown None None None None false attempt_limit used None None.

(** ** Reads *)

(** [CASE WHEN recovery_expires_at>?2 THEN recovery ELSE NULL END]. *)
Definition live_recovery (clock : DateTime) (row : ReceiptRow) : option Json :=
  match rr_recovery_expires_at row with
  | Some until => if clock <? until then rr_recovery row else None
  | None => None
  end.

(** [r.get::<u32>]: a value out of range is a storage error. *)
Definition get_u32 (n : Z) : result ModelError Z :=
  if (0 <=? n) && (n <=? u32_max) then Ok n else Err storage.

Definition find_row (l : Ledger) (reference : string) : option ReceiptRow :=
  head (select_where (has_reference reference) (spend_receipts l)).

Definition receipt_of (clock : DateTime) (row : ReceiptRow) : result ModelError SpendReceipt :=
  let? limit := match rr_attempt_limit row with
                | Some n => let? n := get_u32 n in Ok (Some n)
                | None => Ok None
                end in
  let? used := get_u32 (rr_attempts_used row) in
  Ok (mkReceipt (rr_reservation row) (rr_state row) (rr_pre_dispatch_released row) (rr_usage row)
        (rr_output row) limit used (live_recovery clock row)).

Definition receipt_in (l : Ledger) (clock : DateTime) (reference : string) :
    result ModelError (option SpendReceipt) :=
  match find_row l reference with
  | None => Ok None
  | Some row => let? receipt := receipt_of clock row in Ok (Some receipt)
  end.

(** [ORDER BY rowid DESC LIMIT 1] of the chain. *)
Definition latest (l : Ledger) (account invocation : string) : option ReceiptRow :=
  last (select_where (in_chain account invocation) (spend_receipts l)).

Definition invocation_reference_in (l : Ledger) (account invocation : string) :
    result ModelError (option string) :=
  match latest l account invocation with
  | None => Ok None
  | Some row =>
      let? reference := map_err (λ _, storage) (SpendReceiptRef_new (row_reference row)) in
      Ok (Some reference)
  end.

Definition invocation_in (l : Ledger) (clock : DateTime) (account invocation : string) :
    result ModelError (option SpendReceipt) :=
  let? reference := invocation_reference_in l account invocation in
  match reference with
  | None => Ok None
  | Some reference => receipt_in l clock reference
  end.

(** ** Reservation *)

(** An accepted attempt of the chain has no verdict yet: the row the partial
    index [spend_active_invocation] keeps unique. *)
Definition active (l : Ledger) (account invocation : string) : bool :=
  existsb (λ row, in_chain account invocation row && bool_decide (rr_state row = SpendUnknown))
    (spend_receipts l).

(** [INSERT OR IGNORE] of the account, then [UPDATE ... SET used=used+1] under
    its two conditions: [None] when the update changes no row. *)
Definition charge_account (accounts : gmap string Z) (account : string) (limit : option Z) :
    option (gmap string Z) :=
  let used := default 0 (accounts !! account) in
  if (used <? i64_max) && match limit with Some n => used <? n | None => true end
  then Some (<[account := used + 1]> accounts) else None.

(** What a predecessor forbids: an explicit invocation or a handoff may not
    follow a completed or settled attempt. *)
Definition predecessor_refuses (explicit handoff : bool) (previous : option SpendReceipt) :
    option ModelError :=
  match previous with
  | Some p =>
      if explicit || handoff then
        if is_some (rc_output p) then
          Some (if explicit then Queue InvocationCompleted else conflict)
        else if bool_decide (rc_state p = SpendSettled) then Some conflict else None
      else None
  | None => None
  end.

Definition reserve_with_limit_in (l : Ledger) (clock : DateTime) (r : SpendReservation)
    (attempt_limit : option Z) (handoff : bool) : result ModelError (Ledger * bool) :=
  let? previous := invocation_in l clock (sr_account r) (sr_invocation r) in
  if match previous with
     | Some p => negb (bool_decide (sr_binding (rc_reservation p) = sr_binding r))
     | None => false
     end
  then Err conflict
  else
    let? old := receipt_in l clock (sr_reference r) in
    match old with
    | Some old => if bool_decide (rc_reservation old = r) then Ok (l, false) else Err conflict
    | None =>
        let explicit := is_some attempt_limit
                        || match previous with Some p => is_some (rc_attempt_limit p) | None => false end in
        match predecessor_refuses explicit handoff previous with
        | Some e => Err e
        | None =>
            if active l (sr_account r) (sr_invocation r) then Err conflict
            else
              let frozen := match previous ≫= rc_attempt_limit with
                            | Some n => Some n
                            | None => attempt_limit
                            end in
              let used := match previous with Some p => rc_attempts_used p | None => 0 end in
              if match frozen with Some limit => limit <=? used | None => false end
              then Err (BudgetExhausted AttemptBudgetExhausted)
              else
                let? used := match frozen with
                             | Some _ => ok_or (checked_add u32_max used 1) storage
                             | None => Ok 0
                             end in
                let? limit := match sr_request_limit r with
                              | Some n => let? n := ok_or (i64_try_from n) storage in Ok (Some n)
                              | None => Ok None
                              end in
                match charge_account (spend_accounts l) (sr_account r) limit with
                | None => Err (BudgetExhausted SpendBudgetExhausted)
                | Some accounts =>
                    Ok (mkLedger accounts (spend_receipts l ++ [new_receipt r frozen used]), true)
                end
        end
    end.

Definition reserve_in (l : Ledger) (clock : DateTime) (r : SpendReservation) :
    result ModelError (Ledger * bool) :=
  reserve_with_limit_in l clock r None false.

Definition reserve_handoff_in (l : Ledger) (clock : DateTime) (handoff : AcceptedSpendHandoff) :
    result ModelError (Ledger * bool) :=
  if bool_decide (ah_input_identity handoff = ""%string) then Err conflict
  else
    let reference := sr_reference (ah_reservation handoff) in
    let? '(l, accepted) := reserve_with_limit_in l clock (ah_reservation handoff) None true in
    if accepted then Ok (update_receipt reference (set_handoff_input (ah_input_identity handoff)) l, true)
    else
      let? row := ok_or (find_row l reference) storage in
      if bool_decide (rr_handoff_input row = Some (ah_input_identity handoff))
      then Ok (l, false) else Err conflict.

(** ** Settlement *)

Definition finish_in (l : Ledger) (clock : DateTime) (reference : string) (state : SpendState)
    (usage : option UsageTrace) (output : option Json) : result ModelError (Ledger * unit) :=
  let? old := receipt_in l clock reference in
  let? old := ok_or old conflict in
  if (bool_decide (state = SpendSettled)
      && match usage with Some u => negb (has_measured_usage u) | None => true end)
     || (bool_decide (state = SpendReleased) && (is_some (rc_output old) || is_some output))
  then Err conflict
  else
    let output := match output with Some _ => Some output_received | None => rc_output old end in
    if negb (bool_decide (rc_state old = SpendUnknown)) then
      if bool_decide (rc_state old = state) && bool_decide (rc_usage old = usage)
         && bool_decide (rc_output old = output)
      then Ok (l, tt) else Err conflict
    else
      let? accounts :=
        if bool_decide (state = SpendReleased) then
          match spend_accounts l !! sr_account (rc_reservation old) with
          | Some used =>
              if 0 <? used
              then Ok (<[sr_account (rc_reservation old) := used - 1]> (spend_accounts l))
              else Err storage
          | None => Err storage
          end
        else Ok (spend_accounts l) in
      Ok (update_receipt reference (set_evidence state usage output)
            (mkLedger accounts (spend_receipts l)), tt).

Definition release_in (l : Ledger) (clock : DateTime) (reference : string) :
    result ModelError (Ledger * unit) :=
  let? old := receipt_in l clock reference in
  let? old := ok_or old conflict in
  if negb (bool_decide (rc_state old = SpendUnknown)) && negb (rc_pre_dispatch_released old)
  then Err conflict
  else
    let? '(l, _) := finish_in l clock reference SpendReleased None None in
    Ok (update_receipt reference set_released l, tt).

(** ** Saved answers *)

(** The earlier of two optional deadlines. *)
Definition min_deadline (a b : option DateTime) : option DateTime :=
  match a, b with
  | Some a, Some b => Some (Z.min a b)
  | Some a, None => Some a
  | None, b => b
  end.

(** [chrono::Duration::from_std(retention)] added to [now]. *)
Definition retention_end `{!Chrono} (retention : Z) (now : DateTime) : option DateTime :=
  if from_std_ok retention && instant_ok (now + retention) then Some (now + retention) else None.

Definition save_recovery_in `{!Chrono} (policy : Policy) (l : Ledger) (clock : DateTime)
    (reference : string) (output : option Json) (retention : Z) (deadline : option DateTime)
    (invocation : option string) (now : DateTime) : result ModelError (Ledger * unit) :=
  if bool_decide (output = Some output_received) then Ok (l, tt)
  else
    let? old := receipt_in l clock reference in
    let? old := ok_or old conflict in
    let? '(erased, job_deadline) := policy invocation (sr_invocation (rc_reservation old)) in
    let deadline := min_deadline deadline job_deadline in
    match output with
    | Some value =>
        if negb (is_some (rc_attempt_limit old)) then Ok (l, tt)
        else if is_some (rc_output old) then
          if bool_decide (rc_recovery old = Some value) then Ok (l, tt) else Err conflict
        else
          let? expires := ok_or (retention_end retention now) storage in
          let expires := match deadline with Some until => Z.min until expires | None => expires end in
          if erased || match deadline with Some until => until <=? now | None => false end
          then Ok (l, tt)
          else Ok (update_receipt reference (set_recovery (Some value) (Some expires)) l, tt)
    | None => Ok (l, tt)
    end.

(** [expire_recovery]'s [WHERE] clause. *)
Definition expired (now : DateTime) (row : ReceiptRow) : bool :=
  is_some (rr_recovery row)
  && match rr_recovery_expires_at row with Some until => until <=? now | None => false end.

(** One [UPDATE ... WHERE rowid IN (SELECT ... LIMIT 64)]: the new rows and
    how many it changed. *)
Definition expire_batch `{!ExpiryOrder} (now : DateTime) (rows : list ReceiptRow) :
    list ReceiptRow * nat :=
  let chosen := take 64 (expiry_order (select_where (λ p, expired now p.2) (imap pair rows))) in
  (imap (λ i row, if bool_decide (i ∈ chosen.*1) then clear_recovery row else row) rows,
   length chosen).

(** The loop, [None] when [fuel] batches do not end it. *)
Fixpoint expire_loop `{!ExpiryOrder} (fuel : nat) (now : DateTime) (rows : list ReceiptRow) :
    option (list ReceiptRow * nat) :=
  match fuel with
  | O => None
  | S fuel =>
      let '(rows, batch) := expire_batch now rows in
      if bool_decide (batch = O) then Some (rows, O)
      else '(rows, removed) ← expire_loop fuel now rows; Some (rows, (batch + removed)%nat)
  end.

(** Every batch clears a row, so one more round than there are rows is
    enough. *)
Definition expire_recovery `{!ExpiryOrder} (l : Ledger) (now : DateTime) :
    option (Ledger * nat) :=
  '(rows, removed) ← expire_loop (S (length (spend_receipts l))) now (spend_receipts l);
  Some (mkLedger (spend_accounts l) rows, removed).

Definition discard_recovery (l : Ledger) (account invocation : string) : Ledger :=
  match latest l account invocation with
  | Some row => update_receipt (row_reference row) clear_recovery l
  | None => l
  end.

(** The rows [purge_recovery] reads, with the references it collects. *)
Fixpoint matching (matches : Json → result ModelError bool) (rows : list ReceiptRow) :
    result ModelError (list string) :=
  match rows with
  | [] => Ok []
  | row :: rows =>
      match rr_recovery row with
      | None => matching matches rows
      | Some value =>
          let? hit := matches value in
          let? rest := matching matches rows in
          Ok (if hit then row_reference row :: rest else rest)
      end
  end.

(** Rows an [UPDATE ... WHERE reference=?] changes. *)
Definition rows_with (l : Ledger) (reference : string) : nat :=
  length (select_where (has_reference reference) (spend_receipts l)).

Fixpoint clear_references (l : Ledger) (references : list string) : Ledger * nat :=
  match references with
  | [] => (l, O)
  | reference :: references =>
      let '(l', removed) := clear_references (update_receipt reference clear_recovery l) references in
      (l', (rows_with l reference + removed)%nat)
  end.

Definition purge_recovery (l : Ledger) (matches : Json → result ModelError bool) :
    result ModelError (Ledger * nat) :=
  let? references := matching matches (spend_receipts l) in
  Ok (clear_references l references).

(** ** The [SpendLedger] trait *)

(** An immediate transaction: an error leaves the tables as they were. *)
Definition commit {A : Type} (l : Ledger) (c : result ModelError (Ledger * A)) :
    Ledger * result ModelError A :=
  match c with
  | Ok (l', a) => (l', Ok a)
  | Err e => (l, Err e)
  | Panic => (l, Panic)
  end.

Definition reserve (l : Ledger) (clock : DateTime) (r : SpendReservation) :
    Ledger * result ModelError bool :=
  commit l (reserve_in l clock r).

Definition reserve_explicit (l : Ledger) (clock : DateTime) (r : SpendReservation) (limit : Z) :
    Ledger * result ModelError bool :=
  commit l (reserve_with_limit_in l clock r (Some limit) false).

Definition release_before_dispatch (l : Ledger) (clock : DateTime) (reference : string) :
    Ledger * result ModelError unit :=
  commit l (release_in l clock reference).

(** The [WHERE] clause of the dispatch claim. *)
Definition handoff_free (reference input_identity : string) (row : ReceiptRow) : bool :=
  has_reference reference row && bool_decide (rr_handoff_input row = Some input_identity)
  && bool_decide (rr_dispatch_owner row = None) && bool_decide (rr_state row = SpendUnknown).

Definition acquire_handoff_in (l : Ledger) (clock : DateTime) (handoff : AcceptedSpendHandoff)
    (account input_identity owner : string) : result ModelError (Ledger * unit) :=
  let reference := sr_reference (ah_reservation handoff) in
  let? old := receipt_in l clock reference in
  let? old := ok_or old conflict in
  if negb (bool_decide (rc_reservation old = ah_reservation handoff))
     || negb (bool_decide (rc_state old = SpendUnknown))
     || negb (bool_decide (sr_account (rc_reservation old) = account))
     || negb (bool_decide (ah_input_identity handoff = input_identity))
     || bool_decide (owner = ""%string)
  then Err conflict
  else
    let free := handoff_free reference input_identity in
    if bool_decide (length (select_where free (spend_receipts l)) = 1%nat)
    then Ok (mkLedger (spend_accounts l)
               (update_where free (set_dispatch_owner owner) (spend_receipts l)), tt)
    else Err conflict.

Definition acquire_handoff (l : Ledger) (clock : DateTime) (handoff : AcceptedSpendHandoff)
    (account input_identity owner : string) : Ledger * result ModelError unit :=
  commit l (acquire_handoff_in l clock handoff account input_identity owner).

(** [finish]: [now] is read before the transaction's first statement, [clock]
    by the statements. *)
Definition finish `{!Chrono} (policy : Policy) (retention : Z) (l : Ledger)
    (now clock : DateTime) (reference : string) (state : SpendState) (usage : option UsageTrace)
    (output : option Json) (invocation : option string) : Ledger * result ModelError unit :=
  commit l
    (let? '(l, _) := save_recovery_in policy l clock reference output retention None invocation now in
     finish_in l clock reference state usage output).

(** ** Calls *)

(** The calls that change the ledger. *)
Inductive LedgerCall : Type :=
| CReserve (r : SpendReservation)
| CReserveExplicit (r : SpendReservation) (limit : Z)
| CReserveHandoff (handoff : AcceptedSpendHandoff)
| CAcquireHandoff (handoff : AcceptedSpendHandoff) (account input_identity owner : string)
| CReleaseBeforeDispatch (reference : string)
| CFinish (reference : string) (state : SpendState) (usage : option UsageTrace)
    (output : option Json) (invocation : option string)
| CDiscardRecovery (account invocation : string)
| CPurgeRecovery (matches : Json → result ModelError bool)
| CExpireRecovery.

Definition forget {A : Type} (c : Ledger * result ModelError A) : Ledger * result ModelError unit :=
  (c.1, let? _ := c.2 in Ok tt).

(** One call at one clock reading; an answer other than success is dropped. *)
Definition ledger_exec `{!Chrono, !ExpiryOrder} (policy : Policy) (retention : Z) (l : Ledger)
    (now clock : DateTime) (call : LedgerCall) : Ledger * result ModelError unit :=
  match call with
  | CReserve r => forget (reserve l clock r)
  | CReserveExplicit r limit => forget (reserve_explicit l clock r limit)
  | CReserveHandoff handoff => forget (commit l (reserve_handoff_in l clock handoff))
  | CAcquireHandoff handoff account input_identity owner =>
      acquire_handoff l clock handoff account input_identity owner
  | CReleaseBeforeDispatch reference => release_before_dispatch l clock reference
  | CFinish reference state usage output invocation =>
      finish policy retention l now clock reference state usage output invocation
  | CDiscardRecovery account invocation => (discard_recovery l account invocation, Ok tt)
  | CPurgeRecovery matches => forget (commit l (purge_recovery l matches))
  | CExpireRecovery =>
      match expire_recovery l clock with Some (l', _) => (l', Ok tt) | None => (l, Panic) end
  end.

End Ledger.
