(* ===== verification/SpendInv.v ===== *)
(** The invariant of the spend ledger, and how rows may change.

    [ledger_ok] relates the stored counters to the receipts they summarise:
    an account's [used] is the number of its receipts that are not released,
    and the latest receipt of an invocation carries the number of provider
    attempts its explicit chain has used.  [ledger_later] orders ledgers by
    history: receipts are appended and never removed, evidence once given is
    kept, and a consumed handoff stays consumed. *)

From Stdlib Require Import ZArith Lia.
From stdpp Require Import base gmap strings list sorting.
From S2P Require Import Prelude Core SpendTypes SpendLedger.

#[local] Open Scope Z_scope.

Section Inv.
Context {J : JsonValues}.

Abbreviation explicit row := (is_some (rr_attempt_limit row)).

(** ** The invariant *)

(** The receipt holds a request of the account: it is not known to be free. *)
Definition holds_request (account : string) (row : ReceiptRow) : bool :=
  bool_decide (sr_account (rr_reservation row) = account)
  && negb (bool_decide (rr_state row = SpendReleased)).

(** The receipt used one provider attempt of its explicit chain. *)
Definition used_attempt (row : ReceiptRow) : bool :=
  explicit row && negb (rr_pre_dispatch_released row).

Record row_ok (row : ReceiptRow) : Prop := {
  ok_reference : Z.of_nat (String.length (row_reference row)) ≤ MAX_BYTES;
  ok_attempts : 0 ≤ rr_attempts_used row ≤ u32_max;
  ok_limit n : rr_attempt_limit row = Some n → 0 ≤ n ≤ u32_max;
  ok_settled : rr_state row = SpendSettled → ∃ u, rr_usage row = Some u ∧ has_measured_usage u = true;
  ok_output : rr_output row = None ∨ rr_output row = Some output_received;
  ok_released : rr_state row = SpendReleased → rr_output row = None;
  ok_pre : rr_pre_dispatch_released row = true → rr_state row = SpendReleased ∧ rr_usage row = None;
  ok_owner : is_Some (rr_dispatch_owner row) → is_Some (rr_handoff_input row);
  ok_recovery : is_Some (rr_recovery row) →
    is_Some (rr_attempt_limit row) ∧ is_Some (rr_recovery_expires_at row);
}.

(** What the latest receipt [x] of the chain [c] says of the attempts. *)
Definition attempts_ok (c : list ReceiptRow) (x : ReceiptRow) : Prop :=
  rr_attempts_used x = count_where used_attempt c
  ∧ match rr_attempt_limit x with
    | Some n => rr_attempts_used x ≤ n
                ∧ ∀ row, row ∈ c → rr_attempt_limit row = None ∨ rr_attempt_limit row = Some n
    | None => ∀ row, row ∈ c → rr_attempt_limit row = None
    end.

(** The receipts of one logical invocation, oldest first. *)
Record chain_ok (c : list ReceiptRow) : Prop := {
  chain_decided c0 x : c = c0 ++ [x] → ∀ row, row ∈ c0 → rr_state row ≠ SpendUnknown;
  chain_binding row row' : row ∈ c → row' ∈ c →
    sr_binding (rr_reservation row) = sr_binding (rr_reservation row');
  chain_attempts x : last c = Some x → attempts_ok c x;
}.

Record ledger_ok (l : Ledger) : Prop := {
  ok_references : NoDup (row_reference <$> spend_receipts l);
  ok_rows row : row ∈ spend_receipts l → row_ok row;
  ok_chains a i : chain_ok (select_where (in_chain a i) (spend_receipts l));
  ok_used a : default 0 (spend_accounts l !! a) = count_where (holds_request a) (spend_receipts l);
  ok_max a : count_where (holds_request a) (spend_receipts l) ≤ i64_max;
}.

(** ** Histories *)

(** How a call may change a stored receipt. *)
Record row_later (row row' : ReceiptRow) : Prop := {
  later_reservation : rr_reservation row' = rr_reservation row;
  later_limit : rr_attempt_limit row' = rr_attempt_limit row;
  later_evidence : rr_state row ≠ SpendUnknown →
    rr_state row' = rr_state row ∧ rr_usage row' = rr_usage row ∧ rr_output row' = rr_output row;
  later_output : is_Some (rr_output row) → is_Some (rr_output row');
  later_input i : rr_handoff_input row = Some i → rr_handoff_input row' = Some i;
  later_owner o : rr_dispatch_owner row = Some o → rr_dispatch_owner row' = Some o;
}.

Definition ledger_later (l l' : Ledger) : Prop :=
  ∃ rows ext, spend_receipts l' = rows ++ ext ∧ Forall2 row_later (spend_receipts l) rows.

Lemma row_later_refl row : row_later row row.
Proof. by split. Qed.

#[export] Instance row_later_trans : Transitive row_later.
Proof.
  intros a b c [R1 L1 E1 O1 I1 W1] [R2 L2 E2 O2 I2 W2]. split; [congruence|congruence| |auto..].
  intros Hs. destruct (E1 Hs) as (S1 & U1 & P1). destruct E2 as (-> & -> & ->); [congruence|done].
Qed.

#[local] Hint Resolve row_later_refl : core.

Lemma ledger_later_refl l : ledger_later l l.
Proof.
  exists (spend_receipts l), []. split; [by rewrite app_nil_r|].
  by apply Forall_Forall2_diag, Forall_true.
Qed.

Lemma ledger_later_trans l1 l2 l3 : ledger_later l1 l2 → ledger_later l2 l3 → ledger_later l1 l3.
Proof.
  intros (r1 & e1 & E1 & F1) (r2 & e2 & E2 & F2). rewrite E1 in F2.
  apply Forall2_app_inv_l in F2 as (k1 & k2 & G1 & G2 & ->).
  exists k1, (k2 ++ e2). split; [by rewrite E2, <-app_assoc|].
  by transitivity r1.
Qed.

(** A stored receipt is still there after any history. *)
Lemma ledger_later_row l l' row : ledger_later l l' → row ∈ spend_receipts l →
  ∃ row', row' ∈ spend_receipts l' ∧ row_later row row'.
Proof.
  intros (rows & ext & -> & F) [i Hi]%list_elem_of_lookup_1.
  destruct (Forall2_lookup_l _ _ _ _ _ F Hi) as (row' & Hi' & Hl).
  exists row'. split; [|done]. apply elem_of_app. left. by eapply list_elem_of_lookup_2.
Qed.

(** ** Reading *)

Lemma has_reference_key reference :
  has_reference reference = λ row, bool_decide (row_reference row = reference).
Proof. done. Qed.

Lemma find_row_split l reference row : ledger_ok l → find_row l reference = Some row →
  ∃ l1 l2, spend_receipts l = l1 ++ row :: l2 ∧ row_reference row = reference
    ∧ (∀ y, y ∈ l1 → row_reference y ≠ reference) ∧ (∀ y, y ∈ l2 → row_reference y ≠ reference).
Proof. intros Hok. by apply unique_key_split, ok_references. Qed.

Lemma find_row_elem l reference row : find_row l reference = Some row →
  row ∈ spend_receipts l ∧ row_reference row = reference.
Proof.
  intros Hh%head_Some_elem_of. apply elem_of_select_where in Hh as [H1 H2].
  unfold has_reference in H2. by bools.
Qed.

Lemma find_row_none l reference row :
  find_row l reference = None → row ∈ spend_receipts l → row_reference row ≠ reference.
Proof.
  unfold find_row. intros Hn Hr E. apply head_None in Hn.
  assert (row ∈ select_where (has_reference reference) (spend_receipts l)) as H.
  { apply elem_of_select_where. unfold has_reference. by rewrite bool_decide_eq_true_2. }
  rewrite Hn in H. by apply elem_of_nil in H.
Qed.

Lemma find_row_unique l row : ledger_ok l → row ∈ spend_receipts l →
  find_row l (row_reference row) = Some row.
Proof.
  intros Hok Hr. destruct (find_row l (row_reference row)) as [row'|] eqn:E;
    [|by eapply find_row_none in E].
  destruct (find_row_split _ _ _ Hok E) as (l1 & l2 & El & Ek & H1 & H2). rewrite El in Hr.
  apply elem_of_app in Hr as [Hr|Hr]; [by apply H1 in Hr|].
  apply elem_of_cons in Hr as [->|Hr]; [done|by apply H2 in Hr].
Qed.

(** The receipt a row reads as. *)
Definition read (clock : DateTime) (row : ReceiptRow) : SpendReceipt :=
  mkReceipt (rr_reservation row) (rr_state row) (rr_pre_dispatch_released row) (rr_usage row)
    (rr_output row) (rr_attempt_limit row) (rr_attempts_used row) (live_recovery clock row).

Lemma get_u32_ok n : 0 ≤ n ≤ u32_max → get_u32 n = Ok n.
Proof. intros H. unfold get_u32. rewrite (proj2 (Z.leb_le _ _)), (proj2 (Z.leb_le _ _)); [done|lia..]. Qed.

Lemma receipt_of_ok clock row : row_ok row → receipt_of clock row = Ok (read clock row).
Proof.
  intros Hok. unfold receipt_of, read. rewrite (get_u32_ok (rr_attempts_used row)) by apply Hok.
  destruct (rr_attempt_limit row) as [n|] eqn:E; rsimpl; [|done].
  by rewrite get_u32_ok by (by eapply ok_limit).
Qed.

Lemma receipt_in_ok l clock reference : ledger_ok l →
  receipt_in l clock reference = Ok (read clock <$> find_row l reference).
Proof.
  intros Hok. unfold receipt_in. destruct (find_row l reference) as [row|] eqn:E; [|done].
  apply find_row_elem in E as [Hr _]. by rewrite receipt_of_ok by (by eapply ok_rows).
Qed.

Lemma latest_elem l a i row : latest l a i = Some row →
  row ∈ spend_receipts l ∧ in_chain a i row = true.
Proof.
  unfold latest. intros Hl. apply last_Some_elem_of in Hl. by apply elem_of_select_where in Hl.
Qed.

Lemma invocation_in_ok l clock a i : ledger_ok l →
  invocation_in l clock a i = Ok (read clock <$> latest l a i).
Proof.
  intros Hok. unfold invocation_in, invocation_reference_in.
  destruct (latest l a i) as [row|] eqn:E; [|done]. apply latest_elem in E as [Hr _].
  unfold SpendReceiptRef_new. rewrite (proj2 (Z.ltb_ge _ _)) by (by apply ok_reference, (ok_rows l)).
  rsimpl. simpl map_err. rsimpl. by rewrite receipt_in_ok, find_row_unique.
Qed.

(** ** Chains *)

Lemma in_chain_spec a i row : in_chain a i row = true ↔
  sr_account (rr_reservation row) = a ∧ sr_invocation (rr_reservation row) = i.
Proof. unfold in_chain. rewrite andb_true_iff, !bool_decide_eq_true. done. Qed.

(** An undecided receipt is the latest of its chain, and the only one. *)
Lemma chain_unknown_last c1 row c2 : chain_ok (c1 ++ row :: c2) → rr_state row = SpendUnknown → c2 = [].
Proof.
  intros Hc Hs. destruct c2 as [|y c2 _] using rev_ind; [done|]. exfalso.
  eapply (chain_decided _ Hc (c1 ++ row :: c2) y); [by rewrite <-app_assoc| |done].
  apply elem_of_app. right. left.
Qed.

(** What replacing a receipt may do to its chain. *)
Definition chain_step (row row' : ReceiptRow) : Prop :=
  sr_binding (rr_reservation row') = sr_binding (rr_reservation row)
  ∧ rr_attempt_limit row' = rr_attempt_limit row
  ∧ (rr_state row' = SpendUnknown → rr_state row = SpendUnknown)
  ∧ (rr_pre_dispatch_released row' = rr_pre_dispatch_released row
       ∧ rr_attempts_used row' = rr_attempts_used row
     ∨ rr_state row = SpendUnknown ∧ rr_pre_dispatch_released row' = true
       ∧ rr_attempts_used row' = rr_attempts_used row - (if used_attempt row then 1 else 0)).

Lemma elem_of_middle {A : Type} (z x y : A) c1 c2 :
  z ∈ c1 ++ x :: c2 → z = x ∨ z ∈ c1 ++ y :: c2 ∧ z ∈ c1 ++ c2.
Proof. rewrite !elem_of_app, !elem_of_cons. tauto. Qed.

Lemma chain_ok_replace c1 row c2 row' :
  chain_ok (c1 ++ row :: c2) → chain_step row row' → chain_ok (c1 ++ row' :: c2).
Proof.
  intros Hc (Hb & Hl & Hs & Hn). assert (row ∈ c1 ++ row :: c2) as Hin by (apply elem_of_app; right; left).
  assert (∀ z, z ∈ c1 ++ row' :: c2 → ∃ z', z' ∈ c1 ++ row :: c2
            ∧ sr_binding (rr_reservation z) = sr_binding (rr_reservation z')
            ∧ rr_attempt_limit z = rr_attempt_limit z') as Hold.
  { intros z [->|[Hz _]]%(elem_of_middle _ _ row); [by exists row|by exists z]. }
  split.
  - intros c0 x E z Hz Hu. destruct c2 as [|y c2 _] using rev_ind.
    + apply app_inj_tail in E as [-> ->]. by eapply (chain_decided _ Hc c0 row).
    + rewrite app_comm_cons, app_assoc in E. apply app_inj_tail in E as [<- ->].
      apply (elem_of_middle _ _ row) in Hz as [->|[Hz _]].
      * by eapply chain_unknown_last in Hc; [|apply Hs]; [destruct c2|].
      * eapply (chain_decided _ Hc (c1 ++ row :: c2) x); [by rewrite <-app_assoc|done|done].
  - intros z z' (w & Hw & -> & _)%Hold (w' & Hw' & -> & _)%Hold. by eapply chain_binding.
  - intros x Hx.
    assert (count_where used_attempt (c1 ++ row' :: c2) = count_where used_attempt (c1 ++ row :: c2)
      + (if used_attempt row' then 1 else 0) - (if used_attempt row then 1 else 0)) as Hcnt.
    { autorewrite with sql. lia. }
    assert (∀ P : option Z → Prop, (∀ z, z ∈ c1 ++ row :: c2 → P (rr_attempt_limit z)) →
              ∀ z, z ∈ c1 ++ row' :: c2 → P (rr_attempt_limit z)) as Hlim.
    { intros P HP z (w & Hw & _ & ->)%Hold. by apply HP. }
    destruct c2 as [|y c2 _] using rev_ind.
    + rewrite last_snoc in Hx. injection Hx as <-.
      destruct (chain_attempts _ Hc row) as [Ha Hm]; [by rewrite last_snoc|]. split.
      * rewrite Hcnt, <-Ha. unfold used_attempt in *. rewrite Hl.
        destruct Hn as [[-> ->]|(_ & -> & ->)]; [lia|]. rewrite andb_false_r. lia.
      * rewrite Hl. destruct (rr_attempt_limit row) as [n|]; [|by apply (Hlim (λ o, o = None))].
        destruct Hm as [Hle Hm]. split; [|by apply (Hlim (λ o, o = None ∨ o = Some n))].
        destruct Hn as [[_ ->]|(_ & _ & ->)]; [done|]. destruct (used_attempt row); lia.
    + rewrite app_comm_cons, app_assoc, last_snoc in Hx. injection Hx as ->.
      destruct (chain_attempts _ Hc x) as [Ha Hm]; [by rewrite app_comm_cons, app_assoc, last_snoc|].
      destruct Hn as [[Hp Hu]|[Hu _]];
        [|by eapply chain_unknown_last in Hc; [|exact Hu]; destruct c2].
      split.
      * rewrite Hcnt, <-Ha. unfold used_attempt. rewrite Hl, Hp. lia.
      * destruct (rr_attempt_limit x) as [n|]; [|by apply (Hlim (λ o, o = None))].
        destruct Hm as [Hle Hm]. split; [done|by apply (Hlim (λ o, o = None ∨ o = Some n))].
Qed.

Lemma chain_ok_append c x :
  chain_ok c → (∀ row, row ∈ c → rr_state row ≠ SpendUnknown) →
  (∀ y, last c = Some y → sr_binding (rr_reservation y) = sr_binding (rr_reservation x)) →
  attempts_ok (c ++ [x]) x → chain_ok (c ++ [x]).
Proof.
  intros Hc Hd Hb Ha.
  assert (∀ z, z ∈ c ++ [x] → sr_binding (rr_reservation z) = sr_binding (rr_reservation x)) as Hall.
  { intros z [Hz|Hz%list_elem_of_singleton]%elem_of_app; [|by subst].
    destruct (last c) as [y|] eqn:E; [|by apply last_None in E as ->; apply elem_of_nil in Hz].
    rewrite <-(Hb y) by done. eapply chain_binding; [done|done|by apply last_Some_elem_of]. }
  split.
  - intros c0 y [<- _]%app_inj_tail. apply Hd.
  - intros z z' Hz Hz'. by rewrite (Hall z), (Hall z').
  - rewrite last_snoc. by intros ? [= <-].
Qed.

(** ** Changes that touch no accounting *)

Definition soft (row row' : ReceiptRow) : Prop :=
  rr_reservation row' = rr_reservation row ∧ rr_state row' = rr_state row
  ∧ rr_pre_dispatch_released row' = rr_pre_dispatch_released row
  ∧ rr_attempt_limit row' = rr_attempt_limit row ∧ rr_attempts_used row' = rr_attempts_used row.

Lemma soft_refl row : soft row row.
Proof. done. Qed.

#[local] Hint Resolve soft_refl : core.

Lemma soft_select (p : ReceiptRow → bool) rows rows' :
  (∀ row row', soft row row' → p row' = p row) → Forall2 soft rows rows' →
  Forall2 soft (select_where p rows) (select_where p rows').
Proof.
  intros Hp. induction 1 as [|row row' rows rows' Hs _ IH]; [constructor|].
  rewrite !select_where_cons, (Hp row row') by done. destruct (p row); [by constructor|done].
Qed.

Lemma soft_count (p : ReceiptRow → bool) rows rows' :
  (∀ row row', soft row row' → p row' = p row) → Forall2 soft rows rows' →
  count_where p rows' = count_where p rows.
Proof.
  intros Hp Hs. unfold count_where. by rewrite (Forall2_length _ _ _ (soft_select _ _ _ Hp Hs)).
Qed.

Lemma soft_used_attempt row row' : soft row row' → used_attempt row' = used_attempt row.
Proof. intros (_ & _ & Hp & Hl & _). unfold used_attempt. by rewrite Hp, Hl. Qed.

Lemma soft_chain c c' : Forall2 soft c c' → chain_ok c → chain_ok c'.
Proof.
  intros Hs Hc.
  assert (∀ z, z ∈ c' → ∃ z', z' ∈ c ∧ soft z' z) as Hback.
  { intros z [i Hi]%list_elem_of_lookup_1. destruct (Forall2_lookup_r _ _ _ _ _ Hs Hi) as (z' & ? & ?).
    exists z'. split; [by eapply list_elem_of_lookup_2|done]. }
  split.
  - intros c0 x -> z Hz. apply Forall2_app_inv_r in Hs as (k & k' & H1 & H2 & ->).
    apply Forall2_cons_inv_r in H2 as (y & k'' & _ & H2 & ->). apply Forall2_nil_inv_r in H2 as ->.
    apply list_elem_of_lookup_1 in Hz as [i Hi].
    destruct (Forall2_lookup_r _ _ _ _ _ H1 Hi) as (z' & Hz' & (_ & -> & _)).
    eapply (chain_decided _ Hc k y); [done|by eapply list_elem_of_lookup_2].
  - intros z z' (w & Hw & (-> & _))%Hback (w' & Hw' & (-> & _))%Hback. by eapply chain_binding.
  - intros x Hx. rewrite last_lookup in Hx. destruct (Forall2_lookup_r _ _ _ _ _ Hs Hx) as (y & Hy & Sy).
    destruct (chain_attempts _ Hc y) as [Ha Hm].
    { by rewrite last_lookup, (Forall2_length _ _ _ Hs). }
    destruct Sy as (_ & _ & _ & Hl & Hu). split.
    + rewrite Hu, Ha. symmetry. by apply soft_count; [apply soft_used_attempt|].
    + rewrite Hl, Hu. destruct (rr_attempt_limit y) as [n|].
      * destruct Hm as [Hle Hm]. split; [done|]. intros z (w & Hw & (_ & _ & _ & -> & _))%Hback. auto.
      * intros z (w & Hw & (_ & _ & _ & -> & _))%Hback. auto.
Qed.

Lemma soft_references rows rows' : Forall2 soft rows rows' →
  row_reference <$> rows' = row_reference <$> rows.
Proof.
  induction 1 as [|row row' rows rows' (E & _) _ IH]; [done|].
  rewrite !fmap_cons, IH. unfold row_reference. by rewrite E.
Qed.

Lemma soft_ok l rows' : ledger_ok l → Forall2 soft (spend_receipts l) rows' →
  (∀ row, row ∈ rows' → row_ok row) → ledger_ok (mkLedger (spend_accounts l) rows').
Proof.
  intros Hok Hs Hr.
  assert (∀ a, count_where (holds_request a) rows' = count_where (holds_request a) (spend_receipts l)) as Hh.
  { intros a. apply soft_count; [|done]. intros row row' (E1 & E2 & _). unfold holds_request.
    by rewrite E1, E2. }
  split; simpl; [|done| |intros a; rewrite Hh; by apply Hok..].
  - rewrite (soft_references _ _ Hs). by apply Hok.
  - intros a i. eapply soft_chain; [|apply Hok]. apply soft_select; [|done].
    intros row row' (E & _). unfold in_chain. by rewrite E.
Qed.

(** The same for an [UPDATE]. *)
Lemma soft_update_ok l p f : ledger_ok l →
  (∀ row, row ∈ spend_receipts l → p row = true → soft row (f row) ∧ row_ok (f row)) →
  ledger_ok (mkLedger (spend_accounts l) (update_where p f (spend_receipts l))).
Proof.
  intros Hok Hf. apply soft_ok; [done| |].
  - apply Forall2_fmap_r, Forall_Forall2_diag, Forall_forall. intros row Hr.
    simpl. destruct (p row) eqn:E; [by apply Hf|done].
  - intros row (x & Hx & ->)%elem_of_update_where. destruct (p x) eqn:E; [by apply Hf|].
    by eapply ok_rows.
Qed.

Lemma update_later l p f accounts :
  (∀ row, row ∈ spend_receipts l → p row = true → row_later row (f row)) →
  ledger_later l (mkLedger accounts (update_where p f (spend_receipts l))).
Proof.
  intros Hf. exists (update_where p f (spend_receipts l)), []. split; [by rewrite app_nil_r|].
  apply Forall2_fmap_r, Forall_Forall2_diag, Forall_forall. intros row Hr.
  simpl. destruct (p row) eqn:E; [by apply Hf|done].
Qed.

(** ** Changes to one receipt and to its account *)

Lemma update_ok l reference f row accounts :
  ledger_ok l → find_row l reference = Some row →
  rr_reservation (f row) = rr_reservation row → row_ok (f row) → chain_step row (f row) →
  (rr_state row = SpendReleased → rr_state (f row) = SpendReleased) →
  (∀ a, default 0 (accounts !! a) = default 0 (spend_accounts l !! a)
     + (if holds_request a (f row) then 1 else 0) - (if holds_request a row then 1 else 0)) →
  ledger_ok (mkLedger accounts (update_where (has_reference reference) f (spend_receipts l))).
Proof.
  intros Hok Hf Hres Hrow Hstep Hrel Hacc.
  destruct (find_row_split _ _ _ Hok Hf) as (l1 & l2 & El & Ek & H1 & H2).
  rewrite has_reference_key, El, unique_key_update by done.
  assert (∀ a, count_where (holds_request a) (l1 ++ f row :: l2)
    = count_where (holds_request a) (spend_receipts l)
      + (if holds_request a (f row) then 1 else 0) - (if holds_request a row then 1 else 0)) as Hc.
  { intros a. rewrite El. autorewrite with sql. lia. }
  split; simpl.
  - pose proof (ok_references _ Hok) as Hnd. rewrite El, fmap_app, fmap_cons in Hnd.
    rewrite fmap_app, fmap_cons. unfold row_reference at 2. by rewrite Hres.
  - intros z [->|[_ Hz]]%(elem_of_middle _ _ row); [done|]. eapply (ok_rows _ Hok). rewrite El.
    revert Hz. rewrite !elem_of_app, elem_of_cons. tauto.
  - intros a i. pose proof (ok_chains _ Hok a i) as Hch. rewrite El in Hch. revert Hch.
    autorewrite with sql. replace (in_chain a i (f row)) with (in_chain a i row)
      by (unfold in_chain; by rewrite Hres).
    destruct (in_chain a i row); [|done]. intros Hch. by eapply chain_ok_replace.
  - intros a. rewrite Hc, Hacc, (ok_used _ Hok). lia.
  - intros a. rewrite Hc. pose proof (ok_max _ Hok a).
    assert (holds_request a (f row) = true → holds_request a row = true).
    { unfold holds_request. rewrite Hres, !andb_true_iff, !negb_true_iff, !bool_decide_eq_false.
      naive_solver. }
    destruct (holds_request a (f row)), (holds_request a row); naive_solver lia.
Qed.

(** ** Acceptance of a new receipt *)

Lemma append_ok l r frozen used accounts :
  ledger_ok l → find_row l (sr_reference r) = None →
  (Z.of_nat (String.length (sr_reference r)) ≤ MAX_BYTES) →
  chain_ok (select_where (in_chain (sr_account r) (sr_invocation r)) (spend_receipts l)
            ++ [new_receipt r frozen used]) →
  row_ok (new_receipt r frozen used) →
  default 0 (spend_accounts l !! sr_account r) < i64_max →
  accounts = <[sr_account r := default 0 (spend_accounts l !! sr_account r) + 1]> (spend_accounts l) →
  ledger_ok (mkLedger accounts (spend_receipts l ++ [new_receipt r frozen used])).
Proof.
  intros Hok Hf Hlen Hch Hrow Hmax ->. set (x := new_receipt r frozen used) in *.
  assert (∀ a, count_where (holds_request a) (spend_receipts l ++ [x])
    = count_where (holds_request a) (spend_receipts l)
      + (if bool_decide (sr_account r = a) then 1 else 0)) as Hc.
  { intros a. autorewrite with sql. unfold holds_request. simpl. case_bool_decide; simpl; lia. }
  split; simpl.
  - rewrite fmap_app. apply NoDup_app. split_and!; [by apply Hok| |apply NoDup_singleton].
    intros k (row & -> & Hr)%list_elem_of_fmap Hk. simpl in Hk. apply list_elem_of_singleton in Hk.
    by eapply find_row_none.
  - intros z [Hz|Hz%list_elem_of_singleton]%elem_of_app; [by eapply ok_rows|by subst].
  - intros a i. autorewrite with sql.
    destruct (in_chain a i x) eqn:E.
    + apply in_chain_spec in E as [<- <-]. done.
    + simpl. rewrite app_nil_r. apply Hok.
  - intros a. rewrite Hc, <-(ok_used _ Hok). case_bool_decide as E.
    + subst a. by rewrite lookup_insert_eq.
    + rewrite lookup_insert_ne by done. lia.
  - intros a. rewrite Hc, <-(ok_used _ Hok). pose proof (ok_max _ Hok a). rewrite <-(ok_used _ Hok) in *.
    case_bool_decide; [subst|]; lia.
Qed.

Lemma append_later l row accounts :
  ledger_later l (mkLedger accounts (spend_receipts l ++ [row])).
Proof.
  exists (spend_receipts l), [row]. split; [done|]. by apply Forall_Forall2_diag, Forall_true.
Qed.

End Inv.

#[export] Hint Resolve row_later_refl soft_refl ledger_later_refl : sql.
