(* ===== verification/SpendProofs.v ===== *)
(** Every call of the spend ledger keeps [ledger_ok] and moves the ledger
    forward in [ledger_later]. *)

From Stdlib Require Import ZArith Lia.
From stdpp Require Import base gmap strings list sorting.
From S2P Require Import Prelude Core SpendTypes SpendLedger SpendInv.

#[local] Open Scope Z_scope.

Section Sound.
Context {J : JsonValues}.

Definition sound (l l' : Ledger) : Prop := ledger_ok l' ∧ ledger_later l l'.

Lemma sound_refl l : ledger_ok l → sound l l.
Proof. intros Hok. split; [done|apply ledger_later_refl]. Qed.

Lemma sound_trans l1 l2 l3 : sound l1 l2 → sound l2 l3 → sound l1 l3.
Proof. intros [_ H1] [Hok H2]. split; [done|by eapply ledger_later_trans]. Qed.

Lemma empty_ledger_ok : ledger_ok empty_ledger.
Proof.
  split; simpl; [constructor|by intros ? ?%elem_of_nil| |by intros a; rewrite lookup_empty|done].
  intros a i. split; [|by intros ? ? ?%elem_of_nil|done]. by intros [] ? [=].
Qed.

(** Arguments in the range of their Rust types. *)
Definition reservation_ok (r : SpendReservation) : Prop :=
  Z.of_nat (String.length (sr_reference r)) ≤ MAX_BYTES.

Definition limit_ok (limit : option Z) : Prop := ∀ n, limit = Some n → 0 ≤ n ≤ u32_max.

(** ** Reservation *)

(** The ceiling an attempt is accepted under, and the attempts its chain has
    used. *)
Definition frozen_limit (l : Ledger) (r : SpendReservation) (attempt_limit : option Z) : option Z :=
  match latest l (sr_account r) (sr_invocation r) ≫= rr_attempt_limit with
  | Some n => Some n
  | None => attempt_limit
  end.

Definition chain (l : Ledger) (r : SpendReservation) : list ReceiptRow :=
  select_where (in_chain (sr_account r) (sr_invocation r)) (spend_receipts l).

Lemma latest_used l r p : ledger_ok l → latest l (sr_account r) (sr_invocation r) = Some p →
  rr_attempts_used p = count_where used_attempt (chain l r).
Proof. intros Hok Hp. by apply (chain_attempts _ (ok_chains _ Hok _ _)). Qed.

Lemma chain_used l r : ledger_ok l →
  match latest l (sr_account r) (sr_invocation r) with Some p => rr_attempts_used p | None => 0 end
  = count_where used_attempt (chain l r).
Proof.
  intros Hok. destruct (latest _ _ _) as [p|] eqn:E; [by apply latest_used|].
  unfold latest in E. apply last_None in E. unfold chain. by rewrite E.
Qed.

Lemma active_false l a i : active l a i = false →
  ∀ row, row ∈ select_where (in_chain a i) (spend_receipts l) → rr_state row ≠ SpendUnknown.
Proof.
  unfold active. intros Ha row [Hr Hi]%elem_of_select_where Hs.
  apply not_true_iff_false in Ha. apply Ha, existsb_exists. exists row.
  split; [by apply list_elem_of_In|]. by rewrite Hi, bool_decide_eq_true_2.
Qed.

(** Everything an accepted reservation has checked, and what it stores. *)
Record accepted (l : Ledger) (r : SpendReservation) (attempt_limit : option Z) (handoff : bool)
    (l' : Ledger) : Prop := {
  acc_fresh : find_row l (sr_reference r) = None;
  acc_inactive : active l (sr_account r) (sr_invocation r) = false;
  acc_previous p : latest l (sr_account r) (sr_invocation r) = Some p →
    sr_binding (rr_reservation p) = sr_binding r
    ∧ (is_some (frozen_limit l r attempt_limit) = true ∨ handoff = true →
       rr_output p = None ∧ rr_state p ≠ SpendSettled);
  acc_attempts n : frozen_limit l r attempt_limit = Some n →
    count_where used_attempt (chain l r) < n ∧ count_where used_attempt (chain l r) < u32_max;
  acc_requests n : sr_request_limit r = Some n →
    n ≤ i64_max ∧ count_where (holds_request (sr_account r)) (spend_receipts l) < n;
  acc_room : count_where (holds_request (sr_account r)) (spend_receipts l) < i64_max;
  acc_ledger : l' = mkLedger
    (<[sr_account r := count_where (holds_request (sr_account r)) (spend_receipts l) + 1]>
       (spend_accounts l))
    (spend_receipts l ++ [new_receipt r (frozen_limit l r attempt_limit)
       (if is_some (frozen_limit l r attempt_limit)
        then count_where used_attempt (chain l r) + 1 else 0)]);
}.

Lemma explicit_frozen l r attempt_limit clock :
  is_some attempt_limit
  || match read clock <$> latest l (sr_account r) (sr_invocation r) with
     | Some p => is_some (rc_attempt_limit p) | None => false end
  = is_some (frozen_limit l r attempt_limit).
Proof.
  unfold frozen_limit. destruct (latest _ _ _) as [p|]; simpl; [|by destruct attempt_limit].
  by destruct (rr_attempt_limit p), attempt_limit.
Qed.

Lemma frozen_read l r attempt_limit clock :
  match (read clock <$> latest l (sr_account r) (sr_invocation r)) ≫= rc_attempt_limit with
  | Some n => Some n | None => attempt_limit end
  = frozen_limit l r attempt_limit.
Proof. unfold frozen_limit. by destruct (latest _ _ _). Qed.

Lemma used_read l r clock : ledger_ok l →
  match read clock <$> latest l (sr_account r) (sr_invocation r) with
  | Some p => rc_attempts_used p | None => 0 end
  = count_where used_attempt (chain l r).
Proof. intros Hok. rewrite <-(chain_used l r Hok). by destruct (latest _ _ _). Qed.

(** The decision of a reservation on a well-formed ledger, with the stored
    counters replaced by what they count. *)
Lemma reserve_eq l clock r attempt_limit handoff : ledger_ok l →
  reserve_with_limit_in l clock r attempt_limit handoff =
  let previous := latest l (sr_account r) (sr_invocation r) in
  let frozen := frozen_limit l r attempt_limit in
  let attempts := count_where used_attempt (chain l r) in
  let requests := count_where (holds_request (sr_account r)) (spend_receipts l) in
  if match previous with
     | Some p => negb (bool_decide (sr_binding (rr_reservation p) = sr_binding r))
     | None => false
     end
  then Err conflict
  else match find_row l (sr_reference r) with
  | Some old => if bool_decide (rr_reservation old = r) then Ok (l, false) else Err conflict
  | None =>
      match predecessor_refuses (is_some frozen) handoff (read clock <$> previous) with
      | Some e => Err e
      | None =>
          if active l (sr_account r) (sr_invocation r) then Err conflict
          else if match frozen with Some n => n <=? attempts | None => false end
          then Err (BudgetExhausted AttemptBudgetExhausted)
          else
            let? used := match frozen with
                         | Some _ => ok_or (checked_add u32_max attempts 1) storage
                         | None => Ok 0
                         end in
            let? limit := match sr_request_limit r with
                          | Some n => let? n := ok_or (i64_try_from n) storage in Ok (Some n)
                          | None => Ok None
                          end in
            if (requests <? i64_max) && match limit with Some n => requests <? n | None => true end
            then Ok (mkLedger (<[sr_account r := requests + 1]> (spend_accounts l))
                       (spend_receipts l ++ [new_receipt r frozen used]), true)
            else Err (BudgetExhausted SpendBudgetExhausted)
      end
  end.
Proof.
  intros Hok. unfold reserve_with_limit_in. rewrite invocation_in_ok, receipt_in_ok by done. rsimpl.
  rewrite explicit_frozen, frozen_read, used_read by done. unfold charge_account.
  rewrite (ok_used _ Hok). cbv zeta.
  assert (∀ (b : bool) (accounts : gmap string Z) rows,
    match (if b then Some accounts else None) with
    | Some accounts => Ok (mkLedger accounts rows, true)
    | None => Err (BudgetExhausted SpendBudgetExhausted)
    end = if b then Ok (mkLedger accounts rows, true)
          else Err (BudgetExhausted SpendBudgetExhausted)) as Hcharge by by intros [].
  set (requests := count_where (holds_request _) _).
  destruct (latest l (sr_account r) (sr_invocation r)) as [p|]; simpl fmap; cbn [rc_reservation read];
    [destruct (negb _); [done|]|];
    (destruct (find_row l (sr_reference r)) as [old|]; simpl fmap; cbn [rc_reservation read]; [done|]);
    (destruct (predecessor_refuses _ _ _); [done|]); (destruct (active _ _ _); [done|]);
    destruct (frozen_limit l r attempt_limit) as [n|];
    try (destruct (n <=? _); [done|]; destruct (checked_add _ _ _); [|done]); rsimpl;
    (destruct (sr_request_limit r) as [m|]; [destruct (i64_try_from m); [|done]|]; rsimpl; apply Hcharge).
Qed.

Lemma reserve_accepted l clock r attempt_limit handoff l' : ledger_ok l →
  reserve_with_limit_in l clock r attempt_limit handoff = Ok (l', true) →
  accepted l r attempt_limit handoff l'.
Proof.
  intros Hok. rewrite reserve_eq by done. cbv zeta.
  destruct (match latest l _ _ with Some p => _ | None => _ end) eqn:Hb; [done|].
  destruct (find_row l (sr_reference r)) as [old|] eqn:Hf; [case_bool_decide; by intros|].
  destruct (predecessor_refuses _ _ _) eqn:Hp; [done|].
  destruct (active _ _ _) eqn:Ha; [done|].
  destruct (match frozen_limit l r attempt_limit with Some n => _ | None => _ end) eqn:Hn; [done|].
  walk. destruct (_ && _) eqn:Hr; [|done]. intros [= <-]. bools.
  assert (∀ n, frozen_limit l r attempt_limit = Some n →
    count_where used_attempt (chain l r) < n ∧ checked_add u32_max (count_where used_attempt (chain l r)) 1
      = Some a) as Hfr.
  { intros n Ef. rewrite Ef in Hn, E. bools. split; [done|by eapply ok_or_ok]. }
  split; [done|done| | | |done|].
  - intros p Ep. rewrite Ep in Hb, Hp. bools. split; [done|]. unfold predecessor_refuses in Hp. simpl in Hp.
    intros Hor. replace (is_some (frozen_limit l r attempt_limit) || handoff) with true in Hp
      by (destruct Hor as [-> | ->]; [done|by rewrite orb_true_r]).
    destruct (rr_output p); [done|]. simpl in Hp. by case_bool_decide.
  - intros n [H1 H2%checked_add_some]%Hfr. lia.
  - intros n En. rewrite En in E0. unfold i64_try_from in E0. destruct (n <=? i64_max) eqn:Hle; [|done].
    simpl in E0. injection E0 as <-. bools. done.
  - do 4 f_equal. destruct (frozen_limit l r attempt_limit) as [n|]; simpl; [|congruence].
    destruct (Hfr n) as [_ H2%checked_add_some]; [done|lia].
Qed.

(** Conversely, a reservation that passes every check is accepted. *)
Lemma reserve_accepts l clock r attempt_limit handoff l' : ledger_ok l →
  accepted l r attempt_limit handoff l' →
  reserve_with_limit_in l clock r attempt_limit handoff = Ok (l', true).
Proof.
  intros Hok Hacc. destruct Hacc as [Hf Ha Hp Hn Hr Hm ->]. rewrite reserve_eq, Hf, Ha by done. cbv zeta.
  replace (match latest l _ _ with Some p => _ | None => _ end) with false.
  2:{ destruct (latest l _ _) as [p|]; [|done]. by rewrite bool_decide_eq_true_2 by (by apply Hp). }
  replace (predecessor_refuses _ _ _) with (@None ModelError).
  2:{ destruct (latest l _ _) as [p|]; [|done]. unfold predecessor_refuses. simpl.
      destruct (_ || _) eqn:E; [|done]. apply orb_true_iff in E.
      destruct (Hp p) as [_ Hp']; [done|]. destruct Hp' as [-> Hs]; [done|].
      by rewrite bool_decide_eq_false_2. }
  destruct (frozen_limit l r attempt_limit) as [n|] eqn:Ef; simpl.
  - destruct (Hn n) as [H1 H2]; [done|]. rewrite (proj2 (Z.leb_gt _ _)) by done. unfold checked_add.
    rewrite (proj2 (Z.leb_le _ _)) by lia. rsimpl.
    destruct (sr_request_limit r) as [m|]; [destruct (Hr m) as [H3 H4]; [done|]; unfold i64_try_from;
      rewrite (proj2 (Z.leb_le _ _)) by done|]; rsimpl;
      rewrite ?(proj2 (Z.ltb_lt _ _)) by done; done.
  - rsimpl.
    destruct (sr_request_limit r) as [m|]; [destruct (Hr m) as [H3 H4]; [done|]; unfold i64_try_from;
      rewrite (proj2 (Z.leb_le _ _)) by done|]; rsimpl;
      rewrite ?(proj2 (Z.ltb_lt _ _)) by done; done.
Qed.

Lemma new_attempts_ok l r attempt_limit handoff l' : ledger_ok l →
  accepted l r attempt_limit handoff l' →
  let frozen := frozen_limit l r attempt_limit in
  let used := if is_some frozen then count_where used_attempt (chain l r) + 1 else 0 in
  attempts_ok (chain l r ++ [new_receipt r frozen used]) (new_receipt r frozen used).
Proof.
  intros Hok Hacc frozen used.
  assert (∀ row, row ∈ chain l r → rr_attempt_limit row = None ∨ rr_attempt_limit row = frozen) as Hlim.
  { intros row Hr. unfold frozen, frozen_limit. destruct (latest l _ _) as [p|] eqn:E.
    - destruct (chain_attempts _ (ok_chains _ Hok _ _) p E) as [_ Hm]. simpl.
      destruct (rr_attempt_limit p) as [n|]; [by apply Hm|left; by apply Hm].
    - apply last_None in E. unfold chain in Hr. rewrite E in Hr. by apply elem_of_nil in Hr. }
  assert (∀ row, row ∈ chain l r ++ [new_receipt r frozen used] →
            rr_attempt_limit row = None ∨ rr_attempt_limit row = frozen) as Hall.
  { intros row [Hr|Hr%list_elem_of_singleton]%elem_of_app; [by apply Hlim|subst row; by right]. }
  unfold attempts_ok. simpl. split.
  - autorewrite with sql. unfold used_attempt at 2. simpl. rewrite andb_true_r. unfold used.
    destruct frozen as [n|] eqn:E; simpl; [lia|]. rewrite Z.add_0_r. symmetry.
    unfold count_where. rewrite select_where_none; [done|]. intros row Hr. unfold used_attempt.
    by destruct (Hlim row Hr) as [-> | ->].
  - destruct frozen as [n|] eqn:E; [|naive_solver]. split; [|done]. unfold used. simpl.
    destruct (acc_attempts _ _ _ _ _ Hacc n E). lia.
Qed.

(** A refused reservation changes nothing. *)
Lemma reserve_refused l clock r attempt_limit handoff l' : ledger_ok l →
  reserve_with_limit_in l clock r attempt_limit handoff = Ok (l', false) → l' = l.
Proof.
  intros Hok. rewrite reserve_eq by done. cbv zeta.
  destruct (match latest l _ _ with Some p => _ | None => _ end); [done|].
  destruct (find_row l (sr_reference r)) as [old|].
  - case_bool_decide; [|done]. by intros [= <-].
  - destruct (predecessor_refuses _ _ _); [done|]. destruct (active _ _ _); [done|].
    destruct (match frozen_limit l r attempt_limit with Some n => _ | None => _ end); [done|].
    walk. by destruct (_ && _).
Qed.

Lemma reserve_sound l clock r attempt_limit handoff l' b : ledger_ok l → reservation_ok r →
  limit_ok attempt_limit →
  reserve_with_limit_in l clock r attempt_limit handoff = Ok (l', b) → sound l l'.
Proof.
  intros Hok Hres Hlim Heq. destruct b.
  - pose proof (reserve_accepted _ _ _ _ _ _ Hok Heq) as Hacc.
    pose proof (new_attempts_ok _ _ _ _ _ Hok Hacc) as Hatt. cbv zeta in Hatt.
    pose proof (count_where_nonneg used_attempt (chain l r)) as Hpos.
    assert (limit_ok (frozen_limit l r attempt_limit)) as Hfl.
    { intros n. unfold frozen_limit. destruct (latest l _ _) as [p|] eqn:E; simpl; [|apply Hlim].
      apply latest_elem in E as [Hp _]. destruct (rr_attempt_limit p) as [m|] eqn:Em; [|apply Hlim].
      intros [= <-]. by eapply ok_limit; [apply (ok_rows _ Hok)|]. }
    destruct Hacc as [Hf Ha Hp Hn Hr Hm ->]. split; [|apply append_later].
    eapply append_ok; [done|done|done| | |by rewrite (ok_used _ Hok)|by rewrite (ok_used _ Hok)].
    + apply chain_ok_append; [apply Hok|by apply active_false| |done]. intros y Hy. by apply Hp.
    + split; simpl; try done; [|by left].
      destruct (frozen_limit l r attempt_limit) as [n|]; simpl; [|unfold u32_max; lia].
      destruct (Hn n); [done|]. lia.
  - rewrite (reserve_refused _ _ _ _ _ _ Hok Heq). by apply sound_refl.
Qed.

Lemma reserve_handoff_sound l clock handoff l' b : ledger_ok l → reservation_ok (ah_reservation handoff) →
  reserve_handoff_in l clock handoff = Ok (l', b) → sound l l'.
Proof.
  intros Hok Hres. unfold reserve_handoff_in. case_bool_decide; [done|]. walk.
  assert (sound l l0) as Hs by (eapply reserve_sound; [done|done| |done]; by intros ? [=]).
  destruct b0; cycle 1.
  { walk. case_bool_decide; [|done]. by intros [= <- _]. }
  intros [= <- _]. apply (sound_trans _ l0 _ Hs).
  apply reserve_accepted in E as [Hf _ _ _ _ _ ->]; [|done]. destruct Hs as [Hok' _]. split.
  - apply soft_update_ok; [done|]. intros row Hr _. split; [done|].
    destruct (ok_rows _ Hok' row Hr) as [A B C D F G K L M]. by split.
  - apply update_later. intros row [Hr| ->%list_elem_of_singleton]%elem_of_app Hk; [|by split].
    exfalso. unfold has_reference in Hk. bools. by eapply find_row_none.
Qed.

(** ** Settlement *)

(** The evidence [finish_in] stores under a receipt. *)
Definition evidence (row : ReceiptRow) (output : option Json) : option Json :=
  match output with Some _ => Some output_received | None => rr_output row end.

(** What [finish_in] refuses whatever the receipt's state. *)
Definition evidence_refused (row : ReceiptRow) (state : SpendState) (usage : option UsageTrace)
    (output : option Json) : bool :=
  (bool_decide (state = SpendSettled)
   && match usage with Some u => negb (has_measured_usage u) | None => true end)
  || (bool_decide (state = SpendReleased) && (is_some (rr_output row) || is_some output)).

(** The account table after the verdict [state] on a receipt of [account]. *)
Definition refund (l : Ledger) (account : string) (state : SpendState) : gmap string Z :=
  if bool_decide (state = SpendReleased)
  then <[account := count_where (holds_request account) (spend_receipts l) - 1]> (spend_accounts l)
  else spend_accounts l.

Lemma holds_own_request l row : row ∈ spend_receipts l → rr_state row = SpendUnknown →
  0 < count_where (holds_request (sr_account (rr_reservation row))) (spend_receipts l).
Proof.
  intros [l1 [l2 ->]]%list_elem_of_split Hs. autorewrite with sql. unfold holds_request at 2.
  rewrite Hs, bool_decide_eq_true_2 by done. simpl.
  pose proof (count_where_nonneg (holds_request (sr_account (rr_reservation row))) l1).
  pose proof (count_where_nonneg (holds_request (sr_account (rr_reservation row))) l2). lia.
Qed.

(** The decision of a settlement on a well-formed ledger. *)
Lemma finish_eq l clock reference state usage output : ledger_ok l →
  finish_in l clock reference state usage output =
  match find_row l reference with
  | None => Err conflict
  | Some row =>
      if evidence_refused row state usage output then Err conflict
      else if bool_decide (rr_state row = SpendUnknown) then
        Ok (mkLedger (refund l (sr_account (rr_reservation row)) state)
              (update_where (has_reference reference) (set_evidence state usage (evidence row output))
                 (spend_receipts l)), tt)
      else if bool_decide (rr_state row = state) && bool_decide (rr_usage row = usage)
              && bool_decide (rr_output row = evidence row output)
      then Ok (l, tt) else Err conflict
  end.
Proof.
  intros Hok. unfold finish_in. rewrite receipt_in_ok by done. rsimpl.
  destruct (find_row l reference) as [row|] eqn:Hf; simpl; [|done].
  unfold evidence_refused, evidence, refund. destruct (_ || _); [done|].
  case_bool_decide as Hs; simpl; [|done].
  apply find_row_elem in Hf as [Hr _]. pose proof (holds_own_request l row Hr Hs) as Hpos.
  rewrite <-(ok_used _ Hok) in *. destruct (bool_decide (state = SpendReleased)); [|done].
  destruct (spend_accounts l !! sr_account (rr_reservation row)) as [used|]; simpl in *; [|lia].
  by rewrite (proj2 (Z.ltb_lt _ _)).
Qed.

Lemma set_evidence_ok row state usage output : row_ok row → rr_state row = SpendUnknown →
  evidence_refused row state usage output = false →
  row_ok (set_evidence state usage (evidence row output) row).
Proof.
  intros Hok Hs Href. unfold evidence_refused in Href. apply orb_false_iff in Href as [Hset Hrel].
  destruct Hok as [A B C D E F G K L]. split; simpl; [done|done|done| | | | |done|done].
  - intros ->. rewrite bool_decide_eq_true_2 in Hset by done. simpl in Hset.
    destruct usage as [u|]; [|done]. exists u. by bools.
  - unfold evidence. destruct output; [by right|done].
  - intros ->. rewrite bool_decide_eq_true_2 in Hrel by done. simpl in Hrel. bools.
    unfold evidence. by destruct (rr_output row), output.
  - intros Hp. destruct (G Hp). congruence.
Qed.

Lemma set_evidence_later row state usage output : rr_state row = SpendUnknown →
  row_later row (set_evidence state usage (evidence row output) row).
Proof.
  intros Hs. split; simpl; [done|done|naive_solver| |done|done].
  unfold evidence. destruct output; naive_solver.
Qed.

(** The receipt an update by reference reaches is the one found there. *)
Lemma reference_row l reference row row' : ledger_ok l → find_row l reference = Some row →
  row' ∈ spend_receipts l → has_reference reference row' = true → row' = row.
Proof.
  intros Hok Hf Hr Hk. unfold has_reference in Hk. bools. subst reference.
  rewrite (find_row_unique l row') in Hf by done. congruence.
Qed.

Lemma finish_in_sound l clock reference state usage output l' u : ledger_ok l →
  finish_in l clock reference state usage output = Ok (l', u) → sound l l'.
Proof.
  intros Hok. rewrite finish_eq by done. destruct (find_row l reference) as [row|] eqn:Hf; [|done].
  destruct (evidence_refused _ _ _ _) eqn:Href; [done|]. case_bool_decide as Hs; cycle 1.
  { destruct (_ && _); [|done]. intros [= <- _]. by apply sound_refl. }
  intros [= <- _]. pose proof (find_row_elem _ _ _ Hf) as [Hr _].
  pose proof (ok_rows _ Hok row Hr) as Hrow. split.
  - eapply update_ok; [done|exact Hf|done|by apply set_evidence_ok| | |].
    + split_and!; [done|done|by intros _|by left].
    + by rewrite Hs.
    + intros a. unfold refund. rewrite <-(ok_used _ Hok). unfold holds_request. simpl.
      rewrite Hs. simpl. case_bool_decide as Est; simpl.
      * subst state. case_bool_decide as Ea; simpl.
        -- subst a. rewrite lookup_insert_eq. simpl. lia.
        -- rewrite lookup_insert_ne by done. lia.
      * lia.
  - apply update_later. intros row' Hr' Hk.
    rewrite (reference_row l reference row row') by done. by apply set_evidence_later.
Qed.

(** The receipt a pre-dispatch release leaves. *)
Definition released (row : ReceiptRow) : ReceiptRow := set_released (set_evidence SpendReleased None None row).

(** The decision of a pre-dispatch release on a well-formed ledger. *)
Lemma release_eq l clock reference : ledger_ok l →
  release_in l clock reference =
  match find_row l reference with
  | None => Err conflict
  | Some row =>
      if bool_decide (rr_state row = SpendUnknown) then
        if is_some (rr_output row) then Err conflict
        else Ok (mkLedger (refund l (sr_account (rr_reservation row)) SpendReleased)
                   (update_where (has_reference reference) released (spend_receipts l)), tt)
      else if rr_pre_dispatch_released row then Ok (l, tt) else Err conflict
  end.
Proof.
  intros Hok. unfold release_in. rewrite receipt_in_ok by done. rsimpl.
  destruct (find_row l reference) as [row|] eqn:Hf; simpl; [|done].
  pose proof (find_row_elem _ _ _ Hf) as [Hr _]. pose proof (ok_rows _ Hok row Hr) as Hrow.
  rewrite finish_eq, Hf by done. unfold evidence_refused, evidence. simpl. rewrite orb_false_r.
  case_bool_decide as Hs; simpl.
  - destruct (rr_output row) as [o|] eqn:Ho; simpl; [done|]. unfold update_receipt. simpl.
    do 3 f_equal. rewrite update_where_compose by done.
    assert (∀ x, x ∈ spend_receipts l → has_reference reference x = true →
              (set_released ∘ set_evidence SpendReleased None None) x = released x) as H by done.
    done.
  - destruct (rr_pre_dispatch_released row) eqn:Hp; simpl; [|done].
    destruct (ok_pre _ Hrow Hp) as [Es Eu]. rewrite (ok_released _ Hrow Es). simpl.
    rewrite Es, Eu. simpl. do 2 f_equal. unfold update_receipt. rewrite update_where_id; [by destruct l|].
    intros x Hx Hk. rewrite (reference_row l reference row x) by done. destruct row; simpl in *.
    subst. unfold set_released. simpl. by rewrite andb_false_r.
Qed.

(** An undecided explicit receipt is counted by its own counter. *)
Lemma undecided_counted l row : ledger_ok l → row ∈ spend_receipts l → rr_state row = SpendUnknown →
  used_attempt row = true → 1 ≤ rr_attempts_used row.
Proof.
  intros Hok Hr Hs Hu. set (a := sr_account (rr_reservation row)). set (i := sr_invocation (rr_reservation row)).
  assert (row ∈ select_where (in_chain a i) (spend_receipts l)) as Hc.
  { apply elem_of_select_where. split; [done|]. by apply in_chain_spec. }
  pose proof (ok_chains _ Hok a i) as Hch. apply list_elem_of_split in Hc as (c1 & c2 & Ec).
  rewrite Ec in Hch. pose proof (chain_unknown_last _ _ _ Hch Hs) as ->.
  destruct (chain_attempts _ Hch row) as [-> _]; [by rewrite last_snoc|].
  autorewrite with sql. rewrite Hu. pose proof (count_where_nonneg used_attempt c1). lia.
Qed.

Lemma release_in_sound l clock reference l' u : ledger_ok l →
  release_in l clock reference = Ok (l', u) → sound l l'.
Proof.
  intros Hok. rewrite release_eq by done. destruct (find_row l reference) as [row|] eqn:Hf; [|done].
  pose proof (find_row_elem _ _ _ Hf) as [Hr _]. pose proof (ok_rows _ Hok row Hr) as Hrow.
  case_bool_decide as Hs; cycle 1.
  { destruct (rr_pre_dispatch_released row); [|done]. intros [= <- _]. by apply sound_refl. }
  destruct (rr_output row) as [o|] eqn:Ho; simpl; [done|]. intros [= <- _].
  pose proof (undecided_counted l row Hok Hr Hs) as Hcnt. split.
  - eapply update_ok; [done|exact Hf|done| | | |].
    + destruct Hrow as [A B C D E F G K L]. split; simpl; try done; [|by left].
      unfold used_attempt in Hcnt. destruct (_ && _); lia.
    + split_and!; [done|done|done|right]. split_and!; [done|done|]. simpl. unfold used_attempt.
      destruct (_ && _); lia.
    + done.
    + intros a. unfold refund. rewrite <-(ok_used _ Hok). unfold holds_request. simpl.
      rewrite Hs, andb_false_r. simpl. rewrite andb_true_r. case_bool_decide as Ea; [subst a; rewrite lookup_insert_eq; simpl|
        rewrite lookup_insert_ne by done]; lia.
  - apply update_later. intros row' Hr' Hk. rewrite (reference_row l reference row row') by done.
    split; simpl; [done|done|naive_solver|by rewrite Ho|done|done].
Qed.

(** ** Saved answers and handoffs *)

Lemma clear_row_ok row : row_ok row → row_ok (clear_recovery row).
Proof. intros [A B C D E F G K L]. split; simpl; try done. Qed.

Lemma clear_soft row : soft row (clear_recovery row).
Proof. done. Qed.

Lemma clear_later row : row_later row (clear_recovery row).
Proof. by split. Qed.

(** Clearing any set of saved answers. *)
Lemma clear_sound l p : ledger_ok l →
  sound l (mkLedger (spend_accounts l) (update_where p clear_recovery (spend_receipts l))).
Proof.
  intros Hok. split.
  - apply soft_update_ok; [done|]. intros row Hr _. split; [done|by eapply clear_row_ok, ok_rows].
  - apply update_later. intros row _ _. apply clear_later.
Qed.

Lemma discard_sound l account invocation : ledger_ok l → sound l (discard_recovery l account invocation).
Proof.
  intros Hok. unfold discard_recovery. destruct (latest _ _ _); [by apply clear_sound|by apply sound_refl].
Qed.

Lemma clear_references_sound l references : ledger_ok l → sound l (clear_references l references).1.
Proof.
  revert l. induction references as [|reference references IH]; intros l Hok; simpl; [by apply sound_refl|].
  destruct (clear_references _ _) as [l' n] eqn:E. simpl.
  pose proof (clear_sound l (has_reference reference) Hok) as Hs.
  specialize (IH (update_receipt reference clear_recovery l)). rewrite E in IH.
  eapply sound_trans; [exact Hs|apply IH, Hs].
Qed.

Lemma handoff_free_spec reference input row : handoff_free reference input row = true →
  rr_handoff_input row = Some input ∧ rr_dispatch_owner row = None.
Proof. unfold handoff_free. intros. by bools. Qed.

Lemma acquire_sound l clock handoff account input owner l' u : ledger_ok l →
  acquire_handoff_in l clock handoff account input owner = Ok (l', u) → sound l l'.
Proof.
  intros Hok. unfold acquire_handoff_in. rewrite receipt_in_ok by done. walk.
  destruct (bool_decide (length _ = _)); [|done]. intros [= <- _].
  split.
  - apply soft_update_ok; [done|]. intros row Hr [Hi _]%handoff_free_spec. split; [done|].
    destruct (ok_rows _ Hok row Hr) as [A B C D E' F G K L]. split; simpl; try done.
  - apply update_later. intros row Hr [Hi Ho]%handoff_free_spec. split; simpl; try done. by rewrite Ho.
Qed.

Lemma save_recovery_sound `{!Chrono} policy l clock reference output retention deadline invocation now l' u :
  ledger_ok l →
  save_recovery_in policy l clock reference output retention deadline invocation now = Ok (l', u) →
  sound l l'.
Proof.
  intros Hok. unfold save_recovery_in. case_bool_decide; [intros [= <- _]; by apply sound_refl|].
  rewrite receipt_in_ok by done. rsimpl. destruct (find_row l reference) as [row|] eqn:Hf; simpl; [|done].
  destruct (policy _ _) as [[erased until]| |]; rsimpl; [|done..].
  destruct output as [value|]; [|intros [= <- _]; by apply sound_refl].
  destruct (rr_attempt_limit row) as [n|] eqn:Hn; simpl; [|intros [= <- _]; by apply sound_refl].
  destruct (is_some (rr_output row)).
  { case_bool_decide; [|done]. intros [= <- _]. by apply sound_refl. }
  destruct (retention_end retention now) as [expires|]; rsimpl; [|done].
  destruct (_ || _); [intros [= <- _]; by apply sound_refl|]. intros [= <- _].
  split.
  - apply soft_update_ok; [done|]. intros row' Hr' Hk. rewrite (reference_row l reference row row') by done.
    split; [done|]. destruct (ok_rows _ Hok row) as [A B C D E F G K L]; [by eapply find_row_elem|].
    split; simpl; try done.
  - apply update_later. intros row' _ _. by split.
Qed.

Lemma finish_sound `{!Chrono} policy retention l now clock reference state usage output invocation l' a :
  ledger_ok l →
  SpendLedger.finish policy retention l now clock reference state usage output invocation = (l', a) →
  sound l l'.
Proof.
  intros Hok. unfold SpendLedger.finish, commit.
  destruct (save_recovery_in _ _ _ _ _ _ _ _ _) as [[l1 u]| |] eqn:E; rsimpl;
    [|intros [= <- _]; by apply sound_refl..].
  apply save_recovery_sound in E; [|done].
  destruct (finish_in l1 _ _ _ _ _) as [[l2 u2]| |] eqn:E2; [|intros [= <- _]; by apply sound_refl..].
  intros [= <- _]. eapply sound_trans; [exact E|]. eapply finish_in_sound; [apply E|done].
Qed.

Lemma find_row_update l accounts reference f row : ledger_ok l → find_row l reference = Some row →
  row_reference (f row) = reference →
  find_row (mkLedger accounts (update_where (has_reference reference) f (spend_receipts l))) reference
  = Some (f row).
Proof.
  intros Hok Hf Hk. destruct (find_row_split _ _ _ Hok Hf) as (l1 & l2 & El & Ek & H1 & H2).
  unfold find_row. simpl. rewrite El, has_reference_key, unique_key_update by done.
  rewrite select_where_app, select_where_none.
  - rewrite select_where_cons. by rewrite bool_decide_eq_true_2.
  - intros y Hy. by apply bool_decide_eq_false, H1.
Qed.

(** What a granted dispatch says of the receipt. *)
Lemma acquired l clock handoff account input owner l' : ledger_ok l →
  acquire_handoff l clock handoff account input owner = (l', Ok tt) →
  let reference := sr_reference (ah_reservation handoff) in
  ∃ row, find_row l reference = Some row ∧ rr_reservation row = ah_reservation handoff
    ∧ rr_state row = SpendUnknown ∧ sr_account (rr_reservation row) = account
    ∧ rr_handoff_input row = Some input ∧ rr_dispatch_owner row = None
    ∧ ledger_ok l' ∧ find_row l' reference = Some (set_dispatch_owner owner row).
Proof.
  intros Hok. unfold acquire_handoff, commit. destruct (acquire_handoff_in _ _ _ _ _ _) as [[l1 u]| |] eqn:Ha;
    [|done..]. intros [= <-]. pose proof (acquire_sound _ _ _ _ _ _ _ _ Hok Ha) as [Hok' _].
  revert Ha. unfold acquire_handoff_in. rewrite receipt_in_ok by done. rsimpl. cbv zeta.
  set (reference := sr_reference (ah_reservation handoff)).
  destruct (find_row l reference) as [row|] eqn:Hf; simpl; [|done].
  destruct (_ || _) eqn:Hg; [done|]. bools.
  destruct (bool_decide (length _ = _)) eqn:Hlen; [|done]. bools. intros [= <- _].
  destruct (select_where _ (spend_receipts l)) as [|row' rest] eqn:Hsel; [done|].
  assert (row' ∈ select_where (handoff_free reference input) (spend_receipts l)) as [Hr' Hfree]%elem_of_select_where
    by (rewrite Hsel; left).
  assert (row' = row) as ->.
  { apply (reference_row l reference row row' Hok Hf Hr'). unfold handoff_free in Hfree. by bools. }
  pose proof (handoff_free_spec _ _ _ Hfree) as [Hi Ho].
  exists row. split_and!; [done|done|done|done|done|done|done|].
  rewrite <-(find_row_update l (spend_accounts l) reference (set_dispatch_owner owner) row Hok Hf);
    [|by destruct (find_row_elem _ _ _ Hf)].
  f_equal. f_equal. unfold update_where. apply Forall_fmap_ext_1, Forall_forall. intros x Hx. simpl.
  destruct (handoff_free reference input x) eqn:E1, (has_reference reference x) eqn:E2; [done| | |done].
  - unfold handoff_free in E1. rewrite E2 in E1. done.
  - rewrite (reference_row l reference row x) in E1 by done. congruence.
Qed.

(** ** Expiry *)

Section Expiry.
Context `{!ExpiryOrder}.

(** [row'] is [row] or, when [row] was expired, its cleared form. *)
Definition swept (now : DateTime) (row row' : ReceiptRow) : Prop :=
  row' = row ∨ expired now row = true ∧ row' = clear_recovery row.

Lemma expired_cleared now row : expired now (clear_recovery row) = false.
Proof. done. Qed.

(** Sweeping some rows first does not change what a full sweep leaves. *)
Lemma swept_update now rows rows' : Forall2 (swept now) rows rows' →
  update_where (expired now) clear_recovery rows' = update_where (expired now) clear_recovery rows.
Proof.
  induction 1 as [|row row' rows rows' Hs _ IH]; [done|]. unfold update_where in *. simpl.
  f_equal; [|exact IH]. destruct Hs as [-> |[E ->]]; [done|by rewrite E].
Qed.

Definition sweep (chosen : list nat) (p : nat * ReceiptRow) : ReceiptRow :=
  if bool_decide (p.1 ∈ chosen) then clear_recovery p.2 else p.2.

Lemma sweep_count now chosen (ix : list (nat * ReceiptRow)) :
  count_where (expired now) (sweep chosen <$> ix)
  + count_where (λ p, bool_decide (p.1 ∈ chosen)) (select_where (λ p, expired now p.2) ix)
  = count_where (expired now) ix.*2.
Proof.
  induction ix as [|[i row] ix IH]; [done|]. rewrite !fmap_cons, select_where_cons, !count_where_cons.
  simpl. rewrite <-IH. unfold sweep at 1. simpl. destruct (expired now row) eqn:E; case_bool_decide as Ec;
    rewrite ?count_where_cons, ?expired_cleared, ?E; simpl;
    rewrite ?(bool_decide_eq_true_2 _ Ec), ?(bool_decide_eq_false_2 _ Ec); lia.
Qed.

Lemma sweep_swept now chosen (ix : list (nat * ReceiptRow)) :
  (∀ p, p ∈ ix → p.1 ∈ chosen → expired now p.2 = true) →
  Forall2 (swept now) ix.*2 (sweep chosen <$> ix).
Proof.
  intros Hc. apply Forall2_fmap_2, Forall_Forall2_diag, Forall_forall. intros p Hp. unfold sweep, swept.
  case_bool_decide; [right; split; [by apply Hc|done]|by left].
Qed.

Lemma length_select_snd now (ix : list (nat * ReceiptRow)) :
  length (select_where (expired now) ix.*2) = length (select_where (λ p, expired now p.2) ix).
Proof.
  induction ix as [|p ix IH]; [done|]. rewrite fmap_cons, !select_where_cons.
  destruct (expired now p.2); simpl; by rewrite IH.
Qed.

(** One batch: it sweeps at most 64 expired rows, and some if there are any. *)
Lemma expire_batch_spec now rows rows' n : expire_batch now rows = (rows', n) →
  Forall2 (swept now) rows rows'
  ∧ count_where (expired now) rows' = count_where (expired now) rows - Z.of_nat n
  ∧ (n ≤ 64)%nat ∧ (n = 0%nat → count_where (expired now) rows = 0).
Proof.
  unfold expire_batch. set (sel := select_where _ (imap pair rows)).
  set (chosen := take 64 (expiry_order sel)). intros [= <- <-].
  replace (imap _ rows) with (sweep chosen.*1 <$> imap pair rows) by (by rewrite fmap_imap).
  assert (sel ≡ₚ chosen ++ drop 64 (expiry_order sel)) as Hperm.
  { unfold chosen. rewrite take_drop. symmetry. apply expiry_order_perm. }
  assert (NoDup sel.*1) as Hnd.
  { eapply sublist_NoDup; [apply (imap_pair_fst rows)|]. apply fmap_sublist. unfold sel, select_where.
    apply sublist_filter. }
  pose proof (sweep_count now chosen.*1 (imap pair rows)) as Hcount. fold sel in Hcount.
  rewrite (count_chosen chosen (drop 64 (expiry_order sel)) sel Hnd Hperm), imap_pair_snd in Hcount.
  split_and!; [|lia|unfold chosen; rewrite length_take; lia|].
  - rewrite <-(imap_pair_snd rows) at 1. apply sweep_swept. intros [i row] Hp Hc. simpl in *.
    apply list_elem_of_fmap in Hc as ([i' row'] & -> & Hc). simpl in *.
    assert ((i', row') ∈ sel) as [Hs E]%elem_of_select_where.
    { rewrite Hperm. apply elem_of_app. by left. }
    apply elem_of_lookup_imap in Hp as (j & x & [= -> ->] & Hx).
    apply elem_of_lookup_imap in Hs as (j' & x' & [= -> ->] & Hx'). simpl in E. congruence.
  - intros Hz. unfold chosen in Hz. rewrite length_take in Hz.
    assert (length sel = 0%nat) as Hl by (rewrite <-(Permutation_length (expiry_order_perm sel)); lia).
    rewrite <-(imap_pair_snd rows). unfold count_where. rewrite length_select_snd. fold sel. lia.
Qed.

(** Enough batches clear everything that has expired. *)
Lemma expire_loop_spec fuel now rows : count_where (expired now) rows < Z.of_nat fuel →
  expire_loop fuel now rows = Some (update_where (expired now) clear_recovery rows,
    Z.to_nat (count_where (expired now) rows)).
Proof.
  revert rows. induction fuel as [|fuel IH]; intros rows Hc.
  { pose proof (count_where_nonneg (expired now) rows). lia. }
  cbn [expire_loop]. destruct (expire_batch now rows) as [rows' n] eqn:E.
  apply expire_batch_spec in E as (Hs & Hn & _ & Hz). rewrite <-(swept_update _ _ _ Hs).
  case_bool_decide as Hb.
  - specialize (Hz Hb). rewrite Hz. do 2 f_equal. symmetry. apply update_where_none. intros row Hr.
    apply not_true_iff_false. intros He. assert (count_where (expired now) rows' = 0) as Hc0 by lia.
    unfold count_where in Hc0. assert (row ∈ select_where (expired now) rows') as Hin
      by (by apply elem_of_select_where).
    destruct (select_where (expired now) rows'); [by apply elem_of_nil in Hin|]. simpl in Hc0. lia.
  - pose proof (count_where_nonneg (expired now) rows'). rewrite IH by lia. simpl. do 2 f_equal. lia.
Qed.

Lemma expire_recovery_eq l now : expire_recovery l now =
  Some (mkLedger (spend_accounts l) (update_where (expired now) clear_recovery (spend_receipts l)),
        Z.to_nat (count_where (expired now) (spend_receipts l))).
Proof.
  unfold expire_recovery. rewrite expire_loop_spec; [done|].
  pose proof (count_where_length (expired now) (spend_receipts l)). lia.
Qed.

(** ** Every call *)

Definition call_ok (call : LedgerCall) : Prop :=
  match call with
  | CReserve r => reservation_ok r
  | CReserveExplicit r limit => reservation_ok r ∧ 0 ≤ limit ≤ u32_max
  | CReserveHandoff handoff => reservation_ok (ah_reservation handoff)
  | _ => True
  end.

Lemma commit_sound {A : Type} l (c : result ModelError (Ledger * A)) : ledger_ok l →
  (∀ l' a, c = Ok (l', a) → sound l l') → sound l (commit l c).1.
Proof.
  intros Hok Hc. destruct c as [[l' a]| |]; simpl; [by eapply Hc|by apply sound_refl..].
Qed.

Lemma ledger_exec_sound `{!Chrono} policy retention l now clock call : ledger_ok l → call_ok call →
  sound l (ledger_exec policy retention l now clock call).1.
Proof.
  intros Hok Hc. destruct call; simpl in *.
  - apply commit_sound; [done|]. intros l' a. apply reserve_sound; [done|done|by intros ? [=]].
  - apply commit_sound; [done|]. intros l' a. apply reserve_sound; [done|apply Hc|].
    intros ? [= <-]. apply Hc.
  - apply commit_sound; [done|]. intros l' a. by apply reserve_handoff_sound.
  - apply commit_sound; [done|]. intros l' a. by apply acquire_sound.
  - apply commit_sound; [done|]. intros l' a. by apply release_in_sound.
  - destruct (SpendLedger.finish _ _ _ _ _ _ _ _ _ _) as [l' a] eqn:E. by eapply finish_sound.
  - by apply discard_sound.
  - apply commit_sound; [done|]. unfold purge_recovery. intros l' a. walk. intros [= Ec].
    pose proof (clear_references_sound l a0 Hok) as Hs. by rewrite Ec in Hs.
  - rewrite expire_recovery_eq. by apply clear_sound.
Qed.

End Expiry.
End Sound.
