(* ===== verification/SpendTheorems.v ===== *)
(** What the spend ledger promises: the accounts count the requests in use, a
    reservation is accepted exactly within its budgets, evidence is final,
    releases refund once, handoffs are used once, saved answers last until
    their expiry and no longer. *)

From Stdlib Require Import ZArith Lia.
From stdpp Require Import base gmap strings list sorting.
From S2P Require Import Prelude Core SpendTypes SpendLedger SpendInv SpendProofs.

#[local] Open Scope Z_scope.

Section Theorems.
Context {J : JsonValues} `{!Chrono} `{!ExpiryOrder}.

(** ** Histories *)

(** A call with the clock readings it sees and the job policy in force. *)
Record LedgerEvent : Type := mkEvent {
  ev_policy : option string → string → result ModelError (bool * option DateTime);
  ev_now : DateTime;
  ev_clock : DateTime;
  ev_call : LedgerCall;
}.

Definition ledger_step (retention : Z) (l : Ledger) (e : LedgerEvent) : Ledger :=
  (ledger_exec (ev_policy e) retention l (ev_now e) (ev_clock e) (ev_call e)).1.

Definition run_ledger (retention : Z) (l : Ledger) (events : list LedgerEvent) : Ledger :=
  foldl (ledger_step retention) l events.

Definition events_ok (events : list LedgerEvent) : Prop := Forall (λ e, call_ok (ev_call e)) events.

Lemma run_ledger_sound retention l events : ledger_ok l → events_ok events →
  sound l (run_ledger retention l events).
Proof.
  intros Hok He. revert l Hok. induction He as [|e events Hc _ IH]; intros l Hok; simpl.
  - by apply sound_refl.
  - assert (sound l (ledger_step retention l e)) as Hs by (by apply ledger_exec_sound).
    eapply sound_trans; [exact Hs|]. apply IH, Hs.
Qed.

Lemma reached_ok retention events : events_ok events → ledger_ok (run_ledger retention empty_ledger events).
Proof. intros He. by apply run_ledger_sound; [apply empty_ledger_ok|]. Qed.

(** A receipt and its reference survive any history. *)
Lemma run_row retention l events row : ledger_ok l → events_ok events → row ∈ spend_receipts l →
  let l' := run_ledger retention l events in
  ledger_ok l' ∧ ∃ row', find_row l' (row_reference row) = Some row' ∧ row_later row row'.
Proof.
  intros Hok He Hr l'. destruct (run_ledger_sound retention l events Hok He) as [Hok' Hl].
  split; [done|]. destruct (ledger_later_row _ _ _ Hl Hr) as (row' & Hr' & Hrow). exists row'. split; [|done].
  rewrite <-(find_row_unique l' row') by done. unfold row_reference. by rewrite (later_reservation _ _ Hrow).
Qed.

(** ** The theorems *)

(** C31: after any sequence of ledger calls, an account's [used] counter is the
    number of its receipts that are not released and stays within [i64]; the
    receipts of one account and invocation share one binding, only the latest
    can be undecided, and when it is explicit all explicit receipts of the
    invocation carry its frozen ceiling, and those that were not released
    before dispatch do not exceed it. *)
Theorem ledger_accounts_sound retention events account invocation :
  events_ok events →
  let l := run_ledger retention empty_ledger events in
  let receipts := select_where (in_chain account invocation) (spend_receipts l) in
  default 0 (spend_accounts l !! account) = count_where (holds_request account) (spend_receipts l)
  ∧ default 0 (spend_accounts l !! account) ≤ i64_max
  ∧ (∀ row row', row ∈ receipts → row' ∈ receipts →
       sr_binding (rr_reservation row) = sr_binding (rr_reservation row'))
  ∧ (∀ row, row ∈ receipts → rr_state row = SpendUnknown → last receipts = Some row)
  ∧ (∀ row n, last receipts = Some row → rr_attempt_limit row = Some n →
       count_where used_attempt receipts ≤ n
       ∧ rr_attempts_used row = count_where used_attempt receipts
       ∧ ∀ row', row' ∈ receipts → rr_attempt_limit row' ∈ [None; Some n]).
Proof.
  intros He l receipts. pose proof (reached_ok retention events He) as Hok. fold l in Hok.
  pose proof (ok_chains _ Hok account invocation) as Hc. fold receipts in Hc. split_and!.
  - by apply Hok.
  - rewrite (ok_used _ Hok). by apply Hok.
  - apply Hc.
  - intros row [c1 [c2 E]]%list_elem_of_split Hs. rewrite E in Hc |- *.
    rewrite (chain_unknown_last _ _ _ Hc Hs). by rewrite last_snoc.
  - intros row n Hl Hn. destruct (chain_attempts _ Hc row Hl) as [Ha Hm]. rewrite Hn in Hm.
    destruct Hm as [Hle Hm]. split_and!; [lia|done|]. intros row' Hr'.
    destruct (Hm row' Hr') as [-> | ->]; set_solver.
Qed.

(** on any ledger reached by calls, a reservation is newly accepted
    exactly when its reference is unused, the invocation has no undecided
    attempt and the same binding, an explicit or handed-off invocation has no
    completed or settled predecessor, the provider attempts already used are
    below the frozen ceiling, and the account's requests in use are below the
    reservation's limit; acceptance adds the receipt and one request and
    nothing else.  A refusal for an exhausted budget is given only when that
    budget is really used up. *)
Theorem reserve_decides retention events clock r attempt_limit handoff :
  events_ok events →
  let l := run_ledger retention empty_ledger events in
  let requests := count_where (holds_request (sr_account r)) (spend_receipts l) in
  let outcome := reserve_with_limit_in l clock r attempt_limit handoff in
  (∀ l', outcome = Ok (l', true) ↔ accepted l r attempt_limit handoff l')
  ∧ (outcome = Err (BudgetExhausted SpendBudgetExhausted) →
       requests = i64_max ∨ ∃ n, sr_request_limit r = Some n ∧ n ≤ requests)
  ∧ (outcome = Err (BudgetExhausted AttemptBudgetExhausted) →
       ∃ n, frozen_limit l r attempt_limit = Some n ∧ n ≤ count_where used_attempt (chain l r)).
Proof.
  intros He l requests outcome. pose proof (reached_ok retention events He) as Hok. fold l in Hok.
  split; [intros l'; split; [by apply reserve_accepted|by apply reserve_accepts]|].
  unfold outcome. rewrite reserve_eq by done. cbv zeta. fold requests.
  destruct (match latest l _ _ with Some p => _ | None => _ end); [done|].
  destruct (find_row l (sr_reference r)); [by case_bool_decide|].
  destruct (predecessor_refuses _ _ _) as [e|] eqn:Hp.
  { assert (e ≠ BudgetExhausted SpendBudgetExhausted ∧ e ≠ BudgetExhausted AttemptBudgetExhausted) as [? ?].
    { unfold predecessor_refuses in Hp. repeat case_match; simplify_eq; done. }
    split; congruence. }
  destruct (active _ _ _); [done|]. pose proof (ok_max _ Hok (sr_account r)) as Hmax. fold requests in Hmax.
  assert (∀ frozen used,
    let outcome := let? limit := match sr_request_limit r with
                    | Some n => let? n := ok_or (i64_try_from n) storage in Ok (Some n)
                    | None => Ok None
                    end in
      if (requests <? i64_max) && match limit with Some n => requests <? n | None => true end
      then Ok (mkLedger (<[sr_account r := requests + 1]> (spend_accounts l))
                 (spend_receipts l ++ [new_receipt r frozen used]), true)
      else Err (BudgetExhausted SpendBudgetExhausted) in
    (outcome = Err (BudgetExhausted SpendBudgetExhausted) →
       requests = i64_max ∨ ∃ n, sr_request_limit r = Some n ∧ n ≤ requests)
    ∧ outcome ≠ Err (BudgetExhausted AttemptBudgetExhausted)) as Hcharge.
  { intros frozen used. cbv zeta. destruct (sr_request_limit r) as [m|]; rsimpl.
    - unfold i64_try_from. destruct (m <=? i64_max); rsimpl; [|done].
      destruct (requests <? i64_max) eqn:E1, (requests <? m) eqn:E2; simpl; split; try done; intros _;
        bools; [right; by exists m|left; lia..].
    - destruct (requests <? i64_max) eqn:E1; simpl; split; try done. intros _. bools. left. lia. }
  destruct (frozen_limit l r attempt_limit) as [n|].
  - destruct (n <=? _) eqn:En; [split; [done|intros _; bools; by exists n]|].
    destruct (checked_add _ _ _); rsimpl; [|done]. destruct (Hcharge (Some n) z). by split.
  - rsimpl. destruct (Hcharge None 0). by split.
Qed.

(** C32: evidence is final.  Once a receipt is released or settled, it keeps
    its reservation, state, usage and completion mark through every later
    call; a repeated settlement with the same evidence succeeds and changes
    nothing, any other settlement is refused as a conflict. *)
Theorem evidence_final retention events row later clock state usage output :
  events_ok events → events_ok later →
  row ∈ spend_receipts (run_ledger retention empty_ledger events) → rr_state row ≠ SpendUnknown →
  let l := run_ledger retention (run_ledger retention empty_ledger events) later in
  (∃ row', find_row l (row_reference row) = Some row' ∧ rr_reservation row' = rr_reservation row
     ∧ rr_state row' = rr_state row ∧ rr_usage row' = rr_usage row ∧ rr_output row' = rr_output row)
  ∧ finish_in l clock (row_reference row) state usage output =
      if negb (evidence_refused row state usage output) && bool_decide (rr_state row = state)
         && bool_decide (rr_usage row = usage) && bool_decide (rr_output row = evidence row output)
      then Ok (l, tt) else Err conflict.
Proof.
  intros He Hl Hr Hs l. pose proof (reached_ok retention events He) as Hok.
  destruct (run_row retention _ later row Hok Hl Hr) as (Hok' & row' & Hf & Hrow). fold l in Hok', Hf.
  destruct (later_evidence _ _ Hrow Hs) as (Es & Eu & Eo). split.
  - exists row'. split_and!; [done|by apply later_reservation|done..].
  - rewrite finish_eq, Hf by done. unfold evidence_refused, evidence. rewrite Es, Eu, Eo.
    destruct (_ || _); [done|]. by rewrite (bool_decide_eq_false_2 (rr_state row = SpendUnknown)).
Qed.

(** a pre-dispatch release refunds exactly once.  Releasing an undecided
    receipt without output frees one request of its account and, when it is
    explicit, one provider attempt; releasing it again succeeds and changes
    nothing; a receipt that was settled or reconciled with the provider is
    never reclassified. *)
Theorem release_refunds_once retention events reference row clock clock' :
  events_ok events →
  let l := run_ledger retention empty_ledger events in
  find_row l reference = Some row →
  let account := sr_account (rr_reservation row) in
  let used l := default 0 (spend_accounts l !! account) in
  if bool_decide (rr_state row = SpendUnknown) then
    match rr_output row with
    | Some _ => release_before_dispatch l clock reference = (l, Err conflict)
    | None => ∃ l' row', release_before_dispatch l clock reference = (l', Ok tt)
        ∧ used l' = used l - 1
        ∧ find_row l' reference = Some row' ∧ rr_state row' = SpendReleased
        ∧ rr_pre_dispatch_released row' = true
        ∧ rr_attempts_used row' = rr_attempts_used row - (if used_attempt row then 1 else 0)
        ∧ release_before_dispatch l' clock' reference = (l', Ok tt)
    end
  else release_before_dispatch l clock reference =
         (l, if rr_pre_dispatch_released row then Ok tt else Err conflict).
Proof.
  intros He l Hf account used. pose proof (reached_ok retention events He) as Hok. fold l in Hok.
  unfold release_before_dispatch. rewrite release_eq, Hf by done. case_bool_decide as Hs.
  - destruct (rr_output row) as [o|] eqn:Ho; simpl; [done|].
    assert (ledger_ok (mkLedger (refund l account SpendReleased)
              (update_where (has_reference reference) released (spend_receipts l)))) as Hok'.
    { eapply (release_in_sound l clock); [done|]. rewrite release_eq, Hf by done.
      by rewrite bool_decide_eq_true_2, Ho. }
    eexists _, (released row). split; [done|]. pose proof (find_row_elem _ _ _ Hf) as [Hr Hk].
    assert (find_row (mkLedger (refund l account SpendReleased)
      (update_where (has_reference reference) released (spend_receipts l))) reference = Some (released row))
      as Hf' by (by apply find_row_update).
    split_and!; [|done|done|done| |].
    + unfold used, refund. simpl. by rewrite lookup_insert_eq, (ok_used _ Hok).
    + simpl. unfold used_attempt. by destruct (_ && _); [|rewrite Z.sub_0_r].
    + fold account. by rewrite release_eq, Hf'.
  - by destruct (rr_pre_dispatch_released row).
Qed.

Lemma acquire_outcomes l clock handoff account input owner : ledger_ok l →
  acquire_handoff_in l clock handoff account input owner = Err conflict
  ∨ ∃ l', acquire_handoff_in l clock handoff account input owner = Ok (l', tt).
Proof.
  intros Hok. unfold acquire_handoff_in. rewrite receipt_in_ok by done. rsimpl.
  destruct (find_row l _) as [row|]; simpl; [|by left].
  destruct (_ || _); [by left|]. destruct (bool_decide _); [right; by eexists|by left].
Qed.

(** a handoff is consumed once.  Dispatch ownership is granted only for
    the accepted reservation itself, undecided, on the claimed account and
    with the exact input it was reserved for; after a grant, no sequence of
    ledger calls lets any handoff with that reference be acquired again. *)
Theorem handoff_single_use retention events clock handoff account input owner l' later clock'
    handoff' account' input' owner' :
  events_ok events → events_ok later →
  let l := run_ledger retention empty_ledger events in
  acquire_handoff l clock handoff account input owner = (l', Ok tt) →
  sr_reference (ah_reservation handoff') = sr_reference (ah_reservation handoff) →
  (∃ row, find_row l (sr_reference (ah_reservation handoff)) = Some row
     ∧ rr_reservation row = ah_reservation handoff ∧ rr_state row = SpendUnknown
     ∧ sr_account (rr_reservation row) = account ∧ rr_handoff_input row = Some input)
  ∧ let l'' := run_ledger retention l' later in
    acquire_handoff l'' clock' handoff' account' input' owner' = (l'', Err conflict).
Proof.
  intros He Hl l Ha Href. pose proof (reached_ok retention events He) as Hok. fold l in Hok.
  destruct (acquired _ _ _ _ _ _ _ Hok Ha) as (row & Hf & Hres & Hs & Hacc & Hi & Ho & Hok' & Hf').
  split; [by exists row|]. pose proof (find_row_elem _ _ _ Hf') as [Hr' Hk'].
  destruct (run_row retention l' later _ Hok' Hl Hr') as (Hok'' & row'' & Hf'' & Hrow).
  cbv zeta. set (l'' := run_ledger retention l' later) in *.
  destruct (acquire_outcomes l'' clock' handoff' account' input' owner' Hok'') as [E|[l3 E]];
    unfold acquire_handoff; rewrite E; [done|exfalso].
  destruct (acquired l'' clock' handoff' account' input' owner' l3 Hok'')
    as (row3 & Hf3 & _ & _ & _ & _ & Ho3 & _).
  { unfold acquire_handoff. by rewrite E. }
  rewrite Href, <-Hk', Hf'' in Hf3. injection Hf3 as <-.
  by rewrite (later_owner _ _ Hrow owner) in Ho3.
Qed.

(** C33: the batched expiry loop terminates and agrees with one unbounded
    sweep: it clears every answer expired at its clock reading and no other
    column or row, and returns how many there were; a reader at that time or
    later sees the same receipts before and after. *)
Theorem expire_recovery_sweeps l now :
  ∃ l', expire_recovery l now = Some (l', Z.to_nat (count_where (expired now) (spend_receipts l)))
    ∧ l' = mkLedger (spend_accounts l) (update_where (expired now) clear_recovery (spend_receipts l))
    ∧ count_where (expired now) (spend_receipts l') = 0
    ∧ (∀ clock reference, now ≤ clock → receipt_in l' clock reference = receipt_in l clock reference).
Proof.
  eexists. split; [apply expire_recovery_eq|]. split_and!; [done| |].
  - unfold count_where. rewrite select_where_none; [done|]. simpl.
    intros row (x & _ & ->)%elem_of_update_where. destruct (expired now x) eqn:E; [done|by rewrite E].
  - intros clock reference Hle. unfold receipt_in, find_row. simpl.
    rewrite select_update, head_update by done.
    destruct (head _) as [row|]; simpl; [|done]. destruct (expired now row) eqn:E; [|done].
    assert (live_recovery clock row = None) as Hnone.
    { unfold live_recovery, expired in *. destruct (rr_recovery_expires_at row) as [until|]; [|done].
      bools. by rewrite (proj2 (Z.ltb_ge _ _)) by lia. }
    unfold receipt_of. simpl. rewrite Hnone. done.
Qed.

(** completing an explicit attempt saves its answer.  When no job policy
    shortens it, the settlement of an undecided explicit receipt stores the
    completion mark, the usage and the answer; the answer is readable until
    the end of the retention window and never after.  An implicit attempt
    stores the mark alone. *)
Theorem finish_saves_answer policy retention events reference row now clock state usage value
    invocation expires reader :
  events_ok events →
  let l := run_ledger retention empty_ledger events in
  find_row l reference = Some row → rr_state row = SpendUnknown → rr_output row = None →
  value ≠ output_received →
  policy invocation (sr_invocation (rr_reservation row)) = Ok (false, None) →
  retention_end retention now = Some expires →
  evidence_refused row state usage (Some value) = false →
  ∃ l' receipt,
    SpendLedger.finish policy retention l now clock reference state usage (Some value) invocation
      = (l', Ok tt)
    ∧ receipt_in l' reader reference = Ok (Some receipt)
    ∧ rc_state receipt = state ∧ rc_usage receipt = usage ∧ rc_output receipt = Some output_received
    ∧ rc_recovery receipt
      = if is_some (rr_attempt_limit row) && (reader <? expires) then Some value else None.
Proof.
  intros He l Hf Hs Ho Hv Hpol Hexp Href. pose proof (reached_ok retention events He) as Hok. fold l in Hok.
  pose proof (find_row_elem _ _ _ Hf) as [Hr Hk].
  set (row1 := if is_some (rr_attempt_limit row) then set_recovery (Some value) (Some expires) row else row).
  assert (∃ l1, save_recovery_in policy l clock reference (Some value) retention None invocation now
            = Ok (l1, tt) ∧ find_row l1 reference = Some row1) as (l1 & Esave & Hf1).
  { unfold save_recovery_in. rewrite bool_decide_eq_false_2 by congruence.
    rewrite receipt_in_ok, Hf by done. cbn [fmap option_fmap option_map rbind ok_or read rc_reservation].
    rewrite Hpol. unfold row1. cbn [rbind rc_attempt_limit rc_output read].
    destruct (rr_attempt_limit row) as [n|]; simpl; [|by exists l]. rewrite Ho, Hexp. simpl.
    eexists. split; [done|]. by apply find_row_update. }
  pose proof (save_recovery_sound _ _ _ _ _ _ _ _ _ _ _ Hok Esave) as [Hok1 _].
  assert (∃ l2, finish_in l1 clock reference state usage (Some value) = Ok (l2, tt)
            ∧ find_row l2 reference = Some (set_evidence state usage (Some output_received) row1))
    as (l2 & Efin & Hf2).
  { rewrite finish_eq, Hf1 by done.
    assert (evidence_refused row1 state usage (Some value) = false) as ->
      by (unfold row1; by destruct (is_some _)).
    rewrite bool_decide_eq_true_2 by (unfold row1; by destruct (is_some _)).
    eexists. split; [done|]. apply find_row_update; [done|done|]. unfold row1. by destruct (is_some _). }
  pose proof (finish_in_sound _ _ _ _ _ _ _ _ Hok1 Efin) as [Hok2 _].
  eexists l2, _. split; [unfold SpendLedger.finish; by rewrite Esave; rsimpl; rewrite Efin|].
  split; [by rewrite receipt_in_ok, Hf2|]. split_and!; [done|done|done|]. simpl. unfold live_recovery, row1.
  pose proof (ok_recovery _ (ok_rows _ Hok row Hr)) as Hrec.
  destruct (rr_attempt_limit row) as [n|] eqn:En; simpl; [done|].
  destruct (rr_recovery row) as [v|]; [by destruct Hrec as [[? [=]] _]|]. by repeat case_match.
Qed.

End Theorems.

(** ** A concrete history *)

Definition text_json : JsonValues := {| Json := string; output_received := "received"%string |}.

Section Story.
#[local] Existing Instances text_json chrono_range.
#[local] Instance story_order : ExpiryOrder := expiry_merge.

Definition story_reservation (reference : string) : SpendReservation :=
  mkReservation reference "acc" "call" "binding" (Some 2).

Definition story_event (clock : DateTime) (call : LedgerCall) : LedgerEvent :=
  mkEvent (λ _ _, Ok (false, None)) clock clock call.

(** The first attempt of a call is released before dispatch, the second is
    accepted under the same ceiling. *)
Definition story : list LedgerEvent :=
  [ story_event 10 (CReserveExplicit (story_reservation "a1") 1);
    story_event 20 (CReleaseBeforeDispatch "a1");
    story_event 30 (CReserveExplicit (story_reservation "a2") 7) ].

Definition story_handoff : AcceptedSpendHandoff :=
  mkHandoff (mkReservation "h1" "acc" "other" "binding" None) "input".

Definition handoff_story : list LedgerEvent := [ story_event 10 (CReserveHandoff story_handoff) ].

Definition second_receipt : ReceiptRow := new_receipt (story_reservation "a2") (Some 1) 1.

Lemma story_ok : events_ok story.
Proof. repeat constructor; vm_compute; done. Qed.

Lemma handoff_story_ok : events_ok handoff_story.
Proof. repeat constructor; vm_compute; done. Qed.

Lemma story_second : find_row (run_ledger 1000 empty_ledger story) "a2" = Some second_receipt.
Proof. vm_compute. reflexivity. Qed.

Lemma ledger_accounts_sound_witness :
  default 0 (spend_accounts (run_ledger 1000 empty_ledger story) !! "acc"%string) = 1
  ∧ default 0 (spend_accounts (run_ledger 1000 empty_ledger story) !! "acc"%string) ≤ i64_max.
Proof.
  destruct (ledger_accounts_sound 1000 story "acc" "call" story_ok) as (Hused & Hmax & _).
  split; [|exact Hmax]. rewrite Hused. vm_compute. reflexivity.
Defined.

(** The second attempt has used up the frozen ceiling of 1. *)
Definition spent_story : list LedgerEvent :=
  story ++ [story_event 40 (CFinish "a2" SpendReleased None None None)].

Lemma spent_story_ok : events_ok spent_story.
Proof. apply Forall_app. split; [apply story_ok|repeat constructor]. Qed.

Lemma reserve_decides_witness :
  ∃ n, frozen_limit (run_ledger 1000 empty_ledger spent_story) (story_reservation "a3") (Some 9) = Some n
    ∧ n ≤ count_where used_attempt
            (chain (run_ledger 1000 empty_ledger spent_story) (story_reservation "a3")).
Proof.
  destruct (reserve_decides 1000 spent_story 50 (story_reservation "a3") (Some 9) false spent_story_ok)
    as (_ & _ & Hattempts).
  apply Hattempts. vm_compute. reflexivity.
Defined.

Lemma evidence_final_witness :
  finish_in (run_ledger 1000 empty_ledger story) 99 "a1" SpendSettled None None = Err conflict.
Proof.
  set (row := released (new_receipt (story_reservation "a1") (Some 1) 1)).
  assert (row ∈ spend_receipts (run_ledger 1000 empty_ledger story)) as Hrow by (left).
  destruct (evidence_final 1000 story row [] 99 SpendSettled None None story_ok) as [_ Heq];
    [constructor|exact Hrow|done|].
  exact Heq.
Defined.

Lemma release_refunds_once_witness :
  ∃ l', release_before_dispatch (run_ledger 1000 empty_ledger story) 60 "a2" = (l', Ok tt)
    ∧ default 0 (spend_accounts l' !! "acc"%string) = 0
    ∧ release_before_dispatch l' 61 "a2" = (l', Ok tt).
Proof.
  destruct (release_refunds_once 1000 story "a2" second_receipt 60 61 story_ok story_second)
    as (l' & row' & H1 & H2 & _ & _ & _ & _ & H3).
  exists l'. split; [exact H1|split; [|exact H3]].
  etransitivity; [exact H2|vm_compute; reflexivity].
Defined.

Lemma handoff_single_use_witness :
  ∃ l', acquire_handoff (run_ledger 1000 empty_ledger handoff_story) 20 story_handoff "acc" "input" "me"
          = (l', Ok tt)
    ∧ acquire_handoff l' 30 story_handoff "acc" "input" "you" = (l', Err conflict).
Proof.
  eexists. split; [vm_compute; reflexivity|].
  eapply (handoff_single_use 1000 handoff_story 20 story_handoff "acc" "input" "me" _ [] 30
    story_handoff "acc" "input" "you" handoff_story_ok); [constructor|vm_compute; reflexivity|reflexivity].
Defined.

Lemma finish_saves_answer_witness :
  ∃ l' receipt,
    SpendLedger.finish (λ _ _, Ok (false, None)) 1000 (run_ledger 1000 empty_ledger story) 50 50 "a2"
      SpendUnknown None (Some "answer"%string) None = (l', Ok tt)
    ∧ receipt_in l' 1049 "a2" = Ok (Some receipt) ∧ rc_recovery receipt = Some "answer"%string.
Proof.
  destruct (finish_saves_answer (λ _ _, Ok (false, None)) 1000 story "a2" second_receipt 50 50 SpendUnknown
    None "answer"%string None 1050 1049 story_ok story_second) as (l' & receipt & H1 & H2 & _ & _ & _ & H3);
    [reflexivity|reflexivity|discriminate|reflexivity|vm_compute; reflexivity|reflexivity|].
  exists l', receipt. split; [exact H1|]. split; [exact H2|exact H3].
Defined.

End Story.
