(* ===== verification/JobTypes.v ===== *)
(** [symbiotic-queue], [jobs.rs]: the records, requests and errors of the
    generic job store.

    Bytes ([Vec<u8>]) are held as [string]s, one character per byte.  Times
    inside the store are whole milliseconds since the Unix epoch ([Millis]);
    [RawTime] is a [DateTime<Utc>] as it arrives, with the leap-second range of
    its nanosecond part.  Sizes of JSON encodings and SHA-256 belong to other
    crates and are the operations of [JobCodec]. *)

From Stdlib Require Import ZArith Lia.
From stdpp Require Import base gmap strings list.
From S2P Require Import Prelude Core.

#[local] Open Scope Z_scope.

Abbreviation Millis := Z (only parsing).

(** [as_ref().map_or(0, Vec::len)]. *)
Definition opt_len (b : option Bytes) : Z :=
  match b with Some b => byte_len b | None => 0 end.

(** A [DateTime<Utc>]: seconds since the epoch and the nanosecond part, which
    exceeds a second on a leap second. *)
Record RawTime : Type := mkRawTime { rt_secs : Z; rt_nanos : Z }.

Record JobScope : Type := mkJobScope {
  sc_tenant : string;
  sc_incarnation : string;
  sc_queue : string;
}.

#[export] Instance JobScope_eq_dec : EqDecision JobScope.
Proof. solve_decision. Defined.

#[export] Instance JobScope_countable : Countable JobScope.
Proof.
  refine (inj_countable' (λ s, (sc_tenant s, sc_incarnation s, sc_queue s))
    (λ t, mkJobScope t.1.1 t.1.2 t.2) _). by intros [].
Defined.

Record JobId : Type := mkJobId { jid_scope : JobScope; jid_id : string }.

#[export] Instance JobId_eq_dec : EqDecision JobId.
Proof. solve_decision. Defined.

#[export] Instance JobId_countable : Countable JobId.
Proof.
  refine (inj_countable' (λ j, (jid_scope j, jid_id j)) (λ t, mkJobId t.1 t.2) _). by intros [].
Defined.

Record JobConfig : Type := mkJobConfig {
  cf_version : Z;
  cf_max_batch : Z;
  cf_max_page : Z;
  cf_max_page_bytes : Z;
  cf_max_result_bytes : Z;
  cf_max_live_jobs : Z;
  cf_max_pending_bytes : Z;
  cf_delivery_lease_seconds : Z;
  cf_claim_lease_seconds : Z;
  cf_retention_seconds : Z;
  cf_maintenance_batch : Z;
  cf_maintenance_bytes_per_pass : Z;
}.

(** [JobConfig::default]. *)
Definition default_config : JobConfig :=
  mkJobConfig 1 64 64 (1024 * 1024) (16 * 1024 * 1024) 1024 (16 * 1024 * 1024) 30 30
    (7 * 24 * 60 * 60) 64 (16 * 1024 * 1024).

Inductive Execution : Type := Handler | Model.

#[export] Instance Execution_eq_dec : EqDecision Execution.
Proof. solve_decision. Defined.

(** [JobSpec], with the attempt ceiling of [JobLimits] in [js_max_attempts]. *)
Record JobSpec : Type := mkJobSpec {
  js_key : string;
  js_group : option string;
  js_owners : list string;
  js_kind : string;
  js_execution : Execution;
  js_payload : Bytes;
  js_admission : option Bytes;
  js_max_attempts : Z;
  js_recovery_until : option RawTime;
}.

Inductive JobState : Type :=
| JPending
| JAwaitingAdmission
| JRunning
| JUncertain
| JSucceeded
| JFailed
| JCancelled
| JRefused
| JPurged
| JAccepted
| JDiscarded.

#[export] Instance JobState_eq_dec : EqDecision JobState.
Proof. solve_decision. Defined.

Definition unfinished (s : JobState) : bool :=
  match s with JPending | JAwaitingAdmission | JRunning | JUncertain => true | _ => false end.

Definition acked (s : JobState) : bool :=
  match s with JAccepted | JDiscarded => true | _ => false end.

(** Final and not confirmed: the states of the [jobs_delivery] index. *)
Definition finished (s : JobState) : bool := negb (unfinished s) && negb (acked s).

Inductive ResultOrigin : Type := OriginPaid | OriginHandler.

#[export] Instance ResultOrigin_eq_dec : EqDecision ResultOrigin.
Proof. solve_decision. Defined.

Record JobRecord : Type := mkJobRecord {
  jr_id : JobId;
  jr_key : string;
  jr_digest : string;
  jr_group : option string;
  jr_owners : list string;
  jr_kind : string;
  jr_execution : Execution;
  jr_state : JobState;
  jr_final_state : option JobState;
  jr_payload : option Bytes;
  jr_admission : option Bytes;
  jr_max_attempts : Z;
  jr_generation : Z;
  jr_lease_until : option Millis;
  jr_cancel_requested : bool;
  jr_purged : bool;
  jr_output : option Bytes;
  jr_output_bytes : Z;
  jr_origin : option ResultOrigin;
  jr_receipt : option string;
  jr_recovery_until : option Millis;
  jr_result_expired : bool;
  jr_created_at : Millis;
  jr_finished_at : option Millis;
  jr_delivery_generation : Z;
  jr_delivery_until : option Millis;
  jr_diagnostic : option DiagnosticCode;
}.

#[export] Instance JobRecord_eq_dec : EqDecision JobRecord.
Proof. solve_decision. Defined.

(** Assignments to the fields of a record. *)
Definition set_owners (v : list string) (r : JobRecord) : JobRecord :=
  mkJobRecord (jr_id r) (jr_key r) (jr_digest r) (jr_group r) v (jr_kind r) (jr_execution r)
    (jr_state r) (jr_final_state r) (jr_payload r) (jr_admission r) (jr_max_attempts r)
    (jr_generation r) (jr_lease_until r) (jr_cancel_requested r) (jr_purged r) (jr_output r)
    (jr_output_bytes r) (jr_origin r) (jr_receipt r) (jr_recovery_until r) (jr_result_expired r)
    (jr_created_at r) (jr_finished_at r) (jr_delivery_generation r) (jr_delivery_until r)
    (jr_diagnostic r).

Definition set_state (v : JobState) (r : JobRecord) : JobRecord :=
  mkJobRecord (jr_id r) (jr_key r) (jr_digest r) (jr_group r) (jr_owners r) (jr_kind r)
    (jr_execution r) v (jr_final_state r) (jr_payload r) (jr_admission r) (jr_max_attempts r)
    (jr_generation r) (jr_lease_until r) (jr_cancel_requested r) (jr_purged r) (jr_output r)
    (jr_output_bytes r) (jr_origin r) (jr_receipt r) (jr_recovery_until r) (jr_result_expired r)
    (jr_created_at r) (jr_finished_at r) (jr_delivery_generation r) (jr_delivery_until r)
    (jr_diagnostic r).

Definition set_final_state (v : option JobState) (r : JobRecord) : JobRecord :=
  mkJobRecord (jr_id r) (jr_key r) (jr_digest r) (jr_group r) (jr_owners r) (jr_kind r)
    (jr_execution r) (jr_state r) v (jr_payload r) (jr_admission r) (jr_max_attempts r)
    (jr_generation r) (jr_lease_until r) (jr_cancel_requested r) (jr_purged r) (jr_output r)
    (jr_output_bytes r) (jr_origin r) (jr_receipt r) (jr_recovery_until r) (jr_result_expired r)
    (jr_created_at r) (jr_finished_at r) (jr_delivery_generation r) (jr_delivery_until r)
    (jr_diagnostic r).

Definition set_payload (v : option Bytes) (r : JobRecord) : JobRecord :=
  mkJobRecord (jr_id r) (jr_key r) (jr_digest r) (jr_group r) (jr_owners r) (jr_kind r)
    (jr_execution r) (jr_state r) (jr_final_state r) v (jr_admission r) (jr_max_attempts r)
    (jr_generation r) (jr_lease_until r) (jr_cancel_requested r) (jr_purged r) (jr_output r)
    (jr_output_bytes r) (jr_origin r) (jr_receipt r) (jr_recovery_until r) (jr_result_expired r)
    (jr_created_at r) (jr_finished_at r) (jr_delivery_generation r) (jr_delivery_until r)
    (jr_diagnostic r).

Definition set_admission (v : option Bytes) (r : JobRecord) : JobRecord :=
  mkJobRecord (jr_id r) (jr_key r) (jr_digest r) (jr_group r) (jr_owners r) (jr_kind r)
    (jr_execution r) (jr_state r) (jr_final_state r) (jr_payload r) v (jr_max_attempts r)
    (jr_generation r) (jr_lease_until r) (jr_cancel_requested r) (jr_purged r) (jr_output r)
    (jr_output_bytes r) (jr_origin r) (jr_receipt r) (jr_recovery_until r) (jr_result_expired r)
    (jr_created_at r) (jr_finished_at r) (jr_delivery_generation r) (jr_delivery_until r)
    (jr_diagnostic r).

Definition set_generation (v : Z) (r : JobRecord) : JobRecord :=
  mkJobRecord (jr_id r) (jr_key r) (jr_digest r) (jr_group r) (jr_owners r) (jr_kind r)
    (jr_execution r) (jr_state r) (jr_final_state r) (jr_payload r) (jr_admission r)
    (jr_max_attempts r) v (jr_lease_until r) (jr_cancel_requested r) (jr_purged r) (jr_output r)
    (jr_output_bytes r) (jr_origin r) (jr_receipt r) (jr_recovery_until r) (jr_result_expired r)
    (jr_created_at r) (jr_finished_at r) (jr_delivery_generation r) (jr_delivery_until r)
    (jr_diagnostic r).

Definition set_lease_until (v : option Millis) (r : JobRecord) : JobRecord :=
  mkJobRecord (jr_id r) (jr_key r) (jr_digest r) (jr_group r) (jr_owners r) (jr_kind r)
    (jr_execution r) (jr_state r) (jr_final_state r) (jr_payload r) (jr_admission r)
    (jr_max_attempts r) (jr_generation r) v (jr_cancel_requested r) (jr_purged r) (jr_output r)
    (jr_output_bytes r) (jr_origin r) (jr_receipt r) (jr_recovery_until r) (jr_result_expired r)
    (jr_created_at r) (jr_finished_at r) (jr_delivery_generation r) (jr_delivery_until r)
    (jr_diagnostic r).

Definition set_cancel_requested (v : bool) (r : JobRecord) : JobRecord :=
  mkJobRecord (jr_id r) (jr_key r) (jr_digest r) (jr_group r) (jr_owners r) (jr_kind r)
    (jr_execution r) (jr_state r) (jr_final_state r) (jr_payload r) (jr_admission r)
    (jr_max_attempts r) (jr_generation r) (jr_lease_until r) v (jr_purged r) (jr_output r)
    (jr_output_bytes r) (jr_origin r) (jr_receipt r) (jr_recovery_until r) (jr_result_expired r)
    (jr_created_at r) (jr_finished_at r) (jr_delivery_generation r) (jr_delivery_until r)
    (jr_diagnostic r).

Definition set_purged (v : bool) (r : JobRecord) : JobRecord :=
  mkJobRecord (jr_id r) (jr_key r) (jr_digest r) (jr_group r) (jr_owners r) (jr_kind r)
    (jr_execution r) (jr_state r) (jr_final_state r) (jr_payload r) (jr_admission r)
    (jr_max_attempts r) (jr_generation r) (jr_lease_until r) (jr_cancel_requested r) v
    (jr_output r) (jr_output_bytes r) (jr_origin r) (jr_receipt r) (jr_recovery_until r)
    (jr_result_expired r) (jr_created_at r) (jr_finished_at r) (jr_delivery_generation r)
    (jr_delivery_until r) (jr_diagnostic r).

Definition set_output (v : option Bytes) (r : JobRecord) : JobRecord :=
  mkJobRecord (jr_id r) (jr_key r) (jr_digest r) (jr_group r) (jr_owners r) (jr_kind r)
    (jr_execution r) (jr_state r) (jr_final_state r) (jr_payload r) (jr_admission r)
    (jr_max_attempts r) (jr_generation r) (jr_lease_until r) (jr_cancel_requested r) (jr_purged
    r) v (jr_output_bytes r) (jr_origin r) (jr_receipt r) (jr_recovery_until r)
    (jr_result_expired r) (jr_created_at r) (jr_finished_at r) (jr_delivery_generation r)
    (jr_delivery_until r) (jr_diagnostic r).

Definition set_output_bytes (v : Z) (r : JobRecord) : JobRecord :=
  mkJobRecord (jr_id r) (jr_key r) (jr_digest r) (jr_group r) (jr_owners r) (jr_kind r)
    (jr_execution r) (jr_state r) (jr_final_state r) (jr_payload r) (jr_admission r)
    (jr_max_attempts r) (jr_generation r) (jr_lease_until r) (jr_cancel_requested r) (jr_purged
    r) (jr_output r) v (jr_origin r) (jr_receipt r) (jr_recovery_until r) (jr_result_expired r)
    (jr_created_at r) (jr_finished_at r) (jr_delivery_generation r) (jr_delivery_until r)
    (jr_diagnostic r).

Definition set_origin (v : option ResultOrigin) (r : JobRecord) : JobRecord :=
  mkJobRecord (jr_id r) (jr_key r) (jr_digest r) (jr_group r) (jr_owners r) (jr_kind r)
    (jr_execution r) (jr_state r) (jr_final_state r) (jr_payload r) (jr_admission r)
    (jr_max_attempts r) (jr_generation r) (jr_lease_until r) (jr_cancel_requested r) (jr_purged
    r) (jr_output r) (jr_output_bytes r) v (jr_receipt r) (jr_recovery_until r)
    (jr_result_expired r) (jr_created_at r) (jr_finished_at r) (jr_delivery_generation r)
    (jr_delivery_until r) (jr_diagnostic r).

Definition set_receipt (v : option string) (r : JobRecord) : JobRecord :=
  mkJobRecord (jr_id r) (jr_key r) (jr_digest r) (jr_group r) (jr_owners r) (jr_kind r)
    (jr_execution r) (jr_state r) (jr_final_state r) (jr_payload r) (jr_admission r)
    (jr_max_attempts r) (jr_generation r) (jr_lease_until r) (jr_cancel_requested r) (jr_purged
    r) (jr_output r) (jr_output_bytes r) (jr_origin r) v (jr_recovery_until r)
    (jr_result_expired r) (jr_created_at r) (jr_finished_at r) (jr_delivery_generation r)
    (jr_delivery_until r) (jr_diagnostic r).

Definition set_recovery_until (v : option Millis) (r : JobRecord) : JobRecord :=
  mkJobRecord (jr_id r) (jr_key r) (jr_digest r) (jr_group r) (jr_owners r) (jr_kind r)
    (jr_execution r) (jr_state r) (jr_final_state r) (jr_payload r) (jr_admission r)
    (jr_max_attempts r) (jr_generation r) (jr_lease_until r) (jr_cancel_requested r) (jr_purged
    r) (jr_output r) (jr_output_bytes r) (jr_origin r) (jr_receipt r) v (jr_result_expired r)
    (jr_created_at r) (jr_finished_at r) (jr_delivery_generation r) (jr_delivery_until r)
    (jr_diagnostic r).

Definition set_result_expired (v : bool) (r : JobRecord) : JobRecord :=
  mkJobRecord (jr_id r) (jr_key r) (jr_digest r) (jr_group r) (jr_owners r) (jr_kind r)
    (jr_execution r) (jr_state r) (jr_final_state r) (jr_payload r) (jr_admission r)
    (jr_max_attempts r) (jr_generation r) (jr_lease_until r) (jr_cancel_requested r) (jr_purged
    r) (jr_output r) (jr_output_bytes r) (jr_origin r) (jr_receipt r) (jr_recovery_until r) v
    (jr_created_at r) (jr_finished_at r) (jr_delivery_generation r) (jr_delivery_until r)
    (jr_diagnostic r).

Definition set_finished_at (v : option Millis) (r : JobRecord) : JobRecord :=
  mkJobRecord (jr_id r) (jr_key r) (jr_digest r) (jr_group r) (jr_owners r) (jr_kind r)
    (jr_execution r) (jr_state r) (jr_final_state r) (jr_payload r) (jr_admission r)
    (jr_max_attempts r) (jr_generation r) (jr_lease_until r) (jr_cancel_requested r) (jr_purged
    r) (jr_output r) (jr_output_bytes r) (jr_origin r) (jr_receipt r) (jr_recovery_until r)
    (jr_result_expired r) (jr_created_at r) v (jr_delivery_generation r) (jr_delivery_until r)
    (jr_diagnostic r).

Definition set_delivery_generation (v : Z) (r : JobRecord) : JobRecord :=
  mkJobRecord (jr_id r) (jr_key r) (jr_digest r) (jr_group r) (jr_owners r) (jr_kind r)
    (jr_execution r) (jr_state r) (jr_final_state r) (jr_payload r) (jr_admission r)
    (jr_max_attempts r) (jr_generation r) (jr_lease_until r) (jr_cancel_requested r) (jr_purged
    r) (jr_output r) (jr_output_bytes r) (jr_origin r) (jr_receipt r) (jr_recovery_until r)
    (jr_result_expired r) (jr_created_at r) (jr_finished_at r) v (jr_delivery_until r)
    (jr_diagnostic r).

Definition set_delivery_until (v : option Millis) (r : JobRecord) : JobRecord :=
  mkJobRecord (jr_id r) (jr_key r) (jr_digest r) (jr_group r) (jr_owners r) (jr_kind r)
    (jr_execution r) (jr_state r) (jr_final_state r) (jr_payload r) (jr_admission r)
    (jr_max_attempts r) (jr_generation r) (jr_lease_until r) (jr_cancel_requested r) (jr_purged
    r) (jr_output r) (jr_output_bytes r) (jr_origin r) (jr_receipt r) (jr_recovery_until r)
    (jr_result_expired r) (jr_created_at r) (jr_finished_at r) (jr_delivery_generation r) v
    (jr_diagnostic r).

Definition set_diagnostic (v : option DiagnosticCode) (r : JobRecord) : JobRecord :=
  mkJobRecord (jr_id r) (jr_key r) (jr_digest r) (jr_group r) (jr_owners r) (jr_kind r)
    (jr_execution r) (jr_state r) (jr_final_state r) (jr_payload r) (jr_admission r)
    (jr_max_attempts r) (jr_generation r) (jr_lease_until r) (jr_cancel_requested r) (jr_purged
    r) (jr_output r) (jr_output_bytes r) (jr_origin r) (jr_receipt r) (jr_recovery_until r)
    (jr_result_expired r) (jr_created_at r) (jr_finished_at r) (jr_delivery_generation r)
    (jr_delivery_until r) v.

(** [JobRecord::attempt]. *)
Definition attempt (r : JobRecord) : Z := jr_generation r.

Inductive Enqueued : Type :=
| EnqInserted (id : JobId)
| EnqJoined (id : JobId)
| EnqAlreadyDone (r : JobRecord).

Inductive Disposition : Type := DAccepted | DDiscarded.

#[export] Instance Disposition_eq_dec : EqDecision Disposition.
Proof. solve_decision. Defined.

Record DeliveryToken : Type := mkToken { tk_job : JobId; tk_generation : Z }.

Record Delivery : Type := mkDelivery { dl_completion : JobRecord; dl_token : DeliveryToken }.

Inductive AckResult : Type := Acked (d : Disposition) | AlreadyAcked (d : Disposition).

Record JobDiagnostic : Type := mkDiagnostic {
  dg_id : JobId;
  dg_state : JobState;
  dg_code : option DiagnosticCode;
}.

Record DiagnosticPage : Type := mkDiagnosticPage {
  dp_items : list JobDiagnostic;
  dp_after : option string;
}.

Inductive Selector : Type := SelIds (ids : list JobId) | SelGroup (group : string).

Record PendingUsage : Type := mkUsage { pu_items : Z; pu_bytes : Z }.

Inductive JobResolution : Type :=
| ResUncertain (receipt : string)
| ResKnownZeroCharge (receipt : string)
| ResPaidResult (receipt : string) (recovery_until : option RawTime)
| ResFailed (receipt : string) (diagnostic : DiagnosticCode).

Inductive JobRequest : Type :=
| AwaitAdmission (job : JobId)
| Admit (job : JobId) (admission : Bytes)
| AdmissionNotices (after : option string) (limit : Z)
| Enqueue (specs : list JobSpec)
| Claim (kinds : list string) (slots_available : Z)
| Candidates (kinds : list string) (limit max_bytes : Z)
| ClaimJob (job : JobId)
| ClaimPaid (job : JobId) (receipt : string)
| RefusePending (job : JobId) (diagnostic : DiagnosticCode)
| RecoveryCandidates (kinds : list string) (after : option string) (limit max_bytes : Z)
| Heartbeat (job : JobId) (generation : Z)
| Complete (job : JobId) (generation : Z) (state : JobState) (origin : ResultOrigin)
    (output : option Bytes) (receipt : option string) (diagnostic : option DiagnosticCode)
| Resolve (job : JobId) (generation : Z) (resolution : JobResolution)
| Completions (limit max_bytes : Z)
| Ack (acks : list (DeliveryToken * Disposition))
| Cancel (selector : Selector)
| PurgeOwner (owner : string)
| Diagnostics (group : string) (after : option string) (limit : Z)
| Maintain
| Status (job : JobId)
| Get (job : JobId)
| AskUsage.

Inductive JobResponse : Type :=
| RespEnqueued (l : list Enqueued)
| RespJob (r : option JobRecord)
| RespCandidates (l : list JobRecord)
| RespDeliveries (l : list Delivery)
| RespAcks (l : list AckResult)
| RespChanged (n : Z)
| RespDiagnostics (p : DiagnosticPage)
| RespUsage (u : PendingUsage)
| RespHeartbeat (stop : bool)
| RespDone
| RespResultRefused (bytes : Z).

Inductive JobError : Type :=
| EScope
| ENotFound
| EKeyConflict
| EQueueFull
| ECompletionTooLarge (job : JobId) (bytes : Z)
| EResultTooLarge (job : JobId) (bytes : Z)
| ECandidateTooLarge (job : JobId) (bytes : Z)
| EInvalidRequest
| EAuthorityExpired
| EStaleClaim
| ENotFinal
| EUnavailable
| EExecution (c : DiagnosticCode)
| EStorage.

#[export] Instance JobError_eq_dec : EqDecision JobError.
Proof. solve_decision. Defined.

(** Lengths of canonical JSON encodings, and the payload digest.  A [Delivery]
    or a record is encoded without its [output_bytes] ([serde(skip)]).
    [widest_delivery_len r] is the length of the delivery of [r] with the
    ordinal [u64::MAX] and the deadline [DateTime::MAX_UTC].
    [sql_meta_len] is the length SQLite's [json_array] gives the same fields as
    [meta_len]. *)
Class JobCodec : Type := {
  sha256_hex : Bytes → string;
  record_len : JobRecord → Z;
  delivery_len : Delivery → Z;
  widest_delivery_len : JobRecord → Z;
  output_len : Bytes → Z;
  acks_len : list (DeliveryToken * Disposition) → Z;
  meta_len : JobScope → string → option string → list string → string → Execution → Z → Z;
  sql_meta_len : JobScope → string → option string → list string → string → Execution → Z → Z;
}.

(** [encoded_bytes] of an encoding of length [n]: the counter refuses to
    overflow. *)
Definition encoded_bytes (n : Z) : result JobError Z :=
  if n <=? usize_max then Ok n else Err EStorage.

(** [checked_add] on [usize], with the error its caller maps overflow to. *)
Definition usize_add (a b : Z) (e : JobError) : result JobError Z :=
  ok_or (checked_add usize_max a b) e.

Definition meta_len_of `{!JobCodec} (r : JobRecord) : Z :=
  meta_len (jid_scope (jr_id r)) (jr_key r) (jr_group r) (jr_owners r) (jr_kind r)
    (jr_execution r) (jr_max_attempts r).

Definition job_input_bytes `{!JobCodec} (r : JobRecord) : result JobError Z :=
  if negb (unfinished (jr_state r)) then Ok 0
  else
    let? metadata := encoded_bytes (meta_len_of r) in
    let? bytes := usize_add metadata (opt_len (jr_payload r)) EStorage in
    usize_add bytes (opt_len (jr_admission r)) EStorage.
