(* ===== verification/JobStore.v ===== *)
(** [symbiotic-queue-sqlite], [jobs.rs]: the durable job store.

    [JobDb] is the pair of tables the store owns: [jobs], by scoped id, and
    the owner index [job_owners].  A stored row is either the full record of an
    unconfirmed job or the narrowed tombstone a confirmation leaves, as [save]
    writes them; [read_record] turns both into a [JobRecord].

    Every request is one function from the tables to an error or new tables
    and a response; [jobs_in_transaction] runs it under a savepoint, so an
    error leaves the tables as they were.  The host's clock reading and the
    fresh ids of new jobs are arguments.  [recovery_len] is the length of the
    recovery copy the spend ledger holds under a receipt. *)

From Stdlib Require Import ZArith Lia.
From stdpp Require Import base gmap strings list fin_maps sorting.
From S2P Require Import Prelude Core JobTypes.

#[local] Open Scope Z_scope.

(** ** Tables *)

(** A row of [jobs]: all columns, or those a confirmation keeps. *)
Inductive JobRow : Type :=
| LiveRow (r : JobRecord)
| TombstoneRow (key digest : string) (state : JobState) (final_state : option JobState)
    (receipt : option string) (delivery_generation : Z) (kind : option string).

Record JobDb : Type := mkJobDb {
  jobs : gmap JobId JobRow;
  job_owners : gset (JobScope * string * string);
}.

(** The tables [initialize] creates. *)
Definition initialize : JobDb := mkJobDb ∅ ∅.

Definition read_record (id : JobId) (row : JobRow) : JobRecord :=
  match row with
  | LiveRow r => r
  | TombstoneRow key digest state final_state receipt delivery_generation kind =>
      mkJobRecord id key digest None [] (default ""%string kind)
        (if bool_decide (is_Some kind) then Model else Handler) state final_state None None 0 0
        None false false None 0 None receipt None false 0 None delivery_generation None None
  end.

Definition rows_get (db : JobDb) (id : JobId) : option JobRecord :=
  read_record id <$> jobs db !! id.

(** The records of one scope. *)
Definition scope_rows (db : JobDb) (scope : JobScope) : list JobRecord :=
  (λ p : JobId * JobRow, read_record p.1 p.2)
    <$> filter (λ p : JobId * JobRow, jid_scope p.1 = scope) (map_to_list (jobs db)).

Definition by_key (db : JobDb) (scope : JobScope) (key : string) : option JobRecord :=
  head (select_where (λ r, bool_decide (jr_key r = key)) (scope_rows db scope)).

(** [metadata]: the record with its content columns read as [NULL]. *)
Definition without_content (r : JobRecord) : JobRecord :=
  set_payload None (set_admission None (set_output None r)).

Definition metadata (db : JobDb) (id : JobId) : result JobError JobRecord :=
  ok_or (without_content <$> rows_get db id) ENotFound.

(** [output]: a missing row is a storage error. *)
Definition output (db : JobDb) (id : JobId) : result JobError (option Bytes) :=
  ok_or (jr_output <$> rows_get db id) EStorage.

(** ** Queries *)

Inductive JobQuery : Type :=
| QAdmission (after : option string)
| QExecution (kind : string)
| QGroup (group : string)
| QOwner (owner : string)
| QPending (kinds : list string)
| QRecovery (kinds : list string) (after : option string)
| QFinal
| QExpired
| QDiagnostics (group : string) (after : option string).

(** A column compared with [<= ?]: [NULL] is not. *)
Definition at_most (t : option Millis) (now : Millis) : bool :=
  match t with Some t => t <=? now | None => false end.

(** [id > ?] with [after.unwrap_or_default()]. *)
Definition id_after (after : option string) (r : JobRecord) : bool :=
  negb (bool_decide (String.le (jid_id (jr_id r)) (default ""%string after))).

Definition kind_in (kinds : list string) (r : JobRecord) : bool := bool_decide (jr_kind r ∈ kinds).

(** The [WHERE] clause of each query. *)
Definition query_filter (db : JobDb) (q : JobQuery) (now : Millis) (r : JobRecord) : bool :=
  let state := jr_state r in
  match q with
  | QAdmission after => bool_decide (state = JAwaitingAdmission) && id_after after r
  | QExecution kind =>
      unfinished state && negb (bool_decide (state = JAwaitingAdmission))
      && bool_decide (jr_kind r = kind)
  | QGroup group => bool_decide (jr_group r = Some group) && unfinished state
  | QOwner owner => bool_decide ((jid_scope (jr_id r), owner, jid_id (jr_id r)) ∈ job_owners db)
  | QPending kinds =>
      (bool_decide (state = JPending)
       || bool_decide (state = JRunning) && bool_decide (jr_execution r = Handler)
          && at_most (jr_lease_until r) now) && kind_in kinds r
  | QRecovery kinds after =>
      bool_decide (jr_execution r = Model)
      && (bool_decide (state = JUncertain)
          || bool_decide (state = JRunning) && at_most (jr_lease_until r) now)
      && kind_in kinds r && id_after after r
  | QFinal =>
      finished state
      && match jr_delivery_until r with None => true | Some until => until <=? now end
  | QExpired =>
      finished state && negb (jr_result_expired r) && at_most (jr_recovery_until r) now
  | QDiagnostics group after =>
      bool_decide (jr_group r = Some group)
      && (bool_decide (state = JFailed) || bool_decide (state = JUncertain)
          || bool_decide (state = JAwaitingAdmission)) && id_after after r
  end.

(** The first [ORDER BY] column, if any, before [id]; [NULL] sorts first. *)
Definition sort_time (q : JobQuery) (r : JobRecord) : option Millis :=
  match q with
  | QExecution _ | QPending _ => Some (jr_created_at r)
  | QFinal => jr_finished_at r
  | QExpired => jr_recovery_until r
  | _ => None
  end.

Definition time_lt (a b : option Millis) : Prop :=
  match a, b with
  | None, Some _ => True
  | Some a, Some b => a < b
  | _, None => False
  end.

Definition row_le (q : JobQuery) (a b : JobRecord) : Prop :=
  time_lt (sort_time q a) (sort_time q b)
  ∨ sort_time q a = sort_time q b ∧ String.le (jid_id (jr_id a)) (jid_id (jr_id b)).

#[export] Instance time_lt_dec : RelDecision time_lt.
Proof. intros [a|] [b|]; simpl; apply _. Defined.

#[export] Instance row_le_dec q : RelDecision (row_le q).
Proof. intros a b. unfold row_le. apply _. Defined.

Definition select (db : JobDb) (scope : JobScope) (q : JobQuery) (now : Millis) (limit : Z) :
    result JobError (list JobRecord) :=
  match i64_try_from limit with
  | None => Err EInvalidRequest
  | Some bound =>
      Ok (take (Z.to_nat bound)
            (merge_sort (row_le q) (select_where (query_filter db q now) (scope_rows db scope))))
  end.

Record JobInfo : Type := mkJobInfo {
  ji_id : JobId;
  ji_state : JobState;
  ji_diagnostic : option DiagnosticCode;
  ji_output_bytes : Z;
}.

Definition info_of (r : JobRecord) : JobInfo :=
  mkJobInfo (jr_id r) (jr_state r) (jr_diagnostic r) (jr_output_bytes r).

Definition inspect (db : JobDb) (scope : JobScope) (q : JobQuery) (now : Millis) (limit : Z) :
    result JobError (list JobInfo) :=
  let? l := select db scope q now limit in Ok (info_of <$> l).

(** Rows of the scope that are not confirmed. *)
Definition live_count (db : JobDb) (scope : JobScope) : Z :=
  Z.of_nat (length (select_where (λ r, unfinished (jr_state r) || finished (jr_state r))
    (scope_rows db scope))).

(** ** Rules on one record *)

Definition claimable (r : JobRecord) (now : Millis) : bool :=
  bool_decide (jr_state r = JPending)
  || bool_decide (jr_state r = JRunning) && bool_decide (jr_execution r = Handler)
     && at_most (jr_lease_until r) now.

Definition stopped_state (r : JobRecord) : JobState := if jr_purged r then JPurged else JCancelled.

Definition scoped (scope : JobScope) (job : JobId) : result JobError unit :=
  if bool_decide (jid_scope job = scope) then Ok tt else Err EScope.

Definition get (db : JobDb) (scope : JobScope) (id : JobId) : result JobError JobRecord :=
  let? _ := scoped scope id in ok_or (rows_get db id) ENotFound.

(** The claim fence: running, this generation, lease not over. *)
Definition live (r : JobRecord) (generation : Z) (now : Millis) : result JobError unit :=
  if bool_decide (jr_state r = JRunning) && (jr_generation r =? generation)
     && match jr_lease_until r with Some until => now <? until | None => false end
  then Ok tt else Err EStaleClaim.

Definition delete_copies (r : JobRecord) : JobRecord :=
  set_output_bytes 0 (set_output None (set_admission None (set_payload None r))).

Definition page (cf : JobConfig) (limit : Z) : result JobError unit :=
  if (limit =? 0) || (cf_max_page cf <? limit) then Err EInvalidRequest else Ok tt.

(** [admit_page_bytes]: a row too large alone is refused, one that only
    exceeds what is left of the page is deferred. *)
Definition admit_page_bytes (size used max_bytes : Z) (comma : bool) (oversized : Z → JobError) :
    result JobError (option Z) :=
  let? individual := usize_add size 2 EInvalidRequest in
  if max_bytes <? individual then Err (oversized individual)
  else
    let? required := usize_add used size EInvalidRequest in
    let? required := usize_add required (if comma then 1 else 0) EInvalidRequest in
    Ok (if required <=? max_bytes then Some required else None).

Section JobStore.
Context `{!Chrono} `{!JobCodec}.
Variable recovery_len : string → Z.

(** Nanoseconds of a millisecond instant. *)
Definition millis_ok (t : Millis) : bool := instant_ok (t * 1000000).

Definition millisecond_time (t : RawTime) : result JobError Millis :=
  if 1000000000 <=? rt_nanos t then Err EInvalidRequest
  else
    let ms := rt_secs t * 1000 + rt_nanos t / 1000000 in
    if millis_ok ms then Ok ms else Err EInvalidRequest.

Definition deadline (now : Millis) (seconds : Z) : result JobError Millis :=
  ok_or (s ← i64_try_from seconds;
         if duration_ok s && millis_ok (now + s * 1000) then Some (now + s * 1000) else None)
    EInvalidRequest.

Definition finish (state : JobState) (now : Millis) (cf : JobConfig) (r : JobRecord) :
    result JobError JobRecord :=
  let r := set_lease_until None (set_finished_at (Some now) (set_state state r)) in
  let? r := match jr_recovery_until r with
            | Some _ => Ok r
            | None =>
                let? until := deadline now (cf_retention_seconds cf) in
                Ok (set_recovery_until (Some until) r)
            end in
  Ok (if at_most (jr_recovery_until r) now then delete_copies (set_result_expired true r) else r).

Definition candidate_page_bytes (r : JobRecord) (used max_bytes : Z) (comma : bool) :
    result JobError (option Z) :=
  let? size := encoded_bytes (record_len r) in
  admit_page_bytes size used max_bytes comma (ECandidateTooLarge (jr_id r)).

Definition stored_output_bytes (r : JobRecord) : result JobError Z :=
  match jr_output r with
  | Some o => if 0 <? jr_output_bytes r then Ok (jr_output_bytes r) else encoded_bytes (output_len o)
  | None => Ok 0
  end.

(** [delivery_bytes] of a content-free delivery whose encoding has length
    [len]: a present output adds [,"output":] and its encoded value. *)
Definition delivery_bytes (len : Z) (output_bytes : option Z) : result JobError Z :=
  let? out := match output_bytes with
              | Some bytes => usize_add bytes 10 EStorage
              | None => Ok 0
              end in
  let? size := encoded_bytes len in
  usize_add size out EStorage.

(** [undeliverable]: the page length of a retained result no page can carry,
    measured with the widest ordinal and delivery deadline. *)
Definition undeliverable (r : JobRecord) (cf : JobConfig) : result JobError (option Z) :=
  match jr_output r with
  | None => Ok None
  | Some _ =>
      let? stored := stored_output_bytes r in
      let? size := delivery_bytes (widest_delivery_len (without_content r)) (Some stored) in
      let? page := usize_add size 2 EStorage in
      Ok (if cf_max_page_bytes cf <? page then Some page else None)
  end.

(** ** Writes *)

(** Another row of the scope holds the key ([UNIQUE(scope, key)]). *)
Definition key_taken (db : JobDb) (r : JobRecord) : bool :=
  existsb (λ o, bool_decide (jr_key o = jr_key r) && negb (bool_decide (jr_id o = jr_id r)))
    (scope_rows db (jid_scope (jr_id r))).

Definition as_i64 (n : Z) : result JobError Z := ok_or (i64_try_from n) EStorage.

(** [DELETE FROM job_owners] of one job. *)
Definition without_owners (id : JobId) (owners : gset (JobScope * string * string)) :
    gset (JobScope * string * string) :=
  filter (λ o, (o.1.1, o.2) ≠ (jid_scope id, jid_id id)) owners.

(** [for owner in &row.owners]: insert, an existing entry does nothing. *)
Definition with_owners (id : JobId) (l : list string) (owners : gset (JobScope * string * string)) :
    gset (JobScope * string * string) :=
  list_to_set ((λ owner, (jid_scope id, owner, jid_id id)) <$> l) ∪ owners.

(** [millisecond_time] of the stored times. *)
Definition times_ok (r : JobRecord) : bool :=
  forallb millis_ok
    (jr_created_at r :: option_list (jr_lease_until r) ++ option_list (jr_recovery_until r)
     ++ option_list (jr_finished_at r) ++ option_list (jr_delivery_until r)).

Definition save (db : JobDb) (r : JobRecord) : result JobError JobDb :=
  if acked (jr_state r) then
    let? _ := as_i64 (jr_delivery_generation r) in
    if key_taken db r then Err EStorage
    else
      Ok (mkJobDb
        (<[jr_id r := TombstoneRow (jr_key r) (jr_digest r) (jr_state r) (jr_final_state r)
             (jr_receipt r) (jr_delivery_generation r)
             (if bool_decide (jr_execution r = Model) then Some (jr_kind r) else None)]> (jobs db))
        (without_owners (jr_id r) (job_owners db)))
  else if negb (times_ok r) then Err EInvalidRequest
  else
    let old := rows_get db (jr_id r) in
    let? _ := as_i64 (jr_generation r) in
    let? _ := as_i64 (jr_delivery_generation r) in
    let? bytes := stored_output_bytes r in
    let? bytes := as_i64 bytes in
    if key_taken db r then Err EStorage
    else
      let owners := if bool_decide (jr_owners <$> old = Some (jr_owners r)) then job_owners db
                    else with_owners (jr_id r) (jr_owners r)
                           (without_owners (jr_id r) (job_owners db)) in
      Ok (mkJobDb (<[jr_id r := LiveRow (set_output_bytes bytes r)]> (jobs db)) owners).

(** An [UPDATE] of the columns only unconfirmed rows have. *)
Definition update_live (id : JobId) (f : JobRecord → JobRecord) (db : JobDb) : JobDb :=
  mkJobDb (alter (λ row, match row with LiveRow r => LiveRow (f r) | t => t end) id (jobs db))
    (job_owners db).

Definition expire (db : JobDb) (id : JobId) : JobDb :=
  update_live id (λ r, delete_copies (set_result_expired true r)) db.

Definition deliver (db : JobDb) (r : JobRecord) (expired : bool) : result JobError JobDb :=
  let db := if expired then expire db (jr_id r) else db in
  let? generation := as_i64 (jr_delivery_generation r) in
  Ok (update_live (jr_id r) (λ row, set_delivery_until (jr_delivery_until r)
        (set_delivery_generation generation row)) db).

(** ** Utilisation *)

Definition sql_meta_len_of (r : JobRecord) : Z :=
  sql_meta_len (jid_scope (jr_id r)) (jr_key r) (jr_group r) (jr_owners r) (jr_kind r)
    (jr_execution r) (jr_max_attempts r).

(** Bytes one unfinished row contributes to [usage]. *)
Definition row_bytes (r : JobRecord) : Z :=
  sql_meta_len_of r + opt_len (jr_payload r) + opt_len (jr_admission r).

Definition sum_bytes (l : list JobRecord) : Z := foldr (λ r acc, row_bytes r + acc) 0 l.

Definition usage (db : JobDb) (scope : JobScope) : PendingUsage :=
  let l := select_where (λ r, unfinished (jr_state r)) (scope_rows db scope) in
  mkUsage (Z.of_nat (length l)) (sum_bytes l).

(** [recovery_bytes]: raw bytes one maintenance erasure frees. *)
Definition recovery_bytes (db : JobDb) (id : JobId) : result JobError Z :=
  ok_or ((λ r, opt_len (jr_payload r) + opt_len (jr_admission r) + opt_len (jr_output r)
               + match jr_receipt r with Some receipt => recovery_len receipt | None => 0 end)
           <$> rows_get db id) EStorage.
(** ** Enqueue and claim *)

Definition insert_job (db : JobDb) (cf : JobConfig) (r : JobRecord) : result JobError JobDb :=
  let? _ := if bool_decide (jr_execution r = Model)
            then candidate_page_bytes r 2 (cf_max_page_bytes cf) false else Ok None in
  if cf_max_live_jobs cf <=? live_count db (jid_scope (jr_id r)) then Err EQueueFull
  else
    let? input := job_input_bytes r in
    let? total := usize_add (pu_bytes (usage db (jid_scope (jr_id r)))) input EStorage in
    if cf_max_pending_bytes cf <? total then Err EQueueFull else save db r.

(** The record [Enqueue] creates. *)
Definition new_job (id : JobId) (digest : string) (recovery_until : option Millis) (now : Millis)
    (spec : JobSpec) : JobRecord :=
  mkJobRecord id (js_key spec) digest (js_group spec) (js_owners spec) (js_kind spec)
    (js_execution spec) JPending None (Some (js_payload spec)) (js_admission spec)
    (js_max_attempts spec) 0 None false false None 0 None None recovery_until false now None 0
    None None.

(** [spec.recovery_until.map(millisecond_time).transpose()]. *)
Definition quantized (t : option RawTime) : result JobError (option Millis) :=
  match t with
  | None => Ok None
  | Some t => let? ms := millisecond_time t in Ok (Some ms)
  end.

(** One iteration of the [Enqueue] loop; [uuid] is the id a new job takes. *)
Definition enqueue_spec (db : JobDb) (cf : JobConfig) (scope : JobScope) (now : Millis)
    (uuid : string) (spec : JobSpec) : result JobError (JobDb * Enqueued) :=
  if bool_decide (js_key spec = ""%string) || bool_decide (js_kind spec = ""%string)
     || (js_max_attempts spec =? 0)
  then Err EInvalidRequest
  else
    let? recovery_until := quantized (js_recovery_until spec) in
    let digest := sha256_hex (js_payload spec) in
    match by_key db scope (js_key spec) with
    | Some row =>
        if negb (bool_decide (jr_digest row = digest)) then Err EKeyConflict
        else Ok (db, if acked (jr_state row) then EnqAlreadyDone row else EnqJoined (jr_id row))
    | None =>
        let id := mkJobId scope uuid in
        let? db := insert_job db cf (new_job id digest recovery_until now spec) in
        Ok (db, EnqInserted id)
    end.

(** The [Enqueue] loop; [uuids n] is the fresh id of the [n]-th spec. *)
Fixpoint enqueue_specs (db : JobDb) (cf : JobConfig) (scope : JobScope) (now : Millis)
    (uuids : nat → string) (n : nat) (specs : list JobSpec) :
    result JobError (JobDb * list Enqueued) :=
  match specs with
  | [] => Ok (db, [])
  | spec :: specs =>
      let? '(db, outcome) := enqueue_spec db cf scope now (uuids n) spec in
      let? '(db, outcomes) := enqueue_specs db cf scope now uuids (S n) specs in
      Ok (db, outcome :: outcomes)
  end.

Definition claim_job (db : JobDb) (cf : JobConfig) (now : Millis) (r : JobRecord) :
    result JobError (JobDb * option JobRecord) :=
  if negb (claimable r now) then Ok (db, None)
  else if jr_cancel_requested r then
    let? r := finish (stopped_state r) now cf r in
    let? db := save db (delete_copies r) in
    Ok (db, None)
  else if jr_max_attempts r <=? jr_generation r then
    let? r := finish JRefused now cf r in
    let? db := save db r in
    Ok (db, None)
  else
    let? generation := ok_or (checked_add u64_max (jr_generation r) 1) EInvalidRequest in
    let? until := deadline now (cf_claim_lease_seconds cf) in
    let r := set_lease_until (Some until) (set_generation generation (set_state JRunning r)) in
    let? db := save db r in
    Ok (db, Some r).

(** [for row in candidates]: the first candidate that can be claimed. *)
Fixpoint claim_first (db : JobDb) (cf : JobConfig) (now : Millis) (candidates : list JobRecord) :
    result JobError (JobDb * option JobRecord) :=
  match candidates with
  | [] => Ok (db, None)
  | r :: candidates =>
      let? '(db, claimed) := claim_job db cf now r in
      match claimed with
      | Some r => Ok (db, Some r)
      | None => claim_first db cf now candidates
      end
  end.

(** The loop of [Candidates] and [RecoveryCandidates]: rows while they fit. *)
Fixpoint fill_page (used max_bytes : Z) (comma : bool) (selected : list JobRecord) :
    result JobError (list JobRecord) :=
  match selected with
  | [] => Ok []
  | r :: selected =>
      let? required := candidate_page_bytes r used max_bytes comma in
      match required with
      | None => Ok []
      | Some required => let? rest := fill_page required max_bytes true selected in Ok (r :: rest)
      end
  end.

Definition bytes_ok (cf : JobConfig) (max_bytes : Z) : bool :=
  (2 <=? max_bytes) && (max_bytes <=? cf_max_page_bytes cf).

(** ** Completion and resolution *)

(** The states [Complete] accepts. *)
Definition completes_to (s : JobState) : bool :=
  match s with JSucceeded | JFailed | JCancelled | JRefused | JUncertain => true | _ => false end.

(** The origin must match the execution owner, and only models are uncertain. *)
Definition origin_refused (r : JobRecord) (state : JobState) (origin : ResultOrigin) : bool :=
  bool_decide (origin = OriginPaid) && negb (bool_decide (jr_execution r = Model))
  || bool_decide (origin = OriginHandler) && negb (bool_decide (jr_execution r = Handler))
  || bool_decide (state = JUncertain) && negb (bool_decide (jr_execution r = Model)).

(** The content a completion of that origin and state must and must not carry. *)
Definition content_refused (r : JobRecord) (now : Millis) (state : JobState)
    (origin : ResultOrigin) (out : option Bytes) (receipt : option string) : bool :=
  negb (completes_to state)
  || bool_decide (origin = OriginPaid) && bool_decide (is_Some out)
  || bool_decide (origin = OriginPaid) && negb (bool_decide (is_Some receipt))
  || negb (bool_decide (origin = OriginPaid)) && bool_decide (is_Some receipt)
  || bool_decide (state = JSucceeded) && negb (bool_decide (origin = OriginPaid))
     && negb (bool_decide (is_Some out)) && negb (jr_purged r)
     && match jr_recovery_until r with None => true | Some until => now <? until end.

(** The last branch of [Complete]: keep the output, or refuse it in the same
    write when no page could carry it. *)
Definition complete_final (db : JobDb) (cf : JobConfig) (now : Millis) (state : JobState)
    (out : option Bytes) (r : JobRecord) : result JobError (JobDb * JobResponse) :=
  let r := set_output out r in
  let? r := finish (if jr_cancel_requested r then JCancelled else state) now cf r in
  let? bytes := match jr_output r with
                | Some o => encoded_bytes (output_len o)
                | None => Ok 0
                end in
  let r := set_output_bytes bytes r in
  let? refused := undeliverable r cf in
  match refused with
  | Some bytes =>
      let r := set_output_bytes 0 (set_output None r) in
      let r := if bool_decide (jr_state r = JCancelled) then r
               else set_diagnostic (Some QueueFailure) (set_state JFailed r) in
      let? db := save db r in
      Ok (db, RespResultRefused bytes)
  | None => let? db := save db r in Ok (db, RespDone)
  end.

Definition complete (db : JobDb) (cf : JobConfig) (scope : JobScope) (now : Millis) (job : JobId)
    (generation : Z) (state : JobState) (origin : ResultOrigin) (out : option Bytes)
    (receipt : option string) (diagnostic : option DiagnosticCode) :
    result JobError (JobDb * JobResponse) :=
  let? r := get db scope job in
  if match out with Some o => cf_max_result_bytes cf <? byte_len o | None => false end
  then Err (EResultTooLarge (jr_id r) (opt_len out))
  else
    let? _ := live r generation now in
    if origin_refused r state origin then Err EInvalidRequest
    else if content_refused r now state origin out receipt then Err EInvalidRequest
    else
      let r := set_diagnostic diagnostic (set_receipt receipt (set_origin (Some origin) r)) in
      if bool_decide (state = JUncertain) then
        let r := set_lease_until None (set_state state r) in
        let? db := save db (if jr_purged r then delete_copies r else r) in
        Ok (db, RespDone)
      else if jr_purged r then
        let? r := finish JPurged now cf r in
        let? db := save db (delete_copies r) in
        Ok (db, RespDone)
      else complete_final db cf now state out r.

(** Where a stopped or resolved job ends: erasure before cancellation. *)
Definition resolved_state (r : JobRecord) (otherwise : JobState) : JobState :=
  if jr_purged r then JPurged else if jr_cancel_requested r then JCancelled else otherwise.

(** The job can still be charged: running or uncertain. *)
Definition maybe_charged (r : JobRecord) : bool :=
  bool_decide (jr_state r = JRunning) || bool_decide (jr_state r = JUncertain).

Definition resolve_record (cf : JobConfig) (now : Millis) (resolution : JobResolution)
    (r : JobRecord) : result JobError JobRecord :=
  match resolution with
  | ResUncertain receipt =>
      if negb (maybe_charged r) then Err EInvalidRequest
      else Ok (set_diagnostic (Some SpendReconciliationRequired) (set_lease_until None
                 (set_state JUncertain (set_receipt (Some receipt) r))))
  | ResKnownZeroCharge receipt =>
      if negb (maybe_charged r) then Err EInvalidRequest
      else
        let r := set_diagnostic None (set_lease_until None (set_receipt (Some receipt) r)) in
        if jr_purged r then finish JPurged now cf r
        else if jr_cancel_requested r then
          let? r := finish JCancelled now cf r in Ok (delete_copies r)
        else if jr_max_attempts r <=? jr_generation r then
          finish JRefused now cf (set_diagnostic (Some AttemptBudgetExhausted) r)
        else if bool_decide (is_Some (jr_admission r)) then Ok (set_state JAwaitingAdmission r)
        else Ok (set_state JPending r)
  | ResPaidResult receipt recovery_until =>
      let r := set_diagnostic None (set_receipt (Some receipt) r) in
      let? r := match recovery_until with
                | None => Ok r
                | Some until =>
                    let? until := millisecond_time until in
                    Ok (set_recovery_until
                          (Some (match jr_recovery_until r with
                                 | Some current => Z.min current until
                                 | None => until
                                 end)) r)
                end in
      finish (resolved_state r JSucceeded) now cf r
  | ResFailed receipt diagnostic =>
      let r := set_diagnostic (Some diagnostic) (set_receipt (Some receipt) r) in
      finish (resolved_state r JFailed) now cf r
  end.

Definition resolve (db : JobDb) (cf : JobConfig) (scope : JobScope) (now : Millis) (job : JobId)
    (generation : Z) (resolution : JobResolution) : result JobError (JobDb * JobResponse) :=
  let? r := get db scope job in
  if negb (bool_decide (jr_execution r = Model)) || negb (unfinished (jr_state r))
     || negb (jr_generation r =? generation)
  then Err EStaleClaim
  else
    let? r := resolve_record cf now resolution (set_origin (Some OriginPaid) r) in
    let? db := save db (if jr_purged r then delete_copies r else r) in
    Ok (db, RespDone).

(** ** Deliveries *)

(** The delivery a completion page would carry for a candidate, and whether
    its output goes with it. *)
Definition prepare_delivery (db : JobDb) (cf : JobConfig) (now : Millis) (info : JobInfo) :
    result JobError (JobRecord * Delivery * bool) :=
  let? r := metadata db (ji_id info) in
  let r := if at_most (jr_recovery_until r) now
           then delete_copies (set_result_expired true r) else r in
  let? generation := ok_or (checked_add u64_max (jr_delivery_generation r) 1) EInvalidRequest in
  let r := set_delivery_generation generation r in
  let? until := deadline now (cf_delivery_lease_seconds cf) in
  let r := set_delivery_until (Some until) r in
  let has_output := (0 <? ji_output_bytes info) && negb (jr_result_expired r) in
  Ok (r, mkDelivery r (mkToken (jr_id r) (jr_delivery_generation r)), has_output).

(** The first loop of [Completions]: the prefix of candidates that fits. *)
Fixpoint admit_deliveries (db : JobDb) (cf : JobConfig) (now : Millis) (used max_bytes : Z)
    (comma : bool) (candidates : list JobInfo) :
    result JobError (list (JobRecord * Delivery * bool)) :=
  match candidates with
  | [] => Ok []
  | info :: candidates =>
      let? '(r, delivery, has_output) := prepare_delivery db cf now info in
      let? size := delivery_bytes (delivery_len delivery)
                     (if has_output then Some (ji_output_bytes info) else None) in
      let? required := admit_page_bytes size used max_bytes comma (ECompletionTooLarge (jr_id r)) in
      match required with
      | None => Ok []
      | Some required =>
          let? rest := admit_deliveries db cf now required max_bytes true candidates in
          Ok ((r, delivery, has_output) :: rest)
      end
  end.

(** The second loop: attach outputs and record the delivery leases. *)
Fixpoint send_deliveries (db : JobDb) (admitted : list (JobRecord * Delivery * bool)) :
    result JobError (JobDb * list Delivery) :=
  match admitted with
  | [] => Ok (db, [])
  | (r, delivery, has_output) :: admitted =>
      let? delivery :=
        if has_output then
          let? o := output db (jr_id r) in
          match o with
          | None => Err EStorage
          | Some o => Ok (mkDelivery (set_output (Some o) (dl_completion delivery)) (dl_token delivery))
          end
        else Ok delivery in
      let? db := deliver db r (jr_result_expired r) in
      let? '(db, rest) := send_deliveries db admitted in
      Ok (db, delivery :: rest)
  end.

Definition completions (db : JobDb) (cf : JobConfig) (scope : JobScope) (now : Millis)
    (limit max_bytes : Z) : result JobError (JobDb * JobResponse) :=
  let? _ := page cf limit in
  if negb (bytes_ok cf max_bytes) then Err EInvalidRequest
  else
    let? candidates := inspect db scope QFinal now limit in
    let? admitted := admit_deliveries db cf now 2 max_bytes false candidates in
    let? '(db, deliveries) := send_deliveries db admitted in
    Ok (db, RespDeliveries deliveries).

(** ** Confirmation *)

Definition disposition_state (d : Disposition) : JobState :=
  match d with DAccepted => JAccepted | DDiscarded => JDiscarded end.

(** One iteration of the [Ack] loop. *)
Definition ack_one (db : JobDb) (scope : JobScope) (token : DeliveryToken) (d : Disposition) :
    result JobError (JobDb * AckResult) :=
  let? r := get db scope (tk_job token) in
  if unfinished (jr_state r) then Err ENotFinal
  else if (tk_generation token =? 0) || (jr_delivery_generation r <? tk_generation token)
  then Err EInvalidRequest
  else if acked (jr_state r)
  then Ok (db, AlreadyAcked (if bool_decide (jr_state r = JAccepted) then DAccepted else DDiscarded))
  else
    let? db := save db (set_state (disposition_state d) (set_final_state (Some (jr_state r)) r)) in
    Ok (db, Acked d).

Fixpoint ack_all (db : JobDb) (scope : JobScope) (acks : list (DeliveryToken * Disposition)) :
    result JobError (JobDb * list AckResult) :=
  match acks with
  | [] => Ok (db, [])
  | (token, d) :: acks =>
      let? '(db, r) := ack_one db scope token d in
      let? '(db, rs) := ack_all db scope acks in
      Ok (db, r :: rs)
  end.

(** [scoped] over a whole batch. *)
Fixpoint all_scoped (scope : JobScope) (ids : list JobId) : result JobError unit :=
  match ids with
  | [] => Ok tt
  | id :: ids => let? _ := scoped scope id in all_scoped scope ids
  end.

Definition ack (db : JobDb) (cf : JobConfig) (scope : JobScope)
    (acks : list (DeliveryToken * Disposition)) : result JobError (JobDb * JobResponse) :=
  if (cf_max_batch cf <? Z.of_nat (length acks)) || (cf_max_page_bytes cf <? acks_len acks)
  then Err EInvalidRequest
  else
    let? _ := all_scoped scope (tk_job <$> acks.*1) in
    let? '(db, results) := ack_all db scope acks in
    Ok (db, RespAcks results).

(** ** Cancellation and erasure *)

(** [get] of each id. *)
Fixpoint get_all (db : JobDb) (scope : JobScope) (ids : list JobId) :
    result JobError (list JobRecord) :=
  match ids with
  | [] => Ok []
  | id :: ids =>
      let? r := get db scope id in
      let? rs := get_all db scope ids in
      Ok (r :: rs)
  end.

(** A [BTreeSet] of the ids: distinct, ascending. *)
Definition unique_ids (scope : JobScope) (ids : list JobId) : list JobId :=
  mkJobId scope <$> merge_sort String.le (elements (list_to_set (jid_id <$> ids) : gset string)).

Definition cancel_select (db : JobDb) (cf : JobConfig) (scope : JobScope) (now : Millis)
    (selector : Selector) : result JobError (list JobRecord) :=
  match selector with
  | SelIds ids =>
      if cf_max_batch cf <? Z.of_nat (length ids) then Err EInvalidRequest
      else let? _ := all_scoped scope ids in get_all db scope (unique_ids scope ids)
  | SelGroup group => select db scope (QGroup group) now (live_count db scope)
  end.

(** What cancelling does to one unfinished record. *)
Definition cancelled_record (cf : JobConfig) (now : Millis) (r : JobRecord) :
    result JobError JobRecord :=
  if claimable r now || bool_decide (jr_state r = JAwaitingAdmission) then
    let? r := finish (stopped_state r) now cf r in Ok (delete_copies r)
  else Ok (set_cancel_requested true r).

Fixpoint cancel_rows (db : JobDb) (cf : JobConfig) (now : Millis) (selected : list JobRecord) :
    result JobError (JobDb * Z) :=
  match selected with
  | [] => Ok (db, 0)
  | r :: selected =>
      if negb (unfinished (jr_state r)) then cancel_rows db cf now selected
      else
        let? r := cancelled_record cf now r in
        let? db := save db r in
        let? '(db, changed) := cancel_rows db cf now selected in
        Ok (db, 1 + changed)
  end.

(** What erasing an owner does to one record it selects. *)
Definition purged_record (cf : JobConfig) (now : Millis) (r : JobRecord) :
    result JobError JobRecord :=
  let r := delete_copies (set_cancel_requested true (set_owners [] (set_purged true r))) in
  if claimable r now
     || negb (bool_decide (jr_state r = JRunning)) && negb (bool_decide (jr_state r = JUncertain))
        && negb (acked (jr_state r))
  then finish JPurged now cf r else Ok r.

Fixpoint purge_rows (db : JobDb) (cf : JobConfig) (now : Millis) (selected : list JobRecord) :
    result JobError JobDb :=
  match selected with
  | [] => Ok db
  | r :: selected =>
      let? r := purged_record cf now r in
      let? db := save db r in
      purge_rows db cf now selected
  end.

Definition purge_owner (db : JobDb) (cf : JobConfig) (scope : JobScope) (now : Millis)
    (owner : string) : result JobError (JobDb * JobResponse) :=
  let? selected := select db scope (QOwner owner) now (live_count db scope) in
  let? db := purge_rows db cf now selected in
  Ok (db, RespChanged (Z.of_nat (length selected))).

(** ** Maintenance *)

(** The [Maintain] loop: [count] rows erased so far, [bytes] freed. *)
Fixpoint maintain_rows (db : JobDb) (cf : JobConfig) (count bytes : Z) (selected : list JobInfo) :
    result JobError (JobDb * Z) :=
  match selected with
  | [] => Ok (db, count)
  | info :: selected =>
      let? freed := recovery_bytes db (ji_id info) in
      let? required := usize_add bytes freed EStorage in
      if (0 <? count) && (cf_maintenance_bytes_per_pass cf <? required) then Ok (db, count)
      else
        let db := expire db (ji_id info) in
        if cf_maintenance_bytes_per_pass cf <=? required then Ok (db, count + 1)
        else maintain_rows db cf (count + 1) required selected
  end.

Definition maintain (db : JobDb) (cf : JobConfig) (scope : JobScope) (now : Millis) :
    result JobError (JobDb * JobResponse) :=
  let? selected := inspect db scope QExpired now (cf_maintenance_batch cf) in
  let? '(db, count) := maintain_rows db cf 0 0 selected in
  Ok (db, RespChanged count).

(** ** Requests *)

(** The configurations and scopes every request refuses. *)
Definition config_refused (cf : JobConfig) (scope : JobScope) : bool :=
  negb (cf_version cf =? 1) || (cf_max_batch cf =? 0) || (cf_max_page cf =? 0)
  || (cf_max_live_jobs cf =? 0) || (cf_max_page_bytes cf <? 2) || (cf_max_result_bytes cf =? 0)
  || (cf_maintenance_batch cf =? 0) || (cf_maintenance_bytes_per_pass cf =? 0)
  || (cf_claim_lease_seconds cf =? 0) || (cf_delivery_lease_seconds cf =? 0)
  || existsb (λ s, bool_decide (s = ""%string))
       [sc_tenant scope; sc_incarnation scope; sc_queue scope].

Definition diagnostic_of (i : JobInfo) : JobDiagnostic :=
  mkDiagnostic (ji_id i) (ji_state i) (ji_diagnostic i).

(** A page of static diagnostics and its cursor. *)
Definition diagnostic_page (l : list JobInfo) : DiagnosticPage :=
  mkDiagnosticPage (diagnostic_of <$> l) ((λ i, jid_id (ji_id i)) <$> last l).

(** ** The handlers of single requests *)

Definition await_admission (db : JobDb) (scope : JobScope) (job : JobId) :
    result JobError (JobDb * JobResponse) :=
  let? r := get db scope job in
  if negb (bool_decide (jr_state r = JPending)) || negb (bool_decide (jr_execution r = Model))
  then Err EInvalidRequest
  else let? db := save db (set_state JAwaitingAdmission r) in Ok (db, RespDone).

Definition admit_job (db : JobDb) (cf : JobConfig) (scope : JobScope) (job : JobId)
    (admission : Bytes) : result JobError (JobDb * JobResponse) :=
  let? r := get db scope job in
  if negb (bool_decide (jr_state r = JPending) || bool_decide (jr_state r = JAwaitingAdmission))
     || negb (bool_decide (jr_execution r = Model)) || bool_decide (admission = ""%string)
  then Err EInvalidRequest
  else if bool_decide (jr_admission r = Some admission) then Ok (db, RespDone)
  else
    let r := set_state JPending (set_admission (Some admission) r) in
    let? _ := candidate_page_bytes r 2 (cf_max_page_bytes cf) false in
    let? db := save db r in
    if cf_max_pending_bytes cf <? pu_bytes (usage db scope) then Err EQueueFull
    else Ok (db, RespDone).

Definition admission_notices (db : JobDb) (cf : JobConfig) (scope : JobScope) (now : Millis)
    (after : option string) (limit : Z) : result JobError (JobDb * JobResponse) :=
  let? _ := page cf limit in
  let? notices := inspect db scope (QAdmission after) now limit in
  Ok (db, RespDiagnostics (diagnostic_page notices)).

Definition enqueue_jobs (db : JobDb) (cf : JobConfig) (scope : JobScope) (now : Millis)
    (uuids : nat → string) (specs : list JobSpec) : result JobError (JobDb * JobResponse) :=
  if cf_max_batch cf <? Z.of_nat (length specs) then Err EInvalidRequest
  else
    let? '(db, outcomes) := enqueue_specs db cf scope now uuids 0 specs in
    Ok (db, RespEnqueued outcomes).

Definition claim_next (db : JobDb) (cf : JobConfig) (scope : JobScope) (now : Millis)
    (kinds : list string) (slots_available : Z) : result JobError (JobDb * JobResponse) :=
  if bool_decide (kinds = []) then Err EInvalidRequest
  else if slots_available =? 0 then Ok (db, RespJob None)
  else
    let? candidates := select db scope (QPending kinds) now (cf_max_page cf) in
    let? '(db, claimed) := claim_first db cf now candidates in
    Ok (db, RespJob claimed).

Definition candidate_jobs (db : JobDb) (cf : JobConfig) (scope : JobScope) (now : Millis)
    (kinds : list string) (limit max_bytes : Z) : result JobError (JobDb * JobResponse) :=
  let? _ := page cf limit in
  if bool_decide (kinds = []) then Err EInvalidRequest
  else if negb (bytes_ok cf max_bytes) then Err EInvalidRequest
  else
    let? selected := select db scope (QPending kinds) now limit in
    let? rows := fill_page 2 max_bytes false selected in
    Ok (db, RespCandidates rows).

Definition recovery_candidates (db : JobDb) (cf : JobConfig) (scope : JobScope) (now : Millis)
    (kinds : list string) (after : option string) (limit max_bytes : Z) :
    result JobError (JobDb * JobResponse) :=
  let? _ := page cf limit in
  if bool_decide (kinds = []) || negb (bytes_ok cf max_bytes) then Err EInvalidRequest
  else
    let? selected := select db scope (QRecovery kinds after) now limit in
    let? rows := fill_page 2 max_bytes false selected in
    Ok (db, RespCandidates rows).

Definition refuse_pending (db : JobDb) (cf : JobConfig) (scope : JobScope) (now : Millis)
    (job : JobId) (diagnostic : DiagnosticCode) : result JobError (JobDb * JobResponse) :=
  let? r := get db scope job in
  if negb (bool_decide (jr_execution r = Model)) then Err EInvalidRequest
  else if bool_decide (jr_state r = JPending) then
    let? r := finish JRefused now cf (set_diagnostic (Some diagnostic) r) in
    let? db := save db r in
    Ok (db, RespDone)
  else Ok (db, RespDone).

Definition claim_paid (db : JobDb) (cf : JobConfig) (scope : JobScope) (now : Millis)
    (job : JobId) (receipt : string) : result JobError (JobDb * JobResponse) :=
  let? r := get db scope job in
  if negb (bool_decide (jr_execution r = Model)) || bool_decide (receipt = ""%string)
  then Err EInvalidRequest
  else
    let? '(db, claimed) := claim_job db cf now r in
    match claimed with
    | Some r =>
        let r := set_origin (Some OriginPaid) (set_receipt (Some receipt) r) in
        let? db := save db r in
        Ok (db, RespJob (Some r))
    | None => Ok (db, RespJob None)
    end.

Definition claim_by_id (db : JobDb) (cf : JobConfig) (scope : JobScope) (now : Millis)
    (job : JobId) : result JobError (JobDb * JobResponse) :=
  let? r := get db scope job in
  let? '(db, claimed) := claim_job db cf now r in
  Ok (db, RespJob claimed).

Definition heartbeat_job (db : JobDb) (cf : JobConfig) (scope : JobScope) (now : Millis)
    (job : JobId) (generation : Z) : result JobError (JobDb * JobResponse) :=
  let? _ := scoped scope job in
  let? r := metadata db job in
  let? _ := live r generation now in
  let? until := deadline now (cf_claim_lease_seconds cf) in
  Ok (update_live job (set_lease_until (Some until)) db,
      RespHeartbeat (jr_cancel_requested r || jr_purged r)).

Definition cancel_jobs (db : JobDb) (cf : JobConfig) (scope : JobScope) (now : Millis)
    (selector : Selector) : result JobError (JobDb * JobResponse) :=
  let? selected := cancel_select db cf scope now selector in
  let? '(db, changed) := cancel_rows db cf now selected in
  Ok (db, RespChanged changed).

Definition diagnostics (db : JobDb) (cf : JobConfig) (scope : JobScope) (now : Millis)
    (group : string) (after : option string) (limit : Z) : result JobError (JobDb * JobResponse) :=
  let? _ := page cf limit in
  let? selected := inspect db scope (QDiagnostics group after) now limit in
  Ok (db, RespDiagnostics (diagnostic_page selected)).

Definition job_status (db : JobDb) (scope : JobScope) (job : JobId) :
    result JobError (JobDb * JobResponse) :=
  let? _ := scoped scope job in
  let? r := metadata db job in
  Ok (db, RespJob (Some r)).

(** The [match request] of [apply_job_request], at the quantised [now]. *)
Definition apply_request (db : JobDb) (cf : JobConfig) (scope : JobScope) (now : Millis)
    (uuids : nat → string) (request : JobRequest) : result JobError (JobDb * JobResponse) :=
  match request with
  | AwaitAdmission job => await_admission db scope job
  | Admit job admission => admit_job db cf scope job admission
  | AdmissionNotices after limit => admission_notices db cf scope now after limit
  | Enqueue specs => enqueue_jobs db cf scope now uuids specs
  | Claim kinds slots_available => claim_next db cf scope now kinds slots_available
  | Candidates kinds limit max_bytes => candidate_jobs db cf scope now kinds limit max_bytes
  | RecoveryCandidates kinds after limit max_bytes =>
      recovery_candidates db cf scope now kinds after limit max_bytes
  | RefusePending job diagnostic => refuse_pending db cf scope now job diagnostic
  | ClaimPaid job receipt => claim_paid db cf scope now job receipt
  | ClaimJob job => claim_by_id db cf scope now job
  | Heartbeat job generation => heartbeat_job db cf scope now job generation
  | Complete job generation state origin out receipt diagnostic =>
      complete db cf scope now job generation state origin out receipt diagnostic
  | Resolve job generation resolution => resolve db cf scope now job generation resolution
  | Completions limit max_bytes => completions db cf scope now limit max_bytes
  | Ack acks => ack db cf scope acks
  | Cancel selector => cancel_jobs db cf scope now selector
  | PurgeOwner owner => purge_owner db cf scope now owner
  | Diagnostics group after limit => diagnostics db cf scope now group after limit
  | Maintain => maintain db cf scope now
  | Status job => job_status db scope job
  | Get job => let? r := get db scope job in Ok (db, RespJob (Some r))
  | AskUsage => Ok (db, RespUsage (usage db scope))
  end.

Definition apply_job_request (db : JobDb) (cf : JobConfig) (scope : JobScope) (clock : RawTime)
    (uuids : nat → string) (request : JobRequest) : result JobError (JobDb * JobResponse) :=
  let? now := millisecond_time clock in
  if config_refused cf scope then Err EInvalidRequest
  else
    let? _ := deadline now (cf_claim_lease_seconds cf) in
    let? _ := deadline now (cf_delivery_lease_seconds cf) in
    let? _ := deadline now (cf_retention_seconds cf) in
    apply_request db cf scope now uuids request.

(** [jobs_in_transaction] and [job_operation]: the savepoint rolls back on an
    error. *)
Definition jobs_in_transaction (db : JobDb) (cf : JobConfig) (scope : JobScope) (clock : RawTime)
    (uuids : nat → string) (request : JobRequest) : JobDb * result JobError JobResponse :=
  match apply_job_request db cf scope clock uuids request with
  | Ok (db', response) => (db', Ok response)
  | Err e => (db, Err e)
  | Panic => (db, Panic)
  end.

Definition jobs_need_execution_in_transaction (db : JobDb) (scope : JobScope) (kind : string)
    (now : Millis) : result JobError bool :=
  let? l := select db scope (QExecution kind) now 1 in Ok (negb (bool_decide (l = []))).

(** [rows.metadata] of each id. *)
Fixpoint metadata_all (db : JobDb) (ids : list JobId) : result JobError (list JobRecord) :=
  match ids with
  | [] => Ok []
  | id :: ids =>
      let? r := metadata db id in
      let? rs := metadata_all db ids in
      Ok (r :: rs)
  end.

Definition paid_copies_for_request (db : JobDb) (cf : JobConfig) (scope : JobScope) (now : Millis)
    (request : JobRequest) : result JobError (list JobRecord) :=
  let? ids :=
    match request with
    | Ack acks =>
        if cf_max_batch cf <? Z.of_nat (length acks) then Err EInvalidRequest
        else let? _ := all_scoped scope (tk_job <$> acks.*1) in Ok (tk_job <$> acks.*1)
    | PurgeOwner owner =>
        let? l := inspect db scope (QOwner owner) now (live_count db scope) in Ok (ji_id <$> l)
    | Maintain =>
        let? l := inspect db scope QExpired now (cf_maintenance_batch cf) in Ok (ji_id <$> l)
    | _ => Ok []
    end in
  metadata_all db ids.

End JobStore.

(** Opens the handler a request dispatches to. *)
Ltac handler :=
  cbn [apply_request];
  unfold await_admission, admit_job, admission_notices, enqueue_jobs, claim_next, candidate_jobs,
    recovery_candidates, refuse_pending, claim_paid, claim_by_id, heartbeat_job, cancel_jobs,
    diagnostics, job_status.
