(* ===== verification/JobInv.v ===== *)
(** The job store's invariant and what a request may do to a job.

    [record_ok] is the well-formedness of one unconfirmed record, [job_inv]
    that of the tables: rows under their own ids, one row per key, tombstones
    confirmed, the owner index exactly the owners of the unconfirmed rows.
    [job_le] orders the records a job goes through; [lawful] is what one
    request leaves behind. *)

From Stdlib Require Import ZArith Lia.
From stdpp Require Import base gmap strings list fin_maps sorting.
From S2P Require Import Prelude Core JobTypes JobStore.

#[local] Open Scope Z_scope.

(** ** Well-formed records *)

Definition no_copies (r : JobRecord) : Prop :=
  jr_payload r = None ∧ jr_admission r = None ∧ jr_output r = None.

Record record_ok (r : JobRecord) : Prop := {
  ro_attempts : 0 ≤ jr_generation r ≤ jr_max_attempts r ∧ 1 ≤ jr_max_attempts r ≤ u32_max;
  ro_lease : jr_state r = JRunning ↔ is_Some (jr_lease_until r);
  ro_started : jr_state r = JRunning → 1 ≤ jr_generation r;
  ro_handler : jr_execution r = Handler → jr_state r ≠ JUncertain ∧ jr_state r ≠ JAwaitingAdmission;
  ro_model : jr_execution r = Model → jr_output r = None;
  ro_unfinished : unfinished (jr_state r) = true →
    jr_output r = None ∧ jr_finished_at r = None ∧ jr_result_expired r = false;
  ro_finished : finished (jr_state r) = true →
    is_Some (jr_finished_at r) ∧ is_Some (jr_recovery_until r);
  ro_purged : jr_purged r = true →
    no_copies r ∧ jr_owners r = [] ∧ jr_cancel_requested r = true
    ∧ jr_state r ≠ JPending ∧ jr_state r ≠ JAwaitingAdmission;
  ro_expired : jr_result_expired r = true → no_copies r;
  ro_live : acked (jr_state r) = false ∧ jr_final_state r = None;
  ro_delivery : 0 ≤ jr_delivery_generation r;
}.

(** ** The order of a job's records *)

Record job_le (r r' : JobRecord) : Prop := {
  jl_id : jr_id r' = jr_id r;
  jl_key : jr_key r' = jr_key r ∧ jr_digest r' = jr_digest r;
  jl_delivery : jr_delivery_generation r ≤ jr_delivery_generation r';
  jl_acked : acked (jr_state r) = true → r' = r;
  jl_confirmed : acked (jr_state r) = false → acked (jr_state r') = true →
    ∃ s, jr_final_state r' = Some s ∧ finished s = true
         ∧ (finished (jr_state r) = true → s = jr_state r ∨ s = JPurged);
  jl_frozen : acked (jr_state r') = false →
    jr_kind r' = jr_kind r ∧ jr_execution r' = jr_execution r ∧ jr_group r' = jr_group r
    ∧ jr_max_attempts r' = jr_max_attempts r ∧ jr_created_at r' = jr_created_at r;
  jl_fence : acked (jr_state r') = false → jr_generation r ≤ jr_generation r';
  jl_sticky : acked (jr_state r') = false →
    (jr_purged r = true → jr_purged r' = true)
    ∧ (jr_cancel_requested r = true → jr_cancel_requested r' = true)
    ∧ (jr_result_expired r = true → jr_result_expired r' = true);
  jl_final : acked (jr_state r') = false → finished (jr_state r) = true →
    jr_state r' = jr_state r ∨ jr_state r' = JPurged;
}.

Lemma finished_not_acked s : finished s = true → acked s = false ∧ unfinished s = false.
Proof. by destruct s. Qed.

Lemma job_le_refl r : job_le r r.
Proof. split; try done; try tauto; try lia. intros H1 H2. congruence. Qed.

Lemma job_le_trans r1 r2 r3 : job_le r1 r2 → job_le r2 r3 → job_le r1 r3.
Proof.
  intros H1 H2. pose proof H1 as [I1 [K1 D1] G1 A1 C1 F1 N1 S1 L1].
  pose proof H2 as [I2 [K2 D2] G2 A2 C2 F2 N2 S2 L2].
  destruct (acked (jr_state r1)) eqn:E1; [by rewrite (A1 eq_refl) in *|].
  destruct (acked (jr_state r2)) eqn:E2; [by rewrite (A2 eq_refl) in *|].
  split; try (split; congruence); try congruence; try lia.
  - intros _ E3. destruct (C2 eq_refl E3) as (s & Hs & Hf & Hc). exists s. split_and!; try done.
    intros Hf1. destruct (L1 eq_refl Hf1) as [Hr|Hr]; rewrite Hr in Hc.
    + by apply Hc.
    + right. destruct (Hc eq_refl); congruence.
  - intros E3. specialize (F1 eq_refl). specialize (F2 E3). naive_solver congruence.
  - intros E3. specialize (N1 eq_refl). specialize (N2 E3). lia.
  - intros E3. specialize (S1 eq_refl). specialize (S2 E3). naive_solver.
  - intros E3 Hf. destruct (L1 eq_refl Hf) as [Hr|Hr].
    + rewrite <-Hr in Hf |- *. by apply L2.
    + right. specialize (L2 E3). rewrite Hr in L2. destruct (L2 eq_refl); congruence.
Qed.

(** ** Tables *)

Record job_inv (db : JobDb) : Prop := {
  iv_live id r : jobs db !! id = Some (LiveRow r) → jr_id r = id ∧ record_ok r;
  iv_tomb id k d s f rc g kd :
    jobs db !! id = Some (TombstoneRow k d s f rc g kd) → acked s = true ∧ 0 ≤ g;
  iv_keys id id' row row' :
    jobs db !! id = Some row → jobs db !! id' = Some row' → jid_scope id = jid_scope id' →
    jr_key (read_record id row) = jr_key (read_record id' row') → id = id';
  iv_owners scope owner id :
    (scope, owner, id) ∈ job_owners db ↔
    ∃ r, jobs db !! mkJobId scope id = Some (LiveRow r) ∧ owner ∈ jr_owners r;
}.

(** A job as [Enqueue] creates it. *)
Definition fresh_job (r : JobRecord) : Prop :=
  record_ok r ∧ jr_state r = JPending ∧ jr_generation r = 0 ∧ jr_delivery_generation r = 0
  ∧ jr_purged r = false ∧ jr_cancel_requested r = false.

Inductive job_evolves : option JobRecord → option JobRecord → Prop :=
| je_none : job_evolves None None
| je_new r0 r : fresh_job r0 → job_le r0 r → job_evolves None (Some r)
| je_kept r r' : job_le r r' → job_evolves (Some r) (Some r').

Lemma job_evolves_refl o : job_evolves o o.
Proof. destruct o; constructor. apply job_le_refl. Qed.

Lemma job_evolves_trans o1 o2 o3 : job_evolves o1 o2 → job_evolves o2 o3 → job_evolves o1 o3.
Proof.
  intros [|r0 r Hf Hle|r r' Hle] H; inversion H as [|r1 r1' Hf1 Hle1|r1 r1' Hle1]; subst;
    try constructor; try (by econstructor).
  - econstructor; [done|]. by eapply job_le_trans.
  - by eapply job_le_trans.
Qed.

(** What a request of [scope] leaves: the invariant, jobs only further along,
    nothing of another scope touched. *)
Record lawful (scope : JobScope) (db db' : JobDb) : Prop := {
  lf_inv : job_inv db';
  lf_evolves id : job_evolves (rows_get db id) (rows_get db' id);
  lf_scope id : jid_scope id ≠ scope → jobs db' !! id = jobs db !! id;
}.

Lemma lawful_refl scope db : job_inv db → lawful scope db db.
Proof. intros Hi. split; try done. intros id. apply job_evolves_refl. Qed.

Lemma lawful_trans scope db1 db2 db3 :
  lawful scope db1 db2 → lawful scope db2 db3 → lawful scope db1 db3.
Proof.
  intros [I1 E1 S1] [I2 E2 S2]. split; [done| |].
  - intros id. by eapply job_evolves_trans.
  - intros id Hne. by rewrite S2, S1.
Qed.

Lemma rows_get_id db id r : job_inv db → rows_get db id = Some r → jr_id r = id.
Proof.
  intros Hi. unfold rows_get. destruct (jobs db !! id) as [[r0|]|] eqn:E; simpl; [|naive_solver..].
  intros [= <-]. by apply (iv_live _ Hi).
Qed.

(** An unconfirmed record comes from a full row. *)
Lemma rows_get_live db id r :
  job_inv db → rows_get db id = Some r → acked (jr_state r) = false →
  jobs db !! id = Some (LiveRow r) ∧ record_ok r.
Proof.
  intros Hi Hg Ha. unfold rows_get in Hg. destruct (jobs db !! id) as [[r0|]|] eqn:E; simpl in Hg; [| |done].
  - injection Hg as <-. split; [done|]. by apply (iv_live _ Hi id).
  - injection Hg as <-. simpl in Ha. destruct (iv_tomb _ Hi _ _ _ _ _ _ _ _ E) as [Hs _]. congruence.
Qed.

Lemma elem_of_scope_rows db scope r :
  r ∈ scope_rows db scope ↔ ∃ id, rows_get db id = Some r ∧ jid_scope id = scope.
Proof.
  unfold scope_rows, rows_get. rewrite list_elem_of_fmap. split.
  - intros ([id row] & -> & Hin). apply list_elem_of_filter in Hin as [Hs Hin].
    apply elem_of_map_to_list in Hin. exists id. by rewrite Hin.
  - intros (id & Hg & Hs). destruct (jobs db !! id) as [row|] eqn:E; [|done].
    injection Hg as <-. exists (id, row). split; [done|].
    apply list_elem_of_filter. split; [done|]. by apply elem_of_map_to_list.
Qed.

Lemma key_taken_false db r :
  job_inv db → key_taken db r = false →
  ∀ id o, rows_get db id = Some o → jid_scope id = jid_scope (jr_id r) → jr_key o = jr_key r →
    id = jr_id r.
Proof.
  intros Hi Hk id o Hg Hs Hkey. unfold key_taken in Hk.
  rewrite <-not_true_iff_false, existsb_exists in Hk.
  destruct (decide (id = jr_id r)) as [|Hne]; [done|]. exfalso. apply Hk. exists o. split.
  - apply list_elem_of_In, elem_of_scope_rows. eauto.
  - rewrite (rows_get_id db id o Hi Hg). rewrite !bool_decide_true by done.
    by rewrite bool_decide_false.
Qed.

(** ** Saving a record *)

(** The row [save] writes. *)
Definition row_of (bytes : Z) (r : JobRecord) : JobRow :=
  if acked (jr_state r)
  then TombstoneRow (jr_key r) (jr_digest r) (jr_state r) (jr_final_state r) (jr_receipt r)
         (jr_delivery_generation r)
         (if bool_decide (jr_execution r = Model) then Some (jr_kind r) else None)
  else LiveRow (set_output_bytes bytes r).

Lemma row_of_fields bytes r :
  let o := read_record (jr_id r) (row_of bytes r) in
  jr_id o = jr_id r ∧ jr_key o = jr_key r ∧ jr_state o = jr_state r.
Proof. unfold row_of. by destruct (acked (jr_state r)). Qed.

Lemma record_ok_bytes b r : record_ok r → record_ok (set_output_bytes b r).
Proof. by intros [H1 H2 H3 H4 H5 H6 H7 H8 H9 H10 H11]; split. Qed.

(** What is read back is as far along as what was saved. *)
Lemma row_of_le bytes r r' :
  job_le r r' → acked (jr_state r) = false →
  job_le r (read_record (jr_id r') (row_of bytes r')).
Proof.
  intros [H1 H2 H3 H4 H5 H6 H7 H8 H9] Ha. unfold row_of.
  destruct (acked (jr_state r')) eqn:E; split; simpl; try done; try congruence; try tauto.
Qed.

Lemma elem_of_without_owners id owners scope owner i :
  (scope, owner, i) ∈ without_owners id owners ↔ (scope, owner, i) ∈ owners ∧ mkJobId scope i ≠ id.
Proof.
  unfold without_owners. rewrite elem_of_filter. destruct id as [s j]. simpl. naive_solver.
Qed.

Lemma elem_of_with_owners id l owners scope owner i :
  (scope, owner, i) ∈ with_owners id l owners ↔
  (scope, owner, i) ∈ owners ∨ owner ∈ l ∧ mkJobId scope i = id.
Proof.
  unfold with_owners. rewrite elem_of_union, elem_of_list_to_set, list_elem_of_fmap.
  destruct id as [s j]. simpl. naive_solver.
Qed.

Section Save.
Context `{!Chrono} `{!JobCodec}.

Lemma save_inv db r db' :
  save db r = Ok db' →
  key_taken db r = false ∧ ∃ bytes, jobs db' = <[jr_id r := row_of bytes r]> (jobs db)
  ∧ job_owners db' =
      if acked (jr_state r) then without_owners (jr_id r) (job_owners db)
      else if bool_decide (jr_owners <$> rows_get db (jr_id r) = Some (jr_owners r))
      then job_owners db
      else with_owners (jr_id r) (jr_owners r) (without_owners (jr_id r) (job_owners db)).
Proof.
  unfold save, row_of. destruct (acked (jr_state r)) eqn:Ha.
  - destruct (as_i64 _); rsimpl; [|done..]. destruct (key_taken db r); [done|].
    intros [= <-]. split; [done|]. by exists 0.
  - destruct (negb (times_ok r)); [done|].
    destruct (as_i64 (jr_generation r)); rsimpl; [|done..].
    destruct (as_i64 (jr_delivery_generation r)); rsimpl; [|done..].
    destruct (stored_output_bytes r) as [b| |]; rsimpl; [|done..].
    destruct (as_i64 b) as [b'| |]; rsimpl; [|done..].
    destruct (key_taken db r); [done|]. intros [= <-]. split; [done|]. by exists b'.
Qed.

(** The rows of a saved table. *)
Lemma save_rows db r db' :
  save db r = Ok db' →
  ∃ bytes, rows_get db' (jr_id r) = Some (read_record (jr_id r) (row_of bytes r))
  ∧ ∀ id, id ≠ jr_id r → jobs db' !! id = jobs db !! id.
Proof.
  intros (_ & bytes & Hj & _)%save_inv. exists bytes. unfold rows_get. rewrite Hj.
  split; [by rewrite lookup_insert_eq|]. intros id Hne. by rewrite lookup_insert_ne.
Qed.

Lemma save_owners db r db' scope owner i :
  job_inv db → save db r = Ok db' →
  (scope, owner, i) ∈ job_owners db' ↔
  ∃ o, jobs db' !! mkJobId scope i = Some (LiveRow o) ∧ owner ∈ jr_owners o.
Proof.
  intros Hi Hs. destruct (save_inv db r db' Hs) as (_ & bytes & Hj & Ho). rewrite Hj, Ho.
  destruct (decide (mkJobId scope i = jr_id r)) as [Hid|Hid].
  - rewrite Hid, lookup_insert_eq. unfold row_of. destruct (acked (jr_state r)).
    { rewrite elem_of_without_owners. naive_solver. }
    assert (owner ∈ jr_owners r ↔ ∃ o, Some (LiveRow (set_output_bytes bytes r)) = Some (LiveRow o)
      ∧ owner ∈ jr_owners o) as <- by naive_solver.
    case_bool_decide as Hd.
    + rewrite (iv_owners _ Hi), Hid. unfold rows_get in Hd.
      destruct (jobs db !! jr_id r) as [[o|]|] eqn:E; simpl in Hd; [| |done].
      * injection Hd as Hd. rewrite <-Hd. naive_solver.
      * injection Hd as Hd. rewrite <-Hd. set_solver.
    + rewrite elem_of_with_owners, elem_of_without_owners. naive_solver.
  - rewrite lookup_insert_ne by done. rewrite <-(iv_owners _ Hi).
    destruct (acked (jr_state r)); [rewrite elem_of_without_owners; tauto|].
    case_bool_decide; [done|]. rewrite elem_of_with_owners, elem_of_without_owners. tauto.
Qed.

Lemma save_job_inv db r db' :
  job_inv db → save db r = Ok db' → (acked (jr_state r) = false → record_ok r) →
  0 ≤ jr_delivery_generation r → job_inv db'.
Proof.
  intros Hi Hs Hok Hdg. destruct (save_inv db r db' Hs) as (Hk & bytes & Hj & _).
  assert (Hrow : ∀ id row, jobs db' !! id = Some row →
    id = jr_id r ∧ row = row_of bytes r ∨ id ≠ jr_id r ∧ jobs db !! id = Some row).
  { intros id row. rewrite Hj, lookup_insert_Some. naive_solver. }
  split.
  - intros id o Ho. destruct (Hrow _ _ Ho) as [[-> E]|[_ E]]; [|by apply (iv_live _ Hi)].
    unfold row_of in E. destruct (acked (jr_state r)) eqn:Ea; [done|]. injection E as ->.
    split; [done|]. by apply record_ok_bytes, Hok.
  - intros id k d s f rc g kd Ho. destruct (Hrow _ _ Ho) as [[-> E]|[_ E]]; [|by eapply (iv_tomb _ Hi)].
    unfold row_of in E. destruct (acked (jr_state r)) eqn:Ea; [|done].
    injection E as -> -> -> -> -> -> ->. done.
  - intros id id' row row' H1 H2 Hsc Hkey.
    destruct (row_of_fields bytes r) as (_ & Hkr & _).
    destruct (Hrow _ _ H1) as [[-> ->]|[Hn1 E1]], (Hrow _ _ H2) as [[-> ->]|[Hn2 E2]]; [done|..].
    + symmetry. eapply (key_taken_false db r Hi Hk id'); [unfold rows_get; by rewrite E2|done|congruence].
    + eapply (key_taken_false db r Hi Hk id); [unfold rows_get; by rewrite E1|done|congruence].
    + by eapply (iv_keys _ Hi).
  - intros scope owner id. by eapply save_owners.
Qed.

(** Saving a record further along. *)
Lemma save_lawful db r r' db' :
  job_inv db → rows_get db (jr_id r') = Some r → acked (jr_state r) = false →
  job_le r r' → (acked (jr_state r') = false → record_ok r') → save db r' = Ok db' →
  lawful (jid_scope (jr_id r')) db db'.
Proof.
  intros Hi Hg Ha Hle Hok Hs. pose proof (rows_get_live db _ r Hi Hg Ha) as [_ Hokr].
  destruct (save_rows db r' db' Hs) as (bytes & Hnew & Hother). split.
  - eapply save_job_inv; [done|done|done|]. pose proof (jl_delivery _ _ Hle).
    pose proof (ro_delivery _ Hokr). lia.
  - intros id. destruct (decide (id = jr_id r')) as [->|Hne].
    + rewrite Hg, Hnew. constructor. by apply row_of_le.
    + unfold rows_get. rewrite Hother by done. apply job_evolves_refl.
  - intros id Hne. apply Hother. intros ->. done.
Qed.

(** Saving a new job. *)
Lemma save_new_lawful db r db' :
  job_inv db → rows_get db (jr_id r) = None → fresh_job r → save db r = Ok db' →
  lawful (jid_scope (jr_id r)) db db'.
Proof.
  intros Hi Hg Hf Hs. pose proof Hf as (Hok & Hst & _).
  destruct (save_rows db r db' Hs) as (bytes & Hnew & Hother). split.
  - eapply save_job_inv; [done|done|done|apply Hok].
  - intros id. destruct (decide (id = jr_id r)) as [->|Hne].
    + rewrite Hg, Hnew. econstructor; [exact Hf|]. apply row_of_le; [apply job_le_refl|].
      by rewrite Hst.
    + unfold rows_get. rewrite Hother by done. apply job_evolves_refl.
  - intros id Hne. apply Hother. intros ->. done.
Qed.

End Save.
