(* ===== verification/JobProofs.v ===== *)
(** Every request of the job store is lawful: the invariant is kept, jobs only
    move forward, and nothing outside the request's scope changes. *)

From Stdlib Require Import ZArith Lia.
From stdpp Require Import base gmap strings list fin_maps sorting.
From S2P Require Import Prelude Core JobTypes JobStore JobInv.

#[local] Open Scope Z_scope.

(** ** Records through the rules *)

(** The part of [record_ok] that does not read the state. *)
Record base_ok (r : JobRecord) : Prop := {
  bo_attempts : 0 ≤ jr_generation r ≤ jr_max_attempts r ∧ 1 ≤ jr_max_attempts r ≤ u32_max;
  bo_model : jr_execution r = Model → jr_output r = None;
  bo_purged : jr_purged r = true →
    no_copies r ∧ jr_owners r = [] ∧ jr_cancel_requested r = true;
  bo_expired : jr_result_expired r = true → no_copies r;
  bo_final : jr_final_state r = None;
  bo_delivery : 0 ≤ jr_delivery_generation r;
}.

Lemma record_ok_base r : record_ok r → base_ok r.
Proof. intros [H1 H2 H3 H4 H5 H6 H7 H8 H9 [H10 H11] H12]. split; try done.
  intros Hp. destruct (H8 Hp) as (?&?&?&?). by split_and!.
Qed.

Lemma delete_copies_none r : no_copies (delete_copies r).
Proof. done. Qed.

Lemma delete_copies_ok r : record_ok r → record_ok (delete_copies r).
Proof.
  intros [H1 H2 H3 H4 H5 H6 H7 H8 H9 H10 H11]. split; simpl; try done.
  - intros Hu. destruct (H6 Hu) as (?&?&?). by split_and!.
  - intros Hp. destruct (H8 Hp) as (?&?&?&?&?). by split_and!.
Qed.

Lemma delete_copies_le r r' : job_le r r' → acked (jr_state r') = false → job_le r (delete_copies r').
Proof.
  intros [H1 H2 H3 H4 H5 H6 H7 H8 H9] Ha. split; simpl; try done; try congruence.
  intros E. rewrite (H4 E) in Ha. congruence.
Qed.

Section Records.
Context `{!Chrono} `{!JobCodec}.

(** What [finish] makes of a record. *)
Lemma finish_cases st now cf r r' :
  finish st now cf r = Ok r' →
  ∃ until, let base := set_recovery_until (Some until)
                         (set_lease_until None (set_finished_at (Some now) (set_state st r))) in
  (∀ u, jr_recovery_until r = Some u → until = u)
  ∧ (r' = base ∧ now < until ∨ r' = delete_copies (set_result_expired true base) ∧ until ≤ now).
Proof.
  unfold finish. simpl. destruct (jr_recovery_until r) as [u|] eqn:Hu; rsimpl; simpl.
  - rewrite Hu. simpl. destruct (u <=? now) eqn:E; intros [= <-]; bools; exists u;
      (split; [by intros ? [= ->]|]); [right|left]; (split; [|lia]); destruct r; simpl in *; by subst.
  - destruct (deadline now (cf_retention_seconds cf)) as [u| |]; rsimpl; [|done..]. simpl.
    destruct (u <=? now) eqn:E; intros [= <-]; bools; exists u; (split; [done|]);
      [right|left]; (split; [done|lia]).
Qed.

(** Fields [finish] leaves alone or only clears. *)
Lemma finish_fields st now cf r r' :
  finish st now cf r = Ok r' →
  jr_id r' = jr_id r ∧ jr_state r' = st ∧ jr_purged r' = jr_purged r
  ∧ jr_execution r' = jr_execution r ∧ jr_generation r' = jr_generation r
  ∧ jr_cancel_requested r' = jr_cancel_requested r
  ∧ (jr_output r' = jr_output r ∨ jr_output r' = None ∧ jr_result_expired r' = true).
Proof. intros (u & _ & [[-> _]|[-> _]])%finish_cases; simpl; split_and!; auto. Qed.

Lemma finish_le r0 st now cf r r' :
  finish st now cf r = Ok r' → job_le r0 r → finished st = true → acked (jr_state r) = false →
  (finished (jr_state r0) = true → st = jr_state r0 ∨ st = JPurged) → job_le r0 r'.
Proof.
  intros Hf [H1 H2 H3 H4 H5 H6 H7 H8 H9] Hst Ha Hfin.
  destruct (finished_not_acked st Hst) as [Hsa _].
  assert (acked (jr_state r0) = true → False) as Hno.
  { intros E. rewrite (H4 E) in Ha. congruence. }
  apply finish_cases in Hf as (u & _ & [[-> _]|[-> _]]); split; simpl; try done; try congruence;
    try tauto.
  all: intros _; destruct (H8 Ha) as (?&?&?); split_and!; tauto.
Qed.

Lemma finish_ok st now cf r r' :
  finish st now cf r = Ok r' → base_ok r → finished st = true → record_ok r'.
Proof.
  intros Hf [H1 H2 H3 H4 H5 H6] Hst. destruct (finished_not_acked st Hst) as [Hsa Hsu].
  assert (st ≠ JRunning ∧ st ≠ JUncertain ∧ st ≠ JAwaitingAdmission ∧ st ≠ JPending) as (?&?&?&?)
    by (split_and!; by intros ->).
  apply finish_cases in Hf as (u & _ & [[-> _]|[-> _]]); split; simpl; try done; try congruence.
  all: try (split; [done|by intros []]).
  all: try (intros Hp; destruct (H3 Hp) as (?&?&?); by split_and!).
  all: split_and!; try done; eauto.
Qed.

Lemma stopped_finished r : finished (stopped_state r) = true.
Proof. unfold stopped_state. by destruct (jr_purged r). Qed.

Lemma claimable_state r now : claimable r now = true → jr_state r = JPending ∨ jr_state r = JRunning.
Proof.
  unfold claimable. intros Hc. apply orb_true_iff in Hc as [Hc|Hc]; bools; auto.
Qed.

Lemma unfinished_states s : unfinished s = true → finished s = false ∧ acked s = false.
Proof. by destruct s. Qed.

End Records.

(** A record whose state reads [unfinished] as another unfinished one: the
    identity, the frozen fields and the flags are what has to be shown. *)
Lemma job_le_unfinished r r' :
  unfinished (jr_state r) = true → acked (jr_state r') = false →
  jr_id r' = jr_id r → jr_key r' = jr_key r → jr_digest r' = jr_digest r →
  jr_kind r' = jr_kind r → jr_execution r' = jr_execution r → jr_group r' = jr_group r →
  jr_max_attempts r' = jr_max_attempts r → jr_created_at r' = jr_created_at r →
  jr_delivery_generation r' = jr_delivery_generation r → jr_generation r ≤ jr_generation r' →
  (jr_purged r = true → jr_purged r' = true) →
  (jr_cancel_requested r = true → jr_cancel_requested r' = true) →
  jr_result_expired r' = jr_result_expired r → job_le r r'.
Proof.
  intros Hu Ha; intros. destruct (unfinished_states _ Hu) as [Hnf Hna].
  split; try done; try congruence; try lia.
  intros _. split_and!; try done. congruence.
Qed.

(** ** Selections *)

Section Requests.
Context `{!Chrono} `{!JobCodec}.
Implicit Types (db : JobDb) (scope : JobScope).

Lemma get_ok db scope id r :
  get db scope id = Ok r → rows_get db id = Some r ∧ jid_scope id = scope.
Proof.
  unfold get, scoped. case_bool_decide; rsimpl; [|done]. intros Hg%ok_or_ok. done.
Qed.

Lemma read_record_id db id row : job_inv db → jobs db !! id = Some row → jr_id (read_record id row) = id.
Proof. intros Hi Hr. apply (rows_get_id db); [done|]. unfold rows_get. by rewrite Hr. Qed.

Lemma scope_rows_nodup db scope : job_inv db → NoDup (jr_id <$> scope_rows db scope).
Proof.
  intros Hi. unfold scope_rows. rewrite <-list_fmap_compose.
  assert (((jr_id ∘ (λ p : JobId * JobRow, read_record p.1 p.2))
    <$> filter (λ p : JobId * JobRow, jid_scope p.1 = scope) (map_to_list (jobs db)))
    = (filter (λ p : JobId * JobRow, jid_scope p.1 = scope) (map_to_list (jobs db))).*1) as ->.
  { apply list_fmap_ext. intros n [id row] Hn%list_elem_of_lookup_2. simpl.
    apply list_elem_of_filter in Hn as [_ Hn%elem_of_map_to_list]. by apply (read_record_id db). }
  eapply sublist_NoDup; [apply (NoDup_fst_map_to_list (jobs db))|]. apply fmap_sublist, sublist_filter.
Qed.

(** Distinct stored records of the scope. *)
Definition stored (db : JobDb) (scope : JobScope) (l : list JobRecord) : Prop :=
  NoDup (jr_id <$> l)
  ∧ ∀ r, r ∈ l → rows_get db (jr_id r) = Some r ∧ jid_scope (jr_id r) = scope.

Lemma stored_cons db scope r l :
  stored db scope (r :: l) →
  rows_get db (jr_id r) = Some r ∧ jid_scope (jr_id r) = scope ∧ stored db scope l
  ∧ ∀ o, o ∈ l → jr_id o ≠ jr_id r.
Proof.
  intros [Hnd Hs]. csimpl in Hnd. apply NoDup_cons in Hnd as [Hn Hnd].
  destruct (Hs r ltac:(left)). split_and!; try done.
  - split; [done|]. intros o Ho. apply Hs. by right.
  - intros o Ho E. apply Hn. rewrite <-E. by apply list_elem_of_fmap_2.
Qed.

(** Rows of other ids unchanged. *)
Definition frame (id : JobId) (db db' : JobDb) : Prop :=
  ∀ id', id' ≠ id → jobs db' !! id' = jobs db !! id'.

Lemma frame_stored id db db' scope l :
  frame id db db' → (∀ o, o ∈ l → jr_id o ≠ id) → stored db scope l → stored db' scope l.
Proof.
  intros Hf Hne [Hnd Hs]. split; [done|]. intros r Hr. unfold rows_get. rewrite Hf by auto.
  by apply Hs.
Qed.

Lemma select_ok db scope q now limit l :
  job_inv db → select db scope q now limit = Ok l →
  stored db scope l ∧ (∀ r, r ∈ l → query_filter db q now r = true)
  ∧ Z.of_nat (length l) ≤ Z.max 0 limit.
Proof.
  intros Hi. unfold select, i64_try_from. case_match; [|done]. case_match; [|done].
  intros [= <-]. simplify_eq.
  set (all := merge_sort _ _).
  assert (all ≡ₚ select_where (query_filter db q now) (scope_rows db scope)) as Hall
    by apply merge_sort_Permutation.
  assert (∀ r, r ∈ take (Z.to_nat z) all → r ∈ scope_rows db scope ∧ query_filter db q now r = true) as Hin.
  { intros r Hr. apply elem_of_select_where. rewrite <-Hall.
    eapply elem_of_submseteq; [exact Hr|apply submseteq_take]. }
  split_and!.
  - split.
    + eapply sublist_NoDup; [|apply fmap_sublist, sublist_take]. rewrite Hall.
      eapply sublist_NoDup; [apply scope_rows_nodup, Hi|]. apply fmap_sublist, sublist_filter.
    + intros r Hr. destruct (Hin r Hr) as [Hs _].
      apply elem_of_scope_rows in Hs as (id & Hg & Hsc).
      by rewrite (rows_get_id db id r Hi Hg).
  - intros r Hr. by apply Hin.
  - rewrite length_take. lia.
Qed.

(** ** One save *)

Lemma save_frame db r db' : save db r = Ok db' → frame (jr_id r) db db'.
Proof. intros (bytes & _ & Hf)%save_rows. exact Hf. Qed.

(** A stored unconfirmed record replaced by one further along. *)
Lemma save_step db scope r r' db' :
  job_inv db → rows_get db (jr_id r) = Some r → jid_scope (jr_id r) = scope →
  acked (jr_state r) = false → job_le r r' → (acked (jr_state r') = false → record_ok r') →
  save db r' = Ok db' → lawful scope db db' ∧ frame (jr_id r) db db'.
Proof.
  intros Hi Hg Hs Ha Hle Hok Hsave. pose proof (jl_id _ _ Hle) as Hid.
  rewrite <-Hid in Hg, Hs |- *. rewrite <-Hs. split; [by eapply save_lawful|by apply save_frame].
Qed.

Lemma claim_job_lawful db scope cf now r db' o :
  job_inv db → rows_get db (jr_id r) = Some r → jid_scope (jr_id r) = scope →
  claim_job db cf now r = Ok (db', o) →
  lawful scope db db' ∧ frame (jr_id r) db db'
  ∧ ∀ r', o = Some r' → jr_id r' = jr_id r ∧ jr_state r' = JRunning
      ∧ jr_generation r' = jr_generation r + 1 ∧ jr_generation r' ≤ jr_max_attempts r
      ∧ jr_purged r = false ∧ jr_execution r' = jr_execution r ∧ jr_receipt r' = jr_receipt r
      ∧ job_le r r' ∧ record_ok r' ∧ ∃ bytes, rows_get db' (jr_id r) = Some (set_output_bytes bytes r').
Proof.
  intros Hi Hg Hs. unfold claim_job.
  destruct (claimable r now) eqn:Hc; simpl; [|intros [= <- <-]; split_and!; [by apply lawful_refl|done|done]].
  assert (unfinished (jr_state r) = true) as Hu by (destruct (claimable_state _ _ Hc) as [-> | ->]; done).
  destruct (unfinished_states _ Hu) as [Hnf Hna].
  destruct (rows_get_live db _ r Hi Hg Hna) as [_ Hok].
  destruct (jr_cancel_requested r) eqn:Hcan.
  { destruct (finish (stopped_state r) now cf r) as [r1| |] eqn:Hf; rsimpl; [|done..].
    destruct (save db (delete_copies r1)) as [db1| |] eqn:Hsv; rsimpl; [|done..]. intros [= <- <-].
    pose proof (finish_ok _ _ _ _ _ Hf (record_ok_base _ Hok) (stopped_finished r)) as Hok1.
    destruct (save_step db scope r (delete_copies r1) db1) as [? ?]; try done.
    - apply delete_copies_le; [|apply Hok1].
      eapply finish_le; [exact Hf|apply job_le_refl|apply stopped_finished|done|congruence].
    - intros _. by apply delete_copies_ok. }
  destruct (jr_max_attempts r <=? jr_generation r) eqn:Hmax.
  { destruct (finish JRefused now cf r) as [r1| |] eqn:Hf; rsimpl; [|done..].
    destruct (save db r1) as [db1| |] eqn:Hsv; rsimpl; [|done..]. intros [= <- <-].
    pose proof (finish_ok _ _ _ _ _ Hf (record_ok_base _ Hok) eq_refl) as Hok1.
    destruct (save_step db scope r r1 db1) as [? ?]; try done.
    eapply finish_le; [exact Hf|apply job_le_refl|done|done|congruence]. }
  destruct (checked_add u64_max (jr_generation r) 1) as [g|] eqn:Hgen; rsimpl; [|done].
  apply checked_add_some in Hgen as [-> _].
  destruct (deadline now (cf_claim_lease_seconds cf)) as [until| |]; rsimpl; [|done..].
  set (r1 := set_lease_until (Some until) (set_generation (jr_generation r + 1) (set_state JRunning r))).
  destruct (save db r1) as [db1| |] eqn:Hsv; rsimpl; [|done..]. intros [= <- <-]. bools.
  assert (job_le r r1) as Hle by (apply job_le_unfinished; simpl; done || lia).
  assert (record_ok r1) as Hok1.
  { destruct Hok as [H1 H2 H3 H4 H5 H6 H7 H8 H9 [H10 H10'] H11].
    split; simpl; try done; try lia.
    - intros _. by apply H6.
    - intros Hp. destruct (H8 Hp) as (_ & _ & ? & _). congruence. }
  destruct (save_step db scope r r1 db1) as [? ?]; try done.
  split_and!; try done. intros r' [= <-].
  destruct (save_rows db r1 db1 Hsv) as (bytes & Hnew & _).
  split_and!; try done; simpl; try lia.
  - destruct (jr_purged r) eqn:Hp; [|done]. destruct (ro_purged _ Hok Hp) as (_ & _ & ? & _). congruence.
  - exists bytes. exact Hnew.
Qed.

Lemma claim_first_lawful db scope cf now l db' o :
  job_inv db → stored db scope l → claim_first db cf now l = Ok (db', o) → lawful scope db db'.
Proof.
  revert db. induction l as [|r l IH]; intros db Hi Hst; simpl.
  { intros [= <- <-]. by apply lawful_refl. }
  apply stored_cons in Hst as (Hg & Hs & Hst & Hne).
  destruct (claim_job db cf now r) as [[db1 c]| |] eqn:Hc; rsimpl; [|done..].
  destruct (claim_job_lawful db scope cf now r db1 c Hi Hg Hs Hc) as (Hl & Hf & _).
  destruct c as [r1|]; [by intros [= <- <-]|]. intros Hrest.
  eapply lawful_trans; [exact Hl|]. eapply IH; [apply Hl| |exact Hrest]. by eapply frame_stored.
Qed.

(** ** Updates in place *)

Lemma update_live_lawful db scope id f :
  job_inv db → jid_scope id = scope →
  (∀ r, jobs db !! id = Some (LiveRow r) →
     job_le r (f r) ∧ record_ok (f r) ∧ jr_owners (f r) = jr_owners r) →
  lawful scope db (update_live id f db) ∧ frame id db (update_live id f db).
Proof.
  intros Hi Hs Hf.
  assert (Hrow : ∀ id', jobs (update_live id f db) !! id' = jobs db !! id' ∨
    id' = id ∧ ∃ r, jobs db !! id = Some (LiveRow r)
      ∧ jobs (update_live id f db) !! id = Some (LiveRow (f r))).
  { intros id'. simpl. destruct (decide (id' = id)) as [->|Hne]; [|left; by rewrite lookup_alter_ne].
    rewrite lookup_alter_eq. destruct (jobs db !! id) as [[r|]|] eqn:E; simpl; [|by left..].
    right. split; [done|]. by exists r. }
  assert (frame id db (update_live id f db)) as Hfr.
  { intros id' Hne. destruct (Hrow id') as [|[? _]]; [done|congruence]. }
  split; [|done]. split.
  - split.
    + intros id' r'. destruct (Hrow id') as [->|[-> (r & Hr & ->)]]; [apply (iv_live _ Hi)|].
      intros [= <-]. destruct (Hf r Hr) as (Hle & Hok & _). destruct (iv_live _ Hi _ _ Hr) as [Hid _].
      split; [|done]. by rewrite (jl_id _ _ Hle).
    + intros id' k d s fs rc g kd. destruct (Hrow id') as [->|[-> (r & Hr & ->)]]; [|done].
      apply (iv_tomb _ Hi).
    + assert (Hkey : ∀ id' row, jobs (update_live id f db) !! id' = Some row →
        ∃ row0, jobs db !! id' = Some row0 ∧ jr_key (read_record id' row0) = jr_key (read_record id' row)).
      { intros id' row. destruct (Hrow id') as [->|[-> (r & Hr & ->)]]; [by eauto|].
        intros [= <-]. exists (LiveRow r). split; [done|]. simpl.
        destruct (Hf r Hr) as (Hle & _). by destruct (jl_key _ _ Hle). }
      intros id1 id2 row1 row2 H1 H2 Hsc Hk. destruct (Hkey _ _ H1) as (o1 & E1 & K1).
      destruct (Hkey _ _ H2) as (o2 & E2 & K2). eapply (iv_keys _ Hi); [done..|congruence].
    + intros sc owner i. simpl. rewrite (iv_owners _ Hi). pose proof (Hrow (mkJobId sc i)) as Hr.
      simpl in Hr. destruct Hr as [->|[<- (r & Hr & ->)]]; [done|]. rewrite Hr.
      destruct (Hf r Hr) as (_ & _ & Ho). split; intros (o & [= <-] & Hin); eexists;
        (split; [done|]); simpl; by rewrite Ho in *.
  - intros id'. unfold rows_get. destruct (Hrow id') as [->|[-> (r & Hr & ->)]];
      [apply job_evolves_refl|]. rewrite Hr. simpl. constructor. by apply Hf.
  - intros id' Hne. apply Hfr. intros ->. done.
Qed.

(** ** Enqueue *)

(** Machine-width ceilings and ids no row or other spec uses. *)
Definition enqueue_env (db : JobDb) (scope : JobScope) (uuids : nat → string) (n : nat)
    (specs : list JobSpec) : Prop :=
  (∀ m, (n ≤ m < n + length specs)%nat → jobs db !! mkJobId scope (uuids m) = None)
  ∧ (∀ m m', (n ≤ m < n + length specs)%nat → (n ≤ m' < n + length specs)%nat →
       uuids m = uuids m' → m = m')
  ∧ ∀ spec, spec ∈ specs → 0 ≤ js_max_attempts spec ≤ u32_max.

Lemma enqueue_env_head db scope uuids n spec specs :
  enqueue_env db scope uuids n (spec :: specs) →
  jobs db !! mkJobId scope (uuids n) = None ∧ 0 ≤ js_max_attempts spec ≤ u32_max.
Proof. intros (Hfree & _ & Hw). split; [apply Hfree; simpl; lia|apply Hw; left]. Qed.

Lemma enqueue_env_tail db db' scope uuids n spec specs :
  enqueue_env db scope uuids n (spec :: specs) → frame (mkJobId scope (uuids n)) db db' →
  enqueue_env db' scope uuids (S n) specs.
Proof.
  intros (Hfree & Hinj & Hw) Hf. simpl in *. split_and!.
  - intros m Hm. rewrite Hf; [apply Hfree; lia|]. intros [= Hu]. apply Hinj in Hu; lia.
  - intros m m' Hm Hm' Hu. apply Hinj; [lia..|done].
  - intros sp Hsp. apply Hw. by right.
Qed.

Lemma new_job_fresh id digest recovery now spec :
  1 ≤ js_max_attempts spec ≤ u32_max → fresh_job (new_job id digest recovery now spec).
Proof.
  intros Hm. split; [|done]. split; simpl; try done; try lia.
Qed.

Lemma insert_job_save db cf r db' : insert_job db cf r = Ok db' → save db r = Ok db'.
Proof.
  unfold insert_job.
  destruct (if bool_decide (jr_execution r = Model) then _ else _); rsimpl; [|done..].
  destruct (_ <=? _); [done|]. destruct (job_input_bytes r); rsimpl; [|done..].
  destruct (usize_add _ _ _); rsimpl; [|done..]. by destruct (_ <? _).
Qed.

Lemma enqueue_spec_lawful db cf scope now uuid spec db' o :
  job_inv db → jobs db !! mkJobId scope uuid = None → 0 ≤ js_max_attempts spec ≤ u32_max →
  enqueue_spec db cf scope now uuid spec = Ok (db', o) →
  lawful scope db db' ∧ frame (mkJobId scope uuid) db db'.
Proof.
  intros Hi Hnone Hm. unfold enqueue_spec.
  destruct (bool_decide (js_key spec = ""%string) || bool_decide (js_kind spec = ""%string)
            || (js_max_attempts spec =? 0)) eqn:Hg; [done|]. bools.
  destruct (quantized (js_recovery_until spec)) as [rec| |]; rsimpl; [|done..].
  destruct (by_key db scope (js_key spec)) as [row|].
  - destruct (negb _); [done|]. intros [= <- <-]. split; [by apply lawful_refl|done].
  - destruct (insert_job _ _ _) as [db1| |] eqn:Hins; rsimpl; [|done..]. intros [= <- <-].
    apply insert_job_save in Hins. split.
    + pose proof (new_job_fresh (mkJobId scope uuid) (sha256_hex (js_payload spec)) rec now spec
        ltac:(lia)) as Hfresh.
      refine (save_new_lawful db _ db1 Hi _ Hfresh Hins).
      unfold rows_get. simpl. by rewrite Hnone.
    + by apply save_frame in Hins.
Qed.

Lemma enqueue_specs_lawful db cf scope now uuids n specs db' o :
  job_inv db → enqueue_env db scope uuids n specs →
  enqueue_specs db cf scope now uuids n specs = Ok (db', o) → lawful scope db db'.
Proof.
  revert db n o. induction specs as [|spec specs IH]; intros db n o Hi Henv; simpl.
  { intros [= <- <-]. by apply lawful_refl. }
  pose proof (enqueue_env_head _ _ _ _ _ _ Henv) as [Hn Hm].
  destruct (enqueue_spec db cf scope now (uuids n) spec) as [[db1 o1]| |] eqn:E; rsimpl; [|done..].
  destruct (enqueue_spec_lawful db cf scope now (uuids n) spec db1 o1) as [Hl Hf]; try done.
  destruct (enqueue_specs db1 cf scope now uuids (S n) specs) as [[db2 o2]| |] eqn:E2; rsimpl; [|done..].
  intros [= <- <-]. eapply lawful_trans; [exact Hl|]. eapply IH; [apply Hl| |exact E2].
  by eapply enqueue_env_tail.
Qed.

End Requests.
