(* ===== verification/JobLawful.v ===== *)
(** Completion, resolution, delivery, confirmation, cancellation, erasure and
    maintenance are lawful; so is every request ([apply_request_lawful]). *)

From Stdlib Require Import ZArith Lia.
From stdpp Require Import base gmap strings list fin_maps sorting.
From S2P Require Import Prelude Core JobTypes JobStore JobInv JobProofs.

#[local] Open Scope Z_scope.

Section Lawful.
Context `{!Chrono} `{!JobCodec}.
Variable recovery_len : string → Z.
Implicit Types (db : JobDb) (scope : JobScope).

(** ** Completion *)

Lemma live_ok r generation now :
  live r generation now = Ok tt →
  jr_state r = JRunning ∧ jr_generation r = generation
  ∧ ∃ until, jr_lease_until r = Some until ∧ now < until.
Proof.
  unfold live. destruct (_ && _) eqn:E; [|done]. intros _. bools.
  destruct (jr_lease_until r) as [u|]; [|done]. bools. eauto.
Qed.

Lemma completes_final state :
  completes_to state = true → state ≠ JUncertain → finished state = true.
Proof. by destruct state. Qed.

(** The record of a completion: provenance set, then finished with what output
    is kept. *)
Definition attributed (origin : ResultOrigin) (receipt : option string)
    (diagnostic : option DiagnosticCode) (r : JobRecord) : JobRecord :=
  set_diagnostic diagnostic (set_receipt receipt (set_origin (Some origin) r)).

Lemma attributed_base origin receipt diagnostic out r :
  base_ok r → jr_purged r = false → jr_result_expired r = false →
  (jr_execution r = Model → out = None) →
  base_ok (set_output out (attributed origin receipt diagnostic r)).
Proof. intros [H1 H2 H3 H4 H5 H6] Hp He Hm. split; simpl; try done; congruence. Qed.

(** A finished record turned into a failure is still well-formed. *)
Lemma refused_record r0 r d :
  unfinished (jr_state r0) = true → job_le r0 r → record_ok r → finished (jr_state r) = true →
  job_le r0 (set_diagnostic d (set_state JFailed r)) ∧ record_ok (set_diagnostic d (set_state JFailed r)).
Proof.
  intros Hu [L1 L2 L3 L4 L5 L6 L7 L8 L9] [G1 G2 G3 G4 G5 G6 G7 G8 G9 [G10 G10'] G11] Hf.
  destruct (unfinished_states _ Hu) as [Hnf Hna]. split; split; simpl; try done; try congruence; auto.
  - split; [done|]. intros Hl. apply G2 in Hl. by rewrite Hl in Hf.
  - intros E. destruct (G8 E) as (?&?&?&?&?). by split_and!.
Qed.

Lemma complete_final_lawful db scope cf now state out r0 r db' resp :
  job_inv db → rows_get db (jr_id r0) = Some r0 → jid_scope (jr_id r0) = scope →
  unfinished (jr_state r0) = true → job_le r0 r → acked (jr_state r) = false →
  base_ok (set_output out r) → finished state = true →
  complete_final db cf now state out r = Ok (db', resp) → lawful scope db db'.
Proof.
  intros Hi Hg Hs Hu Hle Ha Hbase Hst. destruct (unfinished_states _ Hu) as [Hnf Hna].
  unfold complete_final.
  set (st := if jr_cancel_requested (set_output out r) then JCancelled else state).
  assert (finished st = true) as Hst' by (unfold st; by case_match).
  destruct (finish st now cf (set_output out r)) as [r1| |] eqn:Hf; rsimpl; [|done..].
  assert (job_le r0 (set_output out r)) as Hle'.
  { destruct Hle as [H1 H2 H3 H4 H5 H6 H7 H8 H9]. split; simpl; try done. congruence. }
  assert (job_le r0 r1) as Hle1 by (eapply finish_le; [exact Hf|done|done|done|congruence]).
  pose proof (finish_ok _ _ _ _ _ Hf Hbase Hst') as Hok1.
  assert (acked (jr_state r1) = false) as Ha1 by apply Hok1.
  destruct (match jr_output r1 with Some _ => _ | None => _ end) as [bytes| |]; rsimpl; [|done..].
  assert (Hb : ∀ b, job_le r0 (set_output_bytes b r1) ∧ record_ok (set_output_bytes b r1)).
  { intros b. split; [|by apply record_ok_bytes].
    destruct Hle1 as [H1 H2 H3 H4 H5 H6 H7 H8 H9]. split; simpl; try done. congruence. }
  destruct (undeliverable _ cf) as [[refused|]| |]; rsimpl; [| |done..].
  - set (r2 := set_output_bytes 0 (set_output None (set_output_bytes bytes r1))).
    assert (job_le r0 r2 ∧ record_ok r2) as [Hle2 Hok2].
    { destruct Hle1 as [H1 H2 H3 H4 H5 H6 H7 H8 H9]. split.
      - split; simpl; try done. congruence.
      - destruct Hok1 as [G1 G2 G3 G4 G5 G6 G7 G8 G9 G10 G11]. split; simpl; try done.
        + intros E. destruct (G6 E) as (?&?&?). by split_and!.
        + intros E. destruct (G8 E) as ((?&?&?)&?&?&?&?). by split_and!.
        + intros E. destruct (G9 E) as (?&?&?). by split_and!. }
    assert (finished (jr_state r2) = true) as Hfin.
    { destruct (finish_fields _ _ _ _ _ Hf) as (_ & Es & _). simpl. by rewrite Es. }
    set (r3 := if bool_decide (jr_state r2 = JCancelled) then r2
               else set_diagnostic (Some QueueFailure) (set_state JFailed r2)).
    assert (job_le r0 r3 ∧ record_ok r3) as [Hle3 Hok3].
    { unfold r3. case_bool_decide; [done|]. by apply refused_record. }
    destruct (save db r3) as [db1| |] eqn:Hsv; rsimpl; [|done..]. intros [= <- <-].
    by destruct (save_step db scope r0 r3 db1) as [? _].
  - destruct (Hb bytes) as [Hle2 Hok2].
    destruct (save db _) as [db1| |] eqn:Hsv; rsimpl; [|done..]. intros [= <- <-].
    by destruct (save_step db scope r0 _ db1 Hi Hg Hs Hna Hle2 (λ _, Hok2) Hsv) as [? _].
Qed.

(** A model's record out of its lease: uncertain, or waiting again. *)
Lemma idle_ok r st :
  record_ok r → unfinished (jr_state r) = true → jr_execution r = Model →
  unfinished st = true → st ≠ JRunning → (jr_purged r = true → st = JUncertain) →
  record_ok (set_lease_until None (set_state st r)).
Proof.
  intros [G1 G2 G3 G4 G5 G6 G7 G8 G9 [G10 G10'] G11] Hu Hm Hst Hnr Hp.
  destruct (unfinished_states _ Hst) as [Hnf Hna].
  split; simpl; try done; try congruence; auto; try (split; [done|by intros []]).
  intros E. destruct (G8 E) as (?&?&?&?&?). rewrite (Hp E). by split_and!.
Qed.

Lemma job_complete_lawful db scope cf now job generation state origin out receipt diagnostic db' resp :
  job_inv db →
  complete db cf scope now job generation state origin out receipt diagnostic = Ok (db', resp) →
  lawful scope db db'.
Proof.
  intros Hi. unfold complete. destruct (get db scope job) as [r| |] eqn:Hget; rsimpl; [|done..].
  apply get_ok in Hget as [Hg Hs]. pose proof (rows_get_id _ _ _ Hi Hg) as <-.
  destruct (match out with Some _ => _ | None => _ end); [done|].
  destruct (live r generation now) as [[]| |] eqn:Hl; rsimpl; [|done..].
  apply live_ok in Hl as (Hr & _ & _).
  assert (unfinished (jr_state r) = true) as Hu by (by rewrite Hr).
  destruct (unfinished_states _ Hu) as [Hnf Hna].
  destruct (rows_get_live db _ r Hi Hg Hna) as [_ Hok].
  destruct (origin_refused r state origin) eqn:Ho; [done|].
  destruct (content_refused r now state origin out receipt) eqn:Hc; [done|].
  fold (attributed origin receipt diagnostic r). set (r1 := attributed origin receipt diagnostic r).
  assert (job_le r r1) as Hle by (apply job_le_unfinished; simpl; done || (by rewrite Hr)).
  assert (record_ok r1) as Hok1 by (destruct Hok as [H1 H2 H3 H4 H5 H6 H7 H8 H9 H10 H11]; by split).
  assert (completes_to state = true) as Hct.
  { unfold content_refused in Hc. bools. done. }
  case_bool_decide as Hun.
  - set (r2 := set_lease_until None (set_state state r1)).
    assert (jr_execution r = Model) as Hm.
    { unfold origin_refused in Ho. bools. destruct (decide (jr_execution r = Model)); [done|].
      rewrite (bool_decide_true (state = JUncertain)), (bool_decide_false (jr_execution r = Model)) in * by done.
      done. }
    assert (job_le r r2) as Hle2 by (apply job_le_unfinished; simpl; done || (by rewrite ?Hun, ?Hr)).
    assert (record_ok r2) as Hok2.
    { subst state. by apply idle_ok. }
    set (r3 := if jr_purged r2 then delete_copies r2 else r2).
    assert (job_le r r3 ∧ record_ok r3) as [Hle3 Hok3].
    { unfold r3. case_match; [|done]. split; [apply delete_copies_le; [done|apply Hok2]|by apply delete_copies_ok]. }
    destruct (save db r3) as [db1| |] eqn:Hsv; rsimpl; [|done..]. intros [= <- <-].
    by destruct (save_step db scope r r3 db1) as [? _].
  - destruct (jr_purged r1) eqn:Hp.
    + destruct (finish JPurged now cf r1) as [r2| |] eqn:Hf; rsimpl; [|done..].
      pose proof (finish_ok _ _ _ _ _ Hf (record_ok_base _ Hok1) eq_refl) as Hok2.
      assert (job_le r r2) as Hle2 by (eapply finish_le; [exact Hf|done|done|apply Hok1|congruence]).
      destruct (save db (delete_copies r2)) as [db1| |] eqn:Hsv; rsimpl; [|done..]. intros [= <- <-].
      destruct (save_step db scope r (delete_copies r2) db1) as [? _]; try done.
      * apply delete_copies_le; [done|apply Hok2].
      * intros _. by apply delete_copies_ok.
    + apply (complete_final_lawful db scope cf now state out r r1); try done.
      * apply attributed_base; [by apply record_ok_base|done|by apply (ro_unfinished _ Hok)|].
        intros Hm. unfold origin_refused, content_refused in Ho, Hc. bools.
        destruct origin; [|by rewrite Hm in *].
        rewrite (bool_decide_true (OriginPaid = OriginPaid)) in * by done. simpl in *.
        by destruct out.
      * by apply completes_final.
Qed.

(** ** Resolution *)

(** A record that differs from the stored one only in what a resolution
    writes besides the state. *)
Definition same_job (r r' : JobRecord) : Prop :=
  job_le r r' ∧ base_ok r' ∧ acked (jr_state r') = false ∧ jr_execution r' = jr_execution r
  ∧ jr_purged r' = jr_purged r.

Lemma finish_same r0 st now cf r r' :
  unfinished (jr_state r0) = true → same_job r0 r → finished st = true →
  finish st now cf r = Ok r' → job_le r0 r' ∧ record_ok r'.
Proof.
  intros Hu (Hle & Hb & Ha & _) Hst Hf. destruct (unfinished_states _ Hu) as [Hnf _].
  split; [|by eapply finish_ok]. eapply finish_le; [exact Hf|done|done|done|congruence].
Qed.

Lemma resolved_finished r st : finished st = true → finished (resolved_state r st) = true.
Proof. unfold resolved_state. by repeat case_match. Qed.

Lemma maybe_charged_not_pending r : maybe_charged r = true → unfinished (jr_state r) = true.
Proof. unfold maybe_charged. intros [H1|H1]%orb_true_iff; bools; by rewrite H1. Qed.

Lemma resolve_record_ok cf now resolution r r' :
  unfinished (jr_state r) = true → record_ok r → jr_execution r = Model →
  resolve_record cf now resolution (set_origin (Some OriginPaid) r) = Ok r' →
  job_le r r' ∧ record_ok r'.
Proof.
  intros Hu Hok Hm. destruct (unfinished_states _ Hu) as [Hnf Hna].
  assert (Hsame : ∀ rc d u l,
    same_job r (set_lease_until l (set_recovery_until u (attributed OriginPaid rc d r)))).
  { intros rc d u l. destruct (record_ok_base _ Hok) as [B1 B2 B3 B4 B5 B6]. split_and!; try done.
    by apply job_le_unfinished. }
  assert (Hidle : ∀ rc d st, unfinished st = true → st ≠ JRunning → (jr_purged r = true → st = JUncertain) →
    job_le r (set_lease_until None (set_state st (attributed OriginPaid rc d r)))
    ∧ record_ok (set_lease_until None (set_state st (attributed OriginPaid rc d r)))).
  { intros rc d st Hst Hne Hp. destruct (unfinished_states _ Hst) as [_ Hsa].
    split; [by apply job_le_unfinished|].
    apply idle_ok; try done. by destruct Hok as [G1 G2 G3 G4 G5 G6 G7 G8 G9 G10 G11]. }
  unfold resolve_record. destruct resolution as [rc|rc|rc until|rc d]; cbv zeta.
  - destruct (negb _); [done|]. intros [= <-]. by apply (Hidle (Some rc) (Some SpendReconciliationRequired)).
  - destruct (negb _); [done|]. simpl jr_purged. simpl jr_cancel_requested. simpl jr_admission.
    simpl jr_generation. simpl jr_max_attempts.
    destruct (jr_purged r) eqn:Hp.
    { by apply (finish_same _ _ _ _ _ _ Hu (Hsame (Some rc) None (jr_recovery_until r) None)). }
    destruct (jr_cancel_requested r) eqn:Hc.
    { destruct (finish _ _ _ _) as [r1| |] eqn:Hf; rsimpl; [|done..]. intros [= <-].
      apply (finish_same _ _ _ _ _ _ Hu (Hsame (Some rc) None (jr_recovery_until r) None)) in Hf
        as [Hl1 Hok1]; [|done].
      split; [apply delete_copies_le; [done|apply Hok1]|by apply delete_copies_ok]. }
    destruct (_ <=? _).
    { by apply (finish_same _ _ _ _ _ _ Hu
        (Hsame (Some rc) (Some AttemptBudgetExhausted) (jr_recovery_until r) None)). }
    case_bool_decide; intros [= <-]; by apply (Hidle (Some rc) None).
  - destruct until as [t|].
    + destruct (millisecond_time t) as [ms| |]; rsimpl; [|done..]. simpl jr_recovery_until.
      apply (finish_same _ _ _ _ _ _ Hu (Hsame (Some rc) None
        (Some (match jr_recovery_until r with Some c => Z.min c ms | None => ms end)) (jr_lease_until r))).
      by apply resolved_finished.
    + rsimpl. apply (finish_same _ _ _ _ _ _ Hu
        (Hsame (Some rc) None (jr_recovery_until r) (jr_lease_until r))). by apply resolved_finished.
  - apply (finish_same _ _ _ _ _ _ Hu
      (Hsame (Some rc) (Some d) (jr_recovery_until r) (jr_lease_until r))). by apply resolved_finished.
Qed.

Lemma resolve_lawful db scope cf now job generation resolution db' resp :
  job_inv db → resolve db cf scope now job generation resolution = Ok (db', resp) →
  lawful scope db db'.
Proof.
  intros Hi. unfold resolve. destruct (get db scope job) as [r| |] eqn:Hget; rsimpl; [|done..].
  apply get_ok in Hget as [Hg Hs]. pose proof (rows_get_id _ _ _ Hi Hg) as <-.
  destruct (_ || _) eqn:Hc; [done|]. bools.
  destruct (unfinished_states (jr_state r)) as [_ Hna]; [done|].
  destruct (rows_get_live db _ r Hi Hg Hna) as [_ Hok].
  destruct (resolve_record _ _ _ _) as [r1| |] eqn:Hr; rsimpl; [|done..].
  apply resolve_record_ok in Hr as [Hle Hok1]; [|done..].
  destruct (save _ _) as [db1| |] eqn:Hsv; rsimpl; [|done..]. intros [= <- <-].
  eapply save_step; [..|exact Hsv]; try done.
  - case_match; [|done]. apply delete_copies_le; [done|apply Hok1].
  - intros _. case_match; [|done]. by apply delete_copies_ok.
Qed.

(** ** Confirmation *)

Lemma state_kinds s : unfinished s = false → acked s = false → finished s = true.
Proof. by destruct s. Qed.

Lemma ack_one_lawful db scope token d db' res :
  job_inv db → ack_one db scope token d = Ok (db', res) → lawful scope db db'.
Proof.
  intros Hi. unfold ack_one. destruct (get db scope _) as [r| |] eqn:Hget; rsimpl; [|done..].
  apply get_ok in Hget as [Hg Hs]. pose proof (rows_get_id _ _ _ Hi Hg) as Hid.
  destruct (unfinished (jr_state r)) eqn:Hu; [done|]. destruct (_ || _); [done|].
  destruct (acked (jr_state r)) eqn:Ha; [intros [= <- <-]; by apply lawful_refl|].
  destruct (save _ _) as [db1| |] eqn:Hsv; rsimpl; [|done..]. intros [= <- <-]. rewrite <-Hid in Hg, Hs.
  eapply save_step; [..|exact Hsv]; try done.
  - split; simpl; try done; try congruence; try lia; try (by destruct d).
    intros _ _. exists (jr_state r). split_and!; [done|by apply state_kinds|by left].
  - simpl. by destruct d.
Qed.

Lemma ack_all_lawful db scope acks db' res :
  job_inv db → ack_all db scope acks = Ok (db', res) → lawful scope db db'.
Proof.
  revert db res. induction acks as [|[token d] acks IH]; intros db res Hi; simpl.
  { intros [= <- <-]. by apply lawful_refl. }
  destruct (ack_one db scope token d) as [[db1 r]| |] eqn:E; rsimpl; [|done..].
  apply ack_one_lawful in E; [|done].
  destruct (ack_all db1 scope acks) as [[db2 rs]| |] eqn:E2; rsimpl; [|done..]. intros [= <- <-].
  eapply lawful_trans; [exact E|]. eapply IH; [apply E|exact E2].
Qed.

(** ** Cancellation and erasure *)

Lemma get_all_stored db scope ids l :
  job_inv db → get_all db scope ids = Ok l →
  (∀ r, r ∈ l → rows_get db (jr_id r) = Some r ∧ jid_scope (jr_id r) = scope) ∧ jr_id <$> l = ids.
Proof.
  intros Hi. revert l. induction ids as [|id ids IH]; intros l; simpl.
  { intros [= <-]. split; [|done]. intros r Hr. by apply not_elem_of_nil in Hr. }
  destruct (get db scope id) as [r| |] eqn:Hget; rsimpl; [|done..].
  apply get_ok in Hget as [Hg Hs]. pose proof (rows_get_id _ _ _ Hi Hg) as Hid.
  destruct (get_all db scope ids) as [rs| |]; rsimpl; [|done..]. intros [= <-].
  destruct (IH rs eq_refl) as [IH1 IH2]. split.
  - intros o [->|Ho]%elem_of_cons; [by rewrite Hid|by apply IH1].
  - csimpl. by rewrite Hid, IH2.
Qed.

Lemma unique_ids_nodup scope ids : NoDup (unique_ids scope ids).
Proof.
  unfold unique_ids. apply NoDup_fmap_2; [by intros ?? [= ->]|].
  rewrite merge_sort_Permutation. apply NoDup_elements.
Qed.

Lemma cancel_select_stored db cf scope now selector l :
  job_inv db → cancel_select db cf scope now selector = Ok l → stored db scope l.
Proof.
  intros Hi. destruct selector as [ids|group]; simpl.
  - destruct (_ <? _); [done|]. destruct (all_scoped _ _); rsimpl; [|done..]. intros Hl.
    destruct (get_all_stored _ _ _ _ Hi Hl) as [Hin Hids]. split; [|done].
    rewrite Hids. apply unique_ids_nodup.
  - intros Hl. by destruct (select_ok _ _ _ _ _ _ Hi Hl).
Qed.

Lemma cancelled_record_ok cf now r r' :
  record_ok r → unfinished (jr_state r) = true → cancelled_record cf now r = Ok r' →
  job_le r r' ∧ record_ok r' ∧ (finished (jr_state r') = true ∨ jr_cancel_requested r' = true).
Proof.
  intros Hok Hu. destruct (unfinished_states _ Hu) as [Hnf Hna].
  unfold cancelled_record. destruct (_ || _).
  - destruct (finish _ _ _ _) as [r1| |] eqn:Hf; rsimpl; [|done..]. intros [= <-].
    pose proof (finish_ok _ _ _ _ _ Hf (record_ok_base _ Hok) (stopped_finished r)) as Hok1.
    destruct (finish_fields _ _ _ _ _ Hf) as (_ & Hst & _). split_and!.
    + apply delete_copies_le; [|apply Hok1].
      eapply finish_le; [exact Hf|apply job_le_refl|apply stopped_finished|done|congruence].
    + by apply delete_copies_ok.
    + left. simpl. rewrite Hst. apply stopped_finished.
  - intros [= <-]. split_and!; [by apply job_le_unfinished| |by right].
    destruct Hok as [G1 G2 G3 G4 G5 G6 G7 G8 G9 G10 G11]. split; simpl; try done.
    intros E. destruct (G8 E) as (?&?&?&?&?). by split_and!.
Qed.

Lemma cancel_rows_lawful db cf scope now l db' n :
  job_inv db → stored db scope l → cancel_rows db cf now l = Ok (db', n) → lawful scope db db'.
Proof.
  revert db n. induction l as [|r l IH]; intros db n Hi Hst; simpl.
  { intros [= <- <-]. by apply lawful_refl. }
  apply stored_cons in Hst as (Hg & Hs & Hst & Hne).
  destruct (unfinished (jr_state r)) eqn:Hu; simpl; [|by apply IH].
  destruct (unfinished_states _ Hu) as [_ Hna].
  destruct (rows_get_live db _ r Hi Hg Hna) as [_ Hok].
  destruct (cancelled_record cf now r) as [r1| |] eqn:Hc; rsimpl; [|done..].
  apply cancelled_record_ok in Hc as (Hle & Hok1 & _); [|done..].
  destruct (save db r1) as [db1| |] eqn:Hsv; rsimpl; [|done..].
  destruct (save_step db scope r r1 db1 Hi Hg Hs Hna Hle (λ _, Hok1) Hsv) as [Hl Hf].
  destruct (cancel_rows db1 cf now l) as [[db2 m]| |] eqn:E; rsimpl; [|done..]. intros [= <- <-].
  eapply lawful_trans; [exact Hl|]. eapply IH; [apply Hl| |exact E]. by eapply frame_stored.
Qed.

Lemma purged_record_ok cf now r r' :
  record_ok r → purged_record cf now r = Ok r' →
  job_le r r' ∧ record_ok r' ∧ jr_purged r' = true.
Proof.
  intros Hok. pose proof (ro_live _ Hok) as [Hna _]. unfold purged_record. cbv zeta.
  set (r1 := delete_copies _).
  assert (acked (jr_state r1) = false) as Ha1 by done.
  assert (job_le r r1) as Hle.
  { split; simpl; try done; try congruence; try lia; auto. }
  assert (base_ok r1) as Hb.
  { destruct (record_ok_base _ Hok) as [B1 B2 B3 B4 B5 B6]. by split. }
  destruct (_ || _) eqn:Hc.
  - intros Hf. split_and!.
    + eapply finish_le; [exact Hf|done|done|done|by right].
    + by eapply finish_ok.
    + destruct (finish_fields _ _ _ _ _ Hf) as (_ & _ & -> & _). done.
  - intros [= <-]. split_and!; [done| |done]. bools.
    assert (jr_state r = JRunning ∨ jr_state r = JUncertain) as Hst.
    { rewrite Ha1 in *. simpl in *. destruct (jr_state r); auto; done. }
    destruct Hok as [G1 G2 G3 G4 G5 G6 G7 G8 G9 G10 G11]. split; simpl; try done.
    + intros Hu. destruct (G6 Hu) as (?&?&?). by split_and!.
    + intros _. split_and!; try done; destruct Hst as [-> | ->]; done.
Qed.

(** Rows an owner query selects are unconfirmed. *)
Lemma owner_selected db scope owner now limit l :
  job_inv db → select db scope (QOwner owner) now limit = Ok l →
  stored db scope l ∧ ∀ r, r ∈ l → jobs db !! jr_id r = Some (LiveRow r).
Proof.
  intros Hi Hl. destruct (select_ok _ _ _ _ _ _ Hi Hl) as (Hst & Hq & _). split; [done|].
  intros r Hr. destruct Hst as [_ Hst]. destruct (Hst r Hr) as [Hg Hs]. specialize (Hq r Hr).
  simpl in Hq. bools. apply (iv_owners _ Hi) in Hq as (o & Ho & _).
  destruct (jr_id r) as [sc i]. simpl in Ho. unfold rows_get in Hg. rewrite Ho in Hg.
  simpl in Hg. injection Hg as ->. done.
Qed.

Lemma purge_rows_lawful db cf scope now l db' :
  job_inv db → stored db scope l → (∀ r, r ∈ l → acked (jr_state r) = false) →
  purge_rows db cf now l = Ok db' → lawful scope db db'.
Proof.
  revert db. induction l as [|r l IH]; intros db Hi Hst Hlive; simpl.
  { intros [= <-]. by apply lawful_refl. }
  apply stored_cons in Hst as (Hg & Hs & Hst & Hne).
  assert (acked (jr_state r) = false) as Hna by (apply Hlive; left).
  destruct (rows_get_live db _ r Hi Hg Hna) as [_ Hok].
  destruct (purged_record cf now r) as [r1| |] eqn:Hc; rsimpl; [|done..].
  apply purged_record_ok in Hc as (Hle & Hok1 & _); [|done..].
  destruct (save db r1) as [db1| |] eqn:Hsv; rsimpl; [|done..]. intros E.
  destruct (save_step db scope r r1 db1 Hi Hg Hs Hna Hle (λ _, Hok1) Hsv) as [Hl Hf].
  eapply lawful_trans; [exact Hl|]. eapply IH; [apply Hl| | |exact E].
  - by eapply frame_stored.
  - intros o Ho. apply Hlive. by right.
Qed.

End Lawful.
