(* ===== verification/JobRequests.v ===== *)
(** Deliveries and maintenance are lawful, and with them every request:
    [apply_request_lawful] and [jobs_in_transaction_lawful]. *)

From Stdlib Require Import ZArith Lia.
From stdpp Require Import base gmap strings list fin_maps sorting.
From S2P Require Import Prelude Core JobTypes JobStore JobInv JobProofs JobLawful.

#[local] Open Scope Z_scope.

Section Requests.
Context `{!Chrono} `{!JobCodec}.
Variable recovery_len : string → Z.
Implicit Types (db : JobDb) (scope : JobScope).

(** ** Deliveries *)

(** A stored job that is finished and not confirmed. *)
Definition final_row (db : JobDb) (scope : JobScope) (id : JobId) (o : JobRecord) : Prop :=
  jobs db !! id = Some (LiveRow o) ∧ finished (jr_state o) = true ∧ jid_scope id = scope.

Lemma final_row_frame db db' scope id id' o :
  frame id db db' → id' ≠ id → final_row db scope id' o → final_row db' scope id' o.
Proof. intros Hf Hne (Hr & Hfin & Hs). split_and!; try done. by rewrite Hf. Qed.

(** An update of a finished row that keeps its identity and state. *)
Lemma update_final_lawful db scope id f o :
  job_inv db → final_row db scope id o → job_le o (f o) → record_ok (f o) →
  jr_owners (f o) = jr_owners o → jr_state (f o) = jr_state o →
  lawful scope db (update_live id f db) ∧ frame id db (update_live id f db)
  ∧ final_row (update_live id f db) scope id (f o).
Proof.
  intros Hi (Hr & Hfin & Hs) Hle Hok Ho Hst.
  destruct (update_live_lawful db scope id f) as [Hl Hf]; [done|done| |].
  { intros r Hr'. rewrite Hr in Hr'. by injection Hr' as <-. }
  split_and!; [done|done|]. split_and!; [|by rewrite Hst|done].
  simpl. by rewrite lookup_alter_eq, Hr.
Qed.

Definition expired_record (r : JobRecord) : JobRecord := delete_copies (set_result_expired true r).

Lemma expired_record_ok r :
  record_ok r → finished (jr_state r) = true → job_le r (expired_record r) ∧ record_ok (expired_record r).
Proof.
  intros Hok Hf. destruct (finished_not_acked _ Hf) as [Ha Hu]. split.
  - split; simpl; try done; try congruence; try lia; auto.
  - destruct Hok as [G1 G2 G3 G4 G5 G6 G7 G8 G9 G10 G11]. split; simpl; try done; try congruence.
    intros E. destruct (G8 E) as (?&?&?&?&?). by split_and!.
Qed.

Lemma expire_lawful db scope id o :
  job_inv db → final_row db scope id o →
  lawful scope db (expire db id) ∧ frame id db (expire db id)
  ∧ final_row (expire db id) scope id (expired_record o).
Proof.
  intros Hi Hr. destruct Hr as (Hr & Hf & Hs). destruct (iv_live _ Hi _ _ Hr) as [_ Hok].
  destruct (expired_record_ok o Hok Hf). by apply update_final_lawful.
Qed.

Lemma as_i64_ok n m : as_i64 n = Ok m → m = n.
Proof. unfold as_i64, i64_try_from. case_match; simpl; congruence. Qed.

Lemma delivered_lawful db scope id o g until :
  job_inv db → final_row db scope id o → jr_delivery_generation o ≤ g →
  let f row := set_delivery_until until (set_delivery_generation g row) in
  lawful scope db (update_live id f db) ∧ frame id db (update_live id f db)
  ∧ final_row (update_live id f db) scope id (f o).
Proof.
  intros Hi Hr Hg f. destruct Hr as (Hr & Hf & Hs). destruct (iv_live _ Hi _ _ Hr) as [_ Hok].
  destruct (finished_not_acked _ Hf) as [Ha Hu]. apply update_final_lawful; try done.
  - split; simpl; try done; try congruence; try lia; auto.
  - pose proof (ro_delivery _ Hok).
    destruct Hok as [G1 G2 G3 G4 G5 G6 G7 G8 G9 G10 G11]. split; simpl; try done. lia.
Qed.

Lemma deliver_lawful db scope r expired o db' :
  job_inv db → final_row db scope (jr_id r) o →
  jr_delivery_generation r = jr_delivery_generation o + 1 →
  deliver db r expired = Ok db' →
  lawful scope db db' ∧ frame (jr_id r) db db'
  ∧ ∃ o', final_row db' scope (jr_id r) o' ∧ jr_delivery_generation o' = jr_delivery_generation r.
Proof.
  intros Hi Hr Hg. unfold deliver. destruct (as_i64 _) as [g| |] eqn:Eg; rsimpl; [|done..].
  apply as_i64_ok in Eg as ->. intros [= <-]. destruct expired.
  - destruct (expire_lawful db scope (jr_id r) o Hi Hr) as (Hl & Hf & Hr1).
    destruct (delivered_lawful (expire db (jr_id r)) scope (jr_id r) (expired_record o)
      (jr_delivery_generation r) (jr_delivery_until r)) as (Hl2 & Hf2 & Hr2);
      [apply Hl|done|simpl; lia|].
    split_and!; [by eapply lawful_trans| |by eexists].
    intros id Hne. by rewrite Hf2, Hf.
  - destruct (delivered_lawful db scope (jr_id r) o (jr_delivery_generation r) (jr_delivery_until r))
      as (Hl2 & Hf2 & Hr2); [done|done|lia|]. split_and!; [done|done|by eexists].
Qed.

(** What the first loop of [Completions] prepares for one candidate. *)
Definition prepared (db : JobDb) (scope : JobScope) (p : JobRecord * Delivery * bool) : Prop :=
  let '(r, d, _) := p in
  tk_job (dl_token d) = jr_id r ∧ tk_generation (dl_token d) = jr_delivery_generation r
  ∧ dl_completion d = r
  ∧ ∃ o, final_row db scope (jr_id r) o ∧ jr_delivery_generation r = jr_delivery_generation o + 1.

Definition prepared_id (p : JobRecord * Delivery * bool) : JobId := jr_id p.1.1.

Lemma prepare_delivery_ok db scope cf now info o p :
  job_inv db → final_row db scope (ji_id info) o → prepare_delivery db cf now info = Ok p →
  prepared db scope p ∧ prepared_id p = ji_id info.
Proof.
  intros Hi Hr. pose proof Hr as (Ho & _). destruct (iv_live _ Hi _ _ Ho) as [Hid _].
  unfold prepare_delivery, metadata, rows_get. rewrite Ho. rsimpl. simpl fmap. rsimpl.
  set (r := if at_most _ now then _ else _).
  assert (jr_id r = ji_id info ∧ jr_delivery_generation r = jr_delivery_generation o) as [Hrid Hrg].
  { unfold r. by case_match. }
  destruct (checked_add _ _ _) as [g|] eqn:Eg; rsimpl; [|done]. apply checked_add_some in Eg as [-> _].
  destruct (deadline _ _) as [u| |]; rsimpl; [|done..]. intros [= <-].
  unfold prepared, prepared_id. simpl. rewrite Hrid. split_and!; try done. exists o. by rewrite Hrg.
Qed.

Lemma admit_deliveries_ok db scope cf now used max_bytes comma l adm :
  job_inv db → (∀ i, i ∈ l → ∃ o, final_row db scope (ji_id i) o) →
  admit_deliveries db cf now used max_bytes comma l = Ok adm →
  (∀ p, p ∈ adm → prepared db scope p) ∧ prepared_id <$> adm `prefix_of` (ji_id <$> l).
Proof.
  intros Hi. revert used comma adm. induction l as [|i l IH]; intros used comma adm Hin; simpl.
  { intros [= <-]. split; [|done]. intros p Hp. by apply not_elem_of_nil in Hp. }
  destruct (prepare_delivery db cf now i) as [[[r d] h]| |] eqn:Hp; rsimpl; [|done..].
  destruct (Hin i ltac:(left)) as [o Ho].
  destruct (prepare_delivery_ok db scope cf now i o _ Hi Ho Hp) as [Hprep Hid].
  destruct (delivery_bytes _ _) as [size| |]; rsimpl; [|done..].
  destruct (admit_page_bytes _ _ _ _ _) as [[req|]| |]; rsimpl; [| |done..].
  - destruct (admit_deliveries db cf now req max_bytes true l) as [rest| |] eqn:E; rsimpl; [|done..].
    intros [= <-]. destruct (IH req true rest) as [IH1 IH2]; [|done|].
    { intros j Hj. apply Hin. by right. }
    split; [intros p [->|Hp']%elem_of_cons; auto|].
    csimpl. rewrite Hid. by apply prefix_cons.
  - intros [= <-]. split; [|apply prefix_nil]. intros p Hp'. by apply not_elem_of_nil in Hp'.
Qed.

Lemma send_deliveries_lawful db scope adm db' ds :
  job_inv db → (∀ p, p ∈ adm → prepared db scope p) → NoDup (prepared_id <$> adm) →
  send_deliveries db adm = Ok (db', ds) → lawful scope db db'.
Proof.
  revert db ds. induction adm as [|[[r d] h] adm IH]; intros db ds Hi Hp Hnd; simpl.
  { intros [= <- <-]. by apply lawful_refl. }
  destruct (if h then _ else _) as [d'| |]; rsimpl; [|done..].
  destruct (deliver db r (jr_result_expired r)) as [db1| |] eqn:Hd; rsimpl; [|done..].
  destruct (Hp (r, d, h) ltac:(left)) as (_ & _ & _ & o & Ho & Hg).
  destruct (deliver_lawful db scope r _ o db1 Hi Ho Hg Hd) as (Hl & Hf & _).
  destruct (send_deliveries db1 adm) as [[db2 ds2]| |] eqn:E; rsimpl; [|done..]. intros [= <- <-].
  csimpl in Hnd. apply NoDup_cons in Hnd as [Hn Hnd].
  eapply lawful_trans; [exact Hl|]. eapply IH; [apply Hl| |done|exact E].
  intros [[r1 d1] h1] Hin. destruct (Hp (r1, d1, h1) ltac:(by right)) as (E1 & E2 & E3 & o1 & Ho1 & Hg1).
  split_and!; try done. exists o1. split; [|done]. eapply final_row_frame; [exact Hf| |done].
  intros Heq. apply Hn. apply list_elem_of_fmap. exists (r1, d1, h1). split; [|done].
  unfold prepared_id. simpl. congruence.
Qed.

(** Rows selected by a query that only accepts finished states. *)
Lemma inspect_final db scope q now limit l :
  job_inv db → (∀ r, query_filter db q now r = true → finished (jr_state r) = true) →
  inspect db scope q now limit = Ok l →
  NoDup (ji_id <$> l) ∧ (∀ i, i ∈ l → ∃ o, final_row db scope (ji_id i) o ∧ i = info_of o
     ∧ query_filter db q now o = true)
  ∧ Z.of_nat (length l) ≤ Z.max 0 limit.
Proof.
  intros Hi Hq. unfold inspect. destruct (select db scope q now limit) as [rs| |] eqn:E; rsimpl; [|done..].
  intros [= <-]. destruct (select_ok _ _ _ _ _ _ Hi E) as ([Hnd Hst] & Hf & Hlen).
  split_and!.
  - rewrite <-list_fmap_compose. exact Hnd.
  - intros i (r & -> & Hr)%list_elem_of_fmap. exists r. destruct (Hst r Hr) as [Hg Hs].
    destruct (finished_not_acked (jr_state r)) as [Ha _]; [by apply Hq, Hf|].
    destruct (rows_get_live db _ r Hi Hg Ha) as [Hrow _].
    split; [|by auto]. split_and!; [done|by apply Hq, Hf|done].
  - by rewrite length_fmap.
Qed.

Lemma final_query db now r : query_filter db QFinal now r = true → finished (jr_state r) = true.
Proof. simpl. intros. by bools. Qed.

Lemma expired_query db now r : query_filter db QExpired now r = true → finished (jr_state r) = true.
Proof. simpl. intros. by bools. Qed.

Lemma completions_lawful db cf scope now limit max_bytes db' resp :
  job_inv db → completions db cf scope now limit max_bytes = Ok (db', resp) → lawful scope db db'.
Proof.
  intros Hi. unfold completions. destruct (page cf limit); rsimpl; [|done..].
  destruct (negb _); [done|]. destruct (inspect _ _ _ _ _) as [l| |] eqn:El; rsimpl; [|done..].
  destruct (inspect_final _ _ _ _ _ _ Hi (final_query db now) El) as (Hnd & Hin & _).
  destruct (admit_deliveries _ _ _ _ _ _ _) as [adm| |] eqn:Ea; rsimpl; [|done..].
  destruct (admit_deliveries_ok db scope cf now 2 max_bytes false l adm Hi) as [Hp Hpre]; [|done|].
  { intros i Hil. destruct (Hin i Hil) as (o & Ho & _). eauto. }
  destruct (send_deliveries db adm) as [[db1 ds]| |] eqn:Es; rsimpl; [|done..]. intros [= <- <-].
  eapply send_deliveries_lawful; [done..| |exact Es].
  destruct Hpre as [k Hk]. rewrite Hk in Hnd. by apply NoDup_app in Hnd as [? _].
Qed.

(** ** Maintenance *)

Lemma maintain_rows_lawful db cf scope count bytes l db' n :
  job_inv db → NoDup (ji_id <$> l) → (∀ i, i ∈ l → ∃ o, final_row db scope (ji_id i) o) →
  maintain_rows recovery_len db cf count bytes l = Ok (db', n) → lawful scope db db'.
Proof.
  revert db count bytes. induction l as [|i l IH]; intros db count bytes Hi Hnd Hin; simpl.
  { intros [= <- <-]. by apply lawful_refl. }
  destruct (recovery_bytes _ _ _); rsimpl; [|done..]. destruct (usize_add _ _ _) as [req| |]; rsimpl; [|done..].
  destruct (_ && _); [intros [= <- <-]; by apply lawful_refl|].
  destruct (Hin i ltac:(left)) as [o Ho].
  destruct (expire_lawful db scope (ji_id i) o Hi Ho) as (Hl & Hf & _).
  destruct (_ <=? _); [by intros [= <- <-]|]. intros E.
  csimpl in Hnd. apply NoDup_cons in Hnd as [Hn Hnd].
  eapply lawful_trans; [exact Hl|]. eapply IH; [apply Hl|done| |exact E].
  intros j Hj. destruct (Hin j ltac:(by right)) as [oj Hoj]. exists oj.
  eapply final_row_frame; [exact Hf| |done]. intros Heq. apply Hn. rewrite <-Heq.
  by apply list_elem_of_fmap_2.
Qed.

Lemma maintain_lawful db cf scope now db' resp :
  job_inv db → maintain recovery_len db cf scope now = Ok (db', resp) → lawful scope db db'.
Proof.
  intros Hi. unfold maintain. destruct (inspect _ _ _ _ _) as [l| |] eqn:El; rsimpl; [|done..].
  destruct (inspect_final _ _ _ _ _ _ Hi (expired_query db now) El) as (Hnd & Hin & _).
  destruct (maintain_rows _ _ _ _ _ _) as [[db1 n]| |] eqn:E; rsimpl; [|done..]. intros [= <- <-].
  eapply maintain_rows_lawful; [done|done| |exact E].
  intros i Hil. destruct (Hin i Hil) as (o & Ho & _). eauto.
Qed.

(** ** Admission, claims, heartbeats *)

Lemma waiting_ok r st a :
  record_ok r → jr_state r = JPending ∨ jr_state r = JAwaitingAdmission → jr_execution r = Model →
  st = JPending ∨ st = JAwaitingAdmission →
  job_le r (set_state st (set_admission a r)) ∧ record_ok (set_state st (set_admission a r)).
Proof.
  intros Hok Hr Hm Hst.
  assert (unfinished (jr_state r) = true ∧ jr_state r ≠ JRunning) as [Hu Hnr].
  { by destruct Hr as [-> | ->]. }
  assert (unfinished st = true ∧ st ≠ JRunning) as [Hus Hns] by (by destruct Hst as [-> | ->]).
  destruct (unfinished_states _ Hus) as [Hsf Hsa]. split; [by apply job_le_unfinished|].
  destruct Hok as [G1 G2 G3 G4 G5 G6 G7 G8 G9 [G10 G10'] G11]. destruct (G6 Hu) as (E1 & E2 & E3).
  split; simpl; try done; try congruence; tauto.
Qed.

Lemma await_lawful db scope r db' :
  job_inv db → rows_get db (jr_id r) = Some r → jid_scope (jr_id r) = scope →
  jr_state r = JPending ∨ jr_state r = JAwaitingAdmission → jr_execution r = Model →
  ∀ st a, st = JPending ∨ st = JAwaitingAdmission →
  save db (set_state st (set_admission a r)) = Ok db' → lawful scope db db'.
Proof.
  intros Hi Hg Hs Hr Hm st a Hst Hsv.
  assert (acked (jr_state r) = false) as Ha by (by destruct Hr as [-> | ->]).
  destruct (rows_get_live db _ r Hi Hg Ha) as [_ Hok].
  destruct (waiting_ok r st a Hok Hr Hm Hst) as [Hle Hok'].
  by destruct (save_step db scope r _ db' Hi Hg Hs Ha Hle (λ _, Hok') Hsv).
Qed.

Lemma refuse_lawful db scope cf now d r r1 db' :
  job_inv db → rows_get db (jr_id r) = Some r → jid_scope (jr_id r) = scope →
  jr_state r = JPending → finish JRefused now cf (set_diagnostic d r) = Ok r1 →
  save db r1 = Ok db' → lawful scope db db'.
Proof.
  intros Hi Hg Hs Hr Hf Hsv. assert (acked (jr_state r) = false) as Ha by (by rewrite Hr).
  destruct (rows_get_live db _ r Hi Hg Ha) as [_ Hok].
  assert (unfinished (jr_state r) = true) as Hu by (by rewrite Hr).
  destruct (finish_same r JRefused now cf (set_diagnostic d r) r1) as [Hle Hok1]; try done.
  { destruct (record_ok_base _ Hok) as [B1 B2 B3 B4 B5 B6]. split_and!; try done.
    by apply job_le_unfinished. }
  by destruct (save_step db scope r r1 db' Hi Hg Hs Ha Hle (λ _, Hok1) Hsv).
Qed.

Lemma paid_receipt_lawful db scope r b receipt db' :
  job_inv db → rows_get db (jr_id r) = Some (set_output_bytes b r) → jid_scope (jr_id r) = scope →
  jr_state r = JRunning → record_ok r →
  save db (set_origin (Some OriginPaid) (set_receipt receipt r)) = Ok db' → lawful scope db db'.
Proof.
  intros Hi Hg Hs Hr Hok Hsv.
  eapply (save_step db scope (set_output_bytes b r)); [..|exact Hsv]; try done; simpl.
  - by rewrite Hr.
  - apply job_le_unfinished; simpl; done || by rewrite Hr.
  - intros _. by destruct Hok as [G1 G2 G3 G4 G5 G6 G7 G8 G9 G10 G11].
Qed.

Lemma job_heartbeat_lawful db scope job until r :
  job_inv db → jid_scope job = scope → rows_get db job = Some r → jr_state r = JRunning →
  lawful scope db (update_live job (set_lease_until (Some until)) db).
Proof.
  intros Hi Hs Hg Hr. apply update_live_lawful; [done|done|]. intros o Ho.
  unfold rows_get in Hg. rewrite Ho in Hg. injection Hg as ->.
  destruct (iv_live _ Hi _ _ Ho) as [_ Hok]. split_and!; [| |done].
  - apply job_le_unfinished; simpl; done || by rewrite Hr.
  - destruct Hok as [G1 G2 G3 G4 G5 G6 G7 G8 G9 G10 G11]. by split.
Qed.

(** ** Every request *)

(** New ids are unused, and attempt limits fit their type. *)
Definition request_env (db : JobDb) (scope : JobScope) (uuids : nat → string) (request : JobRequest) :
    Prop :=
  match request with
  | Enqueue specs => enqueue_env db scope uuids 0 specs
  | _ => True
  end.

(** Requests that only read. *)
Ltac reads Hi := walk; intros [= <- <-]; exact (lawful_refl _ _ Hi).

Lemma admission_lawful db scope cf now uuids request db' resp :
  job_inv db → (∃ job, request = AwaitAdmission job) ∨ (∃ job a, request = Admit job a)
               ∨ (∃ job d, request = RefusePending job d) →
  apply_request recovery_len db cf scope now uuids request = Ok (db', resp) → lawful scope db db'.
Proof.
  intros Hi Hreq.
  assert (Hget : ∀ id r, get db scope id = Ok r →
    rows_get db (jr_id r) = Some r ∧ jid_scope (jr_id r) = scope).
  { intros id r [Hg Hs]%get_ok. by rewrite (rows_get_id _ _ _ Hi Hg). }
  destruct Hreq as [[job ->]|[(job & a & ->)|(job & d & ->)]]; handler; walk; bools;
    destruct (Hget _ _ E) as [Hg Hs].
  - intros [= <- <-]. eapply (await_lawful db scope a); try done; [by left|by right|].
    instantiate (1 := jr_admission a). by destruct a.
  - destruct (bool_decide (jr_admission _ = _)); [intros [= <- <-]; by apply lawful_refl|]. walk. intros [= <- <-].
    eapply (await_lawful db scope a0); [done..| |done|by left|eassumption].
    apply orb_true_iff in H1 as [?|?]; bools; auto.
  - destruct (bool_decide (jr_state _ = _)) eqn:?; [|intros [= <- <-]; by apply lawful_refl]. bools.
    walk. intros [= <- <-].
    by eapply refuse_lawful.
Qed.

Lemma claims_lawful db scope cf now uuids request db' resp :
  job_inv db → (∃ kinds n, request = Claim kinds n) ∨ (∃ job, request = ClaimJob job)
               ∨ (∃ job rc, request = ClaimPaid job rc) →
  apply_request recovery_len db cf scope now uuids request = Ok (db', resp) → lawful scope db db'.
Proof.
  intros Hi Hreq.
  assert (Hget : ∀ id r, get db scope id = Ok r →
    rows_get db (jr_id r) = Some r ∧ jid_scope (jr_id r) = scope).
  { intros id r [Hg Hs]%get_ok. by rewrite (rows_get_id _ _ _ Hi Hg). }
  destruct Hreq as [(kinds & n & ->)|[(job & ->)|(job & rc & ->)]]; handler; walk.
  - destruct (n =? 0); [reads Hi|]. walk. intros [= <- <-].
    destruct (select_ok _ _ _ _ _ _ Hi E0) as (Hst & _). by eapply claim_first_lawful.
  - destruct (Hget _ _ E) as [Hg Hs]. intros [= <- <-]. by eapply claim_job_lawful.
  - destruct (Hget _ _ E) as [Hg Hs].
    destruct (claim_job_lawful _ _ _ _ _ _ _ Hi Hg Hs E1) as (Hl & _ & Hc).
    destruct o as [r1|]; [|by intros [= <- <-]]. walk. intros [= <- <-].
    destruct (Hc r1 eq_refl) as (Hid & Hr & _ & _ & _ & _ & _ & _ & Hok & b & Hb).
    eapply lawful_trans; [exact Hl|]. rewrite <-Hid in Hb, Hs.
    by eapply (paid_receipt_lawful _ scope r1 b (Some rc)); [apply Hl|..].
Qed.

Lemma apply_request_lawful db cf scope now uuids request db' resp :
  job_inv db → request_env db scope uuids request →
  apply_request recovery_len db cf scope now uuids request = Ok (db', resp) → lawful scope db db'.
Proof.
  intros Hi Henv. destruct request.
  all: try (apply admission_lawful; [done|by eauto 6]).
  all: try (apply claims_lawful; [done|by eauto 6]).
  all: handler.
  all: try (reads Hi).
  - walk. intros [= <- <-]. by eapply enqueue_specs_lawful.
  - walk. intros [= <- <-]. unfold scoped in E. case_bool_decide; [|done].
    unfold metadata in E0. apply ok_or_ok in E0.
    destruct (rows_get db job) as [o|] eqn:Hg; [|done]. injection E0 as <-.
    destruct a1. apply live_ok in E1 as (Hr & _). by eapply job_heartbeat_lawful.
  - by apply job_complete_lawful.
  - by apply resolve_lawful.
  - by apply completions_lawful.
  - unfold ack. walk. intros [= <- <-]. by eapply ack_all_lawful.
  - walk. intros [= <- <-]. eapply cancel_rows_lawful; [done| |done]. by eapply cancel_select_stored.
  - unfold purge_owner. walk. intros [= <- <-].
    destruct (owner_selected _ _ _ _ _ _ Hi E) as [Hst Hlive].
    eapply purge_rows_lawful; [done..| |done]. intros r Hr.
    destruct (iv_live _ Hi _ _ (Hlive r Hr)) as [_ Hok]. apply Hok.
  - by apply maintain_lawful.
Qed.

End Requests.
