(* ===== verification/JobHistory.v ===== *)
(** Sequences of calls to the job store, and what single requests do to the
    rows they select: the lemmas behind the theorems of [JobTheorems]. *)

From Stdlib Require Import ZArith Lia.
From stdpp Require Import base gmap strings list fin_maps sorting.
From S2P Require Import Prelude Core JobTypes JobStore JobInv JobProofs JobLawful JobRequests.

#[local] Open Scope Z_scope.

(** One call: who asks, under which configuration, at what clock reading, with
    which ids for new jobs. *)
Record JobCall : Type := mkJobCall {
  jc_config : JobConfig;
  jc_scope : JobScope;
  jc_clock : RawTime;
  jc_uuids : nat → string;
  jc_request : JobRequest;
}.

(** What later requests leave of a table. *)
Definition later (db db' : JobDb) : Prop :=
  job_inv db' ∧ ∀ id, job_evolves (rows_get db id) (rows_get db' id).

Lemma later_trans db1 db2 db3 : later db1 db2 → later db2 db3 → later db1 db3.
Proof.
  intros [_ E1] [Hi E2]. split; [done|]. intros id. by eapply job_evolves_trans.
Qed.

Lemma lawful_later scope db db' : lawful scope db db' → later db db'.
Proof. by intros [Hi E _]. Qed.

Lemma later_row db db' id r :
  later db db' → rows_get db id = Some r → ∃ r', rows_get db' id = Some r' ∧ job_le r r'.
Proof.
  intros [_ E] Hg. specialize (E id). rewrite Hg in E. inversion E as [| |? r' Hle]; subst. eauto.
Qed.

(** A confirmed row never changes. *)
Lemma later_acked db db' id r :
  later db db' → rows_get db id = Some r → acked (jr_state r) = true → rows_get db' id = Some r.
Proof.
  intros Hl Hg Ha. destruct (later_row _ _ _ _ Hl Hg) as (r' & Hg' & Hle).
  by rewrite (jl_acked _ _ Hle Ha) in Hg'.
Qed.

Lemma initialize_inv : job_inv initialize.
Proof.
  split; simpl; try (intros *; by rewrite lookup_empty).
  intros scope owner id. split; [by intros ?%elem_of_empty|].
  intros (r & Hr & _). by rewrite lookup_empty in Hr.
Qed.

Section History.
Context `{!Chrono} `{!JobCodec}.
Variable recovery_len : string → Z.
Implicit Types (db : JobDb) (scope : JobScope).

Definition call_step (db : JobDb) (c : JobCall) : JobDb * result JobError JobResponse :=
  jobs_in_transaction recovery_len db (jc_config c) (jc_scope c) (jc_clock c) (jc_uuids c)
    (jc_request c).

(** The tables after a sequence of calls. *)
Fixpoint run_jobs (db : JobDb) (calls : list JobCall) : JobDb :=
  match calls with
  | [] => db
  | c :: calls => run_jobs (call_step db c).1 calls
  end.

(** Each call's new ids are unused when it is made. *)
Fixpoint calls_env (db : JobDb) (calls : list JobCall) : Prop :=
  match calls with
  | [] => True
  | c :: calls =>
      request_env db (jc_scope c) (jc_uuids c) (jc_request c) ∧ calls_env (call_step db c).1 calls
  end.

Lemma call_step_lawful db c :
  job_inv db → request_env db (jc_scope c) (jc_uuids c) (jc_request c) →
  lawful (jc_scope c) db (call_step db c).1.
Proof.
  intros Hi Henv. unfold call_step, jobs_in_transaction.
  destruct (apply_job_request _ _ _ _ _ _ _) as [[db1 resp]| |] eqn:E; simpl; [|by apply lawful_refl..].
  revert E. unfold apply_job_request.
  destruct (millisecond_time _) as [now| |]; rsimpl; [|done..]. destruct (config_refused _ _); [done|].
  destruct (deadline _ (cf_claim_lease_seconds _)); rsimpl; [|done..].
  destruct (deadline _ (cf_delivery_lease_seconds _)); rsimpl; [|done..].
  destruct (deadline _ (cf_retention_seconds _)); rsimpl; [|done..].
  by apply apply_request_lawful.
Qed.

Lemma run_jobs_later db calls : job_inv db → calls_env db calls → later db (run_jobs db calls).
Proof.
  revert db. induction calls as [|c calls IH]; intros db Hi; simpl.
  { intros _. split; [done|]. intros id. apply job_evolves_refl. }
  intros [Henv Hrest]. pose proof (call_step_lawful db c Hi Henv) as Hl.
  eapply later_trans; [by eapply lawful_later|]. apply IH; [apply Hl|done].
Qed.

Lemma run_jobs_scope db calls scope :
  job_inv db → calls_env db calls → Forall (λ c, jc_scope c ≠ scope) calls →
  ∀ id, jid_scope id = scope → jobs (run_jobs db calls) !! id = jobs db !! id.
Proof.
  revert db. induction calls as [|c calls IH]; intros db Hi; simpl; [done|].
  intros [Henv Hrest] [Hc Hcs]%Forall_cons id Hs. pose proof (call_step_lawful db c Hi Henv) as Hl.
  rewrite IH; [|apply Hl|done..]. apply (lf_scope _ _ _ Hl). congruence.
Qed.

Lemma run_jobs_app db calls1 calls2 :
  run_jobs db (calls1 ++ calls2) = run_jobs (run_jobs db calls1) calls2.
Proof. revert db. induction calls1; intros db; simpl; auto. Qed.

Lemma calls_env_app db calls1 calls2 :
  calls_env db (calls1 ++ calls2) ↔ calls_env db calls1 ∧ calls_env (run_jobs db calls1) calls2.
Proof. revert db. induction calls1 as [|c calls1 IH]; intros db; simpl; [tauto|]. rewrite IH. tauto. Qed.

(** ** The claim fence *)

(** A generation the job has left behind never passes the fence again. *)
Lemma fence_left_behind db db' id r r' g now :
  later db db' → rows_get db id = Some r → g < jr_generation r → rows_get db' id = Some r' →
  live r' g now = Err EStaleClaim ∧ (unfinished (jr_state r') = false ∨ jr_generation r' ≠ g).
Proof.
  intros Hl Hg Hlt Hg'. destruct (later_row _ _ _ _ Hl Hg) as (r1 & Hg1 & Hle). simplify_eq.
  assert (acked (jr_state r') = true ∨ g < jr_generation r') as Hor.
  { destruct (acked (jr_state r')) eqn:Ha; [by left|right].
    pose proof (jl_fence _ _ Hle Ha). lia. }
  unfold live. destruct Hor as [Ha|Hgt].
  - split; [|left; by destruct (jr_state r')].
    rewrite (bool_decide_false (jr_state r' = JRunning)); [done|]. by destruct (jr_state r').
  - split; [|right; lia]. destruct (Z.eqb_spec (jr_generation r') g) as [Heq|_]; [lia|].
    by rewrite andb_false_r.
Qed.

(** ** Keys *)

Lemma by_key_row db scope id r :
  job_inv db → rows_get db id = Some r → jid_scope id = scope → by_key db scope (jr_key r) = Some r.
Proof.
  intros Hi Hg Hs. unfold by_key.
  assert (Hall : ∀ o, o ∈ select_where (λ o, bool_decide (jr_key o = jr_key r)) (scope_rows db scope) → o = r).
  { intros o [Ho Hk]%elem_of_select_where. bools.
    apply elem_of_scope_rows in Ho as (id' & Hg' & Hs').
    unfold rows_get in Hg, Hg'. destruct (jobs db !! id) as [row|] eqn:E; [|done].
    destruct (jobs db !! id') as [row'|] eqn:E'; [|done]. injection Hg as <-. injection Hg' as <-.
    assert (id' = id) as -> by (eapply (iv_keys _ Hi); [done|done|congruence..]). congruence. }
  assert (r ∈ select_where (λ o, bool_decide (jr_key o = jr_key r)) (scope_rows db scope)) as Hin.
  { apply elem_of_select_where. split; [apply elem_of_scope_rows; eauto|by apply bool_decide_eq_true]. }
  destruct (select_where _ _) as [|o l]; [by apply not_elem_of_nil in Hin|]. simpl.
  f_equal. apply Hall. left.
Qed.

Lemma by_key_none db scope id r key :
  by_key db scope key = None → rows_get db id = Some r → jid_scope id = scope → jr_key r ≠ key.
Proof.
  unfold by_key. intros Hn Hg Hs Hk. apply head_None in Hn.
  assert (r ∈ select_where (λ o, bool_decide (jr_key o = key)) (scope_rows db scope)) as Hin.
  { apply elem_of_select_where. split; [apply elem_of_scope_rows; eauto|by apply bool_decide_eq_true]. }
  rewrite Hn in Hin. by apply not_elem_of_nil in Hin.
Qed.

(** What a saved unconfirmed record reads back as. *)
Lemma save_reads db r db' :
  save db r = Ok db' → acked (jr_state r) = false →
  ∃ b, jobs db' !! jr_id r = Some (LiveRow (set_output_bytes b r)).
Proof.
  intros (_ & b & Hj & _)%save_inv Ha. exists b. rewrite Hj, lookup_insert_eq. unfold row_of. by rewrite Ha.
Qed.

(** The row of an inserted job. *)
Lemma enqueue_inserted db cf scope now uuid spec db' id :
  enqueue_spec db cf scope now uuid spec = Ok (db', EnqInserted id) →
  ∃ r, rows_get db' id = Some r ∧ jr_id r = id ∧ jid_scope id = scope
  ∧ jr_key r = js_key spec ∧ jr_digest r = sha256_hex (js_payload spec).
Proof.
  unfold enqueue_spec. walk. destruct (by_key _ _ _) as [row|].
  { walk. by destruct (acked _). }
  walk. intros [= <- <-]. apply insert_job_save in E1.
  destruct (save_reads _ _ _ E1 eq_refl) as [b Hb]. simpl jr_id in Hb. unfold rows_get. rewrite Hb. by eexists.
Qed.

(** ** Erasure *)

Lemma select_all db scope q now l :
  (∀ r, r ∈ scope_rows db scope → query_filter db q now r = true →
     unfinished (jr_state r) || finished (jr_state r) = true) →
  select db scope q now (live_count db scope) = Ok l →
  l ≡ₚ select_where (query_filter db q now) (scope_rows db scope).
Proof.
  intros Hq. unfold select, i64_try_from. case_match; [|done]. case_match; [|done].
  intros [= <-]. simplify_eq.
  set (all := merge_sort _ _).
  assert (all ≡ₚ select_where (query_filter db q now) (scope_rows db scope)) as Hall
    by apply merge_sort_Permutation.
  rewrite take_ge; [done|]. rewrite Hall. unfold live_count. rewrite Nat2Z.id.
  unfold select_where. clear -Hq. induction (scope_rows db scope) as [|r l IH]; [done|].
  assert (IH' := IH ltac:(intros o Ho; apply Hq; by right)). specialize (Hq r ltac:(left)).
  rewrite !filter_cons. repeat case_decide; simpl; try lia. by rewrite Hq in *.
Qed.

Lemma purge_rows_effect db cf scope now l db' :
  job_inv db → stored db scope l → (∀ r, r ∈ l → acked (jr_state r) = false) →
  purge_rows db cf now l = Ok db' →
  (∀ r, r ∈ l → ∃ r', jobs db' !! jr_id r = Some (LiveRow r') ∧ jr_purged r' = true)
  ∧ ∀ id, id ∉ jr_id <$> l → jobs db' !! id = jobs db !! id.
Proof.
  revert db. induction l as [|r l IH]; intros db Hi Hst Hlive; simpl.
  { intros [= <-]. split; [|done]. intros r Hr. by apply not_elem_of_nil in Hr. }
  apply stored_cons in Hst as (Hg & Hs & Hst & Hne).
  assert (acked (jr_state r) = false) as Hna by (apply Hlive; left).
  destruct (rows_get_live db _ r Hi Hg Hna) as [_ Hok].
  destruct (purged_record cf now r) as [r1| |] eqn:Hc; rsimpl; [|done..].
  apply purged_record_ok in Hc as (Hle & Hok1 & Hp); [|done..].
  destruct (save db r1) as [db1| |] eqn:Hsv; rsimpl; [|done..]. intros E.
  destruct (save_step db scope r r1 db1 Hi Hg Hs Hna Hle (λ _, Hok1) Hsv) as [Hl Hf].
  destruct (IH db1) as [IH1 IH2]; [apply Hl|by eapply frame_stored| |done|].
  { intros o Ho. apply Hlive. by right. }
  split.
  - intros o [->|Ho]%elem_of_cons; [|by apply IH1].
    rewrite IH2.
    + destruct (save_reads db r1 db1 Hsv) as [b Hb]; [apply Hok1|].
      rewrite <-(jl_id _ _ Hle). by eexists.
    + intros (o & Ho & Hin)%list_elem_of_fmap. by apply (Hne o).
  - intros id Hid. csimpl in Hid. apply not_elem_of_cons in Hid as [Hid1 Hid2]. by rewrite IH2, Hf.
Qed.

(** Every job of the owner is selected. *)
Lemma owner_rows_selected db scope owner now l id r :
  job_inv db → select db scope (QOwner owner) now (live_count db scope) = Ok l →
  jobs db !! mkJobId scope id = Some (LiveRow r) → owner ∈ jr_owners r → r ∈ l.
Proof.
  intros Hi Hsel Hr Ho. rewrite (select_all db scope (QOwner owner) now l); [| |done].
  - apply elem_of_select_where. destruct (iv_live _ Hi _ _ Hr) as [Hid _]. split.
    + apply elem_of_scope_rows. exists (mkJobId scope id). unfold rows_get. by rewrite Hr.
    + simpl. rewrite Hid. apply bool_decide_eq_true. simpl. apply (iv_owners _ Hi). eauto.
  - intros o Ho' Hq. simpl in Hq. bools. apply (iv_owners _ Hi) in Hq as (o1 & Ho1 & _).
    apply elem_of_scope_rows in Ho' as (ido & Hgo & _). rewrite <-(rows_get_id _ _ _ Hi Hgo) in Hgo.
    destruct (jr_id o) as [sc i]. simpl in Ho1. unfold rows_get in Hgo. rewrite Ho1 in Hgo.
    injection Hgo as ->. destruct (iv_live _ Hi _ _ Ho1) as [_ Hok].
    destruct (ro_live _ Hok) as [Hok1 _]. simpl in Hok1. by destruct (jr_state o).
Qed.

Lemma purge_owner_effect db cf scope now owner db' n :
  job_inv db → purge_owner db cf scope now owner = Ok (db', RespChanged n) →
  lawful scope db db' ∧ (∀ id, (scope, owner, id) ∉ job_owners db')
  ∧ ∀ id r, jobs db !! mkJobId scope id = Some (LiveRow r) → owner ∈ jr_owners r →
      ∃ r', jobs db' !! mkJobId scope id = Some (LiveRow r') ∧ jr_purged r' = true.
Proof.
  intros Hi. unfold purge_owner. walk. intros [= <- <-].
  destruct (owner_selected _ _ _ _ _ _ Hi E) as [Hst Hlive].
  assert (∀ r, r ∈ a → acked (jr_state r) = false) as Hna.
  { intros r Hr. destruct (iv_live _ Hi _ _ (Hlive r Hr)) as [_ Hok]. apply Hok. }
  pose proof (purge_rows_lawful _ _ _ _ _ _ Hi Hst Hna E0) as Hl.
  destruct (purge_rows_effect _ _ _ _ _ _ Hi Hst Hna E0) as [Hpurged Hother].
  split_and!; [done|..].
  - intros id (r1 & Hr1 & Ho1)%(iv_owners _ (lf_inv _ _ _ Hl)).
    destruct (decide (mkJobId scope id ∈ jr_id <$> a)) as [(r & Hr & Hin)%list_elem_of_fmap|Hnot].
    + destruct (Hpurged r Hin) as (r' & Hr' & Hp). rewrite <-Hr, Hr1 in Hr'. injection Hr' as <-.
      destruct (iv_live _ (lf_inv _ _ _ Hl) _ _ Hr1) as [_ Hok].
      destruct (ro_purged _ Hok Hp) as (_ & Hno & _). rewrite Hno in Ho1. by apply not_elem_of_nil in Ho1.
    + rewrite Hother in Hr1 by done. apply Hnot. destruct (iv_live _ Hi _ _ Hr1) as [Hid _].
      rewrite <-Hid. apply list_elem_of_fmap_2. by eapply owner_rows_selected.
  - intros id r Hr Ho. destruct (iv_live _ Hi _ _ Hr) as [Hid _].
    rewrite <-Hid. by apply Hpurged, (owner_rows_selected db scope owner now a id).
Qed.

(** Erasure is not undone. *)
Lemma purged_forever db db' id r :
  job_inv db → later db db' → jobs db !! id = Some (LiveRow r) → jr_purged r = true →
  ∃ r', rows_get db' id = Some r' ∧ no_copies r' ∧ jr_owners r' = []
    ∧ (acked (jr_state r') = true ∨ jr_purged r' = true).
Proof.
  intros Hi Hl Hr Hp. destruct (later_row db db' id r Hl) as (r' & Hg' & Hle).
  { unfold rows_get. by rewrite Hr. }
  exists r'. split; [done|]. destruct Hl as [Hi' _].
  destruct (acked (jr_state r')) eqn:Ha.
  - unfold rows_get in Hg'. destruct (jobs db' !! id) as [[o|]|] eqn:Ho; simpl in Hg'; [| |done].
    + injection Hg' as ->. destruct (iv_live _ Hi' _ _ Ho) as [_ Hok]. destruct (ro_live _ Hok). congruence.
    + injection Hg' as <-. split_and!; auto. done.
  - destruct (rows_get_live db' id r' Hi' Hg' Ha) as [_ Hok].
    destruct (jl_sticky _ _ Hle Ha) as (Hs & _). destruct (ro_purged _ Hok (Hs Hp)) as (Hc & Ho & _).
    split_and!; try apply Hc; auto.
Qed.

(** ** Maintenance *)

Lemma maintain_rows_effect db cf scope count bytes l db' n :
  job_inv db → NoDup (ji_id <$> l) → (∀ i, i ∈ l → ∃ o, final_row db scope (ji_id i) o) →
  0 ≤ count → maintain_rows recovery_len db cf count bytes l = Ok (db', n) →
  ∃ k, n = count + Z.of_nat k ∧ (k ≤ length l)%nat ∧ (count = 0 → l ≠ [] → (1 ≤ k)%nat)
  ∧ (∀ id, id ∈ ji_id <$> take k l →
       ∃ o, final_row db scope id o ∧ jobs db' !! id = Some (LiveRow (expired_record o)))
  ∧ ∀ id, id ∉ ji_id <$> take k l → jobs db' !! id = jobs db !! id.
Proof.
  revert db count bytes. induction l as [|i l IH]; intros db count bytes Hi Hnd Hin Hcnt; simpl.
  { intros [= <- <-]. exists 0%nat. split_and!; try done; try lia.
    intros id Hid. by apply not_elem_of_nil in Hid. }
  destruct (recovery_bytes _ _ _); rsimpl; [|done..]. destruct (usize_add _ _ _) as [req| |]; rsimpl; [|done..].
  destruct (_ && _) eqn:Hstop.
  { intros [= <- <-]. exists 0%nat. bools. split_and!; try done; try lia.
    intros id Hid. by apply not_elem_of_nil in Hid. }
  destruct (Hin i ltac:(left)) as [o Ho].
  destruct (expire_lawful db scope (ji_id i) o Hi Ho) as (Hl & Hf & Ho').
  csimpl in Hnd. apply NoDup_cons in Hnd as [Hn Hnd].
  destruct (_ <=? _).
  { intros [= <- <-]. exists 1%nat. split_and!; [lia|lia|lia|..].
    - intros id Hid. csimpl in Hid. rewrite list_elem_of_singleton in Hid. subst id.
      exists o. split; [done|apply Ho'].
    - intros id Hid. csimpl in Hid. rewrite list_elem_of_singleton in Hid. by apply Hf. }
  intros E. destruct (IH (expire db (ji_id i)) (count + 1) req) as (k & -> & Hk & _ & H1 & H2);
    [apply Hl|done| |lia|done|].
  { intros j Hj. destruct (Hin j ltac:(by right)) as [oj Hoj]. exists oj.
    eapply final_row_frame; [exact Hf| |done]. intros Heq. apply Hn. rewrite <-Heq.
    by apply list_elem_of_fmap_2. }
  assert (ji_id i ∉ ji_id <$> take k l) as Hnk.
  { intros (j & Hj & Hjk)%list_elem_of_fmap. apply Hn. rewrite Hj. apply list_elem_of_fmap_2.
    eapply elem_of_submseteq; [exact Hjk|apply submseteq_take]. }
  exists (S k). split_and!; [lia|lia|lia|..].
  - intros id Hid. csimpl in Hid. apply elem_of_cons in Hid as [->|Hid].
    + exists o. split; [done|]. rewrite H2 by done. apply Ho'.
    + destruct (H1 id Hid) as (oj & Hoj & Hj). exists oj. split; [|done].
      assert (id ≠ ji_id i) as Hne by (by intros ->).
      destruct Hoj as (Hr & ? & ?). split_and!; try done. by rewrite <-Hf.
  - intros id Hid. csimpl in Hid. apply not_elem_of_cons in Hid as [Hid1 Hid2]. by rewrite H2, Hf.
Qed.

(** ** Claims *)

Lemma claim_job_cases db cf now r db' o :
  claimable r now = true → claim_job db cf now r = Ok (db', o) →
  o = None ∧ (jr_cancel_requested r = true ∨ jr_max_attempts r ≤ jr_generation r)
    ∧ (∃ r', jobs db' !! jr_id r = Some (LiveRow r') ∧ finished (jr_state r') = true)
  ∨ ∃ until, deadline now (cf_claim_lease_seconds cf) = Ok until
    ∧ o = Some (set_lease_until (Some until) (set_generation (jr_generation r + 1) (set_state JRunning r)))
    ∧ jr_generation r < jr_max_attempts r ∧ jr_cancel_requested r = false
    ∧ ∃ b, jobs db' !! jr_id r = Some (LiveRow (set_output_bytes b
        (set_lease_until (Some until) (set_generation (jr_generation r + 1) (set_state JRunning r))))).
Proof.
  intros Hc. unfold claim_job. rewrite Hc. simpl.
  assert (Hsave : ∀ r1 db1, save db r1 = Ok db1 → jr_id r1 = jr_id r → finished (jr_state r1) = true →
    ∃ r', jobs db1 !! jr_id r = Some (LiveRow r') ∧ finished (jr_state r') = true).
  { intros r1 db1 Hsv Hid Hfin. destruct (save_reads _ _ _ Hsv) as [b Hb]; [by apply finished_not_acked|].
    rewrite Hid in Hb. by eexists. }
  destruct (jr_cancel_requested r) eqn:Hcan.
  { destruct (finish _ _ _ _) as [r1| |] eqn:Hf; rsimpl; [|done..].
    destruct (finish_fields _ _ _ _ _ Hf) as (Hid & Hst & _).
    destruct (save db (delete_copies r1)) as [db1| |] eqn:Hsv; rsimpl; [|done..]. intros [= <- <-].
    left. split_and!; [done|by left|]. eapply Hsave; [exact Hsv|done|]. simpl. rewrite Hst.
    apply stopped_finished. }
  destruct (jr_max_attempts r <=? jr_generation r) eqn:Hmax; bools.
  { destruct (finish _ _ _ _) as [r1| |] eqn:Hf; rsimpl; [|done..].
    destruct (finish_fields _ _ _ _ _ Hf) as (Hid & Hst & _).
    destruct (save db r1) as [db1| |] eqn:Hsv; rsimpl; [|done..]. intros [= <- <-].
    left. split_and!; [done|by right|]. eapply Hsave; [exact Hsv|done|]. by rewrite Hst. }
  destruct (checked_add u64_max (jr_generation r) 1) as [g|] eqn:Hgen; rsimpl; [|done].
  apply checked_add_some in Hgen as [-> _].
  destruct (deadline _ _) as [until| |]; rsimpl; [|done..].
  destruct (save db _) as [db1| |] eqn:Hsv; rsimpl; [|done..]. intros [= <- <-].
  right. exists until. split_and!; try done. exact (save_reads _ _ _ Hsv eq_refl).
Qed.

(** What [Claim] does to the candidates before the one it serves: each is
    finished for good. *)
Lemma claim_first_serves db cf scope now l db' r' :
  job_inv db → stored db scope l → (∀ r, r ∈ l → claimable r now = true) →
  claim_first db cf now l = Ok (db', Some r') →
  ∃ pre r post until, l = pre ++ r :: post
  ∧ deadline now (cf_claim_lease_seconds cf) = Ok until
  ∧ r' = set_lease_until (Some until) (set_generation (jr_generation r + 1) (set_state JRunning r))
  ∧ jr_generation r < jr_max_attempts r ∧ jr_cancel_requested r = false
  ∧ (∃ b, jobs db' !! jr_id r = Some (LiveRow (set_output_bytes b r')))
  ∧ (∀ o, o ∈ pre → jr_cancel_requested o = true ∨ jr_max_attempts o ≤ jr_generation o)
  ∧ (∀ o, o ∈ pre → ∃ o', jobs db' !! jr_id o = Some (LiveRow o') ∧ finished (jr_state o') = true)
  ∧ (∀ id, id ∉ jr_id <$> pre ++ [r] → jobs db' !! id = jobs db !! id).
Proof.
  revert db. induction l as [|r l IH]; intros db Hi Hst Hcl; simpl; [done|].
  apply stored_cons in Hst as (Hg & Hs & Hst & Hne).
  destruct (claim_job db cf now r) as [[db1 c]| |] eqn:Hc; rsimpl; [|done..].
  destruct (claim_job_lawful db scope cf now r db1 c Hi Hg Hs Hc) as (Hl & Hf & _).
  destruct (claim_job_cases db cf now r db1 c (Hcl r ltac:(left)) Hc) as
    [(-> & Hwhy & o' & Ho' & Hfin)|(until & Hu & -> & Hgen & Hcan & Hrow)].
  - intros Hrest. destruct (IH db1) as (pre & r1 & post & until & -> & Hu & -> & Hg1 & Hc1 & Hr1 & Hp1 & Hp2 & Hfr);
      [apply Hl|by eapply frame_stored| |done|].
    { intros o Ho. apply Hcl. by right. }
    assert (jr_id r ∉ jr_id <$> pre ++ [r1]) as Hnot.
    { intros (o & Ho & Hin)%list_elem_of_fmap. apply (Hne o); [|done].
      rewrite elem_of_app, list_elem_of_singleton in Hin. set_solver. }
    exists (r :: pre), r1, post, until. split_and!; try done.
    + intros o [->|Ho]%elem_of_cons; auto.
    + intros o [->|Ho]%elem_of_cons; [|by apply Hp2]. exists o'. by rewrite Hfr.
    + intros id Hid. csimpl in Hid. apply not_elem_of_cons in Hid as [Hid1 Hid2]. by rewrite Hfr, Hf.
  - intros [= <- <-]. exists [], r, l, until. split_and!; try done.
    + intros o Ho. by apply not_elem_of_nil in Ho.
    + intros o Ho. by apply not_elem_of_nil in Ho.
    + intros id Hid. csimpl in Hid. rewrite list_elem_of_singleton in Hid. by apply Hf.
Qed.

(** The candidates of [Claim] are claimable. *)
Lemma pending_claimable db kinds now r :
  query_filter db (QPending kinds) now r = true → claimable r now = true ∧ jr_kind r ∈ kinds.
Proof. simpl. unfold claimable, kind_in. intros [? ?]%andb_true_iff. by bools. Qed.



End History.
