(* ===== verification/JobPages.v ===== *)
(** Bounded pages and counts: what [Candidates] and [Completions] put on a
    page, and how many unconfirmed jobs [Enqueue] admits. *)

From Stdlib Require Import ZArith Lia.
From stdpp Require Import base gmap strings list fin_maps sorting.
From S2P Require Import Prelude Core JobTypes JobStore JobInv JobProofs JobLawful JobRequests.
From S2P Require Import JobHistory.

#[local] Open Scope Z_scope.

(** ** JSON arrays *)

Definition total (sizes : list Z) : Z := foldr Z.add 0 sizes.

(** Encoded length of an array: brackets, elements, separating commas. *)
Definition json_array_len (sizes : list Z) : Z :=
  2 + total sizes + Z.max 0 (Z.of_nat (length sizes) - 1).

(** The length a page reaches from [used], with or without a first comma. *)
Definition page_from (used : Z) (comma : bool) (sizes : list Z) : Z :=
  used + total sizes + Z.of_nat (length sizes)
  - (if comma then 0 else Z.min 1 (Z.of_nat (length sizes))).

Lemma page_from_2 sizes : page_from 2 false sizes = json_array_len sizes.
Proof. unfold page_from, json_array_len. lia. Qed.

Lemma page_from_cons used (comma : bool) s sizes :
  page_from (used + s + (if comma then 1 else 0)) true sizes = page_from used comma (s :: sizes).
Proof. unfold page_from. simpl. destruct comma; lia. Qed.

Lemma usize_add_ok a b e c : usize_add a b e = Ok c → c = a + b ∧ c ≤ usize_max.
Proof. unfold usize_add. intros H%ok_or_ok. by apply checked_add_some. Qed.

Lemma encoded_bytes_ok n m : encoded_bytes n = Ok m → m = n.
Proof. unfold encoded_bytes. case_match; congruence. Qed.

Lemma admit_page_bytes_some size used max_bytes (comma : bool) e req :
  admit_page_bytes size used max_bytes comma e = Ok (Some req) →
  req = used + size + (if comma then 1 else 0) ∧ req ≤ max_bytes.
Proof.
  unfold admit_page_bytes. destruct (usize_add size 2 _) as [i| |]; rsimpl; [|done..].
  destruct (_ <? _); [done|].
  destruct (usize_add used size _) as [r1| |] eqn:E1; rsimpl; [|done..]. apply usize_add_ok in E1 as [-> _].
  destruct (usize_add (used + size) _ _) as [r2| |] eqn:E2; rsimpl; [|done..]. apply usize_add_ok in E2 as [-> _].
  destruct (_ <=? _) eqn:E; [|done]. intros [= <-]. bools. done.
Qed.

Lemma admit_page_bytes_none size used max_bytes (comma : bool) e :
  admit_page_bytes size used max_bytes comma e = Ok None →
  size + 2 ≤ max_bytes < used + size + (if comma then 1 else 0).
Proof.
  unfold admit_page_bytes. destruct (usize_add size 2 _) as [i| |] eqn:Ei; rsimpl; [|done..].
  apply usize_add_ok in Ei as [-> _]. destruct (_ <? _) eqn:El; [done|]. bools.
  destruct (usize_add used size _) as [r1| |] eqn:E1; rsimpl; [|done..]. apply usize_add_ok in E1 as [-> _].
  destruct (usize_add (used + size) _ _) as [r2| |] eqn:E2; rsimpl; [|done..]. apply usize_add_ok in E2 as [-> _].
  destruct (_ <=? _) eqn:E; [done|]. bools. intros _. lia.
Qed.

Section Pages.
Context `{!Chrono} `{!JobCodec}.
Variable recovery_len : string → Z.
Implicit Types (db : JobDb) (scope : JobScope).

(** ** Candidate pages *)

Lemma fill_page_ok used max_bytes comma l rows :
  used ≤ max_bytes → fill_page used max_bytes comma l = Ok rows →
  page_from used comma (record_len <$> rows) ≤ max_bytes
  ∧ (rows = l ∨ ∃ r post, l = rows ++ r :: post
       ∧ max_bytes < page_from used comma (record_len <$> rows ++ [r])
       ∧ record_len r + 2 ≤ max_bytes).
Proof.
  revert used comma rows. induction l as [|r l IH]; intros used comma rows Hu; simpl.
  { intros [= <-]. split; [|by left]. unfold page_from. simpl. destruct comma; lia. }
  unfold candidate_page_bytes. destruct (encoded_bytes _) as [size| |] eqn:Es; rsimpl; [|done..].
  apply encoded_bytes_ok in Es as ->.
  destruct (admit_page_bytes _ _ _ _ _) as [[req|]| |] eqn:Ea; rsimpl; [| |done..].
  - apply admit_page_bytes_some in Ea as [-> Hle].
    destruct (fill_page _ _ _ l) as [rest| |] eqn:E; rsimpl; [|done..]. intros [= <-].
    destruct (IH _ true rest Hle E) as [IH1 IH2]. csimpl. rewrite page_from_cons in IH1. split; [done|].
    destruct IH2 as [->|(r1 & post & -> & Hlt & Hsz)]; [by left|right]. exists r1, post.
    rewrite <-page_from_cons. done.
  - apply admit_page_bytes_none in Ea. intros [= <-]. split.
    + unfold page_from. simpl. destruct comma; lia.
    + right. exists r, l. split_and!; [done| |lia]. csimpl. rewrite <-page_from_cons.
      unfold page_from. simpl. lia.
Qed.

(** ** Completion pages *)

(** The record a completion page offers for a stored row. *)
Definition offered (now until : Millis) (o : JobRecord) : JobRecord :=
  set_delivery_until (Some until) (set_delivery_generation (jr_delivery_generation o + 1)
    (if at_most (jr_recovery_until o) now then delete_copies (set_result_expired true (without_content o))
     else without_content o)).

(** Whether the page carries the stored output. *)
Definition carries_output (now until : Millis) (o : JobRecord) : bool :=
  (0 <? jr_output_bytes o) && negb (jr_result_expired (offered now until o)).

Definition offer (now until : Millis) (o : JobRecord) : Delivery :=
  let r := offered now until o in
  mkDelivery (if carries_output now until o then set_output (jr_output o) r else r)
    (mkToken (jr_id o) (jr_delivery_generation o + 1)).

(** Its measured length: the content-free encoding and, for an output, its
    encoded length and the field name. *)
Definition offer_len (now until : Millis) (o : JobRecord) : Z :=
  delivery_len (mkDelivery (offered now until o) (mkToken (jr_id o) (jr_delivery_generation o + 1)))
  + (if carries_output now until o then jr_output_bytes o + 10 else 0).

(** The row after the delivery is recorded. *)
Definition delivered_row (now until : Millis) (o : JobRecord) : JobRecord :=
  set_delivery_until (Some until) (set_delivery_generation (jr_delivery_generation o + 1)
    (if jr_result_expired (offered now until o) then expired_record o else o)).

Lemma prepare_delivery_eq db cf now o p :
  jobs db !! jr_id o = Some (LiveRow o) → prepare_delivery db cf now (info_of o) = Ok p →
  ∃ until, deadline now (cf_delivery_lease_seconds cf) = Ok until
  ∧ p = (offered now until o,
         mkDelivery (offered now until o) (mkToken (jr_id o) (jr_delivery_generation o + 1)),
         carries_output now until o).
Proof.
  intros Ho. unfold prepare_delivery, metadata, rows_get. simpl ji_id. rewrite Ho. rsimpl. simpl fmap. rsimpl.
  unfold offered, carries_output, offered. simpl.
  destruct (at_most (jr_recovery_until o) now); simpl.
  all: destruct (checked_add _ _ _) as [g|] eqn:Eg; rsimpl; [|done]; apply checked_add_some in Eg as [-> _].
  all: destruct (deadline _ _) as [u| |]; rsimpl; [|done..]; intros [= <-]; by exists u.
Qed.

Lemma admit_deliveries_page db cf now used max_bytes comma l adm :
  used ≤ max_bytes → (∀ o, o ∈ l → jobs db !! jr_id o = Some (LiveRow o)) →
  admit_deliveries db cf now used max_bytes comma (info_of <$> l) = Ok adm →
  adm = [] ∨ ∃ until k, deadline now (cf_delivery_lease_seconds cf) = Ok until
  ∧ adm = (λ o, (offered now until o,
         mkDelivery (offered now until o) (mkToken (jr_id o) (jr_delivery_generation o + 1)),
         carries_output now until o)) <$> take k l
  ∧ page_from used comma (offer_len now until <$> take k l) ≤ max_bytes.
Proof.
  revert used comma adm. induction l as [|o l IH]; intros used comma adm Hu Hrows; simpl.
  { intros [= <-]. by left. }
  destruct (prepare_delivery _ _ _ _) as [p| |] eqn:Ep; rsimpl; [|done..].
  apply prepare_delivery_eq in Ep as (until & Hd & ->); [|apply Hrows; left].
  destruct (delivery_bytes _ _) as [size| |] eqn:Es; rsimpl; [|done..].
  assert (size = offer_len now until o) as ->.
  { revert Es. unfold delivery_bytes, offer_len. simpl ji_output_bytes.
    destruct (carries_output now until o); rsimpl.
    - destruct (usize_add _ 10 _) as [b| |] eqn:Eb; rsimpl; [|done..]. apply usize_add_ok in Eb as [-> _].
      destruct (encoded_bytes _) as [n| |] eqn:En; rsimpl; [|done..]. apply encoded_bytes_ok in En as ->.
      intros [-> _]%usize_add_ok. lia.
    - destruct (encoded_bytes _) as [n| |] eqn:En; rsimpl; [|done..]. apply encoded_bytes_ok in En as ->.
      intros [-> _]%usize_add_ok. lia. }
  destruct (admit_page_bytes _ _ _ _ _) as [[req|]| |] eqn:Ea; rsimpl; [| |done..].
  - apply admit_page_bytes_some in Ea as [-> Hle].
    destruct (admit_deliveries _ _ _ _ _ _ _) as [rest| |] eqn:E; rsimpl; [|done..]. intros [= <-].
    right. exists until. destruct (IH _ true rest Hle) as [->|(u2 & k & Hd2 & -> & Hpage)]; [|done| |].
    + intros o' Ho'. apply Hrows. by right.
    + exists 1%nat. split_and!; [done| |].
      * done.
      * csimpl. rewrite <-page_from_cons. unfold page_from. simpl. lia.
    + rewrite Hd in Hd2. injection Hd2 as <-. exists (S k). split_and!; [done|done|].
      csimpl. by rewrite <-page_from_cons.
  - intros [= <-]. by left.
Qed.

Lemma offered_fields now until o :
  jr_id (offered now until o) = jr_id o
  ∧ jr_delivery_generation (offered now until o) = jr_delivery_generation o + 1
  ∧ jr_delivery_until (offered now until o) = Some until.
Proof. unfold offered. by case_match. Qed.

Lemma deliver_effect db now until o db' :
  jobs db !! jr_id o = Some (LiveRow o) →
  deliver db (offered now until o) (jr_result_expired (offered now until o)) = Ok db' →
  jobs db' !! jr_id o = Some (LiveRow (delivered_row now until o)).
Proof.
  intros Ho. unfold deliver, delivered_row. destruct (offered_fields now until o) as (-> & -> & ->).
  destruct (as_i64 _) as [g| |] eqn:Eg; rsimpl; [|done..]. apply as_i64_ok in Eg as ->. intros [= <-].
  destruct (jr_result_expired _); simpl; rewrite !lookup_alter_eq, Ho; done.
Qed.

Lemma send_deliveries_effect db scope now until l db' ds :
  job_inv db → NoDup (jr_id <$> l) → (∀ o, o ∈ l → final_row db scope (jr_id o) o) →
  send_deliveries db ((λ o, (offered now until o,
         mkDelivery (offered now until o) (mkToken (jr_id o) (jr_delivery_generation o + 1)),
         carries_output now until o)) <$> l) = Ok (db', ds) →
  ds = offer now until <$> l
  ∧ (∀ o, o ∈ l → jobs db' !! jr_id o = Some (LiveRow (delivered_row now until o)))
  ∧ ∀ id, id ∉ jr_id <$> l → jobs db' !! id = jobs db !! id.
Proof.
  revert db ds. induction l as [|o l IH]; intros db ds Hi Hnd Hrows; cbn [send_deliveries fmap list_fmap].
  { intros [= <- <-]. split_and!; try done. intros o Ho. by apply not_elem_of_nil in Ho. }
  pose proof (Hrows o ltac:(left)) as Ho. destruct (offered_fields now until o) as (Hid & Hg & _).
  rewrite Hid. destruct (if carries_output now until o then _ else _) as [d| |] eqn:Ed; rsimpl; [|done..].
  assert (d = offer now until o) as ->.
  { revert Ed. unfold offer. destruct (carries_output now until o); [|by intros [= <-]].
    unfold output, rows_get. destruct Ho as (-> & _). simpl. rsimpl.
    destruct (jr_output o); [|done]. by intros [= <-]. }
  destruct (deliver _ _ _) as [db1| |] eqn:Hd; rsimpl; [|done..].
  pose proof (deliver_effect db now until o db1 (proj1 Ho) Hd) as Hnew.
  destruct (deliver_lawful db scope (offered now until o) (jr_result_expired (offered now until o)) o db1
    Hi) as (Hl & Hf & _); [by rewrite Hid|done|done|]. rewrite Hid in Hf.
  destruct (send_deliveries db1 _) as [[db2 ds2]| |] eqn:E; rsimpl; [|done..]. intros [= <- <-].
  csimpl in Hnd. apply NoDup_cons in Hnd as [Hn Hnd].
  assert (Hne : ∀ o', o' ∈ l → jr_id o' ≠ jr_id o).
  { intros o' Ho' Heq. apply Hn. rewrite <-Heq. by apply list_elem_of_fmap_2. }
  destruct (IH db1 ds2) as (-> & IH2 & IH3); [apply Hl|done| |done|].
  { intros o' Ho'. eapply final_row_frame; [exact Hf|by apply Hne|]. apply Hrows. by right. }
  split_and!; [done|..].
  - intros o' [->|Ho']%elem_of_cons; [|by apply IH2]. by rewrite IH3.
  - intros id Hid'. csimpl in Hid'. apply not_elem_of_cons in Hid' as [H1 H2]. by rewrite IH3, Hf.
Qed.

(** The rows a completion page selects from. *)
Lemma final_selected db scope now limit l :
  job_inv db → select db scope QFinal now limit = Ok l →
  NoDup (jr_id <$> l) ∧ (∀ o, o ∈ l → final_row db scope (jr_id o) o)
  ∧ Z.of_nat (length l) ≤ Z.max 0 limit.
Proof.
  intros Hi Hl. destruct (select_ok _ _ _ _ _ _ Hi Hl) as ([Hnd Hst] & Hq & Hlen).
  split_and!; [done| |done]. intros o Ho. destruct (Hst o Ho) as [Hg Hs].
  pose proof (final_query _ _ _ (Hq o Ho)) as Hf. destruct (finished_not_acked _ Hf) as [Ha _].
  destruct (rows_get_live db _ o Hi Hg Ha) as [Hrow _]. by split_and!.
Qed.

(** A delivered row is not offered again before its lease is over. *)
Lemma delivered_not_offered db now until o t :
  t < until → query_filter db QFinal t (delivered_row now until o) = false.
Proof.
  intros Ht. unfold delivered_row. simpl. destruct (Z.leb_spec until t); [lia|]. by rewrite andb_false_r.
Qed.

(** ** Completion *)

(** What the last branch of [Complete] stores. *)
Lemma complete_final_outcome db cf now state out r db' resp :
  finished state = true → jr_output r = None →
  complete_final db cf now state out r = Ok (db', resp) →
  let st := if jr_cancel_requested r then JCancelled else state in
  ∃ o b, jobs db' !! jr_id r = Some (LiveRow (set_output_bytes b o))
  ∧ (resp = RespDone ∧ jr_state o = st ∧ undeliverable o cf = Ok None
       ∧ (jr_output o = out ∨ jr_output o = None ∧ jr_result_expired o = true)
     ∨ ∃ n, resp = RespResultRefused n ∧ cf_max_page_bytes cf < n ∧ jr_output o = None
       ∧ jr_state o = if bool_decide (st = JCancelled) then JCancelled else JFailed).
Proof.
  intros Hst Hout. unfold complete_final. simpl jr_cancel_requested.
  set (st := if jr_cancel_requested r then JCancelled else state).
  assert (finished st = true) as Hfin by (unfold st; by case_match).
  destruct (finish st now cf (set_output out r)) as [r1| |] eqn:Hf; rsimpl; [|done..].
  destruct (finish_fields _ _ _ _ _ Hf) as (Hid & Hs & _ & _ & _ & _ & Ho). simpl in Hid, Ho.
  destruct (match jr_output r1 with Some _ => _ | None => _ end) as [bytes| |]; rsimpl; [|done..].
  destruct (undeliverable _ cf) as [[n|]| |] eqn:Hu; rsimpl; [| |done..].
  - assert (cf_max_page_bytes cf < n) as Hn.
    { revert Hu. unfold undeliverable. destruct (jr_output (set_output_bytes bytes r1)); [|done]. walk.
      destruct (_ <? _) eqn:El; [|done]. intros [= <-]. by bools. }
    simpl jr_state. destruct (save db _) as [db1| |] eqn:Hsv; rsimpl; [|done..]. intros [= <- <-].
    assert (∀ x : JobRecord, jr_id (if bool_decide (jr_state r1 = JCancelled) then x
      else set_diagnostic (Some QueueFailure) (set_state JFailed x)) = jr_id x) as Hx by (intros; by case_match).
    destruct (save_reads _ _ _ Hsv) as [b Hb].
    { case_bool_decide as Hc; simpl; [by rewrite Hc|done]. }
    rewrite Hx in Hb. simpl jr_id in Hb. rewrite Hid in Hb. eexists _, b. split; [exact Hb|]. right. exists n.
    split_and!; [done|done|by case_bool_decide|].
    repeat case_bool_decide; simpl; congruence.
  - destruct (save db _) as [db1| |] eqn:Hsv; rsimpl; [|done..]. intros [= <- <-].
    destruct (save_reads _ _ _ Hsv) as [b Hb]; [simpl; rewrite Hs; by apply finished_not_acked|].
    simpl jr_id in Hb. rewrite Hid in Hb. eexists _, b. split; [exact Hb|]. left. by split_and!.
Qed.

(** ** Live jobs *)

Lemma scope_rows_insert db scope id row owners :
  jobs db !! id = None → jid_scope id = scope →
  scope_rows (mkJobDb (<[id := row]> (jobs db)) owners) scope ≡ₚ read_record id row :: scope_rows db scope.
Proof.
  intros Hn Hs. unfold scope_rows. simpl jobs.
  rewrite (map_to_list_insert (jobs db) id row Hn). rewrite filter_cons_True by done. done.
Qed.

Lemma insert_job_live db cf r db' :
  jobs db !! jr_id r = None → unfinished (jr_state r) = true → insert_job db cf r = Ok db' →
  let scope := jid_scope (jr_id r) in
  live_count db' scope = live_count db scope + 1 ∧ live_count db' scope ≤ cf_max_live_jobs cf.
Proof.
  intros Hn Hu Hins. pose proof (insert_job_save _ _ _ _ Hins) as Hsv. cbv zeta.
  set (scope := jid_scope (jr_id r)).
  assert (live_count db scope < cf_max_live_jobs cf) as Hlt.
  { revert Hins. unfold insert_job.
    destruct (if bool_decide (jr_execution r = Model) then _ else _); rsimpl; [|done..].
    destruct (_ <=? _) eqn:E; [done|]. intros _. by bools. }
  assert (live_count db' scope = live_count db scope + 1) as ->; [|lia].
  destruct (save_inv _ _ _ Hsv) as (_ & b & Hj & _). destruct db' as [js os]. simpl in Hj. subst js.
  unfold live_count, select_where.
  rewrite (scope_rows_insert db scope (jr_id r) (row_of b r) os Hn eq_refl).
  rewrite filter_cons_True; [simpl; lia|].
  destruct (row_of_fields b r) as (_ & _ & ->). by rewrite Hu.
Qed.

Lemma enqueue_spec_live db cf scope now uuid spec db' o :
  jobs db !! mkJobId scope uuid = None → enqueue_spec db cf scope now uuid spec = Ok (db', o) →
  live_count db' scope ≤ Z.max (live_count db scope) (cf_max_live_jobs cf).
Proof.
  intros Hn. unfold enqueue_spec. destruct (_ || _); [done|].
  destruct (quantized _) as [rec| |]; rsimpl; [|done..].
  destruct (by_key _ _ _).
  - destruct (negb _); [done|]. intros [= <- <-]. lia.
  - destruct (insert_job _ _ _) as [db1| |] eqn:E; rsimpl; [|done..]. intros [= <- <-].
    apply insert_job_live in E as [_ E]; [|done|done]. simpl in E. lia.
Qed.

Lemma enqueue_specs_live db cf scope now uuids n specs db' o :
  job_inv db → enqueue_env db scope uuids n specs →
  enqueue_specs db cf scope now uuids n specs = Ok (db', o) →
  live_count db' scope ≤ Z.max (live_count db scope) (cf_max_live_jobs cf).
Proof.
  revert db n o. induction specs as [|spec specs IH]; intros db n o Hi Henv; simpl.
  { intros [= <- <-]. lia. }
  pose proof (enqueue_env_head _ _ _ _ _ _ Henv) as [Hn Hm].
  destruct (enqueue_spec db cf scope now (uuids n) spec) as [[db1 o1]| |] eqn:E; rsimpl; [|done..].
  destruct (enqueue_spec_lawful db cf scope now (uuids n) spec db1 o1) as [Hl Hf]; try done.
  apply enqueue_spec_live in E; [|done].
  destruct (enqueue_specs db1 cf scope now uuids (S n) specs) as [[db2 o2]| |] eqn:E2; rsimpl; [|done..].
  intros [= <- <-]. apply IH in E2; [lia|apply Hl|]. by eapply enqueue_env_tail.
Qed.

(** What a completion decides. *)
Lemma complete_outcome db cf scope now job g state origin out receipt diagnostic db' resp :
  job_inv db →
  complete db cf scope now job g state origin out receipt diagnostic = Ok (db', resp) →
  ∃ r o b, rows_get db job = Some r ∧ live r g now = Ok tt
  ∧ jobs db' !! job = Some (LiveRow (set_output_bytes b o))
  ∧ let decided := if bool_decide (state = JUncertain) then JUncertain
                   else if jr_purged r then JPurged
                   else if jr_cancel_requested r then JCancelled else state in
    (resp = RespDone ∧ jr_state o = decided ∧ undeliverable o cf = Ok None
       ∧ (jr_output o = out
          ∨ jr_output o = None ∧ (jr_result_expired o = true ∨ jr_purged r = true ∨ state = JUncertain))
     ∨ ∃ n, resp = RespResultRefused n ∧ cf_max_page_bytes cf < n ∧ jr_output o = None
       ∧ jr_state o = if bool_decide (decided = JCancelled) then JCancelled else JFailed).
Proof.
  intros Hi. unfold complete. destruct (get db scope job) as [r| |] eqn:Hget; rsimpl; [|done..].
  apply get_ok in Hget as [Hg Hs]. pose proof (rows_get_id _ _ _ Hi Hg) as <-.
  walk. destruct a. pose proof (live_ok _ _ _ E0) as (Hr & _ & _).
  destruct (rows_get_live db _ r Hi Hg) as [_ Hok]; [by rewrite Hr|].
  destruct (ro_unfinished _ Hok) as (Hout & _); [by rewrite Hr|].
  assert (completes_to state = true) as Hct by (unfold content_refused in E2; by bools).
  intros Hrun. exists r. revert Hrun. simpl jr_purged. cbv zeta.
  destruct (bool_decide (state = JUncertain)) eqn:Eu.
  { bools. subst state. walk. intros [= <- <-].
    destruct (jr_purged r); (destruct (save_reads _ _ _ E3) as [b Hb]; [done|]); eexists _, b;
      (split_and!; [done|done|exact Hb|left]); unfold undeliverable; simpl; rewrite ?Hout;
      (split_and!; [done|done|done|right; split; [done|by right; right]]). }
  destruct (jr_purged r) eqn:Hp.
  { walk. intros [= <- <-]. destruct (finish_fields _ _ _ _ _ E3) as (Hid & Hst & _).
    destruct (save_reads _ _ _ E4) as [b Hb]; [simpl; by rewrite Hst|]. simpl jr_id in *. rewrite Hid in Hb.
    eexists _, b. split_and!; [done|done|exact Hb|]. left. split_and!; try done. right. split; [done|by right; left]. }
  intros Hf. bools. apply complete_final_outcome in Hf as (o & b & Hrow & Hcase); [|by apply completes_final|done].
  exists o, b. split_and!; [done|done|exact Hrow|]. naive_solver.
Qed.

End Pages.
