(* ===== verification/JobTheorems.v ===== *)
(** What the durable job store promises: the theorems on
    [symbiotic-queue-sqlite]'s [jobs.rs], each with a witness on concrete
    tables. *)

From Stdlib Require Import ZArith Lia.
From stdpp Require Import base gmap strings list fin_maps sorting.
From S2P Require Import Prelude Core JobTypes JobStore JobInv JobProofs JobLawful JobRequests.
From S2P Require Import JobHistory JobPages.

#[local] Open Scope Z_scope.

Section Theorems.
Context `{!Chrono} `{!JobCodec}.
Variable recovery_len : string → Z.
Implicit Types (db : JobDb) (scope : JobScope).

(** C22: whatever calls are made on fresh tables, in any order, the tables stay
    well formed (rows under their own ids, one row per key of a scope, a lease
    exactly while running, attempts within their ceiling, no output on a model
    job, nothing retained by an erased or expired one, the owner index exactly
    the owners of unconfirmed rows); every job only moves forward from one
    point of the sequence to a later one; and a scope no call names keeps its
    rows. *)
Theorem jobs_calls_lawful pre post :
  calls_env recovery_len initialize (pre ++ post) →
  let before := run_jobs recovery_len initialize pre in
  let after := run_jobs recovery_len initialize (pre ++ post) in
  job_inv after
  ∧ (∀ id, job_evolves (rows_get before id) (rows_get after id))
  ∧ ∀ id, Forall (λ c, jc_scope c ≠ jid_scope id) post → jobs after !! id = jobs before !! id.
Proof.
  intros [Hpre Hpost]%calls_env_app. cbv zeta. rewrite run_jobs_app.
  destruct (run_jobs_later recovery_len initialize pre initialize_inv Hpre) as [Hi _].
  destruct (run_jobs_later recovery_len _ post Hi Hpost) as [Hi' He]. split_and!; [done|done|].
  intros id Hsc. by eapply run_jobs_scope.
Qed.

(** C23: once a job has been claimed again, a worker that still holds an earlier
    generation is locked out for good: after any further calls its heartbeat
    and its resolution are refused as stale, and so is its completion (unless
    its output is already refused for its size), whatever it reports. *)
Theorem jobs_fence db calls id r g cf now uuids :
  job_inv db → calls_env recovery_len db calls → rows_get db id = Some r → g < jr_generation r →
  let db' := run_jobs recovery_len db calls in
  let ask := apply_request recovery_len db' cf (jid_scope id) now uuids in
  ask (Heartbeat id g) = Err EStaleClaim
  ∧ (∀ resolution, ask (Resolve id g resolution) = Err EStaleClaim)
  ∧ ∀ state origin out receipt diagnostic,
      opt_len out ≤ cf_max_result_bytes cf →
      ask (Complete id g state origin out receipt diagnostic) = Err EStaleClaim.
Proof.
  intros Hi Henv Hg Hlt. cbv zeta. pose proof (run_jobs_later recovery_len db calls Hi Henv) as Hl.
  destruct (later_row _ _ _ _ Hl Hg) as (r' & Hg' & _).
  destruct (fence_left_behind db _ id r r' g now Hl Hg Hlt Hg') as [Hlive Hres].
  assert (get (run_jobs recovery_len db calls) (jid_scope id) id = Ok r') as Hget.
  { unfold get, scoped. rewrite bool_decide_true by done. rsimpl. by rewrite Hg'. }
  split_and!; handler.
  - unfold scoped, metadata. rewrite bool_decide_true, Hg' by done. cbn [fmap option_fmap option_map]. rsimpl.
    change (live (without_content r') g now) with (live r' g now). by rewrite Hlive.
  - intros resolution. unfold resolve. rewrite Hget. rsimpl.
    destruct Hres as [->|Hne]; [by rewrite orb_true_r|].
    destruct (Z.eqb_spec (jr_generation r') g); [done|]. by rewrite orb_true_r.
  - intros state origin out receipt diagnostic Hsize. unfold complete. rewrite Hget. rsimpl.
    destruct out as [o|]; simpl in Hsize; [|by rewrite Hlive].
    destruct (cf_max_result_bytes cf <? byte_len o) eqn:E; [bools; lia|]. by rewrite Hlive.
Qed.

(** a claim serves the first waiting job of the requested kinds, oldest
    first, that may still run: it is unfinished, not asked to stop and under
    its attempt ceiling; it comes back running, one generation on, with the
    lease the configuration gives, and is stored so.  Every waiting job passed
    over was to be stopped or out of attempts, and is now finished; no other
    row changes. *)
Theorem jobs_claim_serves db cf scope now uuids kinds slots db' r' :
  job_inv db →
  apply_request recovery_len db cf scope now uuids (Claim kinds slots) = Ok (db', RespJob (Some r')) →
  ∃ pre r post until,
    select db scope (QPending kinds) now (cf_max_page cf) = Ok (pre ++ r :: post)
    ∧ deadline now (cf_claim_lease_seconds cf) = Ok until
    ∧ r' = set_lease_until (Some until) (set_generation (jr_generation r + 1) (set_state JRunning r))
    ∧ jr_kind r ∈ kinds ∧ claimable r now = true
    ∧ jr_generation r < jr_max_attempts r ∧ jr_cancel_requested r = false
    ∧ (∃ b, jobs db' !! jr_id r = Some (LiveRow (set_output_bytes b r')))
    ∧ (∀ o, o ∈ pre → (jr_cancel_requested o = true ∨ jr_max_attempts o ≤ jr_generation o)
         ∧ ∃ o', jobs db' !! jr_id o = Some (LiveRow o') ∧ finished (jr_state o') = true)
    ∧ ∀ id, id ∉ jr_id <$> pre ++ [r] → jobs db' !! id = jobs db !! id.
Proof.
  intros Hi. handler. walk. destruct (slots =? 0); [done|]. walk. intros [= <- ->].
  destruct (select_ok _ _ _ _ _ _ Hi E0) as (Hst & Hq & _).
  destruct (claim_first_serves db cf scope now a j r' Hi Hst) as
    (pre & r & post & until & -> & Hu & -> & Hgen & Hcan & Hrow & Hp1 & Hp2 & Hfr); [|done|].
  { intros o Ho. by eapply pending_claimable, Hq. }
  destruct (pending_claimable db kinds now r) as [Hc Hk]; [apply Hq; set_solver|].
  exists pre, r, post, until. split_and!; try done. intros o Ho. auto.
Qed.

(** the first confirmation of a delivery wins.  After [Ack] of a token
    with one disposition, and whatever calls follow, every other confirmation
    of that job with a token issued so far is answered with the first
    disposition and changes nothing; the row keeps the state the job finished
    in. *)
Theorem jobs_ack_once db scope token d db' calls :
  job_inv db → ack_one db scope token d = Ok (db', Acked d) →
  calls_env recovery_len db' calls →
  let after := run_jobs recovery_len db' calls in
  (∃ r r', rows_get db (tk_job token) = Some r ∧ rows_get after (tk_job token) = Some r'
     ∧ jr_state r' = disposition_state d ∧ jr_final_state r' = Some (jr_state r)
     ∧ finished (jr_state r) = true ∧ no_copies r')
  ∧ ∀ token' d', tk_job token' = tk_job token → 1 ≤ tk_generation token' ≤ tk_generation token →
      ack_one after scope token' d' = Ok (after, AlreadyAcked d).
Proof.
  intros Hi Hack Henv. pose proof (ack_one_lawful _ _ _ _ _ _ Hi Hack) as Hl. cbv zeta.
  pose proof (run_jobs_later recovery_len db' calls (lf_inv _ _ _ Hl) Henv) as Hlater.
  revert Hack. unfold ack_one at 1. destruct (get _ _ _) as [r| |] eqn:Hget; rsimpl; [|done..].
  apply get_ok in Hget as [Hg Hs]. pose proof (rows_get_id _ _ _ Hi Hg) as Hid.
  destruct (unfinished (jr_state r)) eqn:Hu; [done|]. destruct (_ || _) eqn:Htok; [done|]. bools.
  destruct (acked (jr_state r)) eqn:Ha; [done|].
  destruct (save _ _) as [db1| |] eqn:Hsv; rsimpl; [|done..]. intros [= <-].
  destruct (save_rows _ _ _ Hsv) as (b & Hnew & _). simpl jr_id in Hnew. rewrite Hid in Hnew.
  set (r1 := read_record _ _) in Hnew.
  assert (jr_state r1 = disposition_state d ∧ jr_final_state r1 = Some (jr_state r)
    ∧ jr_delivery_generation r1 = jr_delivery_generation r ∧ no_copies r1 ∧ acked (jr_state r1) = true)
    as (E1 & E2 & E3 & E4 & E5) by (by destruct d).
  pose proof (later_acked _ _ _ _ Hlater Hnew E5) as Hafter. split.
  - exists r, r1. split_and!; try done; try apply E4. by apply state_kinds.
  - intros token' d' Hj Hr. unfold ack_one, get, scoped. rewrite Hj, bool_decide_true by done. rsimpl.
    rewrite Hafter. rsimpl. rewrite E1, E3. destruct (Z.eqb_spec (tk_generation token') 0); [lia|].
    destruct (Z.ltb_spec (jr_delivery_generation r) (tk_generation token')); [lia|]. by destruct d.
Qed.

(** C26: erasing an owner reaches every job it owns, however many there are.
    Afterwards the owner index has no entry for it, and whatever calls follow
    each of those jobs is confirmed or marked erased, and holds no payload, no
    admission copy, no output and no owner. *)
Theorem jobs_purge_complete db cf scope now owner db' n calls :
  job_inv db → purge_owner db cf scope now owner = Ok (db', RespChanged n) →
  calls_env recovery_len db' calls →
  (∀ id, (scope, owner, id) ∉ job_owners db')
  ∧ ∀ id r, jobs db !! mkJobId scope id = Some (LiveRow r) → owner ∈ jr_owners r →
      ∃ r', rows_get (run_jobs recovery_len db' calls) (mkJobId scope id) = Some r'
        ∧ no_copies r' ∧ jr_owners r' = [] ∧ (acked (jr_state r') = true ∨ jr_purged r' = true).
Proof.
  intros Hi Hp Henv. destruct (purge_owner_effect _ _ _ _ _ _ _ Hi Hp) as (Hl & Hidx & Hrows).
  split; [done|]. intros id r Hr Ho. destruct (Hrows id r Hr Ho) as (r1 & Hr1 & Hp1).
  pose proof (run_jobs_later recovery_len db' calls (lf_inv _ _ _ Hl) Henv) as Hlater.
  eapply purged_forever; [apply Hl|exact Hlater|exact Hr1|exact Hp1].
Qed.

(** enqueuing is idempotent on the key.  After a key has been inserted,
    and whatever calls follow, enqueuing the same key again in that scope never
    inserts: with the same payload it joins the job while it is unconfirmed and
    afterwards returns its confirmed record; with another payload it is a key
    conflict. *)
Theorem jobs_enqueue_idempotent db cf scope now uuid spec db1 id calls cf' now' uuid' spec' :
  job_inv db → jobs db !! mkJobId scope uuid = None → 0 ≤ js_max_attempts spec ≤ u32_max →
  enqueue_spec db cf scope now uuid spec = Ok (db1, EnqInserted id) →
  calls_env recovery_len db1 calls →
  js_key spec' = js_key spec → js_kind spec' ≠ ""%string → 1 ≤ js_max_attempts spec' →
  is_ok (quantized (js_recovery_until spec')) = true →
  let after := run_jobs recovery_len db1 calls in
  ∃ r, rows_get after id = Some r ∧ jr_id r = id
  ∧ enqueue_spec after cf' scope now' uuid' spec' =
      if bool_decide (sha256_hex (js_payload spec) = sha256_hex (js_payload spec'))
      then Ok (after, if acked (jr_state r) then EnqAlreadyDone r else EnqJoined id)
      else Err EKeyConflict.
Proof.
  intros Hi Hn Hm Henq Henv Hkey Hkind Hmax Hq. cbv zeta.
  destruct (enqueue_spec_lawful _ _ _ _ _ _ _ _ Hi Hn Hm Henq) as [Hl _].
  pose proof (run_jobs_later recovery_len db1 calls (lf_inv _ _ _ Hl) Henv) as Hlater.
  destruct (enqueue_inserted _ _ _ _ _ _ _ _ Henq) as (r0 & Hr0 & Hid & Hsc & Hk0 & Hd0).
  destruct (later_row _ _ _ _ Hlater Hr0) as (r & Hr & Hle). exists r.
  destruct (jl_key _ _ Hle) as [Hk Hd].
  assert (jr_id r = id) as Hrid by (rewrite (jl_id _ _ Hle); done). split_and!; [done|done|].
  pose proof (by_key_row _ scope id r (proj1 Hlater) Hr Hsc) as Hby.
  unfold enqueue_spec. rewrite Hkey, <-Hk0, <-Hk, Hby.
  destruct (bool_decide (jr_key r = ""%string)) eqn:Ek.
  { exfalso. bools. revert Henq. unfold enqueue_spec. rewrite (bool_decide_true (js_key spec = ""%string)); [done|].
    congruence. }
  rewrite (bool_decide_false _ Hkind). destruct (Z.eqb_spec (js_max_attempts spec') 0); [lia|]. simpl orb.
  destruct (quantized _) as [q| |]; try done. rsimpl. rewrite Hd, Hd0, Hrid.
  by repeat case_bool_decide.
Qed.

(** a batch of new jobs never takes a scope over its ceiling of unconfirmed
    jobs. *)
Theorem jobs_live_bound db cf scope now uuids specs db' resp :
  job_inv db → enqueue_env db scope uuids 0 specs →
  apply_request recovery_len db cf scope now uuids (Enqueue specs) = Ok (db', resp) →
  live_count db' scope ≤ Z.max (live_count db scope) (cf_max_live_jobs cf).
Proof.
  intros Hi Henv. handler. walk. intros [= <- <-]. by eapply enqueue_specs_live.
Qed.

(** a page of candidates is a prefix of the waiting jobs, oldest first; its
    JSON array fits the requested bytes, and it is cut only before a row that
    fits a page of its own but not what is left of this one. *)
Theorem jobs_candidates_page db cf scope now uuids kinds limit max_bytes db' rows :
  job_inv db → 0 ≤ limit →
  apply_request recovery_len db cf scope now uuids (Candidates kinds limit max_bytes)
    = Ok (db', RespCandidates rows) →
  db' = db ∧ Z.of_nat (length rows) ≤ limit
  ∧ json_array_len (record_len <$> rows) ≤ max_bytes ≤ cf_max_page_bytes cf
  ∧ ∃ selected, select db scope (QPending kinds) now limit = Ok selected
    ∧ (rows = selected ∨ ∃ r post, selected = rows ++ r :: post
         ∧ max_bytes < json_array_len (record_len <$> rows ++ [r]) ∧ record_len r + 2 ≤ max_bytes).
Proof.
  intros Hi Hlim. handler. walk. intros [= <- <-]. unfold bytes_ok in *. bools.
  destruct (select_ok _ _ _ _ _ _ Hi E2) as (_ & _ & Hlen).
  destruct (fill_page_ok 2 max_bytes false a0 a1) as [Hfit Hcut]; [lia|done|].
  rewrite page_from_2 in Hfit. split_and!; [done| |done|done|].
  - assert (length a1 ≤ length a0)%nat; [|lia].
    destruct Hcut as [->|(r & post & -> & _)]; [done|]. rewrite length_app. lia.
  - exists a0. split; [done|]. destruct Hcut as [->|(r & post & -> & Hlt & Hsz)]; [by left|right].
    exists r, post. by rewrite <-page_from_2.
Qed.

(** a page of completions offers a prefix of the finished, unconfirmed jobs
    whose delivery lease is over, within the requested count and bytes.  Each
    offer carries the next delivery ordinal as its token and the stored output
    unless its retention has passed; the stored row records that ordinal and
    the new delivery lease, so no later page offers it before the lease is
    over; a row past its retention loses its copies, and no other row
    changes. *)
Theorem jobs_completions_page db cf scope now uuids limit max_bytes db' ds :
  job_inv db → 0 ≤ limit →
  apply_request recovery_len db cf scope now uuids (Completions limit max_bytes)
    = Ok (db', RespDeliveries ds) →
  ∃ until selected k,
    select db scope QFinal now limit = Ok selected
    ∧ ds = offer now until <$> take k selected
    ∧ Z.of_nat (length ds) ≤ limit
    ∧ json_array_len (offer_len now until <$> take k selected) ≤ max_bytes
    ∧ (∀ o, o ∈ take k selected →
         deadline now (cf_delivery_lease_seconds cf) = Ok until
         ∧ jobs db' !! jr_id o = Some (LiveRow (delivered_row now until o))
         ∧ ∀ t, t < until → query_filter db' QFinal t (delivered_row now until o) = false)
    ∧ ∀ id, id ∉ jr_id <$> take k selected → jobs db' !! id = jobs db !! id.
Proof.
  intros Hi Hlim. handler. unfold completions, inspect. walk. intros [= <- <-].
  destruct (select db scope QFinal now limit) as [sel| |] eqn:Esel; [|done..].
  injection E1 as <-. unfold bytes_ok in *. bools.
  destruct (final_selected _ _ _ _ _ Hi Esel) as (Hnd & Hrows & Hlen).
  destruct (admit_deliveries_page db cf now 2 max_bytes false sel a1) as
    [->|(until & k & Hd & -> & Hpage)]; [lia| |done| |].
  { intros o Ho. by apply (Hrows o Ho). }
  - injection E3 as <- <-. exists 0, sel, 0%nat. rewrite take_0. split_and!; try done.
    intros o Ho. by apply not_elem_of_nil in Ho.
  - rewrite page_from_2 in Hpage.
    destruct (send_deliveries_effect db scope now until (take k sel) j l Hi) as (-> & Hnew & Hold); [| |done|].
    { rewrite fmap_take. eapply sublist_NoDup; [exact Hnd|apply sublist_take]. }
    { intros o Ho. apply Hrows. eapply elem_of_submseteq; [exact Ho|apply submseteq_take]. }
    exists until, sel, k. split_and!; try done.
    + rewrite length_fmap, length_take. lia.
    + intros o Ho. split_and!; [done|by apply Hnew|]. intros t Ht. by apply delivered_not_offered.
Qed.

(** one maintenance pass erases the copies of the longest-expired results,
    at most a batch of them and at least one when there is any, marks exactly
    those rows and reports their number; every other row is untouched. *)
Theorem jobs_maintain_pass db cf scope now db' n :
  job_inv db → 1 ≤ cf_maintenance_batch cf →
  maintain recovery_len db cf scope now = Ok (db', RespChanged n) →
  ∃ selected, inspect db scope QExpired now (cf_maintenance_batch cf) = Ok selected
  ∧ 0 ≤ n ≤ cf_maintenance_batch cf ∧ (n = 0 ↔ selected = [])
  ∧ (∀ id, id ∈ ji_id <$> take (Z.to_nat n) selected →
       ∃ o, jobs db !! id = Some (LiveRow o) ∧ finished (jr_state o) = true
         ∧ jobs db' !! id = Some (LiveRow (expired_record o)))
  ∧ ∀ id, id ∉ ji_id <$> take (Z.to_nat n) selected → jobs db' !! id = jobs db !! id.
Proof.
  intros Hi Hb. unfold maintain. walk. intros [= <- <-]. exists a.
  destruct (inspect_final _ _ _ _ _ _ Hi (expired_query db now) E) as (Hnd & Hin & Hlen).
  destruct (maintain_rows_effect recovery_len db cf scope 0 0 a j z) as (k & -> & Hk & Hone & H1 & H2);
    [done|done| |done|done|].
  { intros i Hil. destruct (Hin i Hil) as (o & Ho & _). eauto. }
  rewrite Z.add_0_l, Nat2Z.id in *. split_and!; try done; try lia.
  - split; [|intros ->; simpl in Hk; lia]. intros Hk0. destruct a; [done|].
    assert (1 ≤ k)%nat by (by apply Hone). lia.
  - intros id Hid. destruct (H1 id Hid) as (o & (Ho & Hf & _) & Ho'). eauto.
Qed.

(** a completion is accepted only from the holder of the current claim, and
    then decides the job in one write: an uncertain charge keeps it unfinished;
    otherwise an erased job ends erased and a job asked to stop ends cancelled,
    whatever was reported, and any other takes the reported state.  The
    reported output is kept, unless the job's retention has passed or it was
    erased, and fits a page on its own; an output no page could carry is
    dropped, answered with its length, and turns the job into a failure. *)
Theorem jobs_complete_outcome db cf scope now job g state origin out receipt diagnostic db' resp :
  job_inv db →
  complete db cf scope now job g state origin out receipt diagnostic = Ok (db', resp) →
  ∃ r o b, rows_get db job = Some r ∧ live r g now = Ok tt
  ∧ jobs db' !! job = Some (LiveRow (set_output_bytes b o))
  ∧ let decided := if bool_decide (state = JUncertain) then JUncertain
                   else if jr_purged r then JPurged
                   else if jr_cancel_requested r then JCancelled else state in
    (resp = RespDone ∧ jr_state o = decided ∧ undeliverable o cf = Ok None
       ∧ (jr_output o = out
          ∨ jr_output o = None ∧ (jr_result_expired o = true ∨ jr_purged r = true ∨ state = JUncertain))
     ∨ ∃ n, resp = RespResultRefused n ∧ cf_max_page_bytes cf < n ∧ jr_output o = None
       ∧ jr_state o = if bool_decide (decided = JCancelled) then JCancelled else JFailed).
Proof. apply complete_outcome. Qed.

End Theorems.

(** ** Concrete tables *)

#[local] Existing Instance chrono_range.

(** A codec with fixed overheads. *)
Definition plain_codec : JobCodec := {|
  sha256_hex b := b;
  record_len r := 300 + opt_len (jr_payload r) + opt_len (jr_admission r) + opt_len (jr_output r);
  delivery_len d := 350 + opt_len (jr_output (dl_completion d));
  widest_delivery_len r := 400 + opt_len (jr_output r);
  output_len o := 2 + byte_len o;
  acks_len l := 2 + 120 * Z.of_nat (length l);
  meta_len scope key group owners kind execution n := 64;
  sql_meta_len scope key group owners kind execution n := 64;
|}.
#[local] Existing Instance plain_codec.

Definition no_recovery (receipt : string) : Z := 0.
Definition shop : JobScope := mkJobScope "tenant" "1" "shop".
Definition job_spec : JobSpec := mkJobSpec "key" None ["ann"] "resize" Handler "payload" None 2 None.
Definition job_ids (n : nat) : string := if (n =? 0)%nat then "a" else "b".
Definition job_a : JobId := mkJobId shop "a".
(** A call [s] seconds after the epoch. *)
Definition call_at (s : Z) (request : JobRequest) : JobCall :=
  mkJobCall default_config shop (mkRawTime s 0) job_ids request.

Definition enqueue_call : JobCall := call_at 1 (Enqueue [job_spec]).
Definition claim_call (s : Z) : JobCall := call_at s (Claim ["resize"] 1).
Definition complete_call : JobCall :=
  call_at 40 (Complete job_a 2 JSucceeded OriginHandler (Some "result") None None).
Definition deliver_call : JobCall := call_at 41 (Completions 10 4096).
(** Enqueued; claimed, and claimed again after the lease ran out; completed;
    delivered. *)
Definition story : list JobCall :=
  [enqueue_call; claim_call 2; claim_call 35; complete_call; deliver_call].
Definition after (n : nat) : JobDb := run_jobs no_recovery initialize (take n story).
(** The job as stored after [n] calls. *)
Definition job_at (n : nat) : JobRecord :=
  default (new_job job_a "" None 0 job_spec) (rows_get (after n) job_a).

(** Runs a closed call to its response [a], keeping the new tables [db]
    abstract. *)
Ltac respond c a db E :=
  let H := fresh in
  assert (answer c = Some a) as H by (vm_compute; reflexivity);
  destruct (answered c a H) as [db E]; clear H.

Lemma story_env n : calls_env no_recovery initialize (take n story).
Proof.
  assert (request_env initialize shop job_ids (Enqueue [job_spec])) as He.
  { split_and!.
    - intros m _. apply lookup_empty.
    - simpl. lia.
    - intros spec ->%list_elem_of_singleton. unfold u32_max. simpl. lia. }
  do 6 (destruct n as [|n]; [by repeat (split; [done|])|]). by repeat (split; [done|]).
Qed.

Lemma after_inv n : job_inv (after n).
Proof. apply (run_jobs_later no_recovery initialize _ initialize_inv (story_env n)). Qed.

Lemma jobs_calls_lawful_witness :
  job_inv (run_jobs no_recovery initialize (take 2 story ++ drop 2 story))
  ∧ jr_state (job_at 5) = JSucceeded ∧ jr_delivery_generation (job_at 5) = 1.
Proof.
  split; [|by vm_compute].
  exact (proj1 (jobs_calls_lawful no_recovery (take 2 story) (drop 2 story) (story_env 5))).
Defined.

Lemma jobs_fence_witness :
  apply_request no_recovery (after 4) default_config shop 40000 job_ids (Heartbeat job_a 1)
    = Err EStaleClaim.
Proof.
  refine (proj1 (jobs_fence no_recovery (after 3) [complete_call] job_a (job_at 3) 1 default_config
    40000 job_ids (after_inv 3) _ _ _)).
  - by split.
  - by vm_compute.
  - by vm_compute.
Defined.

Lemma jobs_claim_serves_witness :
  ∃ db', apply_request no_recovery (after 1) default_config shop 2000 job_ids (Claim ["resize"] 1)
    = Ok (db', RespJob (Some (job_at 2))) ∧ jr_generation (job_at 2) = 1 ∧ is_Some (jobs db' !! job_a).
Proof.
  respond (apply_request no_recovery (after 1) default_config shop 2000 job_ids
    (Claim ["resize"] 1)) (RespJob (Some (job_at 2))) db' E.
  exists db'. split_and!; [exact E|by vm_compute|].
  destruct (jobs_claim_serves no_recovery (after 1) default_config shop 2000 job_ids ["resize"] 1 db'
    (job_at 2) (after_inv 1) E) as (pre & r & post & until & Hs & _ & _ & _ & _ & _ & _ & [b Hb] & _).
  clear E. vm_compute in Hs. destruct pre as [|x [|y pre]]; [|discriminate Hs..].
  injection Hs as <- <-. eexists. exact Hb.
Defined.

Lemma jobs_ack_once_witness :
  ∃ db', ack_one (after 5) shop (mkToken job_a 1) DAccepted = Ok (db', Acked DAccepted)
  ∧ ack_one db' shop (mkToken job_a 1) DDiscarded = Ok (db', AlreadyAcked DAccepted).
Proof.
  respond (ack_one (after 5) shop (mkToken job_a 1) DAccepted) (Acked DAccepted) db' E.
  exists db'. split; [exact E|].
  refine (proj2 (jobs_ack_once no_recovery (after 5) shop (mkToken job_a 1) DAccepted db' []
    (after_inv 5) E I) (mkToken job_a 1) DDiscarded eq_refl _).
  simpl. lia.
Defined.

Lemma jobs_purge_complete_witness :
  ∃ db', purge_owner (after 4) default_config shop 41000 "ann" = Ok (db', RespChanged 1)
  ∧ ∃ r', rows_get db' job_a = Some r' ∧ no_copies r'.
Proof.
  respond (purge_owner (after 4) default_config shop 41000 "ann") (RespChanged 1) db' E.
  exists db'. split; [exact E|].
  destruct (jobs_purge_complete no_recovery (after 4) default_config shop 41000 "ann" db' 1 []
    (after_inv 4) E I) as [_ Hrows].
  destruct (Hrows "a"%string (job_at 4)) as (r' & Hr' & Hc & _); [by vm_compute|vm_compute; left|].
  exists r'. split; [exact Hr'|exact Hc].
Defined.

Lemma jobs_enqueue_idempotent_witness :
  ∃ db1 r, enqueue_spec initialize default_config shop 1000 "a" job_spec = Ok (db1, EnqInserted job_a)
  ∧ rows_get db1 job_a = Some r
  ∧ enqueue_spec db1 default_config shop 50000 "c" job_spec
    = Ok (db1, if acked (jr_state r) then EnqAlreadyDone r else EnqJoined job_a).
Proof.
  respond (enqueue_spec initialize default_config shop 1000 "a" job_spec) (EnqInserted job_a) db1 E.
  destruct (jobs_enqueue_idempotent no_recovery initialize default_config shop 1000 "a" job_spec db1
    job_a [] default_config 50000 "c" job_spec initialize_inv (lookup_empty _) ltac:(by vm_compute) E I
    eq_refl ltac:(done) ltac:(by vm_compute) eq_refl) as (r & Hr & _ & Hsame).
  exists db1, r. split_and!; [exact E|exact Hr|exact Hsame].
Defined.

Lemma jobs_live_bound_witness :
  ∃ db', apply_request no_recovery initialize default_config shop 1000 job_ids (Enqueue [job_spec])
    = Ok (db', RespEnqueued [EnqInserted job_a]) ∧ live_count db' shop ≤ 1024.
Proof.
  respond (apply_request no_recovery initialize default_config shop 1000 job_ids
    (Enqueue [job_spec])) (RespEnqueued [EnqInserted job_a]) db' E.
  exists db'. split; [exact E|].
  exact (jobs_live_bound no_recovery initialize default_config shop 1000 job_ids [job_spec] db'
    (RespEnqueued [EnqInserted job_a]) initialize_inv (proj1 (story_env 1)) E).
Defined.

Lemma jobs_candidates_page_witness :
  ∃ db', apply_request no_recovery (after 1) default_config shop 2000 job_ids (Candidates ["resize"] 10 400)
    = Ok (db', RespCandidates [job_at 1]) ∧ json_array_len [record_len (job_at 1)] ≤ 400.
Proof.
  respond (apply_request no_recovery (after 1) default_config shop 2000 job_ids
    (Candidates ["resize"] 10 400)) (RespCandidates [job_at 1]) db' E.
  exists db'. split; [exact E|].
  exact (proj1 (proj1 (proj2 (proj2 (jobs_candidates_page no_recovery (after 1) default_config shop 2000
    job_ids ["resize"] 10 400 db' [job_at 1] (after_inv 1) ltac:(lia) E))))).
Defined.

Lemma jobs_completions_page_witness :
  ∃ db' ds, apply_request no_recovery (after 4) default_config shop 41000 job_ids (Completions 10 4096)
    = Ok (db', RespDeliveries ds) ∧ length ds = 1%nat
  ∧ ∃ o, jobs db' !! job_a = Some (LiveRow (delivered_row 41000 71000 o)).
Proof.
  respond (apply_request no_recovery (after 4) default_config shop 41000 job_ids
    (Completions 10 4096)) (RespDeliveries [offer 41000 71000 (job_at 4)]) db' E.
  exists db', [offer 41000 71000 (job_at 4)]. split_and!; [exact E|reflexivity|].
  destruct (jobs_completions_page no_recovery (after 4) default_config shop 41000 job_ids 10 4096 db'
    [offer 41000 71000 (job_at 4)] (after_inv 4) ltac:(lia) E) as (until & sel & k & Hsel & Hds & _ & _ & Hrows & _).
  clear E. assert (sel = [job_at 4]) as -> by (vm_compute in Hsel |- *; by injection Hsel as <-).
  destruct k as [|k]; [discriminate Hds|]. destruct (Hrows (job_at 4)) as (Hd & Hrow & _); [left|].
  assert (until = 71000) as -> by (vm_compute in Hd; by injection Hd as <-).
  exists (job_at 4). exact Hrow.
Defined.

Lemma jobs_maintain_pass_witness :
  ∃ db', maintain no_recovery (after 5) default_config shop 700000000 = Ok (db', RespChanged 1)
  ∧ ∃ o, jobs db' !! job_a = Some (LiveRow (expired_record o)).
Proof.
  respond (maintain no_recovery (after 5) default_config shop 700000000) (RespChanged 1) db' E.
  exists db'. split; [exact E|].
  destruct (jobs_maintain_pass no_recovery (after 5) default_config shop 700000000 db' 1 (after_inv 5)
    ltac:(by vm_compute) E) as (sel & Hs & _ & _ & Hrows & _).
  destruct (Hrows job_a) as (o & _ & _ & Ho); [|exists o; exact Ho].
  clear E Hrows. vm_compute in Hs. injection Hs as <-. left.
Defined.

Lemma jobs_complete_outcome_witness :
  ∃ db' r o b, complete (after 3) default_config shop 40000 job_a 2 JSucceeded OriginHandler
    (Some "result"%string) None None = Ok (db', RespDone)
  ∧ rows_get (after 3) job_a = Some r ∧ live r 2 40000 = Ok tt
  ∧ jobs db' !! job_a = Some (LiveRow (set_output_bytes b o)).
Proof.
  respond (complete (after 3) default_config shop 40000 job_a 2 JSucceeded OriginHandler
    (Some "result"%string) None None) RespDone db' E.
  destruct (jobs_complete_outcome (after 3) default_config shop 40000 job_a 2 JSucceeded OriginHandler
    (Some "result"%string) None None db' RespDone (after_inv 3) E) as (r & o & b & H1 & H2 & H3 & _).
  exists db', r, o, b. split_and!; [exact E|exact H1|exact H2|exact H3].
Defined.
