(* ===== verification/JobRunner.v ===== *)
(** [symbiotic-queue], [runner.rs]: the pool of handler workers over the job
    store, as a step function on the shared tables and the workers' states.

    A worker is about to look at the stop signal, has a request under way that
    it sent after it last looked, executes a claim, has ended, or was joined by
    the supervisor.  Its events are the look at the stop signal and the points
    at which the store serves it: the request, a heartbeat and the end of the
    handler.  The stop signal may be raised while a request is under way: the
    worker then still takes what the store answers.  A heartbeat is one step, its store call and
    what the worker does with the answer: the code waits for the answer of a
    heartbeat it sent before it completes the claim, so no other call of the
    same worker comes between.  The handler itself is the parameter of the end
    event: any outcome, at any time.  Events of different workers, of the
    maintenance task, of the supervisor and of other clients of the store
    interleave freely. *)

From Stdlib Require Import ZArith Lia.
From stdpp Require Import base gmap strings list.
From S2P Require Import Prelude Core JobTypes JobStore JobInv JobProofs JobHistory.

#[local] Open Scope Z_scope.

(** ** Configuration *)

Record RunnerConfig : Type := mkRunnerConfig {
  rn_version : Z;
  rn_worker_count : Z;
  rn_poll_interval_ms : Z;
  rn_heartbeat_interval_ms : option Z;
  rn_maintenance_interval_ms : Z;
}.

Definition default_runner_config : RunnerConfig := mkRunnerConfig 1 4 100 None 60000.

(** The effective heartbeat interval, a [Duration] in nanoseconds, and the
    checks of [JobRunner::start]. *)
Definition heartbeat_interval (config : RunnerConfig) (jobs : JobConfig) : Z :=
  match rn_heartbeat_interval_ms config with
  | Some ms => ms * 1000000
  | None => cf_claim_lease_seconds jobs * nanos_per_second / 3
  end.

Definition runner_refused (config : RunnerConfig) (jobs : JobConfig) (kind : string) : bool :=
  let lease := cf_claim_lease_seconds jobs * nanos_per_second in
  let heartbeat := heartbeat_interval config jobs in
  negb (rn_version config =? 1) || (rn_worker_count config =? 0) || (rn_poll_interval_ms config =? 0)
  || (heartbeat =? 0) || (lease / 2 <? heartbeat) || (rn_maintenance_interval_ms config =? 0)
  || bool_decide (kind = ""%string).

(** ** Errors *)

Inductive RunnerError : Type :=
| RStore (e : JobError)
| RMonitoring (cause : JobError) (count : Z)
| RHandlerPanicked (job : JobId)
| RWorkerTask
| RWorkers (errors : list RunnerError).

(** One more failed heartbeat with this cause: counted on the entry it has, or
    a new entry. *)
Fixpoint note_failure (error : JobError) (errors : list RunnerError) : list RunnerError :=
  match errors with
  | [] => [RMonitoring error 1]
  | RMonitoring cause count :: errors =>
      if bool_decide (cause = error) then RMonitoring cause (count + 1) :: errors
      else RMonitoring cause count :: note_failure error errors
  | other :: errors => other :: note_failure error errors
  end.

(** [observe_heartbeat]: whether the claim is fenced, the cancellation signal
    and the errors after it. *)
Definition observe_heartbeat (response : JobResponse + JobError) (cancel : bool) (errors : list RunnerError) :
    bool * bool * list RunnerError :=
  match response with
  | inl (RespHeartbeat requested) => (false, cancel || requested, errors)
  | inl _ => (false, cancel, note_failure EInvalidRequest errors)
  | inr error =>
      let fenced := bool_decide (error = EStaleClaim) in
      (fenced, cancel || fenced, note_failure error errors)
  end.

(** ** Workers *)

(** How the handler task ended: with output, with a failure, by a panic, or
    lost. *)
Inductive HandlerEnd : Type :=
| Returned (output : Bytes)
| HandlerFailed (code : DiagnosticCode)
| HandlerPanic
| HandlerGone.

(** One execution: the claim without its payload, what the handler was given,
    the cancellation signal, whether the fence was met, the errors so far. *)
Record HandlerRun : Type := mkHandlerRun {
  ex_claim : JobRecord;
  ex_payload : Bytes;
  ex_cancel : bool;
  ex_fenced : bool;
  ex_errors : list RunnerError;
}.

Inductive Worker : Type :=
| Polling
| Requesting
| Executing (e : HandlerRun)
| Ended (r : result RunnerError unit)
| Joined.

Record Shared : Type := mkShared {
  sh_scope : JobScope;
  sh_jobs : JobConfig;
  sh_kind : string;
}.

Section Runner.
Context `{!Chrono} `{!JobCodec}.
Variable recovery_len : string → Z.
Variable sh : Shared.

(** [Shared::op].  A panic in the store ends the task that called it. *)
Definition runner_op (db : JobDb) (clock : RawTime) (request : JobRequest) :
    JobDb * result JobError JobResponse :=
  jobs_in_transaction recovery_len db (sh_jobs sh) (sh_scope sh) clock (λ _, ""%string) request.

(** What [execute] does before it starts the handler. *)
Definition begin_execution (claim : JobRecord) : Worker :=
  if negb (bool_decide (jr_execution claim = Handler)) then Ended (Err (RStore EInvalidRequest))
  else match jr_payload claim with
       | None => Ended (Err (RStore EInvalidRequest))
       | Some payload => Executing (mkHandlerRun (set_payload None claim) payload false false [])
       end.

(** The head of the loops of [worker] and [maintain]: stop, or send the request. *)
Definition look (stop : bool) : Worker := if stop then Ended (Ok tt) else Requesting.

(** The claim request of [worker]. *)
Definition claim_step (db : JobDb) (clock : RawTime) : JobDb * Worker :=
  let '(db, response) := runner_op db clock (Claim [sh_kind sh] 1) in
  (db, match response with
       | Ok (RespJob (Some row)) => begin_execution row
       | Ok (RespJob None) => Polling
       | Ok _ => Ended (Err (RStore EInvalidRequest))
       | Err e => Ended (Err (RStore e))
       | Panic => Ended Panic
       end).

(** A heartbeat of a running handler. *)
Definition beat_step (db : JobDb) (clock : RawTime) (e : HandlerRun) : JobDb * Worker :=
  let '(db, response) :=
    runner_op db clock (Heartbeat (jr_id (ex_claim e)) (jr_generation (ex_claim e))) in
  (db, match match response with Ok r => Some (inl r) | Err err => Some (inr err) | Panic => None end with
       | Some response =>
           let '(fenced, cancel, errors) := observe_heartbeat response (ex_cancel e) (ex_errors e) in
           Executing (mkHandlerRun (ex_claim e) (ex_payload e) cancel fenced errors)
       | None => Ended Panic
       end).

(** What the end of the handler reports to the store, and the errors noted. *)
Definition report (e : HandlerRun) (outcome : HandlerEnd) :
    list RunnerError * option (JobState * option Bytes * option DiagnosticCode) :=
  match outcome with
  | Returned output =>
      if cf_max_result_bytes (sh_jobs sh) <? byte_len output
      then (ex_errors e ++ [RStore (EResultTooLarge (jr_id (ex_claim e)) (byte_len output))],
            Some (JFailed, None, Some QueueFailure))
      else (ex_errors e, Some (JSucceeded, Some output, None))
  | HandlerFailed code => (ex_errors e, Some (JFailed, None, Some code))
  | HandlerPanic =>
      (ex_errors e ++ [RHandlerPanicked (jr_id (ex_claim e))], Some (JFailed, None, Some QueueFailure))
  | HandlerGone => (ex_errors e ++ [RWorkerTask], None)
  end.

(** The rest of [execute] after the handler ended. *)
Definition end_step (db : JobDb) (clock : RawTime) (e : HandlerRun) (outcome : HandlerEnd) : JobDb * Worker :=
  match report e outcome with
  | (errors, None) => (db, Ended (Err (RWorkers errors)))
  | (errors, Some (state, output, diagnostic)) =>
      let claim := ex_claim e in
      let '(db, completion) :=
        runner_op db clock
          (Complete (jr_id claim) (jr_generation claim) state OriginHandler output None diagnostic) in
      let done errors := match errors with [] => Polling | _ => Ended (Err (RWorkers errors)) end in
      (db, match completion with
           | Ok RespDone => done errors
           | Ok (RespResultRefused bytes) => done (errors ++ [RStore (EResultTooLarge (jr_id claim) bytes)])
           | Ok _ => done (errors ++ [RStore EInvalidRequest])
           | Err err => done (errors ++ [RStore err])
           | Panic => Ended Panic
           end)
  end.

(** The request of [maintain]. *)
Definition maintain_step (db : JobDb) (clock : RawTime) : JobDb * Worker :=
  let '(db, response) := runner_op db clock Maintain in
  (db, match response with
       | Ok (RespChanged _) => Polling
       | Ok _ => Ended (Err (RStore EInvalidRequest))
       | Err e => Ended (Err (RStore e))
       | Panic => Ended Panic
       end).

(** ** The pool *)

(** The tables, the tasks (the first is maintenance), the stop signal and the
    errors the supervisor has collected. *)
Record Pool : Type := mkPool {
  pl_db : JobDb;
  pl_maintenance : Worker;
  pl_workers : list Worker;
  pl_stop : bool;
  pl_errors : list RunnerError;
}.

Inductive PoolEvent : Type :=
| Look (i : nat)
| Served (i : nat) (clock : RawTime)
| Beat (i : nat) (clock : RawTime)
| HandlerDone (i : nat) (clock : RawTime) (outcome : HandlerEnd)
| LookMaintenance
| Maintained (clock : RawTime)
| Join (i : nat)
| JoinMaintenance
| Shutdown
| Client (c : JobCall).

(** What the supervisor notes when a task ends: its error, or [WorkerTask] for a
    panic. *)
Definition join_errors (r : result RunnerError unit) : list RunnerError :=
  match r with Ok _ => [] | Err e => [e] | Panic => [RWorkerTask] end.

Definition set_maintenance (p : Pool) (next : JobDb * Worker) : Pool :=
  mkPool next.1 next.2 (pl_workers p) (pl_stop p) (pl_errors p).

Definition set_worker (i : nat) (p : Pool) (next : JobDb * Worker) : Pool :=
  mkPool next.1 (pl_maintenance p) (<[i := next.2]> (pl_workers p)) (pl_stop p) (pl_errors p).

(** Errors collected so far, and the stop signal they raise. *)
Definition collect (errors : list RunnerError) (p : Pool) : Pool :=
  let errors := pl_errors p ++ errors in
  mkPool (pl_db p) (pl_maintenance p) (pl_workers p)
    (pl_stop p || negb (bool_decide (length errors = 0%nat))) errors.

(** An event the pool is not ready for leaves it as it is. *)
Definition pool_step (p : Pool) (ev : PoolEvent) : Pool :=
  match ev with
  | Look i =>
      match pl_workers p !! i with
      | Some Polling => set_worker i p (pl_db p, look (pl_stop p))
      | _ => p
      end
  | Served i clock =>
      match pl_workers p !! i with
      | Some Requesting => set_worker i p (claim_step (pl_db p) clock)
      | _ => p
      end
  | Beat i clock =>
      match pl_workers p !! i with
      | Some (Executing e) => if ex_fenced e then p else set_worker i p (beat_step (pl_db p) clock e)
      | _ => p
      end
  | HandlerDone i clock outcome =>
      match pl_workers p !! i with
      | Some (Executing e) => set_worker i p (end_step (pl_db p) clock e outcome)
      | _ => p
      end
  | LookMaintenance =>
      match pl_maintenance p with
      | Polling => set_maintenance p (pl_db p, look (pl_stop p))
      | _ => p
      end
  | Maintained clock =>
      match pl_maintenance p with
      | Requesting => set_maintenance p (maintain_step (pl_db p) clock)
      | _ => p
      end
  | Join i =>
      match pl_workers p !! i with
      | Some (Ended r) => collect (join_errors r) (set_worker i p (pl_db p, Joined))
      | _ => p
      end
  | JoinMaintenance =>
      match pl_maintenance p with
      | Ended r => collect (join_errors r) (set_maintenance p (pl_db p, Joined))
      | _ => p
      end
  | Shutdown => mkPool (pl_db p) (pl_maintenance p) (pl_workers p) true (pl_errors p)
  | Client c =>
      mkPool (call_step recovery_len (pl_db p) c).1 (pl_maintenance p) (pl_workers p) (pl_stop p) (pl_errors p)
  end.

Fixpoint run_pool (p : Pool) (events : list PoolEvent) : Pool :=
  match events with
  | [] => p
  | ev :: events => run_pool (pool_step p ev) events
  end.

(** [start_owned]: [count] workers and the maintenance task. *)
Definition start_owned (db : JobDb) (count : nat) : Pool :=
  mkPool db Polling (replicate count Polling) false [].

(** [JobRunner::start]: the checks, one call to the store, and the pool. *)
Definition runner_start (db : JobDb) (clock : RawTime) (config : RunnerConfig) : JobDb * result RunnerError Pool :=
  if runner_refused config (sh_jobs sh) (sh_kind sh) then (db, Err (RStore EInvalidRequest))
  else
    let '(db, response) := runner_op db clock AskUsage in
    (db, match response with
         | Ok (RespUsage _) => Ok (start_owned db (Z.to_nat (rn_worker_count config)))
         | Ok _ => Err (RStore EInvalidRequest)
         | Err e => Err (RStore e)
         | Panic => Panic
         end).

(** What the supervising task returns, once every task is joined. *)
Definition pool_result (p : Pool) : option (result RunnerError unit) :=
  match pl_maintenance p with
  | Joined =>
      if forallb (λ w, match w with Joined => true | _ => false end) (pl_workers p)
      then Some (match pl_errors p with [] => Ok tt | errors => Err (RWorkers errors) end)
      else None
  | _ => None
  end.

End Runner.
