(* ===== verification/JobRunnerProofs.v ===== *)
(** The pool of handler workers: what each event does to the tables and to the
    claims the workers hold. *)

From Stdlib Require Import ZArith Lia.
From stdpp Require Import base gmap strings list.
From S2P Require Import Prelude Core JobTypes JobStore JobInv JobProofs JobLawful JobRequests JobHistory JobPages JobRunner.

#[local] Open Scope Z_scope.

(** ** Counting failed heartbeats *)

(** The failures counted under a cause. *)
Definition counted (cause : JobError) (errors : list RunnerError) : Z :=
  foldr (λ e n, match e with
                | RMonitoring c count => if bool_decide (c = cause) then count + n else n
                | _ => n
                end) 0 errors.

(** The causes with an entry of their own. *)
Definition causes (errors : list RunnerError) : list JobError :=
  omap (λ e, match e with RMonitoring c _ => Some c | _ => None end) errors.

Lemma counted_note cause error errors :
  counted cause (note_failure error errors) = counted cause errors + (if bool_decide (error = cause) then 1 else 0).
Proof.
  induction errors as [|[e|c n|j| |l] errors IH]; simpl; try done.
  destruct (decide (c = error)) as [->|Hne].
  - rewrite (bool_decide_true (error = error)) by done. simpl. case_bool_decide; lia.
  - rewrite (bool_decide_false (c = error)) by done. simpl. rewrite IH.
    case_bool_decide; case_bool_decide; lia.
Qed.

Lemma causes_note error errors :
  causes (note_failure error errors) = if bool_decide (error ∈ causes errors) then causes errors
                                       else causes errors ++ [error].
Proof.
  induction errors as [|[e|c n|j| |l] errors IH]; try done.
  change (causes (RMonitoring c n :: errors)) with (c :: causes errors). simpl.
  destruct (decide (c = error)) as [->|Hne].
  - rewrite (bool_decide_true (error = error)) by done.
    rewrite (bool_decide_true (error ∈ error :: causes errors)) by left. done.
  - rewrite (bool_decide_false (c = error)) by done.
    change (causes (RMonitoring c n :: note_failure error errors)) with (c :: causes (note_failure error errors)).
    rewrite IH. destruct (decide (error ∈ causes errors)) as [Hin|Hout].
    + rewrite !bool_decide_true; [done|by right|done].
    + rewrite !bool_decide_false; [done|by intros [->|?]%elem_of_cons|done].
Qed.

Lemma causes_note_nodup error errors : NoDup (causes errors) → NoDup (causes (note_failure error errors)).
Proof.
  rewrite causes_note. case_bool_decide as Hin; [done|]. intros Hnd. apply NoDup_app. split_and!; [done| |].
  - intros c Hc ->%list_elem_of_singleton. done.
  - apply NoDup_singleton.
Qed.

Section Runner.
Context `{!Chrono} `{!JobCodec}.
Variable recovery_len : string → Z.
Variable sh : Shared.
Implicit Types (db : JobDb) (p : Pool).

Lemma runner_op_lawful db clock request :
  job_inv db → (∀ specs, request ≠ Enqueue specs) →
  lawful (sh_scope sh) db (runner_op recovery_len sh db clock request).1.
Proof.
  intros Hi Hne.
  apply (call_step_lawful recovery_len db (mkJobCall (sh_jobs sh) (sh_scope sh) clock (λ _, ""%string) request) Hi).
  destruct request; try done. by destruct (Hne specs).
Qed.

(** A call that answers ran its handler. *)
Lemma runner_op_ok db clock request db' resp :
  runner_op recovery_len sh db clock request = (db', Ok resp) →
  ∃ now, apply_request recovery_len db (sh_jobs sh) (sh_scope sh) now (λ _, ""%string) request = Ok (db', resp).
Proof.
  unfold runner_op, jobs_in_transaction.
  destruct (apply_job_request _ _ _ _ _ _ _) as [[db1 r]| |] eqn:E; [|done..]. intros [= <- <-].
  revert E. unfold apply_job_request.
  destruct (millisecond_time clock) as [now| |]; rsimpl; [|done..]. destruct (config_refused _ _); [done|].
  destruct (deadline _ (cf_claim_lease_seconds _)); rsimpl; [|done..].
  destruct (deadline _ (cf_delivery_lease_seconds _)); rsimpl; [|done..].
  destruct (deadline _ (cf_retention_seconds _)); rsimpl; [|done..]. eauto.
Qed.

(** A call that fails leaves the tables. *)
Lemma runner_op_not_ok db clock request db' r :
  runner_op recovery_len sh db clock request = (db', r) → (∀ a, r ≠ Ok a) → db' = db.
Proof.
  unfold runner_op, jobs_in_transaction. destruct (apply_job_request _ _ _ _ _ _ _) as [[db1 a]| |];
    intros [= <- <-] Hr; [by destruct (Hr a)|done..].
Qed.

(** A claim moves its job one generation on. *)
Lemma runner_claim db clock db' row :
  job_inv db → runner_op recovery_len sh db clock (Claim [sh_kind sh] 1) = (db', Ok (RespJob (Some row))) →
  ∃ r, rows_get db (jr_id row) = Some r ∧ acked (jr_state r) = false
    ∧ jr_generation row = jr_generation r + 1 ∧ jr_kind row = sh_kind sh ∧ jid_scope (jr_id row) = sh_scope sh
    ∧ jr_payload row = jr_payload r
    ∧ ∃ r', rows_get db' (jr_id row) = Some r' ∧ jr_generation r' = jr_generation row.
Proof.
  intros Hi [now E]%runner_op_ok. revert E. handler. walk. change (1 =? 0) with false. cbv iota. walk. intros [= <- ->].
  destruct (select_ok _ _ _ _ _ _ Hi E0) as (Hst & Hq & _).
  destruct (claim_first_serves db (sh_jobs sh) (sh_scope sh) now a j row Hi Hst) as
    (pre & r & post & until & -> & _ & -> & _ & _ & [b Hrow] & _); [|done|].
  { intros o Ho. by eapply pending_claimable, Hq. }
  assert (r ∈ pre ++ r :: post) as Hin by set_solver.
  destruct (pending_claimable db [sh_kind sh] now r) as [Hc Hk]; [by apply Hq|].
  destruct (proj2 Hst r Hin) as [Hg Hs]. exists r. simpl. split_and!; try done.
  - revert Hc. unfold claimable. by destruct (jr_state r).
  - by apply list_elem_of_singleton in Hk.
  - unfold rows_get. rewrite Hrow. simpl. eauto.
Qed.

(** ** The claims workers hold *)

(** The attempt an execution is for. *)
Definition run_attempt (e : HandlerRun) : JobId * Z := (jr_id (ex_claim e), jr_generation (ex_claim e)).

(** The job of a claim exists and has not gone back before it. *)
Definition held (db : JobDb) (e : HandlerRun) : Prop :=
  jr_kind (ex_claim e) = sh_kind sh ∧ jid_scope (jr_id (ex_claim e)) = sh_scope sh
  ∧ ∃ r, rows_get db (jr_id (ex_claim e)) = Some r
         ∧ (acked (jr_state r) = true ∨ jr_generation (ex_claim e) ≤ jr_generation r).

Record pool_ok p : Prop := {
  po_db : job_inv (pl_db p);
  po_held i e : pl_workers p !! i = Some (Executing e) → held (pl_db p) e;
  po_exclusive i j e f : i ≠ j → pl_workers p !! i = Some (Executing e) →
    pl_workers p !! j = Some (Executing f) → run_attempt e ≠ run_attempt f;
}.

Lemma held_later db db' e : later db db' → held db e → held db' e.
Proof.
  intros Hl (Hk & Hs & r & Hg & Hr). destruct (later_row _ _ _ _ Hl Hg) as (r' & Hg' & Hle).
  split_and!; [done|done|]. exists r'. split; [done|]. destruct (acked (jr_state r')) eqn:Ha; [by left|right].
  destruct Hr as [Hr|Hr]; [rewrite (jl_acked _ _ Hle Hr) in Ha; congruence|].
  pose proof (jl_fence _ _ Hle Ha). lia.
Qed.

(** A worker's step keeps the claims apart when it keeps its own or takes a new
    one. *)
Lemma set_worker_ok i p next :
  pool_ok p → later (pl_db p) next.1 →
  (∀ e', next.2 = Executing e' →
     (∃ e, pl_workers p !! i = Some (Executing e) ∧ ex_claim e' = ex_claim e)
     ∨ held next.1 e' ∧ ∀ f, held (pl_db p) f → run_attempt f ≠ run_attempt e') →
  pool_ok (set_worker i p next).
Proof.
  intros [Hi Hheld Hex] Hl Hnew. split; simpl.
  - apply Hl.
  - intros j e He. destruct (decide (i = j)) as [<-|Hne].
    + apply list_lookup_insert_Some in He as [(_ & He & _)|(Hne & _)]; [|done].
      destruct (Hnew e He) as [(e0 & Hlk & Hc)|[Hh _]]; [|done].
      eapply held_later; [done|]. specialize (Hheld i e0 Hlk). unfold held in *. by rewrite Hc.
    + rewrite list_lookup_insert_ne in He by done. eapply held_later; [done|]. by eapply Hheld.
  - assert (∀ j e f, i ≠ j → next.2 = Executing e → pl_workers p !! j = Some (Executing f) →
              run_attempt e ≠ run_attempt f) as Hone.
    { intros j e f Hne He Hf. destruct (Hnew e He) as [(e0 & Hlk & Hc)|[_ Hfr]].
      - specialize (Hex i j e0 f Hne Hlk Hf). unfold run_attempt in *. by rewrite Hc.
      - intros Heq. by apply (Hfr f (Hheld j f Hf)). }
    intros j k e f Hjk He Hf. apply list_lookup_insert_Some in He as [(<- & He & _)|(Hj & He)];
      apply list_lookup_insert_Some in Hf as [(<- & Hf & _)|(Hk & Hf)]; [done| | |].
    + by apply (Hone k).
    + intros Heq. by apply (Hone j f e).
    + by apply (Hex j k).
Qed.

Lemma later_refl db : job_inv db → later db db.
Proof. intros Hi. split; [done|]. intros id. apply job_evolves_refl. Qed.

Lemma claim_step_ok db clock next :
  job_inv db → claim_step recovery_len sh db clock = next →
  later db next.1
  ∧ ∀ e, next.2 = Executing e → held next.1 e ∧ (∀ f, held db f → run_attempt f ≠ run_attempt e)
      ∧ jr_execution (ex_claim e) = Handler.
Proof.
  intros Hi <-. unfold claim_step.
  pose proof (runner_op_lawful db clock (Claim [sh_kind sh] 1) Hi ltac:(done)) as Hlaw.
  destruct (runner_op _ _ _ _ _) as [db' resp] eqn:E. simpl in *.
  split; [by eapply lawful_later|]. intros e. destruct resp as [[| [row|] | | | | | | | | |]| |]; try done.
  unfold begin_execution. destruct (decide (jr_execution row = Handler)) as [Hex|Hex];
    [rewrite bool_decide_true by done|by rewrite bool_decide_false].
  simpl. destruct (jr_payload row) as [payload|]; [|done]. intros [= <-]. simpl.
  destruct (runner_claim db clock db' row Hi E) as (r & Hg & Ha & Hgen & Hk & Hs & _ & r' & Hg' & Hgen').
  split_and!; [| |done].
  - split_and!; [done|done|]. exists r'. simpl. split; [done|right]. lia.
  - intros f (_ & _ & r1 & Hg1 & Hr1) [= Hid Hg2]. rewrite Hid in Hg1. simplify_eq.
    destruct Hr1 as [Hr1|Hr1]; [congruence|lia].
Qed.

Lemma beat_step_ok db clock e next :
  job_inv db → beat_step recovery_len sh db clock e = next →
  later db next.1 ∧ ∀ e', next.2 = Executing e' → ex_claim e' = ex_claim e.
Proof.
  intros Hi <-. unfold beat_step.
  pose proof (runner_op_lawful db clock (Heartbeat (jr_id (ex_claim e)) (jr_generation (ex_claim e))) Hi ltac:(done))
    as Hlaw.
  destruct (runner_op _ _ _ _ _) as [db' resp]. simpl in *. split; [by eapply lawful_later|].
  intros e'. destruct resp; [| |done]; destruct (observe_heartbeat _ _ _) as [[fenced cancel] errors];
    by intros [= <-].
Qed.

Lemma end_step_ok db clock e outcome next :
  job_inv db → end_step recovery_len sh db clock e outcome = next →
  later db next.1 ∧ ∀ e', next.2 ≠ Executing e'.
Proof.
  intros Hi <-. unfold end_step. destruct (report sh e outcome) as [errors [[[state output] diagnostic]|]];
    [|split; [by apply later_refl|done]].
  pose proof (runner_op_lawful db clock (Complete (jr_id (ex_claim e)) (jr_generation (ex_claim e)) state
    OriginHandler output None diagnostic) Hi ltac:(done)) as Hlaw.
  destruct (runner_op _ _ _ _ _) as [db' resp]. simpl in *. split; [by eapply lawful_later|].
  intros e'. destruct resp as [[]| |]; try done; by destruct (errors ++ _) || destruct errors.
Qed.

Lemma maintain_step_ok db clock next :
  job_inv db → maintain_step recovery_len sh db clock = next → later db next.1.
Proof.
  intros Hi <-. unfold maintain_step.
  pose proof (runner_op_lawful db clock Maintain Hi ltac:(done)) as Hlaw.
  destruct (runner_op _ _ _ _ _) as [db' resp]. simpl in *. by eapply lawful_later.
Qed.

(** Ids a client brings are unused when it brings them. *)
Definition event_env p (ev : PoolEvent) : Prop :=
  match ev with
  | Client c => request_env (pl_db p) (jc_scope c) (jc_uuids c) (jc_request c)
  | _ => True
  end.

Fixpoint pool_env p (events : list PoolEvent) : Prop :=
  match events with
  | [] => True
  | ev :: events => event_env p ev ∧ pool_env (pool_step recovery_len sh p ev) events
  end.

(** The tables and the workers' claims of a pool, in which the supervisor's own
    notes play no part. *)
Lemma pool_ok_same p q :
  pl_db q = pl_db p → (∀ i e, pl_workers q !! i = Some (Executing e) → pl_workers p !! i = Some (Executing e)) →
  pool_ok p → pool_ok q.
Proof.
  intros Hdb Hw [Hi Hh Hex]. split; rewrite ?Hdb; [done| |].
  - intros i e He. by eapply Hh, Hw.
  - intros i j e f Hne He Hf. by eapply Hex; [|apply Hw..].
Qed.

Lemma joined_same i p j e :
  pl_workers (set_worker i p (pl_db p, Joined)) !! j = Some (Executing e) → pl_workers p !! j = Some (Executing e).
Proof. simpl. intros [(_ & [=] & _)|(_ & He)]%list_lookup_insert_Some. done. Qed.

(** Other calls to the store leave the workers' claims. *)
Lemma set_maintenance_ok p next : pool_ok p → later (pl_db p) next.1 → pool_ok (set_maintenance p next).
Proof.
  intros [_ Hh Hex] Hl. split; simpl; [apply Hl| |done].
  intros i e He. eapply held_later; [done|by eapply Hh].
Qed.

Lemma pool_step_ok p ev : pool_ok p → event_env p ev → pool_ok (pool_step recovery_len sh p ev).
Proof.
  intros Hp Henv. pose proof (po_db _ Hp) as Hi.
  destruct ev as [i|i clock|i clock|i clock out| |clock|i| | |c]; simpl.
  - destruct (pl_workers p !! i) as [[]|] eqn:E; try done. apply set_worker_ok; [done|by apply later_refl|].
    unfold look. by destruct (pl_stop p).
  - destruct (pl_workers p !! i) as [[]|] eqn:E; try done.
    destruct (claim_step_ok _ clock _ Hi eq_refl) as [Hl Hn]. apply set_worker_ok; [done|exact Hl|].
    intros e He. right. destruct (Hn e He) as (Hh & Hf & _). done.
  - destruct (pl_workers p !! i) as [[| |e| |]|] eqn:E; try done. destruct (ex_fenced e); [done|].
    destruct (beat_step_ok _ clock e _ Hi eq_refl) as [Hl Hn]. apply set_worker_ok; [done|exact Hl|].
    intros e' He. left. exists e. split; [done|by apply Hn].
  - destruct (pl_workers p !! i) as [[| |e| |]|] eqn:E; try done.
    destruct (end_step_ok _ clock e out _ Hi eq_refl) as [Hl Hn]. apply set_worker_ok; [done|exact Hl|].
    intros e' He. by destruct (Hn e').
  - destruct (pl_maintenance p); try done. apply set_maintenance_ok; [done|by apply later_refl].
  - destruct (pl_maintenance p); try done. apply set_maintenance_ok; [done|by eapply maintain_step_ok].
  - destruct (pl_workers p !! i) as [[]|] eqn:E; try done. eapply pool_ok_same; [| |exact Hp]; [done|].
    intros j e. apply joined_same.
  - destruct (pl_maintenance p) eqn:E; try done. by eapply pool_ok_same; [| |exact Hp].
  - by eapply pool_ok_same; [| |exact Hp].
  - apply (set_maintenance_ok p (_, pl_maintenance p) Hp). simpl.
    exact (lawful_later _ _ _ (call_step_lawful recovery_len (pl_db p) c Hi Henv)).
Qed.

Lemma run_pool_ok p events : pool_ok p → pool_env p events → pool_ok (run_pool recovery_len sh p events).
Proof.
  revert p. induction events as [|ev events IH]; intros p Hp; simpl; [done|].
  intros [Henv Hrest]. apply IH; [|done]. by apply pool_step_ok.
Qed.

Lemma start_owned_ok db count : job_inv db → pool_ok (start_owned db count).
Proof.
  intros Hi. split; simpl; [done| |].
  - intros i e He. apply lookup_replicate in He as [He _]. done.
  - intros i j e f _ He. apply lookup_replicate in He as [He _]. done.
Qed.

(** A pool that started: its heartbeat fits the lease twice, its workers poll. *)
Lemma runner_start_ok db clock config db0 p0 :
  job_inv db → runner_start recovery_len sh db clock config = (db0, Ok p0) →
  (heartbeat_interval config (sh_jobs sh) ≠ 0
   ∧ 2 * heartbeat_interval config (sh_jobs sh) ≤ cf_claim_lease_seconds (sh_jobs sh) * nanos_per_second)
  ∧ pool_ok p0 ∧ p0 = start_owned db0 (Z.to_nat (rn_worker_count config)) ∧ 0 ≠ rn_worker_count config.
Proof.
  intros Hi. unfold runner_start, runner_refused. cbv zeta. destruct (_ || _) eqn:Er; [done|].
  rewrite !orb_false_iff in Er. destruct Er as ((((((_ & Hw) & _) & Hz) & Hl) & _) & _).
  apply Z.eqb_neq in Hw, Hz. apply Z.ltb_ge in Hl.
  pose proof (runner_op_lawful db clock AskUsage Hi ltac:(done)) as Hlaw.
  destruct (runner_op _ _ _ _ _) as [db' resp]. simpl in Hlaw.
  destruct resp as [[]| |]; try done. intros [= <- <-]. split_and!; [done| | |done|lia].
  - pose proof (Z.mul_div_le (cf_claim_lease_seconds (sh_jobs sh) * nanos_per_second) 2). lia.
  - apply start_owned_ok, (lawful_later _ _ _ Hlaw).
Qed.

(** ** The end of an execution *)

(** A clean end: the store accepted the completion. *)
Lemma end_polling db clock e outcome db' :
  end_step recovery_len sh db clock e outcome = (db', Polling) →
  ex_errors e = [] ∧ outcome ≠ HandlerGone ∧ ∃ diagnostic,
    runner_op recovery_len sh db clock
      (Complete (jr_id (ex_claim e)) (jr_generation (ex_claim e))
         (match outcome with Returned _ => JSucceeded | _ => JFailed end) OriginHandler
         (match outcome with Returned output => Some output | _ => None end) None diagnostic)
    = (db', Ok RespDone).
Proof.
  unfold end_step. destruct (report sh e outcome) as [errors [[[state output] diagnostic]|]] eqn:Er; [|done].
  destruct (runner_op _ _ _ _ _) as [db1 resp] eqn:E. intros [= <- Hw].
  assert (errors = [] ∧ resp = Ok RespDone) as [-> ->].
  { destruct resp as [[]| |]; try done; destruct errors; done. }
  unfold report in Er. destruct outcome as [out|code| |]; simplify_eq.
  - destruct (_ <? _); simplify_eq; [by destruct (ex_errors e)|]. naive_solver.
  - naive_solver.
  - by destruct (ex_errors e).
Qed.

(** The fence refuses a confirmed job and an attempt left behind. *)
Lemma stale_live r g now : acked (jr_state r) = true ∨ g < jr_generation r → live r g now = Err EStaleClaim.
Proof.
  unfold live. intros [Ha|Hlt].
  - rewrite bool_decide_false; [done|]. by destruct (jr_state r).
  - destruct (Z.eqb_spec (jr_generation r) g); [lia|]. by rewrite andb_false_r.
Qed.

Lemma complete_stale db now id g state out diagnostic r :
  rows_get db id = Some r → acked (jr_state r) = true ∨ g < jr_generation r →
  ∀ a, complete db (sh_jobs sh) (sh_scope sh) now id g state OriginHandler out None diagnostic ≠ Ok a.
Proof.
  intros Hg Hst a. unfold complete. destruct (get db (sh_scope sh) id) as [r0| |] eqn:E; rsimpl; [|done..].
  apply get_ok in E as [E _]. simplify_eq. destruct (match out with Some _ => _ | None => _ end); [done|].
  by rewrite (stale_live _ _ _ Hst).
Qed.

Lemma end_stale db clock e outcome db' w r :
  end_step recovery_len sh db clock e outcome = (db', w) →
  rows_get db (jr_id (ex_claim e)) = Some r →
  acked (jr_state r) = true ∨ jr_generation (ex_claim e) < jr_generation r → db' = db ∧ w ≠ Polling.
Proof.
  unfold end_step. intros E Hg Hst.
  destruct (report sh e outcome) as [errors [[[state output] diagnostic]|]]; [|by simplify_eq].
  destruct (runner_op _ _ _ _ _) as [db1 resp] eqn:Eop.
  assert (∀ a, resp ≠ Ok a) as Hno.
  { intros a ->. destruct (runner_op_ok _ _ _ _ _ Eop) as [now Hc]. cbn [apply_request] in Hc.
    by eapply complete_stale in Hc. }
  rewrite (runner_op_not_ok _ _ _ _ _ Eop Hno) in E. destruct resp as [a| |]; [by destruct (Hno a)| |]; simplify_eq.
  - split; [done|]. by destruct errors.
  - done.
Qed.

(** ** Draining *)

(** How far a task is from being joined, once the stop signal is raised. *)
Definition rank (w : Worker) : nat :=
  match w with Requesting => 4 | Executing _ => 3 | Polling => 2 | Ended _ => 1 | Joined => 0 end.

Definition pool_rank p : nat := rank (pl_maintenance p) + sum_list_with rank (pl_workers p).

(** The events that are a step of a task or the supervisor taking its result:
    all but heartbeats, the stop signal and other clients. *)
Definition moves p (ev : PoolEvent) : bool :=
  match ev with
  | Look i => match pl_workers p !! i with Some Polling => true | _ => false end
  | Served i _ => match pl_workers p !! i with Some Requesting => true | _ => false end
  | HandlerDone i _ _ => match pl_workers p !! i with Some (Executing _) => true | _ => false end
  | Join i => match pl_workers p !! i with Some (Ended _) => true | _ => false end
  | LookMaintenance => match pl_maintenance p with Polling => true | _ => false end
  | Maintained _ => match pl_maintenance p with Requesting => true | _ => false end
  | JoinMaintenance => match pl_maintenance p with Ended _ => true | _ => false end
  | Beat _ _ | Shutdown | Client _ => false
  end.

Fixpoint count_moves p (events : list PoolEvent) : nat :=
  match events with
  | [] => 0
  | ev :: events => (if moves p ev then 1 else 0) + count_moves (pool_step recovery_len sh p ev) events
  end.

(** A worker that goes from one state to the next on its way out keeps or gives
    up its claim; a claim it did not have comes from a request under way. *)
Definition onward (w w' : Worker) : Prop :=
  match w' with
  | Executing e => w = Requesting ∨ ∃ e0, w = Executing e0 ∧ ex_claim e0 = ex_claim e
  | Requesting => w = Requesting
  | _ => True
  end.

Lemma onward_refl w : onward w w.
Proof. destruct w; simpl; eauto. Qed.

Lemma onward_trans w1 w2 w3 : onward w1 w2 → onward w2 w3 → onward w1 w3.
Proof.
  destruct w3; simpl; try done.
  - by intros Ho ->.
  - intros Ho [->|(e0 & -> & Hc)]; [by left|]. destruct Ho as [->|(e1 & -> & Hc1)]; [by left|]. right. exists e1. split; congruence.
Qed.

Lemma rank_insert ws i w w' :
  ws !! i = Some w →
  (sum_list_with rank (<[i := w']> ws) + rank w = sum_list_with rank ws + rank w')%nat.
Proof.
  revert i. induction ws as [|v ws IH]; intros [|i]; simpl; try done; [intros [= ->]; lia|].
  intros Hw. specialize (IH i Hw). lia.
Qed.

Lemma claim_step_rank db clock : (rank (claim_step recovery_len sh db clock).2 < rank Requesting)%nat.
Proof.
  unfold claim_step. destruct (runner_op _ _ _ _ _) as [db' resp]. destruct resp as [[| [row|] | | | | | | | | |]| |]; simpl; try lia.
  unfold begin_execution. destruct (negb _); simpl; [lia|]. destruct (jr_payload row); simpl; lia.
Qed.

Lemma maintain_step_rank db clock : (rank (maintain_step recovery_len sh db clock).2 < rank Requesting)%nat.
Proof. unfold maintain_step. destruct (runner_op _ _ _ _ _) as [db' resp]. destruct resp as [[]| |]; simpl; lia. Qed.

Lemma end_step_rank db clock e outcome : (rank (end_step recovery_len sh db clock e outcome).2 < 3)%nat.
Proof.
  unfold end_step. destruct (report sh e outcome) as [errors [[[? ?] ?]|]]; [|simpl; lia].
  destruct (runner_op _ _ _ _ _) as [db' resp].
  destruct resp as [[]| |]; simpl; try lia; (destruct (errors ++ _) || destruct errors); simpl; lia.
Qed.

Lemma beat_step_onward db clock e w :
  w = (beat_step recovery_len sh db clock e).2 → onward (Executing e) w ∧ (rank w ≤ 3)%nat.
Proof.
  intros ->. unfold beat_step. destruct (runner_op _ _ _ _ _) as [db' resp].
  destruct resp as [[]| |]; simpl; (split; [by eauto|lia]).
Qed.

(** A state below an execution holds no claim and has no request under way. *)
Lemma onward_below w w' : (rank w' < 3)%nat → onward w w'.
Proof. destruct w'; simpl; [done|lia|lia|done..]. Qed.

Lemma onward_claim w' : (rank w' < rank Requesting)%nat → onward Requesting w'.
Proof. destruct w'; simpl; auto. Qed.

(** What a step of a stopped pool does: it moves tasks onward. *)
Record drains p q (n : nat) : Prop := {
  dr_stop : pl_stop q = true;
  dr_onward i : match pl_workers q !! i, pl_workers p !! i with
                | Some w', Some w => onward w w'
                | None, None => True
                | _, _ => False
                end;
  dr_rank : (n + pool_rank q ≤ pool_rank p)%nat;
}.

Lemma drains_same p q :
  pl_stop q = true → pl_maintenance q = pl_maintenance p → pl_workers q = pl_workers p → drains p q 0.
Proof.
  intros Hs Hm Hw. split; [done| |].
  - intros i. rewrite Hw. destruct (pl_workers p !! i); [apply onward_refl|done].
  - unfold pool_rank. rewrite Hm, Hw. lia.
Qed.

Lemma drains_trans p q r n m : drains p q n → drains q r m → drains p r (n + m).
Proof.
  intros [_ H1 H2] [Hs H3 H4]. split; [done| |lia]. intros i. specialize (H1 i). specialize (H3 i).
  destruct (pl_workers r !! i), (pl_workers q !! i), (pl_workers p !! i); try done. by eapply onward_trans.
Qed.

Lemma drains_worker p q i w w' n :
  pl_workers p !! i = Some w → pl_stop q = true → pl_maintenance q = pl_maintenance p →
  pl_workers q = <[i := w']> (pl_workers p) → onward w w' → (n + rank w' ≤ rank w)%nat → drains p q n.
Proof.
  intros E Hs Hm Hw Ho Hr. split; [done| |].
  - intros j. rewrite Hw. destruct (decide (i = j)) as [<-|Hne].
    + rewrite list_lookup_insert_eq by (by eapply lookup_lt_Some). by rewrite E.
    + rewrite list_lookup_insert_ne by done. destruct (pl_workers p !! j); [apply onward_refl|done].
  - unfold pool_rank. rewrite Hm, Hw. pose proof (rank_insert _ i w w' E). lia.
Qed.

Lemma drains_maintenance p q n :
  pl_stop q = true → pl_workers q = pl_workers p →
  (n + rank (pl_maintenance q) ≤ rank (pl_maintenance p))%nat → drains p q n.
Proof.
  intros Hs Hw Hr. split; [done| |].
  - intros j. rewrite Hw. destruct (pl_workers p !! j); [apply onward_refl|done].
  - unfold pool_rank. rewrite Hw. lia.
Qed.

Lemma step_drains p ev :
  pl_stop p = true → drains p (pool_step recovery_len sh p ev) (if moves p ev then 1 else 0).
Proof.
  intros Hs. pose proof (drains_same p p Hs eq_refl eq_refl) as Hid.
  destruct ev as [i|i clock|i clock|i clock out| |clock|i| | |c]; simpl.
  - destruct (pl_workers p !! i) as [[]|] eqn:E; try done.
    eapply drains_worker; [done|done|done|done|..]; rewrite Hs; simpl; [done|lia].
  - destruct (pl_workers p !! i) as [[]|] eqn:E; try done. pose proof (claim_step_rank (pl_db p) clock) as Hr.
    eapply drains_worker; [done|done|done|done|by apply onward_claim|lia].
  - destruct (pl_workers p !! i) as [[| |e| |]|] eqn:E; try done. destruct (ex_fenced e); [done|].
    destruct (beat_step_onward (pl_db p) clock e _ eq_refl) as [Ho Hr].
    eapply drains_worker; [done|done|done|done|exact Ho|simpl; lia].
  - destruct (pl_workers p !! i) as [[| |e| |]|] eqn:E; try done.
    pose proof (end_step_rank (pl_db p) clock e out) as Hr.
    eapply drains_worker; [done|done|done|done|by apply onward_below|simpl in *; lia].
  - destruct (pl_maintenance p) eqn:E; try done. apply drains_maintenance; [done|done|]. rewrite E, Hs. simpl. lia.
  - destruct (pl_maintenance p) eqn:E; try done. pose proof (maintain_step_rank (pl_db p) clock).
    apply drains_maintenance; [done|done|]. rewrite E. simpl in *. lia.
  - destruct (pl_workers p !! i) as [[]|] eqn:E; try done.
    eapply drains_worker; [done|simpl; by rewrite Hs|done|done|done|simpl; lia].
  - destruct (pl_maintenance p) eqn:E; try done.
    apply drains_maintenance; [simpl; by rewrite Hs|done|]. rewrite E. simpl. lia.
  - by apply drains_same.
  - by apply drains_same.
Qed.

Lemma run_pool_drains p events :
  pl_stop p = true → drains p (run_pool recovery_len sh p events) (count_moves p events).
Proof.
  revert p. induction events as [|ev events IH]; intros p Hs; simpl; [by apply drains_same|].
  pose proof (step_drains p ev Hs) as Hd. eapply drains_trans; [done|]. apply IH, Hd.
Qed.

(** The maintenance task runs no handler. *)
Lemma pool_step_maintenance p ev :
  (∀ e, pl_maintenance p ≠ Executing e) → ∀ e, pl_maintenance (pool_step recovery_len sh p ev) ≠ Executing e.
Proof.
  intros Hm e. destruct ev as [i|i clock|i clock|i clock out| |clock|i| | |c]; simpl; try apply Hm.
  1-4, 7: destruct (pl_workers p !! i) as [[| |e'| |]|]; try apply Hm; destruct (ex_fenced e'); apply Hm.
  - destruct (pl_maintenance p) eqn:E; rewrite ?E; try done. simpl. by destruct (pl_stop p).
  - destruct (pl_maintenance p) eqn:E; rewrite ?E; try done. simpl. unfold maintain_step.
    destruct (runner_op _ _ _ _ _) as [db' resp]. by destruct resp as [[]| |].
  - destruct (pl_maintenance p) eqn:E; rewrite ?E; done.
Qed.

Lemma run_pool_maintenance p events :
  (∀ e, pl_maintenance p ≠ Executing e) → ∀ e, pl_maintenance (run_pool recovery_len sh p events) ≠ Executing e.
Proof.
  revert p. induction events as [|ev events IH]; intros p Hm; simpl; [done|]. by apply IH, pool_step_maintenance.
Qed.

(** The events of every task, with this clock and this outcome. *)
Definition task_events (count : nat) (clock : RawTime) (outcome : HandlerEnd) : list PoolEvent :=
  [LookMaintenance; Maintained clock; JoinMaintenance]
  ++ flat_map (λ i, [Look i; Served i clock; HandlerDone i clock outcome; Join i]) (seq 0 count).

(** Until the supervisor has its result some task is ready to move, whatever
    the clock and the handler's outcome. *)
Lemma pool_ready p clock outcome :
  (∀ e, pl_maintenance p ≠ Executing e) → pool_result p = None →
  ∃ ev, ev ∈ task_events (length (pl_workers p)) clock outcome ∧ moves p ev = true.
Proof.
  unfold pool_result. intros Hm Hn. destruct (pl_maintenance p) eqn:Em.
  - exists LookMaintenance. split; [set_solver|simpl; by rewrite Em].
  - exists (Maintained clock). split; [set_solver|simpl; by rewrite Em].
  - by destruct (Hm e).
  - exists JoinMaintenance. split; [set_solver|simpl; by rewrite Em].
  - destruct (forallb _ _) eqn:Ef; [done|].
    assert (∃ i w, pl_workers p !! i = Some w ∧ w ≠ Joined) as (i & w & Hi & Hw).
    { clear Em Hn Hm. revert Ef. induction (pl_workers p) as [|w ws IH]; simpl; [done|].
      intros E. destruct w; try by eexists 0%nat, _. destruct (IH E) as (i & v & ? & ?). by exists (S i), v. }
    assert (∀ ev, ev ∈ [Look i; Served i clock; HandlerDone i clock outcome; Join i] →
      ev ∈ task_events (length (pl_workers p)) clock outcome) as Hin.
    { intros ev Hev. apply elem_of_app. right. apply list_elem_of_In, in_flat_map. exists i.
      split; [|by apply list_elem_of_In]. apply in_seq. apply lookup_lt_Some in Hi. lia. }
    destruct w as [| |e|r|]; [| | | |done];
      [exists (Look i)|exists (Served i clock)|exists (HandlerDone i clock outcome)|exists (Join i)];
      (split; [apply Hin; set_solver|simpl; by rewrite Hi]).
Qed.

(** ** Errors reach the supervisor's result *)

(** The maintenance task or a worker. *)
Definition task p (t : option nat) : option Worker :=
  match t with None => Some (pl_maintenance p) | Some i => pl_workers p !! i end.

(** A task ended this way and is not joined yet, or its errors are collected
    and the stop signal is raised. *)
Definition failing p (t : option nat) (r : result RunnerError unit) : Prop :=
  task p t = Some (Ended r) ∨ (pl_stop p = true ∧ join_errors r ⊆ pl_errors p).

Lemma failing_worker p t r i next w :
  failing p t r → pl_workers p !! i = Some w → (∀ r, w ≠ Ended r) → failing (set_worker i p next) t r.
Proof.
  intros [Hf|Hf] Hw Hn; [left|by right]. destruct t as [j|]; [|done]. simpl in *.
  destruct (decide (i = j)) as [->|Hne]; [|by rewrite list_lookup_insert_ne]. simplify_eq. by destruct (Hn r).
Qed.

Lemma failing_maintenance p t r next :
  failing p t r → (∀ r, pl_maintenance p ≠ Ended r) → failing (set_maintenance p next) t r.
Proof.
  intros [Hf|Hf] Hn; [left|by right]. destruct t as [j|]; [done|]. simpl in *. simplify_eq. by destruct (Hn r).
Qed.

(** Joining a task collects what it ended with. *)
Lemma failing_collect p q t r r' :
  pl_stop q = pl_stop p → pl_errors q = pl_errors p → join_errors r ≠ [] → failing p t r →
  (task p t = Some (Ended r) → r' = r ∨ task q t = Some (Ended r)) → failing (collect (join_errors r') q) t r.
Proof.
  intros Hs He Hr Hf Hj. unfold failing, collect. simpl. rewrite Hs, He.
  destruct Hf as [Hf|[Hst Hsub]]; [|right; rewrite Hst; set_solver].
  destruct (Hj Hf) as [->|Ht]; [right|by left; destruct t]. split; [|set_solver].
  rewrite bool_decide_false; [by rewrite orb_true_r|]. rewrite length_app. destruct (join_errors r); simpl; [done|lia].
Qed.

Lemma pool_step_failing p ev t r :
  join_errors r ≠ [] → failing p t r → failing (pool_step recovery_len sh p ev) t r.
Proof.
  intros Hr Hf. destruct ev as [j|j clock|j clock|j clock out| |clock|j| | |c]; simpl.
  1-4: destruct (pl_workers p !! j) as [[| |e| |]|] eqn:E; try done; try (destruct (ex_fenced e); [done|]);
    by eapply failing_worker.
  - destruct (pl_maintenance p) eqn:E; try done. apply failing_maintenance; [done|by rewrite E].
  - destruct (pl_maintenance p) eqn:E; try done. apply failing_maintenance; [done|by rewrite E].
  - destruct (pl_workers p !! j) as [[| | |r'|]|] eqn:E; try done. apply (failing_collect p); [done..|].
    destruct t as [i|]; simpl; [|by right]. destruct (decide (j = i)) as [->|Hne]; [left; by simplify_eq|].
    right. by rewrite list_lookup_insert_ne.
  - destruct (pl_maintenance p) as [| | |r'|] eqn:E; try done. apply (failing_collect p); [done..|].
    destruct t as [i|]; simpl; [by right|]. rewrite E. left. by simplify_eq.
  - destruct Hf as [Hf|[Hs Hsub]]; [by left; destruct t|by right].
  - destruct Hf as [Hf|Hf]; [by left; destruct t|by right].
Qed.

Lemma run_pool_failing p events t r :
  join_errors r ≠ [] → failing p t r → failing (run_pool recovery_len sh p events) t r.
Proof.
  intros Hr. revert p. induction events as [|ev events IH]; intros p Hf; simpl; [done|]. by apply IH, pool_step_failing.
Qed.

(** The supervisor's result holds every collected error. *)
Lemma failing_result p t r res :
  join_errors r ≠ [] → failing p t r → pool_result p = Some res →
  ∃ errors, res = Err (RWorkers errors) ∧ join_errors r ⊆ errors.
Proof.
  unfold pool_result, failing. intros Hr Hf. destruct (pl_maintenance p) eqn:Em; try done.
  destruct (forallb _ _) eqn:Ef; [|done]. intros [= <-].
  destruct Hf as [Hf|[_ Hsub]].
  - destruct t as [i|]; simpl in Hf; [|congruence]. rewrite forallb_forall in Ef.
    apply list_elem_of_lookup_2, list_elem_of_In in Hf. by specialize (Ef _ Hf).
  - destruct (pl_errors p) as [|e errors]; [|by eexists].
    destruct (join_errors r) as [|e l]; [done|]. set_solver.
Qed.

End Runner.
