(* ===== verification/JobRunnerTheorems.v ===== *)
(** The properties of the handler runner. *)

From Stdlib Require Import ZArith Lia.
From stdpp Require Import base gmap strings list.
From S2P Require Import Prelude Core JobTypes JobStore JobInv JobProofs JobLawful JobRequests JobHistory JobPages JobRunner JobRunnerProofs JobTheorems.

#[local] Open Scope Z_scope.

Section Theorems.
Context `{!Chrono} `{!JobCodec}.
Variable recovery_len : string → Z.
Variable sh : Shared.
Implicit Types (db : JobDb) (p : Pool).

(** C28: A pool that started has a heartbeat interval of at most half the claim
    lease, and whatever its workers, its maintenance task and the other clients
    of the store do, in any interleaving, no two workers execute the same
    attempt of a job; each executes a job of the pool's kind and scope, which
    the store has not moved back before that attempt; and the tables stay well
    formed. *)
Theorem pool_exclusive db clock config db0 p0 events :
  job_inv db → runner_start recovery_len sh db clock config = (db0, Ok p0) →
  pool_env recovery_len sh p0 events →
  let p := run_pool recovery_len sh p0 events in
  (heartbeat_interval config (sh_jobs sh) ≠ 0
   ∧ 2 * heartbeat_interval config (sh_jobs sh) ≤ cf_claim_lease_seconds (sh_jobs sh) * nanos_per_second)
  ∧ job_inv (pl_db p)
  ∧ (∀ i e, pl_workers p !! i = Some (Executing e) → held sh (pl_db p) e)
  ∧ ∀ i j e f, i ≠ j → pl_workers p !! i = Some (Executing e) → pl_workers p !! j = Some (Executing f) →
      run_attempt e ≠ run_attempt f.
Proof.
  intros Hi Hstart Henv. cbv zeta.
  destruct (runner_start_ok recovery_len sh db clock config db0 p0 Hi Hstart) as (Hhb & Hp & _).
  split; [exact Hhb|]. destruct (run_pool_ok recovery_len sh p0 events Hp Henv) as [H1 H2 H3]. done.
Qed.

(** The state a handler's outcome asks for, and the output with it. *)
Definition reported (outcome : HandlerEnd) : JobState * option Bytes :=
  match outcome with Returned output => (JSucceeded, Some output) | _ => (JFailed, None) end.

(** A worker goes on after an execution only when nothing went wrong and
    the result is in the store: no heartbeat failed, the claim was still the
    current one, and the job is finished in the reported state (erased or
    cancelled if that was asked meanwhile) with the handler's output, unless
    its retention has passed.  A worker whose job was claimed again or
    confirmed meanwhile changes nothing and reports an error. *)
Theorem finished_work_stored db clock e outcome db' w :
  job_inv db → end_step recovery_len sh db clock e outcome = (db', w) →
  (w = Polling →
     ex_errors e = [] ∧
     ∃ r o b, rows_get db (jr_id (ex_claim e)) = Some r
       ∧ jr_state r = JRunning ∧ jr_generation r = jr_generation (ex_claim e)
       ∧ jobs db' !! jr_id (ex_claim e) = Some (LiveRow (set_output_bytes b o))
       ∧ jr_state o = (if jr_purged r then JPurged else if jr_cancel_requested r then JCancelled
                       else (reported outcome).1)
       ∧ (jr_output o = (reported outcome).2
          ∨ jr_output o = None ∧ (jr_result_expired o = true ∨ jr_purged r = true)))
  ∧ ∀ r, rows_get db (jr_id (ex_claim e)) = Some r →
      acked (jr_state r) = true ∨ jr_generation (ex_claim e) < jr_generation r → db' = db ∧ w ≠ Polling.
Proof.
  intros Hi E. split.
  - intros ->. destruct (end_polling recovery_len sh db clock e outcome db' E) as (He & Hns & diagnostic & Hop).
    split; [done|]. destruct (runner_op_ok _ _ _ _ _ _ _ Hop) as [now Hc]. cbn [apply_request] in Hc.
    apply complete_outcome in Hc as (r & o & b & Hg & Hl & Hrow & Hcase); [|done].
    apply live_ok in Hl as (Hs & Hgen & _). exists r, o, b. split_and!; [done|done|done|done|..];
      destruct Hcase as [(_ & Hst & _ & Hout)|(n & [=] & _)];
      destruct outcome; try done; simpl in *; rewrite ?bool_decide_false in Hst by done; naive_solver.
  - intros r Hg Hstale. by eapply end_stale.
Qed.

(** Heartbeat errors are counted, not lost: each failed heartbeat adds one
    to the count of its cause and to no other, a cause keeps one entry, and a
    heartbeat that succeeds changes no count.  The handler is told to stop
    exactly when the store asks for it or the claim is fenced, and only a
    fenced claim ends the heartbeats. *)
Theorem heartbeats_counted response cancel errors fenced cancel' errors' :
  NoDup (causes errors) → observe_heartbeat response cancel errors = (fenced, cancel', errors') →
  let failure := match response with
                 | inl (RespHeartbeat _) => None
                 | inl _ => Some EInvalidRequest
                 | inr error => Some error
                 end in
  NoDup (causes errors')
  ∧ (∀ cause, counted cause errors' = counted cause errors + if bool_decide (failure = Some cause) then 1 else 0)
  ∧ (fenced = true ↔ response = inr EStaleClaim)
  ∧ (cancel' = true ↔ cancel = true ∨ response = inl (RespHeartbeat true) ∨ response = inr EStaleClaim).
Proof.
  intros Hnd E. cbv zeta.
  assert (∀ error, response = inr error ∨ (∃ r, response = inl r ∧ (∀ b, r ≠ RespHeartbeat b)
            ∧ error = EInvalidRequest) → errors' = note_failure error errors →
    NoDup (causes errors') ∧ ∀ cause, counted cause errors'
      = counted cause errors + if bool_decide (Some error = Some cause) then 1 else 0) as Hnote.
  { intros error _ ->. split; [by apply causes_note_nodup|]. intros cause. rewrite counted_note.
    f_equal. do 2 case_bool_decide; congruence. }
  destruct response as [r|error]; simpl in E.
  - destruct r; simplify_eq; try (destruct (Hnote EInvalidRequest) as [H1 H2]; [naive_solver|done|];
      split_and!; [done|done|naive_solver..]).
    split_and!; [done|intros cause; rewrite bool_decide_false by done; lia|naive_solver|].
    destruct cancel, stop; naive_solver.
  - simplify_eq. destruct (Hnote error) as [H1 H2]; [by left|done|]. split_and!; [done|done|..].
    + rewrite bool_decide_eq_true. naive_solver.
    + rewrite orb_true_iff, bool_decide_eq_true. naive_solver.
Qed.

(** C29: After the stop signal a pool drains and comes to an end.  The signal
    stays; a worker that executes a claim afterwards had it before or had its
    request under way; the tasks take at most as many steps as their rank, four
    each, whatever heartbeats and other clients do between; and until the
    supervisor has its result some task can take its next step, whatever the
    clock reads and however the handler ends. *)
Theorem pool_drains db count before events :
  let p := run_pool recovery_len sh (start_owned db count) before in
  let q := run_pool recovery_len sh p events in
  pl_stop p = true →
  pl_stop q = true
  ∧ (∀ i e, pl_workers q !! i = Some (Executing e) →
       pl_workers p !! i = Some Requesting
       ∨ ∃ e0, pl_workers p !! i = Some (Executing e0) ∧ ex_claim e0 = ex_claim e)
  ∧ (count_moves recovery_len sh p events + pool_rank q ≤ pool_rank p)%nat
  ∧ (pool_result q = None → ∀ clock outcome,
       ∃ ev, ev ∈ task_events (length (pl_workers q)) clock outcome ∧ moves q ev = true).
Proof.
  intros p q Hs. destruct (run_pool_drains recovery_len sh p events Hs : drains p q _) as [H1 H2 H3]. split_and!; [done| |done|].
  - intros i e He. specialize (H2 i). rewrite He in H2. destruct (pl_workers p !! i) as [w|]; [|done].
    destruct H2 as [->|(e0 & -> & Hc)]; eauto.
  - intros Hn clock outcome. apply pool_ready; [|done]. by do 2 apply run_pool_maintenance.
Qed.

(** The supervisor hides no failure: once a task has ended in an error or a
    panic, whatever happens next, its result is an error with that one in it,
    and the stop signal is raised when it collects it. *)
Theorem pool_reports_errors p events t r :
  task p t = Some (Ended r) → join_errors r ≠ [] →
  let q := run_pool recovery_len sh p events in
  (task q t = Some (Ended r) ∨ pl_stop q = true ∧ join_errors r ⊆ pl_errors q)
  ∧ ∀ res, pool_result q = Some res → ∃ errors, res = Err (RWorkers errors) ∧ join_errors r ⊆ errors.
Proof.
  intros Ht Hr. cbv zeta.
  assert (failing (run_pool recovery_len sh p events) t r) as Hf by (apply run_pool_failing; [done|by left]).
  split; [exact Hf|]. intros res. by apply (failing_result _ t r).
Qed.

End Theorems.

(** ** A pool of two workers over the job of [JobTheorems] *)

#[local] Existing Instance chrono_range.
#[local] Existing Instance plain_codec.

Definition resizing : Shared := mkShared shop default_config "resize".

(** The first worker takes the job, its lease runs out, and the second takes it
    again. *)
Definition two_claims : list PoolEvent :=
  [Look 0; Served 0 (mkRawTime 2 0); Client (claim_call 3); Beat 0 (mkRawTime 4 0); Look 1; Served 1 (mkRawTime 36 0)].
(** The pool as [JobRunner::start] leaves it, and after [n] events. *)
Definition two_started : Pool := start_owned (after 1) 2.
Definition two_workers (n : nat) : Pool := run_pool no_recovery resizing two_started (take n two_claims).
Definition two_config : RunnerConfig := mkRunnerConfig 1 2 100 None 60000.

Definition run_of (w : option Worker) : option HandlerRun :=
  match w with Some (Executing e) => Some e | _ => None end.

Lemma run_of_some w e : run_of w = Some e → w = Some (Executing e).
Proof. by destruct w as [[]|]; simpl; intros; simplify_eq. Qed.

(** An execution named by its attempt, with its other parts abstract. *)
Ltac executing p i a e E H :=
  assert (run_attempt <$> run_of (pl_workers p !! i) = Some a) as H by (vm_compute; reflexivity);
  apply fmap_Some in H as (e & E%run_of_some & H); symmetry in H.

Lemma two_claims_env n : pool_env no_recovery resizing two_started (take n two_claims).
Proof. do 7 (destruct n as [|n]; [by repeat (split; [done|])|]). by repeat (split; [done|]). Qed.

Lemma pool_exclusive_witness :
  ∃ e f, pl_workers (two_workers 6) !! 0%nat = Some (Executing e)
       ∧ pl_workers (two_workers 6) !! 1%nat = Some (Executing f)
       ∧ run_attempt e = (job_a, 1) ∧ run_attempt f = (job_a, 2) ∧ run_attempt e ≠ run_attempt f.
Proof.
  assert (runner_start no_recovery resizing (after 1) (mkRawTime 2 0) two_config = (after 1, Ok two_started)) as Hs
    by reflexivity.
  destruct (pool_exclusive no_recovery resizing (after 1) (mkRawTime 2 0) two_config (after 1) two_started
    (take 6 two_claims) (after_inv 1) Hs (two_claims_env 6)) as (_ & _ & _ & Hex).
  executing (two_workers 6) 0%nat (job_a, 1) e E Ha. executing (two_workers 6) 1%nat (job_a, 2) f F Hb.
  exists e, f. split_and!; [exact E|exact F|exact Ha|exact Hb|exact (Hex 0%nat 1%nat e f ltac:(discriminate) E F)].
Defined.

Lemma finished_work_stored_witness :
  ∃ e db' r o b, pl_workers (two_workers 6) !! 1%nat = Some (Executing e)
    ∧ end_step no_recovery resizing (pl_db (two_workers 6)) (mkRawTime 40 0) e (Returned "small") = (db', Polling)
    ∧ rows_get (pl_db (two_workers 6)) (jr_id (ex_claim e)) = Some r ∧ jr_generation r = 2
    ∧ jobs db' !! jr_id (ex_claim e) = Some (LiveRow (set_output_bytes b o)).
Proof.
  executing (two_workers 6) 1%nat (job_a, 2) e E Ha.
  assert (run_pool_ok_inv : job_inv (pl_db (two_workers 6))).
  { apply (run_pool_ok no_recovery resizing _ (take 6 two_claims) (start_owned_ok resizing (after 1) 2 (after_inv 1)) (two_claims_env 6)). }
  assert (match pl_workers (two_workers 6) !! 1%nat with
          | Some (Executing e) =>
              match (end_step no_recovery resizing (pl_db (two_workers 6)) (mkRawTime 40 0) e (Returned "small")).2 with
              | Polling => true | _ => false end
          | _ => false end = true) as Hp by (vm_compute; reflexivity).
  rewrite E in Hp.
  destruct (end_step _ _ _ _ _ _) as [db' w] eqn:Es. simpl in Hp. destruct w; try discriminate Hp.
  destruct (finished_work_stored no_recovery resizing _ _ e (Returned "small") db' Polling run_pool_ok_inv Es) as [Hd _].
  destruct (Hd eq_refl) as (_ & r & o & b & H1 & _ & H2 & H3 & _). exists e, db', r, o, b.
  split_and!; [exact E|exact Es|exact H1|rewrite H2; exact (f_equal snd Ha)|exact H3].
Defined.

Lemma heartbeats_counted_witness :
  NoDup (causes [RMonitoring EStaleClaim 2; RWorkerTask])
  ∧ counted EStaleClaim [RMonitoring EStaleClaim 3; RWorkerTask] = 3
  ∧ counted EStaleClaim [RMonitoring EStaleClaim 2; RWorkerTask] = 2.
Proof.
  assert (NoDup (causes [RMonitoring EStaleClaim 2; RWorkerTask])) as Hnd by apply NoDup_singleton.
  destruct (heartbeats_counted (inr EStaleClaim) false [RMonitoring EStaleClaim 2; RWorkerTask] true true
    [RMonitoring EStaleClaim 3; RWorkerTask] Hnd eq_refl) as (_ & Hc & _).
  split_and!; [exact Hnd|rewrite Hc; reflexivity|reflexivity].
Defined.

Lemma pool_drains_witness :
  let p := run_pool no_recovery resizing (start_owned (after 1) 2) (take 2 two_claims ++ [Look 1; Shutdown]) in
  let q := run_pool no_recovery resizing p [Served 1 (mkRawTime 36 0); LookMaintenance] in
  pl_stop p = true ∧ pool_rank p = 9%nat ∧ pool_rank q = 7%nat
  ∧ ∃ ev, ev ∈ task_events (length (pl_workers q)) (mkRawTime 40 0) HandlerPanic ∧ moves q ev = true.
Proof.
  intros p q. assert (pl_stop p = true) as Hs by reflexivity.
  destruct (pool_drains no_recovery resizing (after 1) 2 (take 2 two_claims ++ [Look 1; Shutdown])
    [Served 1 (mkRawTime 36 0); LookMaintenance] Hs) as (_ & _ & _ & Hr).
  split_and!; [exact Hs|vm_compute; reflexivity|vm_compute; reflexivity|].
  apply Hr. vm_compute. reflexivity.
Defined.

Lemma pool_reports_errors_witness :
  let p := mkPool (after 1) (Ended (Err (RStore EStaleClaim))) [Ended (Ok tt)] false [] in
  let q := run_pool no_recovery resizing p [JoinMaintenance; Join 0] in
  pl_stop q = true ∧ ∃ errors, pool_result q = Some (Err (RWorkers errors)) ∧ [RStore EStaleClaim] ⊆ errors.
Proof.
  intros p q.
  destruct (pool_reports_errors no_recovery resizing p [JoinMaintenance; Join 0] None
    (Err (RStore EStaleClaim)) eq_refl ltac:(discriminate)) as [_ Hres].
  split; [reflexivity|]. destruct (Hres (Err (RWorkers [RStore EStaleClaim])) eq_refl) as (errors & Heq & Hsub).
  exists errors. split; [rewrite <- Heq; reflexivity|exact Hsub].
Defined.
