(* ===== verification/ModelJobs.v ===== *)
(** [symbiotic-ai-runtime], [jobs.rs]: durable model jobs, the job store and the
    spend ledger in one transaction.

    [Store] is the database both components share: the job tables, the registry
    [model_job_bindings], the ledger, and the tables of the optional admission
    owner.  [ModelJobAdmission] is a trait other crates implement: its methods
    are the fields of [AdmissionHooks], functions on a state of their own.

    A transaction is a function from the store to a result; [transaction]
    commits it.  [now] is the instant sampled when it begins, [clock] what
    [Utc::now()] reads inside the ledger's statements. *)

From Stdlib Require Import ZArith Lia.
From stdpp Require Import base gmap strings list fin_maps sorting.
From S2P Require Import Prelude Core SpendTypes SpendLedger JobTypes JobStore.

#[local] Open Scope Z_scope.

#[export] Instance BindingIdentity_eq_dec : EqDecision BindingIdentity.
Proof. solve_decision. Defined.

(** ** Encodings *)

(** JSON and SHA-256 as the composition uses them.  [decode_input] is the
    parse of a payload into binding, sharing key and request; [json_len] the
    bytes of a compact encoding; [job_invocation_key] the JSON of the pair and
    [decode_invocation] its parse; the revisions are digests of JSON. *)
Class ModelCodec `{!JsonValues} : Type := {
  decode_input : Bytes → option (BindingIdentity * option string * Json);
  encode_json : Json → Bytes;
  json_len : Json → Z;
  job_invocation_key : JobScope → string → string;
  decode_invocation : string → option (JobScope * string);
  decode_invocation_key scope key : decode_invocation (job_invocation_key scope key) = Some (scope, key);
  execution_invocation_identity : BindingIdentity → string → string;
  shared_revision : string → string;
  account_revision : string → string → string;
}.

(** The methods of [ModelJobAdmission] on the owner's own tables [X]. *)
Record AdmissionHooks (X : Type) : Type := mkHooks {
  ad_enqueue : JobSpec → result JobError unit;
  ad_admit : JobRecord → Bytes → result JobError bool;
  ad_accept : X → JobRecord → SpendReservation → result JobError X;
  ad_before_send : X → JobRecord → option string → result JobError X;
  ad_finish : X → JobRecord → result JobError X;
  ad_claim : X → JobRecord → RawTime → result JobError (X * bool);
}.
Arguments ad_enqueue {X}.
Arguments ad_admit {X}.
Arguments ad_accept {X}.
Arguments ad_before_send {X}.
Arguments ad_finish {X}.
Arguments ad_claim {X}.

(** One trusted scoped job API. *)
Record ModelJobs (X : Type) : Type := mkModelJobs {
  mj_scope : JobScope;
  mj_config : JobConfig;
  mj_retention : Z;
  mj_admission : option (AdmissionHooks X);
}.
Arguments mj_scope {X}.
Arguments mj_config {X}.
Arguments mj_retention {X}.
Arguments mj_admission {X}.

Record Store `{!JsonValues} (X : Type) : Type := mkStore {
  st_jobs : JobDb;
  st_bindings : gmap (JobScope * string) (BindingIdentity * option string);
  st_ledger : Ledger;
  st_admission : X;
}.
Arguments mkStore {_ X}.
Arguments st_jobs {_ X}.
Arguments st_bindings {_ X}.
Arguments st_ledger {_ X}.
Arguments st_admission {_ X}.

(** Nanoseconds of an instant, and the instant of a nanosecond count. *)
Definition nanos (t : RawTime) : DateTime := rt_secs t * nanos_per_second + rt_nanos t.

Definition time_of (n : DateTime) : RawTime := mkRawTime (n / nanos_per_second) (n mod nanos_per_second).

(** [timestamp_millis]. *)
Definition floor_millis (t : RawTime) : Millis := rt_secs t * 1000 + rt_nanos t / 1000000.

Definition millis_nanos (t : Millis) : DateTime := t * 1000000.

Definition account_scope `{!JsonValues, !ModelCodec} (identity : BindingIdentity) (sharing : option string) :
    result ModelError string :=
  match sharing with
  | Some key =>
      if negb (blank key) then Ok ("account:" +:+ shared_revision key)
      else Err (InvalidRequest AccountSharingKeyIsEmpty)
  | None => Ok ("account:" +:+ account_revision (bi_tenant identity) (bi_account identity))
  end.

Section ModelJobs.
Context `{!JsonValues, !ModelCodec, !Chrono, !JobCodec} {X : Type}.
Abbreviation St := (Store X) (only parsing).

Definition with_jobs (db : JobDb) (st : St) : St := mkStore db (st_bindings st) (st_ledger st) (st_admission st).
Definition with_ledger (l : Ledger) (st : St) : St := mkStore (st_jobs st) (st_bindings st) l (st_admission st).
Definition with_bindings b (st : St) : St := mkStore (st_jobs st) b (st_ledger st) (st_admission st).
Definition with_admission_state (x : X) (st : St) : St := mkStore (st_jobs st) (st_bindings st) (st_ledger st) x.

(** [length(CAST(recovery AS BLOB))] of a receipt, [NULL] when absent. *)
Definition stored_recovery_len (l : Ledger) (reference : string) : option Z :=
  row ← find_row l reference; json_len <$> rr_recovery row.

(** What [recovery_bytes] of the job store reads from the ledger. *)
Definition ledger_recovery_len (l : Ledger) (reference : string) : Z :=
  default 0 (stored_recovery_len l reference).

(** [UPDATE spend_receipts SET recovery=NULL,recovery_expires_at=NULL WHERE reference=?1]. *)
Definition drop_answer (reference : string) (st : St) : St :=
  with_ledger (update_receipt reference clear_recovery (st_ledger st)) st.

(** ** The ledger's view of the jobs *)

Definition job_recovery_policy (st : St) (invocation : option string) (bound_invocation : string) :
    result ModelError (bool * option DateTime) :=
  match invocation ≫= (λ i, (i,.) <$> decode_invocation i) with
  | None => Ok (false, None)
  | Some (invocation, (scope, key)) =>
      match by_key (st_jobs st) scope key with
      | None => Ok (false, None)
      | Some r =>
          if negb (bool_decide (jr_execution r = Model)) then Ok (false, None)
          else
            let erased := jr_purged r || bool_decide (jr_final_state r = Some JPurged) || acked (jr_state r) in
            let? '(identity, _) := ok_or (st_bindings st !! (scope, jr_kind r)) storage in
            if negb (bool_decide (execution_invocation_identity identity invocation = bound_invocation))
            then Ok (false, None)
            else
              let? deadline := match jr_recovery_until r with
                               | None => Ok None
                               | Some ms => if millis_ok ms then Ok (Some (millis_nanos ms)) else Err storage
                               end in
              Ok (erased, deadline)
      end
  end.

Definition constrain_job_recovery_in (st : St) (reference invocation : string) (now : DateTime) :
    result ModelError (St * (bool * option DateTime)) :=
  let? row := ok_or (find_row (st_ledger st) reference) storage in
  let? '(prohibited, job_deadline) :=
    job_recovery_policy st (Some invocation) (sr_invocation (rr_reservation row)) in
  let deadline := match rr_recovery_expires_at row with
                  | Some until => Some (match job_deadline with Some job => Z.min job until | None => until end)
                  | None => None
                  end in
  let st' :=
    if prohibited || match deadline with Some until => until <=? now | None => false end
    then drop_answer reference st
    else match deadline with
         | Some until =>
             with_ledger (update_receipt reference (λ row, set_recovery (rr_recovery row) (Some until) row)
                            (st_ledger st)) st
         | None => st
         end in
  Ok (st', (prohibited, deadline)).

Definition paid_resolution (st : St) (receipt : SpendReceipt) (invocation : string) (now : RawTime)
    (max_bytes : Z) : result JobError (St * JobResolution) :=
  let reference := sr_reference (rc_reservation receipt) in
  let? row := ok_or (find_row (st_ledger st) reference) EStorage in
  let bytes := ledger_recovery_len (st_ledger st) reference in
  let? '(st, (erased, deadline)) :=
    map_err (λ _, EStorage) (constrain_job_recovery_in st reference invocation (nanos now)) in
  if erased || (max_bytes <? bytes) then
    Ok (drop_answer reference st,
        ResFailed reference (if erased then InvocationCompleted else QueueResultTooLarge))
  else Ok (st, ResPaidResult reference (Some (match deadline with Some until => time_of until | None => now end))).

Definition receipt_resolution (st : St) (receipt : SpendReceipt) (invocation : string) (now : RawTime)
    (max_bytes : Z) : result JobError (St * JobResolution) :=
  let reference := sr_reference (rc_reservation receipt) in
  if is_some (rc_output receipt) then paid_resolution st receipt invocation now max_bytes
  else match rc_state receipt with
       | SpendReleased => Ok (st, ResKnownZeroCharge reference)
       | SpendSettled => Ok (st, ResFailed reference InvocationCompleted)
       | SpendUnknown => Ok (st, ResUncertain reference)
       end.

Definition bind_kind (st : St) (scope : JobScope) (kind : string) (identity : BindingIdentity)
    (sharing : option string) : result JobError St :=
  match st_bindings st !! (scope, kind) with
  | Some previous => if bool_decide (previous = (identity, sharing)) then Ok st else Err EKeyConflict
  | None => Ok (with_bindings (<[(scope, kind) := (identity, sharing)]> (st_bindings st)) st)
  end.

Definition job_receipt_reference_in (st : St) (scope : JobScope) (key kind : string) :
    result ModelError (option string) :=
  let? '(identity, sharing) := ok_or (st_bindings st !! (scope, kind)) storage in
  let? account := account_scope identity sharing in
  invocation_reference_in (st_ledger st) account
    (execution_invocation_identity identity (job_invocation_key scope key)).

(** ** Requests *)

Definition transaction {A : Type} (st : St) (body : St → result JobError (St * A)) : St * result JobError A :=
  match body st with
  | Ok (st', a) => (st', Ok a)
  | Err e => (st, Err e)
  | Panic => (st, Panic)
  end.

Variable jobs : ModelJobs X.

(** [ModelJobs::op]. *)
Definition op (st : St) (now : RawTime) (uuids : nat → string) (request : JobRequest) :
    result JobError (St * JobResponse) :=
  let? '(db, response) := apply_job_request (ledger_recovery_len (st_ledger st)) (st_jobs st)
                            (mj_config jobs) (mj_scope jobs) now uuids request in
  Ok (with_jobs db st, response).

(** [op] for a request that creates no job. *)
Definition ask (st : St) (now : RawTime) (request : JobRequest) : result JobError (St * JobResponse) :=
  op st now (λ _, ""%string) request.

Definition get_row (st : St) (now : RawTime) (job : JobId) : result JobError (St * JobRecord) :=
  let? '(st, response) := ask st now (Get job) in
  match response with RespJob (Some row) => Ok (st, row) | _ => Err ENotFound end.

Definition invocation_key (key : string) : string := job_invocation_key (mj_scope jobs) key.

(** [needs_execution]: whether a kind has work to execute or recover. *)
Definition needs_execution (st : St) (now : RawTime) (kind : string) : St * result JobError bool :=
  transaction st (λ st,
    let? needed := jobs_need_execution_in_transaction (st_jobs st) (mj_scope jobs) kind (floor_millis now) in
    Ok (st, needed)).

(** What [request_sync] checks of one spec before the transaction. *)
Definition spec_accepted (spec : JobSpec) : result JobError unit :=
  let? _ := match mj_admission jobs with
            | Some admission => ad_enqueue admission spec
            | None => if is_some (js_admission spec) then Err EInvalidRequest else Ok tt
            end in
  if negb (bool_decide (js_execution spec = Model)) then Err EInvalidRequest
  else
    let? '(identity, sharing, _) := ok_or (decode_input (js_payload spec)) EInvalidRequest in
    if negb (BindingIdentity_is_valid identity)
       || negb (bool_decide (bi_tenant identity = sc_tenant (mj_scope jobs)))
       || negb (is_ok (account_scope identity sharing))
    then Err EInvalidRequest else Ok tt.

Fixpoint specs_accepted (specs : list JobSpec) : result JobError unit :=
  match specs with
  | [] => Ok tt
  | spec :: specs => let? _ := spec_accepted spec in specs_accepted specs
  end.

Fixpoint bind_specs (st : St) (specs : list JobSpec) : result JobError St :=
  match specs with
  | [] => Ok st
  | spec :: specs =>
      let? '(identity, sharing, _) := ok_or (decode_input (js_payload spec)) EInvalidRequest in
      let? st := bind_kind st (mj_scope jobs) (js_kind spec) identity sharing in
      bind_specs st specs
  end.

(** Adoption narrows the answers already saved for the enqueued keys. *)
Fixpoint constrain_enqueued (st : St) (now : RawTime) (specs : list JobSpec) : result JobError St :=
  match specs with
  | [] => Ok st
  | spec :: specs =>
      let? reference := map_err (λ _, EStorage)
                          (job_receipt_reference_in st (mj_scope jobs) (js_key spec) (js_kind spec)) in
      let? st := match reference with
                 | Some reference =>
                     let? '(st, _) := map_err (λ _, EStorage)
                       (constrain_job_recovery_in st reference (invocation_key (js_key spec)) (nanos now)) in
                     Ok st
                 | None => Ok st
                 end in
      constrain_enqueued st now specs
  end.

(** [UPDATE jobs SET receipt=?3 WHERE scope=?1 AND id=?2]. *)
Definition attach_receipt (id : JobId) (receipt : string) (db : JobDb) : JobDb :=
  mkJobDb (alter (λ row, match row with
                         | LiveRow r => LiveRow (set_receipt (Some receipt) r)
                         | TombstoneRow k d s f _ g kind => TombstoneRow k d s f (Some receipt) g kind
                         end) id (JobStore.jobs db)) (job_owners db).

(** The receipt whose answer an affected row owns. *)
Definition affected_receipt (st : St) (erasing : bool) (row : JobRecord) : result JobError (option string) :=
  if erasing && bool_decide (jr_execution row = Model) then
    let? reference := map_err (λ _, EStorage)
                        (job_receipt_reference_in st (mj_scope jobs) (jr_key row) (jr_kind row)) in
    Ok (match reference with Some reference => Some reference | None => jr_receipt row end)
  else Ok (jr_receipt row).

(** One affected row: a confirmed, erased or expired job loses its saved
    answer; an erased one keeps the receipt it was charged under. *)
Definition drop_row (st : St) (now : RawTime) (purging confirming : bool) (row : JobRecord) :
    result JobError St :=
  let? receipt := affected_receipt st (purging || confirming) row in
  match receipt with
  | None => Ok st
  | Some receipt =>
      let? '(st, response) := ask st now (Get (jr_id row)) in
      match response with
      | RespJob (Some current) =>
          if acked (jr_state current) || jr_purged current || jr_result_expired current then
            let st := if purging && unfinished (jr_state row)
                      then with_jobs (attach_receipt (jr_id current) receipt (st_jobs st)) st else st in
            Ok (drop_answer receipt st)
          else Ok st
      | _ => Ok st
      end
  end.

(** The last loop of [request_sync]. *)
Fixpoint drop_affected (st : St) (now : RawTime) (purging confirming : bool) (affected : list JobRecord) :
    result JobError St :=
  match affected with
  | [] => Ok st
  | row :: affected =>
      let? st := drop_row st now purging confirming row in
      drop_affected st now purging confirming affected
  end.

Definition is_purge (request : JobRequest) : bool := match request with PurgeOwner _ => true | _ => false end.
Definition is_ack (request : JobRequest) : bool := match request with Ack _ => true | _ => false end.

(** Requests only the executor may make. *)
Definition executor_only (request : JobRequest) : bool :=
  match request with
  | Completions _ _ | Resolve _ _ _ | ClaimPaid _ _ | Claim _ _ | ClaimJob _ => true
  | _ => false
  end.

(** [request_sync]'s transaction. *)
Definition request_in (st : St) (now : RawTime) (uuids : nat → string) (request : JobRequest) :
    result JobError (St * JobResponse) :=
  let? '(st, replayed) :=
    match request with
    | Admit job admission =>
        let? '(st, row) := get_row st now job in
        let? hooks := ok_or (mj_admission jobs) EInvalidRequest in
        let? fresh := ad_admit hooks row admission in
        Ok (st, negb fresh)
    | _ => Ok (st, false)
    end in
  if replayed : bool then Ok (st, RespDone)
  else
    let specs := match request with Enqueue specs => specs | _ => [] end in
    let? st := bind_specs st specs in
    let? affected := paid_copies_for_request (st_jobs st) (mj_config jobs) (mj_scope jobs)
                       (floor_millis now) request in
    let? '(st, response) := op st now uuids request in
    let? st := constrain_enqueued st now specs in
    let? st := drop_affected st now (is_purge request) (is_ack request) affected in
    Ok (st, response).

Definition request_sync (st : St) (now : RawTime) (uuids : nat → string) (request : JobRequest) :
    St * result JobError JobResponse :=
  let checked :=
    match request with
    | Enqueue specs =>
        if cf_max_batch (mj_config jobs) <? Z.of_nat (length specs) then Err EInvalidRequest
        else specs_accepted specs
    | _ => Ok tt
    end in
  match checked with
  | Err e => (st, Err e)
  | Panic => (st, Panic)
  | Ok _ =>
      if executor_only request then (st, Err EInvalidRequest)
      else transaction st (λ st, request_in st now uuids request)
  end.

(** The requests [ModelJobs::request] lets through. *)
Definition client_request (request : JobRequest) : bool :=
  match request with
  | Enqueue _ | Admit _ _ | AdmissionNotices _ _ | Ack _ | Cancel _ | PurgeOwner _ | JobTypes.Diagnostics _ _ _
  | Maintain | Status _ | Get _ | AskUsage => true
  | _ => false
  end.

Definition request (st : St) (now : RawTime) (uuids : nat → string) (r : JobRequest) :
    St * result JobError JobResponse :=
  if client_request r then request_sync st now uuids r else (st, Err EInvalidRequest).

(** ** Deliveries *)

Record ModelDelivery : Type := mkModelDelivery {
  md_delivery : Delivery;
  md_output : option Json;
}.

(** The reference whose answer a delivery borrows. *)
Definition borrowed (r : JobRecord) : option string :=
  if negb (jr_result_expired r) && negb (jr_purged r) then jr_receipt r else None.

(** Preflighted length of the borrowed answer; [null] has four bytes. *)
Definition borrowed_len (l : Ledger) (now : DateTime) (r : JobRecord) : Z :=
  match borrowed r with
  | Some reference =>
      match find_row l reference with
      | Some row =>
          match rr_recovery_expires_at row with
          | Some until => if now <? until then default 4 (json_len <$> rr_recovery row) else 4
          | None => 4
          end
      | None => 4
      end
  | None => 4
  end.

(** The answer itself. *)
Definition borrowed_answer (l : Ledger) (clock : DateTime) (r : JobRecord) : result JobError (option Json) :=
  match borrowed r with
  | Some reference =>
      let? reference := map_err (λ _, EStorage) (SpendReceiptRef_new reference) in
      let? receipt := map_err (λ _, EStorage) (receipt_in l clock reference) in
      Ok (receipt ≫= rc_recovery)
  | None => Ok None
  end.

(** A paid result whose answer is gone is delivered as expired. *)
Definition answer_lost (output : option Json) (r : JobRecord) : bool :=
  negb (is_some output) && bool_decide (jr_origin r = Some OriginPaid)
  && (bool_decide (jr_state r = JSucceeded) || bool_decide (jr_state r = JCancelled))
  && negb (is_some (jr_diagnostic r)).

(** One round of [completions_sync]: nothing more to deliver, or a delivery
    and the bytes it takes.  [None] is the end of the page: an empty answer
    writes nothing, and an item too many is rolled back to the savepoint. *)
Definition deliver_next (st : St) (now : RawTime) (clock : DateTime) (max_bytes total : Z) (first : bool) :
    result JobError (option (St * ModelDelivery * Z)) :=
  let? '(st', response) := ask st now (Completions 1 (cf_max_page_bytes (mj_config jobs))) in
  match response with
  | RespDeliveries [] => Ok None
  | RespDeliveries (delivery :: _) =>
      let r := dl_completion delivery in
      let? size := encoded_bytes (delivery_len delivery) in
      let? bytes := usize_add size (borrowed_len (st_ledger st') (nanos now) r) EStorage in
      let? bytes := usize_add bytes 23 EStorage in
      let? alone := expect (checked_add usize_max bytes 2) in
      if max_bytes <? alone then Err (ECompletionTooLarge (jr_id r) alone)
      else
        let? next := expect (checked_add usize_max bytes (if first then 0 else 1)) in
        let? next := usize_add total next EStorage in
        if max_bytes <? next then Ok None
        else
          let? output := borrowed_answer (st_ledger st') clock r in
          let r := if answer_lost output r then set_result_expired true r else r in
          let st' := match jr_receipt r with
                     | Some reference => if jr_result_expired r then drop_answer reference st' else st'
                     | None => st'
                     end in
          Ok (Some (st', mkModelDelivery (mkDelivery r (dl_token delivery)) output, next))
  | _ => Err EInvalidRequest
  end.

(** The loop; [clocks i] is the clock the [i]-th answer is read at. *)
Fixpoint deliver_all (rounds : nat) (st : St) (now : RawTime) (clocks : nat → DateTime) (i : nat)
    (max_bytes total : Z) : result JobError (St * list ModelDelivery) :=
  match rounds with
  | O => Ok (st, [])
  | S rounds =>
      let? next := deliver_next st now (clocks i) max_bytes total (bool_decide (i = O)) in
      match next with
      | None => Ok (st, [])
      | Some (st, item, total) =>
          let? '(st, items) := deliver_all rounds st now clocks (S i) max_bytes total in
          Ok (st, item :: items)
      end
  end.

Definition completions_sync (st : St) (now : RawTime) (clocks : nat → DateTime) (limit max_bytes : Z) :
    St * result JobError (list ModelDelivery) :=
  if (limit =? 0) || (cf_max_page (mj_config jobs) <? limit) || (max_bytes <? 2)
     || (cf_max_page_bytes (mj_config jobs) <? max_bytes)
  then (st, Err EInvalidRequest)
  else transaction st (λ st, deliver_all (Z.to_nat limit) st now clocks 0 max_bytes 2).

(** ** Recovery of expired claims *)

(** The deadline of a job's answer has passed. *)
Definition recovery_over (r : JobRecord) (now : RawTime) : bool :=
  match jr_recovery_until r with Some until => millis_nanos until <=? nanos now | None => false end.

Definition recover_row (st : St) (now : RawTime) (clock : DateTime) (row : JobRecord) : result JobError St :=
  let? reference := ok_or (jr_receipt row) EStorage in
  let? reference := map_err (λ _, EStorage) (SpendReceiptRef_new reference) in
  let? receipt := map_err (λ _, EStorage) (receipt_in (st_ledger st) clock reference) in
  let? receipt := ok_or receipt EStorage in
  let? '(st, resolution) := receipt_resolution st receipt (invocation_key (jr_key row)) now
                              (cf_max_result_bytes (mj_config jobs)) in
  let? '(st, _) := ask st now (Resolve (jr_id row) (jr_generation row) resolution) in
  Ok (if recovery_over row now && is_some (rc_output receipt)
      then drop_answer (sr_reference (rc_reservation receipt)) st else st).

Fixpoint recover_rows (st : St) (now : RawTime) (clock : DateTime) (rows : list JobRecord) : result JobError St :=
  match rows with
  | [] => Ok st
  | row :: rows => let? st := recover_row st now clock row in recover_rows st now clock rows
  end.

(** One page of [recover]: how many rows, and the cursor after them. *)
Definition recover_page (st : St) (now : RawTime) (clock : DateTime) (kind : string) (after : option string) :
    St * result JobError (nat * option string) :=
  transaction st (λ st,
    let? '(st, response) := ask st now (RecoveryCandidates [kind] after (cf_max_page (mj_config jobs))
                                          (cf_max_page_bytes (mj_config jobs))) in
    match response with
    | RespCandidates rows =>
        let? st := recover_rows st now clock rows in
        Ok (st, (length rows, (λ r, jid_id (jr_id r)) <$> last rows))
    | _ => Err EInvalidRequest
    end).

(** ** The owner of one claim *)

Record JobClaim : Type := mkJobClaim {
  cl_id : JobId;
  cl_generation : Z;
  cl_receipt : string;
  cl_max_attempts : Z;
}.

Record ClaimOwner : Type := mkOwner {
  co_answer_recovery : AnswerRecovery;
  co_candidate : JobId;
  co_claim : option JobClaim;
  co_finished : bool;
}.

Definition set_claim (c : option JobClaim) (o : ClaimOwner) : ClaimOwner :=
  mkOwner (co_answer_recovery o) (co_candidate o) c (co_finished o).
Definition set_finished (o : ClaimOwner) : ClaimOwner :=
  mkOwner (co_answer_recovery o) (co_candidate o) (co_claim o) true.

Definition resolve_in (st : St) (now : RawTime) (job : JobId) (generation : Z) (resolution : JobResolution) :
    result JobError St :=
  let? '(st, _) := ask st now (Resolve job generation resolution) in Ok st.

(** [previous_in]: the job is no longer pending or its invocation is already
    paid for ([true]), or the latest receipt of the invocation. *)
Definition previous_in (st : St) (now : RawTime) (clock : DateTime) (owner : ClaimOwner)
    (reservation : SpendReservation) : result JobError (St * (bool * option SpendReceipt)) :=
  let? '(st, current) := get_row st now (co_candidate owner) in
  if negb (bool_decide (jr_state current = JPending)) then Ok (st, (true, None))
  else
    let? previous := map_err (λ _, EStorage)
      (invocation_in (st_ledger st) clock (sr_account reservation) (sr_invocation reservation)) in
    match previous with
    | None => Ok (st, (false, None))
    | Some receipt =>
        if negb (bool_decide (sr_binding (rc_reservation receipt) = sr_binding reservation))
        then Err EKeyConflict
        else if is_some (rc_output receipt) || bool_decide (rc_state receipt = SpendSettled) then
          let? '(st, resolution) := receipt_resolution st receipt (invocation_key (jr_key current)) now
                                      (cf_max_result_bytes (mj_config jobs)) in
          let? st := resolve_in st now (jr_id current) (jr_generation current) resolution in
          Ok (if recovery_over current now
              then drop_answer (sr_reference (rc_reservation receipt)) st else st, (true, None))
        else Ok (st, (false, Some receipt))
    end.

(** [ModelJob::recover]. *)
Definition owner_recover (st : St) (now : RawTime) (clock : DateTime) (owner : ClaimOwner)
    (reservation : SpendReservation) : St * ClaimOwner * result ModelError bool :=
  let '(st, outcome) := transaction st (λ st,
    let? '(st, (done, _)) := previous_in st now clock owner reservation in Ok (st, done)) in
  (st, match outcome with Ok true => set_finished owner | _ => owner end, map_err (λ _, storage) outcome).

(** An adopted receipt without a verdict: the job takes it over as uncertain. *)
Definition adopt_uncertain (st : St) (now : RawTime) (owner : ClaimOwner) (reference : string) :
    result JobError (St * option JobRecord) :=
  let? '(st, response) := ask st now (ClaimPaid (co_candidate owner) reference) in
  match response with
  | RespJob (Some row) =>
      let? st := resolve_in st now (jr_id row) (jr_generation row) (ResUncertain reference) in
      Ok (st, None)
  | _ => Ok (st, None)
  end.

(** Claim and reservation together, the attempt ceiling taken from the row. *)
Definition reserve_claim (st : St) (now : RawTime) (clock : DateTime) (owner : ClaimOwner)
    (reservation : SpendReservation) (limit : Z) : result JobError (St * option JobRecord) :=
  let? '(st, response) := ask st now (ClaimPaid (co_candidate owner) (sr_reference reservation)) in
  match response with
  | RespJob None => Ok (st, None)
  | RespJob (Some row) =>
      let attempt_limit := if is_some (mj_admission jobs) then jr_max_attempts row
                           else Z.min (jr_max_attempts row) limit in
      let? '(l, accepted) := map_err (λ e, EExecution (ModelError_code e))
        (reserve_with_limit_in (st_ledger st) clock reservation (Some attempt_limit) false) in
      if accepted : bool then Ok (with_ledger l st, Some row) else Err EStorage
  | _ => Err EInvalidRequest
  end.

(** [accept] records the signed attempt; expired authority rolls the claim and
    the reservation back to the savepoint and waits for renewal. *)
Definition accept_claim (before st : St) (now : RawTime) (hooks : AdmissionHooks X) (row : JobRecord)
    (reservation : SpendReservation) : result JobError (St * option JobRecord) :=
  match ad_accept hooks (st_admission st) row reservation with
  | Ok x => Ok (with_admission_state x st, Some row)
  | Err EAuthorityExpired =>
      let? '(st, _) := ask before now (AwaitAdmission (jr_id row)) in Ok (st, None)
  | Err e => Err e
  | Panic => Panic
  end.

(** The rest of the claim when no earlier attempt decides it. *)
Definition claim_fresh (st : St) (now : RawTime) (clock : DateTime) (owner : ClaimOwner)
    (reservation : SpendReservation) (limit : Z) : result JobError (St * option JobRecord) :=
  match mj_admission jobs with
  | None => reserve_claim st now clock owner reservation limit
  | Some hooks =>
      let? '(st, row) := get_row st now (co_candidate owner) in
      let? '(x, current) := ad_claim hooks (st_admission st) row now in
      let st := with_admission_state x st in
      if current : bool then
        let? '(claimed, row) := reserve_claim st now clock owner reservation limit in
        match row with
        | None => Ok (claimed, None)
        | Some row => accept_claim st claimed now hooks row reservation
        end
      else let? '(st, _) := ask st now (AwaitAdmission (jr_id row)) in Ok (st, None)
  end.

(** The transaction of [ModelJob::claim]. *)
Definition claim_in (st : St) (now : RawTime) (clock : DateTime) (owner : ClaimOwner)
    (reservation : SpendReservation) (limit : Z) : result JobError (St * option JobRecord) :=
  let? '(st, (done, previous)) := previous_in st now clock owner reservation in
  if done : bool then Ok (st, None)
  else
    match previous with
    | Some receipt =>
        if bool_decide (rc_state receipt = SpendUnknown)
        then adopt_uncertain st now owner (sr_reference (rc_reservation receipt))
        else claim_fresh st now clock owner reservation limit
    | None => claim_fresh st now clock owner reservation limit
    end.

(** [ModelJob::refuse]. *)
Definition owner_refuse (st : St) (now : RawTime) (owner : ClaimOwner) (code : DiagnosticCode) :
    St * ClaimOwner * result ModelError unit :=
  let '(st, outcome) := transaction st (λ st, ask st now (RefusePending (co_candidate owner) code)) in
  match outcome with
  | Ok _ => (st, set_finished owner, Ok tt)
  | Err _ => (st, owner, Err storage)
  | Panic => (st, owner, Panic)
  end.

(** Refusals that end the job instead of the worker. *)
Definition final_refusal (code : DiagnosticCode) : bool :=
  match code with SpendBudgetExhausted | AttemptBudgetExhausted | InvocationCompleted => true | _ => false end.

(** The request bytes of a claimed row. *)
Definition claimed_payload (row : option JobRecord) : result ModelError (option Bytes) :=
  match row with
  | None => Ok None
  | Some row =>
      let? '(_, _, body) := ok_or (jr_payload row ≫= decode_input) storage in Ok (Some (encode_json body))
  end.

Definition claim_of (row : option JobRecord) : result ModelError (option JobClaim) :=
  match row with
  | None => Ok None
  | Some row =>
      let? receipt := ok_or (jr_receipt row) storage in
      Ok (Some (mkJobClaim (jr_id row) (jr_generation row) receipt (jr_max_attempts row)))
  end.

(** [ModelJob::claim]; [refused_at] is the instant of the refusal's own
    transaction. *)
Definition owner_claim (st : St) (now refused_at : RawTime) (clock : DateTime) (stop : bool)
    (owner : ClaimOwner) (reservation : SpendReservation) (limit : Z) :
    St * ClaimOwner * result ModelError (option Bytes) :=
  if stop then (st, set_finished owner, Ok None)
  else
    let '(st, outcome) := transaction st (λ st, claim_in st now clock owner reservation limit) in
    match outcome with
    | Err (EExecution code) =>
        if final_refusal code then
          let '(st, owner, refused) := owner_refuse st refused_at owner code in
          (st, owner, let? _ := refused in Ok None)
        else (st, owner, Err (Queue code))
    | Err _ => (st, owner, Err storage)
    | Panic => (st, owner, Panic)
    | Ok row =>
        match claimed_payload row, claim_of row with
        | Ok payload, Ok claim =>
            let owner := set_claim claim owner in
            (st, if is_some payload then owner else set_finished owner, Ok payload)
        | Ok _, Err e | Err e, _ => (st, owner, Err e)
        | _, _ => (st, owner, Panic)
        end
    end.

Definition claim_record (owner : ClaimOwner) : result ModelError JobClaim := ok_or (co_claim owner) storage.

(** [ModelJob::admit_request]. *)
Definition owner_admit_request (st : St) (now : RawTime) (owner : ClaimOwner) (fingerprint : option string) :
    St * result ModelError unit :=
  match mj_admission jobs with
  | None => (st, Ok tt)
  | Some hooks =>
      match claim_record owner with
      | Ok claim =>
          let '(st, outcome) := transaction st (λ st,
            let? '(st, response) := ask st now (Heartbeat (cl_id claim) (cl_generation claim)) in
            match response with
            | RespHeartbeat false =>
                let? '(st, row) := get_row st now (cl_id claim) in
                let? x := ad_before_send hooks (st_admission st) row fingerprint in
                Ok (with_admission_state x st, tt)
            | RespHeartbeat true => Err (EExecution InvocationCompleted)
            | _ => Err EInvalidRequest
            end) in
          (st, map_err (λ e, match e with EExecution code => InvalidRequest code | _ => storage end) outcome)
      | Err e => (st, Err e)
      | Panic => (st, Panic)
      end
  end.

(** [ModelJob::heartbeat]: whether the worker must stop. *)
Definition owner_heartbeat (st : St) (now : RawTime) (owner : ClaimOwner) : St * result ModelError bool :=
  match claim_record owner with
  | Ok claim =>
      let '(st, outcome) := transaction st (λ st,
        let? '(st, response) := ask st now (Heartbeat (cl_id claim) (cl_generation claim)) in
        match response with RespHeartbeat cancel => Ok (st, cancel) | _ => Err EInvalidRequest end) in
      (st, map_err (λ e, match e with EStaleClaim => Queue QueueFailure | _ => storage end) outcome)
  | Err e => (st, Err e)
  | Panic => (st, Panic)
  end.

(** What the worker reports, after the size and retention rules of the job. *)
Definition retained_output (owner : ClaimOwner) (output : option Json) : bool * bool * option Json :=
  let oversized :=
    match output with
    | Some value => negb (bool_decide (co_answer_recovery owner = Off))
                    && (cf_max_result_bytes (mj_config jobs) <? json_len value)
    | None => false
    end in
  let not_retained := is_some output && bool_decide (co_answer_recovery owner = Off) in
  (oversized, not_retained, if not_retained || oversized then None else output).

(** The transaction of [ModelJob::finish]. *)
Definition finish_claim_in (st : St) (now : RawTime) (clock : DateTime) (claim : JobClaim)
    (reference : string) (state : SpendState) (usage : option UsageTrace) (evidence output : option Json)
    (oversized not_retained : bool) (failure : option DiagnosticCode) (retry : bool) :
    result JobError (St * unit) :=
  let? '(st, current) := get_row st now (cl_id claim) in
  if negb (jr_generation current =? cl_generation claim) then Err EStaleClaim
  else
    let key := invocation_key (jr_key current) in
    let? '(l, _) := map_err (λ _, EStorage)
      (save_recovery_in (job_recovery_policy st) (st_ledger st) clock reference output (mj_retention jobs)
         (millis_nanos <$> jr_recovery_until current) (Some key) (nanos now)) in
    let? '(l, _) := map_err (λ _, EStorage) (finish_in l clock reference state usage evidence) in
    let st := with_ledger l st in
    let? st := match mj_admission jobs with
               | Some hooks => let? x := ad_finish hooks (st_admission st) current in
                               Ok (with_admission_state x st)
               | None => Ok st
               end in
    if negb (is_some output) && jr_cancel_requested current && negb (jr_purged current) then
      let? '(st, _) := ask st now (Complete (jr_id current) (jr_generation current) JCancelled OriginPaid
                                     None (Some reference) failure) in
      Ok (st, tt)
    else
      let? '(st, resolution) :=
        if not_retained then Ok (st, ResPaidResult reference (Some now))
        else if is_some output then
          let? receipt := map_err (λ _, EStorage) (receipt_in (st_ledger st) clock reference) in
          let? receipt := ok_or receipt EStorage in
          paid_resolution st receipt key now (cf_max_result_bytes (mj_config jobs))
        else if bool_decide (state = SpendReleased) && retry then Ok (st, ResKnownZeroCharge reference)
        else if bool_decide (state = SpendUnknown) && negb oversized then Ok (st, ResUncertain reference)
        else let? diagnostic := ok_or failure EInvalidRequest in Ok (st, ResFailed reference diagnostic) in
      let? st := resolve_in st now (jr_id current) (jr_generation current) resolution in
      Ok (st, tt).

(** [ModelJob::finish]. *)
Definition owner_finish (st : St) (now : RawTime) (clock : DateTime) (owner : ClaimOwner) (state : SpendState)
    (usage : option UsageTrace) (output : option Json) (failure : option DiagnosticCode) (retry : bool) :
    St * ClaimOwner * result ModelError unit :=
  match let? claim := claim_record owner in
        let? reference := SpendReceiptRef_new (cl_receipt claim) in Ok (claim, reference) with
  | Ok (claim, reference) =>
      let '(oversized, not_retained, kept) := retained_output owner output in
      let failure := if oversized && negb not_retained then Some QueueResultTooLarge else failure in
      let evidence := (λ _, output_received) <$> output in
      let '(st, outcome) := transaction st (λ st,
        finish_claim_in st now clock claim reference state usage evidence kept oversized not_retained
          failure retry) in
      (st, match outcome with Ok _ => set_finished owner | _ => owner end, map_err (λ _, storage) outcome)
  | Err e => (st, owner, Err e)
  | Panic => (st, owner, Panic)
  end.

(** [ModelJob::release]. *)
Definition owner_release (st : St) (now : RawTime) (clock : DateTime) (owner : ClaimOwner) :
    St * ClaimOwner * result ModelError unit :=
  match let? claim := claim_record owner in
        let? reference := SpendReceiptRef_new (cl_receipt claim) in Ok (claim, reference) with
  | Ok (claim, reference) =>
      let '(st, outcome) := transaction st (λ st,
        let? '(l, _) := map_err (λ _, EStorage) (release_in (st_ledger st) clock reference) in
        let? st := resolve_in (with_ledger l st) now (cl_id claim) (cl_generation claim)
                     (ResKnownZeroCharge reference) in
        Ok (st, tt)) in
      (st, match outcome with Ok _ => set_finished owner | _ => owner end, map_err (λ _, storage) outcome)
  | Err e => (st, owner, Err e)
  | Panic => (st, owner, Panic)
  end.

(** [ModelJob::eligible]. *)
Definition owner_eligible (st : St) (now : RawTime) (stop : bool) (owner : ClaimOwner) :
    St * ClaimOwner * result ModelError bool :=
  if stop then (st, set_finished owner, Ok false)
  else
    let '(st, outcome) := transaction st (λ st,
      let? '(st, row) := get_row st now (co_candidate owner) in
      Ok (st, bool_decide (jr_state row = JPending) && negb (jr_cancel_requested row)
              && negb (jr_purged row))) in
    (st, match outcome with Ok false => set_finished owner | _ => owner end, map_err (λ _, storage) outcome).

(** [ModelJob::can_retry]; [beat] is the instant of its heartbeat. *)
Definition owner_can_retry (st : St) (beat : RawTime) (clock : DateTime) (owner : ClaimOwner) (limit : Z) :
    St * result ModelError bool :=
  if is_some (mj_admission jobs) then (st, Ok false)
  else
    match claim_record owner with
    | Ok claim =>
        if Z.min (cl_max_attempts claim) limit <=? cl_generation claim then (st, Ok false)
        else
          let '(st, stopped) := owner_heartbeat st beat owner in
          match stopped with
          | Ok true => (st, Ok false)
          | Ok false =>
              (st, map_err (λ _ : JobError, storage)
                     (let? reference := map_err (λ _, EStorage) (SpendReceiptRef_new (cl_receipt claim)) in
                      let? receipt := map_err (λ _, EStorage) (receipt_in (st_ledger st) clock reference) in
                      let? receipt := ok_or receipt EStorage in
                      Ok (match rc_attempt_limit receipt with
                          | Some n => rc_attempts_used receipt <? n
                          | None => true
                          end)))
          | Err e => (st, Err e)
          | Panic => (st, Panic)
          end
    | Err e => (st, Err e)
    | Panic => (st, Panic)
    end.

(** [ModelJob::attempt]. *)
Definition owner_attempt (owner : ClaimOwner) : result ModelError Z :=
  let? claim := claim_record owner in get_u32 (cl_generation claim).

End ModelJobs.
