(* ===== verification/ModelJobsProofs.v ===== *)
(** The invariant of the shared store, and how the model-job operations move
    it: each is a lawful step of the job store and a sound step of the ledger
    at once. *)

From Stdlib Require Import ZArith Lia.
From stdpp Require Import base gmap strings list fin_maps sorting.
From S2P Require Import Prelude Core SpendTypes SpendLedger SpendInv SpendProofs.
From S2P Require Import JobTypes JobStore JobInv JobProofs JobLawful JobRequests JobHistory ModelJobs.

#[local] Open Scope Z_scope.

Section Proofs.
Context {J : JsonValues} `{!ModelCodec, !Chrono, !JobCodec} {X : Type}.
Implicit Types (st : Store X).

(** ** The invariant *)

Record store_ok (st : Store X) : Prop := {
  so_jobs : job_inv (st_jobs st);
  so_ledger : ledger_ok (st_ledger st);
}.

(** A step of one scope: both components move lawfully, registered bindings
    stay. *)
Record stepped (scope : JobScope) (st st' : Store X) : Prop := {
  sp_jobs : lawful scope (st_jobs st) (st_jobs st');
  sp_ledger : sound (st_ledger st) (st_ledger st');
  sp_bindings : st_bindings st ⊆ st_bindings st';
}.

Lemma stepped_ok scope st st' : stepped scope st st' → store_ok st'.
Proof. intros [[Hj _ _] [Hl _] _]. by split. Qed.

Lemma stepped_refl scope st : store_ok st → stepped scope st st.
Proof. intros [Hj Hl]. split; [by apply lawful_refl|by apply sound_refl|done]. Qed.

Lemma stepped_trans scope st1 st2 st3 : stepped scope st1 st2 → stepped scope st2 st3 → stepped scope st1 st3.
Proof.
  intros [J1 L1 B1] [J2 L2 B2]. split; [by eapply lawful_trans|by eapply sound_trans|by etrans].
Qed.

(** ** What the accounting sees of a ledger *)

(** Everything but the saved answers. *)
Definition accounting (l : Ledger) : gmap string Z * list ReceiptRow :=
  (spend_accounts l, clear_recovery <$> spend_receipts l).

Lemma accounting_update l p f :
  (∀ row, row ∈ spend_receipts l → p row = true → clear_recovery (f row) = clear_recovery row) →
  accounting (mkLedger (spend_accounts l) (update_where p f (spend_receipts l))) = accounting l.
Proof.
  intros Hf. unfold accounting, update_where. simpl. f_equal. rewrite <-list_fmap_compose.
  apply Forall_fmap_ext_1, Forall_forall. intros row Hr. simpl. destruct (p row) eqn:E; [by apply Hf|done].
Qed.

(** A change of saved answers only. *)
Lemma answers_sound l p f : ledger_ok l →
  (∀ row, clear_recovery (f row) = clear_recovery row) →
  (∀ row, row_ok row → row_ok (f row)) →
  sound l (mkLedger (spend_accounts l) (update_where p f (spend_receipts l))).
Proof.
  intros Hok Hf Hrow.
  assert (∀ row, soft row (f row) ∧ row_later row (f row)) as Hs.
  { intros row. specialize (Hf row). destruct (f row), row. unfold clear_recovery, set_recovery in Hf.
    simpl in *. injection Hf; intros; subst. split; [by unfold soft|by split]. }
  split.
  - apply soft_update_ok; [done|]. intros row Hr _. split; [apply Hs|by apply Hrow, (ok_rows l)].
  - apply update_later. intros row _ _. apply Hs.
Qed.

Lemma drop_answer_step scope st reference : store_ok st →
  stepped scope st (drop_answer reference st)
  ∧ accounting (st_ledger (drop_answer reference st)) = accounting (st_ledger st).
Proof.
  intros Hok. split; [split; simpl|].
  - by apply lawful_refl, Hok.
  - by apply clear_sound, Hok.
  - done.
  - by apply accounting_update.
Qed.

(** ** The job store inside a transaction *)

Lemma apply_job_request_lawful recovery_len db cf scope clock uuids request db' resp :
  job_inv db → request_env db scope uuids request →
  apply_job_request recovery_len db cf scope clock uuids request = Ok (db', resp) → lawful scope db db'.
Proof.
  intros Hi Henv E.
  pose proof (call_step_lawful recovery_len db (mkJobCall cf scope clock uuids request) Hi Henv) as Hl.
  unfold call_step, jobs_in_transaction in Hl. simpl in Hl. by rewrite E in Hl.
Qed.

Variable jobs : ModelJobs X.
Abbreviation scope := (mj_scope jobs).

Lemma op_step st now uuids request st' resp : store_ok st → request_env (st_jobs st) scope uuids request →
  op jobs st now uuids request = Ok (st', resp) →
  stepped scope st st' ∧ st' = with_jobs (st_jobs st') st.
Proof.
  intros Hok Henv. unfold op. walk. intros [= <- <-]. split; [split; simpl|by destruct st].
  - eapply apply_job_request_lawful; [apply Hok|done|done].
  - by apply sound_refl, Hok.
  - done.
Qed.

(** Requests that create no job. *)
Definition creates (request : JobRequest) : bool := match request with Enqueue _ => true | _ => false end.

Lemma ask_step st now request st' resp : store_ok st → creates request = false →
  ask jobs st now request = Ok (st', resp) →
  stepped scope st st' ∧ st' = with_jobs (st_jobs st') st.
Proof. intros Hok Hc. apply op_step; [done|]. by destruct request. Qed.

(** Past the checks common to every request. *)
Lemma apply_job_request_inv recovery_len db cf sc clock uuids request out :
  apply_job_request recovery_len db cf sc clock uuids request = Ok out →
  ∃ now, millisecond_time clock = Ok now ∧ apply_request recovery_len db cf sc now uuids request = Ok out.
Proof.
  unfold apply_job_request. destruct (millisecond_time clock) as [now| |]; rsimpl; [|done..].
  destruct (config_refused cf sc); [done|]. intros E. exists now. split; [done|].
  revert E. destruct (deadline now (cf_claim_lease_seconds cf)); rsimpl; [|done..].
  destruct (deadline now (cf_delivery_lease_seconds cf)); rsimpl; [|done..].
  by destruct (deadline now (cf_retention_seconds cf)).
Qed.

Lemma with_jobs_same st : with_jobs (st_jobs st) st = st.
Proof. by destruct st. Qed.

Lemma ask_get st now job st' resp : ask jobs st now (Get job) = Ok (st', resp) →
  st' = st ∧ ∃ r, resp = RespJob (Some r) ∧ rows_get (st_jobs st) job = Some r ∧ jid_scope job = scope.
Proof.
  unfold ask, op. destruct (apply_job_request _ _ _ _ _ _ _) as [[db r]| |] eqn:E; rsimpl; [|done..].
  intros [= <- <-]. apply apply_job_request_inv in E as (ms & _ & E). revert E. handler.
  destruct (get _ _ _) as [r'| |] eqn:Hg; rsimpl; [|done..]. intros [= <- <-].
  split; [apply with_jobs_same|]. exists r'. split; [done|]. by apply get_ok.
Qed.

Lemma get_row_ok st now job st' r : get_row jobs st now job = Ok (st', r) →
  st' = st ∧ rows_get (st_jobs st) job = Some r ∧ jid_scope job = scope.
Proof.
  unfold get_row. destruct (ask jobs st now (Get job)) as [[st1 resp]| |] eqn:E; rsimpl; [|done..].
  apply ask_get in E as (-> & r' & -> & Hr & Hs). by intros [= <- <-].
Qed.

(** ** Changes of saved answers only *)

Record quiet (st st' : Store X) : Prop := {
  qt_step : stepped scope st st';
  qt_accounting : accounting (st_ledger st') = accounting (st_ledger st);
  qt_jobs : st_jobs st' = st_jobs st;
  qt_bindings : st_bindings st' = st_bindings st;
  qt_admission : st_admission st' = st_admission st;
}.

Lemma quiet_refl st : store_ok st → quiet st st.
Proof. intros Hok. split; [by apply stepped_refl|done..]. Qed.

Lemma quiet_trans st1 st2 st3 : quiet st1 st2 → quiet st2 st3 → quiet st1 st3.
Proof. intros [] []. split; [by eapply stepped_trans|congruence..]. Qed.

Lemma quiet_ok st st' : quiet st st' → store_ok st'.
Proof. intros [Hs _ _ _ _]. by eapply stepped_ok. Qed.

Lemma drop_answer_quiet st reference : store_ok st → quiet st (drop_answer reference st).
Proof. intros Hok. destruct (drop_answer_step scope st reference Hok). by split. Qed.

Lemma constrain_quiet st reference invocation now st' out : store_ok st →
  constrain_job_recovery_in st reference invocation now = Ok (st', out) → quiet st st'.
Proof.
  intros Hok. unfold constrain_job_recovery_in. walk. intros [= <- <-].
  destruct (_ || _); [by apply drop_answer_quiet|].
  destruct (match rr_recovery_expires_at a with Some _ => _ | None => _ end) as [until|];
    [|by apply quiet_refl].
  split; [split; simpl|..]; try done.
  - by apply lawful_refl, Hok.
  - apply answers_sound; [apply Hok|done|]. intros row [A B C D E' F G K L].
    split; simpl; try done. intros Hrec. split; [by apply L|done].
  - by apply accounting_update.
Qed.

(** A resolution reads the jobs and may only drop or narrow a saved answer. *)
Lemma paid_resolution_quiet st receipt invocation now max_bytes st' out : store_ok st →
  paid_resolution st receipt invocation now max_bytes = Ok (st', out) → quiet st st'.
Proof.
  intros Hok. unfold paid_resolution. walk. apply map_err_ok in E0.
  apply constrain_quiet in E0; [|done].
  destruct (_ || _); intros [= <- <-]; [|done].
  eapply quiet_trans; [exact E0|]. by eapply drop_answer_quiet, quiet_ok.
Qed.

Lemma receipt_resolution_quiet st receipt invocation now max_bytes st' out : store_ok st →
  receipt_resolution st receipt invocation now max_bytes = Ok (st', out) → quiet st st'.
Proof.
  intros Hok. unfold receipt_resolution. destruct (is_some _); [by apply paid_resolution_quiet|].
  pose proof (quiet_refl st Hok). destruct (rc_state receipt); by intros [= <- <-].
Qed.

(** ** Steps that keep the accounting *)

(** A step that charges and refunds nothing. *)
Definition unpaid (st st' : Store X) : Prop :=
  stepped scope st st' ∧ accounting (st_ledger st') = accounting (st_ledger st).

Lemma unpaid_refl st : store_ok st → unpaid st st.
Proof. intros Hok. split; [by apply stepped_refl|done]. Qed.

Lemma unpaid_trans st1 st2 st3 : unpaid st1 st2 → unpaid st2 st3 → unpaid st1 st3.
Proof. intros [] []. split; [by eapply stepped_trans|congruence]. Qed.

Lemma unpaid_ok st st' : unpaid st st' → store_ok st'.
Proof. intros [Hs _]. by eapply stepped_ok. Qed.

Lemma quiet_unpaid st st' : quiet st st' → unpaid st st'.
Proof. intros []. by split. Qed.

Lemma drop_answer_unpaid st reference : store_ok st → unpaid st (drop_answer reference st).
Proof. intros Hok. by apply quiet_unpaid, drop_answer_quiet. Qed.

Lemma op_unpaid st now uuids request st' resp : store_ok st → request_env (st_jobs st) scope uuids request →
  op jobs st now uuids request = Ok (st', resp) → unpaid st st'.
Proof. intros Hok Henv E. apply op_step in E as [Hs E]; [|done..]. split; [done|]. by rewrite E. Qed.

Lemma ask_unpaid st now request st' resp : store_ok st → creates request = false →
  ask jobs st now request = Ok (st', resp) → unpaid st st'.
Proof. intros Hok Hc. apply op_unpaid; [done|]. by destruct request. Qed.

Lemma resolve_in_unpaid st now job generation resolution st' : store_ok st →
  resolve_in jobs st now job generation resolution = Ok st' → unpaid st st'.
Proof. intros Hok. unfold resolve_in. walk. intros [= <-]. by eapply ask_unpaid; [| |exact E]. Qed.

(** ** Enqueue and erasure *)

Lemma bind_kind_unpaid st sc kind identity sharing st' : store_ok st →
  bind_kind st sc kind identity sharing = Ok st' →
  unpaid st st' ∧ st_jobs st' = st_jobs st ∧ st_ledger st' = st_ledger st.
Proof.
  intros Hok. unfold bind_kind. destruct (st_bindings st !! (sc, kind)) as [previous|] eqn:E.
  - case_bool_decide; [|done]. intros [= <-]. split; [by apply unpaid_refl|done].
  - intros [= <-]. split; [|done]. split; [split; simpl|done].
    + by apply lawful_refl, Hok.
    + by apply sound_refl, Hok.
    + by apply insert_subseteq.
Qed.

Lemma bind_specs_unpaid st specs st' : store_ok st → bind_specs jobs st specs = Ok st' →
  unpaid st st' ∧ st_jobs st' = st_jobs st ∧ st_ledger st' = st_ledger st.
Proof.
  revert st. induction specs as [|spec specs IH]; intros st Hok; simpl.
  { intros [= <-]. split; [by apply unpaid_refl|done]. }
  walk. intros Hb. apply bind_kind_unpaid in E0 as (Hu & Hj & Hl); [|done].
  apply IH in Hb as (Hu' & -> & ->); [|by eapply unpaid_ok]. split; [by eapply unpaid_trans|done].
Qed.

Lemma constrain_enqueued_quiet st now specs st' : store_ok st →
  constrain_enqueued jobs st now specs = Ok st' → quiet st st'.
Proof.
  revert st. induction specs as [|spec specs IH]; intros st Hok; simpl.
  { intros [= <-]. by apply quiet_refl. }
  walk. intros Hc. assert (quiet st a0) as Hq.
  { destruct a as [reference|]; [|injection E0 as <-; by apply quiet_refl].
    revert E0. walk. intros [= <-]. apply map_err_ok in E0. by eapply constrain_quiet. }
  eapply quiet_trans; [exact Hq|]. by eapply IH; [eapply quiet_ok|].
Qed.

(** Attaching a receipt to an unconfirmed row changes nothing the lifecycle
    depends on. *)
Lemma attach_receipt_lawful db id receipt r : job_inv db → JobStore.jobs db !! id = Some (LiveRow r) →
  lawful (jid_scope id) db (attach_receipt id receipt db)
  ∧ frame id db (attach_receipt id receipt db)
  ∧ JobStore.jobs (attach_receipt id receipt db) !! id = Some (LiveRow (set_receipt (Some receipt) r)).
Proof.
  intros Hi Hr.
  assert (attach_receipt id receipt db = update_live id (set_receipt (Some receipt)) db) as ->.
  { unfold attach_receipt, update_live. f_equal. apply map_eq. intros k.
    destruct (decide (id = k)) as [<-|Hne]; [by rewrite !lookup_alter_eq, Hr|by rewrite !lookup_alter_ne]. }
  destruct (update_live_lawful db (jid_scope id) id (set_receipt (Some receipt)) Hi eq_refl) as [Hl Hf].
  { intros r' Hr'. rewrite Hr in Hr'. injection Hr' as <-. destruct (iv_live _ Hi _ _ Hr) as [_ Hok].
    split_and!; [| |done].
    - pose proof (ro_live _ Hok) as [Ha _]. split; simpl; try done; try congruence; try lia. by auto.
    - destruct Hok as [G1 G2 G3 G4 G5 G6 G7 G8 G9 G10 G11]. by split. }
  split_and!; [done|done|]. simpl. by rewrite lookup_alter_eq, Hr.
Qed.

(** The rows an erasure attaches receipts to are unconfirmed. *)
Definition attachable (db : JobDb) (row : JobRecord) : Prop :=
  unfinished (jr_state row) = true → ∃ r, JobStore.jobs db !! jr_id row = Some (LiveRow r).

(** One row: the answer of its receipt is gone when the job is confirmed,
    erased or expired; a row's identity columns never change. *)
Lemma drop_row_step st now purging confirming row st' : store_ok st →
  (purging = true → attachable (st_jobs st) row) →
  drop_row jobs st now purging confirming row = Ok st' →
  unpaid st st' ∧ st_bindings st' = st_bindings st
  ∧ (∀ row', attachable (st_jobs st) row' → attachable (st_jobs st') row').
Proof.
  intros Hok Hatt. unfold drop_row. walk.
  assert (∀ st1, unpaid st st1 → st_jobs st1 = st_jobs st → st_bindings st1 = st_bindings st →
    unpaid st st1 ∧ st_bindings st1 = st_bindings st
    ∧ (∀ row', attachable (st_jobs st) row' → attachable (st_jobs st1) row')) as Hsame.
  { intros st1 Hu Hj Hb. split_and!; [done|done|]. by rewrite Hj. }
  destruct a as [receipt|]; [|intros [= <-]; by apply Hsame; [apply unpaid_refl|..]].
  walk. apply ask_get in E0 as (-> & current & -> & Hg & Hs).
  destruct (acked _ || _ || _); [|intros [= <-]; by apply Hsame; [apply unpaid_refl|..]]. intros [= <-].
  destruct (purging && unfinished (jr_state row)) eqn:Hp; cycle 1.
  { by apply Hsame; [apply drop_answer_unpaid|..]. }
  bools. destruct (Hatt ltac:(done)) as [r Hr]; [done|].
  pose proof (rows_get_id _ _ _ (so_jobs _ Hok) Hg) as Hid. rewrite Hid.
  destruct (attach_receipt_lawful (st_jobs st) (jr_id row) receipt r (so_jobs _ Hok) Hr) as (Hl & Hf & Hnew).
  rewrite Hs in Hl.
  assert (unpaid st (with_jobs (attach_receipt (jr_id row) receipt (st_jobs st)) st)) as Hu.
  { split; [|done]. split; simpl; [done|by apply sound_refl, Hok|done]. }
  split_and!; [|done|].
  - eapply unpaid_trans; [exact Hu|]. by eapply drop_answer_unpaid, unpaid_ok.
  - intros row' Ha Hun. destruct (Ha Hun) as [r' Hr']. simpl.
    destruct (decide (jr_id row' = jr_id row)) as [E0|E0].
    + rewrite E0. by eexists.
    + exists r'. rewrite <-Hr'. by apply Hf.
Qed.

Lemma drop_affected_step st now purging confirming affected st' : store_ok st →
  (purging = true → ∀ row, row ∈ affected → attachable (st_jobs st) row) →
  drop_affected jobs st now purging confirming affected = Ok st' → unpaid st st'.
Proof.
  revert st. induction affected as [|row affected IH]; intros st Hok Hatt.
  { intros [= <-]. by apply unpaid_refl. }
  cbn [drop_affected]. walk. intros Hd.
  apply drop_row_step in E as (Hu & _ & Ha); [|done|intros ->; by apply Hatt; [done|left]].
  eapply unpaid_trans; [exact Hu|]. eapply IH; [by eapply unpaid_ok| |exact Hd].
  intros Hp row' Hr'. apply Ha, Hatt; [done|by right].
Qed.

Lemma metadata_all_ok db ids rows row : metadata_all db ids = Ok rows → row ∈ rows →
  ∃ id r, id ∈ ids ∧ rows_get db id = Some r ∧ row = without_content r.
Proof.
  revert rows. induction ids as [|id ids IH]; intros rows; simpl; [intros [= <-] ?%elem_of_nil; done|].
  walk. intros [= <-]. rewrite elem_of_cons. intros [->|Hr].
  - unfold metadata in E. apply ok_or_ok in E. destruct (rows_get db id) as [r|] eqn:Hg; [|done].
    injection E as <-. exists id, r. split_and!; [left|done|done].
  - destruct (IH _ eq_refl Hr) as (id' & r & Hin & Hg & ->). exists id', r. split_and!; [by right|done|done].
Qed.

Lemma purge_attachable db sc ms ms' cf owner affected db' resp recovery_len uuids : job_inv db →
  paid_copies_for_request db cf sc ms (PurgeOwner owner) = Ok affected →
  apply_request recovery_len db cf sc ms' uuids (PurgeOwner owner) = Ok (db', resp) →
  ∀ row, row ∈ affected → attachable db' row.
Proof.
  intros Hi. unfold paid_copies_for_request, inspect.
  destruct (select _ _ _ _ _) as [sel| |] eqn:E; rsimpl; [|done..]. intros Hm Hp row Hr _.
  destruct (metadata_all_ok _ _ _ _ Hm Hr) as (id & r & Hid & Hg & ->).
  rewrite <-list_fmap_compose in Hid. apply list_elem_of_fmap in Hid as (r1 & -> & Hr1). simpl in Hg.
  pose proof (select_ok _ _ _ _ _ _ Hi E) as (_ & Hq & _). specialize (Hq r1 Hr1). simpl in Hq. bools.
  destruct (owner_selected _ _ _ _ _ _ Hi E) as [[_ Hst] Hlive]. specialize (Hlive r1 Hr1).
  destruct (Hst r1 Hr1) as [_ Hsc].
  assert (r = r1) as ->. { unfold rows_get in Hg. rewrite Hlive in Hg. by injection Hg. }
  apply (iv_owners _ Hi) in Hq as (o & Ho & Hown).
  assert (o = r1) as ->. { destruct (jr_id r1) as [s1 i1]. simpl in *. rewrite Hlive in Ho. by injection Ho. }
  simpl in Hp. assert (∃ n, resp = RespChanged n) as [n ->].
  { revert Hp. unfold purge_owner. walk. intros [= <- <-]. by eexists. }
  destruct (purge_owner_effect _ _ _ _ _ _ _ Hi Hp) as (_ & _ & He).
  rewrite Hsc in Ho. destruct (He (jid_id (jr_id r1)) r1 Ho Hown) as (r' & Hr' & _).
  exists r'. simpl. rewrite <-Hr'. f_equal. rewrite <-Hsc. by destruct (jr_id r1).
Qed.

(** ** Client requests *)

Lemma request_in_step st now uuids request st' resp : store_ok st →
  request_env (st_jobs st) scope uuids request →
  request_in jobs st now uuids request = Ok (st', resp) → unpaid st st'.
Proof.
  intros Hok Henv. unfold request_in.
  set (replay := match request with Admit _ _ => _ | _ => _ end).
  assert (∀ st1 b, replay = Ok (st1, b) → st1 = st) as Hreplay.
  { unfold replay. intros st1 b. destruct request; try (by intros [= <- _]).
    walk. apply get_row_ok in E as [-> _]. by intros [= <- _]. }
  destruct replay as [[st1 replayed]| |]; rsimpl; [|done..]. rewrite (Hreplay st1 replayed eq_refl).
  destruct replayed; [intros [= <- _]; by apply unpaid_refl|].
  set (specs := match request with Enqueue specs => specs | _ => [] end).
  walk. intros [= <- <-]. apply bind_specs_unpaid in E as (Hu & Hj & Hl); [|done].
  pose proof (unpaid_ok _ _ Hu) as Hok1. pose proof E1 as Eop.
  apply op_unpaid in E1; [|done|by rewrite Hj]. pose proof (unpaid_ok _ _ E1) as Hok2.
  apply constrain_enqueued_quiet in E2; [|done]. pose proof (quiet_ok _ _ E2) as Hok3.
  apply drop_affected_step in E3; [|done|].
  - eapply unpaid_trans; [exact Hu|]. eapply unpaid_trans; [exact E1|].
    eapply unpaid_trans; [by apply quiet_unpaid|done].
  - intros Hp row Hr. destruct request; try done. rewrite (qt_jobs _ _ E2). revert Eop. unfold op.
    destruct (apply_job_request _ _ _ _ _ _ _) as [[db r0]| |] eqn:Eap; rsimpl; [|done..]. intros [= <- <-].
    apply apply_job_request_inv in Eap as (ms & _ & Eap). simpl.
    by eapply (purge_attachable (st_jobs a)); [apply Hok1|exact E0|exact Eap|].
Qed.

(** ** Deliveries and recovery *)

Lemma deliver_next_step st now clock max_bytes total first st' item next : store_ok st →
  deliver_next jobs st now clock max_bytes total first = Ok (Some (st', item, next)) → unpaid st st'.
Proof.
  intros Hok. unfold deliver_next. walk. apply ask_unpaid in E; [|done..].
  destruct j; try done. destruct l as [|delivery l]; [done|]. walk.
  branch; [done|]. walk. intros [= <- _ _].
  eapply unpaid_trans; [exact E|]. pose proof (unpaid_ok _ _ E) as Hok'.
  destruct (jr_receipt _) as [reference|]; [|by apply unpaid_refl].
  destruct (jr_result_expired _); [by apply drop_answer_unpaid|by apply unpaid_refl].
Qed.

Lemma deliver_all_step rounds st now clocks i max_bytes total st' items : store_ok st →
  deliver_all jobs rounds st now clocks i max_bytes total = Ok (st', items) → unpaid st st'.
Proof.
  revert st i total items. induction rounds as [|rounds IH]; intros st i total items Hok; cbn [deliver_all].
  { intros [= <- _]. by apply unpaid_refl. }
  walk. destruct a as [[[st1 item] next]|]; [|intros [= <- _]; by apply unpaid_refl]. walk. intros [= <- _].
  apply deliver_next_step in E; [|done]. eapply unpaid_trans; [exact E|].
  by eapply IH; [eapply unpaid_ok|].
Qed.

Lemma recover_row_step st now clock row st' : store_ok st →
  recover_row jobs st now clock row = Ok st' → unpaid st st'.
Proof.
  intros Hok. unfold recover_row. walk. intros [= <-].
  apply receipt_resolution_quiet, quiet_unpaid in E3; [|done]. pose proof (unpaid_ok _ _ E3) as Hok1.
  apply ask_unpaid in E4; [|done..]. pose proof (unpaid_ok _ _ E4) as Hok2.
  eapply unpaid_trans; [exact E3|]. eapply unpaid_trans; [exact E4|].
  destruct (_ && _); [by apply drop_answer_unpaid|by apply unpaid_refl].
Qed.

Lemma recover_rows_step st now clock rows st' : store_ok st →
  recover_rows jobs st now clock rows = Ok st' → unpaid st st'.
Proof.
  revert st. induction rows as [|row rows IH]; intros st Hok; cbn [recover_rows].
  { intros [= <-]. by apply unpaid_refl. }
  walk. intros Hr. apply recover_row_step in E; [|done]. eapply unpaid_trans; [exact E|].
  by eapply IH; [eapply unpaid_ok|].
Qed.

(** ** Claims *)

Lemma previous_in_step st now clock owner reservation st' done previous : store_ok st →
  previous_in jobs st now clock owner reservation = Ok (st', (done, previous)) →
  unpaid st st' ∧ (done = false → st' = st).
Proof.
  intros Hok. unfold previous_in. walk. apply get_row_ok in E as (-> & Hg & _).
  branch; [intros [= <- <- _]; split; [by apply unpaid_refl|done]|]. walk.
  destruct a as [receipt|]; [|intros [= <- <- _]; split; [by apply unpaid_refl|done]].
  branch; [done|].
  branch; [|intros [= <- <- _]; split; [by apply unpaid_refl|done]].
  walk. intros [= <- <- _]. split; [|done].
  apply receipt_resolution_quiet, quiet_unpaid in E3; [|done]. pose proof (unpaid_ok _ _ E3) as Hok1.
  apply resolve_in_unpaid in E4; [|done]. pose proof (unpaid_ok _ _ E4) as Hok2.
  eapply unpaid_trans; [exact E3|]. eapply unpaid_trans; [exact E4|].
  destruct (recovery_over _ _); [by apply drop_answer_unpaid|by apply unpaid_refl].
Qed.

Lemma adopt_uncertain_step st now owner reference st' row : store_ok st →
  adopt_uncertain jobs st now owner reference = Ok (st', row) → unpaid st st' ∧ row = None.
Proof.
  intros Hok. unfold adopt_uncertain. walk. apply ask_unpaid in E; [|done..].
  destruct j as [|[r|]| | | | | | | | |]; try (by intros [= <- <-]).
  walk. intros [= <- <-]. split; [|done]. eapply unpaid_trans; [exact E|].
  by eapply resolve_in_unpaid; [eapply unpaid_ok|].
Qed.

(** A granted paid claim: the job runs its next generation under the receipt. *)
Record paid_claim (db db' : JobDb) (job : JobId) (receipt : string) (row : JobRecord) : Prop := {
  pc_id : jr_id row = job;
  pc_running : jr_state row = JRunning;
  pc_receipt : jr_receipt row = Some receipt;
  pc_attempts : 1 ≤ jr_max_attempts row ≤ u32_max;
  pc_generation : ∃ prior, rows_get db job = Some prior ∧ jr_generation row = jr_generation prior + 1
    ∧ jr_generation row ≤ jr_max_attempts row;
  pc_stored : ∃ b, rows_get db' job = Some (set_output_bytes b row);
}.

Lemma ask_claim_paid st now job receipt st' resp : store_ok st →
  ask jobs st now (ClaimPaid job receipt) = Ok (st', resp) →
  resp = RespJob None ∨ ∃ row, resp = RespJob (Some row) ∧ paid_claim (st_jobs st) (st_jobs st') job receipt row.
Proof.
  intros Hok. unfold ask, op.
  destruct (apply_job_request _ _ _ _ _ _ _) as [[db r]| |] eqn:E; rsimpl; [|done..]. intros [= <- <-].
  apply apply_job_request_inv in E as (ms & _ & E). revert E. handler. walk.
  apply get_ok in E as [Hg Hs]. pose proof (rows_get_id _ _ _ (so_jobs _ Hok) Hg) as Hid.
  subst job.
  destruct (claim_job_lawful _ (jid_scope (jr_id a)) _ _ _ _ _ (so_jobs _ Hok) Hg eq_refl E1) as (_ & _ & Hc).
  destruct o as [r1|]; [|intros [= <- <-]; by left]. walk. intros [= <- <-]. right. eexists. split; [done|].
  destruct (Hc r1 eq_refl) as (Hid1 & Hr & Hgen & Hle & _ & _ & _ & Hjl & Hrok & _).
  destruct (save_rows _ _ _ E) as (b & Hb & _). simpl in Hb. rewrite Hid1 in Hb.
  assert (jr_max_attempts r1 = jr_max_attempts a) as Hma.
  { apply (jl_frozen _ _ Hjl). by rewrite Hr. }
  split; simpl; [done|done|done|apply Hrok| |].
  - exists a. split_and!; [done|done|lia].
  - exists b. simpl. rewrite Hb. unfold row_of. simpl. by rewrite Hr.
Qed.

(** A claim together with its reservation. *)
Record claimed (st st' : Store X) (job : JobId) (reservation : SpendReservation) (row : JobRecord) : Prop := {
  cd_step : stepped scope st st';
  cd_claim : paid_claim (st_jobs st) (st_jobs st') job (sr_reference reservation) row;
  cd_reserved : ∃ n, n ≤ jr_max_attempts row
    ∧ accepted (st_ledger st) reservation (Some n) false (st_ledger st');
}.

Lemma reserve_claim_spec st now clock owner reservation limit st' row : store_ok st →
  reservation_ok reservation → 0 ≤ limit ≤ u32_max →
  reserve_claim jobs st now clock owner reservation limit = Ok (st', row) →
  match row with
  | None => unpaid st st'
  | Some row => claimed st st' (co_candidate owner) reservation row
  end.
Proof.
  intros Hok Hres Hlim. unfold reserve_claim. walk. pose proof E as Eask.
  apply ask_step in E as [Hs Est]; [|done..]. assert (st_ledger s = st_ledger st) as Hl by (by rewrite Est).
  pose proof (stepped_ok _ _ _ Hs) as Hok1.
  destruct (ask_claim_paid _ _ _ _ _ _ Hok Eask) as [-> |(r & -> & Hpc)].
  { intros [= <- <-]. split; [done|by rewrite Hl]. }
  set (n := if is_some (mj_admission jobs) then _ else _).
  assert (0 ≤ n ≤ u32_max ∧ n ≤ jr_max_attempts r) as [Hn1 Hn2].
  { pose proof (pc_attempts _ _ _ _ _ Hpc). unfold n. destruct (is_some _); lia. }
  walk. destruct b; [|done]. intros [= <- <-]. apply map_err_ok in E.
  assert (limit_ok (Some n)) as Hln by (by intros m [= <-]).
  pose proof (reserve_sound _ _ _ _ _ _ _ (so_ledger _ Hok1) Hres Hln E) as Hsound.
  apply reserve_accepted in E; [|apply Hok1]. rewrite Hl in E, Hsound. split; simpl.
  - destruct Hs as [Hj _ Hb]. by split.
  - done.
  - by exists n.
Qed.

Lemma with_admission_unpaid st st' x : unpaid st st' → unpaid st (with_admission_state x st').
Proof. intros [[Hj Hl Hb] Ha]. split; [by split|done]. Qed.

Lemma with_admission_ok st x : store_ok st → store_ok (with_admission_state x st).
Proof. by intros [Hj Hl]. Qed.

Lemma claim_fresh_spec st now clock owner reservation limit st' row : store_ok st →
  reservation_ok reservation → 0 ≤ limit ≤ u32_max →
  claim_fresh jobs st now clock owner reservation limit = Ok (st', row) →
  match row with
  | None => unpaid st st'
  | Some row => claimed st st' (co_candidate owner) reservation row
  end.
Proof.
  intros Hok Hres Hlim. unfold claim_fresh.
  destruct (mj_admission jobs) as [hooks|]; [|by apply reserve_claim_spec].
  walk. apply get_row_ok in E as (-> & Hg & _).
  set (st0 := with_admission_state x st). assert (store_ok st0) as Hok0 by (by apply with_admission_ok).
  assert (∀ st1, unpaid st0 st1 → unpaid st st1) as Hfrom by (intros st1 [[Hj Hl Hb] Ha]; by split).
  branch; cycle 1.
  { walk. intros [= <- <-]. apply Hfrom. by eapply ask_unpaid; [| |exact E1]. }
  walk. apply reserve_claim_spec in E1; [|done..].
  destruct o as [r|]; [|intros [= <- <-]; by apply Hfrom]. unfold accept_claim.
  destruct (ad_accept _ _ _ _) as [x'|e|]; [|destruct e; try done|done].
  - intros [= <- <-]. destruct E1 as [[Hj Hl Hb] Hpc Hr]. split; simpl; [by split|done|done].
  - walk. intros [= <- <-]. apply Hfrom. by eapply ask_unpaid; [| |exact E2].
Qed.

Lemma claim_in_spec st now clock owner reservation limit st' row : store_ok st →
  reservation_ok reservation → 0 ≤ limit ≤ u32_max →
  claim_in jobs st now clock owner reservation limit = Ok (st', row) →
  match row with
  | None => unpaid st st'
  | Some row => claimed st st' (co_candidate owner) reservation row
  end.
Proof.
  intros Hok Hres Hlim. unfold claim_in. walk. apply previous_in_step in E as [Hu Hsame]; [|done].
  branch; [intros [= <- <-]; done|]. rewrite (Hsame eq_refl) in *.
  destruct o as [receipt|]; [|by apply claim_fresh_spec]. branch; [|by apply claim_fresh_spec].
  intros Ha. by apply adopt_uncertain_step in Ha as [Hu' ->].
Qed.

(** ** Settlement of a claim *)

Lemma finish_claim_step st now clock claim reference state usage evidence output oversized not_retained
    failure retry st' u : store_ok st →
  finish_claim_in jobs st now clock claim reference state usage evidence output oversized not_retained
    failure retry = Ok (st', u) → stepped scope st st'.
Proof.
  intros Hok. unfold finish_claim_in. walk. apply get_row_ok in E as (-> & Hg & _).
  apply map_err_ok in E1, E2. apply save_recovery_sound in E1; [|apply Hok].
  apply finish_in_sound in E2; [|apply E1].
  assert (stepped scope st a) as Hs.
  { assert (stepped scope st (with_ledger l0 st)) as Hs0.
    { split; simpl; [by apply lawful_refl, Hok|by eapply sound_trans|done]. }
    destruct (mj_admission jobs) as [hooks|]; [|by injection E3 as <-].
    revert E3. walk. intros [= <-]. by destruct Hs0; split. }
  pose proof (stepped_ok _ _ _ Hs) as Hok1.
  branch.
  { walk. intros [= <- _]. eapply stepped_trans; [exact Hs|]. eapply ask_unpaid; [done| |exact E4]; done. }
  walk. intros [= <- _]. assert (quiet a s) as Hq.
  { revert E4. branch; [intros [= <- _]; by apply quiet_refl|].
    branch; [walk; by apply paid_resolution_quiet|].
    branch; [intros [= <- _]; by apply quiet_refl|]. branch; [intros [= <- _]; by apply quiet_refl|].
    walk. intros [= <- _]. by apply quiet_refl. }
  apply resolve_in_unpaid in E5 as [Hr _]; [|by eapply quiet_ok].
  eapply stepped_trans; [exact Hs|]. eapply stepped_trans; [apply Hq|exact Hr].
Qed.

(** ** Transactions *)

Lemma transaction_step {A : Type} st (body : Store X → result JobError (Store X * A)) : store_ok st →
  (∀ st' a, body st = Ok (st', a) → stepped scope st st') → stepped scope st (transaction st body).1.
Proof.
  intros Hok Hb. unfold transaction. destruct (body st) as [[st' a]| |]; simpl;
    [by eapply Hb|by apply stepped_refl..].
Qed.

End Proofs.
