(* ===== verification/ModelJobsTheorems.v ===== *)
(** What durable model jobs promise: job store and ledger stay consistent under
    any interleaving of their callers, a claim charges exactly when it is
    granted, and erasure reaches the saved answers. *)

From Stdlib Require Import ZArith Lia Ascii.
From stdpp Require Import base gmap strings list fin_maps sorting.
From S2P Require Import Prelude Core SpendTypes SpendLedger SpendInv SpendProofs.
From S2P Require Import JobTypes JobStore JobInv JobProofs JobLawful JobRequests JobHistory.
From S2P Require Import ModelJobs ModelJobsProofs SpendTheorems JobTheorems.

#[local] Open Scope Z_scope.

(** ** What clearing leaves readable *)

Section Cleared.
Context {J : JsonValues}.

(** No answer is saved under the reference. *)
Definition cleared (l : Ledger) (reference : string) : Prop :=
  ∀ row, find_row l reference = Some row → rr_recovery row = None ∧ rr_recovery_expires_at row = None.

Lemma find_row_clear l reference reference' :
  find_row (update_receipt reference' clear_recovery l) reference =
  (λ row, if has_reference reference' row then clear_recovery row else row) <$> find_row l reference.
Proof. unfold find_row, update_receipt. simpl. by rewrite select_update, head_update. Qed.

Lemma cleared_update l reference reference' : cleared l reference →
  cleared (update_receipt reference' clear_recovery l) reference.
Proof.
  intros Hc row. rewrite find_row_clear. destruct (find_row l reference) as [row0|] eqn:E; [|done].
  intros [= <-]. destruct (has_reference reference' row0); [done|by apply Hc].
Qed.

Lemma cleared_here l reference : cleared (update_receipt reference clear_recovery l) reference.
Proof.
  intros row. rewrite find_row_clear. destruct (find_row l reference) as [row0|] eqn:E; [|done].
  apply find_row_elem in E as [_ Hk]. intros [= <-].
  unfold has_reference. by rewrite bool_decide_eq_true_2.
Qed.

Lemma invocation_reference_clear l reference a i :
  invocation_reference_in (update_receipt reference clear_recovery l) a i = invocation_reference_in l a i.
Proof.
  unfold invocation_reference_in, latest, update_receipt. simpl. rewrite select_update, last_update by done.
  destruct (last _) as [row|]; simpl; [|done]. by destruct (has_reference reference row).
Qed.

End Cleared.

Section Theorems.
Context {J : JsonValues} `{!ModelCodec, !Chrono, !JobCodec, !ExpiryOrder} {X : Type}.
Implicit Types (st : Store X) (jobs : ModelJobs X).

(** The answer of the job's receipt must not survive the job. *)
Definition gone (r : JobRecord) : bool := acked (jr_state r) || jr_purged r || jr_result_expired r.

(** A stored job with a property of its outcome. *)
Definition job_is (P : JobRecord → bool) (db : JobDb) (id : JobId) : Prop := ∃ r, rows_get db id = Some r ∧ P r = true.

Abbreviation job_gone := (job_is gone).

Definition job_acked : JobDb → JobId → Prop := job_is (λ r, acked (jr_state r)).
Definition job_purged : JobDb → JobId → Prop := job_is jr_purged.

(** Properties that only look at the state, the erasure and the expiry. *)
Definition of_outcome (P : JobRecord → bool) : Prop := ∀ r r', jr_state r' = jr_state r → jr_purged r' = jr_purged r →
  jr_result_expired r' = jr_result_expired r → P r' = P r.

Lemma gone_of_outcome : of_outcome gone.
Proof. intros r r' Hs Hp He. unfold gone. by rewrite Hs, Hp, He. Qed.

Lemma attach_outcome P db id id' receipt : of_outcome P → job_is P db id → job_is P (attach_receipt id' receipt db) id.
Proof.
  intros HP (r & Hg & Hr). unfold job_is, rows_get, attach_receipt in *. simpl.
  destruct (decide (id' = id)) as [->|Hne]; [|rewrite lookup_alter_ne by done; by exists r].
  rewrite lookup_alter_eq. destruct (JobStore.jobs db !! id) as [[r0|]|]; [| |done];
    injection Hg as <-; eexists; (split; [done|]); rewrite <-Hr; by apply HP.
Qed.

Lemma acked_gone db id : job_acked db id → job_gone db id.
Proof. intros (r & Hg & Hr). exists r. unfold gone. by rewrite Hr. Qed.

Lemma purged_gone db id : job_purged db id → job_gone db id.
Proof. intros (r & Hg & Hr). exists r. unfold gone. by rewrite Hr, orb_true_r. Qed.

Lemma drop_row_effect jobs st now purging confirming row st' :
  drop_row jobs st now purging confirming row = Ok st' →
  st_bindings st' = st_bindings st
  ∧ (∀ P id, of_outcome P → job_is P (st_jobs st) id → job_is P (st_jobs st') id)
  ∧ (∀ a i, invocation_reference_in (st_ledger st') a i = invocation_reference_in (st_ledger st) a i)
  ∧ (∀ reference, cleared (st_ledger st) reference → cleared (st_ledger st') reference)
  ∧ (∀ receipt, affected_receipt jobs st (purging || confirming) row = Ok (Some receipt) →
       job_gone (st_jobs st) (jr_id row) → cleared (st_ledger st') receipt).
Proof.
  unfold drop_row. walk. destruct a as [receipt|]; [|by intros [= <-]]. walk.
  apply ask_get in E0 as (-> & current & -> & Hg & _). fold (gone current).
  destruct (gone current) eqn:Hgone; cycle 1.
  { intros [= <-]. split_and!; try done. intros receipt' _ (r & Hr & Hr'). congruence. }
  intros [= <-]. split_and!.
  - by destruct (_ && _).
  - intros P id HP Hid. destruct (_ && _); [by apply attach_outcome|done].
  - intros a i. destruct (_ && _); apply invocation_reference_clear.
  - intros reference Hc. destruct (_ && _); by apply cleared_update.
  - intros receipt' [= ->] _. destruct (_ && _); apply cleared_here.
Qed.

Lemma affected_receipt_same jobs st st' erasing row : st_bindings st' = st_bindings st →
  (∀ a i, invocation_reference_in (st_ledger st') a i = invocation_reference_in (st_ledger st) a i) →
  affected_receipt jobs st' erasing row = affected_receipt jobs st erasing row.
Proof.
  intros Hb Hi. unfold affected_receipt, job_receipt_reference_in. rewrite Hb.
  destruct (erasing && _); [|done]. destruct (ok_or _ _) as [[identity sharing]| |]; rsimpl; [|done..].
  destruct (account_scope identity sharing); rsimpl; [|done..]. by rewrite Hi.
Qed.

(** Every affected job that is confirmed, erased or expired loses its answer. *)
Lemma drop_affected_clears jobs st now purging confirming affected st' row receipt :
  drop_affected jobs st now purging confirming affected = Ok st' → row ∈ affected →
  affected_receipt jobs st (purging || confirming) row = Ok (Some receipt) →
  job_gone (st_jobs st) (jr_id row) → cleared (st_ledger st') receipt.
Proof.
  intros Hd Hr Ha Hg.
  assert (∀ l st1, drop_affected jobs st1 now purging confirming l = Ok st' →
    cleared (st_ledger st1) receipt → cleared (st_ledger st') receipt) as Hkeep.
  { induction l as [|row0 l IH]; intros st1; cbn [drop_affected]; [by intros [= <-]|]. walk. intros Hl Hc.
    apply drop_row_effect in E as (_ & _ & _ & Hk & _). eapply IH; [done|by apply Hk]. }
  revert st Hd Ha Hg. induction affected as [|row0 affected IH]; [by apply elem_of_nil in Hr|].
  intros st. cbn [drop_affected]. walk. intros Hd Ha Hg.
  apply drop_row_effect in E as (Hb & Hgone & Hi & Hk & Hc).
  apply elem_of_cons in Hr as [->|Hr]; [by eapply Hkeep, Hc|].
  eapply IH; [done|exact Hd|by rewrite (affected_receipt_same jobs st)|by apply Hgone, Hg; apply gone_of_outcome].
Qed.

(** ** Confirmation and erasure of the jobs *)

Lemma ack_all_acked db scope acks db' results token d : job_inv db →
  ack_all db scope acks = Ok (db', results) → (token, d) ∈ acks → job_acked db' (tk_job token).
Proof.
  revert db results. induction acks as [|[t0 d0] acks IH]; intros db results Hi; [by intros _ ?%elem_of_nil|].
  cbn [ack_all]. walk. intros [= <- <-] [E'|Hin]%elem_of_cons; cycle 1.
  { eapply IH; [|done|done]. by eapply lf_inv, ack_one_lawful. }
  injection E' as <- <-. pose proof E as Eone. apply ack_one_lawful in E as [Hi1 _ _]; [|done].
  assert (∃ r, rows_get j (tk_job token) = Some r ∧ acked (jr_state r) = true) as (r & Hr & Ha).
  { revert Eone. unfold ack_one. destruct (get db scope (tk_job token)) as [r| |] eqn:Hg; rsimpl; [|done..].
    apply get_ok in Hg as [Hg _]. pose proof (rows_get_id _ _ _ Hi Hg) as Hid.
    branch; [done|]. branch; [done|]. branch; [intros [= <- _]; by exists r|]. walk. intros [= <- _].
    destruct (save_rows _ _ _ E3) as (b & Hb & _). simpl in Hb. rewrite Hid in Hb. eexists. split; [exact Hb|].
    unfold row_of. simpl. by destruct d. }
  apply ack_all_lawful in E0; [|done]. exists r. split; [|done].
  by eapply later_acked; [eapply lawful_later|..].
Qed.

Lemma drop_affected_outcome P jobs st now purging confirming affected st' id : of_outcome P →
  drop_affected jobs st now purging confirming affected = Ok st' →
  job_is P (st_jobs st) id → job_is P (st_jobs st') id.
Proof.
  intros HP.
  revert st. induction affected as [|row affected IH]; intros st; cbn [drop_affected]; [by intros [= <-]|].
  walk. intros Hd Hg. apply drop_row_effect in E as (_ & Hkept & _). eapply IH; [done|by apply Hkept].
Qed.

Lemma metadata_all_elem db ids rows id r : metadata_all db ids = Ok rows → id ∈ ids →
  rows_get db id = Some r → without_content r ∈ rows.
Proof.
  revert rows. induction ids as [|id0 ids IH]; intros rows; [by intros _ ?%elem_of_nil|]. cbn [metadata_all].
  walk. intros [= <-] [->|Hin]%elem_of_cons Hg; [|right; by apply IH].
  unfold metadata in E. rewrite Hg in E. injection E as <-. left.
Qed.

(** Requests that confirm or erase jobs. *)
Definition erasing (request : JobRequest) : bool := is_purge request || is_ack request.

(** The receipt of a job's invocation: the ledger's, or else the job's own. *)
Definition charged_as (jobs : ModelJobs X) (st : Store X) (r : JobRecord) (receipt : string) : Prop :=
  jr_execution r = Model ∧ job_receipt_reference_in st (mj_scope jobs) (jr_key r) (jr_kind r) = Ok (Some receipt)
  ∨ jr_receipt r = Some receipt
    ∧ (jr_execution r = Model → job_receipt_reference_in st (mj_scope jobs) (jr_key r) (jr_kind r) = Ok None).

Lemma charged_affected jobs st r receipt : charged_as jobs st r receipt →
  affected_receipt jobs st true r = Ok (Some receipt).
Proof.
  unfold affected_receipt. intros [[He Hr]|[Hr Hm]]; simpl.
  - rewrite bool_decide_eq_true_2 by done. by rewrite Hr.
  - case_bool_decide as He; [|by rewrite Hr]. rewrite (Hm He). rsimpl. by rewrite Hr.
Qed.

(** An erasing request that brings an affected job to an outcome that gives up
    its answer clears the answer. *)
Lemma request_erases P jobs st now uuids request st' resp row receipt : of_outcome P →
  (∀ db id, job_is P db id → job_gone db id) → store_ok st → erasing request = true →
  request_sync jobs st now uuids request = (st', Ok resp) →
  (∀ affected, paid_copies_for_request (st_jobs st) (mj_config jobs) (mj_scope jobs) (floor_millis now) request
     = Ok affected → row ∈ affected) →
  (∀ recovery_len db' ms, apply_request recovery_len (st_jobs st) (mj_config jobs) (mj_scope jobs) ms uuids
     request = Ok (db', resp) → job_is P db' (jr_id row)) →
  job_is P (st_jobs st') (jr_id row) ∧ (charged_as jobs st row receipt → cleared (st_ledger st') receipt).
Proof.
  intros HP HPg Hok He Hreq Haff Hgone.
  assert (request_in jobs st now uuids request = Ok (st', resp)) as Hin.
  { assert (transaction st (λ st, request_in jobs st now uuids request) = (st', Ok resp)) as Ht
      by (by destruct request).
    unfold transaction in Ht. destruct (request_in _ _ _ _ _) as [[st1 r]| |]; [|done..].
    by injection Ht as -> ->. }
  revert Hin. unfold request_in.
  assert (match request with Admit _ _ => _ | _ => Ok (st, false) end = Ok (st, false)) as ->
    by (by destruct request). rsimpl.
  assert (match request with Enqueue specs => specs | _ => [] end = []) as -> by (by destruct request).
  cbn [bind_specs constrain_enqueued]. rsimpl. walk. intros [= <- <-].
  specialize (Haff _ eq_refl). revert E0. unfold op.
  destruct (apply_job_request _ _ _ _ _ _ _) as [[db r0]| |] eqn:Eap; rsimpl; [|done..]. intros [= <- <-].
  apply apply_job_request_inv in Eap as (ms & _ & Eap). apply Hgone in Eap.
  change (is_purge request || is_ack request = true) in He.
  split; [by eapply drop_affected_outcome; [exact HP|exact E1|]|]. intros Hrec%charged_affected.
  eapply drop_affected_clears; [exact E1|exact Haff| |by apply HPg]. rewrite He.
  by rewrite (affected_receipt_same jobs st).
Qed.

Lemma charged_without_content jobs st r receipt : charged_as jobs st r receipt → charged_as jobs st (without_content r) receipt.
Proof. done. Qed.

Lemma ack_erases jobs st now uuids acks st' resp token d r receipt : store_ok st →
  request_sync jobs st now uuids (Ack acks) = (st', Ok resp) → (token, d) ∈ acks →
  rows_get (st_jobs st) (tk_job token) = Some r →
  job_acked (st_jobs st') (tk_job token) ∧ (charged_as jobs st r receipt → cleared (st_ledger st') receipt).
Proof.
  intros Hok Hreq Hin Hg. pose proof (rows_get_id _ _ _ (so_jobs _ Hok) Hg) as Hid.
  destruct (request_erases (λ r, acked (jr_state r)) jobs st now uuids (Ack acks) st' resp (without_content r) receipt) as [Ha Hc];
    try done.
  - intros r0 r1 Hs _ _. by rewrite Hs.
  - apply acked_gone.
  - intros affected. unfold paid_copies_for_request. walk. revert E. branch; [done|]. walk. intros [= <-] Hm.
    eapply metadata_all_elem; [exact Hm| |done].
    rewrite <-list_fmap_compose. apply list_elem_of_fmap. exists (token, d). by split.
  - intros recovery_len db' ms. simpl. unfold ack. walk. intros [= <- <-]. rewrite Hid.
    by eapply ack_all_acked; [apply Hok|..].
  - simpl in Ha. rewrite Hid in Ha. split; [exact Ha|]. intros Hr. by apply Hc, charged_without_content.
Qed.

Lemma purge_erases jobs st now uuids owner st' resp id r receipt : store_ok st →
  request_sync jobs st now uuids (PurgeOwner owner) = (st', Ok resp) →
  rows_get (st_jobs st) (mkJobId (mj_scope jobs) id) = Some r → owner ∈ jr_owners r →
  job_purged (st_jobs st') (mkJobId (mj_scope jobs) id) ∧ (charged_as jobs st r receipt → cleared (st_ledger st') receipt).
Proof.
  intros Hok Hreq Hg Hown. pose proof (rows_get_id _ _ _ (so_jobs _ Hok) Hg) as Hid.
  assert (JobStore.jobs (st_jobs st) !! mkJobId (mj_scope jobs) id = Some (LiveRow r)) as Hlive.
  { unfold rows_get in Hg. destruct (JobStore.jobs (st_jobs st) !! _) as [[r0|]|]; [|injection Hg as <-|done].
    - by injection Hg as <-.
    - by apply elem_of_nil in Hown. }
  destruct (request_erases jr_purged jobs st now uuids (PurgeOwner owner) st' resp (without_content r) receipt) as [Hp Hc];
    try done.
  - by intros r0 r1 _ Hs _.
  - apply purged_gone.
  - intros affected. unfold paid_copies_for_request, inspect.
    destruct (select _ _ _ _ _) as [sel| |] eqn:Esel; rsimpl; [|done..]. intros Hm.
    eapply metadata_all_elem; [exact Hm| |exact Hg]. rewrite <-list_fmap_compose, <-Hid.
    apply list_elem_of_fmap. exists r. split; [done|].
    by eapply owner_rows_selected; [apply Hok|exact Esel|exact Hlive|].
  - intros recovery_len db' ms. simpl. intros Hp. rewrite Hid.
    assert (∃ n, resp = RespChanged n) as [n ->].
    { revert Hp. unfold purge_owner. walk. intros [= <- <-]. by eexists. }
    destruct (purge_owner_effect _ _ _ _ _ _ _ (so_jobs _ Hok) Hp) as (_ & _ & He).
    destruct (He id r Hlive Hown) as (r' & Hr' & Hp'). exists r'. unfold rows_get. by rewrite Hr'.
  - simpl in Hp. rewrite Hid in Hp. split; [exact Hp|]. intros Hr. by apply Hc, charged_without_content.
Qed.

(** C36: confirmation and owner erasure reach the ledger in the same
    transaction.  After an accepted [Ack] every job it names is confirmed, and
    after an accepted owner erasure every job of that owner is purged; in both
    cases, where the job was charged (under the receipt the ledger has for its
    invocation, or else its own), the answer saved under that receipt is gone
    from the ledger, with its deadline. *)
Theorem erasure_reaches_ledger jobs st now uuids st' resp : store_ok st →
  (∀ acks, request_sync jobs st now uuids (Ack acks) = (st', Ok resp) →
     ∀ token d r, (token, d) ∈ acks → rows_get (st_jobs st) (tk_job token) = Some r →
       (∃ r', rows_get (st_jobs st') (tk_job token) = Some r' ∧ acked (jr_state r') = true)
       ∧ ∀ receipt, charged_as jobs st r receipt → cleared (st_ledger st') receipt)
  ∧ (∀ owner, request_sync jobs st now uuids (PurgeOwner owner) = (st', Ok resp) →
     ∀ id r, rows_get (st_jobs st) (mkJobId (mj_scope jobs) id) = Some r → owner ∈ jr_owners r →
       (∃ r', rows_get (st_jobs st') (mkJobId (mj_scope jobs) id) = Some r' ∧ jr_purged r' = true)
       ∧ ∀ receipt, charged_as jobs st r receipt → cleared (st_ledger st') receipt).
Proof.
  intros Hok. split.
  - intros acks Hreq token d r Hin Hg. split; [by apply (ack_erases jobs st now uuids acks st' resp token d r EmptyString)|].
    intros receipt. by eapply ack_erases.
  - intros owner Hreq id r Hg Hown. split; [by apply (purge_erases jobs st now uuids owner st' resp id r EmptyString)|].
    intros receipt. by eapply purge_erases.
Qed.

(** ** Claims *)

Lemma owner_refuse_unpaid jobs st now owner code st' owner' outcome : store_ok st →
  owner_refuse jobs st now owner code = (st', owner', outcome) →
  unpaid jobs st st' ∧ (outcome = Ok tt → co_finished owner' = true).
Proof.
  intros Hok. unfold owner_refuse, transaction.
  destruct (ask jobs st now (RefusePending (co_candidate owner) code)) as [[st1 resp]| |] eqn:E;
    intros [= <- <- <-]; split; try done; [|by apply unpaid_refl..].
  by eapply ask_unpaid; [| |exact E].
Qed.

(** C35: paying and claiming are one step.  When [ModelJob::claim] hands out a
    payload, the job runs its next generation under exactly the reserved
    receipt, the ledger has accepted that reservation within the job's own
    ceiling, and the owner holds that claim; when it hands out nothing, no
    account, receipt or evidence of the ledger has changed and the owner is
    finished.  An error leaves the accounting as it was, except that a claim
    already granted fails when its stored payload cannot be decoded. *)
Theorem claim_pays_once jobs st now refused_at clock stop owner reservation limit st' owner' outcome :
  store_ok st → reservation_ok reservation → 0 ≤ limit ≤ u32_max →
  owner_claim jobs st now refused_at clock stop owner reservation limit = (st', owner', outcome) →
  match outcome with
  | Ok (Some _) => ∃ row, claimed jobs st st' (co_candidate owner) reservation row
      ∧ co_claim owner' = Some (mkJobClaim (jr_id row) (jr_generation row) (sr_reference reservation)
                                  (jr_max_attempts row))
  | Ok None => accounting (st_ledger st') = accounting (st_ledger st) ∧ co_finished owner' = true
  | Err _ => accounting (st_ledger st') = accounting (st_ledger st)
      ∨ ∃ row, claimed jobs st st' (co_candidate owner) reservation row
          ∧ jr_payload row ≫= decode_input = None
  | Panic => accounting (st_ledger st') = accounting (st_ledger st)
  end.
Proof.
  intros Hok Hres Hlim. unfold owner_claim. destruct stop; [by intros [= <- <- <-]|]. unfold transaction.
  destruct (claim_in jobs st now clock owner reservation limit) as [[st1 row]|e|] eqn:Hc.
  - apply claim_in_spec in Hc; [|done..]. destruct row as [row|]; cbn [claimed_payload claim_of].
    + pose proof (pc_receipt _ _ _ _ _ (cd_claim _ _ _ _ _ _ Hc)) as ->. rsimpl.
      destruct (jr_payload row ≫= decode_input) as [[[identity sharing] body]|] eqn:Ep; rsimpl.
      * intros [= <- <- <-]. by exists row.
      * intros [= <- <- <-]. right. by exists row.
    + intros [= <- <- <-]. split; [apply Hc|done].
  - destruct e; try (intros [= <- <- <-]; by left).
    branch; [|intros [= <- <- <-]; by left].
    destruct (owner_refuse _ _ _ _ _) as [[st2 o2] refused] eqn:Er. intros [= <- <- <-].
    destruct (owner_refuse_unpaid _ _ _ _ _ _ _ _ Hok Er) as [[_ Ha] Hf].
    destruct refused as [[]| |]; rsimpl; [split; [done|by apply Hf]|by left|done].
  - by intros [= <- <- <-].
Qed.

(** ** Every caller of the shared store *)

(** Who may touch the store: clients of a scope, its workers, direct callers of
    the ledger, and other users of the job store. *)
Inductive ModelCall : Type :=
| MRequest (uuids : nat → string) (request : JobRequest)
| MCompletions (clocks : nat → DateTime) (limit max_bytes : Z)
| MRecoverPage (clock : DateTime) (kind : string) (after : option string)
| MRecover (clock : DateTime) (owner : ClaimOwner) (reservation : SpendReservation)
| MClaim (refused_at : RawTime) (clock : DateTime) (stop : bool) (owner : ClaimOwner)
    (reservation : SpendReservation) (limit : Z)
| MAdmitRequest (owner : ClaimOwner) (fingerprint : option string)
| MHeartbeat (owner : ClaimOwner)
| MFinish (clock : DateTime) (owner : ClaimOwner) (state : SpendState) (usage : option UsageTrace)
    (output : option Json) (failure : option DiagnosticCode) (retry : bool)
| MRelease (clock : DateTime) (owner : ClaimOwner)
| MRefuse (owner : ClaimOwner) (code : DiagnosticCode)
| MEligible (stop : bool) (owner : ClaimOwner)
| MCanRetry (clock : DateTime) (owner : ClaimOwner) (limit : Z)
| MLedger (clock : DateTime) (call : LedgerCall)
| MJobs (uuids : nat → string) (request : JobRequest).

Record ModelEvent : Type := mkModelEvent {
  me_jobs : ModelJobs X;
  me_now : RawTime;
  me_call : ModelCall;
}.

Definition model_step (st : Store X) (e : ModelEvent) : Store X :=
  let jobs := me_jobs e in
  let now := me_now e in
  match me_call e with
  | MRequest uuids r => (request jobs st now uuids r).1
  | MCompletions clocks limit max_bytes => (completions_sync jobs st now clocks limit max_bytes).1
  | MRecoverPage clock kind after => (recover_page jobs st now clock kind after).1
  | MRecover clock owner reservation => (owner_recover jobs st now clock owner reservation).1.1
  | MClaim refused_at clock stop owner reservation limit =>
      (owner_claim jobs st now refused_at clock stop owner reservation limit).1.1
  | MAdmitRequest owner fingerprint => (owner_admit_request jobs st now owner fingerprint).1
  | MHeartbeat owner => (owner_heartbeat jobs st now owner).1
  | MFinish clock owner state usage output failure retry =>
      (owner_finish jobs st now clock owner state usage output failure retry).1.1
  | MRelease clock owner => (owner_release jobs st now clock owner).1.1
  | MRefuse owner code => (owner_refuse jobs st now owner code).1.1
  | MEligible stop owner => (owner_eligible jobs st now stop owner).1.1
  | MCanRetry clock owner limit => (owner_can_retry jobs st now clock owner limit).1
  | MLedger clock call =>
      with_ledger (ledger_exec (job_recovery_policy st) (mj_retention jobs) (st_ledger st) (nanos now)
                     clock call).1 st
  | MJobs uuids r => (transaction st (λ st, op jobs st now uuids r)).1
  end.

(** Arguments in the range of their types; new ids unused. *)
Definition model_call_ok (st : Store X) (e : ModelEvent) : Prop :=
  match me_call e with
  | MRequest uuids r | MJobs uuids r => request_env (st_jobs st) (mj_scope (me_jobs e)) uuids r
  | MClaim _ _ _ _ reservation limit => reservation_ok reservation ∧ 0 ≤ limit ≤ u32_max
  | MLedger _ call => call_ok call
  | _ => True
  end.

Lemma transacted {A : Type} jobs st (body : Store X → result JobError (Store X * A)) st' outcome :
  transaction st body = (st', outcome) → store_ok st →
  (∀ st1 b, body st = Ok (st1, b) → stepped (mj_scope jobs) st st1) → stepped (mj_scope jobs) st st'.
Proof.
  intros E Hok Hb. pose proof (transaction_step jobs st body Hok Hb) as Hs. by rewrite E in Hs.
Qed.

(** Opens the transaction of a call on the shared store. *)
Ltac transact Hok :=
  match goal with
  | |- context [transaction ?st ?body] =>
      let st' := fresh "st" in let o := fresh "o" in let E := fresh "E" in
      destruct (transaction st body) as [st' o] eqn:E; simpl;
      refine (transacted _ _ _ _ _ E Hok _); clear E; intros ? ?; simpl
  end.

Lemma request_step jobs st now uuids r : store_ok st → request_env (st_jobs st) (mj_scope jobs) uuids r →
  stepped (mj_scope jobs) st (request jobs st now uuids r).1.
Proof.
  intros Hok Henv. unfold request. destruct (client_request r); [|by apply stepped_refl].
  unfold request_sync. destruct (match r with Enqueue _ => _ | _ => _ end) as [[]| |];
    [|by apply stepped_refl..].
  destruct (executor_only r); [by apply stepped_refl|]. transact Hok. by apply request_in_step.
Qed.

Lemma heartbeat_step jobs st now owner : store_ok st →
  stepped (mj_scope jobs) st (owner_heartbeat jobs st now owner).1.
Proof.
  intros Hok. unfold owner_heartbeat. destruct (claim_record owner) as [claim| |]; [|by apply stepped_refl..].
  transact Hok. walk. destruct j; try done. intros [= <- _]. by eapply ask_unpaid; [| |exact E].
Qed.

Lemma claim_step jobs st now refused_at clock stop owner reservation limit : store_ok st →
  reservation_ok reservation → 0 ≤ limit ≤ u32_max →
  stepped (mj_scope jobs) st (owner_claim jobs st now refused_at clock stop owner reservation limit).1.1.
Proof.
  intros Hok Hres Hlim. unfold owner_claim. destruct stop; [by apply stepped_refl|]. unfold transaction.
  destruct (claim_in jobs st now clock owner reservation limit) as [[st1 row]|e|] eqn:Hc;
    [|destruct e; try (by apply stepped_refl)|by apply stepped_refl].
  - apply claim_in_spec in Hc; [|done..].
    assert (stepped (mj_scope jobs) st st1) as Hs by (destruct row; apply Hc).
    by destruct (claimed_payload row), (claim_of row).
  - destruct (final_refusal c); [|by apply stepped_refl].
    destruct (owner_refuse jobs st refused_at owner c) as [[st2 o2] refused] eqn:Er. simpl.
    by eapply owner_refuse_unpaid.
Qed.

Lemma model_step_stepped st e : store_ok st → model_call_ok st e →
  stepped (mj_scope (me_jobs e)) st (model_step st e).
Proof.
  intros Hok Hc. destruct e as [jobs now call]. unfold model_step, model_call_ok in *. simpl in *.
  destruct call; simpl in *.
  - by apply request_step.
  - unfold completions_sync. destruct (_ || _); [by apply stepped_refl|]. transact Hok.
    by apply deliver_all_step.
  - unfold recover_page. transact Hok. walk. apply ask_unpaid in E as [Hs Ha]; [|done..].
    destruct j; try done. walk. intros [= <- _]. eapply stepped_trans; [exact Hs|].
    by eapply recover_rows_step; [eapply stepped_ok|].
  - unfold owner_recover. transact Hok. walk. intros [= <- _]. by eapply previous_in_step.
  - destruct Hc. by apply claim_step.
  - unfold owner_admit_request. destruct (mj_admission jobs) as [hooks|]; [|by apply stepped_refl].
    destruct (claim_record owner) as [claim| |]; [|by apply stepped_refl..]. transact Hok. walk.
    apply ask_unpaid in E as [Hs Ha]; [|done..]. destruct j; try done. destruct stop; [done|]. walk.
    apply get_row_ok in E as [-> _]. intros [= <- _]. destruct Hs as [Hj Hl Hb]. by split.
  - by apply heartbeat_step.
  - unfold owner_finish. destruct (rbind _ _) as [[claim reference]| |]; [|by apply stepped_refl..].
    destruct (retained_output jobs owner output) as [[oversized not_retained] kept]. transact Hok.
    by apply finish_claim_step.
  - unfold owner_release. destruct (rbind _ _) as [[claim reference]| |]; [|by apply stepped_refl..].
    transact Hok. walk. intros [= <- _]. apply map_err_ok in E. apply release_in_sound in E; [|apply Hok].
    assert (stepped (mj_scope jobs) st (with_ledger l st)) as Hs
      by (split; simpl; [by apply lawful_refl, Hok|done|done]).
    eapply stepped_trans; [exact Hs|]. by eapply resolve_in_unpaid; [eapply stepped_ok|].
  - destruct (owner_refuse jobs st now owner code) as [[st1 o1] out] eqn:E. by eapply owner_refuse_unpaid.
  - unfold owner_eligible. destruct stop; [by apply stepped_refl|]. transact Hok. walk.
    apply get_row_ok in E as [-> _]. intros [= <- _]. by apply stepped_refl.
  - unfold owner_can_retry. destruct (is_some _); [by apply stepped_refl|].
    destruct (claim_record owner) as [claim| |]; [|by apply stepped_refl..].
    destruct (_ <=? _); [by apply stepped_refl|]. pose proof (heartbeat_step jobs st now owner Hok) as Hs.
    destruct (owner_heartbeat jobs st now owner) as [st1 [[]| |]]; done.
  - split; simpl; [by apply lawful_refl, Hok|by apply ledger_exec_sound; [apply Hok|]|done].
  - transact Hok. by apply op_unpaid.
Qed.

(** ** Histories of the shared store *)

Definition run_model (st : Store X) (events : list ModelEvent) : Store X := foldl model_step st events.

Fixpoint model_env (st : Store X) (events : list ModelEvent) : Prop :=
  match events with
  | [] => True
  | e :: events => model_call_ok st e ∧ model_env (model_step st e) events
  end.

(** A new database. *)
Definition empty_store (x : X) : Store X := mkStore initialize ∅ empty_ledger x.

(** What later events leave of a store. *)
Definition store_later (st st' : Store X) : Prop :=
  later (st_jobs st) (st_jobs st') ∧ ledger_later (st_ledger st) (st_ledger st')
  ∧ st_bindings st ⊆ st_bindings st'.

Lemma run_model_later st events : store_ok st → model_env st events →
  store_ok (run_model st events) ∧ store_later st (run_model st events).
Proof.
  revert st. induction events as [|e events IH]; intros st Hok; simpl.
  { intros _. split; [done|]. split_and!; [|apply ledger_later_refl|done].
    split; [apply Hok|]. intros id. apply job_evolves_refl. }
  intros [Hc Henv]. pose proof (model_step_stepped st e Hok Hc) as Hs.
  destruct (IH _ (stepped_ok _ _ _ Hs) Henv) as (Hok' & Hj & Hl & Hb). split; [done|].
  destruct Hs as [Sj [_ Sl] Sb]. split_and!; [|by eapply ledger_later_trans|by etrans].
  eapply later_trans; [by eapply lawful_later|done].
Qed.

Lemma empty_store_ok x : store_ok (empty_store x).
Proof. split; [apply initialize_inv|apply empty_ledger_ok]. Qed.

Lemma run_model_app st pre post : run_model st (pre ++ post) = run_model (run_model st pre) post.
Proof. apply foldl_app. Qed.

Lemma model_env_app st pre post :
  model_env st (pre ++ post) ↔ model_env st pre ∧ model_env (run_model st pre) post.
Proof. revert st. induction pre as [|e pre IH]; intros st; simpl; [tauto|]. rewrite IH. tauto. Qed.

(** C34: on one database, whatever client requests, worker steps, direct
    ledger calls and other job-store calls are interleaved, both components
    keep their invariants in every reachable state, and from any point on jobs
    only move forward, receipts and evidence are only added, and the binding a
    kind was registered with never changes. *)
Theorem model_jobs_sound x pre post : model_env (empty_store x) (pre ++ post) →
  let before := run_model (empty_store x) pre in
  let after := run_model (empty_store x) (pre ++ post) in
  store_ok before ∧ store_ok after ∧ store_later before after.
Proof.
  intros [Hpre Hpost]%model_env_app. cbv zeta. rewrite run_model_app.
  destruct (run_model_later _ pre (empty_store_ok x) Hpre) as [Hok _].
  destruct (run_model_later _ post Hok Hpost) as [Hok' Hl]. done.
Qed.

End Theorems.

(** ** A concrete history *)

(** A text framed so that it can be followed by more. *)
Fixpoint frame_text (s : string) : string :=
  match s with
  | EmptyString => "0"
  | String c s => String "1"%char (String c (frame_text s))
  end.

Fixpoint unframe (s : string) : option (string * string) :=
  match s with
  | String m s =>
      if Ascii.eqb m "1"%char then
        match s with
        | String c s => '(t, rest) ← unframe s; Some (String c t, rest)
        | EmptyString => None
        end
      else Some (EmptyString, s)
  | EmptyString => None
  end.

Lemma unframe_frame s rest : unframe (frame_text s +:+ rest) = Some (s, rest).
Proof. induction s as [|c s IH]; [done|]. simpl. by rewrite IH. Qed.

Definition framed_key (scope : JobScope) (key : string) : string :=
  frame_text (sc_tenant scope) +:+ frame_text (sc_incarnation scope) +:+ frame_text (sc_queue scope)
  +:+ frame_text key +:+ ""%string.

Definition unframe_key (s : string) : option (JobScope * string) :=
  '(tenant, s) ← unframe s; '(incarnation, s) ← unframe s; '(queue, s) ← unframe s;
  '(key, s) ← unframe s; Some (mkJobScope tenant incarnation queue, key).

Lemma unframe_framed scope key : unframe_key (framed_key scope key) = Some (scope, key).
Proof.
  unfold unframe_key, framed_key. rewrite unframe_frame. cbn. rewrite unframe_frame. cbn.
  rewrite unframe_frame. cbn. rewrite unframe_frame. cbn. by destruct scope.
Qed.

Section Story.
#[local] Existing Instances text_json chrono_range plain_codec.
#[local] Instance story_expiry : ExpiryOrder := expiry_merge.

Definition chat_identity : BindingIdentity := mkBindingIdentity "tenant" "provider" "1" "account".

#[local] Instance text_codec : ModelCodec := {|
  decode_input payload := Some (chat_identity, None, payload);
  encode_json body := body;
  json_len body := byte_len body;
  job_invocation_key := framed_key;
  decode_invocation := unframe_key;
  decode_invocation_key := unframe_framed;
  execution_invocation_identity identity invocation := bi_provider identity +:+ invocation;
  shared_revision key := key;
  account_revision tenant account := tenant +:+ account;
|}.

Definition chat_scope : JobScope := mkJobScope "tenant" "1" "chat".
Definition chat_jobs : ModelJobs unit := mkModelJobs unit chat_scope default_config (100 * nanos_per_second) None.
Definition chat_spec : JobSpec := mkJobSpec "key" None ["ann"] "chat" Model "question" None 2 None.
Definition chat_job : JobId := mkJobId chat_scope "a".
Definition chat_reservation : SpendReservation :=
  mkReservation "receipt" "account:tenantaccount" ("provider" +:+ framed_key chat_scope "key") "binding" (Some 3).
Definition idle_owner : ClaimOwner := mkOwner Retain chat_job None false.
Definition busy_owner : ClaimOwner := mkOwner Retain chat_job (Some (mkJobClaim chat_job 1 "receipt" 2)) false.

Definition chat_event (s : Z) (call : ModelCall) : ModelEvent := mkModelEvent chat_jobs (mkRawTime s 0) call.

(** Enqueued; claimed and reserved; answered; delivered. *)
Definition chat_story : list ModelEvent :=
  [ chat_event 1 (MRequest (λ _, "a"%string) (Enqueue [chat_spec]));
    chat_event 2 (MClaim (mkRawTime 2 0) (2 * nanos_per_second) false idle_owner chat_reservation 5);
    chat_event 3 (MFinish (3 * nanos_per_second) busy_owner SpendUnknown None (Some "answer"%string) None false);
    chat_event 4 (MCompletions (λ _, 4 * nanos_per_second) 5 4096) ].

Definition chat_after (n : nat) : Store unit := run_model (empty_store tt) (take n chat_story).

Lemma chat_env n : model_env (empty_store tt) (take n chat_story).
Proof.
  assert (request_env initialize chat_scope (λ _, "a"%string) (Enqueue [chat_spec])) as He.
  { split_and!.
    - intros m _. apply lookup_empty.
    - simpl. lia.
    - intros spec ->%list_elem_of_singleton. unfold u32_max. simpl. lia. }
  assert (reservation_ok chat_reservation ∧ 0 ≤ 5 ≤ u32_max) as Hr.
  { split; [by vm_compute|unfold u32_max; lia]. }
  do 5 (destruct n as [|n]; [by repeat (split; [done|])|]). by repeat (split; [done|]).
Qed.

Lemma chat_ok n : store_ok (chat_after n).
Proof. apply (run_model_later _ _ (empty_store_ok tt) (chat_env n)). Qed.

(** The answer is saved while the job is delivered. *)
Lemma chat_answered :
  rr_recovery <$> find_row (st_ledger (chat_after 4)) "receipt" = Some (Some "answer"%string).
Proof. vm_compute. reflexivity. Qed.

Lemma model_jobs_sound_witness :
  store_ok (run_model (empty_store tt) (take 2 chat_story ++ drop 2 chat_story))
  ∧ jr_state <$> rows_get (st_jobs (chat_after 4)) chat_job = Some JSucceeded.
Proof.
  split; [|vm_compute; reflexivity].
  exact (proj1 (proj2 (model_jobs_sound tt (take 2 chat_story) (drop 2 chat_story) (chat_env 4)))).
Defined.

Lemma claim_pays_once_witness :
  ∃ st' owner' row,
    owner_claim chat_jobs (chat_after 1) (mkRawTime 2 0) (mkRawTime 2 0) (2 * nanos_per_second) false idle_owner
      chat_reservation 5 = (st', owner', Ok (Some "question"%string))
    ∧ claimed chat_jobs (chat_after 1) st' chat_job chat_reservation row.
Proof.
  destruct (owner_claim chat_jobs (chat_after 1) (mkRawTime 2 0) (mkRawTime 2 0) (2 * nanos_per_second) false
    idle_owner chat_reservation 5) as [[st' owner'] outcome] eqn:E.
  assert (outcome = Ok (Some "question"%string)) as ->.
  { transitivity (owner_claim chat_jobs (chat_after 1) (mkRawTime 2 0) (mkRawTime 2 0) (2 * nanos_per_second)
      false idle_owner chat_reservation 5).2; [by rewrite E|vm_compute; reflexivity]. }
  destruct (claim_pays_once chat_jobs (chat_after 1) (mkRawTime 2 0) (mkRawTime 2 0) (2 * nanos_per_second)
    false idle_owner chat_reservation 5 st' owner' (Ok (Some "question"%string)) (chat_ok 1)) as (row & Hc & _);
    [vm_compute; discriminate|unfold u32_max; lia|exact E|].
  exists st', owner', row. split; [reflexivity|exact Hc].
Defined.

Lemma erasure_reaches_ledger_witness :
  ∃ st', request_sync chat_jobs (chat_after 4) (mkRawTime 5 0) (λ _, ""%string)
           (Ack [(mkToken chat_job 1, DAccepted)]) = (st', Ok (RespAcks [Acked DAccepted]))
    ∧ cleared (st_ledger st') "receipt".
Proof.
  destruct (request_sync chat_jobs (chat_after 4) (mkRawTime 5 0) (λ _, ""%string)
    (Ack [(mkToken chat_job 1, DAccepted)])) as [st' outcome] eqn:E.
  assert (outcome = Ok (RespAcks [Acked DAccepted])) as ->.
  { transitivity (request_sync chat_jobs (chat_after 4) (mkRawTime 5 0) (λ _, ""%string)
      (Ack [(mkToken chat_job 1, DAccepted)])).2; [by rewrite E|vm_compute; reflexivity]. }
  exists st'. split; [reflexivity|].
  set (r := default (new_job chat_job "" None 0 chat_spec) (rows_get (st_jobs (chat_after 4)) chat_job)).
  refine (proj2 (proj1 (erasure_reaches_ledger chat_jobs (chat_after 4) (mkRawTime 5 0) (λ _, ""%string)
    st' (RespAcks [Acked DAccepted]) (chat_ok 4)) [(mkToken chat_job 1, DAccepted)] E (mkToken chat_job 1) DAccepted r _ _)
    "receipt"%string _).
  - left.
  - vm_compute. reflexivity.
  - left. split; vm_compute; reflexivity.
Defined.

End Story.
