(* ===== verification/PortabilityTypes.v ===== *)
(** [symbiotic-portability], [lib.rs] and [model.rs]: limits, errors and the
    wire values of the [data-portability/1] contract.

    [Value] is the JSON value of a product payload, which the crate never
    interprets. *)

From Stdlib Require Import ZArith Lia.
From stdpp Require Import base gmap strings list.
From S2P Require Import Prelude.

#[local] Open Scope Z_scope.

(** ** Limits and errors *)

Record Limits : Type := mkLimits {
  max_input_bytes : Z;
  max_records : Z;
  max_artifacts : Z;
  max_artifact_bytes : Z;
  max_table_cells : Z;
}.

Definition default_limits : Limits :=
  mkLimits (8 * 1024 * 1024) 10000 10000 (64 * 1024 * 1024) 100000.

Inductive PortError : Type :=
| UnsupportedVersion
| InvalidValue
| DuplicateIdentity
| ScopeMismatch
| ArtifactMismatch
| ArtifactUnavailable
| LimitExceeded.

#[export] Instance PortError_eq_dec : EqDecision PortError.
Proof. solve_decision. Defined.

(** ** Scopes and identities *)

Inductive Sensitivity : Type := Public | Shareable | Private | Restricted.

#[export] Instance Sensitivity_eq_dec : EqDecision Sensitivity.
Proof. solve_decision. Defined.

(** The derived order follows the declaration. *)
Definition sensitivity_rank (s : Sensitivity) : Z :=
  match s with Public => 0 | Shareable => 1 | Private => 2 | Restricted => 3 end.

Record Scope : Type := mkScope {
  sp_space : string;
  sp_audience : list string;
  sp_sensitivity : Sensitivity;
}.

Record RecordKey : Type := mkRecordKey {
  rk_application : string;
  rk_space : string;
  rk_record_type : string;
  rk_record_id : string;
}.

#[export] Instance RecordKey_eq_dec : EqDecision RecordKey.
Proof. solve_decision. Defined.

#[export] Instance RecordKey_countable : Countable RecordKey.
Proof.
  apply (inj_countable' (λ k, (rk_application k, rk_space k, rk_record_type k, rk_record_id k))
           (λ '(a, s, t, i), mkRecordKey a s t i)). by intros [].
Defined.

Record EvidenceRef : Type := mkEvidenceRef {
  ev_application : string;
  ev_space : string;
  ev_record_type : string;
  ev_record_id : string;
  ev_revision : option string;
}.

Record Provenance : Type := mkProvenance {
  pv_producer : string;
  pv_producer_record_id : option string;
  pv_captured_at : option string;
  pv_locator : option string;
  pv_derived_from : list EvidenceRef;
  pv_supersedes : option EvidenceRef;
}.

Inductive Authority : Type := ApplicationRecord | Source | DerivedClaim.

(** ** Artifacts *)

Inductive ArtifactRole : Type := CapturedOriginal | ApplicationSerialization | Attachment | Derivative.

Record Binding : Type := mkBinding {
  bd_binding_id : string;
  bd_artifact_id : string;
  bd_role : ArtifactRole;
  bd_scope : Scope;
  bd_asserted_media_type : string;
  bd_display_filename : option string;
  bd_provenance : Provenance;
}.

Inductive ArtifactTarget : Type :=
| BundleFile (path : string)
| External (resource_id : string) (version_id : option string)
| Unavailable (reason : string).

Inductive Preservation : Type := IncludedVerified | ExternalVerified | ReferenceOnly | PresUnavailable.

Record Artifact : Type := mkArtifact {
  af_artifact_id : string;
  af_sha256 : option string;
  af_byte_length : option Z;
  af_target : ArtifactTarget;
  af_preservation : Preservation;
}.

(** ** Records *)

Record PortableRecord (Value : Type) : Type := mkPortableRecord {
  pr_application : string;
  pr_space : string;
  pr_record_type : string;
  pr_record_id : string;
  pr_record_schema_version : Z;
  pr_authority : Authority;
  pr_revision : option string;
  pr_scope : Scope;
  pr_payload : gmap string Value;
  pr_provenance : Provenance;
  pr_artifact_bindings : list Binding;
}.
Arguments mkPortableRecord {Value}.
Arguments pr_application {Value}.
Arguments pr_space {Value}.
Arguments pr_record_type {Value}.
Arguments pr_record_id {Value}.
Arguments pr_record_schema_version {Value}.
Arguments pr_authority {Value}.
Arguments pr_revision {Value}.
Arguments pr_scope {Value}.
Arguments pr_payload {Value}.
Arguments pr_provenance {Value}.
Arguments pr_artifact_bindings {Value}.

(** [PortableRecord::key]. *)
Definition record_key {Value : Type} (r : PortableRecord Value) : RecordKey :=
  mkRecordKey (pr_application r) (pr_space r) (pr_record_type r) (pr_record_id r).

(** ** Bundles *)

Inductive Format : Type := FmtJson | FmtMarkdown | FmtCsv | FmtDocx | FmtXlsx | FmtPdf | FmtOriginal.
Inductive ExportMode : Type := ExportTyped | ExportPresentation | ExactBytes | ExportNone.
Inductive ImportMode : Type := ImportTyped | Mapped | Extract | PreserveOnly | ImportNone.
Inductive EditMode : Type := Preview | Apply | EditNone.

Record Capability : Type := mkCapability {
  cp_format : Format;
  cp_profile : string;
  cp_export : ExportMode;
  cp_import : ImportMode;
  cp_edit : EditMode;
  cp_editable_fields : list string;
  cp_losses : list string;
}.

Record Producer : Type := mkProducer { pd_application : string; pd_version : string }.

Inductive EnumerationKind : Type := Selection | LiveTraversal | Snapshot.

#[export] Instance EnumerationKind_eq_dec : EqDecision EnumerationKind.
Proof. solve_decision. Defined.

Record Enumeration : Type := mkEnumeration {
  en_kind : EnumerationKind;
  en_complete : bool;
  en_selection : string;
  en_snapshot_revision : option string;
  en_excluded_record_types : list string;
}.

Record Bundle (Value : Type) : Type := mkBundle {
  bn_contract : string;
  bn_profile : string;
  bn_bundle_id : string;
  bn_producer : Producer;
  bn_exported_at : string;
  bn_scope : Scope;
  bn_enumeration : Enumeration;
  bn_capabilities : list Capability;
  bn_records : list (PortableRecord Value);
  bn_artifacts : list Artifact;
}.
Arguments mkBundle {Value}.
Arguments bn_contract {Value}.
Arguments bn_profile {Value}.
Arguments bn_bundle_id {Value}.
Arguments bn_producer {Value}.
Arguments bn_exported_at {Value}.
Arguments bn_scope {Value}.
Arguments bn_enumeration {Value}.
Arguments bn_capabilities {Value}.
Arguments bn_records {Value}.
Arguments bn_artifacts {Value}.

(** ** Change plans *)

Inductive Change (Value : Type) : Type :=
| Create (key : RecordKey) (value : gmap string Value)
| Update (key : RecordKey) (base_revision : string) (set : gmap string Value) (clear : list string)
| Delete (key : RecordKey) (base_revision reason : string).
Arguments Create {Value}.
Arguments Update {Value}.
Arguments Delete {Value}.

(** [Change::key]: the four identity fields of every variant. *)
Definition change_key {Value : Type} (c : Change Value) : RecordKey :=
  match c with Create k _ | Update k _ _ _ | Delete k _ _ => k end.

Record ChangePlan (Value : Type) : Type := mkChangePlan {
  pl_contract : string;
  pl_profile : string;
  pl_operation_id : string;
  pl_bundle_id : string;
  pl_scope : Scope;
  pl_changes : list (Change Value);
}.
Arguments mkChangePlan {Value}.
Arguments pl_contract {Value}.
Arguments pl_profile {Value}.
Arguments pl_operation_id {Value}.
Arguments pl_bundle_id {Value}.
Arguments pl_scope {Value}.
Arguments pl_changes {Value}.

(** ** Tables *)

Record Table : Type := mkTable {
  columns : list string;
  rows : list (list string);
}.

Record Presentation : Type := mkPresentation {
  bytes : Bytes;
  losses : list string;
}.
