(* ===== verification/PortableTable.v ===== *)
(** [symbiotic-portability], [table.rs]: tables of strings, the CSV import and
    the CSV and Markdown presentations.

    The [csv] crate is the class [Csv]: what its reader yields for a byte
    string (the header row, then one outcome per record) and what its writer
    produces for a list of rows. *)

From Stdlib Require Import ZArith Lia Ascii.
From stdpp Require Import base gmap strings list.
From S2P Require Import Prelude Text PortabilityTypes.

#[local] Open Scope Z_scope.

Class Csv : Type := {
  csv_headers : Bytes → option (list string);
  csv_records : Bytes → list (option (list string));
  csv_write : list (list string) → option Bytes;
}.

(** [a.saturating_mul(b)] on [usize]. *)
Definition saturating_mul (a b : Z) : Z := Z.min usize_max (a * b).

Definition sum_lengths (l : list string) : Z := foldr (λ s n, byte_len s + n) 0 l.

Definition vec_len {A : Type} (l : list A) : Z := Z.of_nat (length l).

(** The cells of a table, header row included. *)
Definition cell_count (width height : Z) : Z := saturating_mul width (saturating_add usize_max height 1).

Definition validate_table (t : Table) (limits : Limits) : result PortError unit :=
  let? _ := reject_if (bool_decide (columns t = []) || existsb blank (columns t)) InvalidValue in
  let? _ := reject_if (negb (bool_decide (size (list_to_set (columns t) : gset string) = length (columns t))))
              DuplicateIdentity in
  let? _ := reject_if (max_table_cells limits <? cell_count (vec_len (columns t)) (vec_len (rows t)))
              LimitExceeded in
  let? _ := reject_if (existsb (λ r, negb (vec_len r =? vec_len (columns t))) (rows t)) InvalidValue in
  reject_if (max_input_bytes limits <? sum_lengths (columns t ++ concat (rows t))) LimitExceeded.

(** The loop of [parse_csv]: [seen] rows so far, counted against the limit. *)
Fixpoint csv_rows (width : Z) (limits : Limits) (seen : Z) (records : list (option (list string))) :
    result PortError (list (list string)) :=
  match records with
  | [] => Ok []
  | record :: records =>
      let? row := ok_or record InvalidValue in
      let? _ := reject_if (max_table_cells limits <? saturating_mul width (seen + 1 + 1)) LimitExceeded in
      let? rows := csv_rows width limits (seen + 1) records in
      Ok (row :: rows)
  end.

Section Csv.
Context `{!Csv}.

Definition parse_csv (input : Bytes) (limits : Limits) : result PortError Table :=
  let? _ := reject_if (max_input_bytes limits <? byte_len input) LimitExceeded in
  let? _ := reject_if (negb (utf8_valid input)) InvalidValue in
  let? columns := ok_or (csv_headers input) InvalidValue in
  let? rows := csv_rows (vec_len columns) limits 0 (csv_records input) in
  let table := mkTable columns rows in
  let? _ := validate_table table limits in
  Ok table.

(** Cells a spreadsheet would evaluate. *)
Definition formula_like (value : string) : bool :=
  starts_with_any ["="; "+"; "-"; "@"]%char (trim_start value)
  || starts_with_any ["009"; "013"; "010"]%char value.

Definition spreadsheet_text (value : string) : string :=
  if formula_like value then "'" +:+ value else value.

Definition csv_loss : string :=
  "Formula-like cells were prefixed with an apostrophe for spreadsheet presentation.".

Definition render_csv (t : Table) (limits : Limits) : result PortError Presentation :=
  let? _ := validate_table t limits in
  let all := columns t :: rows t in
  let changed := existsb (existsb (λ v, negb (bool_decide (spreadsheet_text v = v)))) all in
  let? output := ok_or (csv_write (fmap (M:=list) (fmap (M:=list) spreadsheet_text) all)) InvalidValue in
  let? _ := reject_if (max_input_bytes limits <? byte_len output) LimitExceeded in
  Ok (mkPresentation output (if changed then [csv_loss] else [])).

End Csv.

(** ** Markdown *)

Definition newline : Ascii.ascii := "010"%char.
Definition carriage_return : Ascii.ascii := "013"%char.

(** [escape]: the replacements in the order of the source. *)
Definition escape (v : string) : string :=
  let v := replace_char "&" "&amp;" v in
  let v := replace_char "<" "&lt;" v in
  let v := replace_char ">" "&gt;" v in
  let v := replace_char "\" "\\" v in
  let v := replace_char "|" "\|" v in
  let v := replace_char "*" "\*" v in
  let v := replace_char "_" "\_" v in
  let v := replace_char "`" "\`" v in
  let v := replace_char "[" "\[" v in
  let v := replace_char "]" "\]" v in
  let v := replace_char carriage_return "" v in
  replace_char newline "<br>" v.

(** [row]. *)
Definition markdown_row (values : list string) : string :=
  "| " +:+ join " | " (escape <$> values) +:+ " |" +:+ String newline "".

Definition markdown_text (t : Table) : string :=
  foldl (λ text r, text +:+ markdown_row r)
    (markdown_row (columns t) +:+ markdown_row (replicate (length (columns t)) "---"%string)) (rows t).

Definition markdown_loss : string :=
  "Markdown table presentation carries string cells only; newlines and markup are escaped.".

Definition render_markdown (t : Table) (limits : Limits) : result PortError Presentation :=
  let? _ := validate_table t limits in
  let text := markdown_text t in
  let? _ := reject_if (max_input_bytes limits <? byte_len text) LimitExceeded in
  Ok (mkPresentation text [markdown_loss]).
