(* ===== verification/PortableValidate.v ===== *)
(** [symbiotic-portability], [validate.rs]: decoding and structural validation
    of bundles and change plans, and the verification of included files.

    The JSON crate is the class [WireJson]: what a skimming deserializer meets
    at the root of a document, its parse into a tree that keeps repeated keys,
    and the typed decoders.  SHA-256 in hexadecimal and the RFC 3339 parser are
    fields of [Digests].  The file system is the class [FileSystem], a byte
    source any instance of [Read]. *)

From Stdlib Require Import ZArith Lia Ascii.
From stdpp Require Import base gmap strings list.
From S2P Require Import Prelude Text PortabilityTypes.

#[local] Open Scope Z_scope.

(** ** What other crates do *)

(** A document without its scalars, repeated keys kept. *)
Inductive Doc : Type :=
| DScalar
| DArray (elements : list Doc)
| DObject (fields : list (string * Doc)).

(** A field of the root as a skimming visitor sees it: an array, each element
    skipped or unreadable, another value, or unreadable input (after which
    nothing follows; a key that cannot be read is such a field). *)
Inductive Skimmed : Type :=
| SkimArray (elements : list bool)
| SkimOther
| SkimUnreadable.

Class WireJson (Value : Type) : Type := {
  skim_root : Bytes → option (list (string * Skimmed));
  parse_doc : Bytes → option Doc;
  from_json_bundle : Bytes → option (Bundle Value);
  from_json_plan : Bytes → option (ChangePlan Value);
}.

Class Digests : Type := {
  sha256_hex : Bytes → string;
  rfc3339_ok : string → bool;
}.

(** [Read::read] with a buffer of [n] bytes: the bytes read and the source
    after them, or an I/O error.  [remaining] is what a source has left; an
    empty read of a non-empty buffer is its end. *)
Class Read (R : Type) : Type := {
  read : R → Z → option (R * Bytes);
  remaining : R → Bytes;
  read_law r n r' b :
    0 ≤ n → read r n = Some (r', b) →
    remaining r = b +:+ remaining r' ∧ byte_len b ≤ n ∧ (b = EmptyString → 0 < n → remaining r = EmptyString);
}.

Inductive FileKind : Type := RegularFile | Symlink | OtherKind.

#[export] Instance FileKind_eq_dec : EqDecision FileKind.
Proof. solve_decision. Defined.

(** [symlink_metadata] and [File::open] with the opened file's metadata, on
    paths held as their components. *)
Class FileSystem (R : Type) : Type := {
  symlink_metadata : list string → option FileKind;
  open_file : list string → option (option FileKind * R);
}.

(** ** Decoding *)

Definition skim_array (limit : Z) (value : Skimmed) : result PortError unit :=
  match value with
  | SkimArray elements =>
      let? _ := for_each (λ count (readable : bool),
                  let? _ := reject_if (negb readable) InvalidValue in
                  let? _ := reject_if (limit <? count + 1) LimitExceeded in
                  Ok (count + 1)) 0 elements in
      Ok tt
  | SkimOther | SkimUnreadable => Err InvalidValue
  end.

(** [CheckRoot::visit_map]. *)
Definition skim_field (limits : Limits) (field : string * Skimmed) : result PortError unit :=
  let '(key, value) := field in
  if bool_decide (key = "records"%string) || bool_decide (key = "changes"%string)
  then skim_array (max_records limits) value
  else if bool_decide (key = "artifacts"%string) then skim_array (max_artifacts limits) value
  else match value with SkimUnreadable => Err InvalidValue | SkimArray elements =>
         reject_if (negb (forallb id elements)) InvalidValue | SkimOther => Ok tt end.

(** [Check::visit_map] with the visitor of the field values. *)
Definition unique_fields (check : Doc → bool) : gset string → list (string * Doc) → bool :=
  fix go seen fields :=
    match fields with
    | [] => true
    | (key, value) :: fields =>
        negb (bool_decide (key ∈ seen)) && check value && go ({[key]} ∪ seen) fields
    end.

(** [UniqueJson]: no object of the document repeats a key. *)
Fixpoint unique_json (d : Doc) : bool :=
  match d with
  | DScalar => true
  | DArray elements => forallb unique_json elements
  | DObject fields => unique_fields unique_json ∅ fields
  end.

Section Decode.
Context {Value : Type} `{!WireJson Value}.

Definition decode {T : Type} (from_json : Bytes → option T) (input : Bytes) (limits : Limits) :
    result PortError T :=
  let? _ := reject_if (max_input_bytes limits <? byte_len input) LimitExceeded in
  let? fields := ok_or (skim_root input) InvalidValue in
  let? _ := for_each (λ _, skim_field limits) tt fields in
  let? doc := ok_or (parse_doc input) InvalidValue in
  let? _ := reject_if (negb (unique_json doc)) InvalidValue in
  ok_or (from_json input) InvalidValue.

End Decode.

(** ** Validation *)

Definition nul : Ascii.ascii := "000"%char.

Definition nonempty (value : string) : result PortError unit :=
  reject_if (blank value || contains_char nul value) InvalidValue.

(** [BTreeSet::insert] returning false is a repeated identity. *)
Definition insert_unique {K : Type} `{Countable K} (k : K) (seen : gset K) : result PortError (gset K) :=
  if bool_decide (k ∈ seen) then Err DuplicateIdentity else Ok ({[k]} ∪ seen).

Definition unique (values : list string) : result PortError unit :=
  let? _ := for_each (λ found v, let? _ := nonempty v in insert_unique v found) ∅ values in Ok tt.

(** [scope]. *)
Definition check_scope (s : Scope) : result PortError unit :=
  let? _ := nonempty (sp_space s) in unique (sp_audience s).

Definition validate_scope (child parent : Scope) : result PortError unit :=
  let? _ := check_scope child in
  let? _ := check_scope parent in
  reject_if (negb (bool_decide (sp_space child = sp_space parent))
             || (sensitivity_rank (sp_sensitivity child) <? sensitivity_rank (sp_sensitivity parent))
             || existsb (λ v, negb (bool_decide (v ∈ sp_audience parent))) (sp_audience child)) ScopeMismatch.

Definition check_key (k : RecordKey) : result PortError unit :=
  for_each (λ _, nonempty) tt [rk_application k; rk_space k; rk_record_type k; rk_record_id k].

Definition evidence_key (e : EvidenceRef) : RecordKey :=
  mkRecordKey (ev_application e) (ev_space e) (ev_record_type e) (ev_record_id e).

Definition check_optional (check : string → result PortError unit) (o : option string) : result PortError unit :=
  match o with Some v => check v | None => Ok tt end.

Definition check_evidence (e : EvidenceRef) : result PortError unit :=
  let? _ := check_key (evidence_key e) in check_optional nonempty (ev_revision e).

Definition external_id (value : string) : result PortError unit :=
  let? _ := nonempty value in
  reject_if (contains_str "://" value
             || negb (all_bytes (λ b, between 48 57 b || between 65 90 b || between 97 122 b
                                      || existsb (Ascii.eqb b) ["."; "_"; ":"; "/"; "-"]%char) value)) InvalidValue.

Definition validate_path (path : string) : result PortError unit :=
  let? _ := nonempty path in
  reject_if (starts_with_any ["/"%char] path || contains_char "\" path || contains_char ":" path
             || existsb (λ v, bool_decide (v = ""%string) || bool_decide (v = "."%string)
                              || bool_decide (v = ".."%string)) (split_on "/" path)) InvalidValue.

(** 2^53 - 1, the largest integer every JSON reader holds exactly. *)
Definition max_safe_integer : Z := 9007199254740991.

Definition hex_digest (s : string) : bool :=
  (byte_len s =? 64) && all_bytes (λ b, between 48 57 b || between 97 102 b) s.

Definition validate_artifact (a : Artifact) (limits : Limits) : result PortError unit :=
  let? _ := reject_if match af_sha256 a with Some s => negb (hex_digest s) | None => false end InvalidValue in
  let? _ := reject_if match af_byte_length a with Some n => max_safe_integer <? n | None => false end
              InvalidValue in
  let? _ := reject_if match af_byte_length a with Some n => max_artifact_bytes limits <? n | None => false end
              LimitExceeded in
  let exact := is_some (af_sha256 a) && is_some (af_byte_length a) in
  let? _ := reject_if (negb (Bool.eqb (is_some (af_sha256 a)) (is_some (af_byte_length a)))) InvalidValue in
  match af_target a, af_preservation a with
  | BundleFile path, IncludedVerified => if exact then validate_path path else Err InvalidValue
  | External resource_id (Some version), ExternalVerified =>
      if exact then let? _ := external_id resource_id in external_id version else Err InvalidValue
  | External resource_id version_id, ReferenceOnly =>
      let? _ := external_id resource_id in check_optional external_id version_id
  | Unavailable reason, PresUnavailable => nonempty reason
  | _, _ => Err InvalidValue
  end.

Section Validate.
Context {Value : Type} `{!Digests}.

Definition timestamp (value : string) : result PortError unit := reject_if (negb (rfc3339_ok value)) InvalidValue.

Definition check_provenance (p : Provenance) : result PortError unit :=
  let? _ := nonempty (pv_producer p) in
  let? _ := check_optional timestamp (pv_captured_at p) in
  let? _ := for_each (λ _, check_evidence) tt (pv_derived_from p ++ option_list (pv_supersedes p)) in
  reject_if match pv_supersedes p with Some e => negb (is_some (ev_revision e)) | None => false end InvalidValue.

(** The artifact loop of [validate_bundle]: declared ids and bundled paths. *)
Definition check_artifact (limits : Limits) (seen : gset string * gset string) (a : Artifact) :
    result PortError (gset string * gset string) :=
  let '(artifacts, paths) := seen in
  let? _ := nonempty (af_artifact_id a) in
  let? artifacts := insert_unique (af_artifact_id a) artifacts in
  let? _ := validate_artifact a limits in
  match af_target a with
  | BundleFile path => let? paths := insert_unique path paths in Ok (artifacts, paths)
  | _ => Ok (artifacts, paths)
  end.

(** The binding loop of one record. *)
Definition check_binding (artifacts : gset string) (parent : Scope) (bindings : gset string) (a : Binding) :
    result PortError (gset string) :=
  let? _ := nonempty (bd_binding_id a) in
  let? _ := nonempty (bd_asserted_media_type a) in
  let? bindings := insert_unique (bd_binding_id a) bindings in
  let? _ := reject_if (negb (bool_decide (bd_artifact_id a ∈ artifacts))) ArtifactUnavailable in
  let? _ := validate_scope (bd_scope a) parent in
  let? _ := check_provenance (bd_provenance a) in
  Ok bindings.

(** The record loop: identities and binding ids. *)
Definition check_record (b : Bundle Value) (artifacts : gset string) (seen : gset RecordKey * gset string)
    (r : PortableRecord Value) : result PortError (gset RecordKey * gset string) :=
  let '(identities, bindings) := seen in
  let? _ := check_key (record_key r) in
  let? identities := insert_unique (record_key r) identities in
  let? _ := reject_if (negb (bool_decide (pr_space r = sp_space (pr_scope r)))) ScopeMismatch in
  let? _ := validate_scope (pr_scope r) (bn_scope b) in
  let? _ := reject_if ((pr_record_schema_version r =? 0) || (max_safe_integer <? pr_record_schema_version r))
              InvalidValue in
  let? _ := check_optional nonempty (pr_revision r) in
  let? _ := check_provenance (pr_provenance r) in
  let? bindings := for_each (check_binding artifacts (pr_scope r)) bindings (pr_artifact_bindings r) in
  Ok (identities, bindings).

Definition contract_version : string := "data-portability/1".

Definition validate_bundle (b : Bundle Value) (limits : Limits) : result PortError unit :=
  let? _ := reject_if (negb (bool_decide (bn_contract b = contract_version))) UnsupportedVersion in
  let? _ := for_each (λ _, nonempty) tt
              [bn_profile b; bn_bundle_id b; pd_application (bn_producer b); pd_version (bn_producer b);
               en_selection (bn_enumeration b)] in
  let? _ := check_scope (bn_scope b) in
  let? _ := timestamp (bn_exported_at b) in
  let? _ := reject_if ((max_records limits <? Z.of_nat (length (bn_records b)))
                       || (max_artifacts limits <? Z.of_nat (length (bn_artifacts b)))) LimitExceeded in
  let? _ := reject_if (negb (Bool.eqb (bool_decide (en_kind (bn_enumeration b) = Snapshot))
                               (is_some (en_snapshot_revision (bn_enumeration b))))) InvalidValue in
  let? _ := check_optional nonempty (en_snapshot_revision (bn_enumeration b)) in
  let? _ := unique (en_excluded_record_types (bn_enumeration b)) in
  let? '(artifacts, _) := for_each (check_artifact limits) (∅, ∅) (bn_artifacts b) in
  let? _ := for_each (check_record b artifacts) (∅, ∅) (bn_records b) in
  for_each (λ _ c, let? _ := nonempty (cp_profile c) in unique (cp_editable_fields c)) tt (bn_capabilities b).

Context `{!WireJson Value}.

Definition decode_bundle (input : Bytes) (limits : Limits) : result PortError (Bundle Value) :=
  let? bundle := decode from_json_bundle input limits in
  let? _ := validate_bundle bundle limits in
  Ok bundle.

Definition validate_destination (b : Bundle Value) (application : string) (allowed : Scope) :
    result PortError unit :=
  let? _ := nonempty application in
  let? _ := validate_scope (bn_scope b) allowed in
  reject_if (existsb (λ r, negb (bool_decide (pr_application r = application))) (bn_records b)) ScopeMismatch.

(** ** Change plans *)

Definition check_change (p : ChangePlan Value) (seen : gset RecordKey) (c : Change Value) :
    result PortError (gset RecordKey) :=
  let k := change_key c in
  let? _ := check_key k in
  let? _ := reject_if (negb (bool_decide (rk_space k = sp_space (pl_scope p)))) ScopeMismatch in
  let? seen := insert_unique k seen in
  let? _ :=
    match c with
    | Update _ base_revision set clear =>
        let? _ := nonempty base_revision in
        let? _ := unique clear in
        reject_if (existsb (λ k, is_some (set !! k)) clear) InvalidValue
    | Delete _ base_revision reason => let? _ := nonempty base_revision in nonempty reason
    | Create _ _ => Ok tt
    end in
  Ok seen.

Definition check_plan (p : ChangePlan Value) (limits : Limits) : result PortError unit :=
  let? _ := reject_if (negb (bool_decide (pl_contract p = contract_version))) UnsupportedVersion in
  let? _ := for_each (λ _, nonempty) tt [pl_profile p; pl_bundle_id p; pl_operation_id p] in
  let? _ := check_scope (pl_scope p) in
  let? _ := reject_if (max_records limits <? Z.of_nat (length (pl_changes p))) LimitExceeded in
  let? _ := for_each (check_change p) ∅ (pl_changes p) in
  Ok tt.

Definition decode_change_plan (input : Bytes) (limits : Limits) : result PortError (ChangePlan Value) :=
  let? p := decode from_json_plan input limits in
  let? _ := check_plan p limits in
  Ok p.

Definition validate_plan_destination (p : ChangePlan Value) (application : string) (allowed : Scope) :
    result PortError unit :=
  let? _ := nonempty application in
  let? _ := validate_scope (pl_scope p) allowed in
  reject_if (existsb (λ c, negb (bool_decide (rk_application (change_key c) = application))) (pl_changes p))
    ScopeMismatch.

End Validate.

(** ** Included files *)

Section Files.
Context `{!Digests} {R : Type} `{!Read R, !FileSystem R}.

(** The loop over [reader.take(length + 1)]: [limit] bytes may still be read,
    [total] have been and were hashed as [hashed].  [Panic] stands for running
    out of [fuel]. *)
Fixpoint hash_loop (fuel : nat) (r : R) (limit total : Z) (hashed : Bytes) : result PortError (Z * Bytes) :=
  match fuel with
  | O => Panic
  | S fuel =>
      if limit =? 0 then Ok (total, hashed)
      else
        let? '(r, b) := ok_or (read r (Z.min 16384 limit)) ArtifactUnavailable in
        let n := byte_len b in
        if n =? 0 then Ok (total, hashed)
        else hash_loop fuel r (limit - n) (total + n) (hashed +:+ b)
  end.

Definition verify_artifact_bytes (reader : R) (a : Artifact) (limits : Limits) : result PortError unit :=
  let? _ := validate_artifact a limits in
  match af_sha256 a, af_byte_length a with
  | Some expected, Some length =>
      let limit := saturating_add u64_max length 1 in
      let? '(total, hashed) := hash_loop (S (Z.to_nat limit)) reader limit 0 EmptyString in
      reject_if (negb (total =? length) || negb (bool_decide (sha256_hex hashed = expected))) ArtifactMismatch
  | _, _ => Err ArtifactUnavailable
  end.

(** [std::path::Component] on Unix. *)
Inductive Component : Type := RootDir | CurDir | ParentDir | Normal (name : string).

(** [Path::components]: empty components and dots are skipped, a leading dot
    excepted. *)
Definition later_component (v : string) : option Component :=
  if bool_decide (v = ""%string) || bool_decide (v = "."%string) then None
  else if bool_decide (v = ".."%string) then Some ParentDir
  else Some (Normal v).

Definition components (path : string) : list Component :=
  match split_on "/" path with
  | [] => []
  | first :: rest =>
      (if bool_decide (first = ""%string)
       then (if bool_decide (path = ""%string) then [] else [RootDir])
       else if bool_decide (first = "."%string) then [CurDir] else option_list (later_component first))
      ++ omap later_component rest
  end.

(** A path that exists and is no symbolic link. *)
Definition not_symlink (current : list string) : result PortError unit :=
  let? kind := ok_or (symlink_metadata current) ArtifactUnavailable in
  reject_if (bool_decide (kind = Symlink)) ArtifactUnavailable.

Definition descend (current : list string) (c : Component) : result PortError (list string) :=
  match c with
  | Normal name =>
      let current := current ++ [name] in
      let? _ := not_symlink current in
      Ok current
  | _ => Err InvalidValue
  end.

Definition verify_bundle_file (root : list string) (a : Artifact) (limits : Limits) : result PortError unit :=
  let? _ := validate_artifact a limits in
  match af_target a with
  | BundleFile path =>
      let? _ := not_symlink root in
      let? current := for_each descend root (components path) in
      let? '(metadata, file) := ok_or (open_file current) ArtifactUnavailable in
      let? kind := ok_or metadata ArtifactUnavailable in
      let? _ := reject_if (negb (bool_decide (kind = RegularFile))) ArtifactUnavailable in
      verify_artifact_bytes file a limits
  | _ => Err ArtifactUnavailable
  end.

End Files.
