(* ===== verification/PortableProofs.v ===== *)
(** What validation accepts, as predicates, and the lemmas that match each
    check of [validate.rs] with its predicate. *)

From Stdlib Require Import ZArith Lia Ascii.
From stdpp Require Import base gmap strings list.
From S2P Require Import Prelude Text PortabilityTypes PortableValidate.

#[local] Open Scope Z_scope.

(** A step whose only success is known. *)
Lemma rbind_known {E A B : Type} (c : result E A) (P : Prop) v (k : A → result E B) b :
  (∀ a, c = Ok a ↔ P ∧ a = v) → rbind c k = Ok b ↔ P ∧ k v = Ok b.
Proof.
  intros Hc. destruct c as [a|e|]; simpl.
  - destruct (proj1 (Hc a) eq_refl) as [HP ->]. tauto.
  - split; [done|]. intros [HP _]. by discriminate (proj2 (Hc v) (conj HP eq_refl)).
  - split; [done|]. intros [HP _]. by discriminate (proj2 (Hc v) (conj HP eq_refl)).
Qed.

(** A guard and a loop, then the rest of a request. *)
Lemma rbind_assoc_ok {E A B : Type} (c : result E unit) (d : result E A) (k : A → result E B) b
    {P : Prop} {v : A} :
  (∀ a, (let? _ := c in d) = Ok a ↔ P ∧ a = v) →
  (let? _ := c in let? x := d in k x) = Ok b ↔ P ∧ k v = Ok b.
Proof. intros Hc. rewrite <-(rbind_known _ P v k b Hc). by destruct c as [[]| |]. Qed.

(** ** Totality *)

Lemma reject_if_total {E : Type} b (e : E) : reject_if b e ≠ Panic.
Proof. by destruct b. Qed.

Lemma ok_or_total {E A : Type} (o : option A) (e : E) : ok_or o e ≠ Panic.
Proof. by destruct o. Qed.

Lemma for_each_total {E S A : Type} (body : S → A → result E S) l :
  (∀ s a, body s a ≠ Panic) → ∀ s, for_each body s l ≠ Panic.
Proof. intros Hb. induction l as [|a l IH]; intros s; [done|]. simpl. apply rbind_panic; auto. Qed.

(** Checks made of guards, lookups and branches never panic. *)
Ltac total :=
  repeat first
    [ done | apply reject_if_total | apply ok_or_total
    | apply rbind_panic; [|let Hx := fresh in intros ? Hx; clear Hx]
    | case_match ].

(** ** Loops that collect identities *)

Lemma insert_unique_ok {K : Type} `{Countable K} (k : K) (seen seen' : gset K) :
  insert_unique k seen = Ok seen' ↔ k ∉ seen ∧ seen' = {[k]} ∪ seen.
Proof. unfold insert_unique. case_bool_decide; naive_solver. Qed.

(** [fresh ks seen]: the keys are new and pairwise different. *)
Definition fresh {K : Type} `{Countable K} (ks : list K) (seen : gset K) : Prop :=
  NoDup ks ∧ ∀ k, k ∈ ks → k ∉ seen.

Definition add_all {K : Type} `{Countable K} (ks : list K) (seen : gset K) : gset K :=
  list_to_set ks ∪ seen.

Lemma fresh_nil {K : Type} `{Countable K} (seen : gset K) : fresh [] seen.
Proof. split; [constructor|]. by intros k ?%elem_of_nil. Qed.

Lemma fresh_one {K : Type} `{Countable K} (k : K) (seen : gset K) : fresh [k] seen ↔ k ∉ seen.
Proof. unfold fresh. split; [set_solver|]. intros Hk. split; [apply NoDup_singleton|set_solver]. Qed.

Lemma fresh_empty {K : Type} `{Countable K} (ks : list K) : fresh ks ∅ ↔ NoDup ks.
Proof. unfold fresh. set_solver. Qed.

Lemma fresh_app {K : Type} `{Countable K} (ks ks' : list K) (seen : gset K) :
  fresh (ks ++ ks') seen ↔ fresh ks seen ∧ fresh ks' (add_all ks seen).
Proof.
  unfold fresh, add_all. rewrite NoDup_app. setoid_rewrite elem_of_app.
  setoid_rewrite elem_of_union. setoid_rewrite elem_of_list_to_set. naive_solver.
Qed.

Lemma add_all_app {K : Type} `{Countable K} (ks ks' : list K) (seen : gset K) :
  add_all ks' (add_all ks seen) = add_all (ks ++ ks') seen.
Proof. unfold add_all. rewrite list_to_set_app_L. set_solver. Qed.

Lemma add_all_nil {K : Type} `{Countable K} (seen : gset K) : add_all [] seen = seen.
Proof. unfold add_all. set_solver. Qed.

Lemma add_all_one {K : Type} `{Countable K} (k : K) (seen : gset K) : add_all [k] seen = {[k]} ∪ seen.
Proof. unfold add_all. set_solver. Qed.

Lemma fresh_cons {K : Type} `{Countable K} (k : K) ks (seen : gset K) :
  fresh (k :: ks) seen ↔ k ∉ seen ∧ fresh ks ({[k]} ∪ seen).
Proof.
  change (k :: ks) with ([k] ++ ks). by rewrite fresh_app, fresh_one, add_all_one.
Qed.

(** A loop whose body checks an element and collects its keys checks every
    element and collects all keys, pairwise different. *)
Lemma for_each_collect {A K : Type} `{Countable K} (body : gset K → A → result PortError (gset K))
    (keys : A → list K) (check : A → Prop) l :
  (∀ seen a seen', body seen a = Ok seen' ↔ check a ∧ fresh (keys a) seen ∧ seen' = add_all (keys a) seen) →
  ∀ seen seen', for_each body seen l = Ok seen'
    ↔ Forall check l ∧ fresh (l ≫= keys) seen ∧ seen' = add_all (l ≫= keys) seen.
Proof.
  intros Hbody. induction l as [|a l IH]; intros seen seen'; simpl.
  - rewrite add_all_nil. pose proof (fresh_nil seen). naive_solver.
  - rewrite (rbind_known _ (check a ∧ fresh (keys a) seen) (add_all (keys a) seen))
      by (intros s; rewrite Hbody; tauto).
    rewrite IH, Forall_cons, fresh_app, <-add_all_app. tauto.
Qed.

(** The same with two kinds of keys. *)
Lemma for_each_collect2 {A K L : Type} `{Countable K, Countable L}
    (body : gset K * gset L → A → result PortError (gset K * gset L))
    (keys : A → list K) (keys' : A → list L) (check : A → Prop) l :
  (∀ s t a r, body (s, t) a = Ok r ↔
     check a ∧ fresh (keys a) s ∧ fresh (keys' a) t ∧ r = (add_all (keys a) s, add_all (keys' a) t)) →
  ∀ s t r, for_each body (s, t) l = Ok r
    ↔ Forall check l ∧ fresh (l ≫= keys) s ∧ fresh (l ≫= keys') t
      ∧ r = (add_all (l ≫= keys) s, add_all (l ≫= keys') t).
Proof.
  intros Hbody. induction l as [|a l IH]; intros s t r; simpl.
  - rewrite !add_all_nil. pose proof (fresh_nil s). pose proof (fresh_nil t). naive_solver.
  - rewrite (rbind_known _ (check a ∧ fresh (keys a) s ∧ fresh (keys' a) t)
               (add_all (keys a) s, add_all (keys' a) t)) by (intros q; rewrite Hbody; tauto).
    rewrite IH, Forall_cons, !fresh_app, <-!add_all_app. tauto.
Qed.

Lemma bind_singletons {A B : Type} (f : A → B) l : (l ≫= λ a, [f a]) = f <$> l.
Proof. induction l as [|a l IH]; [done|]. by rewrite bind_cons, IH. Qed.

(** ** What is accepted *)

Definition named (s : string) : Prop := blank s = false ∧ contains_char nul s = false.

Definition distinct_names (l : list string) : Prop := Forall named l ∧ NoDup l.

Definition scope_ok (s : Scope) : Prop := named (sp_space s) ∧ distinct_names (sp_audience s).

(** The child discloses no more than the parent: same space, no new recipient,
    at least as sensitive. *)
Definition contained (child parent : Scope) : Prop :=
  sp_space child = sp_space parent
  ∧ sensitivity_rank (sp_sensitivity parent) ≤ sensitivity_rank (sp_sensitivity child)
  ∧ sp_audience child ⊆ sp_audience parent.

#[export] Instance contained_preorder : PreOrder contained.
Proof.
  split.
  - intros s. split_and!; [done|lia|done].
  - intros s t u (H1 & H2 & H3) (H4 & H5 & H6). split_and!; [congruence|lia|set_solver].
Qed.

Definition key_ok (k : RecordKey) : Prop :=
  named (rk_application k) ∧ named (rk_space k) ∧ named (rk_record_type k) ∧ named (rk_record_id k).

Definition option_ok {A : Type} (P : A → Prop) (o : option A) : Prop := ∀ a, o = Some a → P a.

Definition evidence_ok (e : EvidenceRef) : Prop := key_ok (evidence_key e) ∧ option_ok named (ev_revision e).

Definition id_byte (b : Ascii.ascii) : bool :=
  between 48 57 b || between 65 90 b || between 97 122 b || existsb (Ascii.eqb b) ["."; "_"; ":"; "/"; "-"]%char.

Definition id_ok (s : string) : Prop := named s ∧ contains_str "://" s = false ∧ all_bytes id_byte s = true.

(** A relative path that names a file below its root. *)
Definition path_ok (p : string) : Prop :=
  named p ∧ contains_char "\" p = false ∧ contains_char ":" p = false
  ∧ Forall (λ v, v ≠ ""%string ∧ v ≠ "."%string ∧ v ≠ ".."%string) (split_on "/" p).

Definition target_ok (a : Artifact) : Prop :=
  match af_target a, af_preservation a with
  | BundleFile path, IncludedVerified => is_Some (af_sha256 a) ∧ path_ok path
  | External resource (Some version), ExternalVerified => is_Some (af_sha256 a) ∧ id_ok resource ∧ id_ok version
  | External resource version, ReferenceOnly => id_ok resource ∧ option_ok id_ok version
  | Unavailable reason, PresUnavailable => named reason
  | _, _ => False
  end.

Definition artifact_ok (limits : Limits) (a : Artifact) : Prop :=
  option_ok (λ s, hex_digest s = true) (af_sha256 a)
  ∧ option_ok (λ n, n ≤ max_safe_integer ∧ n ≤ max_artifact_bytes limits) (af_byte_length a)
  ∧ (is_Some (af_sha256 a) ↔ is_Some (af_byte_length a))
  ∧ target_ok a.

(** ** Each check and its predicate *)

Lemma nonempty_ok s : nonempty s = Ok tt ↔ named s.
Proof. unfold nonempty, named. by rewrite reject_if_ok, orb_false_iff. Qed.

Lemma names_ok l : for_each (λ _, nonempty) tt l = Ok tt ↔ Forall named l.
Proof. rewrite for_each_unit. apply Forall_proper; [|done]. intros s. apply nonempty_ok. Qed.

Lemma unique_ok l : unique l = Ok tt ↔ distinct_names l.
Proof.
  unfold unique, distinct_names. rewrite (rbind_known _ (Forall named l ∧ NoDup l) (add_all l ∅)); [tauto|].
  intros seen. rewrite (for_each_collect _ (λ v, [v]) named), bind_singletons, list_fmap_id, fresh_empty;
    [tauto|].
  intros s v s'. by rewrite rbind_unit_ok, nonempty_ok, insert_unique_ok, fresh_one, add_all_one.
Qed.

Lemma check_scope_ok s : check_scope s = Ok tt ↔ scope_ok s.
Proof. unfold check_scope, scope_ok. by rewrite rbind_unit_ok, nonempty_ok, unique_ok. Qed.

Lemma validate_scope_ok child parent :
  validate_scope child parent = Ok tt ↔ scope_ok child ∧ scope_ok parent ∧ contained child parent.
Proof.
  unfold validate_scope, contained.
  rewrite !rbind_unit_ok, !check_scope_ok, reject_if_ok, !orb_false_iff, negb_false_iff, bool_decide_eq_true,
    Z.ltb_ge, <-not_true_iff_false, existsb_exists.
  enough ((¬ ∃ v, In v (sp_audience child) ∧ negb (bool_decide (v ∈ sp_audience parent)) = true)
    ↔ sp_audience child ⊆ sp_audience parent) by tauto.
  split.
  - intros Hno v Hv. apply dec_stable. intros Hp. apply Hno. exists v. rewrite negb_true_iff, bool_decide_eq_false.
    split; [by apply list_elem_of_In|done].
  - intros Hsub (v & Hv & Hp). apply list_elem_of_In, Hsub in Hv. by rewrite bool_decide_eq_true_2 in Hp.
Qed.

Lemma check_key_ok k : check_key k = Ok tt ↔ key_ok k.
Proof. unfold check_key, key_ok. rewrite names_ok, !Forall_cons, Forall_nil. tauto. Qed.

Lemma check_optional_ok check (P : string → Prop) o :
  (∀ s, check s = Ok tt ↔ P s) → check_optional check o = Ok tt ↔ option_ok P o.
Proof.
  intros Hc. unfold option_ok. destruct o as [s|]; simpl; [|by split].
  rewrite Hc. split; [by intros Hs a [= <-]|auto].
Qed.

Lemma check_evidence_ok e : check_evidence e = Ok tt ↔ evidence_ok e.
Proof.
  unfold check_evidence, evidence_ok.
  by rewrite rbind_unit_ok, check_key_ok, (check_optional_ok _ named) by apply nonempty_ok.
Qed.

Lemma external_id_ok s : external_id s = Ok tt ↔ id_ok s.
Proof.
  unfold external_id, id_ok. by rewrite rbind_unit_ok, nonempty_ok, reject_if_ok, orb_false_iff, negb_false_iff.
Qed.

(** A path that starts with a slash has an empty first component. *)
Lemma leading_slash p :
  Forall (λ v, v ≠ ""%string ∧ v ≠ "."%string ∧ v ≠ ".."%string) (split_on "/" p) →
  starts_with_any ["/"%char] p = false.
Proof.
  destruct p as [|a p]; [done|]. simpl. rewrite orb_false_r. destruct (Ascii.eqb a "/"); [|done].
  intros [[Hv _] _]%Forall_cons. done.
Qed.

Lemma validate_path_ok p : validate_path p = Ok tt ↔ path_ok p.
Proof.
  unfold validate_path, path_ok.
  rewrite rbind_unit_ok, nonempty_ok, reject_if_ok, !orb_false_iff.
  assert (existsb (λ v, bool_decide (v = ""%string) || bool_decide (v = "."%string) || bool_decide (v = ".."%string))
            (split_on "/" p) = false
    ↔ Forall (λ v, v ≠ ""%string ∧ v ≠ "."%string ∧ v ≠ ".."%string) (split_on "/" p)) as Hsplit.
  { induction (split_on "/" p) as [|v l IH]; [done|]. simpl.
    rewrite Forall_cons, !orb_false_iff, !bool_decide_eq_false, IH. tauto. }
  rewrite Hsplit. split; [tauto|]. intros (Hn & Hb & Hc & Hs). pose proof (leading_slash p Hs). tauto.
Qed.

Lemma validate_artifact_ok limits a : validate_artifact a limits = Ok tt ↔ artifact_ok limits a.
Proof.
  unfold validate_artifact, artifact_ok, target_ok, option_ok.
  rewrite !rbind_unit_ok, !reject_if_ok.
  destruct (af_sha256 a) as [s|], (af_byte_length a) as [n|]; simpl;
    rewrite ?negb_false_iff, ?Z.ltb_ge; destruct (af_target a) as [p|r [v|]|r], (af_preservation a); simpl;
    rewrite ?rbind_unit_ok, ?validate_path_ok, ?external_id_ok, ?nonempty_ok; unfold is_Some; naive_solver.
Qed.

Lemma validate_artifact_total a limits : validate_artifact a limits ≠ Panic.
Proof.
  unfold validate_artifact, validate_path, check_optional, external_id, nonempty. total.
Qed.

Section Bundle.
Context {Value : Type} `{!Digests}.

Definition provenance_ok (p : Provenance) : Prop :=
  named (pv_producer p)
  ∧ option_ok (λ t, rfc3339_ok t = true) (pv_captured_at p)
  ∧ Forall evidence_ok (pv_derived_from p)
  ∧ option_ok (λ e, evidence_ok e ∧ is_Some (ev_revision e)) (pv_supersedes p).

Definition binding_ok (artifacts : list string) (parent : Scope) (a : Binding) : Prop :=
  named (bd_binding_id a) ∧ named (bd_asserted_media_type a) ∧ bd_artifact_id a ∈ artifacts
  ∧ scope_ok (bd_scope a) ∧ contained (bd_scope a) parent ∧ provenance_ok (bd_provenance a).

Definition record_ok (b : Bundle Value) (r : PortableRecord Value) : Prop :=
  key_ok (record_key r) ∧ pr_space r = sp_space (pr_scope r) ∧ scope_ok (pr_scope r)
  ∧ contained (pr_scope r) (bn_scope b)
  ∧ pr_record_schema_version r ≠ 0 ∧ pr_record_schema_version r ≤ max_safe_integer
  ∧ option_ok named (pr_revision r) ∧ provenance_ok (pr_provenance r)
  ∧ Forall (binding_ok (af_artifact_id <$> bn_artifacts b) (pr_scope r)) (pr_artifact_bindings r).

(** The path of a bundled file. *)
Definition bundled_paths (a : Artifact) : list string :=
  match af_target a with BundleFile path => [path] | _ => [] end.

Definition binding_ids (r : PortableRecord Value) : list string := bd_binding_id <$> pr_artifact_bindings r.

(** Everything a valid bundle satisfies. *)
Record bundle_ok (limits : Limits) (b : Bundle Value) : Prop := {
  ok_contract : bn_contract b = contract_version;
  ok_names : Forall named [bn_profile b; bn_bundle_id b; pd_application (bn_producer b);
                           pd_version (bn_producer b); en_selection (bn_enumeration b)];
  ok_scope : scope_ok (bn_scope b);
  ok_exported : rfc3339_ok (bn_exported_at b) = true;
  ok_size : Z.of_nat (length (bn_records b)) ≤ max_records limits
            ∧ Z.of_nat (length (bn_artifacts b)) ≤ max_artifacts limits;
  ok_snapshot : en_kind (bn_enumeration b) = Snapshot ↔ is_Some (en_snapshot_revision (bn_enumeration b));
  ok_revision : option_ok named (en_snapshot_revision (bn_enumeration b));
  ok_excluded : distinct_names (en_excluded_record_types (bn_enumeration b));
  ok_artifacts : Forall (λ a, named (af_artifact_id a) ∧ artifact_ok limits a) (bn_artifacts b);
  ok_artifact_ids : NoDup (af_artifact_id <$> bn_artifacts b);
  ok_paths : NoDup (bn_artifacts b ≫= bundled_paths);
  ok_records : Forall (record_ok b) (bn_records b);
  ok_identities : NoDup (record_key <$> bn_records b);
  ok_bindings : NoDup (bn_records b ≫= binding_ids);
  ok_capabilities : Forall (λ c, named (cp_profile c) ∧ distinct_names (cp_editable_fields c)) (bn_capabilities b);
}.

Lemma timestamp_ok t : timestamp t = Ok tt ↔ rfc3339_ok t = true.
Proof. unfold timestamp. by rewrite reject_if_ok, negb_false_iff. Qed.

Lemma check_provenance_ok p : check_provenance p = Ok tt ↔ provenance_ok p.
Proof.
  unfold check_provenance, provenance_ok.
  rewrite !rbind_unit_ok, nonempty_ok, (check_optional_ok _ _ _ timestamp_ok), for_each_unit, reject_if_ok.
  assert (∀ l, Forall (λ e, check_evidence e = Ok tt) l ↔ Forall evidence_ok l) as Hev.
  { intros l. apply Forall_proper; [|done]. intros e. apply check_evidence_ok. }
  rewrite Hev, Forall_app. unfold option_ok.
  destruct (pv_supersedes p) as [e|]; simpl; rewrite ?Forall_cons, Forall_nil; [|naive_solver].
  destruct (ev_revision e) eqn:E; unfold is_Some; simpl; naive_solver.
Qed.

Lemma check_artifact_ok limits ids paths a r :
  check_artifact limits (ids, paths) a = Ok r ↔
  (named (af_artifact_id a) ∧ artifact_ok limits a) ∧ fresh [af_artifact_id a] ids ∧ fresh (bundled_paths a) paths
  ∧ r = (add_all [af_artifact_id a] ids, add_all (bundled_paths a) paths).
Proof.
  unfold check_artifact, bundled_paths. rewrite rbind_unit_ok, nonempty_ok.
  rewrite (rbind_known _ (af_artifact_id a ∉ ids) (add_all [af_artifact_id a] ids))
    by (intros s; by rewrite insert_unique_ok, add_all_one).
  rewrite rbind_unit_ok, validate_artifact_ok, fresh_one. pose proof (fresh_nil paths).
  destruct (af_target a) as [path|?|?];
    [rewrite (rbind_known _ (path ∉ paths) (add_all [path] paths))
       by (intros s; by rewrite insert_unique_ok, add_all_one); rewrite fresh_one|rewrite add_all_nil..];
    naive_solver.
Qed.

Lemma check_binding_ok artifacts parent ids a r :
  scope_ok parent →
  check_binding (list_to_set artifacts) parent ids a = Ok r ↔
  binding_ok artifacts parent a ∧ fresh [bd_binding_id a] ids ∧ r = add_all [bd_binding_id a] ids.
Proof.
  intros Hp. unfold check_binding, binding_ok. rewrite !rbind_unit_ok, !nonempty_ok.
  rewrite (rbind_known _ (bd_binding_id a ∉ ids) (add_all [bd_binding_id a] ids))
    by (intros s; by rewrite insert_unique_ok, add_all_one).
  rewrite !rbind_unit_ok, reject_if_ok, negb_false_iff, bool_decide_eq_true, elem_of_list_to_set,
    validate_scope_ok, check_provenance_ok, fresh_one.
  naive_solver.
Qed.

Lemma check_record_ok (b : Bundle Value) identities bindings r q :
  scope_ok (bn_scope b) →
  check_record b (list_to_set (af_artifact_id <$> bn_artifacts b)) (identities, bindings) r = Ok q ↔
  record_ok b r ∧ fresh [record_key r] identities ∧ fresh (binding_ids r) bindings
  ∧ q = (add_all [record_key r] identities, add_all (binding_ids r) bindings).
Proof.
  intros Hb. unfold check_record, record_ok. rewrite rbind_unit_ok, check_key_ok.
  rewrite (rbind_known _ (record_key r ∉ identities) (add_all [record_key r] identities))
    by (intros s; by rewrite insert_unique_ok, add_all_one).
  rewrite !rbind_unit_ok, !reject_if_ok, negb_false_iff, bool_decide_eq_true, validate_scope_ok, orb_false_iff,
    Z.eqb_neq, Z.ltb_ge, (check_optional_ok _ named _ nonempty_ok), check_provenance_ok, fresh_one.
  assert (scope_ok (pr_scope r) → ∀ q', for_each (check_binding (list_to_set (af_artifact_id <$> bn_artifacts b))
      (pr_scope r)) bindings (pr_artifact_bindings r) = Ok q'
    ↔ (Forall (binding_ok (af_artifact_id <$> bn_artifacts b) (pr_scope r)) (pr_artifact_bindings r)
       ∧ fresh (binding_ids r) bindings) ∧ q' = add_all (binding_ids r) bindings) as Hl.
  { intros Hs q'. rewrite (for_each_collect _ (λ a, [bd_binding_id a])
      (binding_ok (af_artifact_id <$> bn_artifacts b) (pr_scope r)))
      by (intros; by apply check_binding_ok).
    rewrite bind_singletons. unfold binding_ids. tauto. }
  split.
  - intros (Hk & Hnew & Hsp & (Hs & _ & Hc) & Hv & Hr & Hpv & Hloop).
    rewrite (rbind_known _ _ _ _ _ (Hl Hs)) in Hloop. naive_solver.
  - intros ((Hk & Hsp & Hs & Hc & Hv & Hv' & Hr & Hpv & Hbs) & Hnew & Hfr & ->).
    split_and!; try done. rewrite (rbind_known _ _ _ _ _ (Hl Hs)). naive_solver.
Qed.

Lemma bool_eq_iff (P : Prop) `{!Decision P} {A : Type} (o : option A) :
  Bool.eqb (bool_decide P) (is_some o) = true ↔ (P ↔ is_Some o).
Proof. destruct o; simpl; case_bool_decide; simpl; unfold is_Some; naive_solver. Qed.

Lemma capabilities_ok l :
  for_each (λ _ c, let? _ := nonempty (cp_profile c) in unique (cp_editable_fields c)) tt l = Ok tt
  ↔ Forall (λ c, named (cp_profile c) ∧ distinct_names (cp_editable_fields c)) l.
Proof.
  rewrite for_each_unit. apply Forall_proper; [|done]. intros c. by rewrite rbind_unit_ok, nonempty_ok, unique_ok.
Qed.

(** The two loops of [validate_bundle]. *)
Lemma artifacts_loop limits (l : list Artifact) q :
  for_each (check_artifact limits) (∅, ∅) l = Ok q ↔
  (Forall (λ a, named (af_artifact_id a) ∧ artifact_ok limits a) l ∧ NoDup (af_artifact_id <$> l)
   ∧ NoDup (l ≫= bundled_paths))
  ∧ q = (list_to_set (af_artifact_id <$> l), list_to_set (l ≫= bundled_paths)).
Proof.
  rewrite (for_each_collect2 _ (λ a, [af_artifact_id a]) bundled_paths
             (λ a, named (af_artifact_id a) ∧ artifact_ok limits a)) by apply check_artifact_ok.
  rewrite bind_singletons, !fresh_empty. unfold add_all. rewrite !(right_id_L ∅ (∪)). tauto.
Qed.

Lemma records_loop (b : Bundle Value) (k : result PortError unit) :
  scope_ok (bn_scope b) →
  (let? _ := for_each (check_record b (list_to_set (af_artifact_id <$> bn_artifacts b))) (∅, ∅) (bn_records b) in
   k) = Ok tt ↔
  (Forall (record_ok b) (bn_records b) ∧ NoDup (record_key <$> bn_records b)
   ∧ NoDup (bn_records b ≫= binding_ids)) ∧ k = Ok tt.
Proof.
  intros Hb. rewrite (rbind_known _ (Forall (record_ok b) (bn_records b) ∧ NoDup (record_key <$> bn_records b)
    ∧ NoDup (bn_records b ≫= binding_ids))
    (add_all (record_key <$> bn_records b) ∅, add_all (bn_records b ≫= binding_ids) ∅)); [done|].
  intros q. rewrite (for_each_collect2 _ (λ r, [record_key r]) binding_ids (record_ok b))
    by (intros; by apply check_record_ok).
  rewrite bind_singletons, !fresh_empty. tauto.
Qed.

Lemma validate_bundle_ok limits (b : Bundle Value) : validate_bundle b limits = Ok tt ↔ bundle_ok limits b.
Proof.
  unfold validate_bundle.
  rewrite !rbind_unit_ok, !reject_if_ok, !negb_false_iff, bool_decide_eq_true, names_ok, check_scope_ok,
    timestamp_ok, orb_false_iff, !Z.ltb_ge, bool_eq_iff, (check_optional_ok _ named _ nonempty_ok), unique_ok,
    (rbind_known _ _ _ _ _ (artifacts_loop limits (bn_artifacts b))).
  split.
  - intros (Hc & Hn & Hs & Ht & [Hl Hl'] & Hk & Hr & Hx & (Ha & Hi & Hp) & Hrest).
    rewrite (records_loop b _ Hs), capabilities_ok in Hrest. destruct Hrest as ((H1 & H2 & H3) & H4).
    by constructor.
  - intros [Hc Hn Hs Ht Hl Hk Hr Hx Ha Hi Hp H1 H2 H3 H4].
    rewrite (records_loop b _ Hs), capabilities_ok. tauto.
Qed.

(** ** Change plans *)

Definition change_ok (p : ChangePlan Value) (c : Change Value) : Prop :=
  key_ok (change_key c) ∧ rk_space (change_key c) = sp_space (pl_scope p)
  ∧ match c with
    | Create _ _ => True
    | Update _ base set clear => named base ∧ distinct_names clear ∧ ∀ k, k ∈ clear → set !! k = None
    | Delete _ base reason => named base ∧ named reason
    end.

Record plan_ok (limits : Limits) (p : ChangePlan Value) : Prop := {
  plan_contract : pl_contract p = contract_version;
  plan_names : Forall named [pl_profile p; pl_bundle_id p; pl_operation_id p];
  plan_scope : scope_ok (pl_scope p);
  plan_size : Z.of_nat (length (pl_changes p)) ≤ max_records limits;
  plan_changes : Forall (change_ok p) (pl_changes p);
  plan_identities : NoDup (change_key <$> pl_changes p);
}.

Lemma cleared_not_set (set : gmap string Value) (clear : list string) :
  existsb (λ k, is_some (set !! k)) clear = false ↔ ∀ k, k ∈ clear → set !! k = None.
Proof.
  rewrite <-not_true_iff_false, existsb_exists. split.
  - intros Hno k Hk%list_elem_of_In. destruct (set !! k) eqn:E; [|done]. exfalso. apply Hno.
    exists k. by rewrite E.
  - intros Hno (k & Hk%list_elem_of_In & E). by rewrite (Hno k Hk) in E.
Qed.

Lemma check_change_ok (p : ChangePlan Value) seen c seen' :
  check_change p seen c = Ok seen' ↔
  change_ok p c ∧ fresh [change_key c] seen ∧ seen' = add_all [change_key c] seen.
Proof.
  unfold check_change, change_ok. rewrite !rbind_unit_ok, check_key_ok, reject_if_ok, negb_false_iff,
    bool_decide_eq_true.
  rewrite (rbind_known _ (change_key c ∉ seen) (add_all [change_key c] seen))
    by (intros s; by rewrite insert_unique_ok, add_all_one).
  rewrite rbind_unit_ok, fresh_one.
  destruct c; rewrite ?rbind_unit_ok, ?nonempty_ok, ?unique_ok, ?reject_if_ok, ?cleared_not_set; naive_solver.
Qed.

Lemma check_plan_ok limits (p : ChangePlan Value) : check_plan p limits = Ok tt ↔ plan_ok limits p.
Proof.
  unfold check_plan. rewrite !rbind_unit_ok, !reject_if_ok, negb_false_iff, bool_decide_eq_true, names_ok,
    check_scope_ok, Z.ltb_ge.
  rewrite (rbind_known _ (Forall (change_ok p) (pl_changes p) ∧ NoDup (change_key <$> pl_changes p))
             (add_all (change_key <$> pl_changes p) ∅)).
  - split; [intros (? & ? & ? & ? & [? ?] & _); by constructor|intros []; tauto].
  - intros seen. rewrite (for_each_collect _ (λ c, [change_key c]) (change_ok p)) by apply check_change_ok.
    rewrite bind_singletons, fresh_empty. tauto.
Qed.

End Bundle.
