(* ===== verification/PortableFiles.v ===== *)
(** Decoding and file verification: the guards of [decode], the path of a
    bundled file, and the hashing loop against what the source holds. *)

From Stdlib Require Import ZArith Lia Ascii.
From stdpp Require Import base gmap strings list.
From S2P Require Import Prelude Text PortabilityTypes PortableValidate PortableProofs.

#[local] Open Scope Z_scope.

(** ** Decoding *)

Lemma forallb_Forall {A : Type} (p : A → bool) l : forallb p l = true ↔ Forall (λ x, p x = true) l.
Proof. induction l as [|x l IH]; simpl; [by split|]. by rewrite andb_true_iff, Forall_cons, IH. Qed.

(** Induction on documents. *)
Definition Doc_nested_ind (P : Doc → Prop) (Hscalar : P DScalar) (Harray : ∀ l, Forall P l → P (DArray l))
    (Hobject : ∀ l, Forall (P ∘ snd) l → P (DObject l)) : ∀ d, P d :=
  fix go d :=
    match d with
    | DScalar => Hscalar
    | DArray l => Harray l ((fix all l : Forall P l := match l with
                                          | [] => Forall_nil_2 P
                                          | d :: l => Forall_cons_2 P d l (go d) (all l)
                                          end) l)
    | DObject l => Hobject l ((fix all l : Forall (P ∘ snd) l := match l with
                                            | [] => Forall_nil_2 (P ∘ snd)
                                            | f :: l => Forall_cons_2 (P ∘ snd) f l (go (snd f)) (all l)
                                            end) l)
    end.

(** [inside d e]: [e] holds [d] at some depth. *)
Inductive inside : Doc → Doc → Prop :=
| inside_here d : inside d d
| inside_array d e l : e ∈ l → inside d e → inside d (DArray l)
| inside_object d key e l : (key, e) ∈ l → inside d e → inside d (DObject l).

(** No object repeats a key, at any depth. *)
Definition distinct_keys (d : Doc) : Prop := ∀ fields, inside (DObject fields) d → NoDup fields.*1.

Lemma unique_fields_true check seen fields :
  unique_fields check seen fields = true ↔ Forall (λ f, check f.2 = true) fields ∧ fresh fields.*1 seen.
Proof.
  revert seen. induction fields as [|[key value] fields IH]; intros seen; simpl.
  - pose proof (fresh_nil seen). naive_solver.
  - rewrite !andb_true_iff, negb_true_iff, bool_decide_eq_false, IH, Forall_cons.
    rewrite fresh_cons. simpl. tauto.
Qed.

Lemma unique_json_true d : unique_json d = true ↔ distinct_keys d.
Proof.
  unfold distinct_keys. induction d as [|l IH|l IH] using Doc_nested_ind; simpl.
  - split; [|done]. intros _ fields Hin. inversion Hin.
  - rewrite forallb_Forall. rewrite Forall_forall in IH. split.
    + intros Hall fields Hin. inversion Hin; subst. rewrite Forall_forall in Hall.
      eapply IH; [done|by apply Hall|done].
    + intros Hall. apply Forall_forall. intros e He. apply IH; [done|].
      intros fields Hin. apply Hall. by eapply inside_array.
  - rewrite unique_fields_true, fresh_empty. rewrite Forall_forall in IH. split.
    + intros [Hall Hnd] fields Hin. inversion Hin; subst; [done|]. rewrite Forall_forall in Hall.
      eapply (IH (key, e)); [done| |done]. by apply (Hall (key, e)).
    + intros Hall. split; [|apply Hall; constructor]. apply Forall_forall. intros [key e] He.
      apply (IH _ He). intros fields Hin. apply Hall. by eapply inside_object.
Qed.

(** A root collection within its limit, every element readable. *)
Definition bounded (limit : Z) (v : Skimmed) : Prop :=
  ∃ elements, v = SkimArray elements ∧ Forall (λ b, b = true) elements ∧ Z.of_nat (length elements) ≤ limit.

Definition readable (v : Skimmed) : Prop :=
  match v with
  | SkimArray elements => Forall (λ b, b = true) elements
  | SkimOther => True
  | SkimUnreadable => False
  end.

Definition field_ok (limits : Limits) (field : string * Skimmed) : Prop :=
  readable field.2
  ∧ (field.1 = "records"%string ∨ field.1 = "changes"%string → bounded (max_records limits) field.2)
  ∧ (field.1 = "artifacts"%string → bounded (max_artifacts limits) field.2).

Lemma skim_loop limit elements count n :
  for_each (λ count (readable : bool),
    let? _ := reject_if (negb readable) InvalidValue in
    let? _ := reject_if (limit <? count + 1) LimitExceeded in
    Ok (count + 1)) count elements = Ok n ↔
  Forall (λ b, b = true) elements ∧ n = count + Z.of_nat (length elements)
  ∧ (elements ≠ [] → count + Z.of_nat (length elements) ≤ limit).
Proof.
  revert count. induction elements as [|b elements IH]; intros count; simpl.
  - rewrite Z.add_0_r. naive_solver.
  - rewrite Forall_cons. destruct b; simpl; [|naive_solver].
    destruct (limit <? count + 1) eqn:E; simpl; bools.
    + split; [done|]. intros (_ & _ & Hl). specialize (Hl ltac:(done)). lia.
    + rewrite IH. assert (count + 1 + Z.of_nat (length elements) = count + Z.pos (Pos.of_succ_nat (length elements)))
        as -> by lia.
      destruct elements; simpl length in *; [|naive_solver].
      split; [intros (? & ? & _); split_and!; (done || lia)|naive_solver].
Qed.

Lemma skim_array_ok limit v : 0 ≤ limit → skim_array limit v = Ok tt ↔ bounded limit v.
Proof.
  intros Hl. unfold bounded. destruct v as [elements| |]; simpl; [|naive_solver..].
  rewrite (rbind_known _ (Forall (λ b, b = true) elements
    ∧ (elements ≠ [] → 0 + Z.of_nat (length elements) ≤ limit)) (0 + Z.of_nat (length elements)))
    by (intros n; rewrite skim_loop; tauto).
  split.
  - intros [[Ha Hn] _]. exists elements. split_and!; [done|done|].
    destruct elements; [simpl; lia|]. specialize (Hn ltac:(done)). lia.
  - intros (? & [= <-] & Ha & Hn). done.
Qed.

Lemma skim_field_ok limits field :
  0 ≤ max_records limits → 0 ≤ max_artifacts limits →
  skim_field limits field = Ok tt ↔ field_ok limits field.
Proof.
  intros Hr Ha. destruct field as [key v]. unfold skim_field, field_ok; simpl.
  assert (∀ n, bounded n v → readable v) as Hb by (intros n (? & -> & ? & _); done).
  destruct (bool_decide (key = "records"%string)) eqn:E1; [bools; subst; simpl; rewrite skim_array_ok by done;
    naive_solver|].
  destruct (bool_decide (key = "changes"%string)) eqn:E2; [bools; subst; simpl; rewrite skim_array_ok by done;
    naive_solver|].
  destruct (bool_decide (key = "artifacts"%string)) eqn:E3; [bools; subst; simpl; rewrite skim_array_ok by done;
    naive_solver|].
  bools. simpl. destruct v as [elements| |]; simpl; [|naive_solver..].
  rewrite reject_if_ok, negb_false_iff, forallb_Forall. naive_solver.
Qed.

Section Decode.
Context {Value : Type} `{!WireJson Value}.

(** What [decode] demands of the bytes before and besides their type. *)
Record wire_ok (input : Bytes) (limits : Limits) : Prop := {
  wire_size : byte_len input ≤ max_input_bytes limits;
  wire_root : ∃ fields, skim_root input = Some fields ∧ Forall (field_ok limits) fields;
  wire_keys : ∃ doc, parse_doc input = Some doc ∧ distinct_keys doc;
}.

Lemma decode_ok {T : Type} (from_json : Bytes → option T) input limits t :
  0 ≤ max_records limits → 0 ≤ max_artifacts limits →
  decode from_json input limits = Ok t ↔ wire_ok input limits ∧ from_json input = Some t.
Proof.
  intros Hr Ha. unfold decode. rewrite rbind_unit_ok, reject_if_ok, Z.ltb_ge.
  assert (∀ fields, for_each (λ _, skim_field limits) tt fields = Ok tt ↔ Forall (field_ok limits) fields) as Hf.
  { intros fields. rewrite for_each_unit. apply Forall_proper; [|done]. intros f. by apply skim_field_ok. }
  destruct (skim_root input) as [fields|] eqn:E1; simpl; [|split; [naive_solver|intros [[_ (? & ? & _) _] _]; naive_solver]].
  rewrite rbind_unit_ok, Hf.
  destruct (parse_doc input) as [doc|] eqn:E2; simpl; [|split; [naive_solver|intros [[_ _ (? & ? & _)] _]; naive_solver]].
  rewrite rbind_unit_ok, reject_if_ok, negb_false_iff, unique_json_true. split.
  - intros (Hs & Hfs & Hd & Hj%ok_or_ok). split; [|done]. split; [done|by exists fields|by exists doc].
  - intros [[Hs (? & Ef & Hfs) (? & Ed & Hd)] Hj]. simplify_eq. rewrite Hj. done.
Qed.

(** A decoder that checks what it decoded. *)
Lemma decode_checked {T : Type} (from_json : Bytes → option T) (check : T → result PortError unit) input limits t :
  0 ≤ max_records limits → 0 ≤ max_artifacts limits →
  (let? v := decode from_json input limits in let? _ := check v in Ok v) = Ok t
  ↔ wire_ok input limits ∧ from_json input = Some t ∧ check t = Ok tt.
Proof.
  intros Hr Ha. pose proof (λ v, decode_ok from_json input limits v Hr Ha) as Hd. split.
  - intros (v & E & Hv)%rbind_ok. apply rbind_unit_ok in Hv as [Hc [= ->]]. apply Hd in E. naive_solver.
  - intros (Hw & Hj & Hc). rewrite (proj2 (Hd t) (conj Hw Hj)). simpl. by rewrite Hc.
Qed.

End Decode.

(** ** Included files *)

(** The components of an accepted path are the names between its slashes. *)
Lemma components_of_path p : path_ok p → components p = Normal <$> split_on "/" p.
Proof.
  intros (_ & _ & _ & Hs). unfold components.
  assert (∀ l, Forall (λ v, v ≠ ""%string ∧ v ≠ "."%string ∧ v ≠ ".."%string) l →
            omap later_component l = Normal <$> l) as Hl.
  { induction 1 as [|v l (H1 & H2 & H3) _ IH]; [done|]. csimpl. unfold later_component at 1.
    rewrite !bool_decide_eq_false_2 by done. simpl. by rewrite IH. }
  destruct (split_on "/" p) as [|v l]; [done|]. apply Forall_cons in Hs as [(H1 & H2 & H3) Hs].
  rewrite (Hl _ Hs), (bool_decide_eq_false_2 (v = ""%string)), (bool_decide_eq_false_2 (v = "."%string)) by done.
  unfold later_component. by rewrite !bool_decide_eq_false_2.
Qed.

Section Files.
Context `{!Digests} {R : Type} `{!Read R, !FileSystem R}.

(** Neither the root nor any directory on the way to the file, nor the file, is
    a symbolic link. *)
Definition no_links (root names : list string) : Prop :=
  ∀ n, (n ≤ length names)%nat → ∃ kind, symlink_metadata (root ++ take n names) = Some kind ∧ kind ≠ Symlink.

Lemma not_symlink_ok current :
  not_symlink current = Ok tt ↔ ∃ kind, symlink_metadata current = Some kind ∧ kind ≠ Symlink.
Proof.
  unfold not_symlink. destruct (symlink_metadata current) as [kind|]; simpl; [|naive_solver].
  rewrite reject_if_ok, bool_decide_eq_false. naive_solver.
Qed.

Lemma descend_names names root current :
  (let? _ := not_symlink root in for_each descend root (Normal <$> names)) = Ok current
  ↔ no_links root names ∧ current = root ++ names.
Proof.
  revert root. induction names as [|name names IH]; intros root.
  - simpl. rewrite rbind_unit_ok, not_symlink_ok, app_nil_r. unfold no_links. split.
    + intros [Hr [= ->]]. split; [|done]. intros n _. by rewrite take_nil, app_nil_r.
    + intros [Hr ->]. split; [|done]. specialize (Hr 0%nat ltac:(lia)). by rewrite app_nil_r in Hr.
  - rewrite rbind_unit_ok, not_symlink_ok, fmap_cons. cbn [for_each descend].
    transitivity ((∃ kind, symlink_metadata root = Some kind ∧ kind ≠ Symlink)
      ∧ (let? _ := not_symlink (root ++ [name]) in for_each descend (root ++ [name]) (Normal <$> names)) = Ok current).
    { destruct (not_symlink (root ++ [name])) as [[]| |]; simpl; tauto. }
    rewrite IH, <-app_assoc. simpl. unfold no_links. split.
    + intros (Hr & Hn & ->). split; [|done]. intros [|n] Hle; [by rewrite take_0, app_nil_r|].
      specialize (Hn n ltac:(simpl in Hle; lia)). by rewrite <-app_assoc in Hn.
    + intros [Hn ->]. split_and!; [|intros n Hle|done].
      * specialize (Hn 0%nat ltac:(lia)). by rewrite take_0, app_nil_r in Hn.
      * specialize (Hn (S n) ltac:(simpl; lia)). by rewrite <-app_assoc.
Qed.

(** The loop ends: every round but the last reads a byte of those left. *)
Lemma hash_loop_ends fuel (r : R) limit total hashed :
  0 ≤ limit → (Z.to_nat limit < fuel)%nat → hash_loop fuel r limit total hashed ≠ Panic.
Proof.
  revert r limit total hashed. induction fuel as [|fuel IH]; intros r limit total hashed Hl Hf; [lia|]. simpl.
  destruct (limit =? 0) eqn:E; [done|]. destruct (read r (Z.min 16384 limit)) as [[r' b]|] eqn:Er; simpl; [|done].
  apply read_law in Er as (_ & Hb & _); [|lia]. pose proof (byte_len_nonneg b).
  destruct (byte_len b =? 0) eqn:E0; [done|]. bools. apply IH; lia.
Qed.

Lemma verify_bytes_total (r : R) a limits :
  option_ok (λ n, 0 ≤ n) (af_byte_length a) → verify_artifact_bytes r a limits ≠ Panic.
Proof.
  intros Hw. unfold verify_artifact_bytes. apply rbind_panic; [apply validate_artifact_total|]. intros _ _.
  destruct (af_sha256 a) as [s|]; [|done]. destruct (af_byte_length a) as [n|]; [|done].
  specialize (Hw n eq_refl). cbv beta in Hw.
  apply rbind_panic; [apply hash_loop_ends; unfold saturating_add, u64_max; lia|]. intros [total hashed] _. total.
Qed.

(** What it hashes is a prefix of what the source holds, all of it unless the
    limit was reached. *)
Lemma hash_loop_prefix fuel (r : R) limit total hashed total' hashed' :
  0 ≤ limit → hash_loop fuel r limit total hashed = Ok (total', hashed') →
  ∃ b rest, remaining r = b +:+ rest ∧ hashed' = hashed +:+ b ∧ total' = total + byte_len b
    ∧ (byte_len b = limit ∨ byte_len b < limit ∧ rest = EmptyString).
Proof.
  revert r limit total hashed. induction fuel as [|fuel IH]; intros r limit total hashed Hl; [done|]. simpl.
  destruct (limit =? 0) eqn:E.
  { intros [= <- <-]. exists EmptyString, (remaining r). rewrite str_app_nil_r. bools.
    change (byte_len EmptyString) with 0. split_and!; [done|done|lia|lia]. }
  destruct (read r (Z.min 16384 limit)) as [[r' b]|] eqn:Er; simpl; [|done].
  apply read_law in Er as (Hrem & Hb & Hend); [|lia]. pose proof (byte_len_nonneg b). bools.
  destruct (byte_len b =? 0) eqn:E0; bools.
  - intros [= <- <-]. apply byte_len_zero in E0 as ->. exists EmptyString, EmptyString.
    rewrite !str_app_nil_r. change (byte_len EmptyString) with 0 in *.
    split_and!; [by apply Hend; [done|lia]|done|lia|right; split; [lia|done]].
  - intros (b' & rest & Hr' & -> & -> & Hlim)%IH; [|lia]. exists (b +:+ b'), rest.
    rewrite byte_len_app, Hrem, Hr', !str_app_assoc. split_and!; [done|done|lia|].
    destruct Hlim as [Hlim|[Hlim ->]]; [left; lia|right; split; [lia|done]].
Qed.

Lemma hash_loop_reliable fuel (r : R) limit total hashed :
  (∀ r n, is_Some (read r n)) → 0 ≤ limit → (Z.to_nat limit < fuel)%nat →
  is_ok (hash_loop fuel r limit total hashed) = true.
Proof.
  intros Hread. revert r limit total hashed.
  induction fuel as [|fuel IH]; intros r limit total hashed Hl Hf; [lia|]. simpl.
  destruct (limit =? 0) eqn:E; [done|]. destruct (Hread r (Z.min 16384 limit)) as [[r' b] Er]. rewrite Er. simpl.
  apply read_law in Er as (_ & Hb & _); [|lia]. pose proof (byte_len_nonneg b).
  destruct (byte_len b =? 0) eqn:E0; [done|]. bools. apply IH; lia.
Qed.

(** The declared length and digest of the source. *)
Definition holds_declared (r : R) (a : Artifact) : Prop :=
  af_byte_length a = Some (byte_len (remaining r)) ∧ af_sha256 a = Some (sha256_hex (remaining r)).

Lemma verify_bytes_sound (r : R) a limits :
  option_ok (λ n, 0 ≤ n) (af_byte_length a) →
  verify_artifact_bytes r a limits = Ok tt → artifact_ok limits a ∧ holds_declared r a.
Proof.
  intros Hw. unfold verify_artifact_bytes. rewrite rbind_unit_ok, validate_artifact_ok. intros [Ha Hv].
  split; [done|]. destruct Ha as (_ & Hlen & _ & _). unfold holds_declared.
  destruct (af_sha256 a) as [expected|]; [|done]. destruct (af_byte_length a) as [n|]; [|done].
  destruct (Hlen n eq_refl) as [Hn _]. specialize (Hw n eq_refl). cbv beta in Hw.
  assert (saturating_add u64_max n 1 = n + 1) as Hs.
  { unfold saturating_add, u64_max, max_safe_integer in *. lia. }
  rewrite Hs in Hv. destruct (hash_loop _ r (n + 1) 0 EmptyString) as [[total hashed]| |] eqn:E; simpl in Hv; [|done..].
  apply reject_if_ok, orb_false_iff in Hv as [Ht Hh]. bools.
  apply hash_loop_prefix in E as (b & rest & Hr & Hb & -> & Hlim); [|lia].
  rewrite str_app_nil in Hb. subst hashed. destruct Hlim as [Hlim|[Hlim ->]]; [lia|].
  rewrite str_app_nil_r in Hr. rewrite Hr. split; f_equal; [lia|done].
Qed.

Lemma verify_bytes_complete (r : R) a limits :
  (∀ r n, is_Some (read r n)) → artifact_ok limits a → holds_declared r a →
  verify_artifact_bytes r a limits = Ok tt.
Proof.
  intros Hread Ha [Hlen Hsha]. unfold verify_artifact_bytes. rewrite rbind_unit_ok, validate_artifact_ok.
  split; [done|]. rewrite Hlen, Hsha. destruct Ha as (_ & Hbound & _ & _).
  destruct (Hbound _ Hlen) as [Hn _]. pose proof (byte_len_nonneg (remaining r)).
  assert (saturating_add u64_max (byte_len (remaining r)) 1 = byte_len (remaining r) + 1) as Hs.
  { unfold saturating_add, u64_max, max_safe_integer in *. lia. }
  rewrite Hs. assert (∃ limit, limit = byte_len (remaining r) + 1) as [limit Hlimit] by eauto.
  rewrite <-Hlimit.
  pose proof (hash_loop_reliable (S (Z.to_nat limit)) r limit 0 EmptyString Hread ltac:(lia) ltac:(lia)) as Hok.
  destruct (hash_loop _ r limit 0 EmptyString) as [[total hashed]| |] eqn:E; [|done..]. simpl.
  apply hash_loop_prefix in E as (b & rest & Hr & -> & -> & Hlim); [|lia]. rewrite str_app_nil.
  destruct Hlim as [Hlim|[Hlim ->]].
  - exfalso. rewrite Hr, byte_len_app in *. pose proof (byte_len_nonneg rest). lia.
  - rewrite str_app_nil_r in Hr. rewrite <-Hr. apply reject_if_ok. rewrite bool_decide_eq_true_2 by done.
    rewrite Z.add_0_l, Z.eqb_refl. done.
Qed.

End Files.
