(* ===== verification/PortableTableProofs.v ===== *)
(** Tables: what validation and import accept, what a spreadsheet is shown, and
    a reader that recovers a table from its Markdown presentation. *)

From Stdlib Require Import ZArith Lia Ascii.
From stdpp Require Import base gmap strings list.
From S2P Require Import Prelude Text PortabilityTypes PortableTable.

#[local] Open Scope Z_scope.

(** ** Validation *)

Record table_ok (limits : Limits) (t : Table) : Prop := {
  tb_columns : columns t ≠ [];
  tb_named : Forall (λ c, blank c = false) (columns t);
  tb_distinct : NoDup (columns t);
  tb_cells : vec_len (columns t) * (vec_len (rows t) + 1) ≤ max_table_cells limits;
  tb_width : Forall (λ r, length r = length (columns t)) (rows t);
  tb_bytes : sum_lengths (columns t ++ concat (rows t)) ≤ max_input_bytes limits;
}.

Lemma existsb_Forall {A : Type} (p : A → bool) l : existsb p l = false ↔ Forall (λ x, p x = false) l.
Proof. induction l as [|x l IH]; simpl; [by split|]. by rewrite orb_false_iff, Forall_cons, IH. Qed.

Lemma size_list_to_set_nodup (l : list string) : size (list_to_set l : gset string) = length l ↔ NoDup l.
Proof.
  induction l as [|x l IH]; [split; [constructor|done]|].
  assert (∀ k : list string, (size (list_to_set k : gset string) ≤ length k)%nat) as Hle.
  { induction k as [|y k IHk]; [done|]. simpl. destruct (decide (y ∈ (list_to_set k : gset string))) as [Hy|Hy].
    - replace ({[y]} ∪ list_to_set k : gset string) with (list_to_set k : gset string) by set_solver. lia.
    - rewrite size_union, size_singleton by set_solver. lia. }
  rewrite NoDup_cons, <-IH. simpl. destruct (decide (x ∈ l)) as [Hx|Hx].
  - replace ({[x]} ∪ list_to_set l : gset string) with (list_to_set l : gset string) by set_solver.
    specialize (Hle l). split; [lia|naive_solver].
  - rewrite size_union, size_singleton by set_solver. split; [intros; split; [done|lia]|intros [_ ?]; lia].
Qed.

Lemma saturating_mul_le w h max :
  max < usize_max → saturating_mul w h ≤ max ↔ w * h ≤ max.
Proof. unfold saturating_mul. lia. Qed.

Lemma cell_count_le w h max :
  1 ≤ w → 0 ≤ h → max < usize_max → cell_count w h ≤ max ↔ w * (h + 1) ≤ max.
Proof.
  intros Hw Hh Hm. unfold cell_count. rewrite saturating_mul_le by done. unfold saturating_add.
  destruct (Z.min_spec usize_max (h + 1)) as [[Hlt ->]|[_ ->]]; [|done].
  assert (0 < usize_max) by done. split; nia.
Qed.

Lemma validate_table_ok limits t :
  max_table_cells limits < usize_max → validate_table t limits = Ok tt ↔ table_ok limits t.
Proof.
  intros Hm. unfold validate_table.
  rewrite !rbind_unit_ok, !reject_if_ok, orb_false_iff, bool_decide_eq_false, !existsb_Forall, negb_false_iff,
    bool_decide_eq_true, size_list_to_set_nodup, !Z.ltb_ge.
  assert (Forall (λ r, negb (vec_len r =? vec_len (columns t)) = false) (rows t)
    ↔ Forall (λ r, length r = length (columns t)) (rows t)) as ->.
  { apply Forall_proper; [|done]. intros r. rewrite negb_false_iff, Z.eqb_eq. unfold vec_len. lia. }
  assert (columns t ≠ [] → cell_count (vec_len (columns t)) (vec_len (rows t)) ≤ max_table_cells limits
    ↔ vec_len (columns t) * (vec_len (rows t) + 1) ≤ max_table_cells limits) as Hc.
  { intros Hne. apply cell_count_le; unfold vec_len; [|lia|done]. destruct (columns t); [done|simpl; lia]. }
  split; [intros ([? ?] & ? & ? & ? & ?)|intros []]; [constructor|split_and!]; by try apply Hc.
Qed.

(** ** CSV *)

Lemma csv_rows_ok w limits seen records out :
  0 ≤ w → 0 ≤ seen → max_table_cells limits < usize_max →
  csv_rows w limits seen records = Ok out
  ↔ records = Some <$> out ∧ (out ≠ [] → w * (seen + vec_len out + 1) ≤ max_table_cells limits).
Proof.
  intros Hw Hs Hm. revert seen out Hs. induction records as [|record records IH]; intros seen out Hs; simpl.
  { split; [intros [= <-]|intros [He _]; destruct out]; done. }
  destruct record as [row|]; simpl; [|split; [done|intros [He _]; by destruct out]].
  rewrite rbind_unit_ok, reject_if_ok, Z.ltb_ge, saturating_mul_le by done. split.
  - intros [Hle Hrest]. destruct (csv_rows _ _ _ records) as [more| |] eqn:E; simpl in Hrest; [|done..].
    simplify_eq. apply IH in E as [-> Hb]; [|lia]. split; [done|]. intros _.
    unfold vec_len in *. destruct more as [|m more]; simpl length in *; [lia|]. specialize (Hb ltac:(done)). lia.
  - intros [He Hb]. destruct out as [|r out]; [done|]. rewrite fmap_cons in He. simplify_eq.
    specialize (Hb ltac:(done)). unfold vec_len in *. simpl length in Hb.
    rewrite (proj2 (IH (seen + 1) out ltac:(lia))); [|split; [done|intros _; lia]]. split; [nia|done].
Qed.

Section Csv.
Context `{!Csv}.

Lemma parse_csv_ok input limits t :
  max_table_cells limits < usize_max →
  parse_csv input limits = Ok t ↔
  byte_len input ≤ max_input_bytes limits ∧ utf8_valid input = true ∧ csv_headers input = Some (columns t)
  ∧ csv_records input = Some <$> rows t ∧ table_ok limits t.
Proof.
  intros Hm. unfold parse_csv. rewrite !rbind_unit_ok, !reject_if_ok, Z.ltb_ge, negb_false_iff.
  assert (∀ l : list string, 0 ≤ vec_len l) as Hpos by (intros l; unfold vec_len; lia).
  destruct (csv_headers input) as [cols|] eqn:E; simpl; [|naive_solver].
  split.
  - intros (Hs & Hu & Hrest). destruct (csv_rows _ _ _ _) as [rs| |] eqn:Er; simpl in Hrest; [|done..].
    rewrite rbind_unit_ok, validate_table_ok in Hrest by done. destruct Hrest as [Ht [= <-]].
    apply csv_rows_ok in Er as [Hr _]; [by split_and!|apply Hpos|lia|done].
  - intros (Hs & Hu & [= ->] & Hr & Ht). split_and!; [done|done|].
    rewrite (proj2 (csv_rows_ok _ limits 0 _ (rows t) (Hpos _) (Z.le_refl 0) Hm)).
    + simpl. rewrite rbind_unit_ok, validate_table_ok by done. by destruct t.
    + split; [done|]. intros _. rewrite Z.add_0_l. apply Ht.
Qed.

(** An apostrophe stops evaluation. *)
Lemma spreadsheet_text_safe v : formula_like (spreadsheet_text v) = false.
Proof.
  unfold spreadsheet_text. destruct (formula_like v) eqn:E; [|done]. unfold formula_like.
  rewrite str_app_cons, str_app_nil. by destruct v as [|b [|c v]].
Qed.

Lemma spreadsheet_text_changes v : spreadsheet_text v = v ↔ formula_like v = false.
Proof.
  unfold spreadsheet_text. destruct (formula_like v); [|done]. split; [|done]. intros Heq.
  apply (f_equal byte_len) in Heq. rewrite byte_len_app in Heq. change (byte_len "'") with 1 in Heq. lia.
Qed.

(** A loss is reported exactly when a cell was changed. *)
Lemma rendered_losses (all : list (list string)) :
  (if existsb (existsb (λ v, negb (bool_decide (spreadsheet_text v = v)))) all then [csv_loss] else []) = []
  ↔ fmap (M:=list) (fmap (M:=list) spreadsheet_text) all = all.
Proof.
  assert (∀ l : list string, existsb (λ v, negb (bool_decide (spreadsheet_text v = v))) l = false
    ↔ fmap (M:=list) spreadsheet_text l = l) as Hrow.
  { induction l as [|v l IH]; [done|]. rewrite fmap_cons. simpl.
    rewrite orb_false_iff, negb_false_iff, bool_decide_eq_true, IH.
    split; [intros [E1 E2]; by rewrite E1, E2|by intros [= E1 E2]]. }
  transitivity (existsb (existsb (λ v, negb (bool_decide (spreadsheet_text v = v)))) all = false).
  { by destruct (existsb _ all). }
  induction all as [|row all IH]; [done|]. rewrite fmap_cons. simpl. rewrite orb_false_iff, Hrow, IH.
  split; [intros [E1 E2]; by rewrite E1, E2|by intros [= E1 E2]].
Qed.

End Csv.

(** ** Markdown *)

(** The replacement of each character, in one pass. *)
Definition escape_char (a : Ascii.ascii) : string :=
  if Ascii.eqb a "&" then "&amp;"
  else if Ascii.eqb a "<" then "&lt;"
  else if Ascii.eqb a ">" then "&gt;"
  else if existsb (Ascii.eqb a) ["\"; "|"; "*"; "_"; "`"; "["; "]"]%char then String "\" (String a "")
  else if Ascii.eqb a carriage_return then ""
  else if Ascii.eqb a newline then "<br>"
  else String a "".

(** The twelve passes of the code are one. *)
Lemma escape_single_pass v : escape v = map_bytes escape_char v.
Proof.
  unfold escape, replace_char. rewrite !map_bytes_compose. apply map_bytes_ext.
  intros [[] [] [] [] [] [] [] []]; reflexivity.
Qed.

(** A text without carriage returns. *)
Definition strip_cr (v : string) : string := replace_char carriage_return "" v.

(** [s] in front of the first piece. *)
Definition prepend (s : string) (pieces : list string) : list string :=
  match pieces with [] => [s] | p :: ps => (s +:+ p) :: ps end.

(** Pieces between the bars that no backslash escapes. *)
Fixpoint cut_bars (s : string) : list string :=
  match s with
  | EmptyString => [""%string]
  | String a s1 =>
      if Ascii.eqb a "\" then
        match s1 with
        | String c s2 => prepend (String a (String c "")) (cut_bars s2)
        | EmptyString => [String a ""]
        end
      else if Ascii.eqb a "|" then ""%string :: cut_bars s1
      else prepend (String a "") (cut_bars s1)
  end.

Fixpoint drop_bytes (n : nat) (s : string) : string :=
  match n, s with
  | S n, String _ s => drop_bytes n s
  | _, _ => s
  end.

(** Entities and breaks back to characters, backslashes removed; at most [fuel]
    characters. *)
Fixpoint unescape (fuel : nat) (s : string) : string :=
  match fuel, s with
  | S fuel, String a s1 =>
      if String.prefix "&amp;" s then String "&" (unescape fuel (drop_bytes 5 s))
      else if String.prefix "&lt;" s then String "<" (unescape fuel (drop_bytes 4 s))
      else if String.prefix "&gt;" s then String ">" (unescape fuel (drop_bytes 4 s))
      else if String.prefix "<br>" s then String newline (unescape fuel (drop_bytes 4 s))
      else if Ascii.eqb a "\" then
        match s1 with String c s2 => String c (unescape fuel s2) | EmptyString => EmptyString end
      else String a (unescape fuel s1)
  | _, _ => EmptyString
  end.

Definition read_cell (piece : string) : string := unescape (String.length piece) piece.

(** The piece without its first and last character. *)
Definition inner (piece : string) : string := String.substring 1 (String.length piece - 2) piece.

(** A table row: the pieces between its outer bars. *)
Definition read_row (line : string) : list string :=
  match cut_bars line with
  | _ :: pieces => read_cell <$> (inner <$> removelast pieces)
  | [] => []
  end.

Definition read_markdown (text : string) : option Table :=
  match removelast (split_on newline text) with
  | header :: _ :: body => Some (mkTable (read_row header) (read_row <$> body))
  | _ => None
  end.

Lemma unescape_char n a rest :
  a ≠ carriage_return → unescape (S n) (escape_char a +:+ rest) = String a (unescape n rest).
Proof. destruct a as [[] [] [] [] [] [] [] []]; intros Ha;
  first [reflexivity|by destruct Ha|by destruct rest]. Qed.

Lemma unescape_escape v n : (String.length (strip_cr v) ≤ n)%nat → unescape n (escape v) = strip_cr v.
Proof.
  rewrite escape_single_pass. revert n. induction v as [|a v IH]; intros n Hn; [by destruct n|].
  unfold strip_cr, replace_char in *. simpl in Hn |- *. destruct (Ascii.eqb_spec a carriage_return) as [->|Hne].
  - apply IH, Hn.
  - rewrite str_app_cons, str_app_nil in Hn |- *. simpl in Hn. destruct n as [|n]; [lia|].
    rewrite unescape_char by done. rewrite IH by lia. done.
Qed.

Lemma cut_bars_nonempty s : cut_bars s ≠ [].
Proof.
  destruct s as [|b s]; [done|]. simpl. destruct (Ascii.eqb b "\"); [by destruct s as [|c s]; [|destruct (cut_bars s)]|].
  by destruct (Ascii.eqb b "|"), (cut_bars s).
Qed.

Lemma cut_bars_plain s rest :
  all_bytes (λ a, negb (Ascii.eqb a "\" || Ascii.eqb a "|")) s = true →
  cut_bars (s +:+ rest) = prepend s (cut_bars rest).
Proof.
  pose proof (cut_bars_nonempty rest) as Hne. induction s as [|a s IH].
  { intros _. rewrite str_app_nil. by destruct (cut_bars rest). }
  rewrite str_app_cons. simpl. intros [Ha Hs]%andb_true_iff. apply negb_true_iff, orb_false_iff in Ha as [-> ->].
  rewrite (IH Hs). by destruct (cut_bars rest).
Qed.

Lemma cut_bars_char a rest : cut_bars (escape_char a +:+ rest) = prepend (escape_char a) (cut_bars rest).
Proof. destruct a as [[] [] [] [] [] [] [] []]; first [reflexivity|by apply cut_bars_plain]. Qed.

Lemma prepend_app s t l : prepend s (prepend t l) = prepend (s +:+ t) l.
Proof. destruct l as [|p l]; simpl; [done|]. by rewrite str_app_assoc. Qed.

Lemma cut_bars_escape v rest : cut_bars (escape v +:+ rest) = prepend (escape v) (cut_bars rest).
Proof.
  rewrite escape_single_pass. induction v as [|a v IH]; simpl map_bytes.
  - rewrite str_app_nil. pose proof (cut_bars_nonempty rest). by destruct (cut_bars rest).
  - rewrite <-str_app_assoc, cut_bars_char, IH. apply prepend_app.
Qed.

Lemma substring_prefix e t : String.substring 0 (String.length e) (e +:+ t) = e.
Proof. induction e as [|a e IH]; [by destruct t|]. rewrite str_app_cons. simpl. by rewrite IH. Qed.

Lemma inner_padded e : inner (" " +:+ e +:+ " ") = e.
Proof.
  unfold inner. rewrite str_app_cons, str_app_nil. simpl.
  replace (String.length (e +:+ " ") - 1)%nat with (String.length e); [apply substring_prefix|].
  pose proof (byte_len_app e " ") as Hl. unfold byte_len in Hl. simpl in Hl. lia.
Qed.

(** A row without its line end. *)
Definition row_line (values : list string) : string := "| " +:+ join " | " (escape <$> values) +:+ " |".

Lemma markdown_row_line values : markdown_row values = row_line values +:+ String newline "".
Proof. unfold markdown_row, row_line. by rewrite !str_app_assoc. Qed.

Lemma join_cons sep p q ps : join sep (p :: q :: ps) = p +:+ sep +:+ join sep (q :: ps).
Proof. done. Qed.

Lemma cut_cells v values :
  cut_bars (" " +:+ join " | " (escape <$> v :: values) +:+ " |")
  = ((λ e, " " +:+ e +:+ " ") <$> (escape <$> v :: values)) ++ [""%string].
Proof.
  revert v. induction values as [|w values IH]; intros v.
  - cbn [fmap list_fmap join]. by rewrite (cut_bars_plain " "), cut_bars_escape.
  - rewrite (fmap_cons escape v), (fmap_cons _ (escape v)). cbn [app]. rewrite <-IH, (fmap_cons escape w), join_cons.
    generalize (join " | " (escape w :: (escape <$> values))) as cells. intros cells.
    rewrite (cut_bars_plain " ") by done. rewrite <-!str_app_assoc, cut_bars_escape.
    change (cut_bars (" | " +:+ cells +:+ " |"))
      with (prepend " " (""%string :: cut_bars (" " +:+ cells +:+ " |"))).
    by destruct (cut_bars (" " +:+ cells +:+ " |")).
Qed.

Lemma length_strip_escape v : (String.length (strip_cr v) ≤ String.length (escape v))%nat.
Proof.
  rewrite escape_single_pass. unfold strip_cr, replace_char. induction v as [|a v IH]; [done|]. simpl.
  assert (∀ s t, String.length (s +:+ t) = (String.length s + String.length t)%nat) as Happ.
  { intros s t. pose proof (byte_len_app s t) as H. unfold byte_len in H. lia. }
  rewrite !Happ. enough (String.length (if Ascii.eqb a carriage_return then "" else String a "")
    ≤ String.length (escape_char a))%nat by lia.
  clear. destruct a as [[] [] [] [] [] [] [] []]; vm_compute; lia.
Qed.

Lemma read_cell_escape v : read_cell (escape v) = strip_cr v.
Proof. apply unescape_escape, length_strip_escape. Qed.

Lemma read_row_line v values : read_row (row_line (v :: values)) = strip_cr <$> v :: values.
Proof.
  unfold read_row, row_line.
  change (cut_bars ("| " +:+ join " | " (escape <$> v :: values) +:+ " |"))
    with (""%string :: cut_bars (" " +:+ join " | " (escape <$> v :: values) +:+ " |")).
  rewrite cut_cells, removelast_last, <-!list_fmap_compose. apply list_fmap_ext. intros i x _. simpl.
  by rewrite inner_padded, read_cell_escape.
Qed.

Lemma row_line_clean values : contains_char newline (row_line values) = false.
Proof.
  assert (∀ v, contains_char newline (escape v) = false) as Hv.
  { intros v. rewrite escape_single_pass. apply contains_map_bytes.
    intros [[] [] [] [] [] [] [] []]; reflexivity. }
  unfold row_line. rewrite !contains_char_app. simpl. rewrite orb_false_r.
  induction values as [|v values IH]; [done|]. rewrite fmap_cons.
  destruct (escape <$> values) as [|e es]; [simpl; apply Hv|].
  rewrite join_cons, !contains_char_app, Hv, IH. done.
Qed.

(** The lines of a presentation are its rows. *)
Lemma split_rows (all : list (list string)) text :
  split_on newline (foldr (λ r text, markdown_row r +:+ text) text all) = (row_line <$> all) ++ split_on newline text.
Proof.
  induction all as [|r all IH]; [done|]. simpl foldr. rewrite markdown_row_line, <-str_app_assoc, str_app_cons,
    str_app_nil, split_on_cut by apply row_line_clean. by rewrite IH.
Qed.

Lemma markdown_text_rows t :
  markdown_text t = foldr (λ r text, markdown_row r +:+ text) ""
    (columns t :: replicate (length (columns t)) "---"%string :: rows t).
Proof.
  unfold markdown_text. assert (∀ text, foldl (λ text r, text +:+ markdown_row r) text (rows t)
    = text +:+ foldr (λ r text, markdown_row r +:+ text) "" (rows t)) as ->.
  { induction (rows t) as [|r l IH]; intros text; simpl; [by rewrite str_app_nil_r|].
    by rewrite IH, str_app_assoc. }
  simpl. by rewrite !str_app_assoc.
Qed.

(** A table without carriage returns. *)
Definition without_cr (t : Table) : Table :=
  mkTable (fmap (M:=list) strip_cr (columns t)) (fmap (M:=list) (fmap (M:=list) strip_cr) (rows t)).

Lemma read_markdown_text t :
  columns t ≠ [] → Forall (λ r, length r = length (columns t)) (rows t) →
  read_markdown (markdown_text t) = Some (without_cr t).
Proof.
  intros Hne Hw. unfold read_markdown. rewrite markdown_text_rows, split_rows.
  change (split_on newline "") with [""%string]. rewrite removelast_last, !fmap_cons. unfold without_cr. f_equal. f_equal.
  - destruct (columns t); [done|]. apply read_row_line.
  - rewrite <-list_fmap_compose. apply Forall_fmap_ext_1. eapply Forall_impl; [exact Hw|].
    intros r Hr. simpl. destruct r; [by destruct (columns t)|]. apply read_row_line.
Qed.
