(* ===== verification/PortabilityTheorems.v ===== *)
(** The properties of the interchange crate. *)

From Stdlib Require Import ZArith Lia Ascii.
From stdpp Require Import base gmap strings list.
From S2P Require Import Prelude Text PortabilityTypes PortableTable PortableValidate PortableProofs PortableFiles PortableTableProofs.

#[local] Open Scope Z_scope.

(** ** Bundles and plans *)

(** C38: Decoding a bundle accepts exactly the well-formed ones.  The bytes are
    within the input limit, the root collections within theirs, and no object
    repeats a key at any depth; the typed value carries the contract version,
    and its identities, artifact ids, bundled paths and binding ids are
    pairwise different, every binding names a declared artifact, and every
    scope is contained in the one around it. *)
Theorem decode_bundle_exact {Value : Type} `{!Digests, !WireJson Value} input limits (b : Bundle Value) :
  0 ≤ max_records limits → 0 ≤ max_artifacts limits →
  decode_bundle input limits = Ok b
  ↔ wire_ok input limits ∧ from_json_bundle input = Some b ∧ bundle_ok limits b.
Proof.
  intros Hr Ha. unfold decode_bundle.
  rewrite (decode_checked _ (λ v, validate_bundle v limits)) by done. by rewrite validate_bundle_ok.
Qed.

(** C37: A valid bundle bound to a destination cannot widen it: every record
    belongs to the destination's application, and the scope of every record
    and of every attachment stays in the destination's space, names no
    recipient the destination does not allow, and is at least as sensitive. *)
Theorem destination_contains {Value : Type} `{!Digests} limits (b : Bundle Value) application allowed r :
  validate_bundle b limits = Ok tt → validate_destination b application allowed = Ok tt →
  r ∈ bn_records b →
  pr_application r = application ∧ pr_space r = sp_space allowed ∧ contained (pr_scope r) allowed
  ∧ ∀ a, a ∈ pr_artifact_bindings r → contained (bd_scope a) allowed.
Proof.
  rewrite validate_bundle_ok. unfold validate_destination.
  rewrite !rbind_unit_ok, validate_scope_ok, reject_if_ok, existsb_Forall. intros Hb (_ & (_ & _ & Hc) & Happ) Hin.
  pose proof (ok_records _ _ Hb) as Hrs. rewrite Forall_forall in Hrs, Happ.
  destruct (Hrs r Hin) as (_ & Hsp & _ & Hcb & _ & _ & _ & _ & Hbs). specialize (Happ r Hin). bools.
  assert (contained (pr_scope r) allowed) as Hra by by etrans.
  split_and!; [done|rewrite Hsp; apply Hra|done|]. intros a Ha. rewrite Forall_forall in Hbs.
  etrans; [apply (Hbs a Ha)|done].
Qed.

(** Decoding a change plan accepts exactly the well-formed ones: each
    target is named once, in the plan's space, and no update both sets and
    clears a field.  Bound to a destination, every change addresses its
    application and its space. *)
Theorem change_plan_exact {Value : Type} `{!Digests, !WireJson Value} input limits (p : ChangePlan Value) :
  0 ≤ max_records limits → 0 ≤ max_artifacts limits →
  (decode_change_plan input limits = Ok p
   ↔ wire_ok input limits ∧ from_json_plan input = Some p ∧ plan_ok limits p)
  ∧ ∀ application allowed, plan_ok limits p → validate_plan_destination p application allowed = Ok tt →
      ∀ c, c ∈ pl_changes p →
        rk_application (change_key c) = application ∧ rk_space (change_key c) = sp_space allowed.
Proof.
  intros Hr Ha. split.
  - unfold decode_change_plan. rewrite (decode_checked _ (λ v, check_plan v limits)) by done.
    by rewrite check_plan_ok.
  - intros application allowed Hp. unfold validate_plan_destination.
    rewrite !rbind_unit_ok, validate_scope_ok, reject_if_ok, existsb_Forall, Forall_forall.
    intros (_ & (_ & _ & Hc) & Happ) c Hin. specialize (Happ c Hin). bools. split; [done|].
    pose proof (plan_changes _ _ Hp) as Hcs. rewrite Forall_forall in Hcs. destruct (Hcs c Hin) as (_ & -> & _).
    apply Hc.
Qed.

(** ** Included files *)

(** C39: A bundled file passes verification only if it lies below the root at
    the declared relative path, with no symbolic link on the way, is a regular
    file, and holds exactly the declared number of bytes with the declared
    digest; on a file system whose reads do not fail, every such file
    passes. *)
Theorem bundle_file_verified `{!Digests} {R : Type} `{!Read R, !FileSystem R} root a limits :
  option_ok (λ n, 0 ≤ n) (af_byte_length a) →
  let verified := ∃ path (file : R), af_target a = BundleFile path ∧ artifact_ok limits a
    ∧ no_links (R := R) root (split_on "/" path)
    ∧ open_file (root ++ split_on "/" path) = Some (Some RegularFile, file) ∧ holds_declared file a in
  (verify_bundle_file (R := R) root a limits = Ok tt → verified)
  ∧ ((∀ (r : R) n, is_Some (read r n)) → verified → verify_bundle_file (R := R) root a limits = Ok tt).
Proof.
  intros Hw verified. unfold verify_bundle_file. rewrite rbind_unit_ok, validate_artifact_ok.
  assert (∀ path, af_target a = BundleFile path → artifact_ok limits a → path_ok path) as Hpath.
  { intros path Ht (_ & _ & _ & Hok). unfold target_ok in Hok. rewrite Ht in Hok.
    destruct (af_preservation a); naive_solver. }
  split.
  - intros [Ha Hv]. destruct (af_target a) as [path|?|?] eqn:Et; [|done..].
    rewrite (components_of_path path) in Hv by by apply Hpath.
    apply (rbind_assoc_ok _ _ _ _ (descend_names (split_on "/" path) root)) in Hv as [Hl Hv].
    destruct (open_file _) as [[kind file]|] eqn:Eo; simpl in Hv; [|done].
    destruct kind as [kind|]; simpl in Hv; [|done].
    rewrite rbind_unit_ok, reject_if_ok, negb_false_iff, bool_decide_eq_true in Hv. destruct Hv as [-> Hv].
    apply verify_bytes_sound in Hv as [_ Hd]; [|done]. by exists path, file.
  - intros Hread (path & file & Et & Ha & Hl & Ho & Hd). split; [done|]. rewrite Et.
    rewrite (components_of_path path) by by apply Hpath.
    apply (rbind_assoc_ok _ _ _ _ (descend_names (split_on "/" path) root)). split; [done|]. rewrite Ho. simpl.
    by apply verify_bytes_complete.
Qed.

(** Verification ends for every source and every declared length a 64-bit
    field can hold: the hashing loop never runs out of its bound of one round
    per byte, whatever the sizes of the reads. *)
Theorem verification_terminates `{!Digests} {R : Type} `{!Read R, !FileSystem R} root (r : R) a limits :
  option_ok (λ n, 0 ≤ n) (af_byte_length a) →
  verify_artifact_bytes r a limits ≠ Panic ∧ verify_bundle_file (R := R) root a limits ≠ Panic.
Proof.
  intros Hw.
  assert (∀ r : R, verify_artifact_bytes r a limits ≠ Panic) as Hbytes by (intros r'; by apply verify_bytes_total).
  split; [apply Hbytes|]. unfold verify_bundle_file, not_symlink.
  total. apply for_each_total. intros current c. destruct c; simpl; unfold not_symlink; total.
Qed.

(** ** Tables *)

(** Importing a CSV succeeds exactly for a valid table: the input is within
    the byte limit and UTF-8, the reader parses the header and every record,
    and the table read has distinct non-blank columns, rows of one width and a
    cell count within the limit.  Stopping early at that limit never refuses
    a table the final check would accept. *)
Theorem csv_import_exact `{!Csv} input limits t :
  max_table_cells limits < usize_max →
  parse_csv input limits = Ok t
  ↔ byte_len input ≤ max_input_bytes limits ∧ utf8_valid input = true ∧ csv_headers input = Some (columns t)
    ∧ csv_records input = Some <$> rows t ∧ table_ok limits t.
Proof. apply parse_csv_ok. Qed.

(** A CSV presentation shows no cell a spreadsheet would evaluate.  Each
    written cell is the original, or the original behind an apostrophe where
    it looks like a formula, and the presentation reports a loss exactly when
    some cell was changed. *)
Theorem csv_presentation_safe `{!Csv} t limits p :
  render_csv t limits = Ok p →
  ∃ safe, csv_write safe = Some (bytes p)
    ∧ Forall (Forall (λ c, formula_like c = false)) safe
    ∧ Forall2 (Forall2 (λ v c, c = v ∨ formula_like v = true ∧ c = "'" +:+ v)) (columns t :: rows t) safe
    ∧ (losses p = [] ↔ safe = columns t :: rows t)
    ∧ byte_len (bytes p) ≤ max_input_bytes limits.
Proof.
  unfold render_csv. rewrite rbind_unit_ok. intros [_ Hp]. apply rbind_ok in Hp as (output & Ho%ok_or_ok & Hp).
  rewrite rbind_unit_ok, reject_if_ok, Z.ltb_ge in Hp. destruct Hp as [Hlen [= <-]]. simpl.
  exists (fmap (M:=list) (fmap (M:=list) spreadsheet_text) (columns t :: rows t)).
  split_and!; [done| | | |done].
  - apply Forall_fmap, Forall_true. intros row. apply Forall_fmap, Forall_true. apply spreadsheet_text_safe.
  - apply Forall2_fmap_r, Forall_Forall2_diag, Forall_true. intros row.
    apply Forall2_fmap_r, Forall_Forall2_diag, Forall_true. intros v. simpl.
    unfold spreadsheet_text. destruct (formula_like v) eqn:E; [right; by split|by left].
  - exact (rendered_losses (columns t :: rows t)).
Qed.

(** C40: A Markdown presentation loses only carriage returns: reading the rows
    back (cells between the bars no backslash escapes, entities and breaks
    replaced) gives the table it was rendered from, without them. *)
Theorem markdown_roundtrip t limits p :
  max_table_cells limits < usize_max → render_markdown t limits = Ok p →
  read_markdown (bytes p) = Some (without_cr t) ∧ byte_len (bytes p) ≤ max_input_bytes limits
  ∧ losses p = [markdown_loss].
Proof.
  intros Hm. unfold render_markdown.
  rewrite rbind_unit_ok, validate_table_ok, rbind_unit_ok, reject_if_ok, Z.ltb_ge by done.
  intros (Ht & Hlen & [= <-]). split_and!; [|done|done]. apply read_markdown_text; apply Ht.
Qed.

(** ** Witnesses *)

Section Story.

(** A JSON crate that reads one document, and a digest of one value. *)
Definition note_scope : Scope := mkScope "home" ["ann"; "bob"]%string Private.
Definition ann_scope : Scope := mkScope "home" ["ann"]%string Restricted.
Definition note_provenance : Provenance := mkProvenance "notes" None None None [] None.
Definition note_digest : string := "0123456789abcdef0123456789abcdef0123456789abcdef0123456789abcdef".
Definition note_file : Artifact :=
  mkArtifact "scan" (Some note_digest) (Some 5) (BundleFile "scans/one.txt") IncludedVerified.
Definition note_binding : Binding :=
  mkBinding "b1" "scan" Attachment ann_scope "text/plain" None note_provenance.
Definition note_record : PortableRecord unit :=
  mkPortableRecord "notes" "home" "note" "n1" 1 ApplicationRecord None ann_scope ∅ note_provenance [note_binding].
Definition note_bundle : Bundle unit :=
  mkBundle contract_version "full" "bundle" (mkProducer "notes" "1.0") "2024-01-01T00:00:00Z" note_scope
    (mkEnumeration Selection true "all" None []) [] [note_record] [note_file].
Definition note_plan : ChangePlan unit :=
  mkChangePlan contract_version "full" "op" "bundle" note_scope
    [Update (record_key note_record) "r1" {[ "title"%string := tt ]} ["body"%string]].

#[local] Instance note_json : WireJson unit := {|
  skim_root _ := Some [("records"%string, SkimArray [true]); ("contract"%string, SkimOther)];
  parse_doc _ := Some (DObject [("records"%string, DArray [DScalar]); ("contract"%string, DScalar)]);
  from_json_bundle _ := Some note_bundle;
  from_json_plan _ := Some note_plan;
|}.

#[local] Instance note_digests : Digests := {|
  sha256_hex b := if String.eqb b "hello" then note_digest else "";
  rfc3339_ok _ := true;
|}.

(** A source read at most two bytes at a time. *)
Definition read_two (r : string) (n : Z) : option (string * string) :=
  let k := Nat.min 2 (Z.to_nat n) in
  Some (drop_bytes k r, String.substring 0 k r).

Lemma cut_bytes k s :
  s = String.substring 0 k s +:+ drop_bytes k s ∧ (String.length (String.substring 0 k s) ≤ k)%nat.
Proof.
  revert s. induction k as [|k IH]; intros [|a s]; try (split; [done|simpl; lia]).
  destruct (IH s) as [Hs Hl]. simpl. rewrite str_app_cons, <-Hs. split; [done|lia].
Qed.

Lemma read_two_law r n r' b :
  0 ≤ n → read_two r n = Some (r', b) →
  r = b +:+ r' ∧ byte_len b ≤ n ∧ (b = EmptyString → 0 < n → r = EmptyString).
Proof.
  unfold read_two. remember (Nat.min 2 (Z.to_nat n)) as k eqn:Ek. intros Hn [= <- <-].
  destruct (cut_bytes k r) as [Hr Hl]. split_and!; [done|unfold byte_len; lia|].
  intros He Hpos. destruct r as [|a r]; [done|]. destruct k as [|k]; [lia|done].
Qed.

#[local] Instance string_read : Read string := {| read := read_two; remaining r := r; read_law := read_two_law |}.

(** One regular file below the root. *)
#[local] Instance note_files : FileSystem string := {|
  symlink_metadata path := if bool_decide (path = ["root"; "scans"; "one.txt"]%string) then Some RegularFile
                           else Some OtherKind;
  open_file path := if bool_decide (path = ["root"; "scans"; "one.txt"]%string)
                    then Some (Some RegularFile, "hello"%string) else None;
|}.

Lemma decode_bundle_exact_witness : wire_ok "" default_limits ∧ bundle_ok default_limits note_bundle.
Proof.
  destruct (proj1 (decode_bundle_exact "" default_limits note_bundle ltac:(by vm_compute) ltac:(by vm_compute)))
    as (Hw & _ & Hb); [vm_compute; reflexivity|]. split; [exact Hw|exact Hb].
Defined.

Lemma destination_contains_witness : contained ann_scope note_scope.
Proof.
  refine (proj2 (proj2 (proj2 (destination_contains default_limits note_bundle "notes" note_scope note_record
    _ _ _))) note_binding _); [vm_compute; reflexivity|vm_compute; reflexivity|left|left].
Defined.

Lemma change_plan_exact_witness :
  plan_ok default_limits note_plan ∧ rk_space (change_key (Delete (Value := unit) (record_key note_record) "r1" "x"))
    = "home"%string.
Proof.
  destruct (change_plan_exact "" default_limits note_plan ltac:(by vm_compute) ltac:(by vm_compute)) as [[Hd _] Hc].
  destruct Hd as (_ & _ & Hp); [vm_compute; reflexivity|]. split; [exact Hp|].
  exact (proj2 (Hc "notes"%string note_scope Hp ltac:(vm_compute; reflexivity) _ ltac:(left))).
Defined.

Lemma bundle_file_verified_witness : verify_bundle_file ["root"%string] note_file default_limits = Ok tt.
Proof.
  assert (option_ok (λ n, 0 ≤ n) (af_byte_length note_file)) as Hw by (intros n [= <-]; lia).
  destruct (bundle_file_verified ["root"%string] note_file default_limits Hw) as [Hs Hc].
  apply Hc; [intros r n; eexists; reflexivity|]. apply Hs. vm_compute. reflexivity.
Defined.

Lemma verification_terminates_witness : verify_artifact_bytes "hello"%string note_file default_limits ≠ Panic.
Proof.
  refine (proj1 (verification_terminates ["root"%string] "hello"%string note_file default_limits _)).
  intros n [= <-]. lia.
Defined.

(** A CSV crate for one small table. *)
Definition note_table : Table := mkTable ["name"; "sum"]%string [["a|b"; "=1+1"]]%string.

#[local] Instance note_csv : Csv := {|
  csv_headers _ := Some (columns note_table);
  csv_records _ := Some <$> rows note_table;
  csv_write l := Some (join "," (concat l));
|}.

Lemma csv_import_exact_witness : table_ok default_limits note_table.
Proof.
  apply (proj1 (csv_import_exact "name,sum" default_limits note_table ltac:(by vm_compute))).
  vm_compute. reflexivity.
Defined.

Lemma csv_presentation_safe_witness :
  ∃ p safe, render_csv note_table default_limits = Ok p ∧ csv_write safe = Some (bytes p)
    ∧ Forall (Forall (λ c, formula_like c = false)) safe.
Proof.
  assert (∃ p, render_csv note_table default_limits = Ok p) as [p E] by (eexists; vm_compute; reflexivity).
  destruct (csv_presentation_safe note_table default_limits p E) as (safe & Hs & Hf & _).
  exists p, safe. split; [exact E|split; [exact Hs|exact Hf]].
Defined.

Lemma markdown_roundtrip_witness :
  ∃ p, render_markdown note_table default_limits = Ok p ∧ read_markdown (bytes p) = Some note_table.
Proof.
  assert (∃ p, render_markdown note_table default_limits = Ok p) as [p E] by (eexists; vm_compute; reflexivity).
  exists p. split; [exact E|].
  destruct (markdown_roundtrip note_table default_limits p ltac:(by vm_compute) E) as [Hr _].
  rewrite Hr. vm_compute. reflexivity.
Defined.

End Story.
