(* ===== verification/Program.v ===== *)
(** Programs that call their environment, as trees of calls and answers.

    [prog] has one node per call; a panic is [Unwind].  [safe] is the program
    logic: a monitor follows every call and answer, may refuse one, and the
    postcondition holds of its state where the program returns.  [runs] are
    the finite histories of a program, [interp] executes it with a handler. *)

From stdpp Require Import base list.
From S2P Require Import Prelude.

Section Program.
Context {Op : Type} {Ans : Op → Type}.

Inductive prog (A : Type) : Type :=
| Ret (a : A)
| Do (op : Op) (k : Ans op → prog A)
| Unwind.
#[global] Arguments Ret {A} a.
#[global] Arguments Do {A} op k.
#[global] Arguments Unwind {A}.

Fixpoint pbind {A B : Type} (p : prog A) (f : A → prog B) : prog B :=
  match p with
  | Ret a => f a
  | Do op k => Do op (λ a, pbind (k a) f)
  | Unwind => Unwind
  end.

Definition ask (op : Op) : prog (Ans op) := Do op Ret.

(** The [?] operator: an error returns at once. *)
Definition try_bind {A B E : Type} (p : prog (result E A)) (f : A → prog (result E B)) : prog (result E B) :=
  pbind p (λ r, match r with Ok a => f a | Err e => Ret (Err e) | Panic => Unwind end).

(** ** Histories *)

Record event : Type := mkCall { ev_op : Op; ev_ans : Ans ev_op }.

Inductive runs {A : Type} : prog A → list event → prog A → Prop :=
| runs_nil p : runs p [] p
| runs_cons op k a tr q : runs (k a) tr q → runs (Do op k) (mkCall op a :: tr) q.

(** Execution with a handler that answers from its own state. *)
Fixpoint interp {S A : Type} (handler : ∀ op : Op, S → S * Ans op) (p : prog A) (s : S) :
    S * list event * option A :=
  match p with
  | Ret a => (s, [], Some a)
  | Unwind => (s, [], None)
  | Do op k =>
      let '(s, a) := handler op s in
      let '(s, tr, r) := interp handler (k a) s in
      (s, mkCall op a :: tr, r)
  end.

(** The first [n] calls of an execution, and what is left of the program. *)
Fixpoint interp_steps {S A : Type} (handler : ∀ op : Op, S → S * Ans op) (n : nat) (p : prog A) (s : S) :
    S * list event * prog A :=
  match n, p with
  | Datatypes.S n, Do op k =>
      let '(s, a) := handler op s in
      let '(s, tr, q) := interp_steps handler n (k a) s in
      (s, mkCall op a :: tr, q)
  | _, p => (s, [], p)
  end.

(** The call a program is about to make. *)
Definition next_call {A : Type} (p : prog A) : option Op :=
  match p with Do op _ => Some op | _ => None end.

Lemma next_call_some {A : Type} (p : prog A) op : next_call p = Some op → ∃ k, p = Do op k.
Proof. destruct p as [|op' k|]; [done| |done]. intros [= <-]. by exists k. Qed.

(** ** The logic *)

Section Logic.
Context {M : Type} (mon : M → ∀ op : Op, Ans op → option M).

Fixpoint safe {A : Type} (p : prog A) (m : M) (Q : A → M → Prop) : Prop :=
  match p with
  | Ret a => Q a m
  | Unwind => True
  | Do op k => ∀ a, match mon m op a with Some m' => safe (k a) m' Q | None => False end
  end.

Fixpoint follow (m : M) (tr : list event) : option M :=
  match tr with
  | [] => Some m
  | mkCall op a :: tr => mon m op a ≫= λ m, follow m tr
  end.

Lemma safe_mono {A} (p : prog A) m (Q Q' : A → M → Prop) :
  safe p m Q → (∀ a m, Q a m → Q' a m) → safe p m Q'.
Proof.
  intros Hp HQ. revert m Hp. induction p as [a|op k IH|]; intros m; simpl; [apply HQ| |done].
  intros Hk a. specialize (Hk a). destruct (mon m op a); [|done]. by apply IH.
Qed.

Lemma safe_bind {A B} (p : prog A) (f : A → prog B) m Q :
  safe p m (λ a m, safe (f a) m Q) → safe (pbind p f) m Q.
Proof.
  revert m. induction p as [a|op k IH|]; intros m; simpl; [done| |done].
  intros Hk a. specialize (Hk a). destruct (mon m op a); [|done]. by apply IH.
Qed.

Lemma safe_try {A B E} (p : prog (result E A)) (f : A → prog (result E B)) m Q :
  safe p m (λ r m, match r with Ok a => safe (f a) m Q | Err e => Q (Err e) m | Panic => True end) →
  safe (try_bind p f) m Q.
Proof.
  intros Hp. apply (safe_bind p). eapply safe_mono; [exact Hp|]. by intros [a|e|] m'.
Qed.

(** Every history of a safe program is accepted, and what is left of the
    program is safe after it. *)
Lemma safe_runs {A} (p q : prog A) m Q tr :
  safe p m Q → runs p tr q → ∃ m', follow m tr = Some m' ∧ safe q m' Q.
Proof.
  intros Hp Hr. revert m Hp. induction Hr as [p|op k a tr q _ IH]; intros m Hp; simpl; [by exists m|].
  specialize (Hp a). destruct (mon m op a) as [m1|]; [|done]. by apply IH.
Qed.

End Logic.

Lemma interp_runs {S A} (handler : ∀ op : Op, S → S * Ans op) (p : prog A) s s' tr a :
  interp handler p s = (s', tr, Some a) → runs p tr (Ret a).
Proof.
  revert s tr. induction p as [b|op k IH|]; intros s tr; simpl; [|destruct (handler op s) as [s1 x]|done].
  - intros [= <- <- <-]. constructor.
  - destruct (interp handler (k x) s1) as [[s2 tr'] r] eqn:E. intros [= <- <- ->]. constructor. by eapply IH.
Qed.

Lemma interp_history {S A} (handler : ∀ op : Op, S → S * Ans op) (p : prog A) s a :
  (interp handler p s).2 = Some a → runs p (interp handler p s).1.2 (Ret a).
Proof. destruct (interp handler p s) as [[s' tr] r] eqn:E. cbn. intros ->. by eapply interp_runs. Qed.

End Program.

Arguments prog {Op} Ans A.
Arguments ask {Op Ans} op.
Arguments event {Op} Ans.

Notation "'let*' x ':=' p 'in' q" := (pbind p (λ x, q))
  (at level 10, x binder, p at level 100, q at level 200) : rust_scope.
Notation "'let!' x ':=' p 'in' q" := (try_bind p (λ x, q))
  (at level 10, x binder, p at level 100, q at level 200) : rust_scope.

(** ** Calls a monitor does not mind *)

Section Inert.
Context {Op : Type} {Ans : Op → Type} (quiet : Op → bool).

(** Every call of the program is a quiet one. *)
Fixpoint inert {A : Type} (p : prog Ans A) : Prop :=
  match p with
  | Ret _ | Unwind => True
  | Do op k => quiet op = true ∧ ∀ a, inert (k a)
  end.

Lemma inert_bind {A B} (p : prog Ans A) (f : A → prog Ans B) : inert p → (∀ a, inert (f a)) → inert (pbind p f).
Proof. intros Hp Hf. induction p as [a|op k IH|]; simpl in *; [apply Hf| |done]. destruct Hp as [Hq Hk]. split; [done|auto]. Qed.

Lemma inert_try {A B E} (p : prog Ans (result E A)) (f : A → prog Ans (result E B)) :
  inert p → (∀ a, inert (f a)) → inert (try_bind p f).
Proof. intros Hp Hf. apply inert_bind; [done|]. intros [a|e|]; [apply Hf|done|done]. Qed.

Lemma inert_ask op : quiet op = true → inert (ask op : prog Ans (Ans op)).
Proof. done. Qed.

Context {M : Type} (mon : M → ∀ op : Op, Ans op → option M).

Lemma safe_inert {A} (p : prog Ans A) m (Q : A → M → Prop) :
  (∀ op a, quiet op = true → mon m op a = Some m) → inert p → (∀ a, Q a m) → safe mon p m Q.
Proof.
  intros Hq Hp HQ. induction p as [a|op k IH|]; simpl in *; [apply HQ| |done].
  intros a. rewrite Hq by apply Hp. apply IH, Hp.
Qed.

(** A quiet program before another. *)
Lemma safe_inert_bind {A B} (p : prog Ans A) (f : A → prog Ans B) m Q :
  (∀ op a, quiet op = true → mon m op a = Some m) → inert p → (∀ a, safe mon (f a) m Q) → safe mon (pbind p f) m Q.
Proof. intros Hq Hp Hf. apply safe_bind. by eapply safe_inert. Qed.

Lemma safe_inert_try {A B E} (p : prog Ans (result E A)) (f : A → prog Ans (result E B)) m Q :
  (∀ op a, quiet op = true → mon m op a = Some m) → inert p →
  (∀ a, safe mon (f a) m Q) → (∀ e, Q (Err e) m) → safe mon (try_bind p f) m Q.
Proof. intros Hq Hp Hf He. apply safe_try. eapply safe_inert; [done|done|]. by intros [a|e|]. Qed.

End Inert.

(** A monitor that follows every step of another accepts what it accepts. *)
Lemma safe_simulated {Op} {Ans : Op → Type} {M M' A} (mon : M → ∀ op : Op, Ans op → option M)
    (mon' : M' → ∀ op : Op, Ans op → option M') (R : M → M' → Prop) (p : prog Ans A) m m' (Q : A → M → Prop) :
  (∀ m m' op a m1, R m m' → mon m op a = Some m1 → ∃ m1', mon' m' op a = Some m1' ∧ R m1 m1') →
  R m m' → safe mon p m Q → safe mon' p m' (λ a m', ∃ m, R m m' ∧ Q a m).
Proof.
  intros Hsim. revert m m'. induction p as [a|op k IH|]; intros m m' HR; simpl; [eauto| |done].
  intros Hk a. specialize (Hk a). destruct (mon m op a) as [m1|] eqn:E; [|done].
  destruct (Hsim _ _ _ _ _ HR E) as (m1' & -> & HR1). by eapply IH.
Qed.
