(* ===== verification/Json.v ===== *)
(** [serde_json::Value] and the operations the repository applies to it.

    A number is held as its decimal text, as serde_json holds it under the
    workspace's [arbitrary_precision] feature.  An object is the list of its
    fields in key order, without duplicates: serde_json's map is a [BTreeMap]
    of strings. *)

From Stdlib Require Import ZArith Lia Ascii.
From stdpp Require Import base gmap strings list pretty.
From S2P Require Import Prelude Text SpendTypes.

#[local] Open Scope Z_scope.

Inductive Value : Type :=
| VNull
| VBool (b : bool)
| VNumber (text : string)
| VString (s : string)
| VArray (values : list Value)
| VObject (fields : list (string * Value)).

(** Induction with hypotheses for the elements of arrays and objects. *)
Fixpoint Value_nested_ind (P : Value → Prop)
    (Hnull : P VNull) (Hbool : ∀ b, P (VBool b)) (Hnumber : ∀ t, P (VNumber t)) (Hstring : ∀ s, P (VString s))
    (Harray : ∀ l, Forall P l → P (VArray l))
    (Hobject : ∀ fs, Forall (λ f, P f.2) fs → P (VObject fs)) (v : Value) : P v :=
  let self := Value_nested_ind P Hnull Hbool Hnumber Hstring Harray Hobject in
  match v with
  | VNull => Hnull
  | VBool b => Hbool b
  | VNumber t => Hnumber t
  | VString s => Hstring s
  | VArray l =>
      Harray l ((fix go l := match l return Forall P l with
                             | [] => Forall_nil_2 _
                             | v :: l => Forall_cons_2 _ _ _ (self v) (go l)
                             end) l)
  | VObject fs =>
      Hobject fs ((fix go fs := match fs return Forall (λ f, P f.2) fs with
                                | [] => Forall_nil_2 _
                                | f :: fs => Forall_cons_2 _ _ _ (self f.2) (go fs)
                                end) fs)
  end.

(** Equality of values. *)
Fixpoint value_eqb (v w : Value) : bool :=
  match v, w with
  | VNull, VNull => true
  | VBool a, VBool b => Bool.eqb a b
  | VNumber a, VNumber b => String.eqb a b
  | VString a, VString b => String.eqb a b
  | VArray l, VArray m =>
      (fix go l m := match l, m with
                     | [], [] => true
                     | v :: l, w :: m => value_eqb v w && go l m
                     | _, _ => false
                     end) l m
  | VObject l, VObject m =>
      (fix go l m := match l, m with
                     | [], [] => true
                     | (k, v) :: l, (j, w) :: m => String.eqb k j && value_eqb v w && go l m
                     | _, _ => false
                     end) l m
  | _, _ => false
  end.

Lemma value_eqb_eq v w : value_eqb v w = true ↔ v = w.
Proof.
  revert w. induction v as [|b|t|s|l IH|fs IH] using Value_nested_ind; intros w; destruct w; simpl; try (split; [discriminate|discriminate]).
  - done.
  - rewrite Bool.eqb_true_iff. naive_solver.
  - rewrite String.eqb_eq. naive_solver.
  - rewrite String.eqb_eq. naive_solver.
  - transitivity (l = values); [|naive_solver].
    revert values. induction IH as [|v l Hv _ IH]; intros [|w m]; [naive_solver..|].
    rewrite andb_true_iff, Hv, IH. naive_solver.
  - transitivity (fs = fields); [|naive_solver].
    revert fields. induction IH as [|[k v] l Hv _ IH]; intros [|[j w] m]; [naive_solver..|].
    rewrite !andb_true_iff, String.eqb_eq. simpl in Hv. rewrite Hv, IH. naive_solver.
Qed.

#[export] Instance Value_eq_dec : EqDecision Value.
Proof.
  intros v w. destruct (value_eqb v w) eqn:E; [left; by apply value_eqb_eq|right].
  intros Hv%value_eqb_eq. congruence.
Defined.

(** ** Reading *)

Fixpoint field (key : string) (fields : list (string * Value)) : option Value :=
  match fields with
  | [] => None
  | (k, v) :: fields => if String.eqb k key then Some v else field key fields
  end.

Definition is_object (v : Value) : bool := match v with VObject _ => true | _ => false end.

Definition as_str (v : Value) : option string := match v with VString s => Some s | _ => None end.

(** [Value::get] with a text key. *)
Definition get (key : string) (v : Value) : option Value :=
  match v with VObject fields => field key fields | _ => None end.

Definition digit (a : Ascii.ascii) : bool := between 48 57 a.

(** The value of a text of decimal digits. *)
Fixpoint decimal (acc : Z) (s : string) : Z :=
  match s with
  | EmptyString => acc
  | String a s => decimal (acc * 10 + (code a - 48)) s
  end.

(** [str::parse] of an unsigned integer up to [max]; the texts here have no
    leading [+]. *)
Definition parse_unsigned (max : Z) (s : string) : option Z :=
  if negb (String.eqb s "") && all_bytes digit s && (decimal 0 s <=? max) then Some (decimal 0 s) else None.

Definition as_u64 (v : Value) : option Z :=
  match v with VNumber text => parse_unsigned u64_max text | _ => None end.

(** A reference token as an array index: no sign and no leading zero. *)
Definition parse_index (token : string) : option Z :=
  match token with
  | String "0"%char (String _ _) => None
  | _ => parse_unsigned usize_max token
  end.

(** [Value::pointer] along its tokens. *)
Fixpoint pointer (tokens : list string) (v : Value) : option Value :=
  match tokens with
  | [] => Some v
  | token :: tokens =>
      match v with
      | VObject fields => field token fields ≫= pointer tokens
      | VArray values => i ← parse_index token; values !! Z.to_nat i ≫= pointer tokens
      | _ => None
      end
  end.

(** ** Building *)

(** [Map::insert]: a field keeps its place in key order. *)
Fixpoint set_field (key : string) (v : Value) (fields : list (string * Value)) : list (string * Value) :=
  match fields with
  | [] => [(key, v)]
  | (k, w) :: rest =>
      match String.compare key k with
      | Lt => (key, v) :: fields
      | Eq => (key, v) :: rest
      | Gt => (k, w) :: set_field key v rest
      end
  end.

Definition remove_field (key : string) (fields : list (string * Value)) : list (string * Value) :=
  select_where (λ f, negb (String.eqb f.1 key)) fields.

Definition object (fields : list (string * Value)) : Value :=
  VObject (foldl (λ acc f, set_field f.1 f.2 acc) [] fields).

Definition opt_value {A : Type} (f : A → Value) (o : option A) : Value :=
  match o with Some a => f a | None => VNull end.

(** A number from an unsigned integer. *)
Definition number (n : Z) : Value := VNumber (pretty (Z.to_N n)).

(** The values of the ledger and of model jobs. *)
Definition json_values : JsonValues := {|
  Json := Value;
  output_received := VObject [("output_received"%string, VBool true)];
|}.

(** ** Lemmas *)

Lemma compare_refl s : String.compare s s = Eq.
Proof. induction s as [|a s IH]; simpl; [done|]. unfold Ascii.compare. by rewrite N.compare_refl. Qed.

Lemma field_set_same key v fields : field key (set_field key v fields) = Some v.
Proof.
  induction fields as [|[k w] fields IH]; simpl; [by rewrite String.eqb_refl|].
  destruct (String.compare key k) eqn:E; simpl.
  - by rewrite String.eqb_refl.
  - by rewrite String.eqb_refl.
  - destruct (String.eqb_spec k key) as [->|]; [by rewrite compare_refl in E|done].
Qed.

Lemma field_set_other key key' v fields : key ≠ key' → field key (set_field key' v fields) = field key fields.
Proof.
  intros Hne. assert (String.eqb key' key = false) as Hn by (by apply String.eqb_neq).
  induction fields as [|[k w] fields IH]; simpl; [by rewrite Hn|].
  destruct (String.compare key' k) eqn:E; simpl; rewrite ?Hn; [|done|by rewrite IH].
  apply String.compare_eq_iff in E as ->. by rewrite Hn.
Qed.

(** Reading an object that was built field by field. *)
Lemma field_object key fields acc :
  field key (foldl (λ acc f, set_field f.1 f.2 acc) acc fields)
  = match field key (rev fields) with Some v => Some v | None => field key acc end.
Proof.
  revert acc. induction fields as [|[k v] fields IH]; intros acc; simpl; [done|].
  rewrite IH. assert (∀ l m, field key (l ++ m) = match field key l with Some v => Some v | None => field key m end) as Happ.
  { intros l m. induction l as [|[j w] l IHl]; simpl; [done|]. by destruct (String.eqb j key). }
  rewrite Happ. destruct (field key (rev fields)); [done|]. simpl.
  destruct (String.eqb_spec k key) as [->|Hne]; [by rewrite field_set_same|by rewrite field_set_other].
Qed.

Lemma all_bytes_app p s t : all_bytes p (s +:+ t) = all_bytes p s && all_bytes p t.
Proof. induction s as [|a s IH]; [done|]. rewrite str_app_cons. simpl. by rewrite IH, andb_assoc. Qed.

(** Printing and parsing of counts. *)
Lemma pretty_char x : (x < 10)%N → digit (pretty_N_char x) = true ∧ code (pretty_N_char x) - 48 = Z.of_N x.
Proof.
  intros Hx. assert (x ∈ [0; 1; 2; 3; 4; 5; 6; 7; 8; 9])%N as Hin.
  { rewrite !elem_of_cons. lia. }
  repeat (apply elem_of_cons in Hin as [->|Hin]; [by vm_compute|]). by apply elem_of_nil in Hin.
Qed.

Lemma pretty_go_decimal x s : decimal 0 (pretty_N_go x s) = decimal (Z.of_N x) s
  ∧ all_bytes digit (pretty_N_go x s) = all_bytes digit s.
Proof.
  revert s. induction (N.lt_wf_0 x) as [x _ IH]. intros s.
  destruct (decide (x = 0)%N) as [->|Hx]; [by rewrite pretty_N_go_0|].
  rewrite pretty_N_go_step by lia.
  destruct (IH (x `div` 10)%N) with (s := String (pretty_N_char (x `mod` 10)) s) as [-> ->];
    [apply N.div_lt; lia|].
  destruct (pretty_char (x `mod` 10)%N) as [Hd Hc]; [by apply N.mod_lt|]. cbn [decimal all_bytes]. rewrite Hd, Hc.
  split; [|done]. f_equal. rewrite N2Z.inj_div, N2Z.inj_mod. pose proof (Z.div_mod (Z.of_N x) 10). lia.
Qed.

Lemma as_u64_number n : 0 ≤ n ≤ u64_max → as_u64 (number n) = Some n.
Proof.
  intros Hn. unfold as_u64, number, parse_unsigned, pretty, pretty_N.
  destruct (decide (Z.to_N n = 0)%N) as [E|E].
  { assert (n = 0) as -> by lia. done. }
  destruct (pretty_go_decimal (Z.to_N n) "") as [Hd Ha]. rewrite Hd, Ha. simpl. rewrite Z2N.id by lia.
  rewrite (proj2 (Z.leb_le _ _)) by lia.
  destruct (String.eqb_spec (pretty_N_go (Z.to_N n) "") "") as [Hz|]; [|done].
  rewrite Hz in Hd. simpl in Hd. lia.
Qed.
