(* ===== verification/Trace.v ===== *)
(** [symbiotic-trace]: invocation traces and their sinks.

    Sinks are functions on the world they write to.  A JSON Lines file is its
    text; serde's encoding of a record is a parameter ([LineCodec]). *)

From Stdlib Require Import ZArith Lia Ascii.
From stdpp Require Import base gmap strings list.
From S2P Require Import Prelude Text Core QueueTypes SpendTypes Json.

#[local] Open Scope Z_scope.

(** ** Records *)

Inductive InvocationOutcome : Type :=
| OutcomeSucceeded | OutcomeFailed | OutcomeRateLimited | OutcomeBudgetExhausted | OutcomeTimedOut
| OutcomeCancelled.

Inductive CacheStatus : Type := NotApplicable | Miss | Hit | PartialHit.

#[export] Instance CacheStatus_eq_dec : EqDecision CacheStatus.
Proof. solve_decision. Defined.

Record CacheTrace : Type := mkCacheTrace {
  ct_response_cache : CacheStatus;
  ct_prompt_cache : CacheStatus;
  ct_cached_input_tokens : option Z;
}.

Definition default_CacheTrace : CacheTrace := mkCacheTrace NotApplicable NotApplicable None.

Definition default_UsageTrace : UsageTrace :=
  mkUsageTrace None None None None None None None None None None None.

Record TimingTrace : Type := mkTimingTrace {
  tt_queued_ms : option Z;
  tt_provider_ms : option Z;
  tt_total_ms : option Z;
  tt_queue_wait_ms : option Z;
  tt_throttle_wait_ms : option Z;
}.

Definition default_TimingTrace : TimingTrace := mkTimingTrace None None None None None.

Record ModelInvocationTrace : Type := mkTrace {
  it_trace_id : string;
  it_queue_item_id : option string;
  it_model : ModelIdentity;
  it_role_binding : option string;
  it_source : option string;
  it_request_hash : string;
  it_response_hash : option string;
  it_cache : CacheTrace;
  it_usage : UsageTrace;
  it_timing : TimingTrace;
  it_outcome : InvocationOutcome;
  it_error_class : option FailureClass;
  it_audit_refs : list string;
  it_metadata : Value;
  it_timestamp : DateTime;
}.

Record QueueEventTrace : Type := mkQueueEventTrace {
  et_trace_id : string;
  et_item_id : string;
  et_queue_id : string;
  et_kind : string;
  et_status : QueueStatus;
  et_attempt : Z;
  et_error : option DiagnosticCode;
  et_timestamp : DateTime;
  et_metadata : Value;
}.

(** [From<QueueEvent>] with the fresh trace id. *)
Definition QueueEventTrace_from (trace_id : string) (event : QueueEvent) : QueueEventTrace :=
  mkQueueEventTrace trace_id (qe_item_id event) (qe_queue_id event) (qe_kind event) (qe_status event)
    (qe_attempt event) (qe_error event) (qe_timestamp event) (VObject []).

(** ** Sinks *)

(** [TraceError::Sink] is its diagnostic code. *)
Definition TraceSink (T W : Type) : Type := T → W → W * result DiagnosticCode unit.

(** [FanoutTraceSink] and [FanoutQueueTraceSink]: each sink in turn, up to the
    first failure. *)
Fixpoint fanout {T W : Type} (sinks : list (TraceSink T W)) (trace : T) (w : W) :
    W * result DiagnosticCode unit :=
  match sinks with
  | [] => (w, Ok tt)
  | sink :: sinks =>
      let '(w, r) := sink trace w in
      match r with
      | Ok _ => fanout sinks trace w
      | Err e => (w, Err e)
      | Panic => (w, Panic)
      end
  end.

(** [InMemoryTraceSink] and [InMemoryQueueTraceSink]. *)
Definition record_in_memory {T : Type} : TraceSink T (list T) := λ trace records, (records ++ [trace], Ok tt).

(** ** JSON Lines *)

Definition newline : ascii := "010"%char.
Definition carriage_return : ascii := "013"%char.

(** Rust's [str::lines]: a final line break ends the last line, and a line
    break may be preceded by a carriage return. *)
Fixpoint strip_cr (s : string) : string :=
  match s with
  | EmptyString => EmptyString
  | String a EmptyString => if Ascii.eqb a carriage_return then EmptyString else s
  | String a s => String a (strip_cr s)
  end.

Fixpoint lines_of (pieces : list string) : list string :=
  match pieces with
  | [] => []
  | [piece] => if String.eqb piece "" then [] else [piece]
  | piece :: pieces => strip_cr piece :: lines_of pieces
  end.

Definition lines (s : string) : list string := lines_of (split_on newline s).

(** serde_json of one record: compact text has no line breaks, is not blank,
    and reads back. *)
Class LineCodec (T : Type) : Type := {
  to_line : T → option string;
  from_line : string → option T;
  line_law t s : to_line t = Some s →
    from_line s = Some t ∧ contains_char newline s = false ∧ blank s = false ∧ strip_cr s = s;
}.

Section Jsonl.
Context {T : Type} `{!LineCodec T}.

(** [append_jsonl] on the text of the file. *)
Definition append_jsonl : TraceSink T string := λ trace file,
  match to_line trace with
  | Some line => (file +:+ line +:+ String newline "", Ok tt)
  | None => (file, Err StorageFailure)
  end.

Fixpoint read_lines (l : list string) : result DiagnosticCode (list T) :=
  match l with
  | [] => Ok []
  | line :: l =>
      let? trace := ok_or (from_line line) StorageFailure in
      let? traces := read_lines l in
      Ok (trace :: traces)
  end.

(** [JsonlTraceSink::read] and [JsonlQueueTraceSink::read]; [None] is a path
    that is no file. *)
Definition read_jsonl (file : option string) : result DiagnosticCode (list T) :=
  match file with
  | None => Ok []
  | Some raw => read_lines (select_where (λ line, negb (blank line)) (lines raw))
  end.

(** Appending records one after another; the first failure is returned. *)
Fixpoint append_all (traces : list T) (file : string) : string * result DiagnosticCode unit :=
  match traces with
  | [] => (file, Ok tt)
  | trace :: traces =>
      let '(file, r) := append_jsonl trace file in
      match r with Ok _ => append_all traces file | r => (file, r) end
  end.

(** ** Properties *)

Lemma lines_of_snoc pieces rest : rest ≠ [] →
  lines_of (pieces ++ rest) = map strip_cr pieces ++ lines_of rest.
Proof.
  intros Hr. induction pieces as [|p pieces IH]; [done|]. rewrite <-app_comm_cons. simpl. rewrite IH.
  by destruct (pieces ++ rest) eqn:E; [apply app_eq_nil in E as [_ ->]|].
Qed.

(** A text that ends its last line splits into its lines and an empty piece. *)
Definition complete_text (file : string) (pieces : list string) : Prop := split_on newline file = pieces ++ [EmptyString].

Lemma split_on_app c s t piece pieces : split_on c s = pieces ++ [piece] →
  split_on c (s +:+ t) = pieces ++ match split_on c t with p :: ps => (piece +:+ p) :: ps | [] => [piece] end.
Proof.
  revert piece pieces. induction s as [|a s IH]; intros piece pieces.
  - destruct pieces as [|p pieces]; [|by destruct pieces]. intros [= <-]. rewrite str_app_nil.
    destruct (split_on c t) eqn:E; [by apply split_on_nonempty in E|]. by rewrite str_app_nil.
  - rewrite str_app_cons. cbn [split_on]. destruct (Ascii.eqb a c).
    + destruct pieces as [|p pieces]; [by intros [= <- ?%split_on_nonempty]|]. intros [= <- E].
      by rewrite (IH _ _ E).
    + destruct (split_on c s) as [|q qs] eqn:Es; [by apply split_on_nonempty in Es|].
      destruct pieces as [|p pieces]; intros [= <- E].
      * rewrite (IH q []) by (by rewrite E). simpl. destruct (split_on c t); [done|]. by rewrite str_app_cons.
      * rewrite (IH piece (q :: pieces)) by (by rewrite E). done.
Qed.

Lemma append_complete trace file file' pieces :
  complete_text file pieces → append_jsonl trace file = (file', Ok tt) →
  ∃ line, to_line trace = Some line ∧ complete_text file' (pieces ++ [line]).
Proof.
  intros Hf. unfold append_jsonl. destruct (to_line trace) as [line|] eqn:E; [|done]. intros [= <-].
  exists line. split; [done|]. destruct (line_law _ _ E) as (_ & Hn & _).
  unfold complete_text. rewrite (split_on_app _ _ _ _ _ Hf), (split_on_cut newline line "" Hn). simpl.
  by rewrite str_app_nil, <-app_assoc.
Qed.

Lemma append_all_complete traces file file' pieces :
  complete_text file pieces → append_all traces file = (file', Ok tt) →
  ∃ ls, mapM to_line traces = Some ls ∧ complete_text file' (pieces ++ ls).
Proof.
  revert file pieces. induction traces as [|trace traces IH]; intros file pieces Hf; simpl.
  - intros [= <-]. exists []. by rewrite app_nil_r.
  - destruct (append_jsonl trace file) as [file1 [[]| |]] eqn:E; [|done..]. intros Ha.
    destruct (append_complete _ _ _ _ Hf E) as (line & Hl & Hc). destruct (IH _ _ Hc Ha) as (ls & Hm & Hc').
    exists (line :: ls). rewrite Hl. simpl. rewrite Hm. split; [done|]. by rewrite <-app_assoc in Hc'.
Qed.

Lemma read_mapped traces ls : mapM to_line traces = Some ls →
  read_lines (select_where (λ line, negb (blank line)) (map strip_cr ls)) = Ok traces.
Proof.
  revert ls. induction traces as [|trace traces IH]; intros ls; simpl; [by intros [= <-]|].
  destruct (to_line trace) as [line|] eqn:El; [|done]. simpl.
  destruct (mapM to_line traces) as [rest|] eqn:Er; [|done]. intros [= <-]. simpl.
  destruct (line_law _ _ El) as (Hf & _ & Hb & Hs). rewrite Hs.
  rewrite select_where_cons, Hb. simpl. rewrite Hf. rsimpl. by rewrite (IH rest eq_refl).
Qed.

(** Records appended to a new JSON Lines file read back, in order. *)
Theorem jsonl_roundtrip traces file :
  append_all traces "" = (file, Ok tt) → read_jsonl (Some file) = Ok traces.
Proof.
  intros Ha. destruct (append_all_complete traces "" file [] eq_refl Ha) as (ls & Hm & Hc).
  unfold read_jsonl, lines. rewrite Hc. rewrite lines_of_snoc by done. simpl. rewrite app_nil_r.
  by apply read_mapped.
Qed.

End Jsonl.
