(* ===== verification/ExecutionPolicy.v ===== *)
(** [symbiotic-model], [lib.rs]: the policy of a model queue and the pure rules
    of its retry logic: error classes, backoff and jitter, attempt budgets and
    the payload that carries them, and how an exhausted request reports. *)

From Stdlib Require Import ZArith Lia Ascii.
From stdpp Require Import base gmap strings list pretty.
From S2P Require Import Prelude Text Core QueueTypes SpendTypes Json.

#[local] Open Scope Z_scope.

(** ** Configuration *)

Record ModelQueueConfig : Type := mkModelQueueConfig {
  mq_provider_request_limit : option Z;
  mq_max_in_flight : Z;
  mq_lease_seconds : Z;
  mq_logical_retry_attempts : Z;
  mq_retry_attempts : Z;
  mq_retry_jitter_seconds : Z;
  mq_request_timeout_seconds : option Z;
  mq_requests_per_minute : option Z;
  mq_input_units_per_minute : option Z;
  mq_response_cache_dir : option string;
  mq_rate_burst_seconds : Z;
  mq_retry_base_delay_ms : Z;
  mq_retry_provider_errors : bool;
  mq_request_debug_dir : option string;
  mq_budget_renewal_seconds : option Z;
}.

Definition default_retry_base_delay_ms : Z := 1000.

Definition default_ModelQueueConfig : ModelQueueConfig :=
  mkModelQueueConfig None 1 600 3 3 20 (Some 600) None None None 0 default_retry_base_delay_ms false None None.

(** [tokio::sync::Semaphore::MAX_PERMITS]: [usize::MAX >> 3]. *)
Definition MAX_PERMITS : Z := Z.shiftr usize_max 3.

(** [i64::try_from], [Duration::try_seconds] and [checked_add_signed] of a
    number of seconds. *)
Definition deadline_after `{!Chrono} (seconds : Z) (from : DateTime) : option DateTime :=
  s ← i64_try_from seconds; checked_add_seconds from s.

(** [ModelQueueConfig::validate]; [debug_assertions] is the build flag. *)
Definition ModelQueueConfig_validate `{!Chrono} (debug_assertions : bool) (now : DateTime) (c : ModelQueueConfig) :
    result ModelError unit :=
  if match mq_provider_request_limit c with Some n => i64_max <? n | None => false end
     || (mq_max_in_flight c =? 0) || (MAX_PERMITS <? mq_max_in_flight c) || (mq_lease_seconds c =? 0)
     || negb (is_some (deadline_after (mq_lease_seconds c) now))
     || negb (is_some (checked_add u64_max (mq_retry_jitter_seconds c) 1))
     || match mq_budget_renewal_seconds c with
        | Some s => negb (is_some (deadline_after s now))
        | None => false
        end
     || (mq_logical_retry_attempts c =? 0) || (mq_retry_attempts c =? 0)
     || match mq_request_timeout_seconds c with
        | Some n => (n =? 0) || (i64_max / 1000 <? n)
        | None => true
        end
     || bool_decide (mq_requests_per_minute c = Some 0) || bool_decide (mq_input_units_per_minute c = Some 0)
  then Err (InvalidRequest InvalidConfiguration)
  else if negb debug_assertions && is_some (mq_request_debug_dir c)
  then Err (InvalidRequest InvalidConfiguration)
  else Ok tt.

(** ** Classes of errors *)

Definition is_transient (e : ModelError) : bool :=
  match ModelError_primary e with Unavailable _ | RateLimited _ | Timeout _ => true | _ => false end.

Definition is_retryable (e : ModelError) (config : ModelQueueConfig) : bool :=
  is_transient e
  || mq_retry_provider_errors config && match ModelError_primary e with Provider _ => true | _ => false end.

Fixpoint error_class (e : ModelError) : FailureClass :=
  match e with
  | HttpNotSent primary | Diagnostics primary _ | Http primary _ _ => error_class primary
  | Unavailable _ => ClassUnavailable
  | Auth _ => ClassAuth
  | RateLimited _ => ClassRateLimited
  | BudgetExhausted _ => ClassBudgetExhausted
  | Timeout _ => ClassTimeout
  | InvalidRequest _ => ClassInvalidRequest
  | Provider _ => ClassProvider
  | Queue _ => ClassQueue
  | Cache _ => ClassCache
  | Unsupported Chat => ClassUnsupportedChat
  | Unsupported Embedding => ClassUnsupportedEmbedding
  | Unsupported Rerank => ClassUnsupportedRerank
  | Unsupported Classify => ClassUnsupportedClassify
  | Unsupported Vision => ClassUnsupportedVision
  | Unsupported ImageGeneration => ClassUnsupportedImageGeneration
  | Unsupported VideoGeneration => ClassUnsupportedVideoGeneration
  | Unsupported AgentTask => ClassUnsupportedAgentTask
  end.

(** The error a stopped or dead item reports again, from its stored class and
    code alone. *)
Definition dead_item_retry_error (item : QueueItem) : ModelError :=
  let code := default QueueFailure (qi_last_error item) in
  match qi_last_error_class item with
  | Some ClassUnavailable => Unavailable code
  | Some ClassAuth => Auth code
  | Some ClassRateLimited => RateLimited code
  | Some ClassBudgetExhausted => BudgetExhausted code
  | Some ClassTimeout => Timeout code
  | Some ClassInvalidRequest => InvalidRequest code
  | Some ClassProvider => Provider code
  | Some ClassQueue => Queue code
  | Some ClassCache => Cache code
  | Some ClassUnsupportedChat => Unsupported Chat
  | Some ClassUnsupportedEmbedding => Unsupported Embedding
  | Some ClassUnsupportedRerank => Unsupported Rerank
  | Some ClassUnsupportedClassify => Unsupported Classify
  | Some ClassUnsupportedVision => Unsupported Vision
  | Some ClassUnsupportedImageGeneration => Unsupported ImageGeneration
  | Some ClassUnsupportedVideoGeneration => Unsupported VideoGeneration
  | Some ClassUnsupportedAgentTask => Unsupported AgentTask
  | None => Queue TerminalQueueItemIsMissingItsErrorClass
  end.

Fixpoint exhausted_request_error (last_error : ModelError) : ModelError :=
  match last_error with
  | Http _ _ _ | HttpNotSent _ => last_error
  | Diagnostics primary secondary => with_diagnostics (exhausted_request_error primary) secondary
  | RateLimited _ => RateLimited AttemptBudgetExhausted
  | Timeout _ => Timeout AttemptBudgetExhausted
  | Unavailable _ => Unavailable AttemptBudgetExhausted
  | Auth _ => Auth AttemptBudgetExhausted
  | BudgetExhausted _ => BudgetExhausted AttemptBudgetExhausted
  | InvalidRequest _ => InvalidRequest AttemptBudgetExhausted
  | Queue _ => Queue AttemptBudgetExhausted
  | Cache _ => Cache AttemptBudgetExhausted
  | Provider _ => Provider AttemptBudgetExhausted
  | Unsupported capability => Unsupported capability
  end.

(** ** Delays *)

(** [u64::saturating_mul] and [saturating_pow]. *)
Definition saturating_mul (a b : Z) : Z := Z.min u64_max (a * b).
Definition saturating_pow (a n : Z) : Z := Z.min u64_max (a ^ n).

Definition clamp (lo hi n : Z) : Z := Z.max lo (Z.min hi n).

Definition retry_backoff_ms (attempt base_ms : Z) : Z :=
  let base_ms := Z.max base_ms 1 in
  Z.min (saturating_mul base_ms (saturating_pow 2 (Z.min (saturating_sub attempt 1) 5))) (Z.max 30000 base_ms).

(** SHA-256, its digest as bytes; [digest_u64] reads the first eight. *)
Class Sha256 : Type := { sha256 : string → string }.

Fixpoint u64_le (n : nat) (s : string) : Z :=
  match n, s with
  | S n, String a s => code a + 256 * u64_le n s
  | _, _ => 0
  end.

(** [u32::to_le_bytes]. *)
Definition u32_le_bytes (n : Z) : string :=
  let byte i := ascii_of_nat (Z.to_nat (Z.land (Z.shiftr n (8 * i)) 255)) in
  String (byte 0) (String (byte 1) (String (byte 2) (String (byte 3) ""))).

Section Policy.
Context `{!Chrono} `{!Sha256}.

Definition retry_jitter_seconds (max_jitter_seconds : Z) (item_id request_hash : string) (attempt : Z)
    (e : ModelError) : result ModelError Z :=
  if max_jitter_seconds =? 0 then Ok 0
  else
    let err_kind := match ModelError_primary e with
                    | RateLimited _ => "rate_limited"
                    | Unavailable _ => "unavailable"
                    | Timeout _ => "timeout"
                    | _ => "other"
                    end%string in
    let digest := sha256 (item_id +:+ request_hash +:+ u32_le_bytes attempt +:+ err_kind) in
    let? range := ok_or (checked_add u64_max max_jitter_seconds 1) (InvalidRequest InvalidConfiguration) in
    Ok (u64_le 8 digest mod range).

Definition retry_delay_ms (attempt : Z) (config : ModelQueueConfig) (item_id request_hash : string)
    (e : ModelError) : result ModelError Z :=
  let? jitter := retry_jitter_seconds (mq_retry_jitter_seconds config) item_id request_hash attempt e in
  Ok (clamp 1 120000
        (saturating_add u64_max (retry_backoff_ms attempt (mq_retry_base_delay_ms config))
           (saturating_mul jitter 1000))).

(** How long [note_model_cooldown] closes the queue for. *)
Definition cooldown_ms (e : ModelError) (retry_delay_ms : Z) : Z :=
  let multiplier := match ModelError_primary e with
                    | RateLimited _ => 4
                    | Unavailable _ => 2
                    | Timeout _ => 1
                    | _ => 1
                    end in
  clamp 1 60000 (saturating_mul retry_delay_ms multiplier).

(** ** Attempt budgets *)

Definition budget_renewed (now : DateTime) (item : QueueItem) (config : ModelQueueConfig) : result ModelError bool :=
  match mq_budget_renewal_seconds config with
  | None => Ok false
  | Some seconds =>
      let? deadline := ok_or (deadline_after seconds (qi_updated_at item)) (InvalidRequest InvalidConfiguration) in
      Ok (deadline <=? now)
  end.

Definition logical_max_attempts (config : ModelQueueConfig) : Z := Z.max (mq_logical_retry_attempts config) 1.

Definition item_max_attempts (config : ModelQueueConfig) : Z :=
  Z.max (Z.min (mq_retry_attempts config) (logical_max_attempts config)) 1.

Record LogicalRetryState : Type := mkRetryState {
  lr_attempts_used : Z;
  lr_max_attempts : Z;
}.

(** serde's encodings. *)
Definition capability_value (c : ModelCapability) : Value :=
  VString (match c with
           | Chat => "chat"
           | Embedding => "embedding"
           | Rerank => "rerank"
           | Classify => "classify"
           | Vision => "vision"
           | ImageGeneration => "image_generation"
           | VideoGeneration => "video_generation"
           | AgentTask => "agent_task"
           end).

Definition identity_value (m : ModelIdentity) : Value :=
  object [("operation", VString (mi_operation m)); ("operator", VString (mi_operator m));
          ("model", VString (mi_model m))]%string.

Definition binding_value (b : BindingIdentity) : Value :=
  object [("tenant", VString (bi_tenant b)); ("provider", VString (bi_provider b));
          ("revision", VString (bi_revision b)); ("account", VString (bi_account b))]%string.

Inductive ProviderClass : Type := LocalProvider | CloudProvider | Aggregator | CliSessionProvider.

Inductive ProviderAuthMode : Type :=
| AuthNone
| ApiKey (secret_ref : string)
| OAuthAccessToken (token_ref : string)
| GoogleAdc (account_ref : option string)
| OAuthMintsApiKey (provider account_ref : string)
| CliSession (tool account_ref : string).

Record ProviderDescriptor : Type := mkDescriptor {
  pd_identity : ModelIdentity;
  pd_provider_class : ProviderClass;
  pd_capabilities : list ModelCapability;
  pd_auth_mode : ProviderAuthMode;
  pd_metadata : Value;
}.

Definition ProviderDescriptor_queue_id (d : ProviderDescriptor) : string := ModelIdentity_queue_id (pd_identity d).

Definition retry_value (state : LogicalRetryState) : Value :=
  object [("attempts_used", number (lr_attempts_used state)); ("max_attempts", number (lr_max_attempts state))]%string.

Definition model_queue_payload (capability : ModelCapability) (request_hash : string)
    (descriptor : ProviderDescriptor) (retry_state : option LogicalRetryState) : Value :=
  let payload := [("capability", capability_value capability); ("request_hash", VString request_hash);
                  ("model", identity_value (pd_identity descriptor));
                  ("binding", opt_value id (get "binding" (pd_metadata descriptor)))]%string in
  match retry_state with
  | Some state => object (payload ++ [("logical_retry"%string, retry_value state)])
  | None => object payload
  end.

Definition logical_retry_state (payload : Value) : result ModelError LogicalRetryState :=
  let decode key :=
    ok_or (v ← pointer ["logical_retry"%string; key] payload;
           n ← as_u64 v;
           if n <=? u32_max then Some n else None) (Queue QueueFailure) in
  let? attempts_used := decode "attempts_used"%string in
  let? max_attempts := decode "max_attempts"%string in
  if (max_attempts =? 0) || (max_attempts <? attempts_used) then Err (Queue QueueFailure)
  else Ok (mkRetryState attempts_used max_attempts).

(** ** Input units *)

(** [str::chars().count()]: the bytes that are not continuations. *)
Fixpoint char_count (s : string) : Z :=
  match s with
  | EmptyString => 0
  | String a s => (if continuation a then 0 else 1) + char_count s
  end.

Definition estimate_token_budget_units (parts : list string) : Z :=
  Z.max (foldr (λ part n, (char_count part + 3) / 4 + n) 0 parts) 1.

End Policy.

(** The error of every enqueue whose item id no runtime reference can hold. *)
Definition validate_runtime_enqueue (outcome : EnqueueOutcome) : result ModelError EnqueueOutcome :=
  let? _ := runtime_reference (qi_item_id (eo_item outcome)) (Z.to_N u32_max) in Ok outcome.

(** ** What the rules guarantee *)

Lemma error_class_primary e : error_class (ModelError_primary e) = error_class e.
Proof. by induction e. Qed.

Lemma primary_idemp e : ModelError_primary (ModelError_primary e) = ModelError_primary e.
Proof. by induction e. Qed.

Lemma is_transient_class e :
  is_transient e = bool_decide (error_class e ∈ [ClassUnavailable; ClassRateLimited; ClassTimeout]).
Proof.
  unfold is_transient. by induction e as [| | | | | | |[]| | | | |].
Qed.

(** A failed item restores the class and the code of the error that failed it,
    and with them whether it is transient. *)
Lemma dead_item_restores e item :
  qi_last_error item = Some (ModelError_code e) → qi_last_error_class item = Some (error_class e) →
  error_class (dead_item_retry_error item) = error_class e
  ∧ ModelError_code (dead_item_retry_error item) = ModelError_code e
  ∧ is_transient (dead_item_retry_error item) = is_transient e.
Proof.
  intros Hc Hk. assert (error_class (dead_item_retry_error item) = error_class e) as Hcls.
  { unfold dead_item_retry_error. rewrite Hk. by destruct (error_class e). }
  split_and!; [done| |by rewrite !is_transient_class, Hcls].
  unfold dead_item_retry_error. rewrite Hc, Hk. simpl. clear Hc Hk Hcls.
  by induction e as [| | | | | | |[]| | | | |]; simpl; try done; destruct (error_class e).
Qed.

(** Exhausting the attempts changes the code, never the class, the transport
    evidence or the diagnostics. *)
Lemma exhausted_keeps e :
  error_class (exhausted_request_error e) = error_class e
  ∧ http_details (exhausted_request_error e) = http_details e
  ∧ failure_charge (exhausted_request_error e) = failure_charge e.
Proof.
  assert (∀ e l, error_class (with_diagnostics e l) = error_class e) as Hd.
  { intros e' l. unfold with_diagnostics. destruct l; [done|]. by destruct e'. }
  induction e as [| | | | | | | | | | | |e (H1 & H2 & H3) l]; try done. simpl.
  destruct (with_diagnostics_class (exhausted_request_error e) l) as (_ & _ & -> & -> & _).
  rewrite Hd. done.
Qed.

Section PolicyLemmas.
Context `{!Chrono} `{!Sha256}.

Lemma retry_jitter_total max item_id request_hash attempt e :
  0 ≤ max < u64_max → ∃ j, retry_jitter_seconds max item_id request_hash attempt e = Ok j ∧ 0 ≤ j ≤ max.
Proof.
  intros Hm. unfold retry_jitter_seconds. destruct (Z.eqb_spec max 0) as [->|Hne]; [exists 0; split; [done|lia]|].
  unfold checked_add. rewrite (proj2 (Z.leb_le _ _)) by lia. rsimpl. eexists. split; [done|].
  pose proof (Z.mod_pos_bound (u64_le 8 (sha256 (item_id +:+ request_hash +:+ u32_le_bytes attempt +:+
    match ModelError_primary e with RateLimited _ => "rate_limited" | Unavailable _ => "unavailable"
    | Timeout _ => "timeout" | _ => "other" end%string))) (max + 1)). lia.
Qed.

Lemma backoff_pow attempt base : 1 ≤ attempt ≤ 6 → 1 ≤ base → base * 2 ^ (attempt - 1) ≤ 30000 →
  retry_backoff_ms attempt base = base * 2 ^ (attempt - 1).
Proof.
  intros Ha Hb Hc. unfold retry_backoff_ms, saturating_mul, saturating_pow, saturating_sub, u64_max.
  rewrite (Z.max_l base 1), (Z.max_r 0 (attempt - 1)), (Z.min_l (attempt - 1) 5) by lia.
  pose proof (Z.pow_pos_nonneg 2 (attempt - 1)).
  assert (2 ^ (attempt - 1) ≤ 30000) by nia. lia.
Qed.

Lemma backoff_bounds attempt base : 1 ≤ retry_backoff_ms attempt base ≤ Z.max 30000 base.
Proof.
  unfold retry_backoff_ms, saturating_mul, saturating_pow, saturating_sub, u64_max.
  pose proof (Z.pow_pos_nonneg 2 (Z.min (Z.max 0 (attempt - 1)) 5)). nia.
Qed.

(** The delay before a retry: defined for every validated policy, between a
    millisecond and two minutes, and at least the backoff unless that is
    longer. *)
Theorem retry_delay_bounded attempt config item_id request_hash e :
  0 ≤ mq_retry_jitter_seconds config < u64_max →
  ∃ d, retry_delay_ms attempt config item_id request_hash e = Ok d
    ∧ 1 ≤ d ≤ 120000
    ∧ Z.min 120000 (retry_backoff_ms attempt (mq_retry_base_delay_ms config)) ≤ d
    ∧ d ≤ retry_backoff_ms attempt (mq_retry_base_delay_ms config) + mq_retry_jitter_seconds config * 1000.
Proof.
  intros Hj. unfold retry_delay_ms.
  destruct (retry_jitter_total (mq_retry_jitter_seconds config) item_id request_hash attempt e Hj) as (j & -> & Hb).
  rsimpl. eexists. split; [done|]. pose proof (backoff_bounds attempt (mq_retry_base_delay_ms config)).
  unfold clamp, saturating_add, saturating_mul, u64_max in *. lia.
Qed.

Lemma pointer_retry key fields state :
  field "logical_retry" (rev (fields ++ [("logical_retry"%string, retry_value state)])) = Some (retry_value state)
  ∧ pointer ["logical_retry"%string; key] (object (fields ++ [("logical_retry"%string, retry_value state)]))
    = pointer [key] (retry_value state).
Proof.
  assert (field "logical_retry" (rev (fields ++ [("logical_retry"%string, retry_value state)])) = Some (retry_value state))
    as Hf by (rewrite rev_unit; done).
  split; [done|]. unfold object. cbn [pointer]. rewrite field_object, Hf. done.
Qed.

(** The attempt budget written into a queue payload is the one read back. *)
Theorem retry_state_roundtrip capability request_hash descriptor state :
  0 ≤ lr_attempts_used state ≤ lr_max_attempts state → 0 < lr_max_attempts state ≤ u32_max →
  logical_retry_state (model_queue_payload capability request_hash descriptor (Some state)) = Ok state
  ∧ logical_retry_state (model_queue_payload capability request_hash descriptor None) = Err (Queue QueueFailure).
Proof.
  intros Hu Hm. split.
  - unfold logical_retry_state, model_queue_payload. rewrite !(proj2 (pointer_retry _ _ state)).
    change (pointer ["attempts_used"%string] (retry_value state)) with (Some (number (lr_attempts_used state))).
    change (pointer ["max_attempts"%string] (retry_value state)) with (Some (number (lr_max_attempts state))).
    cbn [mbind option_bind]. rewrite !as_u64_number by (unfold u64_max, u32_max in *; lia). cbn [mbind option_bind].
    rewrite !(proj2 (Z.leb_le _ _)) by lia. rsimpl.
    destruct (Z.eqb_spec (lr_max_attempts state) 0); [lia|]. rewrite (proj2 (Z.ltb_ge _ _)) by lia. by destruct state.
  - done.
Qed.

End PolicyLemmas.
