(* ===== verification/Responses.v ===== *)
(** [symbiotic-model], [lib.rs] and [secrets.rs]: provider responses, what the
    runtime writes on their traces, the provider identities it keeps, and the
    credential boundary every result passes.

    [TraceCarrier] and [CredentialResponse] are the classes of response types;
    serde's conversions are the class [Serde]; a 32-bit float is an element of
    a parameter type. *)

From Stdlib Require Import ZArith Lia Ascii.
From stdpp Require Import base gmap strings list pretty.
From S2P Require Import Prelude Text Core SpendTypes Json Trace ExecutionPolicy.

#[local] Open Scope Z_scope.

(** ** Setters of a trace *)

Definition set_metadata (m : Value) (t : ModelInvocationTrace) : ModelInvocationTrace :=
  mkTrace (it_trace_id t) (it_queue_item_id t) (it_model t) (it_role_binding t) (it_source t) (it_request_hash t)
    (it_response_hash t) (it_cache t) (it_usage t) (it_timing t) (it_outcome t) (it_error_class t)
    (it_audit_refs t) m (it_timestamp t).

Definition set_usage (u : UsageTrace) (t : ModelInvocationTrace) : ModelInvocationTrace :=
  mkTrace (it_trace_id t) (it_queue_item_id t) (it_model t) (it_role_binding t) (it_source t) (it_request_hash t)
    (it_response_hash t) (it_cache t) u (it_timing t) (it_outcome t) (it_error_class t)
    (it_audit_refs t) (it_metadata t) (it_timestamp t).

Definition RUNTIME_DIAGNOSTICS : string := "runtime_diagnostics".

(** [note_trace_diagnostic]: metadata that is no object becomes one; the entry
    joins the list of diagnostics or starts it. *)
Definition note_trace_diagnostic (t : ModelInvocationTrace) (kind : string) (error : DiagnosticCode) :
    ModelInvocationTrace :=
  let fields := match it_metadata t with
                | VObject fields => fields
                | VNull => []
                | original => [("value"%string, original)]
                end in
  let entry := object [("kind", VString kind); ("error", VString (DiagnosticCode_code error))]%string in
  let list := match field RUNTIME_DIAGNOSTICS fields with
              | Some (VArray list) => list ++ [entry]
              | _ => [entry]
              end in
  set_metadata (VObject (set_field RUNTIME_DIAGNOSTICS (VArray list) fields)) t.

(** ** Finish labels and identities *)

Definition is_known_finish_reason (reason : string) : bool :=
  existsb (String.eqb reason)
    ["stop"; "end_turn"; "stop_sequence"; "length"; "max_tokens"; "model_context_window_exceeded";
     "content_filter"; "tool_calls"; "function_call"; "other"]%string.

Definition provider_finish_reason (t : ModelInvocationTrace) (reason : option string) :
    ModelInvocationTrace * option string :=
  match reason with
  | None => (t, None)
  | Some reason =>
      if is_known_finish_reason reason then (t, Some reason)
      else (note_trace_diagnostic t "invalid_finish_reason" InvalidResponse, Some "other"%string)
  end.

(** The text of an echoed identity in the payload fields of a response. *)
Fixpoint contains_identity (identity : string) (payload : bool) (value : Value) : bool :=
  match value with
  | VString text => payload && contains_str identity text
  | VArray values => existsb (contains_identity identity payload) values
  | VObject fields =>
      existsb (λ f : string * Value,
        let '(name, value) := f in
        if existsb (String.eqb name) ["type"; "role"]%string then false
        else if existsb (String.eqb name) ["finish_reason"; "stop_reason"]%string then
          match as_str value with
          | Some reason => negb (is_known_finish_reason reason) && contains_str identity reason
          | None => false
          end
        else contains_identity identity
               (payload || existsb (String.eqb name)
                  ["content"; "text"; "refusal"; "reasoning_content"; "reasoning"; "reasoning_details";
                   "thinking"; "signature"; "data"]%string) value) fields
  | _ => false
  end.

Definition identity_byte (a : ascii) : bool :=
  between 48 57 a || between 65 90 a || between 97 122 a || contains_char a "._:/-".

(** One identity field of the raw response: the token kept, and whether the
    field was there and refused. *)
Definition identity_field (raw : Value) (request_contains_identity : string → bool) (name : string) :
    option string * bool :=
  match get name raw with
  | None => (None, false)
  | Some value =>
      let token :=
        text ← as_str value;
        if (1 <=? byte_len text) && (byte_len text <=? 128) && all_bytes identity_byte text
           && negb (request_contains_identity text) && negb (contains_identity text false raw)
        then Some text else None in
      (token, negb (is_some token))
  end.

(** [Value::as_i64] kept when it is not negative. *)
Definition unix_seconds (v : Value) : option Z :=
  match v with
  | VNumber text =>
      match text with
      | String "-"%char text => if bool_decide (parse_unsigned i64_max text = Some 0) then Some 0 else None
      | _ => parse_unsigned i64_max text
      end
  | _ => None
  end.

Definition set_identity (id model : option string) (created_ : option Z) (u : UsageTrace) : UsageTrace :=
  mkUsageTrace (cache_hit_tokens u) (cache_miss_tokens u) id model created_ (input_tokens u) (output_tokens u)
    (reasoning_tokens u) (media_units u) (cost_micro_usd u) (reported_cost_usd u).

(** A refused identity leaves the provider's own presentation too. *)
Definition scrub_provider (id model : option string) (metadata : Value) : Value :=
  match metadata with
  | VObject fields =>
      match field "provider" fields with
      | Some (VObject provider) =>
          let provider := if is_some id then provider else remove_field "response_id" provider in
          let provider := if is_some model then provider else remove_field "served_model" provider in
          VObject (set_field "provider" (VObject provider) fields)
      | _ => metadata
      end
  | _ => metadata
  end.

Definition provider_usage_identity (t : ModelInvocationTrace) (raw : Value)
    (request_contains_identity : string → bool) : ModelInvocationTrace :=
  let '(id, bad_id) := identity_field raw request_contains_identity "id" in
  let '(model, bad_model) := identity_field raw request_contains_identity "model" in
  let '(seconds, bad_created) :=
    match get "created" raw with
    | None => (None, false)
    | Some value => (unix_seconds value, negb (is_some (unix_seconds value)))
    end in
  let t := set_usage (set_identity id model seconds (it_usage t)) t in
  let t := set_metadata (scrub_provider id model (it_metadata t)) t in
  if bad_id || bad_model || bad_created then note_trace_diagnostic t "invalid_usage_identity" InvalidResponse else t.

(** ** Counters and statuses *)

Definition prompt_cache_status (total hit miss : option Z) : CacheStatus :=
  match total, hit, miss with
  | Some total, Some hit, Some miss =>
      if bool_decide (checked_add u64_max hit miss = Some total) then
        if hit =? 0 then Miss else if miss =? 0 then Hit else PartialHit
      else NotApplicable
  | _, _, _ => NotApplicable
  end.

(** [u64::checked_sub] of two present counts. *)
Definition zip_sub (a b : option Z) : option Z :=
  match a, b with Some a, Some b => if b <=? a then Some (a - b) else None | _, _ => None end.

Definition normalize_prompt_cache_counts (total hit miss nested_hit : option Z) :
    result ModelError (option Z * option Z) :=
  let invalid := Err (Provider InvalidResponse) in
  if match hit, nested_hit with Some a, Some b => negb (a =? b) | _, _ => false end then invalid
  else
    let hit := match hit with
               | Some h => Some h
               | None => match nested_hit with Some h => Some h | None => zip_sub total miss end
               end in
    let miss := match miss with Some m => Some m | None => zip_sub total hit end in
    if match total, hit with Some t, Some h => t <? h | _, _ => false end
       || match total, miss with Some t, Some m => t <? m | _, _ => false end
       || match total, hit, miss with
          | Some t, Some h, Some m => negb (bool_decide (checked_add u64_max h m = Some t))
          | _, _, _ => false
          end
    then invalid else Ok (hit, miss).

Definition prompt_cache_counts (total hit miss nested_hit : option Z) : option Z * option Z :=
  match normalize_prompt_cache_counts total hit miss nested_hit with Ok counts => counts | _ => (None, None) end.

Definition status_error (status : Z) : ModelError :=
  if (status =? 401) || (status =? 403) then Auth AuthenticationRejected
  else if status =? 402 then BudgetExhausted HttpBudgetExhausted
  else if (status =? 408) || (status =? 504) then Timeout HttpTimeout
  else if status =? 429 then RateLimited HttpRateLimited
  else if (500 <=? status) && (status <=? 599) then Unavailable HttpUnavailable
  else Provider HttpFailure.

Record ModelPricing : Type := mkPricing {
  input_micro_usd_per_million_tokens : Z;
  output_micro_usd_per_million_tokens : Z;
}.

(** [ModelPricing::cost_micro_usd]: exact in 128 bits, rounded up. *)
Definition pricing_cost_micro_usd (p : ModelPricing) (input_tokens output_tokens : Z) : Z :=
  let total := input_tokens * input_micro_usd_per_million_tokens p
               + output_tokens * output_micro_usd_per_million_tokens p in
  Z.min u64_max ((total + 999999) / 1000000).

(** ** Reported costs *)

(** The longest prefix of digits, and the rest. *)
Fixpoint take_digits (s : string) : string * string :=
  match s with
  | String a rest => if digit a then let '(d, r) := take_digits rest in (String a d, r) else (EmptyString, s)
  | EmptyString => (EmptyString, EmptyString)
  end.

(** An optional sign: whether it is negative, and the rest. *)
Definition take_sign (s : string) : bool * string :=
  match s with
  | String "+"%char rest => (false, rest)
  | String "-"%char rest => (true, rest)
  | _ => (false, s)
  end.

(** The decimal literals [f64::from_str] accepts besides infinities and NaN:
    sign, integer of the digits and power of ten. *)
Definition parse_decimal (s : string) : option (bool * Z * Z) :=
  let '(negative, s) := take_sign s in
  let '(whole, s) := take_digits s in
  let '(fraction, s) := match s with String "."%char rest => take_digits rest | _ => (EmptyString, s) end in
  if bool_decide (whole = EmptyString ∧ fraction = EmptyString) then None
  else
    let mantissa := decimal 0 (whole +:+ fraction) in
    let scale := - byte_len fraction in
    match s with
    | EmptyString => Some (negative, mantissa, scale)
    | String a rest =>
        if Ascii.eqb a "e"%char || Ascii.eqb a "E"%char then
          let '(minus, rest) := take_sign rest in
          let '(digits, rest) := take_digits rest in
          if bool_decide (digits = EmptyString) || negb (bool_decide (rest = EmptyString)) then None
          else Some (negative, mantissa, scale + (if minus then - decimal 0 digits else decimal 0 digits))
        else None
    end.

(** [m * 10^e < a * 2^b] and [m * 10^e <= a * 2^b] for integers. *)
Definition scaled_lt (m e a b : Z) : bool :=
  m * 10 ^ Z.max 0 e * 2 ^ Z.max 0 (- b) <? a * 2 ^ Z.max 0 b * 10 ^ Z.max 0 (- e).

Definition scaled_le (m e a b : Z) : bool :=
  m * 10 ^ Z.max 0 e * 2 ^ Z.max 0 (- b) <=? a * 2 ^ Z.max 0 b * 10 ^ Z.max 0 (- e).

(** [text.parse::<f64>()] is finite and not negative: its magnitude rounds
    below two to the 1024th, and a negative one rounds to zero. *)
Definition valid_reported_cost_usd (text : string) : bool :=
  match parse_decimal text with
  | None => false
  | Some (negative, m, e) =>
      scaled_lt m e (2 ^ 54 - 1) 970 && (negb negative || scaled_le m e 1 (-1075))
  end.

(** ** What is kept of an answer *)

Definition usage_diagnostic (mode : AnswerRecovery) (u : UsageTrace) : option DiagnosticCode :=
  match mode, reported_cost_usd u with
  | Off, Some cost => if valid_reported_cost_usd cost then None else Some InvalidResponse
  | _, _ => None
  end.

(** [AnswerRecovery::stored_usage]. *)
Definition stored_usage (mode : AnswerRecovery) (u : UsageTrace) : UsageTrace :=
  match mode with
  | Retain => u
  | Off =>
      mkUsageTrace (cache_hit_tokens u) (cache_miss_tokens u) None None (created u) (input_tokens u)
        (output_tokens u) (reasoning_tokens u) (media_units u) (cost_micro_usd u)
        (if is_some (usage_diagnostic mode u) then None else reported_cost_usd u)
  end.

Definition stored_metadata (mode : AnswerRecovery) (metadata : Value) : Value :=
  match mode with Retain => metadata | Off => VNull end.

(** [AnswerRecovery::stored_trace] with the fresh trace id. *)
Definition stored_trace (mode : AnswerRecovery) (t : ModelInvocationTrace) (model : ModelIdentity)
    (queue_item_id : option string) (fresh : string) : ModelInvocationTrace :=
  match mode with
  | Retain => t
  | Off =>
      mkTrace fresh queue_item_id model None None (it_request_hash t) None (it_cache t) (stored_usage mode (it_usage t))
        (it_timing t) (it_outcome t) (it_error_class t) [] (stored_metadata mode (it_metadata t)) (it_timestamp t)
  end.

(** ** Responses *)

Class TraceCarrier (Res : Type) : Type := {
  trace_of : Res → ModelInvocationTrace;
  set_trace : ModelInvocationTrace → Res → Res;
  trace_set t r : trace_of (set_trace t r) = t;
}.

Class CredentialResponse (Res : Type) : Type := {
  discard_raw : Res → Res;
  normalize_finish_reason : Res → Res;
}.

(** serde: [to_value] may fail, and decoding may refuse. *)
Class Serde (T : Type) : Type := {
  to_value : T → option Value;
  from_value : Value → option T;
}.

Record ChatResponse : Type := mkChatResponse {
  ch_text : string;
  ch_finish_reason : option string;
  ch_trace : ModelInvocationTrace;
  ch_raw_provider_response : option Value;
}.

#[export] Instance chat_carrier : TraceCarrier ChatResponse := {|
  trace_of := ch_trace;
  set_trace t r := mkChatResponse (ch_text r) (ch_finish_reason r) t (ch_raw_provider_response r);
  trace_set t r := eq_refl;
|}.

#[export] Instance chat_response : CredentialResponse ChatResponse := {|
  discard_raw r := mkChatResponse (ch_text r) (ch_finish_reason r) (ch_trace r) None;
  normalize_finish_reason r :=
    let '(t, reason) := provider_finish_reason (ch_trace r) (ch_finish_reason r) in
    mkChatResponse (ch_text r) reason t (ch_raw_provider_response r);
|}.

Record EmbeddingResponse (F32 : Type) : Type := mkEmbeddingResponse {
  em_vectors : list (list F32);
  em_dimensions : Z;
  em_trace : ModelInvocationTrace;
  em_raw_provider_response : option Value;
}.
Arguments mkEmbeddingResponse {F32}.
Arguments em_vectors {F32}.
Arguments em_dimensions {F32}.
Arguments em_trace {F32}.
Arguments em_raw_provider_response {F32}.

#[export] Instance embedding_carrier F32 : TraceCarrier (EmbeddingResponse F32) := {|
  trace_of := em_trace;
  set_trace t r := mkEmbeddingResponse (em_vectors r) (em_dimensions r) t (em_raw_provider_response r);
  trace_set t r := eq_refl;
|}.

#[export] Instance embedding_response F32 : CredentialResponse (EmbeddingResponse F32) := {|
  discard_raw r := mkEmbeddingResponse (em_vectors r) (em_dimensions r) (em_trace r) None;
  normalize_finish_reason r := r;
|}.

Record RerankHit (F32 : Type) : Type := mkRerankHit { rh_index : Z; rh_score : F32 }.

Record RerankResponse (F32 : Type) : Type := mkRerankResponse {
  re_hits : list (RerankHit F32);
  re_trace : ModelInvocationTrace;
  re_raw_provider_response : option Value;
}.
Arguments mkRerankResponse {F32}.
Arguments re_hits {F32}.
Arguments re_trace {F32}.
Arguments re_raw_provider_response {F32}.

#[export] Instance rerank_carrier F32 : TraceCarrier (RerankResponse F32) := {|
  trace_of := re_trace;
  set_trace t r := mkRerankResponse (re_hits r) t (re_raw_provider_response r);
  trace_set t r := eq_refl;
|}.

#[export] Instance rerank_response F32 : CredentialResponse (RerankResponse F32) := {|
  discard_raw r := mkRerankResponse (re_hits r) (re_trace r) None;
  normalize_finish_reason r := r;
|}.

(** ** The credential boundary *)

(** A text between double quotes. *)
Definition quoted (s : string) : string := String "034"%char (s +:+ String "034"%char "").

(** The engines of the base64 crate that the boundary asks. *)
Inductive Base64Engine : Type := STANDARD | STANDARD_NO_PAD | URL_SAFE | URL_SAFE_NO_PAD.

(** JSON text and base64: serde_json's compact printing, in which a string is
    between quotes, and the base64 crate's encoders. *)
Class TextEncodings : Type := {
  json_text : Value → string;
  base64 : Base64Engine → string → string;
  json_string_quoted s : ∃ t, json_text (VString s) = quoted t;
}.

Section Boundary.
Context `{!TextEncodings}.

Definition hex_digit (upper : bool) (n : Z) : ascii :=
  ascii_of_nat (Z.to_nat (if n <? 10 then 48 + n else (if upper then 55 else 87) + n)).

Definition unreserved (a : ascii) : bool :=
  between 48 57 a || between 65 90 a || between 97 122 a || contains_char a "-._~".

(** Percent encoding, of every byte or of those not unreserved. *)
Definition percent (all upper : bool) (secret : string) : string :=
  map_bytes (λ a, if negb all && unreserved a then String a ""
                  else String "%"%char (String (hex_digit upper (Z.shiftr (code a) 4))
                         (String (hex_digit upper (Z.land (code a) 15)) ""))) secret.

(** The text without its first and last byte. *)
Definition unquoted (s : string) : string := String.substring 1 (String.length s - 2) s.

Definition credential_encodings (secret : string) : list string :=
  [secret; unquoted (json_text (VString secret)); percent false false secret; percent false true secret;
   percent true false secret; percent true true secret]
  ++ map (λ engine, base64 engine secret) [STANDARD; STANDARD_NO_PAD; URL_SAFE; URL_SAFE_NO_PAD].

Definition contains_text (encodings : list string) (text : string) : bool :=
  existsb (λ secret, contains_str secret text) encodings.

(** Some string, key or number of the value contains one of the encodings. *)
Fixpoint contains_secret (encodings : list string) (value : Value) : bool :=
  match value with
  | VString text => contains_text encodings text
  | VArray values => existsb (contains_secret encodings) values
  | VObject fields =>
      existsb (λ f : string * Value, contains_text encodings f.1 || contains_secret encodings f.2) fields
  | VNumber text => contains_text encodings text
  | _ => false
  end.

Definition check_response (value : Value) (secret : string) : result ModelError unit :=
  if String.eqb secret "" then Ok tt
  else
    let encodings := credential_encodings secret in
    if contains_secret encodings value || contains_text encodings (json_text value)
    then Err (Provider CredentialBearingProviderResponseRefused) else Ok tt.

(** [discard_raw] of a bare value. *)
Definition discard_raw_value (v : Value) : Value :=
  match v with VObject fields => VObject (remove_field "raw_provider_response" fields) | v => v end.

(** [json!({"status": .., "retry_after_seconds": ..})]. *)
Definition http_details_value (status : Z) (retry : option Z) : Value :=
  object [("status", number status); ("retry_after_seconds", opt_value number retry)]%string.

(** [credential_boundary] of a serialized result. *)
Definition credential_boundary (result_ : result ModelError Value) (secret : string) : result ModelError Value :=
  if String.eqb secret "" then result_
  else
    match result_ with
    | Ok value => let? _ := check_response value secret in Ok (discard_raw_value value)
    | Err error =>
        let? _ := match http_details error with
                  | Some (status, retry) => check_response (http_details_value status retry) secret
                  | None => Ok tt
                  end in
        Err error
    | Panic => Panic
    end.

(** What the executor asks of a provider. *)
Record ModelProvider : Type := mkProvider {
  mp_descriptor : ProviderDescriptor;
  mp_failure_charge : ModelError → FailureCharge;
  mp_validate_configuration : result ModelError unit;
  mp_credential_fingerprint : option string;
  mp_credential_boundary : option string;
}.

Definition composed_result {T : Type} `{!Serde T} (provider : ModelProvider) (result_ : result ModelError T) :
    result ModelError T :=
  match mp_credential_boundary provider with
  | None =>
      if is_some (mp_credential_fingerprint provider)
         || match pd_auth_mode (mp_descriptor provider) with AuthNone => false | _ => true end
      then Err (Provider CredentialResultBoundaryIsUnavailable) else result_
  | Some secret =>
      let serialized := let? response := result_ in ok_or (to_value response) (Provider InvalidAdapterResponse) in
      let? value := credential_boundary serialized secret in
      ok_or (from_value value) (Provider InvalidAdapterResponse)
  end.

(** ** Nothing that names the credential leaves *)

(** A text of a value, at any depth: a string, the digits of a number or the
    key of a field. *)
Inductive text_in : string → Value → Prop :=
| text_string s : text_in s (VString s)
| text_number s : text_in s (VNumber s)
| text_element s v values : v ∈ values → text_in s v → text_in s (VArray values)
| text_key k v fields : (k, v) ∈ fields → text_in k (VObject fields)
| text_member s k v fields : (k, v) ∈ fields → text_in s v → text_in s (VObject fields).

Definition hex_alphabet (upper : bool) : string := if upper then "0123456789ABCDEF" else "0123456789abcdef".

Definition unreserved_alphabet : string := "ABCDEFGHIJKLMNOPQRSTUVWXYZabcdefghijklmnopqrstuvwxyz0123456789-._~".

(** Percent encoding as a relation: each byte is kept, where it is unreserved
    and not every byte is escaped, or is its two hexadecimal digits. *)
Inductive percent_form (all upper : bool) : string → string → Prop :=
| percent_nil : percent_form all upper EmptyString EmptyString
| percent_kept a s t :
    all = false → contains_char a unreserved_alphabet = true → percent_form all upper s t →
    percent_form all upper (String a s) (String a t)
| percent_escaped a s t hi lo :
    all = true ∨ contains_char a unreserved_alphabet = false →
    String.get (Z.to_nat (code a / 16)) (hex_alphabet upper) = Some hi →
    String.get (Z.to_nat (code a mod 16)) (hex_alphabet upper) = Some lo → percent_form all upper s t →
    percent_form all upper (String a s) (String "%"%char (String hi (String lo t))).

(** How a text can spell the credential: in the clear, as the inside of a JSON
    string, percent-encoded with either case of digits, wholly or where needed,
    and in the four base64 forms. *)
Inductive spelling (secret : string) : string → Prop :=
| spelt_plainly : spelling secret secret
| spelt_in_json s : json_text (VString secret) = quoted s → spelling secret s
| spelt_by_percent all upper s : percent_form all upper secret s → spelling secret s
| spelt_in_base64 engine : spelling secret (base64 engine secret).

(** No text of the value, nor its JSON text, spells the credential anywhere. *)
Definition clean (secret : string) (v : Value) : Prop :=
  ∀ spelt, spelling secret spelt → (∀ text, text_in text v → ¬ occurs spelt text) ∧ ¬ occurs spelt (json_text v).

Lemma unquoted_quoted s : unquoted (quoted s) = s.
Proof.
  unfold unquoted, quoted. simpl String.length.
  replace (S (String.length (s +:+ String "034" "")) - 2)%nat with (String.length s).
  - simpl. induction s as [|a s IH]; [done|]. rewrite str_app_cons. simpl. by rewrite IH.
  - pose proof (byte_len_app s (String "034" "")) as Hl. unfold byte_len in Hl. simpl in Hl |- *. lia.
Qed.

Lemma unreserved_listed a : unreserved a = contains_char a unreserved_alphabet.
Proof. destruct a as [[] [] [] [] [] [] [] []]; vm_compute; reflexivity. Qed.

Lemma hex_listed upper a :
  String.get (Z.to_nat (code a / 16)) (hex_alphabet upper) = Some (hex_digit upper (Z.shiftr (code a) 4))
  ∧ String.get (Z.to_nat (code a mod 16)) (hex_alphabet upper) = Some (hex_digit upper (Z.land (code a) 15)).
Proof. destruct upper, a as [[] [] [] [] [] [] [] []]; vm_compute; split; reflexivity. Qed.

(** The encoder computes the relation. *)
Lemma percent_computed all upper s t : percent_form all upper s t ↔ t = percent all upper s.
Proof.
  unfold percent. split.
  - induction 1 as [|a s t Ha Hu _ IH|a s t hi lo Hu Hh Hl _ IH]; [done| |]; simpl.
    + by rewrite <-IH, Ha, unreserved_listed, Hu.
    + destruct (hex_listed upper a) as [Hh' Hl']. rewrite Hh in Hh'. rewrite Hl in Hl'. injection Hh' as ->. injection Hl' as ->.
      replace (negb all && unreserved a) with false; [by rewrite <-IH|].
      rewrite unreserved_listed. destruct Hu as [->| ->]; by rewrite ?andb_false_r.
  - intros ->. induction s as [|a s IH]; simpl; [constructor|]. destruct (hex_listed upper a) as [Hh Hl].
    destruct (negb all && unreserved a) eqn:E; rewrite unreserved_listed in E.
    + apply andb_true_iff in E as [?%negb_true_iff ?]. by constructor.
    + apply percent_escaped; [|done..]. apply andb_false_iff in E as [E%negb_false_iff|E]; auto.
Qed.

(** The set of the code is the spellings. *)
Lemma encodings_spell secret s : In s (credential_encodings secret) ↔ spelling secret s.
Proof.
  unfold credential_encodings. simpl. split.
  - intros Hs. repeat destruct Hs as [<-|Hs]; try done; try (by constructor); try (by eapply spelt_by_percent, percent_computed).
    apply spelt_in_json. destruct (json_string_quoted secret) as [t Ht]. by rewrite Ht, unquoted_quoted.
  - intros [|t Ht|all upper t ->%percent_computed|[]]; try (by auto 12); [|destruct all, upper; by auto 12].
    right; left. by rewrite Ht, unquoted_quoted.
Qed.

Lemma contains_text_spec encodings text :
  contains_text encodings text = true ↔ ∃ spelt, In spelt encodings ∧ occurs spelt text.
Proof.
  unfold contains_text. rewrite existsb_exists. split; intros (s & Hs & Ho); exists s; (split; [done|]); by apply contains_str_spec.
Qed.

(** The search reaches every text of the value. *)
Lemma contains_secret_spec encodings v :
  contains_secret encodings v = true ↔ ∃ text, text_in text v ∧ contains_text encodings text = true.
Proof.
  induction v as [|b|s|s|values IH|fields IH] using Value_nested_ind; simpl.
  - split; [done|]. intros (t & Ht & _). inversion Ht.
  - split; [done|]. intros (t & Ht & _). inversion Ht.
  - split; [intros Hs; exists s; split; [constructor|done]|]. intros (t & Ht & Hc). by inversion Ht; subst.
  - split; [intros Hs; exists s; split; [constructor|done]|]. intros (t & Ht & Hc). by inversion Ht; subst.
  - rewrite Forall_forall in IH. rewrite existsb_exists. split.
    + intros (v & Hv & Hc). apply list_elem_of_In in Hv. apply (IH v Hv) in Hc as (t & Ht & Hc). exists t. split; [by econstructor|done].
    + intros (t & Ht & Hc). inversion Ht as [| |? v ? Hv Hin| |]; subst. exists v.
      split; [by apply list_elem_of_In|]. apply (IH v Hv). eauto.
  - rewrite Forall_forall in IH. rewrite existsb_exists. split.
    + intros ([k v] & Hf & Hc). apply list_elem_of_In in Hf. apply orb_true_iff in Hc as [Hc|Hc]; simpl in Hc.
      * exists k. split; [by econstructor|done].
      * apply (IH (k, v) Hf) in Hc as (t & Ht & Hc). exists t. split; [by eapply text_member|done].
    + intros (t & Ht & Hc). inversion Ht as [| | |? v ? Hf|? k v ? Hf Hin]; subst.
      * exists (t, v). split; [by apply list_elem_of_In|]. simpl. by rewrite Hc.
      * exists (k, v). split; [by apply list_elem_of_In|]. apply orb_true_iff. right. apply (IH (k, v) Hf). eauto.
Qed.

Lemma check_response_clean v secret : secret ≠ EmptyString → check_response v secret = Ok tt ↔ clean secret v.
Proof.
  intros Hs. unfold check_response. destruct (String.eqb_spec secret ""); [done|].
  destruct (contains_secret _ _ || contains_text _ (json_text v)) eqn:E; (split; [|done || intros Hc]).
  - done.
  - exfalso. apply orb_true_iff in E as [(t & Ht & E)%contains_secret_spec|E];
      apply contains_text_spec in E as (s & Hin%encodings_spell & Ho); destruct (Hc s Hin) as [Ht' Hj]; [by eapply Ht'|done].
  - intros _ s Hin%encodings_spell. apply orb_false_iff in E as [Ev Ej]. split.
    + intros t Ht Ho. apply not_true_iff_false in Ev. apply Ev, contains_secret_spec. exists t. split; [done|].
      apply contains_text_spec. by exists s.
    + intros Ho. apply not_true_iff_false in Ej. apply Ej, contains_text_spec. by exists s.
Qed.

Lemma check_response_refused v secret :
  check_response v secret = Ok tt ∨ check_response v secret = Err (Provider CredentialBearingProviderResponseRefused).
Proof. unfold check_response. destruct (String.eqb secret ""); [by left|]. destruct (_ || _); auto. Qed.

(** A part of a clean value has no text that spells the credential. *)
Lemma field_elem key v fields : field key fields = Some v → (key, v) ∈ fields.
Proof.
  induction fields as [|[k w] fields IH]; simpl; [done|]. destruct (String.eqb_spec k key) as [->|].
  - intros [= ->]. constructor.
  - intros Hf. constructor. auto.
Qed.

Lemma clean_field secret key v w : clean secret v → get key v = Some w →
  ∀ spelt text, spelling secret spelt → text_in text w → ¬ occurs spelt text.
Proof.
  intros Hc Hg spelt text Hs Ht. apply (Hc spelt Hs). destruct v as [| | | | |fields]; try done.
  eapply text_member; [by apply field_elem|done].
Qed.

Lemma discard_raw_gone v : get "raw_provider_response" (discard_raw_value v) = None.
Proof.
  destruct v as [| | | | |fields]; try done. simpl. unfold remove_field.
  induction fields as [|[k w] fields IH]; [done|]. rewrite select_where_cons. simpl.
  destruct (String.eqb k "raw_provider_response") eqn:E; simpl; [exact IH|]. by rewrite E.
Qed.

(** C30: the credential of a provider is contained.  Behind a guard, a response
    comes back exactly when it serializes to a value in which no string, number
    or key, at any depth and raw part included, and no part of the JSON text
    spells the credential, plainly or in one of the listed encodings, and what
    comes back is the decoding of that value without its raw part; an error
    comes back only where its status details do not spell the credential
    either, and is otherwise replaced by the refusal.  Without a guard a
    response comes back only where the provider has no credential at all. *)
Theorem credential_contained {T : Type} `{!Serde T} provider (r : result ModelError T) :
  match mp_credential_boundary provider with
  | Some secret => if String.eqb secret "" then
      ∀ out, composed_result provider r = Ok out ↔ ∃ a v, r = Ok a ∧ to_value a = Some v ∧ from_value v = Some out
    else
      (∀ out, composed_result provider r = Ok out ↔
        ∃ a v, r = Ok a ∧ to_value a = Some v ∧ clean secret v
          ∧ get "raw_provider_response" (discard_raw_value v) = None ∧ from_value (discard_raw_value v) = Some out)
      ∧ (∀ e, r = Err e →
          composed_result provider r = Err e
          ∧ (∀ status retry, http_details e = Some (status, retry) → clean secret (http_details_value status retry))
          ∨ composed_result provider r = Err (Provider CredentialBearingProviderResponseRefused))
  | None => ∀ out, composed_result provider r = Ok out ↔
      r = Ok out ∧ mp_credential_fingerprint provider = None ∧ pd_auth_mode (mp_descriptor provider) = AuthNone
  end.
Proof.
  unfold composed_result. destruct (mp_credential_boundary provider) as [secret|].
  - destruct (String.eqb_spec secret "") as [->|Hs]; [|split].
    + intros out. unfold credential_boundary. simpl. split.
      * destruct r as [a| |]; rsimpl; [|done..]. destruct (to_value a) as [v|] eqn:Ev; rsimpl; [|done].
        destruct (from_value v) eqn:Ef; [|done]. intros [= <-]. by exists a, v.
      * intros (a & v & -> & Hv & Hf). rsimpl. rewrite Hv. rsimpl. by rewrite Hf.
    + intros out. unfold credential_boundary. rewrite (proj2 (String.eqb_neq _ _) Hs). split.
      * destruct r as [a|e|]; rsimpl; [|destruct (http_details e) as [[status retry]|]; [destruct (check_response _ _)|]; done|done].
        destruct (to_value a) as [v|] eqn:Ev; rsimpl; [|done].
        destruct (check_response v secret) as [[]| |] eqn:Ec; rsimpl; [|done..].
        destruct (from_value _) eqn:Ef; [|done]. intros [= <-]. exists a, v.
        split_and!; [done..|by apply check_response_clean|apply discard_raw_gone|done].
      * intros (a & v & -> & Hv & Hc & _ & Hf). rsimpl. rewrite Hv. rsimpl.
        rewrite (proj2 (check_response_clean _ _ Hs) Hc). rsimpl. by rewrite Hf.
    + intros e ->. rsimpl. unfold credential_boundary. rewrite (proj2 (String.eqb_neq _ _) Hs).
      destruct (http_details e) as [[status retry]|] eqn:Ed; [|by left].
      destruct (check_response_refused (http_details_value status retry) secret) as [Hc|Hc]; rewrite Hc; rsimpl; [left|by right].
      split; [done|]. intros s' r' [= <- <-]. by apply check_response_clean.
  - intros out. destruct (mp_credential_fingerprint provider); simpl; [naive_solver|]. destruct (pd_auth_mode _); naive_solver.
Qed.

End Boundary.

(** ** A kept answer *)

Section Kept.
#[local] Instance kept_text : TextEncodings := {|
  json_text v := match v with VString s => quoted s | _ => EmptyString end;
  base64 _ s := s;
  json_string_quoted s := ex_intro _ s eq_refl;
|}.
#[local] Instance kept_serde : Serde string := {|
  to_value s := Some (VString s);
  from_value v := match v with VString s => Some s | _ => None end;
|}.
Definition kept_provider : ModelProvider :=
  mkProvider (mkDescriptor (mkModelIdentity "chat" "acme" "m1") CloudProvider [Chat] AuthNone VNull)
    failure_charge (Ok tt) None (Some "s3cret"%string).

Lemma credential_contained_witness :
  composed_result kept_provider (Ok "hello"%string) = Ok "hello"%string ∧ clean "s3cret" (VString "hello").
Proof.
  assert (composed_result kept_provider (Ok "hello"%string) = Ok "hello"%string) as Hr by (vm_compute; reflexivity).
  split; [exact Hr|].
  destruct (proj1 (proj1 (credential_contained kept_provider (Ok "hello"%string)) "hello"%string) Hr)
    as (a & v & Ha & Hv & Hc & _).
  injection Ha as <-. injection Hv as <-. exact Hc.
Defined.

End Kept.
