(* ===== verification/Executor.v ===== *)
(** [symbiotic-model], [lib.rs]: one queued model call, from the caller's loop
    through the attempt that holds a queue lease to the settlement of its
    accounting, as programs over the calls they make.

    The queue backend, the ledger, caches, sinks, the clock, the provider and
    the wait for slots and rate budget are calls ([Op]); what they answer is up
    to the environment.  [ledger_answers] of [ExecutorPool] later answers the
    ledger calls with the ledger's model.  A call that may wait in rounds takes
    [fuel]; a program whose fuel is used up is one that is still waiting, and
    stops there.

    [holding_lease] runs its work between renewals: before each call of the
    work, and before it returns, any number of lease renewals may be due. *)

From Stdlib Require Import ZArith Lia Ascii.
From stdpp Require Import base gmap strings list pretty.
From S2P Require Import Prelude Text Core QueueTypes SpendTypes Program Json Trace ExecutionPolicy Responses.

#[local] Open Scope Z_scope.
#[local] Existing Instance json_values.

(** ** Records *)

Inductive ReceiptStatus : Type :=
| ReceiptQueued | ReceiptRunning | ReceiptSucceeded | ReceiptFailed | ReceiptCacheHit.

Record QueueReceipt : Type := mkQueueReceipt {
  qr_spend_receipt : option string;
  qr_binding : option BindingIdentity;
  qr_queue_id : string;
  qr_kind : string;
  qr_item_id : option string;
  qr_request_hash : string;
  qr_status : ReceiptStatus;
  qr_attempt : Z;
  qr_request_units : Z;
  qr_input_units : Z;
  qr_usage : option UsageTrace;
  qr_cache : option CacheTrace;
  qr_metadata : Value;
  qr_error : option DiagnosticCode;
  qr_queue_wait_ms : option Z;
  qr_throttle_wait_ms : option Z;
  qr_provider_ms : option Z;
  qr_timestamp : DateTime;
}.

Record CacheEntry : Type := mkCacheEntry {
  ce_kind : string;
  ce_scope : option string;
  ce_request_hash : string;
  ce_request : Value;
}.

(** The parts of a receipt that tell how long an attempt waited. *)
Record AttemptTiming : Type := mkAttemptTiming {
  at_queue_wait_ms : option Z;
  at_throttle_wait_ms : option Z;
  at_provider_ms : option Z;
}.

Definition no_timing : AttemptTiming := mkAttemptTiming None None None.

(** Instants and durations of the monotonic clock, in nanoseconds. *)
Record AttemptClock : Type := mkAttemptClock {
  ac_queued_at : Z;
  ac_attempt_started : Z;
  ac_attempt_throttle : Z;
  ac_throttle_wait : Z;
}.

(** [RateCheck]: cleared, with or without a grant to spend, or a wait. *)
Inductive RateAnswer : Type :=
| Cleared (grant : bool)
| RateWait (nanos : Z).

Section Executor.
Context `{!Chrono, !Sha256, !TextEncodings}.
Context {Req Res : Type} `{!TraceCarrier Res, !CredentialResponse Res, !Serde Res}.

(** What every attempt of one queued call shares. *)
Record QueuedCall : Type := mkQueuedCall {
  qc_accepted_spend : option AcceptedSpendHandoff;
  qc_answer_recovery : AnswerRecovery;
  qc_invocation : string;
  qc_invocation_key : option string;
  qc_attempt_binding : string;
  qc_worker_id : string;
  qc_config : ModelQueueConfig;
  qc_queue_id : string;
  qc_descriptor : ProviderDescriptor;
  qc_result_owner : ModelProvider;
  qc_capability : ModelCapability;
  qc_kind : string;
  qc_binding_identity : option BindingIdentity;
  qc_cache_scope : option string;
  qc_cache : bool;
  qc_trace_sink : bool;
  qc_receipt_sink : bool;
  qc_input_units : Z;
  qc_request : Req;
  qc_request_hash : string;
  qc_request_value : Value;
  qc_idempotency_key : option string;
}.

(** ** Calls *)

Inductive Op : Type :=
(** The queue backend. *)
| GetItem (item_id : string)
| ReclaimExpired (queue_id : string)
| ClaimItem (item_id worker : string) (lease_seconds : Z) (max_in_flight : option Z)
| HeartbeatItem (item_id worker : string) (lease_seconds : Z)
| CompleteItem (item_id worker : string)
| FailItem (item_id worker : string) (failure : Failure)
| EnqueueItem (request : EnqueueRequest)
| EnqueueReplacing (request : EnqueueRequest) (current : string)
| CooldownUntil (queue_id : string)
| NoteCooldown (queue_id : string) (until : DateTime)
(** The spend ledger. *)
| LedgerInvocation (account invocation : string)
| LedgerReceipt (reference : string)
| LedgerReserve (r : SpendReservation)
| LedgerReserveExplicit (r : SpendReservation) (limit : Z)
| LedgerAcquireHandoff (handoff : AcceptedSpendHandoff) (account input_identity owner : string)
| LedgerRelease (reference : string)
| LedgerFinish (reference : string) (state : SpendState) (usage : option UsageTrace) (output : option Value)
    (invocation : option string)
(** The execution's receipt pointer. *)
| ContextClear
| ContextCapture (reference : string)
| ContextReference
(** Cache and sinks. *)
| CacheLoad (entry : CacheEntry)
| CacheStore (entry : CacheEntry) (value : Value)
| DebugStore (entry : CacheEntry) (value : Value)
| RecordTrace (trace : ModelInvocationTrace)
| RecordReceipt (receipt : QueueReceipt)
(** Clocks, names, slots and rate budget. *)
| UtcNow
| InstantNow
| FreshTraceId
| AcquireSlot (queue_id : string) (max_in_flight : Z)
| DropSlot
| CheckRate (queue_id : string) (config : ModelQueueConfig) (request : Req)
| ChargeRate
| Sleep (nanos : Z)
| RenewalsDue
| OwnershipLost
(** The provider: its answer, or none before the timeout. *)
| Dispatch (request : Req)
(** A durable job's owner. *)
| JobRecover (r : SpendReservation)
| JobEligible
| JobClaim (r : SpendReservation) (limit : Z)
| JobAttempt
| JobHeartbeat
| JobAdmit (credential_fingerprint : option string)
| JobFinish (state : SpendState) (usage : option UsageTrace) (output : option Value)
    (failure : option DiagnosticCode) (retry : bool)
| JobRelease
| JobCanRetry (limit : Z)
| DecodeRequest (payload : Bytes)
| PrepareCall
| FreshItemId.

Definition Ans (op : Op) : Type :=
  match op with
  | GetItem _ => result QueueError (option QueueItem)
  | ReclaimExpired _ => result QueueError Z
  | ClaimItem _ _ _ _ => result QueueError (option QueueItem)
  | HeartbeatItem _ _ _ | CompleteItem _ _ | NoteCooldown _ _ => result QueueError unit
  | FailItem _ _ _ => result QueueError FailOutcome
  | EnqueueItem _ | EnqueueReplacing _ _ => result QueueError EnqueueOutcome
  | CooldownUntil _ => result QueueError (option DateTime)
  | LedgerInvocation _ _ | LedgerReceipt _ => result ModelError (option SpendReceipt)
  | LedgerReserve _ | LedgerReserveExplicit _ _ => result ModelError bool
  | LedgerAcquireHandoff _ _ _ _ | LedgerRelease _ | LedgerFinish _ _ _ _ _ => result ModelError unit
  | ContextClear | ContextCapture _ => result ModelError unit
  | ContextReference => result ModelError (option string)
  | CacheLoad _ => result ModelError (option Value)
  | CacheStore _ _ | DebugStore _ _ => result ModelError unit
  | RecordTrace _ => result DiagnosticCode unit
  | RecordReceipt _ => unit
  | UtcNow | InstantNow => Z
  | FreshTraceId | FreshItemId => string
  | AcquireSlot _ _ => result ModelError unit
  | DropSlot | Sleep _ => unit
  | CheckRate _ _ _ => result ModelError RateAnswer
  | ChargeRate => result ModelError unit
  | RenewalsDue => nat
  | OwnershipLost => bool
  | Dispatch _ => option (result ModelError Res)
  | JobRecover _ | JobEligible | JobHeartbeat | JobCanRetry _ => result ModelError bool
  | JobClaim _ _ => result ModelError (option Bytes)
  | JobAttempt => result ModelError Z
  | JobAdmit _ | JobFinish _ _ _ _ _ | JobRelease => result ModelError unit
  | DecodeRequest _ => result ModelError (Req * string)
  | PrepareCall => result ModelError ModelProvider
  end.

Definition call (op : Op) : prog Ans (Ans op) := ask op.

Abbreviation Prog A := (prog Ans A) (only parsing).
Abbreviation Fallible A := (prog Ans (result ModelError A)) (only parsing).

Definition ok {A : Type} (a : A) : Fallible A := Ret (Ok a).
Definition fail {A : Type} (e : ModelError) : Fallible A := Ret (Err e).
Definition lift {A : Type} (r : result ModelError A) : Fallible A := Ret r.

(** A value whose absence is a panic. *)
Definition unwrap {A : Type} (o : option A) : Prog A := match o with Some a => Ret a | None => Unwind end.

(** [queue_error]: every backend error is one model error. *)
Definition queue_error : ModelError := Queue QueueFailure.

Definition on_queue {A : Type} (p : prog Ans (result QueueError A)) : Fallible A :=
  let* r := p in Ret (map_err (λ _, queue_error) r).

(** [json!(...)] payloads as the queue stores them, and back. *)
Definition payload_text (v : Value) : string := json_text v.

(** [Utc::now() + Duration::milliseconds(ms)]. *)
Definition add_millis (now : DateTime) (ms : Z) : option DateTime :=
  let t := now + ms * 1000000 in if instant_ok t then Some t else None.

Definition millis_of (nanos : Z) : Z := Z.min u64_max (nanos / 1000000).

Definition elapsed (since : Z) : Prog Z := let* now := call InstantNow in Ret (Z.max 0 (now - since)).

Definition elapsed_ms (since : Z) : Prog Z := let* d := elapsed since in Ret (millis_of d).

Definition cache_entry (c : QueuedCall) : CacheEntry :=
  mkCacheEntry (qc_kind c) (qc_cache_scope c) (qc_request_hash c) (qc_request_value c).

(** ** Receipts and traces *)

Definition record_attempt (c : QueuedCall) (status : ReceiptStatus) (item : option (string * Z))
    (trace : option ModelInvocationTrace) (error : option DiagnosticCode) (timing : AttemptTiming) : Prog unit :=
  if negb (qc_receipt_sink c) then Ret tt
  else
    let* reference := call ContextReference in
    let reference := match reference, item with
                     | Ok reference, Some (_, attempt) => if 0 <? attempt then reference else None
                     | _, _ => None
                     end in
    let* now := call UtcNow in
    call (RecordReceipt
      (mkQueueReceipt reference (qc_binding_identity c) (qc_queue_id c) (qc_kind c) (fst <$> item)
         (qc_request_hash c) status (default 0 (snd <$> item)) 1 (qc_input_units c)
         ((λ t, stored_usage (qc_answer_recovery c) (it_usage t)) <$> trace) (it_cache <$> trace)
         (match trace with Some t => stored_metadata (qc_answer_recovery c) (it_metadata t) | None => VNull end)
         error (at_queue_wait_ms timing) (at_throttle_wait_ms timing) (at_provider_ms timing) now)).

Definition record (c : QueuedCall) (status : ReceiptStatus) (item : option QueueItem)
    (trace : option ModelInvocationTrace) (error : option DiagnosticCode) (timing : AttemptTiming) : Prog unit :=
  record_attempt c status ((λ i, (qi_item_id i, qi_attempt i)) <$> item) trace error timing.

(** A failed side effect is noted on the response; the call's outcome stands. *)
Definition note_side_effect (r : Res) (kind : string) (error : DiagnosticCode) : Res :=
  set_trace (note_trace_diagnostic (trace_of r) kind error) r.

(** The trace sink's write of a trace in the form the route may keep. *)
Definition record_trace (c : QueuedCall) (t : ModelInvocationTrace) (queue_item_id : option string) :
    prog Ans (result DiagnosticCode unit) :=
  if negb (qc_trace_sink c) then Ret (Ok tt)
  else
    let* fresh := call FreshTraceId in
    call (RecordTrace (stored_trace (qc_answer_recovery c) t (pd_identity (qc_descriptor c)) queue_item_id fresh)).

Definition set_cache_hit (id : string) (queue_item_id : option string) (model : ModelIdentity) (now : DateTime)
    (t : ModelInvocationTrace) : ModelInvocationTrace :=
  mkTrace id queue_item_id model (it_role_binding t) (it_source t) (it_request_hash t) (it_response_hash t)
    (mkCacheTrace Hit (ct_prompt_cache (it_cache t)) (ct_cached_input_tokens (it_cache t)))
    (it_usage t) (it_timing t) OutcomeSucceeded None (it_audit_refs t) (it_metadata t) now.

(** [traced_cache_hit]. *)
Definition traced_cache_hit (c : QueuedCall) (response : Res) (queue_item_id : option string) : Prog Res :=
  let* id := call FreshTraceId in
  let* now := call UtcNow in
  let t := set_cache_hit id queue_item_id (pd_identity (qc_descriptor c)) now (trace_of response) in
  let response := set_trace t response in
  let* written := record_trace c t (it_queue_item_id t) in
  match written with
  | Ok _ => Ret response
  | Err code => Ret (note_side_effect response "trace_write_failed" code)
  | Panic => Unwind
  end.

(** [load_cached]: an entry for another binding or request is a miss. *)
Definition load_cached (c : QueuedCall) : Fallible (option Res) :=
  let! value := call (CacheLoad (cache_entry c)) in
  match value with
  | None => ok None
  | Some value =>
      if negb (bool_decide (pointer ["trace"; "metadata"; "result_scope"]%string value ≫= as_str = qc_cache_scope c))
         || negb (bool_decide (pointer ["trace"; "request_hash"]%string value ≫= as_str = Some (qc_request_hash c)))
      then ok None
      else lift (let? r := ok_or (from_value value) (Cache CacheFailure) in Ok (Some r))
  end.

(** serde of the optional value [composed_result] sees here. *)
Definition composed_option (provider : ModelProvider) (r : result ModelError (option Res)) :
    result ModelError (option Res) :=
  @composed_result _ (option Res)
    {| to_value o := match o with Some a => to_value a | None => Some VNull end;
       from_value v := match v with VNull => Some None | v => Some <$> from_value v end |} provider r.

(** [cached]: the response, traced and receipted as a hit on [item]. *)
Definition cached (c : QueuedCall) (item : option QueueItem) : Fallible (option Res) :=
  if negb (qc_cache c) then ok None
  else
    let* loaded := load_cached c in
    let! loaded := lift (composed_option (qc_result_owner c) loaded) in
    match loaded with
    | None => ok None
    | Some cached =>
        let* response := traced_cache_hit c cached (qi_item_id <$> item) in
        let* _ := record c ReceiptCacheHit item (Some (set_metadata (it_metadata (trace_of response)) (trace_of cached)))
              None no_timing in
        ok (Some response)
    end.

(** [record_success_diagnostic]: the cache, then the trace; neither fails the
    call. *)
Definition record_success_diagnostic (c : QueuedCall) (response : Res) (queue_item_id : string) :
    Prog (Res * option DiagnosticCode) :=
  let diagnostic := usage_diagnostic (qc_answer_recovery c) (it_usage (trace_of response)) in
  let* stored := (if qc_cache c
            then match to_value response with
                 | Some value => call (CacheStore (cache_entry c) value)
                 | None => Ret (Err (Cache CacheFailure))
                 end
            else Ret (Ok tt)) in
  match stored with
  | Panic => Unwind
  | _ =>
      let '(response, diagnostic) :=
        match stored with
        | Err e => (note_side_effect response "response_cache_write_failed" (ModelError_code e),
                    Some (ModelError_code e))
        | _ => (response, diagnostic)
        end in
      let* written := record_trace c (trace_of response) (Some queue_item_id) in
      match written with
      | Ok _ => Ret (response, diagnostic)
      | Err code => Ret (note_side_effect response "trace_write_failed" code, Some code)
      | Panic => Unwind
      end
  end.

(** [trace_failure]. *)
Definition trace_failure (c : QueuedCall) (queue_item_id : option string) (e : ModelError) : Fallible unit :=
  if negb (qc_trace_sink c) then ok tt
  else
    let* id := call FreshTraceId in
    let* now := call UtcNow in
    let* written := call (RecordTrace
      (mkTrace id queue_item_id (pd_identity (qc_descriptor c)) None None (qc_request_hash c) None
         default_CacheTrace default_UsageTrace default_TimingTrace OutcomeFailed (Some (error_class e)) []
         (object [("binding"%string, opt_value binding_value (qc_binding_identity c))]) now)) in
    match written with
    | Ok _ => ok tt
    | Err code => fail (with_diagnostics e [code])
    | Panic => Unwind
    end.

(** ** The request's state in ledger and queue *)

(** [recovered]: a saved answer of the explicit invocation.  What was paid for
    is never dispatched again. *)
Definition recovered (c : QueuedCall) : Fallible (option Res) :=
  if negb (is_some (qc_invocation_key c)) || is_some (qc_accepted_spend c) then ok None
  else
    let! receipt := call (LedgerInvocation (qc_queue_id c) (qc_invocation c)) in
    match receipt with
    | None => ok None
    | Some r =>
        if negb (bool_decide (sr_binding (rc_reservation r) = qc_attempt_binding c)) then fail conflict
        else
          let capture := call (ContextCapture (sr_reference (rc_reservation r))) in
          if is_some (rc_output r) then
            let! _ := capture in
            match qc_answer_recovery c, rc_recovery r with
            | Retain, Some output =>
                lift (let? a := composed_result (qc_result_owner c) (ok_or (from_value output) storage) in Ok (Some a))
            | _, _ => fail (Queue InvocationCompleted)
            end
          else
            let! _ := if bool_decide (rc_state r = SpendUnknown) then capture else ok tt in
            let! _ := if bool_decide (rc_state r = SpendReleased)
                         && match rc_attempt_limit r with Some limit => limit <=? rc_attempts_used r | None => false end
                      then capture else ok tt in
            ok None
    end.

(** [provider_attempts]: the claims of the item that reached the provider. *)
Fixpoint count_provider_attempts (item_id : string) (claims : list Z) (attempts : Z) : Fallible Z :=
  match claims with
  | [] => ok attempts
  | claim :: claims =>
      let! reference := lift (runtime_reference item_id (Z.to_N claim)) in
      let! receipt := call (LedgerReceipt reference) in
      count_provider_attempts item_id claims
        (match receipt with
         | Some r => if rc_pre_dispatch_released r then attempts else attempts + 1
         | None => attempts
         end)
  end.

Definition provider_attempts (c : QueuedCall) (item : QueueItem) : Fallible Z :=
  if is_some (qc_accepted_spend c) then ok (qi_attempt item)
  else count_provider_attempts (qi_item_id item) (Z.of_nat <$> seq 1 (Z.to_nat (qi_attempt item))) 0.

(** The payload of an item as JSON. *)
Variable payload_value : string → Value.

Definition retry_state (c : QueuedCall) (item : option QueueItem) : Fallible LogicalRetryState :=
  if is_some (qc_invocation_key c) then
    let! receipt := call (LedgerInvocation (qc_queue_id c) (qc_invocation c)) in
    ok (mkRetryState (match receipt with Some r => rc_attempts_used r | None => 0 end)
          (default (logical_max_attempts (qc_config c)) (receipt ≫= rc_attempt_limit)))
  else
    match item with
    | Some item =>
        let! state := lift (logical_retry_state (payload_value (qi_payload item))) in
        let! attempts := provider_attempts c item in
        let! used := lift (ok_or (checked_add u32_max (lr_attempts_used state) attempts) (Queue QueueFailure)) in
        ok (mkRetryState used (lr_max_attempts state))
    | None => ok (mkRetryState 0 (logical_max_attempts (qc_config c)))
    end.

(** The queue payload: an explicit invocation keeps its attempts in the ledger. *)
Definition queue_payload (c : QueuedCall) (state : LogicalRetryState) : string :=
  payload_text (model_queue_payload (qc_capability c) (qc_request_hash c) (qc_descriptor c)
    (if is_some (qc_invocation_key c) then None else Some state)).

Definition enqueue_request (c : QueuedCall) (payload : string) (run_after : option DateTime) (max_attempts : Z)
    (force : bool) : EnqueueRequest :=
  mkEnqueueRequest (qc_queue_id c) (qc_kind c) payload (qc_idempotency_key c) run_after (Some max_attempts) force.

(** [enqueue]: a fresh budget, or the item an identical request already has. *)
Definition enqueue_call (c : QueuedCall) : Fallible EnqueueOutcome :=
  let! outcome := on_queue (call (EnqueueItem
    (enqueue_request c (queue_payload c (mkRetryState 0 (logical_max_attempts (qc_config c)))) None
       (item_max_attempts (qc_config c)) false))) in
  lift (validate_runtime_enqueue outcome).

Definition reenqueue_with_fresh_budget (c : QueuedCall) (current : string) : Fallible EnqueueOutcome :=
  let payload := payload_text (model_queue_payload (qc_capability c) (qc_request_hash c) (qc_descriptor c)
                   (Some (mkRetryState 0 (logical_max_attempts (qc_config c))))) in
  let! outcome := on_queue (call (EnqueueReplacing
    (enqueue_request c payload None (item_max_attempts (qc_config c)) true) current)) in
  lift (validate_runtime_enqueue outcome).

Definition renew_budget (c : QueuedCall) (current : string) : Fallible EnqueueOutcome :=
  if is_some (qc_invocation_key c) then fail (BudgetExhausted AttemptBudgetExhausted)
  else reenqueue_with_fresh_budget c current.

(** [reenqueue_dead_item]: the next item of the chain, after the delay. *)
Definition reenqueue_dead_item (c : QueuedCall) (item : QueueItem) (e : ModelError) (state : LogicalRetryState) :
    Fallible (option EnqueueOutcome) :=
  if bool_decide (qi_status item = Stopped) || (lr_max_attempts state <=? lr_attempts_used state) then ok None
  else
    let remaining := lr_max_attempts state - lr_attempts_used state in
    let! delay := lift (retry_delay_ms (qi_attempt item) (qc_config c) (qi_item_id item) (qc_request_hash c) e) in
    let* now := call UtcNow in
    let* run_after := unwrap (add_millis now delay) in
    let! outcome := on_queue (call (EnqueueReplacing
      (enqueue_request c (queue_payload c state) (Some run_after)
         (Z.max (Z.min remaining (Z.max (mq_retry_attempts (qc_config c)) 1)) 1) true) (qi_item_id item))) in
    lift (let? outcome := validate_runtime_enqueue outcome in Ok (Some outcome)).

(** [continue_chain]: a failure to continue is added to the request's error. *)
Definition continue_chain (c : QueuedCall) (dead : QueueItem) (e : ModelError) : Fallible (option EnqueueOutcome) :=
  let* outcome := (let! state := retry_state c (Some dead) in reenqueue_dead_item c dead e state) in
  Ret (map_err (λ failure, with_diagnostics e (ModelError_code failure :: ModelError_diagnostics failure)) outcome).

(** [reconsider_stopped]: a refusal by the accounting, or an abort that proved
    nothing was sent, does not use up the request. *)
Definition reconsider_stopped (c : QueuedCall) (item : QueueItem) : Fallible (option EnqueueOutcome) :=
  if is_some (qc_accepted_spend c) then ok None
  else
    let! reconsider :=
      match qi_last_error item with
      | Some SpendBudgetExhausted => ok true
      | Some SpendReconciliationRequired =>
          let! receipt := call (LedgerInvocation (qc_queue_id c) (qc_invocation c)) in
          ok (match receipt with Some r => bool_decide (rc_state r = SpendReleased) | None => false end)
      | Some SpendLedgerUnavailable | Some QueueFailure | Some LeaseExpired =>
          let! reference := lift (runtime_reference (qi_item_id item) (Z.to_N (qi_attempt item))) in
          let! receipt := call (LedgerReceipt reference) in
          ok (match receipt with Some r => rc_pre_dispatch_released r | None => true end)
      | _ => ok false
      end in
    if negb reconsider then ok None
    else
      let! state := retry_state c (Some item) in
      if lr_max_attempts state <=? lr_attempts_used state then
        if is_some (qc_invocation_key c) then ok None
        else
          let* now := call UtcNow in
          let! renewed := lift (budget_renewed now item (qc_config c)) in
          if renewed then let! outcome := renew_budget c (qi_item_id item) in ok (Some outcome) else ok None
      else
        let remaining := lr_max_attempts state - lr_attempts_used state in
        let! outcome := on_queue (call (EnqueueReplacing
          (enqueue_request c (queue_payload c state) None (Z.min remaining (item_max_attempts (qc_config c))) true)
          (qi_item_id item))) in
        lift (let? outcome := validate_runtime_enqueue outcome in Ok (Some outcome)).

(** ** Ending an item *)

Definition fail_item (c : QueuedCall) (item : QueueItem) (error : DiagnosticCode) (class : FailureClass)
    (run_after : option DateTime) : prog Ans (result QueueError FailOutcome) :=
  call (FailItem (qi_item_id item) (qc_worker_id c) (mkFailure error (Some class) run_after)).

(** [abort_before_dispatch]: nothing was sent.  The reservation is released and
    the item fails; an item that is no longer this worker's is left alone. *)
Definition abort_before_dispatch (c : QueuedCall) (item : QueueItem) (reference : option string) (e : ModelError) :
    Prog (ModelError * result QueueError FailOutcome) :=
  let* released :=
    match qc_accepted_spend c, reference with
    | None, Some reference => call (LedgerRelease reference)
    | _, _ => Ret (Ok tt)
    end in
  match released with
  | Panic => Unwind
  | _ =>
      let e := match released with Err release_error => release_error | _ => e end in
      let* failed := fail_item c item (ModelError_code e) (error_class e) None in
      Ret (e, match failed with Err (LeaseMismatch _) | Err (NotRunning _) => Ok FailStopped | other => other end)
  end.

(** The abort, then its error: a queue failure takes its place. *)
Definition aborted {A : Type} (c : QueuedCall) (item : QueueItem) (reference : option string) (e : ModelError) :
    Fallible A :=
  let* '(e, failed) := abort_before_dispatch c item reference e in
  let! _ := on_queue (Ret failed) in
  fail e.

(** [note_model_cooldown]. *)
Definition note_model_cooldown (c : QueuedCall) (e : ModelError) (delay_ms : Z) : Fallible unit :=
  let* now := call UtcNow in
  let* until := unwrap (add_millis now (cooldown_ms e delay_ms)) in
  on_queue (call (NoteCooldown (qc_queue_id c) until)).

(** ** The provider call *)

(** [within_timeout]: a call that does not answer fails as a timeout, or never
    returns where the policy sets none. *)
Definition within_timeout (c : QueuedCall) (answer_ : option (result ModelError Res)) : Fallible Res :=
  match answer_ with
  | Some r => Ret r
  | None => if is_some (mq_request_timeout_seconds (qc_config c)) then fail (Timeout HttpTimeout) else Unwind
  end.

(** [dispatch_model]: the transport, the credential boundary, then what the
    runtime may keep. *)
Definition dispatch_model (c : QueuedCall) (provider : ModelProvider) (request : Req) : Fallible Res :=
  let* sent := call (Dispatch request) in
  let* sent := within_timeout c sent in
  match sent with
  | Panic => Unwind
  | _ =>
      let! response := lift (composed_result provider sent) in
      let response := normalize_finish_reason (discard_raw response) in
      match usage_diagnostic (qc_answer_recovery c) (it_usage (trace_of response)) with
      | Some error => ok (note_side_effect response "invalid_reported_cost" error)
      | None => ok response
      end
  end.

(** Evidence that a failed call cost nothing; a timeout is never such. *)
Definition known_zero_error (provider : ModelProvider) (e : ModelError) : bool :=
  match e with
  | Timeout _ => false
  | _ => match mp_failure_charge provider e with KnownZero => true | ChargeUnknown => false end
  end.

(** The metadata of a finished call. *)
Definition settled_metadata (metadata : Value) (entries : list (string * Value)) : Value :=
  let fields := match metadata with VObject fields => fields | other => [("value"%string, other)] end in
  VObject (foldl (λ fs e, set_field e.1 e.2 fs) fields entries).

Definition as_u64_ms (nanos : Z) : Z := (nanos / 1000000) mod (u64_max + 1).

Definition set_settled (item_id request_hash : string) (timing : TimingTrace) (metadata : Value)
    (t : ModelInvocationTrace) : ModelInvocationTrace :=
  mkTrace (it_trace_id t) (Some item_id) (it_model t) (it_role_binding t) (it_source t) request_hash
    (it_response_hash t) (it_cache t) (it_usage t) timing (it_outcome t) (it_error_class t)
    (it_audit_refs t) metadata (it_timestamp t).

(** How the leased part of an attempt ended. *)
Inductive Settled : Type :=
| SettledSucceeded (response : Res) (provider_ms : Z) (completed : result QueueError unit)
| SettledRetryable (e : ModelError) (failed : result QueueError FailOutcome)
| SettledFailed (e : ModelError) (failed : result QueueError FailOutcome).

(** [spend.finish] of an answer, and what is stored of it. *)
Definition save_answer (c : QueuedCall) (reference : string) (response : Res) : Fallible unit :=
  if is_some (qc_accepted_spend c) then ok tt
  else
    let usage := stored_usage (qc_answer_recovery c) (it_usage (trace_of response)) in
    let measured := has_measured_usage usage in
    let! output := lift (match qc_answer_recovery c with
                         | Off => Ok (object [("output_received"%string, VBool true)])
                         | Retain => ok_or (to_value response) storage
                         end) in
    call (LedgerFinish reference (if measured then SpendSettled else SpendUnknown)
            (if measured then Some usage else None) (Some output) (qc_invocation_key c)).

(** The successful end: accounting first, then cache and trace, then the item. *)
Definition settle_success (c : QueuedCall) (item : QueueItem) (clock : AttemptClock) (reference : string)
    (provider_started provider_ms : Z) (response : Res) : Prog Settled :=
  let* total := elapsed (ac_queued_at clock) in
  let queued_ms := as_u64_ms (Z.max 0 (provider_started - ac_queued_at clock)) in
  let throttle_wait_ms := as_u64_ms (ac_throttle_wait clock) in
  let t := trace_of response in
  let timing := mkTimingTrace (Some queued_ms) (Some provider_ms) (Some (as_u64_ms total))
                  (Some (saturating_sub queued_ms throttle_wait_ms)) (Some throttle_wait_ms) in
  let metadata := settled_metadata (it_metadata t)
                    [("spend_receipt", VString reference); ("result_scope", opt_value VString (qc_cache_scope c));
                     ("binding", opt_value binding_value (qc_binding_identity c))]%string in
  let response := set_trace (set_settled (qi_item_id item) (qc_request_hash c) timing metadata t) response in
  let* saved := save_answer c reference response in
  match saved with
  | Panic => Unwind
  | Err e =>
      let* failed := fail_item c item (ModelError_code e) (error_class e) None in
      Ret (SettledFailed e failed)
  | Ok _ =>
      let* '(response, _) := record_success_diagnostic c response (qi_item_id item) in
      let* completed := call (CompleteItem (qi_item_id item) (qc_worker_id c)) in
      Ret (SettledSucceeded response provider_ms completed)
  end.

(** A retryable failure that is known to have cost nothing. *)
Definition settle_retry (c : QueuedCall) (item : QueueItem) (e : ModelError) : Prog Settled :=
  match retry_delay_ms (qi_attempt item) (qc_config c) (qi_item_id item) (qc_request_hash c) e with
  | Panic => Unwind
  | Err e =>
      let* failed := fail_item c item (ModelError_code e) (error_class e) None in
      Ret (SettledFailed e failed)
  | Ok delay_ms =>
      let* cooled := if is_transient e then note_model_cooldown c e delay_ms else ok tt in
      match cooled with
      | Panic => Unwind
      | Err cooldown_error =>
          let* failed := fail_item c item (ModelError_code cooldown_error) ClassQueue None in
          Ret (SettledFailed (with_diagnostics e [ModelError_code cooldown_error]) failed)
      | Ok _ =>
          let* now := call UtcNow in
          let* run_after := unwrap (add_millis now delay_ms) in
          let* failed := fail_item c item (ModelError_code e) (error_class e) (Some run_after) in
          Ret (SettledRetryable e failed)
      end
  end.

(** Any other failure. *)
Definition settle_failure (c : QueuedCall) (item : QueueItem) (known_zero : bool) (e : ModelError) : Prog Settled :=
  let* cooled := if is_transient e then note_model_cooldown c e (mq_retry_base_delay_ms (qc_config c)) else ok tt in
  match cooled with
  | Panic => Unwind
  | Err failure =>
      let* failed := fail_item c item (ModelError_code failure) ClassQueue None in
      Ret (SettledFailed (with_diagnostics e [ModelError_code failure]) failed)
  | Ok _ =>
      let* failed := fail_item c item (if known_zero then ModelError_code e else SpendReconciliationRequired)
                       (if known_zero then error_class e else ClassQueue) None in
      Ret (SettledFailed e failed)
  end.

(** The end of a dispatched attempt. *)
Definition settle_result (c : QueuedCall) (item : QueueItem) (provider : ModelProvider) (clock : AttemptClock)
    (reference : string) (provider_started provider_ms : Z) (result_ : result ModelError Res) : Prog Settled :=
  match result_ with
  | Panic => Unwind
  | Ok response => settle_success c item clock reference provider_started provider_ms response
  | Err e =>
      let* _ := record c ReceiptFailed (Some item) None (Some (ModelError_code e))
                  (mkAttemptTiming None None (Some provider_ms)) in
      let known_zero := known_zero_error provider e in
      let* released := if known_zero && negb (is_some (qc_accepted_spend c))
                       then call (LedgerFinish reference SpendReleased None None None) else ok tt in
      match released with
      | Panic => Unwind
      | Err release_error =>
          let* failed := fail_item c item (ModelError_code release_error) (error_class release_error) None in
          Ret (SettledFailed (with_diagnostics e [ModelError_code release_error]) failed)
      | Ok _ =>
          if known_zero && is_retryable e (qc_config c) then settle_retry c item e
          else settle_failure c item known_zero e
      end
  end.

(** [settle]: the running receipt, a last look at the lease, the provider call
    and the record of its outcome. *)
Definition settle (c : QueuedCall) (item : QueueItem) (provider : ModelProvider) (clock : AttemptClock)
    (reference : string) : Prog Settled :=
  let throttle_ms := millis_of (ac_attempt_throttle clock) in
  let* waited_ms := elapsed_ms (ac_attempt_started clock) in
  let* _ := record c ReceiptRunning (Some item) None None
              (mkAttemptTiming (Some (saturating_sub waited_ms throttle_ms)) (Some throttle_ms) None) in
  let* lost := call OwnershipLost in
  if lost : bool then
    let* '(e, failed) := abort_before_dispatch c item (Some reference) queue_error in
    Ret (SettledFailed e failed)
  else
    let* renewed := call (HeartbeatItem (qi_item_id item) (qc_worker_id c) (mq_lease_seconds (qc_config c))) in
    match renewed with
    | Panic => Unwind
    | Err _ =>
        let* '(e, failed) := abort_before_dispatch c item (Some reference) queue_error in
        Ret (SettledFailed e failed)
    | Ok _ =>
        let* provider_started := call InstantNow in
        let* result_ := dispatch_model c provider (qc_request c) in
        let* provider_ms := elapsed_ms provider_started in
        settle_result c item provider clock reference provider_started provider_ms result_
    end.

(** ** The attempt *)

(** Up to [n] renewals; after the first failure the lease counts as lost. *)
Fixpoint renew {A : Type} (item_id worker : string) (lease_seconds : Z) (n : nat) (k : bool → Prog A) : Prog A :=
  match n with
  | O => k false
  | S n =>
      Do (HeartbeatItem item_id worker lease_seconds) (λ r,
        match r with
        | Ok _ => renew item_id worker lease_seconds n k
        | Err _ => k true
        | Panic => Unwind
        end)
  end.

(** [holding_lease]. *)
Fixpoint holding_lease {A : Type} (item_id worker : string) (lease_seconds : Z) (lost : bool) (work : Prog A) :
    Prog A :=
  let between (k : bool → Prog A) : Prog A :=
    if lost then k true else Do RenewalsDue (λ n, renew item_id worker lease_seconds n k) in
  match work with
  | Ret a => between (λ _, Ret a)
  | Unwind => Unwind
  | Do op k =>
      between (λ lost,
        match op as op return (Ans op → Prog A) → Prog A with
        | OwnershipLost => λ k, holding_lease item_id worker lease_seconds lost (k lost)
        | op => λ k, Do op (λ a, holding_lease item_id worker lease_seconds lost (k a))
        end k)
  end.

(** What the reservation asks of the ledger; [input_identity] is
    [handoff_input_identity] of the call. *)
Variable handoff_input_identity : QueuedCall → result ModelError string.

Definition reserve_attempt (c : QueuedCall) (item : QueueItem) (reference : string) : Fallible bool :=
  match qc_accepted_spend c with
  | Some handoff =>
      let! identity := lift (handoff_input_identity c) in
      let! _ := call (LedgerAcquireHandoff handoff (qc_queue_id c) identity
                        (qi_item_id item +:+ ":" +:+ pretty (Z.to_N (qi_attempt item)))) in
      ok true
  | None =>
      let r := mkReservation reference (qc_queue_id c) (qc_invocation c) (qc_attempt_binding c)
                 (mq_provider_request_limit (qc_config c)) in
      if is_some (qc_invocation_key c)
      then call (LedgerReserveExplicit r (logical_max_attempts (qc_config c)))
      else call (LedgerReserve r)
  end.

(** The item is completed with an answer that was already paid for. *)
Definition complete_recovered (c : QueuedCall) (item : QueueItem) (response : Res) : Fallible Settled :=
  let* completed := call (CompleteItem (qi_item_id item) (qc_worker_id c)) in
  ok (SettledSucceeded response 0 completed).

(** The lease is still this worker's. *)
Definition confirm_lease (c : QueuedCall) (item : QueueItem) : Fallible unit :=
  let* lost := call OwnershipLost in
  if lost : bool then fail queue_error
  else on_queue (call (HeartbeatItem (qi_item_id item) (qc_worker_id c) (mq_lease_seconds (qc_config c)))).

(** A reservation that was refused: the answer may be there by now. *)
Definition refused_work (c : QueuedCall) (item : QueueItem) (e : ModelError) : Fallible Settled :=
  let* again := recovered c in
  match again with
  | Panic => Unwind
  | Ok (Some response) => complete_recovered c item response
  | Ok None => aborted c item None e
  | Err recovery_error => aborted c item None (with_diagnostics e [ModelError_code recovery_error])
  end.

(** The rest of the leased work, from the ledger's answer on. *)
Definition reserved_work (c : QueuedCall) (item : QueueItem) (reference : string) (grant : bool)
    (provider : ModelProvider) (clock : AttemptClock) (reserve : result ModelError bool) : Fallible Settled :=
  let accepted := match reserve with Ok true => true | _ => false end in
  let* captured := if accepted then call (ContextCapture reference) else ok tt in
  match captured with
  | Panic => Unwind
  | Err e => aborted c item (Some reference) e
  | Ok _ =>
      let* ownership := confirm_lease c item in
      match ownership with
      | Panic => Unwind
      | Err e => aborted c item (if accepted then Some reference else None) e
      | Ok _ =>
          if negb accepted then refused_work c item (match reserve with Err e => e | _ => conflict end)
          else
            let* charged := if grant then call ChargeRate else ok tt in
            match charged with
            | Panic => Unwind
            | Err e => aborted c item (Some reference) e
            | Ok _ =>
                let* settled := settle c item provider clock reference in
                ok settled
            end
      end
  end.

(** The work done under the lease. *)
Definition leased_work (c : QueuedCall) (item : QueueItem) (reference : string) (grant : bool)
    (provider : ModelProvider) (clock : AttemptClock) : Fallible Settled :=
  let* found := recovered c in
  match found with
  | Panic => Unwind
  | Err e => aborted c item None e
  | Ok (Some response) => complete_recovered c item response
  | Ok None =>
      let* reserve := reserve_attempt c item reference in
      match reserve with
      | Panic => Unwind
      | reserve => reserved_work c item reference grant provider clock reserve
      end
  end.

(** How an attempt ended for its caller. *)
Inductive AttemptEnd : Type :=
| AttemptSucceeded (response : Res)
| AttemptRetry (next : option EnqueueOutcome)
| NotClaimed
| AttemptMissing.

(** The attempt while it holds its model slot: claim, reservation, settlement. *)
Definition attempt_leased (c : QueuedCall) (item_id : string) (grant : bool) (provider : ModelProvider)
    (clock : AttemptClock) : Fallible (AttemptEnd + QueueItem * Settled) :=
  let! current := on_queue (call (GetItem item_id)) in
  let! current :=
    match current with
    | Some item =>
        match qi_status item, qi_lease_until item with
        | Running, Some until =>
            let* now := call UtcNow in
            if until <? now then
              let! _ := on_queue (call (ReclaimExpired (qc_queue_id c))) in
              on_queue (call (GetItem item_id))
            else ok current
        | _, _ => ok current
        end
    | None => ok current
    end in
  let! next :=
    match current with
    | Some item =>
        if match qi_status item with Failed | Dead => true | _ => false end
           && bool_decide (qi_last_error item = Some LeaseExpired)
        then reconsider_stopped c item else ok None
    | None => ok None
    end in
  match next with
  | Some next => ok (inl (AttemptRetry (Some next)))
  | None =>
      let* claimed := call (ClaimItem item_id (qc_worker_id c) (mq_lease_seconds (qc_config c))
                              (Some (Z.max (mq_max_in_flight (qc_config c)) 1))) in
      match claimed with
      | Panic => Unwind
      | Err (NotFound _) => ok (inl AttemptMissing)
      | Err _ => fail queue_error
      | Ok None => ok (inl NotClaimed)
      | Ok (Some item) =>
          let* reference :=
            (let! _ := call ContextClear in
             lift (match qc_accepted_spend c with
                   | Some handoff => Ok (sr_reference (ah_reservation handoff))
                   | None => runtime_reference (qi_item_id item) (Z.to_N (qi_attempt item))
                   end)) in
          match reference with
          | Panic => Unwind
          | Err e => aborted c item None e
          | Ok reference =>
              let! settled := holding_lease (qi_item_id item) (qc_worker_id c) (mq_lease_seconds (qc_config c)) false
                                (leased_work c item reference grant provider clock) in
              ok (inr (item, settled))
          end
      end
  end.

(** A queue failure while the outcome was written is added to the error. *)
Definition with_queue_failure {A : Type} (e : ModelError) (r : result QueueError A) : Fallible A :=
  Ret (map_err (λ _, with_diagnostics e [ModelError_code queue_error]) r).

(** The rest, without the slot. *)
Definition attempt_report (c : QueuedCall) (item : QueueItem) (settled : Settled) : Fallible AttemptEnd :=
  match settled with
  | SettledSucceeded response provider_ms completed =>
      let response := match completed with
                      | Err e => note_side_effect response "queue_complete_failed" (QueueError_code e)
                      | _ => response
                      end in
      let* _ := record c ReceiptSucceeded (Some item) (Some (trace_of response)) None
                  (mkAttemptTiming None None (Some provider_ms)) in
      ok (AttemptSucceeded response)
  | SettledRetryable e failed =>
      let! outcome := with_queue_failure e failed in
      if bool_decide (outcome = RetryScheduled) then ok (AttemptRetry None)
      else
        let* dead := call (GetItem (qi_item_id item)) in
        let! dead := with_queue_failure e dead in
        let dead := default item dead in
        let! next := continue_chain c dead e in
        match next with
        | Some next => ok (AttemptRetry (Some next))
        | None =>
            let! _ := trace_failure c (Some (qi_item_id dead)) e in
            fail (exhausted_request_error e)
        end
  | SettledFailed e failed =>
      let! _ := with_queue_failure e failed in
      let! _ := trace_failure c (Some (qi_item_id item)) e in
      fail e
  end.

(** [run_attempt]; [slot] says whether a model slot is held. *)
Definition run_attempt (c : QueuedCall) (item_id : string) (slot grant : bool) (provider : ModelProvider)
    (clock : AttemptClock) : Fallible AttemptEnd :=
  let* leased := attempt_leased c item_id grant provider clock in
  let* _ := if slot then call DropSlot else Ret tt in
  let! leased := lift leased in
  match leased with
  | inl ended => ok ended
  | inr (item, settled) => attempt_report c item settled
  end.

(** ** The caller *)

Inductive Followed : Type :=
| Answer (response : Res)
| Moved
| Waiting.

(** [waiting_on_item]: follow the request's item while this caller cannot run
    it; the second part is the item followed from here on. *)
Definition waiting_on_item (c : QueuedCall) (enqueue : EnqueueOutcome) : Fallible (Followed * EnqueueOutcome) :=
  let! found := recovered c in
  match found with
  | Some output => ok (Answer output, enqueue)
  | None =>
      let! current := on_queue (call (GetItem (qi_item_id (eo_item enqueue)))) in
      match current with
      | None => let! enqueue := enqueue_call c in ok (Moved, enqueue)
      | Some current =>
          let! found := recovered c in
          match found with
          | Some output => ok (Answer output, enqueue)
          | None =>
              let! next :=
                if match qi_status current with Dead | Failed => true | _ => false end
                   && bool_decide (qi_last_error current = Some LeaseExpired)
                then reconsider_stopped c current else ok None in
              match next with
              | Some next => ok (Moved, next)
              | None =>
                  match qi_status current with
                  | Stopped =>
                      let! next := reconsider_stopped c current in
                      match next with
                      | Some next => ok (Moved, next)
                      | None => fail (dead_item_retry_error current)
                      end
                  | Dead =>
                      let! renewed :=
                        if is_some (qc_invocation_key c) then ok false
                        else let* now := call UtcNow in lift (budget_renewed now current (qc_config c)) in
                      if renewed : bool then
                        let! next := renew_budget c (qi_item_id current) in ok (Moved, next)
                      else
                        let dead_error := dead_item_retry_error current in
                        let! next := continue_chain c current dead_error in
                        match next with
                        | Some next => ok (Waiting, next)
                        | None => fail (exhausted_request_error dead_error)
                        end
                  | Succeeded =>
                      let! hit := cached c (Some current) in
                      match hit with
                      | Some response => ok (Answer response, enqueue)
                      | None => let! next := renew_budget c (qi_item_id current) in ok (Moved, next)
                      end
                  | Pending | Running | Failed => ok (Waiting, enqueue)
                  end
              end
          end
      end
  end.

(** [wait_for_model_cooldown]. *)
Fixpoint wait_for_model_cooldown (fuel : nat) (queue_id : string) : Fallible unit :=
  match fuel with
  | O => Unwind
  | S fuel =>
      let! until := on_queue (call (CooldownUntil queue_id)) in
      match until with
      | None => ok tt
      | Some until =>
          let* now := call UtcNow in
          if until <=? now then ok tt
          else let* _ := call (Sleep (until - now)) in wait_for_model_cooldown fuel queue_id
      end
  end.

Definition RATE_WAIT_SLICE : Z := 250000000.

(** What the caller's loop carries from round to round. *)
Record Round : Type := mkRound {
  rd_enqueue : EnqueueOutcome;
  rd_waiting : option (Z * Z);
  rd_throttle_wait : Z;
}.

(** One round of the loop of [run_queued]; [admission] says whether the runtime
    has one. *)
Definition queued_round (fuel : nat) (c : QueuedCall) (admission : bool) (provider : ModelProvider) (queued_at : Z)
    (s : Round) : Fallible (Res + Round) :=
  let! found := recovered c in
  match found with
  | Some output => ok (inl output)
  | None =>
      let! hit := cached c (Some (eo_item (rd_enqueue s))) in
      match hit with
      | Some response => ok (inl response)
      | None =>
          let* '(attempt_started, attempt_throttle) :=
            match rd_waiting s with
            | Some w => Ret w
            | None => let* now := call InstantNow in Ret (now, 0)
            end in
          let! _ := if admission then call (AcquireSlot (qc_queue_id c) (Z.max (mq_max_in_flight (qc_config c)) 1))
                    else ok tt in
          let* throttle_started := call InstantNow in
          let* rate := (let! _ := wait_for_model_cooldown fuel (qc_queue_id c) in
                        call (CheckRate (qc_queue_id c) (qc_config c) (qc_request c))) in
          let drop_slot := if admission then call DropSlot else Ret tt in
          match rate with
          | Panic => Unwind
          | Err e => let* _ := drop_slot in fail e
          | Ok (RateWait wait) =>
              let* _ := drop_slot in
              let* _ := call (Sleep (Z.min wait RATE_WAIT_SLICE)) in
              let* slice := elapsed throttle_started in
              let! '(followed, enqueue) := waiting_on_item c (rd_enqueue s) in
              match followed with
              | Answer response => ok (inl response)
              | _ => ok (inr (mkRound enqueue (Some (attempt_started, attempt_throttle + slice))
                                (rd_throttle_wait s + slice)))
              end
          | Ok (Cleared grant) =>
              let* throttled := elapsed throttle_started in
              let throttle_wait := rd_throttle_wait s + throttled in
              let! ended := run_attempt c (qi_item_id (eo_item (rd_enqueue s))) admission grant provider
                              (mkAttemptClock queued_at attempt_started (attempt_throttle + throttled) throttle_wait) in
              let next enqueue := mkRound enqueue None throttle_wait in
              match ended with
              | AttemptSucceeded response => ok (inl response)
              | AttemptRetry (Some enqueue) => ok (inr (next enqueue))
              | AttemptRetry None => ok (inr (next (rd_enqueue s)))
              | AttemptMissing => let! enqueue := enqueue_call c in ok (inr (next enqueue))
              | NotClaimed =>
                  let! '(followed, enqueue) := waiting_on_item c (rd_enqueue s) in
                  match followed with
                  | Answer response => ok (inl response)
                  | Moved => ok (inr (next enqueue))
                  | Waiting => let* _ := call (Sleep 25000000) in ok (inr (next enqueue))
                  end
              end
          end
      end
  end.

(** The loop: [fuel] rounds. *)
Fixpoint queued_loop (fuel : nat) (c : QueuedCall) (admission : bool) (provider : ModelProvider) (queued_at : Z)
    (s : Round) : Fallible Res :=
  match fuel with
  | O => Unwind
  | S fuel' =>
      let! ended := queued_round fuel c admission provider queued_at s in
      match ended with
      | inl response => ok response
      | inr s => queued_loop fuel' c admission provider queued_at s
      end
  end.

(** A terminal duplicate found at the start: the item the call goes on with. *)
Definition join_terminal (c : QueuedCall) (enqueue : EnqueueOutcome) : Fallible EnqueueOutcome :=
  let! next :=
    if bool_decide (eo_disposition enqueue = TerminalDuplicate) && bool_decide (qi_status (eo_item enqueue) = Dead)
    then reconsider_stopped c (eo_item enqueue) else ok None in
  let enqueue := default enqueue next in
  if negb (bool_decide (eo_disposition enqueue = TerminalDuplicate)) then ok enqueue
  else
    let item := eo_item enqueue in
    match qi_status item with
    | Stopped =>
        let! next := reconsider_stopped c item in
        match next with
        | Some next => ok next
        | None => fail (dead_item_retry_error item)
        end
    | Dead =>
        let! renewed :=
          if is_some (qc_invocation_key c) then ok false
          else let* now := call UtcNow in lift (budget_renewed now item (qc_config c)) in
        if renewed : bool then renew_budget c (qi_item_id item)
        else
          let dead_error := dead_item_retry_error item in
          let! next := continue_chain c item dead_error in
          match next with
          | Some next => ok next
          | None => fail (exhausted_request_error dead_error)
          end
    | Succeeded => renew_budget c (qi_item_id item)
    | Pending | Running | Failed => ok enqueue
    end.

(** [run_queued] after its call is set up and is not a job. *)
Definition run_direct (fuel : nat) (c : QueuedCall) (admission : bool) (provider : ModelProvider) : Fallible Res :=
  let! hit := cached c None in
  match hit with
  | Some response => ok response
  | None =>
      let! found := recovered c in
      match found with
      | Some output => ok output
      | None =>
          let* queued_at := call InstantNow in
          let! enqueue := enqueue_call c in
          let* _ := record c ReceiptQueued (Some (eo_item enqueue)) None None no_timing in
          let! found := recovered c in
          match found with
          | Some output => ok output
          | None =>
              let! enqueue := join_terminal c enqueue in
              queued_loop fuel c admission provider queued_at (mkRound enqueue None 0)
          end
      end
  end.

(** ** Durable jobs *)

(** [holding_job_lease]: heartbeats of the job between the calls of the work.
    Before dispatch a cancelled or failed heartbeat ends the work; afterwards
    its errors are collected, one per code, and a lost lease ends them. *)
Fixpoint job_renew {A : Type} (before_dispatch : bool) (n : nat) (fenced : bool) (monitoring : list ModelError)
    (stop : ModelError → Prog A) (k : bool → list ModelError → Prog A) : Prog A :=
  match n with
  | O => k fenced monitoring
  | S n =>
      if fenced then k fenced monitoring
      else
        Do JobHeartbeat (λ r,
          match r with
          | Panic => Unwind
          | Ok cancelled =>
              if before_dispatch && cancelled then stop (Queue InvocationCompleted)
              else job_renew before_dispatch n fenced monitoring stop k
          | Err e =>
              if before_dispatch then stop e
              else
                job_renew before_dispatch n (bool_decide (ModelError_code e = QueueFailure))
                  (if existsb (λ cause, bool_decide (ModelError_code cause = ModelError_code e)) monitoring
                   then monitoring else monitoring ++ [e]) stop k
          end)
  end.

Fixpoint holding_job_lease {A : Type} (before_dispatch fenced : bool) (monitoring : list ModelError)
    (work : Fallible A) : Prog (result ModelError A * list ModelError) :=
  match work with
  | Ret r => Ret (r, monitoring)
  | Unwind => Unwind
  | Do op k =>
      Do RenewalsDue (λ n,
        job_renew before_dispatch n fenced monitoring (λ e, Ret (Err e, monitoring)) (λ fenced monitoring,
          Do op (λ a, holding_job_lease before_dispatch fenced monitoring (k a))))
  end.

(** [combine_attempt_errors]. *)
Definition combine_attempt_errors {A : Type} (outcome : result ModelError A) (diagnostics : list ModelError) :
    result ModelError A :=
  let codes errors := flat_map (λ e, ModelError_code e :: ModelError_diagnostics e) errors in
  match outcome with
  | Err e => Err (with_diagnostics e (codes diagnostics))
  | Ok a =>
      match diagnostics with
      | [] => Ok a
      | e :: rest => Err (with_diagnostics e (codes rest))
      end
  | Panic => Panic
  end.

(** The wait for a slot, the end of the cooldown and rate budget. *)
Fixpoint job_admission (fuel : nat) (c : QueuedCall) : Fallible bool :=
  match fuel with
  | O => Unwind
  | S fuel' =>
      let! _ := call (AcquireSlot (qc_queue_id c) (mq_max_in_flight (qc_config c))) in
      let* rate := (let! _ := wait_for_model_cooldown fuel (qc_queue_id c) in
                    call (CheckRate (qc_queue_id c) (qc_config c) (qc_request c))) in
      match rate with
      | Panic => Unwind
      | Err e => let* _ := call DropSlot in fail e
      | Ok (Cleared grant) => ok grant
      | Ok (RateWait wait) =>
          let* _ := call DropSlot in
          let* _ := call (Sleep (Z.min wait RATE_WAIT_SLICE)) in
          job_admission fuel' c
      end
  end.

(** The admission while the candidate stays eligible; a slot the abandoned
    admission holds goes with it. *)
Fixpoint check_eligible {A : Type} (n : nat) (stop : ModelError → Fallible A) (k : Fallible A) : Fallible A :=
  match n with
  | O => k
  | S n =>
      Do JobEligible (λ r,
        match r with
        | Panic => Unwind
        | Err e => stop e
        | Ok false => stop (Queue InvocationCompleted)
        | Ok true => check_eligible n stop k
        end)
  end.

Fixpoint while_eligible {A : Type} (work : Fallible A) : Fallible A :=
  match work with
  | Ret r => Ret r
  | Unwind => Unwind
  | Do op k => Do RenewalsDue (λ n, check_eligible n fail (Do op (λ a, while_eligible (k a))))
  end.

(** The preparation of a claimed job, all before any transport: the request
    read again, the receipts, the provider's own preparation, the lease, the
    rate budget and the admission owner's word on the credential. *)
Definition prepare_job (c : QueuedCall) (payload : Bytes) (reference : string) (attempt : Z) (grant : bool) :
    Fallible (Req * ModelProvider * result ModelError unit) :=
  let! '(request, hash) := call (DecodeRequest payload) in
  if negb (bool_decide (hash = qc_request_hash c)) then fail (InvalidRequest InvalidConfiguration)
  else
    let! _ := call (ContextCapture reference) in
    let* _ := record_attempt c ReceiptQueued (Some (reference, 0)) None None no_timing in
    let* _ := record_attempt c ReceiptRunning (Some (reference, attempt)) None None no_timing in
    let! provider := call PrepareCall in
    let! cancelled := call JobHeartbeat in
    if cancelled : bool then fail (Queue InvocationCompleted)
    else
      let! _ := if grant then call ChargeRate else ok tt in
      let* admission := call (JobAdmit (mp_credential_fingerprint provider)) in
      match admission with
      | Ok _ => ok (request, provider, Ok tt)
      | Err e => ok (request, provider, Err e)
      | Panic => Unwind
      end.

(** For a failure that cost nothing and may be tried again, the wait before
    the job's retry: the result, and an error of that bookkeeping. *)
Definition job_retry_wait (c : QueuedCall) (provider : ModelProvider) (reference : string)
    (result_ : result ModelError Res) (panicked : bool) : Fallible (result ModelError Res * option ModelError * bool) :=
  match result_ with
  | Err e =>
      if negb panicked && known_zero_error provider e && is_retryable e (qc_config c) then
        let* allowed := call (JobCanRetry (logical_max_attempts (qc_config c))) in
        match allowed with
        | Panic => Unwind
        | Err side => ok (result_, Some side, panicked)
        | Ok false => ok (result_, None, panicked)
        | Ok true =>
            let! attempt := call JobAttempt in
            let! delay := lift (retry_delay_ms attempt (qc_config c) reference (qc_request_hash c) e) in
            let* cooled := if is_transient e then note_model_cooldown c e delay else ok tt in
            match cooled with
            | Panic => Unwind
            | Err side => ok (result_, Some side, panicked)
            | Ok _ => let* _ := call (Sleep (delay * 1000000)) in ok (result_, None, panicked)
            end
        end
      else ok (result_, None, panicked)
  | _ => ok (result_, None, panicked)
  end.

(** The job's result of a provider's answer, and whether its task panicked. *)
Definition job_result (c : QueuedCall) (provider : ModelProvider) (sent : option (result ModelError Res)) :
    Prog (result ModelError Res * bool) :=
  match sent with
  | Some Panic => Ret (Err (Queue QueueFailure), true)
  | _ =>
      let* sent := within_timeout c sent in
      let r := let? response := composed_result provider sent in
               let response := normalize_finish_reason (discard_raw response) in
               Ok (match usage_diagnostic (qc_answer_recovery c) (it_usage (trace_of response)) with
                   | Some error => note_side_effect response "invalid_reported_cost" error
                   | None => response
                   end) in
      Ret (match r with Panic => (Err (Queue QueueFailure), true) | r => (r, false) end)
  end.

(** The transport of a job. *)
Definition job_transport (c : QueuedCall) (provider : ModelProvider) (request : Req) (reference : string) :
    Fallible (result ModelError Res * option ModelError * bool) :=
  let* sent := call (Dispatch request) in
  let* '(result_, panicked) := job_result c provider sent in
  job_retry_wait c provider reference result_ panicked.

(** The trace a job's answer is stored with. *)
Definition set_job_trace (c : QueuedCall) (reference : string) (r : Res) : Res :=
  let t := trace_of r in
  let metadata := settled_metadata (it_metadata t)
                    [("spend_receipt", VString reference);
                     ("binding", opt_value binding_value (qc_binding_identity c))]%string in
  set_trace (mkTrace (it_trace_id t) (it_queue_item_id t) (it_model t) (it_role_binding t) (it_source t)
               (qc_request_hash c) (it_response_hash t) (it_cache t) (it_usage t) (it_timing t) (it_outcome t)
               (it_error_class t) (it_audit_refs t) metadata (it_timestamp t)) r.

(** What the job's accounting is told of a result. *)
Definition job_evidence (c : QueuedCall) (known_zero : bool) (r : result ModelError Res) :
    result ModelError (SpendState * option UsageTrace * option Value * option DiagnosticCode) :=
  match r with
  | Ok response =>
      let usage := stored_usage (qc_answer_recovery c) (it_usage (trace_of response)) in
      let measured := has_measured_usage usage in
      let? value := ok_or (to_value response) storage in
      Ok (if measured then SpendSettled else SpendUnknown, if measured then Some usage else None, Some value, None)
  | Err e => Ok (if known_zero then SpendReleased else SpendUnknown, None, None, Some (ModelError_code e))
  | Panic => Panic
  end.

(** The end of a dispatched job. *)
Definition job_settle (c : QueuedCall) (provider : ModelProvider) (reference : string) (attempt provider_started : Z)
    (transport : result ModelError Res * option ModelError * bool) (monitoring : list ModelError) : Fallible Res :=
  let '(result_, side_error, panicked) := transport in
  let known_zero := match result_ with Err e => negb panicked && known_zero_error provider e | _ => false end in
  let retry := match result_ with
               | Err e => known_zero && negb (is_some side_error) && is_retryable e (qc_config c)
               | _ => false
               end in
  let side := match side_error with Some e => [e] | None => [] end in
  let result_ := match result_ with Ok r => Ok (set_job_trace c reference r) | r => r end in
  let! '(state, usage, output, failure) := lift (job_evidence c known_zero result_) in
  let* finished := call (JobFinish state usage output failure retry) in
  match finished with
  | Panic => Unwind
  | Err e => lift (combine_attempt_errors result_ (e :: side ++ monitoring))
  | Ok _ =>
      let* outcome :=
        match result_ with
        | Panic => Unwind
        | Ok response =>
            let* '(response, diagnostic) := record_success_diagnostic c response reference in
            let* ms := elapsed provider_started in
            let* _ := record_attempt c ReceiptSucceeded (Some (reference, attempt)) (Some (trace_of response)) None
                        (mkAttemptTiming None None (Some (as_u64_ms ms))) in
            Ret (match diagnostic with Some code => Err (Queue code) | None => Ok response end)
        | Err e =>
            let* ms := elapsed provider_started in
            let* _ := record_attempt c ReceiptFailed (Some (reference, attempt)) None (Some (ModelError_code e))
                        (mkAttemptTiming None None (Some (as_u64_ms ms))) in
            let* traced := trace_failure c None e in
            Ret (match traced with Err trace_error => Err trace_error | _ => Err e end)
        end in
      lift (combine_attempt_errors outcome (side ++ monitoring))
  end.

(** [run_job]. *)
Definition run_job (fuel : nat) (c : QueuedCall) (admission : bool) (provider : ModelProvider) : Fallible Res :=
  let* fresh := call FreshItemId in
  let! reference := lift (SpendReceiptRef_new ("job:" +:+ fresh)) in
  let r := mkReservation reference (qc_queue_id c) (qc_invocation c) (qc_attempt_binding c)
             (mq_provider_request_limit (qc_config c)) in
  let! done_ := call (JobRecover r) in
  if done_ : bool then fail (Queue InvocationCompleted)
  else if negb admission then fail storage
  else
    let! grant := while_eligible (job_admission fuel c) in
    let* outcome :=
      (let! payload := call (JobClaim r (logical_max_attempts (qc_config c))) in
       match payload with
       | None => fail (Queue InvocationCompleted)
       | Some payload =>
           let! attempt := call JobAttempt in
           let* '(prepared, monitoring) :=
             holding_job_lease true false [] (prepare_job c payload reference attempt grant) in
           match prepared with
           | Panic => Unwind
           | Ok (_, _, Err e) =>
               let! _ := call (JobFinish SpendReleased None None (Some (ModelError_code e)) false) in
               fail e
           | Err e =>
               let! _ := (match mp_failure_charge provider e with
                          | KnownZero => call (JobFinish SpendReleased None None (Some (ModelError_code e)) false)
                          | ChargeUnknown => call JobRelease
                          end) in
               fail e
           | Ok (_, _, Panic) => Unwind
           | Ok (request, prepared_provider, Ok _) =>
               let* provider_started := call InstantNow in
               let* '(transport, monitoring) :=
                 holding_job_lease false false monitoring (job_transport c prepared_provider request reference) in
               let! transport := lift transport in
               job_settle c prepared_provider reference attempt provider_started transport monitoring
           end
       end) in
    let* _ := call DropSlot in
    Ret outcome.

(** ** Setting a call up *)

(** JSON and SHA-256 of the tuples that identify a call. *)
Record CallHashes : Type := mkCallHashes {
  hash_request : Req → result ModelError string;
  request_json : Req → option Value;
  hash_provider : ProviderDescriptor → option BindingIdentity → option string → string;
  hash_cache_scope : string → string;
  hash_attempt : string → ProviderDescriptor → option BindingIdentity → string → string;
  hash_invocation : BindingIdentity → string → string;
  hash_key : string → string;
  input_budget_units : Req → Z;
}.

(** Everything a queued provider carries besides its inner provider; the parts
    that are only called are present or absent. *)
Record QueueRuntime : Type := mkQueueRuntime {
  rt_trace_sink : bool;
  rt_receipt_sink : bool;
  rt_admission : bool;
  rt_answer_recovery : AnswerRecovery;
  rt_accepted_spend : option AcceptedSpendHandoff;
  rt_job : bool;
  rt_invocation : option string;
  rt_response_cache : bool;
  rt_queue_id : option string;
  rt_binding_identity : option BindingIdentity;
  rt_worker_id : string;
  rt_config : ModelQueueConfig;
}.

(** [QueueRuntime::cache]: the explicit cache or the configured directory, and
    none where answers are not kept. *)
Definition runtime_cache (rt : QueueRuntime) : bool :=
  match rt_answer_recovery rt with
  | Off => false
  | Retain => rt_response_cache rt || is_some (mq_response_cache_dir (rt_config rt))
  end.

Definition queued_call (hashes : CallHashes) (rt : QueueRuntime) (descriptor : ProviderDescriptor)
    (capability : ModelCapability) (kind : string) (request : Req) (provider : ModelProvider) :
    result ModelError QueuedCall :=
  let queue_id := default (ProviderDescriptor_queue_id descriptor) (rt_queue_id rt) in
  let? request_hash := hash_request hashes request in
  let? request_value := ok_or (request_json hashes request) (InvalidRequest InvalidConfiguration) in
  let binding := rt_binding_identity rt in
  let descriptor := mkDescriptor (pd_identity descriptor) (pd_provider_class descriptor) (pd_capabilities descriptor)
                      (pd_auth_mode descriptor)
                      (object [("configuration"%string, pd_metadata descriptor);
                               ("binding"%string, opt_value binding_value binding)]) in
  let provider_identity := hash_provider hashes descriptor binding (mp_credential_fingerprint provider) in
  let attempt_binding := hash_attempt hashes kind descriptor binding request_hash in
  let? invocation :=
    match rt_invocation rt with
    | Some invocation =>
        let? binding := ok_or binding (InvalidRequest BindingIdentityIsRequired) in
        Ok (hash_invocation hashes binding invocation)
    | None => Ok attempt_binding
    end in
  let cache := negb (is_some (rt_invocation rt)) && negb (is_some (rt_accepted_spend rt)) && runtime_cache rt in
  let idempotency_key :=
    if negb (is_some (rt_accepted_spend rt)) && (is_some (rt_invocation rt) || cache)
    then Some (queue_id +:+ ":" +:+ provider_identity +:+ ":" +:+ request_hash +:+ ":" +:+ hash_key hashes invocation)
    else None in
  Ok (mkQueuedCall (rt_accepted_spend rt) (rt_answer_recovery rt) invocation (rt_invocation rt) attempt_binding
        (rt_worker_id rt) (rt_config rt) queue_id descriptor provider capability kind binding
        (Some (hash_cache_scope hashes provider_identity)) cache (rt_trace_sink rt) (rt_receipt_sink rt)
        (input_budget_units hashes request) request request_hash request_value idempotency_key).

(** [run_queued]. *)
Definition run_queued (debug_assertions : bool) (fuel : nat) (hashes : CallHashes) (rt : QueueRuntime)
    (descriptor : ProviderDescriptor) (capability : ModelCapability) (kind : string) (request : Req)
    (provider : ModelProvider) : Fallible Res :=
  let* now := call UtcNow in
  let! _ := lift (ModelQueueConfig_validate debug_assertions now (rt_config rt)) in
  let! _ := lift (mp_validate_configuration provider) in
  let! c := lift (queued_call hashes rt descriptor capability kind request provider) in
  let! _ := if is_some (mq_request_debug_dir (qc_config c))
            then call (DebugStore (cache_entry c) (qc_request_value c)) else ok tt in
  if rt_job rt then run_job fuel c (rt_admission rt) provider
  else run_direct fuel c (rt_admission rt) provider.

End Executor.
