(* ===== verification/ExecutorProofs.v ===== *)
(** The attempt of a queued call against its monitor.

    [Ghost] is what an observer of the calls of one attempt knows: the claimed
    item, the accepted reservation, whether the lease was confirmed since,
    whether the provider was called and with what evidence, and which calls
    settled the accounting and the item.  [watch] refuses the calls that must
    not happen; [run_attempt_safe] shows that no attempt makes one. *)

From Stdlib Require Import ZArith Lia.
From stdpp Require Import base gmap strings list pretty.
From S2P Require Import Prelude Text Core QueueTypes SpendTypes Program Json Trace ExecutionPolicy Responses Executor.

#[local] Open Scope Z_scope.
#[local] Existing Instance json_values.

(** Goals that every call of a program is a quiet one. *)
Create HintDb executor.

Ltac inert :=
  repeat first
    [ done
    | apply inert_bind; [|intros]
    | apply inert_try; [|intros]
    | progress cbn [inert]
    | match goal with
      | |- _ ∧ _ => split
      | |- ∀ _, _ => intro
      | |- inert _ (match ?x with _ => _ end) => destruct x
      | |- inert _ (if ?x then _ else _) => destruct x
      | |- inert _ (call _) => apply inert_ask
      | |- inert _ (ok _) => done
      | |- inert _ (fail _) => done
      | |- inert _ (lift _) => done
      | |- inert _ (on_queue _) => apply inert_bind; [|intros]
      end
    | eauto with executor ].

(** Steps over the calls a monitor ignores. *)
Ltac skip_quiet q :=
  cbv beta zeta;
  lazymatch goal with
  | |- safe _ (try_bind _ _) _ _ => apply (safe_inert_try q); [by eauto with executor|by inert| |]
  | |- safe _ _ _ _ => apply (safe_inert_bind q); [by eauto with executor|by inert|]
  end.

(** ** The monitor *)

Record Ghost : Type := mkGhost {
  g_item : option (string * Z);
  g_reserved : option string;
  g_confirmed : bool;
  g_sent : bool;
  g_zero : bool;
  g_released : bool;
  g_finished : option SpendState;
  g_closed : bool;
}.

Definition idle : Ghost := mkGhost None None false false false false None false.
Definition g_claimed (item : QueueItem) (g : Ghost) : Ghost :=
  mkGhost (Some (qi_item_id item, qi_attempt item)) (g_reserved g) (g_confirmed g) (g_sent g) (g_zero g)
    (g_released g) (g_finished g) (g_closed g).
Definition g_reserve (reference : string) (g : Ghost) : Ghost :=
  mkGhost (g_item g) (Some reference) false (g_sent g) (g_zero g) (g_released g) (g_finished g) (g_closed g).
Definition g_confirm (g : Ghost) : Ghost :=
  mkGhost (g_item g) (g_reserved g) true (g_sent g) (g_zero g) (g_released g) (g_finished g) (g_closed g).
Definition g_send (zero : bool) (g : Ghost) : Ghost :=
  mkGhost (g_item g) (g_reserved g) (g_confirmed g) true zero (g_released g) (g_finished g) (g_closed g).
Definition g_release (g : Ghost) : Ghost :=
  mkGhost (g_item g) (g_reserved g) (g_confirmed g) (g_sent g) (g_zero g) true (g_finished g) (g_closed g).
Definition g_finish (state : SpendState) (g : Ghost) : Ghost :=
  mkGhost (g_item g) (g_reserved g) (g_confirmed g) (g_sent g) (g_zero g) (g_released g) (Some state) (g_closed g).
Definition g_close (g : Ghost) : Ghost :=
  mkGhost (g_item g) (g_reserved g) (g_confirmed g) (g_sent g) (g_zero g) (g_released g) (g_finished g) true.

Definition guard (b : bool) (g : Ghost) : option Ghost := if b then Some g else None.

Lemma guard_some b (g g' : Ghost) : guard b g = Some g' ↔ b = true ∧ g' = g.
Proof. destruct b; cbn; naive_solver. Qed.

Section Watch.
Context `{!Chrono, !Sha256, !TextEncodings}.
Context {Req Res : Type} `{!TraceCarrier Res, !CredentialResponse Res, !Serde Res}.
Abbreviation Op' := (@Op Req).
Abbreviation Ans' := (@Ans Req Res).
Variable payload_value : string → Value.
Variable handoff_input_identity : @QueuedCall Req → result ModelError string.
Variable c : @QueuedCall Req.
Variable provider : ModelProvider.

(** What the caller sees of the provider's answer. *)
Definition dispatch_outcome (sent : option (result ModelError Res)) : result ModelError Res :=
  let? response := composed_result provider (match sent with Some r => r | None => Err (Timeout HttpTimeout) end) in
  Ok (normalize_finish_reason (discard_raw response)).

(** The provider's answer proves that the call cost nothing. *)
Definition dispatch_zero (sent : option (result ModelError Res)) : bool :=
  match dispatch_outcome sent with Err e => known_zero_error provider e | _ => false end.

Definition holds_item (g : Ghost) (item_id worker : string) : bool :=
  match g_item g with
  | Some (id, _) => bool_decide (id = item_id) && bool_decide (worker = qc_worker_id c)
  | None => false
  end.

(** The reference an attempt on the claimed item must use. *)
Definition own_reference (g : Ghost) (reference : string) : bool :=
  match g_item g with
  | Some (id, attempt) =>
      match runtime_reference id (Z.to_N attempt) with Ok own => bool_decide (own = reference) | _ => false end
  | None => false
  end.

(** A new reservation: of a claimed item, once, for this call's account,
    invocation and binding. *)
Definition may_reserve (g : Ghost) (r : SpendReservation) : bool :=
  negb (is_some (qc_accepted_spend c)) && negb (is_some (g_reserved g)) && own_reference g (sr_reference r)
  && bool_decide (sr_account r = qc_queue_id c) && bool_decide (sr_invocation r = qc_invocation c)
  && bool_decide (sr_binding r = qc_attempt_binding c).

Definition accepted_ok (r : result ModelError bool) : bool := match r with Ok true => true | _ => false end.

(** The monitor of one attempt. *)
Definition watch (g : Ghost) (op : Op') : Ans' op → option Ghost :=
  match op as op return Ans' op → option Ghost with
  | ClaimItem _ _ _ _ => λ a,
      match a with Ok (Some item) => guard (negb (is_some (g_item g))) (g_claimed item g) | _ => Some g end
  | HeartbeatItem item_id worker _ => λ a,
      guard (holds_item g item_id worker) (if is_ok a then g_confirm g else g)
  | LedgerReserve r => λ a,
      guard (may_reserve g r && negb (is_some (qc_invocation_key c)))
        (if accepted_ok a then g_reserve (sr_reference r) g else g)
  | LedgerReserveExplicit r limit => λ a,
      guard (may_reserve g r && is_some (qc_invocation_key c) && (limit =? logical_max_attempts (qc_config c)))
        (if accepted_ok a then g_reserve (sr_reference r) g else g)
  | LedgerAcquireHandoff handoff account _ _ => λ a,
      guard (negb (is_some (g_reserved g)) && is_some (g_item g) && bool_decide (account = qc_queue_id c)
             && match qc_accepted_spend c with
                | Some h => bool_decide (ah_reservation handoff = ah_reservation h)
                | None => false
                end)
        (if is_ok a then g_reserve (sr_reference (ah_reservation handoff)) g else g)
  | Dispatch _ => λ a,
      guard (is_some (g_reserved g) && g_confirmed g && negb (g_sent g) && negb (g_released g) && negb (g_closed g))
        (g_send (dispatch_zero a) g)
  | LedgerRelease reference => λ _,
      guard (bool_decide (g_reserved g = Some reference) && negb (g_sent g) && negb (g_released g)
             && negb (is_some (qc_accepted_spend c))) (g_release g)
  | LedgerFinish reference state _ output _ => λ _,
      guard (bool_decide (g_reserved g = Some reference) && g_sent g && negb (is_some (g_finished g))
             && negb (is_some (qc_accepted_spend c))
             && (if bool_decide (state = SpendReleased) then g_zero g && negb (is_some output)
                 else negb (g_zero g) && is_some output)) (g_finish state g)
  | CompleteItem item_id worker => λ _,
      guard (holds_item g item_id worker && negb (g_closed g)
             && (negb (g_sent g) || is_some (g_finished g) || is_some (qc_accepted_spend c))) (g_close g)
  | FailItem item_id worker failure => λ _,
      guard (holds_item g item_id worker && negb (g_closed g)
             && (negb (is_some (f_run_after failure)) || g_sent g && g_zero g)) (g_close g)
  | JobRecover _ | JobClaim _ _ | JobHeartbeat | JobFinish _ _ _ _ _ | JobRelease => λ _, None
  | _ => λ _, Some g
  end.

(** The calls the monitor does not mind. *)
Definition unwatched (op : Op') : bool :=
  match op with
  | ClaimItem _ _ _ _ | HeartbeatItem _ _ _ | LedgerReserve _ | LedgerReserveExplicit _ _
  | LedgerAcquireHandoff _ _ _ _ | Dispatch _ | LedgerRelease _ | LedgerFinish _ _ _ _ _ | CompleteItem _ _
  | FailItem _ _ _ | JobRecover _ | JobClaim _ _ | JobHeartbeat | JobFinish _ _ _ _ _ | JobRelease => false
  | _ => true
  end.

Lemma unwatched_ok g op a : unwatched op = true → watch g op a = Some g.
Proof. by destruct op. Qed.

Abbreviation quiet p := (@inert Op' Ans' unwatched _ p).

Lemma record_attempt_quiet status item trace error timing : quiet (record_attempt c status item trace error timing).
Proof. unfold record_attempt. inert. Qed.
Lemma record_quiet status item trace error timing : quiet (record c status item trace error timing).
Proof. apply record_attempt_quiet. Qed.
Lemma recovered_quiet : quiet (recovered c).
Proof. unfold recovered. inert. Qed.
Lemma record_trace_quiet t id : quiet (record_trace c t id).
Proof. unfold record_trace. inert. Qed.
#[local] Hint Resolve record_attempt_quiet record_quiet recovered_quiet record_trace_quiet : executor.

Lemma count_provider_attempts_quiet item_id claims n : quiet (count_provider_attempts item_id claims n).
Proof. revert n. induction claims as [|x claims IH]; intros n; simpl; [done|]. inert; apply IH. Qed.
#[local] Hint Resolve count_provider_attempts_quiet : executor.

Lemma retry_state_quiet item : quiet (retry_state payload_value c item).
Proof. unfold retry_state, provider_attempts. inert. Qed.
Lemma renew_budget_quiet current : quiet (renew_budget c current).
Proof. unfold renew_budget, reenqueue_with_fresh_budget. inert. Qed.
Lemma enqueue_call_quiet : quiet (enqueue_call c).
Proof. unfold enqueue_call. inert. Qed.
#[local] Hint Resolve retry_state_quiet renew_budget_quiet enqueue_call_quiet : executor.

Lemma unwrap_quiet {A} (o : option A) : quiet (unwrap o).
Proof. by destruct o. Qed.
#[local] Hint Resolve unwrap_quiet : executor.

Lemma reenqueue_dead_item_quiet dead e state : quiet (reenqueue_dead_item c dead e state).
Proof. unfold reenqueue_dead_item. inert. Qed.
#[local] Hint Resolve reenqueue_dead_item_quiet : executor.

Lemma continue_chain_quiet dead e : quiet (continue_chain payload_value c dead e).
Proof. unfold continue_chain. inert. Qed.
Lemma reconsider_stopped_quiet item : quiet (reconsider_stopped payload_value c item).
Proof. unfold reconsider_stopped. inert. Qed.
Lemma note_model_cooldown_quiet e delay : quiet (note_model_cooldown c e delay).
Proof. unfold note_model_cooldown. inert. Qed.
Lemma elapsed_quiet since : quiet (elapsed since).
Proof. unfold elapsed. inert. Qed.
Lemma elapsed_ms_quiet since : quiet (elapsed_ms since).
Proof. unfold elapsed_ms, elapsed. inert. Qed.
Lemma record_success_quiet r id : quiet (record_success_diagnostic c r id).
Proof. unfold record_success_diagnostic. inert. Qed.
Lemma trace_failure_quiet id e : quiet (trace_failure c id e).
Proof. unfold trace_failure. inert. Qed.
#[local] Hint Resolve continue_chain_quiet reconsider_stopped_quiet note_model_cooldown_quiet elapsed_quiet
  elapsed_ms_quiet record_success_quiet trace_failure_quiet : executor.

(** ** Aborts *)

(** An attempt that has its item open and has sent nothing. *)
Record unsent (item : QueueItem) (g : Ghost) : Prop := {
  un_item : g_item g = Some (qi_item_id item, qi_attempt item);
  un_sent : g_sent g = false;
  un_released : g_released g = false;
  un_finished : g_finished g = None;
  un_closed : g_closed g = false;
}.

(** What an attempt that claimed an item leaves behind: the item is closed; a
    reservation that sent nothing is released; a call known to cost nothing is
    settled as released. *)
Record accounted (g : Ghost) : Prop := {
  ac_closed : is_Some (g_item g) → g_closed g = true;
  ac_unsent : is_Some (g_reserved g) → g_sent g = false → qc_accepted_spend c = None → g_released g = true;
  ac_zero : g_sent g = true → g_zero g = true → qc_accepted_spend c = None → g_finished g = Some SpendReleased;
}.

Lemma holds_own g item : g_item g = Some (qi_item_id item, qi_attempt item) →
  holds_item g (qi_item_id item) (qc_worker_id c) = true.
Proof. intros Hi. unfold holds_item. by rewrite Hi, !bool_decide_eq_true_2. Qed.

(** Closing the item by a failure that schedules no retry. *)
Lemma fail_item_safe {A} item error class (f : _ → prog Ans' A) g Q :
  g_item g = Some (qi_item_id item, qi_attempt item) → g_closed g = false →
  (∀ a, safe watch (f a) (g_close g) Q) →
  safe watch (pbind (fail_item c item error class None) f) g Q.
Proof. intros Hi Hc Hf a. simpl. rewrite holds_own, Hc by done. apply Hf. Qed.

Lemma abort_safe item reference e g Q :
  unsent item g → g_reserved g = reference →
  (∀ x g', accounted g' → g_sent g' = false → Q x g') →
  safe watch (abort_before_dispatch c item reference e) g Q.
Proof.
  intros [Hi Hs Hr Hf Hc] Href HQ. unfold abort_before_dispatch.
  assert (∀ e g', g_item g' = g_item g → g_closed g' = false → g_sent g' = false →
    (is_Some (g_reserved g') → qc_accepted_spend c = None → g_released g' = true) →
    safe watch (let* failed := fail_item c item (ModelError_code e) (error_class e) None in
      Ret (e, match failed with Err (LeaseMismatch _) | Err (NotRunning _) => Ok FailStopped | other => other end))
      g' Q) as Hclose.
  { intros e' g' Hi' Hc' Hs' Hr'. apply fail_item_safe; [congruence|done|]. intros a. apply HQ; [|done].
    split; simpl; [done|auto|congruence]. }
  destruct (qc_accepted_spend c) as [h|] eqn:Ha.
  - cbn [pbind]. apply Hclose; [done|done|done|congruence].
  - destruct reference as [reference|].
    + intros a. simpl. rewrite Href, bool_decide_eq_true_2, Hs, Hr, Ha by done. cbn.
      destruct a; [apply Hclose; done..|done].
    + cbn [pbind]. apply Hclose; [done|done|done|]. rewrite Href. by intros [? ?].
Qed.

Lemma aborted_safe {A} item reference e g (Q : result ModelError A → Ghost → Prop) :
  unsent item g → g_reserved g = reference →
  (∀ e g', accounted g' → g_sent g' = false → Q (Err e) g') →
  safe watch (aborted c item reference e) g Q.
Proof.
  intros Hu Hr HQ. unfold aborted. apply safe_bind. apply (abort_safe item reference); [done|done|].
  intros [e' failed] g' Hg Hs. destruct failed; simpl; [by apply HQ|by apply HQ|done].
Qed.

(** ** Settlement *)

(** An attempt whose call went out. *)
Record sent_open (item : QueueItem) (reference : string) (g : Ghost) : Prop := {
  so_item : g_item g = Some (qi_item_id item, qi_attempt item);
  so_reserved : g_reserved g = Some reference;
  so_sent : g_sent g = true;
  so_closed : g_closed g = false;
}.

Definition settled_ok (s : @Settled Res) (g : Ghost) : Prop :=
  accounted g ∧ match s with
                | SettledSucceeded _ _ _ =>
                    g_sent g = true → qc_accepted_spend c = None →
                    g_zero g = false ∧ g_finished g ∈ [Some SpendSettled; Some SpendUnknown]
                | SettledRetryable e _ => g_sent g = true ∧ g_zero g = true ∧ is_retryable e (qc_config c) = true
                | SettledFailed _ _ => True
                end.

(** The accounting of a sent call is settled or needs no settling. *)
Definition zero_settled (g : Ghost) : Prop :=
  g_zero g = true → qc_accepted_spend c = None → g_finished g = Some SpendReleased.

Lemma accounted_sent g : g_sent g = true → zero_settled g → accounted (g_close g).
Proof. intros Hs Hz. split; simpl; [done|congruence|auto]. Qed.

Lemma settle_failure_safe item reference zero e g :
  sent_open item reference g → zero_settled g → safe watch (settle_failure c item zero e) g settled_ok.
Proof.
  intros [Hi Hr Hs Hc] Hz. unfold settle_failure.
  apply (safe_inert_bind unwatched); [intros; by apply unwatched_ok|inert|]. intros [u|f|]; [| |done].
  all: apply fail_item_safe; [done|done|]; intros a; split; [by apply accounted_sent|done].
Qed.

Lemma settle_retry_safe item reference e g :
  sent_open item reference g → g_zero g = true → zero_settled g → is_retryable e (qc_config c) = true →
  safe watch (settle_retry c item e) g settled_ok.
Proof.
  intros [Hi Hr Hs Hc] Hzero Hz Hre. unfold settle_retry.
  destruct (retry_delay_ms _ _ _ _ _) as [delay|e'|]; [| |done].
  - apply (safe_inert_bind unwatched); [intros; by apply unwatched_ok|inert|]. intros [u|f|]; [| |done].
    + apply (safe_inert_bind unwatched); [intros; by apply unwatched_ok|inert|]. intros now.
      apply (safe_inert_bind unwatched); [intros; by apply unwatched_ok|inert|]. intros until a. simpl.
      rewrite holds_own, Hc, Hs, Hzero by done. simpl. split; [by apply accounted_sent|done].
    + apply fail_item_safe; [done|done|]. intros a. split; [by apply accounted_sent|done].
  - apply fail_item_safe; [done|done|]. intros a. split; [by apply accounted_sent|done].
Qed.


Lemma watch_quiet g op a : unwatched op = true → watch g op a = Some g.
Proof. apply unwatched_ok. Qed.
#[local] Hint Resolve watch_quiet : executor.
Ltac skip := skip_quiet unwatched.

(** The call to the provider leaves its evidence. *)
Definition evidence (r : result ModelError Res) (g : Ghost) : Prop :=
  match r with Ok _ => g_zero g = false | Err e => g_zero g = known_zero_error provider e | Panic => True end.

Lemma dispatch_safe {A} item reference request (f : result ModelError Res → prog Ans' A) g Q :
  unsent item g → g_reserved g = Some reference → g_confirmed g = true →
  (∀ r g', sent_open item reference g' → g_finished g' = None → evidence r g' → safe watch (f r) g' Q) →
  safe watch (pbind (dispatch_model c provider request) f) g Q.
Proof.
  intros [Hi Hs Hr Hf Hc] Href Hconf HQ a. cbn [watch]. rewrite Href, Hconf, Hs, Hr, Hc. cbn [is_some guard negb andb].
  assert (∀ r, evidence r (g_send (dispatch_zero a) g) → safe watch (f r) (g_send (dispatch_zero a) g) Q) as Hk.
  { intros r He. by apply HQ. }
  clear HQ. unfold dispatch_zero, dispatch_outcome in *. unfold within_timeout.
  destruct a as [[r|e|]|]; [| | |destruct (is_some _)]; cbn [pbind fail lift try_bind] in *; try done.
  all: destruct (composed_result provider _) as [r'|e'|]; cbn in *; try done.
  all: try (destruct (usage_diagnostic _ _); cbn [pbind ok]); apply Hk; done.
Qed.

(** The answer is paid for before its item ends. *)
Lemma save_answer_safe {A} item reference response (f : _ → prog Ans' A) g Q :
  sent_open item reference g → g_finished g = None → g_zero g = false →
  (∀ r g', sent_open item reference g' → g_zero g' = false →
    (is_ok r → qc_accepted_spend c = None → g_finished g' ∈ [Some SpendSettled; Some SpendUnknown]) →
    safe watch (f r) g' Q) →
  safe watch (pbind (save_answer c reference response) f) g Q.
Proof.
  intros [Hi Hr Hs Hc] Hf Hz HQ. unfold save_answer. destruct (qc_accepted_spend c) as [h|] eqn:Ha.
  { apply HQ; done. }
  cbn [is_some]. set (output := match qc_answer_recovery c with Off => _ | Retain => _ end). destruct output as [v|e|]; [| |done].
  - intros a. cbn. rewrite Ha, Hr, Hs, Hf, Hz, bool_decide_eq_true_2 by done. cbn.
    destruct (has_measured_usage _); cbn; apply HQ; try done; intros _ _; apply list_elem_of_In; simpl; auto.
  - apply HQ; [done|done|]. by intros [].
Qed.

Lemma settle_success_safe item clock reference started ms response g :
  sent_open item reference g → g_finished g = None → g_zero g = false →
  safe watch (settle_success c item clock reference started ms response) g settled_ok.
Proof.
  intros Hso Hf Hz. unfold settle_success. skip. intros total.
  apply (save_answer_safe item); [done|done|done|]. clear g Hso Hf Hz. intros [u|e|] g [Hi Hr Hs Hc] Hz Hf; [| |done].
  - skip. intros [r d] a. cbn. rewrite holds_own, Hc, Hs by done.
    assert (is_some (g_finished g) || is_some (qc_accepted_spend c) = true) as Hd.
    { destruct (qc_accepted_spend c); [apply orb_true_r|]. specialize (Hf I eq_refl). by destruct (g_finished g); [|inversion Hf as [|????Hin]; inversion Hin as [|????Hin']; inversion Hin']. }
    cbn in *. rewrite Hd. cbn. split; [|auto]. apply accounted_sent; [done|]. unfold zero_settled. congruence.
  - apply fail_item_safe; [done|done|]. intros a. split; [|done]. apply accounted_sent; [done|]. unfold zero_settled. congruence.
Qed.

Lemma settle_result_safe item clock reference started ms r g :
  sent_open item reference g → g_finished g = None → evidence r g →
  safe watch (settle_result c item provider clock reference started ms r) g settled_ok.
Proof.
  intros Hso Hf He. destruct r as [r|e|]; [|unfold settle_result|done]; cbn [evidence] in He.
  { by apply settle_success_safe. }
  skip. intros _. set (zero := known_zero_error provider e) in *.
  assert (∀ g', sent_open item reference g' → g_zero g' = zero → zero_settled g' →
    safe watch (if zero && is_retryable e (qc_config c) then settle_retry c item e
                else settle_failure c item zero e) g' settled_ok) as Hend.
  { intros g' Hg Hz Hzs. destruct zero; cbn [andb]; [destruct (is_retryable _ _) eqn:Hre|].
    - by eapply settle_retry_safe.
    - by eapply settle_failure_safe.
    - by eapply settle_failure_safe. }
  destruct (zero && negb (is_some (qc_accepted_spend c))) eqn:Hcond.
  - apply andb_true_iff in Hcond as [-> Ha]. destruct Hso as [Hi Hr Hs Hc]. intros a. cbn.
    rewrite Hr, Hs, Hf, He, Ha, bool_decide_eq_true_2 by done. cbn. destruct a as [u|e'|]; [| |done].
    + by apply Hend.
    + apply fail_item_safe; [done|done|]. intros a. split; [by apply accounted_sent|done].
  - apply Hend; [done|done|]. intros Hz Ha. rewrite He in Hz. rewrite Hz, Ha in Hcond. done.
Qed.

Lemma settled_failed_safe item reference e g :
  unsent item g → g_reserved g = reference →
  safe watch (let* '(e, failed) := abort_before_dispatch c item reference e in Ret (SettledFailed e failed)) g settled_ok.
Proof. intros Hu Hr. apply safe_bind, (abort_safe item reference); [done|done|]. intros [e' f] g' Ha _. by split. Qed.

Lemma confirm_unsent item g : unsent item g → unsent item (g_confirm g).
Proof. by intros []. Qed.

Lemma settle_safe item clock reference g :
  unsent item g → g_reserved g = Some reference → safe watch (settle c item provider clock reference) g settled_ok.
Proof.
  intros Hu Hr. unfold settle. skip. intros waited. skip. intros _. intros lost. cbn [watch]. destruct lost.
  { by apply settled_failed_safe. }
  intros a. cbn [watch]. rewrite holds_own by apply Hu. cbn [guard]. destruct a as [u|e|]; cbn [is_ok]; [| |done].
  - cbn [pbind]. skip. intros started. apply (dispatch_safe item reference); [by apply confirm_unsent|done|done|].
    intros r g' Hso Hf He. skip. intros ms. by apply settle_result_safe.
  - by apply settled_failed_safe.
Qed.


(** ** The lease *)

(** [g'] is [g], or [g] with its lease confirmed. *)
Definition confirmed_from (g g' : Ghost) : Prop := g' = g ∨ g' = g_confirm g.

Lemma watch_confirmed g g' op a g1 :
  confirmed_from g g' → watch g op a = Some g1 → ∃ g1', watch g' op a = Some g1' ∧ confirmed_from g1 g1'.
Proof.
  intros [->| ->] Hw; [exists g1; split; [done|by left]|].
  destruct op; cbn in *; unfold guard in *;
    repeat match goal with
           | |- context [holds_item (g_confirm g)] => change (holds_item (g_confirm g)) with (holds_item g)
           | |- context [may_reserve (g_confirm g)] => change (may_reserve (g_confirm g)) with (may_reserve g)
           end; repeat case_match; simplify_eq;
    eexists; (split; [try done|first [by left|by right]]).
  destruct (g_confirmed g); [congruence|by rewrite andb_false_r in *].
Qed.


Lemma watch_item g op a g' : is_Some (g_item g) → watch g op a = Some g' → g_item g' = g_item g.
Proof. intros [i Hi] Hw. destruct op; cbn in *; unfold guard in *; rewrite ?Hi in *; repeat case_match; by simplify_eq. Qed.

(** The claimed item stays the attempt's item. *)
Lemma safe_item {A} (p : prog Ans' A) g (Q : A → Ghost → Prop) :
  is_Some (g_item g) → safe watch p g Q → safe watch p g (λ a g', Q a g' ∧ is_Some (g_item g')).
Proof.
  revert g. induction p as [a|op k IH|]; intros g Hi Hp; [done| |done].
  intros a. specialize (Hp a). destruct (watch g op a) as [g'|] eqn:Hw; [|done].
  apply IH; [|done]. by rewrite (watch_item _ _ _ _ Hi Hw).
Qed.

Lemma holds_some g id worker : holds_item g id worker = true → is_Some (g_item g).
Proof. unfold holds_item. destruct (g_item g); by eauto. Qed.

Lemma holds_item_same g g' id worker : g_item g = g_item g' → holds_item g id worker = holds_item g' id worker.
Proof. unfold holds_item. by intros ->. Qed.

Lemma safe_confirmed {A} (p : prog Ans' A) g (Q : A → Ghost → Prop) :
  (∀ a g, Q a g → Q a (g_confirm g)) → safe watch p g Q → safe watch p (g_confirm g) Q.
Proof.
  intros HQ Hp. eapply safe_mono.
  - eapply (safe_simulated watch watch confirmed_from); [apply watch_confirmed|by right|exact Hp].
  - intros a g' (g0 & [->| ->] & Ha); auto.
Qed.

Lemma renew_safe {A} item_id lease n (k : bool → prog Ans' A) g Q :
  holds_item g item_id (qc_worker_id c) = true →
  (∀ lost, safe watch (k lost) g Q) → (∀ lost, safe watch (k lost) (g_confirm g) Q) →
  safe watch (renew item_id (qc_worker_id c) lease n k) g Q.
Proof.
  revert g. induction n as [|n IH]; intros g Hh Hk Hk'; [apply Hk|].
  intros a. cbn [watch]. rewrite Hh. destruct a as [u|e|]; cbn [is_ok guard]; [|apply Hk|done].
  by apply IH.
Qed.

(** Work that is safe is safe between renewals. *)
Lemma holding_lease_safe {A} item_id lease lost (p : prog Ans' A) g (Q : A → Ghost → Prop) :
  (∀ a g, Q a g → Q a (g_confirm g)) → holds_item g item_id (qc_worker_id c) = true →
  safe watch p g Q → safe watch (holding_lease item_id (qc_worker_id c) lease lost p) g Q.
Proof.
  intros HQ. revert lost g.
  induction p as [a|op k IH|]; intros lost g Hh Hp; [| |done].
  - destruct lost; [done|]. intros n. cbn [watch]. apply renew_safe; [done|done|]. intros _. by apply HQ.
  - assert (∀ lost g, holds_item g item_id (qc_worker_id c) = true → safe watch (Do op k) g Q →
      safe watch (match op as op return (Ans' op → prog Ans' A) → prog Ans' A with
                  | OwnershipLost => λ k, holding_lease item_id (qc_worker_id c) lease lost (k lost)
                  | op => λ k, Do op (λ a, holding_lease item_id (qc_worker_id c) lease lost (k a))
                  end k) g Q) as Hstep.
    { clear lost g Hh Hp. intros lost g Hh Hp.
      assert (∀ a, match watch g op a with
                   | Some g' => safe watch (holding_lease item_id (qc_worker_id c) lease lost (k a)) g' Q
                   | None => False
                   end) as Hall.
      { intros a. specialize (Hp a). destruct (watch g op a) as [g'|] eqn:Hw; [|done]. apply IH; [|done].
        rewrite (holds_item_same g' g); [done|]. eapply watch_item, Hw. by eapply holds_some. }
      destruct op; try exact Hall. apply (Hall lost). }
    destruct lost; [by apply Hstep|]. intros n. cbn [watch]. apply renew_safe; [done|auto|].
    intros lost. apply Hstep; [done|]. by apply safe_confirmed.
Qed.


(** ** The attempt *)

Definition leased_ok (r : result ModelError (@Settled Res)) (g : Ghost) : Prop :=
  match r with Ok s => settled_ok s g | Err _ => accounted g | Panic => True end.

Lemma leased_ok_confirm r g : leased_ok r g → leased_ok r (g_confirm g).
Proof. destruct r as [[]| |]; cbn; [..|done]; try (intros [[] ?]; split; [|done]); try (intros []); by split. Qed.

(** An item that ends with an answer found in the ledger. *)
Lemma complete_recovered_safe item response g :
  unsent item g → g_reserved g = None → safe watch (complete_recovered c item response) g leased_ok.
Proof.
  intros [Hi Hs Hr Hf Hc] Hn a. cbn. rewrite holds_own, Hs, Hc by done. cbn.
  split; [split; cbn|cbn]; [done|rewrite Hn; by intros []|congruence|congruence].
Qed.

Lemma aborted_leased item reference e g :
  unsent item g → g_reserved g = reference → safe watch (aborted c item reference e) g leased_ok.
Proof. intros Hu Hr. by apply (aborted_safe item reference). Qed.

(** The reference the attempt reserves under. *)
Definition attempt_reference (item : QueueItem) : result ModelError string :=
  match qc_accepted_spend c with
  | Some handoff => Ok (sr_reference (ah_reservation handoff))
  | None => runtime_reference (qi_item_id item) (Z.to_N (qi_attempt item))
  end.

Lemma reserve_attempt_safe {A} item reference (f : _ → prog Ans' A) g Q :
  unsent item g → g_reserved g = None → attempt_reference item = Ok reference →
  (∀ r g', unsent item g' → g_reserved g' = (if accepted_ok r then Some reference else None) →
    safe watch (f r) g' Q) →
  safe watch (pbind (reserve_attempt handoff_input_identity c item reference) f) g Q.
Proof.
  intros Hu Hn Href HQ. unfold reserve_attempt. unfold attempt_reference in Href.
  assert (Hi := un_item _ _ Hu).
  destruct (qc_accepted_spend c) as [handoff|] eqn:Ha.
  - simplify_eq. destruct (handoff_input_identity c) as [identity|e|]; [| |done]; cbn [lift try_bind pbind].
    + intros a. cbn. rewrite Hn, Hi, Ha, !bool_decide_eq_true_2 by done. cbn.
      destruct a as [u|e|]; [| |done]; cbn; apply HQ; try done. by destruct Hu.
    + by apply HQ.
  - assert (may_reserve g (mkReservation reference (qc_queue_id c) (qc_invocation c) (qc_attempt_binding c)
      (mq_provider_request_limit (qc_config c))) = true) as Hm.
    { unfold may_reserve, own_reference. cbn. by rewrite Ha, Hn, Hi, Href, !bool_decide_eq_true_2. }
    destruct (is_some (qc_invocation_key c)) eqn:Hk; intros a; cbn; rewrite Hm, Hk, ?Z.eqb_refl; cbn.
    all: apply HQ; destruct (accepted_ok a); try done; by destruct Hu.
Qed.

(** The last look at the lease before the provider's call. *)
Lemma confirm_lease_safe {A} item (f : _ → prog Ans' A) g Q :
  unsent item g → (∀ r g', unsent item g' → g_reserved g' = g_reserved g → safe watch (f r) g' Q) →
  safe watch (pbind (confirm_lease c item) f) g Q.
Proof.
  intros Hu HQ lost. cbn. destruct lost; cbn; [by apply HQ|]. intros a. cbn. rewrite holds_own by apply Hu. cbn.
  apply HQ; destruct (is_ok a); try done. by apply confirm_unsent.
Qed.

Lemma refused_work_safe item e g :
  unsent item g → g_reserved g = None → safe watch (refused_work c item e) g leased_ok.
Proof.
  intros Hu Hn. unfold refused_work. skip. intros [[response|]|e'|]; [| | |done].
  - by apply complete_recovered_safe.
  - by apply aborted_leased.
  - by apply aborted_leased.
Qed.

Lemma reserved_work_safe item reference grant clock r g :
  unsent item g → g_reserved g = (if accepted_ok r then Some reference else None) →
  safe watch (reserved_work c item reference grant provider clock r) g leased_ok.
Proof.
  intros Hu Hr. unfold reserved_work.
  change (match r with Ok true => true | _ => false end) with (accepted_ok r). destruct (accepted_ok r).
  - skip. intros [[]|e|]; [|by apply aborted_leased|done].
    apply (confirm_lease_safe item); [done|]. intros ownership g' Hu' Hr'. rewrite Hr in Hr'.
    destruct ownership as [[]|e|]; cbn [negb]; [|by apply aborted_leased|done].
    skip. intros [[]|e|]; [|by apply aborted_leased|done].
    apply safe_bind. by apply settle_safe.
  - cbn [pbind ok]. apply (confirm_lease_safe item); [done|]. intros ownership g' Hu' Hr'. rewrite Hr in Hr'.
    destruct ownership as [[]|e|]; cbn [negb]; [|by apply aborted_leased|done]. by apply refused_work_safe.
Qed.

Lemma leased_work_safe item reference grant clock g :
  unsent item g → g_reserved g = None → attempt_reference item = Ok reference →
  safe watch (leased_work handoff_input_identity c item reference grant provider clock) g leased_ok.
Proof.
  intros Hu Hn Href. unfold leased_work. skip. intros [[response|]|e|]; [| | |done].
  - by apply complete_recovered_safe.
  - apply reserve_attempt_safe; [done|done|done|]. intros r g' Hu' Hr. destruct r; [..|done]; by apply reserved_work_safe.
  - by apply aborted_leased.
Qed.

(** What the caller of an attempt is told, against what happened. *)
Definition attempt_ok (r : result ModelError (@AttemptEnd Res)) (g : Ghost) : Prop :=
  accounted g ∧
  match r with
  | Ok (AttemptSucceeded _) =>
      is_Some (g_item g) ∧
      (g_sent g = true → qc_accepted_spend c = None →
       g_zero g = false ∧ g_finished g ∈ [Some SpendSettled; Some SpendUnknown])
  | Ok (AttemptRetry None) => g_sent g = true ∧ g_zero g = true
  | Ok (AttemptRetry (Some _)) => g = idle ∨ g_sent g = true ∧ g_zero g = true
  | Ok NotClaimed | Ok AttemptMissing => g = idle
  | Err _ | Panic => True
  end.

Definition leased_end (r : result ModelError (@AttemptEnd Res + QueueItem * Settled)) (g : Ghost) : Prop :=
  match r with
  | Ok (inl (AttemptRetry None)) | Ok (inl (AttemptSucceeded _)) => False
  | Ok (inl _) => g = idle
  | Ok (inr (item, s)) => is_Some (g_item g) ∧ settled_ok s g
  | Err _ => accounted g
  | Panic => True
  end.

Lemma accounted_idle : accounted idle.
Proof. split; cbn; [by intros []|by intros []|done]. Qed.

Lemma attempt_leased_safe item_id grant clock :
  safe watch (attempt_leased payload_value handoff_input_identity c item_id grant provider clock) idle leased_end.
Proof.
  unfold attempt_leased. assert (accounted idle) by apply accounted_idle.
  skip; [intros current|done]. skip; [intros current'|done]. skip; [intros [next|]|done]; [done|].
  intros claimed. cbn [watch]. destruct claimed as [[item|]|[]|]; try done. cbn [guard is_some g_item idle negb].
  set (g := g_claimed item idle). assert (unsent item g) as Hu by done.
  assert (∀ e, safe watch (@aborted Req Res (_ + _) c item None e) g leased_end) as Habort.
  { intros e. by apply (aborted_safe item None). }
  intros [[]|e|]; cbn [watch]; [|apply Habort|done].
  change (match qc_accepted_spend c with Some _ => _ | None => _ end) with (attempt_reference item).
  destruct (attempt_reference item) as [reference|e|] eqn:Href; [|apply Habort|done].
  apply safe_try. eapply safe_mono.
  - apply safe_item; [by eexists|]. apply holding_lease_safe; [apply leased_ok_confirm|by apply holds_own|].
    by apply leased_work_safe.
  - intros [s|e|] g' [Hr Hi]; cbn in *; [by split|done|done].
Qed.

Lemma with_queue_failure_quiet {A} e (r : result QueueError A) : quiet (with_queue_failure (Req:=Req) (Res:=Res) e r).
Proof. done. Qed.
#[local] Hint Resolve with_queue_failure_quiet : executor.

Lemma attempt_report_safe item s g :
  is_Some (g_item g) → settled_ok s g → safe watch (attempt_report payload_value c item s) g attempt_ok.
Proof.
  intros Hi [Hacc Hs]. destruct s as [response ms completed|e failed|e failed]; cbn [attempt_report].
  - skip. intros _. by split.
  - destruct Hs as (Hs & Hz & _). unfold with_queue_failure.
    skip; [intros outcome|by split]. destruct (bool_decide _); [by split|].
    skip. intros dead. skip; [intros dead'|by split]. skip; [intros [next|]|by split].
    + split; [done|by right].
    + skip; [intros _|]; by split.
  - skip; [intros outcome|by split]. skip; [intros _|]; by split.
Qed.

Lemma run_attempt_safe item_id slot grant clock :
  safe watch (run_attempt payload_value handoff_input_identity c item_id slot grant provider clock) idle attempt_ok.
Proof.
  unfold run_attempt. apply safe_bind. eapply safe_mono; [apply attempt_leased_safe|].
  intros r g Hr. skip. intros _. destruct r as [[ended|[item s]]|e|]; cbn [lift try_bind pbind]; [| | |done].
  - assert (ended = NotClaimed ∨ ended = AttemptMissing ∨ ∃ next, ended = AttemptRetry (Some next)) as Hended.
    { destruct ended as [|[]| |]; try done; eauto. }
    assert (g = idle) as -> by (destruct ended as [|[]| |]; done).
    split; [apply accounted_idle|]. destruct ended as [|[]| |]; try done; by left.
  - destruct Hr. by apply attempt_report_safe.
  - by split.
Qed.

End Watch.

#[export] Hint Resolve record_attempt_quiet record_quiet recovered_quiet record_trace_quiet retry_state_quiet
  renew_budget_quiet enqueue_call_quiet unwrap_quiet reenqueue_dead_item_quiet continue_chain_quiet
  reconsider_stopped_quiet note_model_cooldown_quiet elapsed_quiet elapsed_ms_quiet record_success_quiet
  trace_failure_quiet : executor.
