(* ===== verification/ExecutorCalls.v ===== *)
(** A whole queued call against its monitor: the caller's loop runs attempts
    one after the other, and each is closed and accounted before the next one
    claims.

    [watch_call] is [watch] with a claim that starts a new attempt.
    [run_direct_safe] carries the attempt's safety through [run_direct]; the
    rest of the file counts the calls of an accepted history. *)

From Stdlib Require Import ZArith Lia.
From stdpp Require Import base gmap strings list pretty.
From S2P Require Import Prelude Text Core QueueTypes SpendTypes Program Json Trace ExecutionPolicy Responses Executor ExecutorProofs.

#[local] Open Scope Z_scope.
#[local] Existing Instance json_values.

Section Calls.
Context `{!Chrono, !Sha256, !TextEncodings}.
Context {Req Res : Type} `{!TraceCarrier Res, !CredentialResponse Res, !Serde Res}.
Abbreviation Op' := (@Op Req).
Abbreviation Ans' := (@Ans Req Res).
Variable payload_value : string → Value.
Variable handoff_input_identity : @QueuedCall Req → result ModelError string.
Variable c : @QueuedCall Req.
Variable provider : ModelProvider.

Abbreviation watch := (watch c provider).

(** [accounted] as a test. *)
Definition accounted_b (g : Ghost) : bool :=
  (negb (is_some (g_item g)) || g_closed g)
  && (negb (is_some (g_reserved g)) || g_sent g || is_some (qc_accepted_spend c) || g_released g)
  && (negb (g_sent g) || negb (g_zero g) || is_some (qc_accepted_spend c)
      || bool_decide (g_finished g = Some SpendReleased)).

Lemma accounted_test g : accounted c g → accounted_b g = true.
Proof.
  intros [Hc Hu Hz]. unfold accounted_b. repeat (apply andb_true_iff; split).
  - destruct (g_item g); [|done]. rewrite Hc; by eauto.
  - destruct (g_reserved g), (g_sent g), (qc_accepted_spend c); try done. rewrite Hu; by eauto.
  - destruct (g_sent g), (g_zero g), (qc_accepted_spend c); try done. rewrite Hz; by eauto.
Qed.

Definition watch_call (g : Ghost) (op : Op') : Ans' op → option Ghost :=
  match op as op return Ans' op → option Ghost with
  | ClaimItem id worker lease cap => λ a,
      match a with Ok (Some item) => guard (accounted_b g) (g_claimed item idle) | _ => Some g end
  | op => watch g op
  end.

(** Before its claim, an attempt leaves the previous one as it is. *)
Definition attempt_in_call (g g' : Ghost) : Prop :=
  g = idle ∧ accounted_b g' = true ∨ g = g' ∧ is_Some (g_item g).

Lemma may_reserve_idle r : may_reserve c idle r = false.
Proof. unfold may_reserve. cbn. by rewrite andb_false_r. Qed.

Lemma watch_call_step g g' op a g1 :
  attempt_in_call g g' → watch g op a = Some g1 → ∃ g1', watch_call g' op a = Some g1' ∧ attempt_in_call g1 g1'.
Proof.
  intros [[-> Hacc]|[<- Hi]] Hw.
  - destruct op; cbn in *; rewrite ?may_reserve_idle in Hw; try discriminate;
      try (simplify_eq; exists g'; split; [done|by left]).
    + destruct a as [[item|]|e|]; simplify_eq; [|exists g'; split; [done|by left]..].
      rewrite Hacc. eexists; split; [done|]. right. split; [done|by eexists].
  - exists g1. assert (Hi' := watch_item _ _ _ _ _ _ Hi Hw). split; [|right; split; [done|by rewrite Hi']].
    destruct op; try exact Hw. cbn in *. destruct a as [[item|]|e|]; try done.
    destruct Hi as [i Hi]. by rewrite Hi in Hw.
Qed.

(** The attempt inside the call, from any accounted state. *)
Lemma run_attempt_in_call item_id slot grant clock g :
  accounted_b g = true →
  safe watch_call (run_attempt payload_value handoff_input_identity c item_id slot grant provider clock) g
    (λ _ g', accounted_b g' = true).
Proof.
  intros Hacc. eapply safe_mono.
  - eapply (safe_simulated watch watch_call attempt_in_call); [apply watch_call_step|left; eauto|].
    apply run_attempt_safe.
  - intros r g' (g0 & [[_ Hg]|[<- _]] & [Ha _]); [done|by apply accounted_test].
Qed.

Lemma unwatched_call_ok g op a : unwatched op = true → watch_call g op a = Some g.
Proof. by destruct op. Qed.

(** ** The caller's loop *)

Abbreviation quiet p := (@inert Op' Ans' unwatched _ p).

Lemma traced_cache_hit_quiet response id : quiet (traced_cache_hit c response id).
Proof. unfold traced_cache_hit. inert. Qed.
Lemma load_cached_quiet : quiet (load_cached c).
Proof. unfold load_cached. inert. Qed.
#[local] Hint Resolve traced_cache_hit_quiet load_cached_quiet : executor.

Lemma cached_quiet item : quiet (cached c item).
Proof. unfold cached. inert. Qed.
#[local] Hint Resolve cached_quiet : executor.

Lemma waiting_on_item_quiet enqueue : quiet (waiting_on_item payload_value c enqueue).
Proof. unfold waiting_on_item. inert. Qed.
Lemma join_terminal_quiet enqueue : quiet (join_terminal payload_value c enqueue).
Proof. unfold join_terminal. inert. Qed.
Lemma wait_for_model_cooldown_quiet fuel queue_id : quiet (wait_for_model_cooldown fuel queue_id).
Proof. induction fuel as [|fuel IH]; cbn [wait_for_model_cooldown]; inert. Qed.
#[local] Hint Resolve waiting_on_item_quiet join_terminal_quiet wait_for_model_cooldown_quiet : executor.

#[local] Hint Resolve unwatched_call_ok : executor.
Ltac skip := skip_quiet (@unwatched Req).

Abbreviation orderly p g := (safe watch_call p g (λ _ g', accounted_b g' = true)).

Lemma queued_round_safe fuel admission queued_at s g :
  accounted_b g = true →
  orderly (queued_round payload_value handoff_input_identity fuel c admission provider queued_at s) g.
Proof.
  intros Hacc. unfold queued_round. skip; [intros [output|]|done]; [done|].
  skip; [intros [response|]|done]; [done|]. skip. intros [started throttle]. skip; [intros _|done].
  skip. intros throttle_started. skip. intros [[grant|wait]|e|]; [| | |done].
  - skip. intros throttled. apply safe_try. eapply safe_mono; [by apply run_attempt_in_call|].
    intros [ended|e|] g' Hg; [|done|done]. cbv beta zeta.
    destruct ended as [response|[next|]| |]; [done|done|done| |].
    + skip; [intros [followed next]|done]. destruct followed; [done|done|]. by skip.
    + by skip.
  - skip. intros _. skip. intros _. skip. intros slice. skip; [intros [followed next]|done]. by destruct followed.
  - by skip.
Qed.

Lemma queued_loop_safe fuel admission queued_at s g :
  accounted_b g = true →
  orderly (queued_loop payload_value handoff_input_identity fuel c admission provider queued_at s) g.
Proof.
  revert s g. induction fuel as [|fuel IH]; intros s g Hacc; [done|]. cbn [queued_loop].
  apply safe_try. eapply safe_mono; [by apply queued_round_safe|].
  intros [[response|s']|e|] g' Hg; [done| |done|done]. by apply IH.
Qed.

Lemma run_direct_safe fuel admission g :
  accounted_b g = true → orderly (run_direct payload_value handoff_input_identity fuel c admission provider) g.
Proof.
  intros Hacc. unfold run_direct. skip; [intros [response|]|done]; [done|].
  skip; [intros [output|]|done]; [done|]. skip. intros queued_at. skip; [intros enqueue|done]. skip. intros _.
  skip; [intros [output|]|done]; [done|]. skip; [intros enqueue'|done]. by apply queued_loop_safe.
Qed.

(** ** Counting the calls of a history *)

Abbreviation Event := (event Ans').

Definition tally (f : Event → bool) (tr : list Event) : Z := foldr (λ e n, Z.b2z (f e) + n) 0 tr.

(** The item is to be tried again. *)
Definition schedules_retry (e : Event) : bool :=
  match ev_op e with FailItem _ _ failure => is_some (f_run_after failure) | _ => false end.

Definition releases (e : Event) : bool := match ev_op e with LedgerRelease _ => true | _ => false end.
Definition dispatches (e : Event) : bool := match ev_op e with Dispatch _ => true | _ => false end.

(** A provider's answer that proves no cost. *)
Definition dispatches_free (e : Event) : bool :=
  match e with mkCall op a =>
    match op as op return Ans' op → bool with Dispatch _ => dispatch_zero provider | _ => λ _, false end a
  end.

(** What a ghost still owes. *)
Definition open_call (g : Ghost) : bool := g_sent g && negb (is_some (g_finished g)).
Definition open_free (g : Ghost) : bool :=
  g_sent g && g_zero g && negb (bool_decide (g_finished g = Some SpendReleased)).
Definition open_retry (g : Ghost) : bool := g_sent g && g_zero g && negb (g_closed g).

(** The states a history reaches. *)
Record ghost_wf (g : Ghost) : Prop := {
  gw_reserved : g_reserved g = None → g_sent g = false ∧ g_released g = false;
  gw_item : g_item g = None → g_reserved g = None;
  gw_once : g_sent g = true → g_released g = false;
  gw_finished : g_sent g = false → g_finished g = None;
}.

(** Each retry has a provider's call of its own that is known to be free. *)
Definition balance (g : Ghost) (tr : list Event) (g' : Ghost) : Prop :=
  tally schedules_retry tr + Z.b2z (open_retry g') ≤ tally dispatches_free tr + Z.b2z (open_retry g).

Lemma own_reference_some g reference : own_reference g reference = true → is_Some (g_item g).
Proof. unfold own_reference. destruct (g_item g); by eauto. Qed.

Lemma may_reserve_facts g r :
  may_reserve c g r = true → qc_accepted_spend c = None ∧ g_reserved g = None ∧ is_Some (g_item g).
Proof.
  unfold may_reserve. rewrite !andb_true_iff. intros [[[[[Ha Hr] Ho] _] _] _].
  split; [by destruct (qc_accepted_spend c)|]. split; [by destruct (g_reserved g)|]. by eapply own_reference_some.
Qed.

(** Case analysis on everything a ghost's duties depend on. *)
Ltac duties :=
  repeat match goal with
         | Hb : guard _ _ = Some _ |- _ => apply guard_some in Hb as [Hb ->]
         | Hb : _ && _ = true |- _ => apply andb_true_iff in Hb as [? ?]
         | Hb : negb _ = true |- _ => apply negb_true_iff in Hb
         | Hb : may_reserve _ _ _ = true |- _ => apply may_reserve_facts in Hb as (? & ? & ?)
         | Hb : holds_item _ _ _ _ = true |- _ => apply holds_some in Hb
         | Hb : is_Some _ |- _ => destruct Hb
         | Hb : bool_decide _ = true |- _ => apply bool_decide_eq_true in Hb
         end.

Ltac settle_balance :=
  unfold balance, open_call, open_free, open_retry in *;
  repeat match goal with
         | x : bool |- _ => destruct x; cbn in *; try discriminate
         | x : option _ |- _ => destruct x; cbn in *; try discriminate
         end;
  repeat match goal with
         | Hb : None = None → _ |- _ => specialize (Hb eq_refl)
         | Hb : ?b = ?b → _ |- _ => specialize (Hb eq_refl)
         | Hb : _ ∧ _ |- _ => destruct Hb
         end; simplify_eq; cbn in *;
  (split; [split|cbn]); cbn; intros; try split; try congruence; repeat case_bool_decide;
    repeat match goal with Hb : ?x = _ |- context [is_some ?x] => rewrite Hb | Hb : ?x = _ |- context [Z.b2z ?x] => rewrite Hb end;
    cbn; try congruence; try lia.

Lemma step_balance g op a g' :
  ghost_wf g → watch_call g op a = Some g' → ghost_wf g' ∧ balance g [mkCall op a] g'.
Proof.
  intros Hwf Hw. destruct op.
  all: try (cbn in Hw; simplify_eq; split; [done|unfold balance; cbn; lia]).
  all: cbn in Hw; duties; destruct Hwf as [Hw1 Hw2 Hw3 Hw4].
  all: destruct g as [item_ reserved_ confirmed sent_ zero_ released_ finished_ closed_]; cbn in *; simplify_eq/=.
  - destruct a as [[item|]|e|]; simplify_eq; [|(split; [by split|unfold balance; cbn; lia])..]. duties. unfold accounted_b in *. duties.
    destruct (qc_accepted_spend c) eqn:Hs; settle_balance.
  - destruct (is_ok a); settle_balance.
  - settle_balance.
  - destruct (f_run_after failure) eqn:Hf; settle_balance.
  - destruct (accepted_ok a) eqn:Hok; settle_balance.
  - destruct (accepted_ok a) eqn:Hok; settle_balance.
  - destruct (qc_accepted_spend c) eqn:Hs; [|done]. destruct (is_ok a); settle_balance.
  - settle_balance.
  - destruct (bool_decide (state = SpendReleased)) eqn:Hst; duties; settle_balance.
  - destruct (dispatch_zero provider a) eqn:Hz; settle_balance.
Qed.

Lemma tally_cons f e tr : tally f (e :: tr) = tally f [e] + tally f tr.
Proof. unfold tally. cbn [foldr]. lia. Qed.

Lemma tally_history_app f tr tr' : tally f (tr ++ tr') = tally f tr + tally f tr'.
Proof. induction tr as [|e tr IH]; [done|]. cbn [app]. rewrite (tally_cons f e (tr ++ tr')), (tally_cons f e tr), IH. lia. Qed.

Lemma balance_trans g e g1 tr g2 : balance g [e] g1 → balance g1 tr g2 → balance g (e :: tr) g2.
Proof. unfold balance. rewrite !(tally_cons _ _ tr). lia. Qed.

Lemma history_balance g tr g' :
  ghost_wf g → follow watch_call g tr = Some g' → ghost_wf g' ∧ balance g tr g'.
Proof.
  revert g. induction tr as [|[op a] tr IH]; intros g Hwf Hf; cbn in Hf; [simplify_eq; split; [done|unfold balance; cbn; lia]|].
  destruct (watch_call g op a) as [g1|] eqn:Hw; [|done]. destruct (step_balance _ _ _ _ Hwf Hw) as [Hwf1 Hb].
  destruct (IH g1 Hwf1 Hf) as [Hwf' Hb']. split; [done|]. by eapply balance_trans.
Qed.

Lemma idle_wf : ghost_wf idle.
Proof. done. Qed.

End Calls.
