(* ===== verification/ExecutorGuards.v ===== *)
(** What a history of a queued call holds before each provider's call: the
    accepted reservation it spends, unused since, and a renewal of the lease
    after it. *)

From Stdlib Require Import ZArith Lia.
From stdpp Require Import base gmap strings list pretty.
From S2P Require Import Prelude Text Core QueueTypes SpendTypes Program Json Trace ExecutionPolicy Responses Executor ExecutorProofs ExecutorCalls.

#[local] Open Scope Z_scope.
#[local] Existing Instance json_values.

Section Guards.
Context `{!Chrono, !Sha256, !TextEncodings}.
Context {Req Res : Type} `{!TraceCarrier Res, !CredentialResponse Res, !Serde Res}.
Abbreviation Op' := (@Op Req).
Abbreviation Ans' := (@Ans Req Res).
Abbreviation Event := (event Ans').
Variable c : @QueuedCall Req.
Variable provider : ModelProvider.
Abbreviation watch_call := (watch_call c provider).

(** The reservation a call accepted. *)
Definition reserved_as (e : Event) : option SpendReservation :=
  match e with mkCall op a =>
    match op as op return Ans' op → option SpendReservation with
    | LedgerReserve r | LedgerReserveExplicit r _ => λ a, if accepted_ok a then Some r else None
    | LedgerAcquireHandoff handoff _ _ _ => λ a, if is_ok a then Some (ah_reservation handoff) else None
    | _ => λ _, None
    end a
  end.

(** The claim of an item of which this is the [attempt]. *)
Definition claimed_as (e : Event) : option (string * Z) :=
  match e with mkCall op a =>
    match op as op return Ans' op → option (string * Z) with
    | ClaimItem _ _ _ _ => λ a,
        match a with Ok (Some item) => Some (qi_item_id item, qi_attempt item) | _ => None end
    | _ => λ _, None
    end a
  end.

(** The lease on [id] was renewed in this worker's name. *)
Definition renewed (id : string) (e : Event) : Prop :=
  ∃ lease, e = mkCall (HeartbeatItem id (qc_worker_id c) lease) (Ok tt).

(** The reservation is for this call and this attempt of its item, or is the
    one the call was handed. *)
Definition reservation_for (id : string) (attempt : Z) (r : SpendReservation) : Prop :=
  match qc_accepted_spend c with
  | Some handoff => r = ah_reservation handoff
  | None =>
      runtime_reference id (Z.to_N attempt) = Ok (sr_reference r) ∧ sr_account r = qc_queue_id c ∧
      sr_invocation r = qc_invocation c ∧ sr_binding r = qc_attempt_binding c
  end.

(** The part of a history since the accepted reservation that is in use. *)
Definition backed (tr : list Event) (g : Ghost) (id : string) (attempt : Z) (reference : string) : Prop :=
  ∃ before e since r,
    tr = before ++ e :: since ∧ reserved_as e = Some r ∧ sr_reference r = reference ∧
    reservation_for id attempt r ∧ (∃ e0, e0 ∈ before ∧ claimed_as e0 = Some (id, attempt)) ∧
    (g_sent g = false → tally dispatches since = 0) ∧
    (g_released g = false → tally releases since = 0) ∧
    (g_confirmed g = true → ∃ e1, e1 ∈ since ∧ renewed id e1).

Record guarded (tr : list Event) (g : Ghost) : Prop := {
  gd_item : ∀ id attempt, g_item g = Some (id, attempt) → ∃ e0, e0 ∈ tr ∧ claimed_as e0 = Some (id, attempt);
  gd_reserved : ∀ reference, g_reserved g = Some reference →
    ∃ id attempt, g_item g = Some (id, attempt) ∧ backed tr g id attempt reference;
}.

(** A step that leaves item and reservation alone. *)
Lemma guarded_snoc tr g e g' :
  guarded tr g → g_item g' = g_item g → g_reserved g' = g_reserved g →
  (g_sent g' = false → g_sent g = false ∧ dispatches e = false) →
  (g_released g' = false → g_released g = false ∧ releases e = false) →
  (g_confirmed g' = true → g_confirmed g = true ∨ ∀ id attempt, g_item g = Some (id, attempt) → renewed id e) →
  guarded (tr ++ [e]) g'.
Proof.
  intros [Hi Hg] Hit Hr Hs Hrel Hc. split; rewrite ?Hr, ?Hit.
  { intros id attempt Hid. destruct (Hi _ _ Hid) as (e0 & Hin & He0). exists e0. split; [apply elem_of_app; by left|done]. }
  intros reference Hres. destruct (Hg _ Hres) as (id & attempt & Hid & Hb). exists id, attempt. split; [done|].
  destruct Hb as (before & e0 & since & r & -> & He0 & Href & Hfor & Hcl & Hsent & Hreld & Hconf).
  exists before, e0, (since ++ [e]), r. do 5 (split; [by rewrite <- ?app_assoc|]). split; [|split].
  - intros Hs'. destruct (Hs Hs') as [Hs0 He]. rewrite (tally_history_app dispatches since), Hsent by done. cbn. by rewrite He.
  - intros Hr'. destruct (Hrel Hr') as [Hr0 He]. rewrite (tally_history_app releases since), Hreld by done. cbn. by rewrite He.
  - intros Hc'. destruct (Hc Hc') as [Hc0|Hren].
    + destruct (Hconf Hc0) as (e1 & Hin & Hren). exists e1. split; [apply elem_of_app; by left|done].
    + exists e. split; [apply elem_of_app; right; by apply list_elem_of_singleton|]. by eapply Hren.
Qed.

Lemma guarded_reserve tr g e r id attempt :
  guarded tr g → reserved_as e = Some r → g_item g = Some (id, attempt) → reservation_for id attempt r →
  g_sent g = false → g_released g = false → guarded (tr ++ [e]) (g_reserve (sr_reference r) g).
Proof.
  intros [Hi Hg] He Hid Hfor Hs Hr. split; cbn.
  { intros id' attempt' Hid'. destruct (Hi _ _ Hid') as (e0 & Hin & He0). exists e0.
    split; [apply elem_of_app; by left|done]. }
  intros reference' [= <-]. exists id, attempt. split; [done|]. exists tr, e, [], r. by split_and!; eauto.
Qed.

Lemma may_reserve_for g r :
  may_reserve c g r = true → g_reserved g = None ∧
    ∃ id attempt, g_item g = Some (id, attempt) ∧ reservation_for id attempt r.
Proof.
  unfold may_reserve, own_reference, reservation_for. rewrite !andb_true_iff, !bool_decide_eq_true.
  intros [[[[[Ha Hr] Ho] ?] ?] ?].
  destruct (qc_accepted_spend c); [done|]. destruct (g_reserved g); [done|]. destruct (g_item g) as [[id n]|]; [|done].
  split; [done|]. exists id, n. split; [done|].
  destruct (runtime_reference id (Z.to_N n)) as [own| |]; try done. apply bool_decide_eq_true in Ho. by subst.
Qed.

Lemma guarded_step tr g op a g' :
  ghost_wf g → guarded tr g → watch_call g op a = Some g' → guarded (tr ++ [mkCall op a]) g'.
Proof.
  intros Hwf Hg Hw.
  assert (∀ r id n, reserved_as (mkCall op a) = Some r → g_item g = Some (id, n) → reservation_for id n r →
    g_reserved g = None → guarded (tr ++ [mkCall op a]) (g_reserve (sr_reference r) g)) as Hnew.
  { intros r id n He Hid Hfor Hn. by apply (guarded_reserve _ _ _ r id n); try apply Hwf. }
  destruct op; cbn in Hw.
  all: try (simplify_eq; apply (guarded_snoc _ _ _ _ Hg); by eauto).
  all: try (apply guard_some in Hw as [Hb ->]).
  all: try (by apply (guarded_snoc _ _ _ _ Hg); eauto).
  - destruct a as [[item|]|e|]; simplify_eq; [|apply (guarded_snoc _ _ _ _ Hg); by eauto..].
    apply guard_some in Hw as [_ ->]. split; [|done]. intros id n [= <- <-]. eexists.
    split; [apply elem_of_app; right; by apply list_elem_of_singleton|done].
  - destruct a as [[]|e|]; cbn [is_ok]; apply (guarded_snoc _ _ _ _ Hg); try by eauto.
    intros _. right. intros id n Hid. unfold holds_item in Hb. rewrite Hid in Hb.
    apply andb_true_iff in Hb as [->%bool_decide_eq_true ->%bool_decide_eq_true]. by eexists.
  - apply andb_true_iff in Hb as [(Hn & id & n & Hid & Hfor)%may_reserve_for _].
    destruct (accepted_ok a) eqn:Hok; [|apply (guarded_snoc _ _ _ _ Hg); by eauto].
    apply (Hnew r id n); try done. cbn. by rewrite Hok.
  - apply andb_true_iff in Hb as [[(Hn & id & n & Hid & Hfor)%may_reserve_for _]%andb_true_iff _].
    destruct (accepted_ok a) eqn:Hok; [|apply (guarded_snoc _ _ _ _ Hg); by eauto].
    apply (Hnew r id n); try done. cbn. by rewrite Hok.
  - rewrite !andb_true_iff, !bool_decide_eq_true in Hb. destruct Hb as [[[Hn Hi] _] Ha].
    destruct (is_ok a) eqn:Hok; [|apply (guarded_snoc _ _ _ _ Hg); by eauto].
    destruct (g_item g) as [[id n]|] eqn:Hid; [|done]. apply (Hnew _ id n); [cbn; by rewrite Hok|done| |by destruct (g_reserved g)].
    unfold reservation_for. destruct (qc_accepted_spend c); [|done]. by apply bool_decide_eq_true in Ha.
Qed.

Lemma guarded_nil : guarded [] idle.
Proof. done. Qed.

Lemma history_guarded tr tr' g g' :
  ghost_wf g → guarded tr g → follow watch_call g tr' = Some g' → guarded (tr ++ tr') g'.
Proof.
  revert tr g. induction tr' as [|[op a] tr' IH]; intros tr g Hwf Hg Hf; cbn in Hf; [simplify_eq; by rewrite app_nil_r|].
  destruct (watch_call g op a) as [g1|] eqn:Hw; [|done].
  rewrite (cons_middle _ tr tr'), app_assoc. apply (IH _ g1); [|by eapply guarded_step|done].
  by eapply step_balance.
Qed.

Lemma follow_app {M} (mon : M → ∀ op, Ans' op → option M) m tr tr' :
  follow mon m (tr ++ tr') = follow mon m tr ≫= λ m, follow mon m tr'.
Proof. revert m. induction tr as [|[op a] tr IH]; intros m; cbn; [done|]. destruct (mon m op a); cbn; [apply IH|done]. Qed.

(** Before a provider's call in an accepted history. *)
Lemma dispatch_backed tr request a rest g' :
  follow watch_call idle (tr ++ mkCall (Dispatch request) a :: rest) = Some g' →
  ∃ id attempt before e since r,
    tr = before ++ e :: since ∧ reserved_as e = Some r ∧ reservation_for id attempt r ∧
    (∃ e0, e0 ∈ before ∧ claimed_as e0 = Some (id, attempt)) ∧
    tally dispatches since = 0 ∧ tally releases since = 0 ∧ (∃ e1, e1 ∈ since ∧ renewed id e1).
Proof.
  rewrite follow_app. destruct (follow watch_call idle tr) as [g|] eqn:Hf; [|done]. cbn.
  unfold guard. intros Hw.
  assert (guarded tr g) as [_ Hg] by (by apply (history_guarded [] tr idle)).
  destruct (is_some (g_reserved g) && g_confirmed g && negb (g_sent g) && negb (g_released g) && negb (g_closed g)) eqn:Hb; [|done].
  rewrite !andb_true_iff, !negb_true_iff in Hb. destruct Hb as [[[[Hr Hc] Hs] Hrel] _].
  destruct (g_reserved g) as [reference|]; [|done]. destruct (Hg _ eq_refl) as (id & n & Hid & Hb).
  destruct Hb as (before & e & since & r & -> & He & Href & Hfor & Hcl & H1' & H2' & H3').
  exists id, n, before, e, since, r. auto 10.
Qed.

End Guards.
