(* ===== verification/ExecutorLedger.v ===== *)
(** How the executor's ledger calls are answered by the ledger, and what the
    ledger keeps of a receipt while nobody decides it.

    A call may fail on its way: then its effect is there or it is not.  A read
    is answered from the ledger or fails. *)

From Stdlib Require Import ZArith Lia.
From stdpp Require Import base gmap strings list sorting.
From S2P Require Import Prelude Core QueueTypes SpendTypes SpendLedger SpendInv SpendProofs Program Json Trace ExecutionPolicy Responses Executor ExecutorProofs ExecutorCalls ExecutorGuards.

#[local] Open Scope Z_scope.
#[local] Existing Instance json_values.

Section Keeps.
Context `{!Chrono, !ExpiryOrder}.

(** ** What a call keeps *)

(** The receipt [reference] is still there, as released or not and as handed
    over or not as before; with [strict], as decided or not as before too. *)
Definition keeps (strict : bool) (reference : string) (l l' : Ledger) : Prop :=
  ∀ row, find_row l reference = Some row → ∃ row',
    find_row l' reference = Some row' ∧ rr_reservation row' = rr_reservation row
    ∧ rr_attempt_limit row' = rr_attempt_limit row
    ∧ rr_pre_dispatch_released row' = rr_pre_dispatch_released row
    ∧ rr_handoff_input row' = rr_handoff_input row
    ∧ (strict = true → rr_state row' = rr_state row).

Lemma keeps_refl strict reference l : keeps strict reference l l.
Proof. intros row Hf. by exists row. Qed.

Lemma keeps_trans strict reference l1 l2 l3 :
  keeps strict reference l1 l2 → keeps strict reference l2 l3 → keeps strict reference l1 l3.
Proof.
  intros H12 H23 row Hf. destruct (H12 row Hf) as (row2 & Hf2 & R2 & L2 & P2 & I2 & S2).
  destruct (H23 row2 Hf2) as (row3 & Hf3 & R3 & L3 & P3 & I3 & S3). exists row3.
  split_and!; [done|congruence..|]. intros Hs. rewrite S3, S2; done.
Qed.

Lemma keeps_update strict reference p f accounts l :
  (∀ row, rr_reservation (f row) = rr_reservation row) →
  (∀ row, p row = true → row_reference row = reference →
    rr_attempt_limit (f row) = rr_attempt_limit row ∧
    rr_pre_dispatch_released (f row) = rr_pre_dispatch_released row ∧
    rr_handoff_input (f row) = rr_handoff_input row ∧ (strict = true → rr_state (f row) = rr_state row)) →
  keeps strict reference l (mkLedger accounts (update_where p f (spend_receipts l))).
Proof.
  intros Hres Hp row Hf. exists (if p row then f row else row). split.
  - unfold find_row in *. cbn [spend_receipts]. rewrite select_update, head_update, Hf; [done|].
    intros x. unfold has_reference, row_reference. by rewrite Hres.
  - apply find_row_elem in Hf as [_ Hk]. destruct (p row) eqn:Hpr; [|done].
    destruct (Hp row Hpr Hk) as (Hl & Hpre & Hin & Hst). by rewrite Hres.
Qed.

Lemma keeps_append strict reference l accounts ext :
  keeps strict reference l (mkLedger accounts (spend_receipts l ++ ext)).
Proof.
  intros row Hf. exists row. split; [|done]. unfold find_row in *. cbn [spend_receipts]. rewrite select_where_app.
  by destruct (select_where (has_reference reference) (spend_receipts l)).
Qed.

(** Calls that decide [reference]: a release, or with [strict] a settlement. *)
Definition decides (strict : bool) (reference : string) (call : LedgerCall) : bool :=
  match call with
  | CReleaseBeforeDispatch r => bool_decide (r = reference)
  | CFinish r _ _ _ _ => strict && bool_decide (r = reference)
  | _ => false
  end.

Lemma keeps_reserve strict reference l clock r attempt_limit handoff l' b :
  ledger_ok l → reserve_with_limit_in l clock r attempt_limit handoff = Ok (l', b) → keeps strict reference l l'.
Proof.
  intros Hok Heq. destruct b.
  - destruct (reserve_accepted _ _ _ _ _ _ Hok Heq) as [_ _ _ _ _ _ ->]. apply keeps_append.
  - rewrite (reserve_refused _ _ _ _ _ _ Hok Heq). apply keeps_refl.
Qed.

(** A handed reservation is marked when it is accepted, and so is none that was
    there before. *)
Lemma keeps_handoff strict reference l clock r input l' :
  ledger_ok l → reserve_with_limit_in l clock r None true = Ok (l', true) →
  keeps strict reference l (update_receipt (sr_reference r) (set_handoff_input input) l').
Proof.
  intros Hok Heq. destruct (reserve_accepted _ _ _ _ _ _ Hok Heq) as [Hnew _ _ _ _ _ _].
  destruct (decide (sr_reference r = reference)) as [<-|Hne]; [intros row Hf; congruence|].
  eapply keeps_trans; [by eapply keeps_reserve|]. apply keeps_update; [done|]. intros x Hx Hk.
  unfold has_reference, row_reference in *. apply bool_decide_eq_true in Hx. congruence.
Qed.

Lemma keeps_clear strict reference p accounts l :
  keeps strict reference l (mkLedger accounts (update_where p clear_recovery (spend_receipts l))).
Proof. by apply keeps_update. Qed.

Lemma keeps_clear_references strict reference l references :
  keeps strict reference l (clear_references l references).1.
Proof.
  revert l. induction references as [|r references IH]; intros l; cbn; [apply keeps_refl|].
  specialize (IH (update_receipt r clear_recovery l)). destruct (clear_references _ references) as [l' n]. cbn in *.
  eapply keeps_trans; [apply keeps_clear|exact IH].
Qed.

Lemma keeps_save_recovery strict reference policy l clock r output retention deadline invocation now l' u :
  save_recovery_in policy l clock r output retention deadline invocation now = Ok (l', u) → keeps strict reference l l'.
Proof.
  unfold save_recovery_in. case_bool_decide; [intros [= <- _]; apply keeps_refl|]. walk.
  destruct output as [value|]; [|intros [= <- _]; apply keeps_refl].
  destruct (negb _); [intros [= <- _]; apply keeps_refl|].
  destruct (is_some _); [case_bool_decide; [intros [= <- _]; apply keeps_refl|done]|]. walk.
  destruct (_ || _); intros [= <- _]; [apply keeps_refl|by apply keeps_update].
Qed.

Lemma keeps_finish strict reference l clock r state usage output l' u :
  ledger_ok l → strict && bool_decide (r = reference) = false →
  finish_in l clock r state usage output = Ok (l', u) → keeps strict reference l l'.
Proof.
  intros Hok Hne. rewrite finish_eq by done. destruct (find_row l r) as [row|] eqn:Hf; [|done].
  destruct (evidence_refused _ _ _ _); [done|].
  destruct (bool_decide (rr_state row = SpendUnknown)); cycle 1.
  { branch; [|done]. intros [= <- _]. apply keeps_refl. }
  intros [= <- _]. apply keeps_update; [done|]. intros x Hx Hk. do 3 (split; [done|]). intros ->.
  unfold has_reference, row_reference in *. apply bool_decide_eq_true in Hx. apply bool_decide_eq_false in Hne. congruence.
Qed.

Lemma keeps_release strict reference l clock r l' u :
  ledger_ok l → r ≠ reference → release_in l clock r = Ok (l', u) → keeps strict reference l l'.
Proof.
  intros Hok Hne. rewrite release_eq by done. destruct (find_row l r) as [row|]; [|done]. case_bool_decide; cycle 1.
  { destruct (rr_pre_dispatch_released row); [|done]. intros [= <- _]. apply keeps_refl. }
  destruct (is_some _); [done|]. intros [= <- _]. apply keeps_update; [done|]. intros x Hx Hk.
  unfold has_reference, row_reference in *. apply bool_decide_eq_true in Hx. congruence.
Qed.

Lemma keeps_commit {A} strict reference l (c : result ModelError (Ledger * A)) :
  (∀ l' a, c = Ok (l', a) → keeps strict reference l l') → keeps strict reference l (commit l c).1.
Proof. intros Hc. destruct c as [[l' a]| |]; cbn; [by eapply Hc|apply keeps_refl..]. Qed.

(** A call that does not decide a receipt keeps it. *)
Lemma exec_keeps strict reference policy retention l now clock call :
  ledger_ok l → decides strict reference call = false →
  keeps strict reference l (ledger_exec policy retention l now clock call).1.
Proof.
  intros Hok Hd. destruct call; cbn [ledger_exec forget fst].
  - apply keeps_commit. intros l' a. by apply keeps_reserve.
  - apply keeps_commit. intros l' a. by apply keeps_reserve.
  - apply keeps_commit. intros l' a. unfold reserve_handoff_in. case_bool_decide; [done|]. walk.
    destruct b.
    + intros [= <- _]. by eapply keeps_handoff.
    + walk. case_bool_decide; [|done]. intros [= <- _]. by eapply keeps_reserve.
  - apply keeps_commit. intros l' a. unfold acquire_handoff_in. walk. destruct (bool_decide (length _ = _)); [|done].
    intros [= <- _]. by apply keeps_update.
  - apply keeps_commit. intros l' a. apply keeps_release; [done|]. by apply bool_decide_eq_false in Hd.
  - unfold SpendLedger.finish. apply keeps_commit. intros l' a. walk. intros Hf.
    eapply keeps_trans; [by eapply keeps_save_recovery|]. eapply keeps_finish; [|done|done].
    by eapply save_recovery_sound.
  - unfold discard_recovery. destruct (latest l account invocation); [apply keeps_clear|apply keeps_refl].
  - apply keeps_commit. intros l' a. unfold purge_recovery. walk. intros [= Ec].
    pose proof (keeps_clear_references strict reference l a0) as Hk. by rewrite Ec in Hk.
  - rewrite expire_recovery_eq. apply keeps_clear.
Qed.

(** Whether a receipt is a handed one never changes. *)
Definition keeps_input (reference : string) (l l' : Ledger) : Prop :=
  ∀ row, find_row l reference = Some row → ∃ row',
    find_row l' reference = Some row' ∧ rr_handoff_input row' = rr_handoff_input row.

Lemma release_input reference l clock l' u :
  ledger_ok l → release_in l clock reference = Ok (l', u) → keeps_input reference l l'.
Proof.
  intros Hok. rewrite release_eq by done. intros Heq row Hf. rewrite Hf in Heq. case_bool_decide; cycle 1.
  { destruct (rr_pre_dispatch_released row); [|done]. injection Heq as <- _. by exists row. }
  destruct (is_some _); [done|]. injection Heq as <- _. exists (released row). split; [|done].
  apply find_row_update; [done|done|]. by destruct (find_row_elem _ _ _ Hf).
Qed.

Lemma exec_input reference policy retention l now clock call :
  ledger_ok l → keeps_input reference l (ledger_exec policy retention l now clock call).1.
Proof.
  intros Hok. destruct (decides false reference call) eqn:Hd; cycle 1.
  { intros row Hf. destruct (exec_keeps false reference policy retention l now clock call Hok Hd row Hf)
      as (row' & Hf' & _ & _ & _ & Hi & _). by exists row'. }
  destruct call; try done. cbn in Hd. apply bool_decide_eq_true in Hd as ->. cbn. unfold release_before_dispatch, commit.
  destruct (release_in l clock reference) as [[l' u]| |] eqn:Er; cbn; [by eapply release_input|by intros row Hf; exists row..].
Qed.

End Keeps.

(** ** What a history spent *)

Section Spent.
Context `{!Chrono, !Sha256, !TextEncodings}.
Context {Req Res : Type} `{!TraceCarrier Res, !CredentialResponse Res, !Serde Res}.
Abbreviation Op' := (@Op Req).
Abbreviation Ans' := (@Ans Req Res).
Abbreviation Event := (event Ans').

(** The accepted reservations, in order, and their references. *)
Definition accepted_reservations (tr : list Event) : list SpendReservation := omap reserved_as tr.
Definition accepted_refs (tr : list Event) : list string := sr_reference <$> accepted_reservations tr.

(** The references released before dispatch. *)
Definition released_refs (tr : list Event) : list string :=
  omap (λ e, match ev_op e with LedgerRelease reference => Some reference | _ => None end) tr.

(** The reservation in use and the references it was dispatched under so far. *)
Definition spend_step (s : option string * list string) (e : Event) : option string * list string :=
  match reserved_as e with
  | Some r => (Some (sr_reference r), s.2)
  | None => if dispatches e then (s.1, s.2 ++ option_list s.1) else s
  end.

Definition in_use (tr : list Event) : option string := (foldl spend_step (None, []) tr).1.
Definition spent (tr : list Event) : list string := (foldl spend_step (None, []) tr).2.

(** A reservation that may still be dispatched. *)
Definition open_refs (g : Ghost) : list string :=
  match g_reserved g with
  | Some reference => if g_sent g || g_released g then [] else [reference]
  | None => []
  end.

(** What became of the accepted reservations: each was spent, was released or
    may still be dispatched; a call that was handed its reservation may also
    have left it to the owner. *)
Record view (c : @QueuedCall Req) (tr : list Event) (g : Ghost) : Prop := {
  v_parts : spent tr ++ released_refs tr ++ open_refs g ⊆+ accepted_refs tr;
  v_own : qc_accepted_spend c = None → accepted_refs tr ≡ₚ spent tr ++ released_refs tr ++ open_refs g;
  v_in_use reference : g_reserved g = Some reference → in_use tr = Some reference;
  v_sent reference : g_reserved g = Some reference → g_sent g = true → reference ∈ spent tr;
}.

Lemma reservations_snoc tr e : accepted_reservations (tr ++ [e]) = accepted_reservations tr ++ option_list (reserved_as e).
Proof. unfold accepted_reservations. rewrite omap_app. cbn. by destruct (reserved_as e). Qed.

Lemma accepted_snoc tr e : accepted_refs (tr ++ [e]) = accepted_refs tr ++ option_list (sr_reference <$> reserved_as e).
Proof. unfold accepted_refs. rewrite reservations_snoc, fmap_app. by destruct (reserved_as e). Qed.

Lemma released_snoc tr e : released_refs (tr ++ [e]) =
  released_refs tr ++ match ev_op e with LedgerRelease reference => [reference] | _ => [] end.
Proof. unfold released_refs. rewrite omap_app. cbn. by destruct (ev_op e). Qed.

Lemma spend_snoc tr e : foldl spend_step (None, []) (tr ++ [e]) = spend_step (in_use tr, spent tr) e.
Proof. rewrite foldl_app. cbn. unfold in_use, spent. by destruct (foldl spend_step (None, []) tr). Qed.

Variable c : @QueuedCall Req.
Variable provider : ModelProvider.
Abbreviation watch_call := (watch_call c provider).

(** A call that neither reserves, sends nor releases. *)
Lemma view_idle tr g e g' :
  view c tr g → reserved_as e = None → dispatches e = false → releases e = false →
  g_reserved g' = g_reserved g → g_sent g' = g_sent g → g_released g' = g_released g → view c (tr ++ [e]) g'.
Proof.
  intros [Hp Ho Hu Hs] He Hd Hr E1 E2 E3.
  assert (in_use (tr ++ [e]) = in_use tr ∧ spent (tr ++ [e]) = spent tr) as [Eu Es].
  { unfold in_use at 1, spent at 1. rewrite spend_snoc. unfold spend_step. by rewrite He, Hd. }
  assert (accepted_refs (tr ++ [e]) = accepted_refs tr) as Ea by (rewrite accepted_snoc, He; apply app_nil_r).
  assert (released_refs (tr ++ [e]) = released_refs tr) as Er.
  { rewrite released_snoc. unfold releases in Hr. destruct (ev_op e); try done; apply app_nil_r. }
  assert (open_refs g' = open_refs g) as Eo by (unfold open_refs; by rewrite E1, E2, E3).
  split; by rewrite ?Eu, ?Es, ?Ea, ?Er, ?Eo, ?E1, ?E2.
Qed.

Lemma view_reserve tr g e r :
  view c tr g → reserved_as e = Some r → releases e = false →
  g_reserved g = None → g_sent g = false → g_released g = false → view c (tr ++ [e]) (g_reserve (sr_reference r) g).
Proof.
  intros [Hp Ho Hu Hs] He Hr E1 E2 E3.
  assert (in_use (tr ++ [e]) = Some (sr_reference r) ∧ spent (tr ++ [e]) = spent tr) as [Eu Es].
  { unfold in_use at 1, spent at 1. rewrite spend_snoc. unfold spend_step. by rewrite He. }
  assert (accepted_refs (tr ++ [e]) = accepted_refs tr ++ [sr_reference r]) as Ea by (by rewrite accepted_snoc, He).
  assert (released_refs (tr ++ [e]) = released_refs tr) as Er.
  { rewrite released_snoc. unfold releases in Hr. destruct (ev_op e); try done; apply app_nil_r. }
  assert (open_refs g = []) as Eo by (unfold open_refs; by rewrite E1).
  assert (open_refs (g_reserve (sr_reference r) g) = [sr_reference r]) as Eo' by (unfold open_refs; cbn; by rewrite E2, E3).
  split; rewrite ?Eu, ?Es, ?Ea, ?Er, ?Eo'; [| |by intros ? [= <-]|cbn; congruence]; rewrite Eo, app_nil_r in *.
  - rewrite app_assoc. by apply submseteq_app.
  - intros Hc. by rewrite (Ho Hc), app_assoc.
Qed.

Lemma accounted_closed g : qc_accepted_spend c = None → accounted_b c g = true → open_refs g = [].
Proof.
  intros Hc. unfold accounted_b, open_refs. rewrite Hc. intros [[_ Hb]%andb_true_iff _]%andb_true_iff.
  by destruct (g_reserved g), (g_sent g), (g_released g).
Qed.

(** A claim drops what is left of the attempt before. *)
Lemma view_claim tr g item : accounted_b c g = true → view c tr g → view c tr (g_claimed item idle).
Proof.
  intros Hb [Hp Ho _ _]. split; [| |done|done]; cbn; rewrite app_nil_r.
  - etrans; [|exact Hp]. apply submseteq_app; [done|]. by apply submseteq_inserts_r.
  - intros Hc. rewrite (Ho Hc), (accounted_closed g Hc Hb). by rewrite app_nil_r.
Qed.

Lemma view_release tr g reference a :
  view c tr g → open_refs g = [reference] → g_sent g = false →
  view c (tr ++ [mkCall (Ans := Ans') (LedgerRelease reference) a]) (g_release g).
Proof.
  intros [Hp Ho Hu Hs] Hop Hsent. set (e := mkCall (Ans := Ans') (LedgerRelease reference) a).
  assert (in_use (tr ++ [e]) = in_use tr ∧ spent (tr ++ [e]) = spent tr) as [Eu Es].
  { unfold in_use at 1, spent at 1. by rewrite spend_snoc. }
  assert (open_refs (g_release g) = []) as Eo by (unfold open_refs; cbn; by destruct (g_reserved g), (g_sent g)).
  assert (accepted_refs (tr ++ [e]) = accepted_refs tr) as Ea by (rewrite accepted_snoc; apply app_nil_r).
  split; rewrite ?Eu, ?Es, ?Ea, ?released_snoc, ?Eo; [| |done|cbn; congruence]; cbn; by rewrite app_nil_r, <- Hop.
Qed.

Lemma view_dispatch tr g reference request a :
  view c tr g → g_reserved g = Some reference → open_refs g = [reference] →
  view c (tr ++ [mkCall (Ans := Ans') (Dispatch request) a]) (g_send (dispatch_zero provider a) g).
Proof.
  intros [Hp Ho Hu Hs] Hr Hop. set (e := mkCall (Ans := Ans') (Dispatch request) a).
  assert (in_use (tr ++ [e]) = Some reference ∧ spent (tr ++ [e]) = spent tr ++ [reference]) as [Eu Es].
  { unfold in_use at 1, spent at 1. rewrite spend_snoc. unfold spend_step. cbn. by rewrite (Hu reference). }
  assert (accepted_refs (tr ++ [e]) = accepted_refs tr) as Ea by (rewrite accepted_snoc; apply app_nil_r).
  assert (released_refs (tr ++ [e]) = released_refs tr) as Er by (rewrite released_snoc; apply app_nil_r).
  assert (open_refs (g_send (dispatch_zero provider a) g) = []) as Eo by (unfold open_refs; cbn; by rewrite Hr).
  assert ((spent tr ++ [reference]) ++ released_refs tr ++ [] ≡ₚ spent tr ++ released_refs tr ++ open_refs g) as Hperm.
  { rewrite Hop, app_nil_r, <- app_assoc. apply Permutation_app_head, Permutation_app_comm. }
  split; rewrite ?Eu, ?Es, ?Ea, ?Er, ?Eo; [by rewrite Hperm|by rewrite Hperm|cbn; by rewrite Hr; intros ? [= <-]|cbn; rewrite Hr].
  intros ? [= <-] _. apply elem_of_app. right. by apply list_elem_of_singleton.
Qed.

Lemma view_step tr g op a g' :
  ghost_wf g → view c tr g → watch_call g op a = Some g' → view c (tr ++ [mkCall op a]) g'.
Proof.
  intros Hwf Hv Hw.
  assert (∀ r, reserved_as (mkCall op a) = Some r → releases (mkCall op a) = false → g_reserved g = None →
    view c (tr ++ [mkCall op a]) (g_reserve (sr_reference r) g)) as Hnew.
  { intros r He Hr Hn. apply view_reserve; try done; by apply Hwf. }
  destruct op; cbn in Hw.
  all: try (simplify_eq; by apply (view_idle _ _ _ _ Hv)).
  all: try (apply guard_some in Hw as [Hb ->]).
  all: try (by apply (view_idle _ _ _ _ Hv)).
  - destruct a as [[item|]|e|]; [|simplify_eq; by apply (view_idle _ _ _ _ Hv)..].
    apply guard_some in Hw as [Hb ->]. apply (view_claim _ g); [done|]. by apply (view_idle _ _ _ _ Hv).
  - destruct (is_ok a); by apply (view_idle _ _ _ _ Hv).
  - apply andb_true_iff in Hb as [(_ & Hn & _)%may_reserve_facts _].
    destruct (accepted_ok a) eqn:Hok; [|apply (view_idle _ _ _ _ Hv); try done; cbn; by rewrite Hok].
    apply Hnew; try done. cbn. by rewrite Hok.
  - rewrite !andb_true_iff in Hb. destruct Hb as [[(_ & Hn & _)%may_reserve_facts _] _].
    destruct (accepted_ok a) eqn:Hok; [|apply (view_idle _ _ _ _ Hv); try done; cbn; by rewrite Hok].
    apply Hnew; try done. cbn. by rewrite Hok.
  - rewrite !andb_true_iff in Hb. destruct Hb as [[[Hn _] _] _].
    destruct (is_ok a) eqn:Hok; [|apply (view_idle _ _ _ _ Hv); try done; cbn; by rewrite Hok].
    apply Hnew; [cbn; by rewrite Hok|done|by destruct (g_reserved g)].
  - rewrite !andb_true_iff, !negb_true_iff, bool_decide_eq_true in Hb. destruct Hb as [[[Hr Hs] Hrel] _].
    apply view_release; [done| |done]. unfold open_refs. by rewrite Hr, Hs, Hrel.
  - rewrite !andb_true_iff, !negb_true_iff in Hb. destruct Hb as [[[[Hr _] Hs] Hrel] _].
    destruct (g_reserved g) as [reference|] eqn:Hres; [|done].
    apply (view_dispatch _ _ reference); [done|done|]. unfold open_refs. by rewrite Hres, Hs, Hrel.
Qed.

Lemma view_nil : view c [] idle.
Proof. done. Qed.

Lemma history_view tr tr' g g' :
  ghost_wf g → view c tr g → follow watch_call g tr' = Some g' → view c (tr ++ tr') g'.
Proof.
  revert tr g. induction tr' as [|[op a] tr' IH]; intros tr g Hwf Hg Hf; cbn in Hf; [simplify_eq; by rewrite app_nil_r|].
  destruct (watch_call g op a) as [g1|] eqn:Hw; [|done].
  rewrite (cons_middle _ tr tr'), app_assoc. apply (IH _ g1); [|by eapply view_step|done]. by eapply step_balance.
Qed.

End Spent.
