(* ===== verification/ExecutorBooks.v ===== *)
(** The books of a queued call: which item each claim was given back, and
    which provider's call each settlement is for.

    The lists below are read off a history; [books] relates them to the
    monitor's state, and [call_books] says what is left when the call
    returns. *)

From Stdlib Require Import ZArith Lia.
From stdpp Require Import base gmap strings list sorting.
From S2P Require Import Prelude Core QueueTypes SpendTypes SpendLedger Program Json Trace ExecutionPolicy Responses Executor ExecutorProofs ExecutorCalls ExecutorGuards ExecutorLedger.

#[local] Open Scope Z_scope.
#[local] Existing Instance json_values.

Section Books.
Context `{!Chrono, !Sha256, !TextEncodings}.
Context {Req Res : Type} `{!TraceCarrier Res, !CredentialResponse Res, !Serde Res}.
Abbreviation Op' := (@Op Req).
Abbreviation Ans' := (@Ans Req Res).
Abbreviation Event := (event Ans').

(** The items leased to the call, and those it gave back, in order. *)
Definition claimed_items (tr : list Event) : list string := omap (λ e, fst <$> claimed_as e) tr.
Definition closed_as (e : Event) : option string :=
  match ev_op e with CompleteItem id _ | FailItem id _ _ => Some id | _ => None end.
Definition closed_items (tr : list Event) : list string := omap closed_as tr.

(** The references the call settled, and those it settled as free of cost. *)
Definition finished_as (e : Event) : option (string * SpendState) :=
  match ev_op e with LedgerFinish reference state _ _ _ => Some (reference, state) | _ => None end.
Definition finished_refs (tr : list Event) : list string := omap (λ e, fst <$> finished_as e) tr.
Definition freed_as (e : Event) : option string :=
  match finished_as e with
  | Some (reference, state) => if bool_decide (state = SpendReleased) then Some reference else None
  | None => None
  end.
Definition freed_refs (tr : list Event) : list string := omap freed_as tr.

Variable c : @QueuedCall Req.
Variable provider : ModelProvider.
Abbreviation watch_call := (watch_call c provider).

(** The references of the provider's calls that are known to have cost
    nothing: as [spent], for those calls only. *)
Definition free_step (s : option string * list string) (e : Event) : option string * list string :=
  match reserved_as e with
  | Some r => (Some (sr_reference r), s.2)
  | None => if dispatches_free provider e then (s.1, s.2 ++ option_list s.1) else s
  end.
Definition free_refs (tr : list Event) : list string := (foldl free_step (None, []) tr).2.

(** What the monitor's state leaves open. *)
Definition open_items (g : Ghost) : list string :=
  match g_item g with Some (id, _) => if g_closed g then [] else [id] | None => [] end.
Definition open_calls (g : Ghost) : list string := if open_call g then option_list (g_reserved g) else [].
Definition open_frees (g : Ghost) : list string := if open_free g then option_list (g_reserved g) else [].

Record books (tr : list Event) (g : Ghost) : Prop := {
  bk_items : claimed_items tr = closed_items tr ++ open_items g;
  bk_finished : finished_refs tr ++ open_calls g ⊆+ spent tr;
  bk_free : qc_accepted_spend c = None → free_refs tr = freed_refs tr ++ open_frees g;
  bk_handed h : qc_accepted_spend c = Some h →
    finished_refs tr = [] ∧ released_refs tr = [] ∧ Forall (λ r, r = ah_reservation h) (accepted_reservations tr);
}.

Lemma omap_snoc {A B} (f : A → option B) l x : omap f (l ++ [x]) = omap f l ++ option_list (f x).
Proof. rewrite omap_app. cbn. by destruct (f x). Qed.

Lemma free_in_use (tr : list Event) : (foldl free_step (None, []) tr).1 = in_use tr.
Proof.
  induction tr as [|e tr IH] using rev_ind; [done|]. unfold in_use. rewrite spend_snoc, foldl_app. cbn.
  unfold free_step, spend_step. destruct (reserved_as e); [done|]. by destruct (dispatches_free provider e), (dispatches e).
Qed.

Lemma free_snoc (tr : list Event) (e : Event) : reserved_as e = None →
  free_refs (tr ++ [e]) = free_refs tr ++ if dispatches_free provider e then option_list (in_use tr) else [].
Proof.
  intros He. unfold free_refs. rewrite foldl_app. cbn. unfold free_step at 1. rewrite He, <- free_in_use.
  destruct (dispatches_free provider e); [done|]. by rewrite app_nil_r.
Qed.

Lemma free_snoc_reserved tr e r : reserved_as e = Some r → free_refs (tr ++ [e]) = free_refs tr.
Proof. intros He. unfold free_refs. rewrite foldl_app. cbn. unfold free_step at 1. by rewrite He. Qed.

Lemma spent_snoc (tr : list Event) (e : Event) : reserved_as e = None →
  spent (tr ++ [e]) = spent tr ++ if dispatches e then option_list (in_use tr) else [].
Proof.
  intros He. unfold spent at 1. rewrite spend_snoc. unfold spend_step. rewrite He.
  destruct (dispatches e); [done|]. by rewrite app_nil_r.
Qed.

(** A call that neither reserves, sends nor settles. *)
Lemma books_plain tr g e g' :
  books tr g → reserved_as e = None → dispatches e = false → finished_as e = None →
  (releases e = true → qc_accepted_spend c = None) →
  open_items g ++ option_list (fst <$> claimed_as e) = option_list (closed_as e) ++ open_items g' →
  open_calls g' ⊆+ open_calls g → (qc_accepted_spend c = None → open_frees g' = open_frees g) → books (tr ++ [e]) g'.
Proof.
  intros [Hi Hf Hz Hh] He Hd Hfin Hrel Hit Hc Hfr.
  assert (dispatches_free provider e = false) as Hdf by (destruct e as [op a]; by destruct op).
  split; unfold claimed_items, closed_items, finished_refs, freed_refs in *; rewrite ?omap_snoc.
  - by rewrite Hi, <- app_assoc, Hit, app_assoc.
  - rewrite spent_snoc, Hd, Hfin by done. cbn. rewrite !app_nil_r. etrans; [|exact Hf]. by apply submseteq_app.
  - intros Ho. rewrite free_snoc, Hdf by done. unfold freed_as at 2. rewrite Hfin, Hfr by done. cbn.
    rewrite !app_nil_r. by apply Hz.
  - intros h Hc'. destruct (Hh h Hc') as (H1' & H2' & H3'). rewrite H1', Hfin, released_snoc, H2', reservations_snoc, He.
    split; [done|]. split; [|by rewrite app_nil_r]. unfold releases in Hrel. destruct (ev_op e); try done. rewrite Hrel in Hc'; done.
Qed.

Lemma books_reserve tr g e r :
  books tr g → reserved_as e = Some r → (∀ h, qc_accepted_spend c = Some h → r = ah_reservation h) →
  g_sent g = false → books (tr ++ [e]) (g_reserve (sr_reference r) g).
Proof.
  intros [Hi Hf Hz Hh] He Hr Hs.
  assert (claimed_as e = None ∧ closed_as e = None ∧ finished_as e = None ∧ releases e = false) as (E1 & E2 & E3 & E4)
    by (destruct e as [op a]; by destruct op).
  assert (open_calls (g_reserve (sr_reference r) g) = open_calls g ∧ open_frees (g_reserve (sr_reference r) g) = open_frees g)
    as [Eo Ef] by (unfold open_calls, open_frees, open_call, open_free; cbn; by rewrite Hs).
  split; unfold claimed_items, closed_items, finished_refs, freed_refs in *; rewrite ?omap_snoc, ?Eo, ?Ef.
  - rewrite E1, E2. cbn. by rewrite !app_nil_r.
  - assert (spent (tr ++ [e]) = spent tr) as -> by (unfold spent at 1; rewrite spend_snoc; unfold spend_step; by rewrite He).
    rewrite E3. cbn. by rewrite app_nil_r.
  - intros Ho. rewrite (free_snoc_reserved _ _ r) by done. unfold freed_as at 2. rewrite E3. cbn. rewrite app_nil_r. by apply Hz.
  - intros h Hc. destruct (Hh h Hc) as (H1' & H2' & H3'). rewrite H1', E3, released_snoc, H2', reservations_snoc, He. cbn.
    split; [done|]. split; [by unfold releases in E4; destruct (ev_op e)|]. apply Forall_app. split; [done|].
    constructor; [by apply Hr|constructor].
Qed.

Lemma books_dispatch tr g request a reference :
  books tr g → in_use tr = Some reference → g_reserved g = Some reference → g_sent g = false → g_finished g = None →
  books (tr ++ [mkCall (Ans := Ans') (Dispatch request) a]) (g_send (dispatch_zero provider a) g).
Proof.
  intros [Hi Hf Hz Hh] Hu Hr Hs Hfin. set (e := mkCall (Ans := Ans') (Dispatch request) a).
  assert (open_calls g = [] ∧ open_frees g = []) as [Eo Ef] by (unfold open_calls, open_frees, open_call, open_free; by rewrite Hs).
  split; unfold claimed_items, closed_items, finished_refs, freed_refs in *; rewrite ?omap_snoc; cbn; rewrite ?app_nil_r.
  - done.
  - rewrite spent_snoc by done. cbn. rewrite Hu. cbn. rewrite Eo, app_nil_r in Hf.
    unfold open_calls, open_call. cbn. rewrite Hr, Hfin. cbn. by apply submseteq_app.
  - intros Ho. rewrite free_snoc by done. cbn. rewrite Hu, Hz, Ef, app_nil_r by done. f_equal.
    unfold open_frees, open_free. cbn. rewrite Hr, Hfin. by destruct (dispatch_zero provider a).
  - intros h Hc. rewrite released_snoc, reservations_snoc. cbn. rewrite !app_nil_r. by apply Hh.
Qed.

Lemma books_finish tr g reference state usage output invocation a :
  books tr g → g_reserved g = Some reference → g_sent g = true → g_finished g = None → qc_accepted_spend c = None →
  bool_decide (state = SpendReleased) = g_zero g →
  books (tr ++ [mkCall (Ans := Ans') (LedgerFinish reference state usage output invocation) a]) (g_finish state g).
Proof.
  intros [Hi Hf Hz Hh] Hr Hs Hfin Ho Hst. set (e := mkCall (Ans := Ans') _ a).
  unfold open_calls, open_call in Hf. rewrite Hr, Hs, Hfin in Hf. cbn in Hf.
  specialize (Hz Ho). unfold open_frees, open_free in Hz. rewrite Hr, Hs, Hfin in Hz. cbn in Hz.
  split; unfold claimed_items, closed_items, finished_refs, freed_refs in *; rewrite ?omap_snoc; cbn; rewrite ?app_nil_r.
  - done.
  - rewrite spent_snoc by done. cbn. unfold open_calls, open_call. cbn. rewrite andb_false_r. by rewrite !app_nil_r.
  - intros _. rewrite free_snoc by done. cbn. rewrite app_nil_r, Hz. unfold freed_as at 2, open_frees, open_free. cbn.
    rewrite Hst, Hs. destruct (g_zero g); cbn; rewrite ?app_nil_r; [|done].
    apply bool_decide_eq_true in Hst as ->. by rewrite app_nil_r.
  - intros h Hc. congruence.
Qed.

Lemma accounted_open g : accounted_b c g = true →
  open_items g = [] ∧ (qc_accepted_spend c = None → open_frees g = []).
Proof.
  unfold accounted_b, open_items, open_frees, open_free. rewrite !andb_true_iff. intros [[H1' _] H3']. split.
  - by destruct (g_item g) as [[id n]|], (g_closed g).
  - intros Hc. rewrite Hc in H3'. destruct (g_sent g), (g_zero g); try done. cbn in *. by rewrite H3'.
Qed.

Lemma holds_this g id worker : holds_item c g id worker = true → ∃ n, g_item g = Some (id, n).
Proof.
  unfold holds_item. destruct (g_item g) as [[id' n]|]; [|done].
  intros [<-%bool_decide_eq_true _]%andb_true_iff. by exists n.
Qed.

Lemma books_step tr g op a g' :
  ghost_wf g → view c tr g → books tr g → watch_call g op a = Some g' → books (tr ++ [mkCall op a]) g'.
Proof.
  intros Hwf Hv Hb Hw.
  assert (∀ r, reserved_as (mkCall op a) = Some r → g_reserved g = None →
    (∀ h, qc_accepted_spend c = Some h → r = ah_reservation h) →
    books (tr ++ [mkCall op a]) (g_reserve (sr_reference r) g)) as Hnew.
  { intros r He Hn Hr. apply books_reserve; try done. by apply Hwf. }
  destruct op; cbn in Hw.
  all: try (simplify_eq; apply (books_plain _ _ _ _ Hb); by rewrite ?app_nil_r).
  all: try (apply guard_some in Hw as [Hg ->]).
  - destruct a as [[item|]|e|]; [|simplify_eq; apply (books_plain _ _ _ _ Hb); try done; apply app_nil_r..].
    apply guard_some in Hw as [[Ei Ef]%accounted_open ->]. apply (books_plain _ _ _ _ Hb); try done; cbn.
    + by rewrite Ei.
    + apply submseteq_nil_l.
    + intros Ho. by rewrite Ef.
  - destruct (is_ok a); apply (books_plain _ _ _ _ Hb); try done; apply app_nil_r.
  - rewrite !andb_true_iff, negb_true_iff in Hg. destruct Hg as [[[n Hi]%holds_this Hc] _].
    apply (books_plain _ _ _ _ Hb); try done. unfold open_items. cbn. by rewrite Hi, Hc.
  - rewrite !andb_true_iff, negb_true_iff in Hg. destruct Hg as [[[n Hi]%holds_this Hc] _].
    apply (books_plain _ _ _ _ Hb); try done. unfold open_items. cbn. by rewrite Hi, Hc.
  - apply andb_true_iff in Hg as [(Ho & Hn & _)%may_reserve_facts _].
    destruct (accepted_ok a) eqn:Hok.
    + apply Hnew; [cbn; by rewrite Hok|done|congruence].
    + apply (books_plain _ _ _ _ Hb); try done; [cbn; by rewrite Hok|apply app_nil_r].
  - rewrite !andb_true_iff in Hg. destruct Hg as [[(Ho & Hn & _)%may_reserve_facts _] _].
    destruct (accepted_ok a) eqn:Hok.
    + apply Hnew; [cbn; by rewrite Hok|done|congruence].
    + apply (books_plain _ _ _ _ Hb); try done; [cbn; by rewrite Hok|apply app_nil_r].
  - rewrite !andb_true_iff in Hg. destruct Hg as [[[Hn _] _] Ha].
    destruct (is_ok a) eqn:Hok.
    + apply (Hnew (ah_reservation handoff)); [cbn; by rewrite Hok|by destruct (g_reserved g)|].
      intros h Hh. rewrite Hh in Ha. by apply bool_decide_eq_true in Ha.
    + apply (books_plain _ _ _ _ Hb); try done; [cbn; by rewrite Hok|apply app_nil_r].
  - rewrite !andb_true_iff, !negb_true_iff in Hg. destruct Hg as [_ Ho].
    apply (books_plain _ _ _ _ Hb); try done; [|apply app_nil_r]. intros _. by destruct (qc_accepted_spend c).
  - rewrite !andb_true_iff, bool_decide_eq_true in Hg. destruct Hg as [[[[Hr Hs] Hf] Ho] Hst].
    apply books_finish; try done; [by destruct (g_finished g)|by destruct (qc_accepted_spend c)|].
    destruct (bool_decide (state = SpendReleased)); apply andb_true_iff in Hst as [Hz _]; by destruct (g_zero g).
  - rewrite !andb_true_iff, !negb_true_iff in Hg. destruct Hg as [[[[Hr _] Hs] _] _].
    destruct (g_reserved g) as [reference|] eqn:Hres; [|done].
    apply (books_dispatch _ _ _ _ reference); try done; [by apply (v_in_use _ _ _ Hv)|by apply Hwf].
Qed.

Lemma books_nil : books [] idle.
Proof. by split. Qed.

Lemma history_books tr tr' g g' :
  ghost_wf g → view c tr g → books tr g → follow watch_call g tr' = Some g' → books (tr ++ tr') g'.
Proof.
  revert tr g. induction tr' as [|[op a] tr' IH]; intros tr g Hwf Hv Hb Hf; cbn in Hf; [simplify_eq; by rewrite app_nil_r|].
  destruct (watch_call g op a) as [g1|] eqn:Hw; [|done].
  rewrite (cons_middle _ tr tr'), app_assoc. apply (IH _ g1); [|by eapply view_step|by eapply books_step|done].
  by eapply step_balance.
Qed.

(** The books of a call that returned, by how it came by its reservations. *)
Lemma call_books tr g : follow watch_call idle tr = Some g → accounted_b c g = true →
  claimed_items tr = closed_items tr ∧ finished_refs tr ⊆+ spent tr ∧
  match qc_accepted_spend c with
  | None => accepted_refs tr ≡ₚ spent tr ++ released_refs tr ∧ free_refs tr = freed_refs tr
  | Some h => spent tr ⊆+ accepted_refs tr ∧ Forall (λ r, r = ah_reservation h) (accepted_reservations tr) ∧
      released_refs tr = [] ∧ finished_refs tr = []
  end.
Proof.
  intros Hf Hacc. pose proof (history_view c provider [] tr idle g idle_wf (view_nil c) Hf) as Hv.
  pose proof (history_books [] tr idle g idle_wf (view_nil c) books_nil Hf) as [Hi Hs Hz Hh]. cbn [app] in *.
  destruct (accounted_open g Hacc) as [Ei Ef]. rewrite Ei, app_nil_r in Hi. split; [done|].
  split; [etrans; [|exact Hs]; by apply submseteq_inserts_r|].
  destruct (qc_accepted_spend c) as [h|] eqn:Hc.
  - destruct (Hh h eq_refl) as (H1' & H2' & H3'). split; [|done]. etrans; [|apply (v_parts _ _ _ Hv)]. by apply submseteq_inserts_r.
  - pose proof (v_own _ _ _ Hv Hc) as Hp. rewrite (accounted_closed c g Hc Hacc), app_nil_r in Hp. split; [done|].
    by rewrite Hz, Ef, app_nil_r.
Qed.

End Books.
