(* ===== verification/ExecutorPool.v ===== *)
(** Any number of queued calls, of any runtimes, over one ledger.

    A thread is a call of [run_queued] that is no durable job, with the history
    it made so far; it makes its own reservations or was handed one.  Threads
    run interleaved, each call of a thread one step; a thread that stops is one
    that takes no more steps.  Ledger calls are answered by the ledger
    ([ledger_answers]), every other call by anything.  Others use the ledger
    too (durable jobs, the gateway that hands reservations over); whatever they
    call, they release and settle only reservations the ledger granted to
    them. *)

From Stdlib Require Import ZArith Lia.
From stdpp Require Import base gmap strings list sorting.
From S2P Require Import Prelude Core QueueTypes SpendTypes SpendLedger SpendInv SpendProofs Program Json Trace ExecutionPolicy Responses Executor ExecutorProofs ExecutorCalls ExecutorGuards ExecutorLedger ExecutorBooks.

#[local] Open Scope Z_scope.
#[local] Existing Instance json_values.

Section Pool.
Context `{!Chrono, !ExpiryOrder, !Sha256, !TextEncodings}.
Context {Req Res : Type} `{!TraceCarrier Res, !CredentialResponse Res, !Serde Res}.
Abbreviation Op' := (@Op Req).
Abbreviation Ans' := (@Ans Req Res).
Abbreviation Event := (event Ans').
Variable payload_value : string → Value.
Variable handoff_input_identity : @QueuedCall Req → result ModelError string.
Variable retention : Z.

(** A call of [run_queued]. *)
Record Submission : Type := mkSubmission {
  sb_debug : bool;
  sb_fuel : nat;
  sb_hashes : @CallHashes Req;
  sb_runtime : QueueRuntime;
  sb_descriptor : ProviderDescriptor;
  sb_capability : ModelCapability;
  sb_kind : string;
  sb_request : Req;
  sb_provider : ModelProvider;
}.

Definition submitted (s : Submission) : prog Ans' (result ModelError Res) :=
  run_queued payload_value handoff_input_identity (sb_debug s) (sb_fuel s) (sb_hashes s) (sb_runtime s)
    (sb_descriptor s) (sb_capability s) (sb_kind s) (sb_request s) (sb_provider s).

Definition submitted_call (s : Submission) : result ModelError (@QueuedCall Req) :=
  queued_call (sb_hashes s) (sb_runtime s) (sb_descriptor s) (sb_capability s) (sb_kind s) (sb_request s)
    (sb_provider s).

#[local] Hint Resolve unwatched_call_ok : executor.
Ltac skip := skip_quiet (@unwatched Req).

(** A call that is no durable job keeps to its monitor. *)
Lemma submitted_safe s c : rt_job (sb_runtime s) = false → submitted_call s = Ok c →
  safe (watch_call c (sb_provider s)) (submitted s) idle (λ _ g, accounted_b c g = true).
Proof.
  intros Hj Hc. unfold submitted, run_queued. fold (submitted_call s).
  assert (accounted_b c idle = true) as Hi by done.
  skip. intros now. skip; [intros _|done]. skip; [intros _|done]. rewrite Hc. cbn [lift try_bind pbind].
  skip; [intros _|done]. rewrite Hj. by apply run_direct_safe.
Qed.

(** ** Answers *)

(** The answer and effect of a call that may fail on its way. *)
Definition lossy {A : Type} (l : Ledger) (done_ : Ledger * result ModelError A) (a : result ModelError A) (l' : Ledger) :
    Prop :=
  a = done_.2 ∧ l' = done_.1 ∨ (∃ e, a = Err e) ∧ (l' = l ∨ l' = done_.1).

Definition ledger_answers (l : Ledger) (op : Op') : Ans' op → Ledger → Prop :=
  match op as op return Ans' op → Ledger → Prop with
  | LedgerInvocation account invocation => λ a l', ∃ clock, lossy l (l, invocation_in l clock account invocation) a l'
  | LedgerReceipt reference => λ a l', ∃ clock, lossy l (l, receipt_in l clock reference) a l'
  | LedgerReserve r => λ a l', ∃ clock, lossy l (reserve l clock r) a l'
  | LedgerReserveExplicit r limit => λ a l', ∃ clock, lossy l (reserve_explicit l clock r limit) a l'
  | LedgerAcquireHandoff handoff account input owner => λ a l', ∃ clock,
      lossy l (acquire_handoff l clock handoff account input owner) a l'
  | LedgerRelease reference => λ a l', ∃ clock, lossy l (release_before_dispatch l clock reference) a l'
  | LedgerFinish reference state usage output invocation => λ a l', ∃ policy now clock,
      lossy l (SpendLedger.finish policy retention l now clock reference state usage output invocation) a l'
  | _ => λ _ l', l' = l
  end.

(** The ledger call of an operation. *)
Definition ledger_call (op : Op') : option LedgerCall :=
  match op with
  | LedgerReserve r => Some (CReserve r)
  | LedgerReserveExplicit r limit => Some (CReserveExplicit r limit)
  | LedgerAcquireHandoff handoff account input owner => Some (CAcquireHandoff handoff account input owner)
  | LedgerRelease reference => Some (CReleaseBeforeDispatch reference)
  | LedgerFinish reference state usage output invocation => Some (CFinish reference state usage output invocation)
  | _ => None
  end.

Lemma answers_effect l op a l' : ledger_answers l op a l' →
  l' = l ∨ ∃ call policy now clock, ledger_call op = Some call ∧ l' = (ledger_exec policy retention l now clock call).1.
Proof.
  destruct op; cbn; try (by left).
  - intros (clock & [[_ ->]|[_ [->| ->]]]); by left.
  - intros (clock & [[_ ->]|[_ [->| ->]]]); by left.
  - intros (clock & [[_ ->]|[_ [->| ->]]]); [right| by left|right]; by exists (CReserve r), (λ _ _, Ok (true, None)), 0, clock.
  - intros (clock & [[_ ->]|[_ [->| ->]]]); [right| by left|right];
      by exists (CReserveExplicit r limit), (λ _ _, Ok (true, None)), 0, clock.
  - intros (clock & [[_ ->]|[_ [->| ->]]]); [right| by left|right];
      by exists (CAcquireHandoff handoff account input_identity owner), (λ _ _, Ok (true, None)), 0, clock.
  - intros (clock & [[_ ->]|[_ [->| ->]]]); [right| by left|right];
      by exists (CReleaseBeforeDispatch reference), (λ _ _, Ok (true, None)), 0, clock.
  - intros (policy & now & clock & [[_ ->]|[_ [->| ->]]]); [right| by left|right];
      (eexists _, policy, now, clock; by split).
Qed.

(** ** The pool *)

Record Thread : Type := mkThread {
  th_call : @QueuedCall Req;
  th_provider : ModelProvider;
  th_history : list Event;
  th_rest : prog Ans' (result ModelError Res);
}.

(** The ledger, its callers, and the references it granted to others. *)
Record Callers : Type := mkPool { pl_ledger : Ledger; pl_threads : list Thread; pl_granted : list string }.

Definition pool_accepted (ts : list Thread) : list string := ts ≫= λ t, accepted_refs (th_history t).
Definition pool_spent (ts : list Thread) : list string := ts ≫= λ t, spent (th_history t).

(** The reservation a ledger call asks for. *)
Definition asks (call : LedgerCall) : option SpendReservation :=
  match call with
  | CReserve r | CReserveExplicit r _ => Some r
  | CReserveHandoff handoff => Some (ah_reservation handoff)
  | _ => None
  end.

(** The reference a call of another user was granted: one it asked for, and
    that was not there before. *)
Definition grants (l l' : Ledger) (call : LedgerCall) : list string :=
  match asks call with
  | Some r =>
      match find_row l (sr_reference r), find_row l' (sr_reference r) with
      | None, Some _ => [sr_reference r]
      | _, _ => []
      end
  | None => []
  end.

(** What another user may ask of the ledger: anything, but to decide a
    reservation that was not granted to it. *)
Definition others_may (granted : list string) (call : LedgerCall) : Prop :=
  call_ok call ∧
  match call with
  | CReleaseBeforeDispatch reference | CFinish reference _ _ _ _ => reference ∈ granted
  | _ => True
  end.

Inductive callers_step : Callers → Callers → Prop :=
| step_submit l ts granted s c :
    rt_job (sb_runtime s) = false →
    mq_logical_retry_attempts (rt_config (sb_runtime s)) ≤ u32_max → submitted_call s = Ok c →
    callers_step (mkPool l ts granted) (mkPool l (ts ++ [mkThread c (sb_provider s) [] (submitted s)]) granted)
| step_thread l l' ts1 ts2 granted c provider tr op k a :
    ledger_answers l op a l' →
    callers_step (mkPool l (ts1 ++ mkThread c provider tr (Do op k) :: ts2) granted)
              (mkPool l' (ts1 ++ mkThread c provider (tr ++ [mkCall op a]) (k a) :: ts2) granted)
| step_other l l' ts granted policy now clock call :
    others_may granted call → l' = (ledger_exec policy retention l now clock call).1 →
    callers_step (mkPool l ts granted) (mkPool l' ts (granted ++ grants l l' call)).

Definition reachable (p : Callers) : Prop := rtc callers_step (mkPool empty_ledger [] []) p.

(** A handler that keeps a ledger runs a thread of the pool. *)
Lemma interp_reachable {S} (ledger_of : S → Ledger) (handler : ∀ op : Op', S → S * Ans' op) n p s c provider tr ts granted :
  (∀ op s, ledger_answers (ledger_of s) op (handler op s).2 (ledger_of (handler op s).1)) →
  rtc callers_step (mkPool (ledger_of s) (ts ++ [mkThread c provider tr p]) granted)
    (mkPool (ledger_of (interp_steps handler n p s).1.1)
       (ts ++ [mkThread c provider (tr ++ (interp_steps handler n p s).1.2) (interp_steps handler n p s).2]) granted).
Proof.
  intros Hh. revert p s tr. induction n as [|n IH]; intros p s tr; [cbn; by rewrite app_nil_r|].
  destruct p as [a|op k|]; [cbn; by rewrite app_nil_r| |cbn; by rewrite app_nil_r].
  cbn. specialize (Hh op s). destruct (handler op s) as [s1 a] eqn:Ea. cbn in Hh.
  eapply rtc_l; [exact (step_thread _ _ ts [] granted c provider tr op k a Hh)|].
  specialize (IH (k a) s1 (tr ++ [mkCall op a])). destruct (interp_steps handler n (k a) s1) as [[s2 tr2] q]. cbn in *.
  by rewrite <- app_assoc in IH.
Qed.

(** ** What one call of a thread does to its reservations *)

Inductive delta (g g' : Ghost) (tr : list Event) (op : Op') (a : Ans' op) : Prop :=
| delta_reserve r :
    reserved_as (mkCall op a) = Some r → open_refs g' = [sr_reference r] →
    accepted_reservations (tr ++ [mkCall op a]) = accepted_reservations tr ++ [r] →
    spent (tr ++ [mkCall op a]) = spent tr → (∀ reference, op ≠ LedgerRelease reference) → delta g g' tr op a
| delta_dispatch reference :
    dispatches (mkCall op a) = true → ledger_call op = None → open_refs g = [reference] → open_refs g' = [] →
    accepted_reservations (tr ++ [mkCall op a]) = accepted_reservations tr →
    spent (tr ++ [mkCall op a]) = spent tr ++ [reference] → delta g g' tr op a
| delta_release reference :
    op = LedgerRelease reference → open_refs g = [reference] → open_refs g' = [] →
    accepted_reservations (tr ++ [mkCall op a]) = accepted_reservations tr →
    spent (tr ++ [mkCall op a]) = spent tr → delta g g' tr op a
| delta_same :
    (open_refs g' = open_refs g ∨ open_refs g' = []) →
    accepted_reservations (tr ++ [mkCall op a]) = accepted_reservations tr →
    spent (tr ++ [mkCall op a]) = spent tr →
    reserved_as (mkCall op a) = None → (∀ reference, op ≠ LedgerRelease reference) →
    (∀ reference state usage output invocation,
      op = LedgerFinish reference state usage output invocation → reference ∈ spent tr) → delta g g' tr op a.

Lemma own_reference_ok g r : own_reference g (sr_reference r) = true → reservation_ok r.
Proof.
  unfold own_reference, runtime_reference, SpendReceiptRef_new, reservation_ok.
  destruct (g_item g) as [[id n]|]; [|done]. destruct (MAX_BYTES <? _) eqn:Hm; [done|].
  intros <-%bool_decide_eq_true. lia.
Qed.

Lemma may_reserve_ok (c : @QueuedCall Req) g r : may_reserve c g r = true → reservation_ok r.
Proof. unfold may_reserve. rewrite !andb_true_iff. intros [[[[_ Ho] _] _] _]. by eapply own_reference_ok. Qed.

Lemma same_lists (tr : list Event) (e : Event) :
  reserved_as e = None → dispatches e = false →
  accepted_reservations (tr ++ [e]) = accepted_reservations tr ∧ spent (tr ++ [e]) = spent tr.
Proof.
  intros He Hd. rewrite reservations_snoc, He. split; [apply app_nil_r|].
  unfold spent at 1. rewrite spend_snoc. unfold spend_step. by rewrite He, Hd.
Qed.

Lemma open_refs_same (g g' : Ghost) :
  g_reserved g' = g_reserved g → g_sent g' = g_sent g → g_released g' = g_released g → open_refs g' = open_refs g.
Proof. unfold open_refs. by intros -> -> ->. Qed.

Lemma call_delta c provider (tr : list Event) g op a g' :
  ghost_wf g → view c tr g → watch_call c provider g op a = Some g' → delta g g' tr op a.
Proof.
  intros Hwf Hv Hw.
  assert (reserved_as (mkCall op a) = None → dispatches (mkCall op a) = false → (∀ reference, op ≠ LedgerRelease reference) →
    (∀ reference state usage output invocation,
      op = LedgerFinish reference state usage output invocation → reference ∈ spent tr) →
    (open_refs g' = open_refs g ∨ open_refs g' = []) → delta g g' tr op a) as Hsame.
  { intros He Hd Hr Hf Hl. destruct (same_lists tr (mkCall op a) He Hd). by apply delta_same. }
  assert (∀ r, reserved_as (mkCall op a) = Some r → g_reserved g = None → g' = g_reserve (sr_reference r) g →
    (∀ reference, op ≠ LedgerRelease reference) → delta g g' tr op a) as Hnew.
  { intros r He Hn -> Hrel. apply (delta_reserve _ _ _ _ _ r); [done| | | |done].
    - destruct (gw_reserved _ Hwf Hn) as [Hs Hr].
      unfold open_refs. cbn. by rewrite Hs, Hr.
    - by rewrite reservations_snoc, He.
    - unfold spent at 1. rewrite spend_snoc. unfold spend_step. by rewrite He. }
  destruct op; cbn in Hw; try (apply Hsame; try done; simplify_eq; by left).
  all: try (apply guard_some in Hw as [Hb ->]).
  all: try (apply Hsame; try done; by left).
  - destruct a as [[item|]|e|]; [|simplify_eq; apply Hsame; try done; by left..].
    apply guard_some in Hw as [Hb ->]. apply Hsame; try done. by right.
  - apply Hsame; try done. left. by destruct (is_ok a).
  - apply andb_true_iff in Hb as [(_ & Hn & _)%may_reserve_facts _]. destruct (accepted_ok a) eqn:Hok.
    + apply (Hnew r); try done. cbn. by rewrite Hok.
    + apply Hsame; try done; [cbn; by rewrite Hok|by left].
  - rewrite !andb_true_iff in Hb. destruct Hb as [[(_ & Hn & _)%may_reserve_facts _] _]. destruct (accepted_ok a) eqn:Hok.
    + apply (Hnew r); try done. cbn. by rewrite Hok.
    + apply Hsame; try done; [cbn; by rewrite Hok|by left].
  - rewrite !andb_true_iff in Hb. destruct Hb as [[[Hn _] _] _]. destruct (is_ok a) eqn:Hok.
    + apply (Hnew (ah_reservation handoff)); try done; [cbn; by rewrite Hok|by destruct (g_reserved g)].
    + apply Hsame; try done; [cbn; by rewrite Hok|by left].
  - rewrite !andb_true_iff, !negb_true_iff, bool_decide_eq_true in Hb. destruct Hb as [[[Hr Hs] Hrel] _].
    destruct (same_lists tr (mkCall (LedgerRelease reference) a)) as [Ea Es]; [done|done|].
    apply (delta_release _ _ _ _ _ reference); [done| | |done|done]; unfold open_refs; cbn; rewrite Hr, Hs; [by rewrite Hrel|done].
  - rewrite !andb_true_iff, bool_decide_eq_true in Hb. destruct Hb as [[[[Hr Hs] _] _] _].
    apply Hsame; try done; [|by left]. intros r st u o i [= <- _ _ _ _]. by apply (v_sent _ _ _ Hv).
  - rewrite !andb_true_iff, !negb_true_iff in Hb. destruct Hb as [[[[Hr _] Hs] Hrel] _].
    destruct (g_reserved g) as [reference|] eqn:Hres; [|done].
    apply (delta_dispatch _ _ _ _ _ reference); [done|done| | | |].
    + unfold open_refs. by rewrite Hres, Hs, Hrel.
    + unfold open_refs. cbn. by rewrite Hres.
    + rewrite reservations_snoc. apply app_nil_r.
    + unfold spent at 1. rewrite spend_snoc. unfold spend_step. cbn. by rewrite (v_in_use _ _ _ Hv reference).
Qed.

(** ** The invariant *)

(** The receipt is there and was not released before dispatch. *)
Definition unreleased (l : Ledger) (reference : string) : Prop :=
  ∃ row, find_row l reference = Some row ∧ rr_pre_dispatch_released row = false.

Definition undecided (l : Ledger) (reference : string) : Prop :=
  ∃ row, find_row l reference = Some row ∧ rr_state row = SpendUnknown.

(** The receipt of a reservation; of an explicit invocation when [keyed]. *)
Definition receipted (keyed : bool) (l : Ledger) (r : SpendReservation) : Prop :=
  ∃ row, find_row l (sr_reference r) = Some row ∧ rr_reservation row = r ∧ (keyed = true → is_Some (rr_attempt_limit row)).

(** An accepted reservation nobody else can take: the ledger knows it as no
    handed one, or as one whose dispatch has an owner. *)
Definition bound (c : @QueuedCall Req) (l : Ledger) (reference : string) : Prop :=
  ∃ row, find_row l reference = Some row ∧
    if is_some (qc_accepted_spend c) then is_Some (rr_dispatch_owner row) else rr_handoff_input row = None.

(** The call of an explicit invocation that makes its own reservations. *)
Definition keyed (c : @QueuedCall Req) : bool := is_some (qc_invocation_key c) && negb (is_some (qc_accepted_spend c)).

Record rows_ok (c : @QueuedCall Req) (l : Ledger) (granted : list string) (tr : list Event) (g : Ghost) : Prop := {
  ro_accepted r : r ∈ accepted_reservations tr → receipted (keyed c) l r;
  ro_bound reference : reference ∈ accepted_refs tr → bound c l reference;
  ro_own reference : qc_accepted_spend c = None → reference ∈ accepted_refs tr → reference ∉ granted;
  ro_spent reference : qc_accepted_spend c = None → reference ∈ spent tr → unreleased l reference;
  ro_open reference : qc_accepted_spend c = None → reference ∈ open_refs g → undecided l reference;
}.

Record thread_ok (l : Ledger) (granted : list string) (t : Thread) (g : Ghost) : Prop := {
  to_history : follow (watch_call (th_call t) (th_provider t)) idle (th_history t) = Some g;
  to_rest : safe (watch_call (th_call t) (th_provider t)) (th_rest t) g (λ _ _, True);
  to_limit : mq_logical_retry_attempts (qc_config (th_call t)) ≤ u32_max;
  to_rows : rows_ok (th_call t) l granted (th_history t) g;
}.

Record pool_ok (p : Callers) : Prop := {
  po_ledger : ledger_ok (pl_ledger p);
  po_accepted : NoDup (pool_accepted (pl_threads p));
  po_granted reference : reference ∈ pl_granted p → is_Some (find_row (pl_ledger p) reference);
  po_threads : Forall (λ t, ∃ g, thread_ok (pl_ledger p) (pl_granted p) t g) (pl_threads p);
}.

Lemma thread_wf l granted t g : thread_ok l granted t g → ghost_wf g.
Proof. intros Ht. by apply (history_balance (th_call t) (th_provider t) idle (th_history t) g idle_wf), Ht. Qed.

Lemma thread_view l granted t g : thread_ok l granted t g → view (th_call t) (th_history t) g.
Proof. intros Ht. apply (history_view (th_call t) (th_provider t) [] _ idle g); [done|apply view_nil|apply Ht]. Qed.

Lemma view_member c (tr : list Event) g reference :
  view c tr g → reference ∈ spent tr ∨ reference ∈ open_refs g → reference ∈ accepted_refs tr.
Proof. intros [Hp _ _ _] Hr. eapply elem_of_submseteq; [|exact Hp]. rewrite !elem_of_app. tauto. Qed.

(** The parts of an accepted list do not overlap. *)
Lemma view_parts c (tr : list Event) g : view c tr g → NoDup (accepted_refs tr) →
  NoDup (spent tr) ∧ ∀ reference, reference ∈ spent tr → reference ∉ open_refs g.
Proof.
  intros [Hp _ _ _] Hn. apply submseteq_Permutation in Hp as [k Hk]. rewrite Hk in Hn. apply NoDup_app in Hn as (Hn & _). apply NoDup_app in Hn as (Hs & Hd & _). split; [done|].
  intros reference Hr Hl. apply (Hd _ Hr). apply elem_of_app. by right.
Qed.

(** A list of lists without repetition, at one of its lists. *)
Lemma NoDup_bind_middle {A B} (f : A → list B) l1 x l2 :
  NoDup ((l1 ++ x :: l2) ≫= f) →
  NoDup (f x) ∧ ∀ y b, y ∈ l1 ++ l2 → b ∈ f x → b ∉ f y.
Proof.
  rewrite bind_app, bind_cons. intros (_ & Hl1 & (Hx & Hl2 & _)%NoDup_app)%NoDup_app. split; [done|].
  intros y b Hy Hb Hby. apply elem_of_app in Hy as [Hy|Hy].
  - apply (Hl1 b); [apply list_elem_of_bind; by exists y|]. apply elem_of_app. by left.
  - apply (Hl2 b Hb). apply list_elem_of_bind. by exists y.
Qed.

(** ** Receipts while the ledger moves *)

Lemma sound_receipted keyed l l' r : ledger_ok l → sound l l' → receipted keyed l r → receipted keyed l' r.
Proof.
  intros Hok [Hok' Hl] (row & Hf & <- & Hk). apply find_row_elem in Hf as [Hr _].
  destruct (ledger_later_row _ _ _ Hl Hr) as (row' & Hr' & Hrow).
  exists row'. rewrite <- (later_reservation _ _ Hrow), (later_limit _ _ Hrow).
  split; [by apply find_row_unique|by split].
Qed.

Lemma keeps_unreleased l l' reference : keeps false reference l l' → unreleased l reference → unreleased l' reference.
Proof.
  intros Hk (row & Hf & Hp). destruct (Hk row Hf) as (row' & Hf' & _ & _ & Hp' & _ & _). exists row'. by rewrite Hp'.
Qed.

Lemma keeps_undecided l l' reference : keeps true reference l l' → undecided l reference → undecided l' reference.
Proof.
  intros Hk (row & Hf & Hs). destruct (Hk row Hf) as (row' & Hf' & _ & _ & _ & _ & Hs'). exists row'. by rewrite Hs'.
Qed.

Lemma undecided_unreleased l reference : ledger_ok l → undecided l reference → unreleased l reference.
Proof.
  intros Hok (row & Hf & Hs). exists row. split; [done|]. destruct (rr_pre_dispatch_released row) eqn:Hp; [|done].
  destruct (ok_pre row (ok_rows _ Hok row (proj1 (find_row_elem _ _ _ Hf))) Hp). congruence.
Qed.

Lemma keeps_weaken reference l l' : keeps true reference l l' → keeps false reference l l'.
Proof.
  intros Hk row Hf. destruct (Hk row Hf) as (row' & Hf' & R & L & P & I & _). by exists row'.
Qed.

Lemma sound_bound c l l' reference :
  ledger_ok l → sound l l' → keeps_input reference l l' → bound c l reference → bound c l' reference.
Proof.
  intros Hok [Hok' Hl] Hi (row & Hf & Hb). destruct (Hi row Hf) as (row' & Hf' & Hin). exists row'. split; [done|].
  destruct (is_some (qc_accepted_spend c)); [|congruence].
  apply find_row_elem in Hf as [Hr Hk]. destruct (ledger_later_row _ _ _ Hl Hr) as (row1 & Hr1 & Hrow).
  assert (row1 = row') as ->.
  { apply (reference_row l' reference row' row1 Hok' Hf' Hr1). unfold has_reference, row_reference in *.
    rewrite (later_reservation _ _ Hrow). by apply bool_decide_eq_true. }
  destruct Hb as [o Ho]. exists o. by apply (later_owner _ _ Hrow).
Qed.

(** A step that decides nothing the call was granted. *)
Lemma rows_keep c l l' granted granted' (tr : list Event) g :
  ledger_ok l → sound l l' → view c tr g → rows_ok c l granted tr g →
  (∀ reference, reference ∈ accepted_refs tr → keeps_input reference l l') →
  (∀ reference, qc_accepted_spend c = None → reference ∈ accepted_refs tr → reference ∉ granted') →
  (∀ reference, qc_accepted_spend c = None → reference ∈ accepted_refs tr → keeps true reference l l') →
  rows_ok c l' granted' tr g.
Proof.
  intros Hok Hs Hv [Ha Hb Ho Hsp Hl] Hi Hg Hk. assert (Hm := λ reference, view_member _ _ _ reference Hv).
  split; [| |done| |]; intros reference Hr.
  - by eapply sound_receipted; [| |apply Ha].
  - eapply sound_bound; [done|done|by apply Hi|by apply Hb].
  - intros Hin. eapply keeps_unreleased; [apply keeps_weaken, Hk; auto|auto].
  - intros Hin. eapply keeps_undecided; [apply Hk; auto|auto].
Qed.

Lemma rows_step l l' granted granted' t g :
  ledger_ok l → sound l l' → thread_ok l granted t g →
  (∀ reference, reference ∈ accepted_refs (th_history t) → keeps_input reference l l') →
  (∀ reference, qc_accepted_spend (th_call t) = None → reference ∈ accepted_refs (th_history t) → reference ∉ granted') →
  (∀ reference, qc_accepted_spend (th_call t) = None → reference ∈ accepted_refs (th_history t) → keeps true reference l l') →
  thread_ok l' granted' t g.
Proof.
  intros Hok Hs Ht Hi Hg Hk. assert (Hv := thread_view _ _ _ _ Ht). destruct Ht. split; try done. by eapply rows_keep.
Qed.

Lemma accepted_found c l granted (tr : list Event) g reference :
  rows_ok c l granted tr g → reference ∈ accepted_refs tr → is_Some (find_row l reference).
Proof. intros Hr Hin. destruct (ro_bound _ _ _ _ _ Hr _ Hin) as (row & -> & _). by eexists. Qed.

(** ** Steps *)

Lemma queued_call_parts s c : submitted_call s = Ok c →
  qc_accepted_spend c = rt_accepted_spend (sb_runtime s) ∧ qc_config c = rt_config (sb_runtime s).
Proof. unfold submitted_call, queued_call. walk. by intros [= <-]. Qed.

Lemma submit_ok l ts granted s c :
  rt_job (sb_runtime s) = false →
  mq_logical_retry_attempts (rt_config (sb_runtime s)) ≤ u32_max → submitted_call s = Ok c →
  pool_ok (mkPool l ts granted) → pool_ok (mkPool l (ts ++ [mkThread c (sb_provider s) [] (submitted s)]) granted).
Proof.
  intros Hj Hm Hc [Hl Hn Hg Ht]. destruct (queued_call_parts s c Hc) as [_ Ec]. split; cbn in *; [done| |done|].
  - unfold pool_accepted. rewrite bind_app. cbn. by rewrite app_nil_r.
  - apply Forall_app_2; [done|]. constructor; [|constructor]. exists idle. split; cbn [th_call]; [done| |by rewrite Ec|].
    + eapply safe_mono; [by apply submitted_safe|done].
    + split; cbn; intros reference; try (intros Hin; by apply elem_of_nil in Hin); intros _ Hin; by apply elem_of_nil in Hin.
Qed.

Lemma grants_spec l l' call reference :
  reference ∈ grants l l' call → find_row l reference = None ∧ is_Some (find_row l' reference).
Proof.
  unfold grants. destruct (asks call) as [r|]; [|by intros ?%elem_of_nil].
  destruct (find_row l (sr_reference r)) eqn:E1, (find_row l' (sr_reference r)) eqn:E2; try by intros ?%elem_of_nil.
  intros ->%list_elem_of_singleton. rewrite E2. by split; [|eexists].
Qed.

Lemma sound_found l l' reference : ledger_ok l → sound l l' → is_Some (find_row l reference) → is_Some (find_row l' reference).
Proof.
  intros Hok [Hok' Hl] [row Hf]. apply find_row_elem in Hf as [Hr <-].
  destruct (ledger_later_row _ _ _ Hl Hr) as (row' & Hr' & Hrow). exists row'. unfold row_reference.
  rewrite <- (later_reservation _ _ Hrow). by apply find_row_unique.
Qed.

Lemma other_ok l l' ts granted policy now clock call :
  others_may granted call → l' = (ledger_exec policy retention l now clock call).1 →
  pool_ok (mkPool l ts granted) → pool_ok (mkPool l' ts (granted ++ grants l l' call)).
Proof.
  intros [Hc Hm] El [Hl Hn Hgr Ht]. cbn in *.
  assert (sound l l') as Hs by (rewrite El; by apply ledger_exec_sound).
  split; cbn; [apply Hs|done| |].
  - intros reference [Hr|[_ Hr]%grants_spec]%elem_of_app; [|done]. eapply sound_found; [exact Hl|done|by apply Hgr].
  - rewrite Forall_forall in *. intros t Hin. destruct (Ht t Hin) as [g Hg]. exists g.
    assert (Hrows := to_rows _ _ _ _ Hg). apply rows_step with l granted; [done|done|done| | |].
    + intros reference Hr. rewrite El. by apply exec_input.
    + intros reference Ho Hr [Hg1|[Hg1 _]%grants_spec]%elem_of_app; [by eapply ro_own|].
      destruct (accepted_found _ _ _ _ _ _ Hrows Hr). congruence.
    + intros reference Ho Hr. rewrite El. apply exec_keeps; [done|].
      destruct call; cbn in *; try done; apply bool_decide_eq_false; intros ->; by eapply ro_own.
Qed.

Lemma watched_call_ok c provider g op a g' call :
  mq_logical_retry_attempts (qc_config c) ≤ u32_max → watch_call c provider g op a = Some g' →
  ledger_call op = Some call → call_ok call.
Proof.
  intros Hm Hw Hc. destruct op; simplify_eq/=; try done; apply guard_some in Hw as [Hb _].
  - apply andb_true_iff in Hb as [Hr _]. by eapply may_reserve_ok.
  - rewrite !andb_true_iff in Hb. destruct Hb as [[Hr _] Hl]. split; [by eapply may_reserve_ok|].
    apply Z.eqb_eq in Hl. unfold logical_max_attempts, u32_max in *. lia.
Qed.

Lemma ledger_answers_sound l op a l' :
  ledger_ok l → (∀ call, ledger_call op = Some call → call_ok call) → ledger_answers l op a l' → sound l l'.
Proof.
  intros Hok Hc Ha. destruct (answers_effect l op a l' Ha) as [->|(call & policy & now & clock & Ho & ->)].
  - by apply sound_refl.
  - apply ledger_exec_sound; [done|by apply Hc].
Qed.

Lemma answers_keeps strict reference l op a l' :
  ledger_ok l → (∀ call, ledger_call op = Some call → decides strict reference call = false) →
  ledger_answers l op a l' → keeps strict reference l l'.
Proof.
  intros Hok Hd Ha. destruct (answers_effect l op a l' Ha) as [->|(call & policy & now & clock & Ho & ->)].
  - apply keeps_refl.
  - apply exec_keeps; [done|by apply Hd].
Qed.

Lemma answers_input reference l op a l' :
  ledger_ok l → ledger_answers l op a l' → keeps_input reference l l'.
Proof.
  intros Hok Ha. destruct (answers_effect l op a l' Ha) as [->|(call & policy & now & clock & Ho & ->)].
  - intros row Hf. by exists row.
  - by apply exec_input.
Qed.

(** The receipt of a reservation the ledger accepted. *)
Lemma accepted_receipt c l r limit handoff l' :
  accepted l r limit handoff l' → qc_accepted_spend c = None → (keyed c = true → is_Some limit) →
  find_row l (sr_reference r) = None ∧ undecided l' (sr_reference r) ∧ receipted (keyed c) l' r ∧
  bound c l' (sr_reference r).
Proof.
  intros [Hf _ _ _ _ _ ->] Hc Hk. split; [done|].
  set (row := new_receipt r _ _). set (l' := mkLedger _ _).
  assert (find_row l' (sr_reference r) = Some row) as Hf'.
  { unfold find_row, l' in *. cbn [spend_receipts]. rewrite select_where_app. apply head_None in Hf. rewrite Hf. cbn.
    unfold has_reference. by rewrite bool_decide_eq_true_2. }
  split; [by exists row|]. split; [|exists row; by rewrite Hc].
  exists row. split; [done|]. split; [done|]. intros [n ->]%Hk. cbn. unfold frozen_limit.
  destruct (latest l _ _) as [p|]; cbn; [destruct (rr_attempt_limit p)|]; by eexists.
Qed.

(** A reservation that became a thread's: a new one, or a handed one that had
    no owner. *)
Inductive became (c : @QueuedCall Req) (l l' : Ledger) (r : SpendReservation) : Prop :=
| became_own :
    qc_accepted_spend c = None → find_row l (sr_reference r) = None → undecided l' (sr_reference r) →
    receipted (keyed c) l' r → bound c l' (sr_reference r) → became c l l' r
| became_owner row input :
    qc_accepted_spend c ≠ None → find_row l (sr_reference r) = Some row → rr_handoff_input row = Some input →
    rr_dispatch_owner row = None → receipted (keyed c) l' r → bound c l' (sr_reference r) → became c l l' r.

Lemma became_receipt c l l' r : became c l l' r → receipted (keyed c) l' r ∧ bound c l' (sr_reference r).
Proof. by intros []. Qed.

Lemma acquired_became c l clock handoff account input owner l' h :
  ledger_ok l → qc_accepted_spend c = Some h → acquire_handoff l clock handoff account input owner = (l', Ok tt) →
  became c l l' (ah_reservation handoff).
Proof.
  intros Hok Hc Ha.
  destruct (acquired l clock handoff account input owner l' Hok Ha) as (row & Hf & Hr & _ & _ & Hi & Ho & _ & Hf').
  apply (became_owner _ _ _ _ row input); [congruence|done|done|done| |]; exists (set_dispatch_owner owner row).
  - split; [done|]. split; [done|]. unfold keyed. by rewrite Hc, andb_false_r.
  - split; [done|]. rewrite Hc. by eexists.
Qed.

Lemma reserved_answer c provider g g' l op a l' r :
  watch_call c provider g op a = Some g' → ledger_ok l → reserved_as (mkCall op a) = Some r →
  ledger_answers l op a l' → became c l l' r.
Proof.
  intros Hw Hok He Ha.
  assert (∀ clock limit (a : result ModelError bool), accepted_ok a = true → may_reserve c g r = true →
    (is_some (qc_invocation_key c) = true → is_Some limit) →
    lossy l (commit l (reserve_with_limit_in l clock r limit false)) a l' → became c l l' r) as Hacc.
  { intros clock limit b Hb (Hsp & _ & _)%may_reserve_facts Hk [[-> ->]|[[e ->] _]]; [|done].
    destruct (reserve_with_limit_in _ _ _ _ _) as [[l1 []]| |] eqn:Er; try done.
    destruct (accepted_receipt c l r limit false l1) as (Hn & Hu & Hrc & Hbd);
      [by apply (reserve_accepted _ clock)|done| |by apply became_own].
    unfold keyed. intros [Hk2 _]%andb_true_iff. by apply Hk. }
  destruct op; cbn in He; try done; cbn in Hw; apply guard_some in Hw as [Hb _].
  - apply andb_true_iff in Hb as [Hm Hk%negb_true_iff].
    destruct (accepted_ok a) eqn:Hx; simplify_eq. destruct Ha as [clock Ha]. eapply (Hacc clock None); [done|done|congruence|done].
  - rewrite !andb_true_iff in Hb. destruct Hb as [[Hm _] _].
    destruct (accepted_ok a) eqn:Hx; simplify_eq. destruct Ha as [clock Ha]. by eapply (Hacc clock (Some limit)).
  - apply andb_true_iff in Hb as [_ Hb]. destruct (qc_accepted_spend c) as [h|] eqn:Hc; [|done].
    destruct a as [[]|e|]; simplify_eq/=. destruct Ha as (clock & [[Ea El]|[[e [=]] _]]).
    eapply (acquired_became c l clock); [done|done|]. by rewrite (surjective_pairing (acquire_handoff _ _ _ _ _ _)), <- Ea, <- El.
Qed.

(** ** One call of a thread *)

(** A decision of the thread is about a reservation of its own. *)
Lemma decided_own g g' (tr : list Event) op a strict reference call :
  delta g g' tr op a → ledger_call op = Some call → decides strict reference call = true →
  (op = LedgerRelease reference ∧ reference ∈ open_refs g) ∨ (strict = true ∧ reference ∈ spent tr).
Proof.
  intros Hd Hc Hx. destruct op; simplify_eq/=; try done.
  - apply bool_decide_eq_true in Hx as ->. left. split; [done|].
    destruct Hd as [r He _ _ _ Hr|r Hs|r Hr Hl|_ _ _ _ Hr]; try done; [|by destruct (Hr reference)].
    injection Hr as <-. rewrite Hl. by apply list_elem_of_singleton.
  - apply andb_true_iff in Hx as [-> Hx%bool_decide_eq_true]. right. split; [done|]. subst.
    destruct Hd as [r He|r Hs|r Hr|_ _ _ _ _ Hf]; try done. by eapply Hf.
Qed.

(** The thread's own receipts after the call. *)
Lemma own_rows c provider g g' l l' granted tr op a :
  watch_call c provider g op a = Some g' → delta g g' tr op a →
  ledger_ok l → sound l l' → ledger_answers l op a l' → rows_ok c l granted tr g →
  (∀ reference, reference ∈ granted → is_Some (find_row l reference)) →
  (∀ reference, reference ∈ spent tr → reference ∉ open_refs g) →
  rows_ok c l' granted (tr ++ [mkCall op a]) g'.
Proof.
  intros Hw Hd Hok Hs Ha [Hra Hrb Hro Hrs Hrl] Hgr Hdis.
  assert (∀ reference, qc_accepted_spend c = None → reference ∈ spent tr → unreleased l' reference) as Hspent.
  { intros reference Ho Hr. apply (keeps_unreleased l); [|by apply Hrs]. eapply answers_keeps; [done| |done].
    intros call Hc. apply not_true_iff_false. intros Hx.
    destruct (decided_own _ _ _ _ _ _ _ _ Hd Hc Hx) as [[_ Hl]|[? _]]; [by eapply Hdis|done]. }
  assert (∀ reference, qc_accepted_spend c = None → (∀ r, op ≠ LedgerRelease r) → reference ∈ open_refs g →
    undecided l' reference) as Hlive.
  { intros reference Ho Hne Hl. apply (keeps_undecided l); [|by apply Hrl]. eapply answers_keeps; [done| |done].
    intros call Hc. apply not_true_iff_false. intros Hx.
    destruct (decided_own _ _ _ _ _ _ _ _ Hd Hc Hx) as [[-> _]|[_ Hin]]; [by eapply Hne|by eapply Hdis]. }
  assert (∀ r, r ∈ accepted_reservations tr → receipted (keyed c) l' r) as Hacc.
  { intros r Hr. by eapply sound_receipted; [| |apply Hra]. }
  assert (∀ reference, reference ∈ accepted_refs tr → bound c l' reference) as Hbound.
  { intros reference Hr. eapply sound_bound; [exact Hok|done|by eapply answers_input|by apply Hrb]. }
  destruct Hd as [r He Hl Ea Es Hne|r Hdp Hno Hlg Hl Ea Es|r -> Hlg Hl Ea Es|Hl Ea Es _ Hne _];
    split; intros reference; unfold accepted_refs in *; rewrite ?Ea, ?Es, ?Hl, ?fmap_app; auto.
  all: try (by intros _ ?%elem_of_nil).
  1-4: assert (became c l l' r) as Hnew by (by eapply reserved_answer).
  - by intros [Hr| ->%list_elem_of_singleton]%elem_of_app; [apply Hacc|apply (became_receipt _ _ _ _ Hnew)].
  - by intros [Hr| ->%list_elem_of_singleton]%elem_of_app; [apply Hbound|apply (became_receipt _ _ _ _ Hnew)].
  - intros Ho [Hr| ->%list_elem_of_singleton]%elem_of_app; [by apply Hro|]. intros [row Hg]%Hgr.
    destruct Hnew; [congruence|done].
  - intros Ho ->%list_elem_of_singleton. by destruct Hnew.
  - intros Ho [Hin| ->%list_elem_of_singleton]%elem_of_app; [by apply Hspent|]. apply undecided_unreleased; [apply Hs|].
    apply Hlive; [done|by intros r' ->|rewrite Hlg; by apply list_elem_of_singleton].
  - destruct Hl as [-> | ->]; [intros; by apply Hlive|by intros _ ?%elem_of_nil].
Qed.

(** Nobody else's receipts are touched. *)
Lemma other_rows c provider g g' l l' granted tr op a t' gt :
  delta g g' tr op a → view c tr g → ledger_ok l → sound l l' → ledger_answers l op a l' → thread_ok l granted t' gt →
  (∀ reference, reference ∈ accepted_refs tr → reference ∉ accepted_refs (th_history t')) →
  watch_call c provider g op a = Some g' → thread_ok l' granted t' gt.
Proof.
  intros Hd Hv Hok Hs Ha Ht Hdis Hw. apply rows_step with l granted; [done|done|done| |apply (to_rows _ _ _ _ Ht)|].
  - intros reference _. by eapply answers_input.
  - intros reference _ Hr. eapply answers_keeps; [done| |done]. intros call Hc. apply not_true_iff_false. intros Hx.
    apply (Hdis reference); [|done]. apply (view_member c _ g); [done|].
    destruct (decided_own _ _ _ _ _ _ _ _ Hd Hc Hx) as [[_ Hl]|[_ Hin]]; auto.
Qed.

(** What becomes a thread's was no thread's. *)
Lemma became_fresh c c' l l' r : became c l l' r → bound c' l (sr_reference r) → False.
Proof.
  intros Hn (row & Hf & Hb). destruct Hn as [_ Hnone _ _ _|row' input _ Hf' Hi Ho _ _]; [congruence|].
  rewrite Hf in Hf'. injection Hf' as <-. destruct (is_some (qc_accepted_spend c')); [|congruence].
  rewrite Ho in Hb. by destruct Hb.
Qed.

(** The accepted references of the pool stay distinct. *)
Lemma accepted_distinct c provider g g' l l' ts1 ts2 tr op a rest rest' :
  watch_call c provider g op a = Some g' → delta g g' tr op a → ledger_ok l → ledger_answers l op a l' →
  (∀ reference, reference ∈ pool_accepted (ts1 ++ mkThread c provider tr rest :: ts2) → ∃ c', bound c' l reference) →
  NoDup (pool_accepted (ts1 ++ mkThread c provider tr rest :: ts2)) →
  NoDup (pool_accepted (ts1 ++ mkThread c provider (tr ++ [mkCall op a]) rest' :: ts2)).
Proof.
  intros Hw Hd Hok Ha Hrows Hn. unfold pool_accepted, accepted_refs in *. rewrite bind_app, bind_cons in *.
  cbn [th_history] in *.
  destruct Hd as [r He _ Ea _ _|r _ _ _ _ Ea _|r _ _ _ Ea _|_ Ea _ _ _ _]; rewrite Ea; [|done..].
  rewrite fmap_app. cbn [fmap list_fmap].
  assert (became c l l' r) as Hnew by (by eapply reserved_answer).
  assert (∀ xs ys zs : list string, xs ++ (ys ++ [sr_reference r]) ++ zs ≡ₚ sr_reference r :: xs ++ ys ++ zs) as ->.
  { intros xs ys zs. rewrite <- app_assoc. cbn. rewrite <- !Permutation_middle. done. }
  apply NoDup_cons. split; [|done]. intros Hin. apply Hrows in Hin as [c' Hb]. by eapply became_fresh.
Qed.

Lemma pool_bound l granted ts reference :
  Forall (λ t, ∃ g, thread_ok l granted t g) ts → reference ∈ pool_accepted ts → ∃ c', bound c' l reference.
Proof.
  rewrite Forall_forall. intros Ht (t & Hr & Hin)%list_elem_of_bind. destruct (Ht t Hin) as [g Hg].
  exists (th_call t). by apply (ro_bound _ _ _ _ _ (to_rows _ _ _ _ Hg)).
Qed.

Lemma thread_step_ok l l' ts1 ts2 granted c provider tr op k a :
  ledger_answers l op a l' → pool_ok (mkPool l (ts1 ++ mkThread c provider tr (Do op k) :: ts2) granted) →
  pool_ok (mkPool l' (ts1 ++ mkThread c provider (tr ++ [mkCall op a]) (k a) :: ts2) granted).
Proof.
  intros Ha [Hok Hn Hgr Ht]. cbn in Hok, Hn, Hgr, Ht. assert (Hall := Ht).
  apply Forall_app in Ht as [Ht1 [(g & Hg) Ht2]%Forall_cons].
  assert (Hv := thread_view _ _ _ _ Hg). assert (Hwf := thread_wf _ _ _ _ Hg).
  destruct Hg as [Hf Hr Hlim Hrows]. cbn in Hf, Hlim, Hrows, Hv. specialize (Hr a). cbn [th_call th_provider] in Hr.
  destruct (watch_call c provider g op a) as [g'|] eqn:Hw; [|done].
  assert (Hd := call_delta c provider tr g op a g' Hwf Hv Hw).
  assert (sound l l') as Hs.
  { eapply ledger_answers_sound; [done| |done]. intros call. by eapply watched_call_ok. }
  destruct (NoDup_bind_middle _ _ _ _ Hn) as [Hnt Hother]. cbn [th_history] in Hnt, Hother.
  assert (∀ t', t' ∈ ts1 ++ ts2 → (∃ gt, thread_ok l granted t' gt) → ∃ gt, thread_ok l' granted t' gt) as Hothers.
  { intros t' Hin (gt & Hgt). exists gt. eapply (other_rows c provider); try done.
    intros reference Hr1. by apply Hother. }
  split; cbn; [apply Hs| |intros reference Hin; by eapply sound_found; [exact Hok| |apply Hgr]|].
  - eapply accepted_distinct; try done. intros reference. by eapply pool_bound.
  - rewrite Forall_forall in Ht1, Ht2. apply Forall_app. split; [|constructor].
    + rewrite Forall_forall. intros t' Hin. apply Hothers; [apply elem_of_app|]; auto.
    + exists g'. split; cbn; try done.
      * rewrite follow_app, Hf. cbn. by rewrite Hw.
      * eapply own_rows; try done. by apply (view_parts _ _ _ Hv).
    + rewrite Forall_forall. intros t' Hin. apply Hothers; [apply elem_of_app|]; auto.
Qed.

Lemma callers_step_ok p p' : callers_step p p' → pool_ok p → pool_ok p'.
Proof. intros [] Hp; [by apply submit_ok|by eapply thread_step_ok|by eapply other_ok]. Qed.

Lemma reachable_ok p : reachable p → pool_ok p.
Proof.
  intros Hr. refine (rtc_ind_r (λ p, pool_ok p) _ _ _ p Hr).
  - split; [apply empty_ledger_ok|constructor|by intros ? ?%elem_of_nil|constructor].
  - intros p1 p2 _ Hs Hp. by eapply callers_step_ok.
Qed.

(** ** Consequences *)

Lemma spent_distinct ts l granted :
  NoDup (pool_accepted ts) → Forall (λ t, ∃ g, thread_ok l granted t g) ts → NoDup (pool_spent ts).
Proof.
  unfold pool_accepted, pool_spent. intros Hn0 Hall. revert Hn0.
  induction Hall as [|t ts [g Hg] Hts IH]; intros Hn0; [constructor|].
  rewrite bind_cons in *. apply NoDup_app in Hn0 as (Hn & Hd & Hn'). apply NoDup_app.
  split; [by apply (view_parts _ _ g (thread_view _ _ _ _ Hg))|]. split; [|by apply IH].
  intros reference Hr (t' & Hr' & Hin)%list_elem_of_bind.
  apply (Hd reference); [apply (view_member (th_call t) _ g); [by eapply thread_view|by left]|].
  apply list_elem_of_bind. exists t'. split; [|done]. rewrite Forall_forall in Hts. destruct (Hts t' Hin) as [g' Hg'].
  apply (view_member (th_call t') _ g'); [by eapply thread_view|by left].
Qed.

(** Every accepted reservation of a call is the call's own. *)
Lemma history_reservations (c : @QueuedCall Req) provider g (tr : list Event) g' r :
  qc_accepted_spend c = None → follow (watch_call c provider) g tr = Some g' → r ∈ accepted_reservations tr →
  sr_account r = qc_queue_id c ∧ sr_invocation r = qc_invocation c.
Proof.
  intros Hs. revert g. induction tr as [|[op a] tr IH]; intros g Hf Hin; [by apply elem_of_nil in Hin|].
  cbn in Hf. destruct (watch_call c provider g op a) as [g1|] eqn:Hw; [|done].
  assert (reserved_as (mkCall op a) = Some r ∨ r ∈ accepted_reservations tr) as [He|Hr]; [| |by eapply IH].
  { unfold accepted_reservations in *. cbn [omap list_omap] in Hin. destruct (reserved_as (mkCall op a)) as [r'|]; [|by right].
    apply elem_of_cons in Hin as [->|Hin]; auto. }
  assert (∀ r, may_reserve c g r = true → sr_account r = qc_queue_id c ∧ sr_invocation r = qc_invocation c) as Hm.
  { intros r' Hm. unfold may_reserve in Hm. rewrite !andb_true_iff, !bool_decide_eq_true in Hm. tauto. }
  destruct op; cbn in He; try done; cbn in Hw; apply guard_some in Hw as [Hb _].
  - destruct (accepted_ok a); simplify_eq. apply Hm. by apply andb_true_iff in Hb as [Hb _].
  - destruct (accepted_ok a); simplify_eq. apply Hm. rewrite !andb_true_iff in Hb. tauto.
  - by rewrite Hs, andb_false_r in Hb.
Qed.

(** Every provider's call was made under a reservation. *)
Lemma history_spent c provider g (tr tr' : list Event) g' :
  ghost_wf g → view c tr g → tally dispatches tr = Z.of_nat (length (spent tr)) →
  follow (watch_call c provider) g tr' = Some g' →
  tally dispatches (tr ++ tr') = Z.of_nat (length (spent (tr ++ tr'))).
Proof.
  revert tr g. induction tr' as [|[op a] tr' IH]; intros tr g Hwf Hv Ht Hf; [by rewrite app_nil_r|].
  cbn in Hf. destruct (watch_call c provider g op a) as [g1|] eqn:Hw; [|done].
  rewrite (cons_middle _ tr tr'), app_assoc. apply (IH _ g1); [by eapply step_balance|by eapply view_step| |done].
  rewrite tally_history_app, Ht. cbn [tally foldr].
  destruct (call_delta c provider tr g op a g1 Hwf Hv Hw) as [r He _ _ Es _|r Hd _ _ _ _ Es|r -> _ _ _ Es|_ _ Es He _ _];
    rewrite Es; [| |cbn; lia|].
  - destruct op; cbn in He; try done; cbn; lia.
  - rewrite Hd, length_app. cbn. lia.
  - destruct (dispatches (mkCall op a)) eqn:Hd; [|cbn; lia]. exfalso. destruct op; try done.
    cbn in Hw. apply guard_some in Hw as [Hb ->]. rewrite !andb_true_iff in Hb. destruct Hb as [[[[Hr _] _] _] _].
    destruct (g_reserved g) as [reference|] eqn:Hres; [|done].
    assert (spent (tr ++ [mkCall (Ans := Ans') (Dispatch request) a]) = spent tr ++ [reference]) as Es'.
    { unfold spent at 1. rewrite spend_snoc. unfold spend_step. cbn. by rewrite (v_in_use _ _ _ Hv reference). }
    rewrite Es' in Es. apply (f_equal length) in Es. rewrite length_app in Es. cbn in Es. lia.
Qed.

Lemma thread_spent l granted t g :
  thread_ok l granted t g → tally dispatches (th_history t) = Z.of_nat (length (spent (th_history t))).
Proof.
  intros Hg. apply (history_spent (th_call t) (th_provider t) idle [] _ g); [done|apply view_nil|done|apply Hg].
Qed.

(** The receipt a thread's provider's call was made under. *)
Lemma thread_row l granted t g reference :
  thread_ok l granted t g → reference ∈ spent (th_history t) →
  ∃ row, find_row l reference = Some row ∧
    match qc_accepted_spend (th_call t) with
    | None => rr_pre_dispatch_released row = false
    | Some h => row_reference row = sr_reference (ah_reservation h) ∧ is_Some (rr_dispatch_owner row)
    end.
Proof.
  intros Hg Hs. assert (Hrows := to_rows _ _ _ _ Hg).
  destruct (qc_accepted_spend (th_call t)) as [h|] eqn:Hc; [|by apply (ro_spent _ _ _ _ _ Hrows)].
  assert (reference ∈ accepted_refs (th_history t)) as Hin
    by (apply (view_member (th_call t) _ g); [by eapply thread_view|by left]).
  destruct (ro_bound _ _ _ _ _ Hrows _ Hin) as (row & Hf & Ho). rewrite Hc in Ho. exists row. split; [done|]. split; [|done].
  apply find_row_elem in Hf as [_ ->]. apply list_elem_of_fmap in Hin as (r & -> & Hin).
  pose proof (history_books (th_call t) (th_provider t) [] (th_history t) idle g idle_wf (view_nil _) (books_nil _ _)
                (to_history _ _ _ _ Hg)) as Hb.
  destruct (bk_handed _ _ _ _ Hb h Hc) as (_ & _ & Hall). rewrite Forall_forall in Hall. cbn [app] in Hall. by rewrite (Hall r Hin).
Qed.

(** The explicit provider calls of an account's invocation, by all threads that
    make their own reservations. *)
Definition calls_for (account invocation : string) (t : Thread) : bool :=
  keyed (th_call t) && bool_decide (qc_queue_id (th_call t) = account)
  && bool_decide (qc_invocation (th_call t) = invocation).

Definition provider_calls (account invocation : string) (ts : list Thread) : Z :=
  foldr (λ t n, (if calls_for account invocation t then tally dispatches (th_history t) else 0) + n) 0 ts.

(** The references of those calls. *)
Definition calls_spent (account invocation : string) (ts : list Thread) : list string :=
  pool_spent (select_where (calls_for account invocation) ts).

(** The attempts the ledger counts for the explicit invocation beyond those
    calls: of other users, of handed reservations, and granted ones that were
    not dispatched yet. *)
Definition other_attempts (account invocation : string) (l : Ledger) (ts : list Thread) : Z :=
  count_where (λ row, used_attempt row && negb (bool_decide (row_reference row ∈ calls_spent account invocation ts)))
    (select_where (in_chain account invocation) (spend_receipts l)).

(** A reference counted as an attempt of the explicit invocation. *)
Definition counted (l : Ledger) (account invocation reference : string) : Prop :=
  reference ∈ row_reference <$> select_where used_attempt (select_where (in_chain account invocation) (spend_receipts l)).

Lemma thread_counted l granted t g account invocation reference :
  ledger_ok l → thread_ok l granted t g → calls_for account invocation t = true → reference ∈ spent (th_history t) →
  counted l account invocation reference.
Proof.
  intros Hok Ht Hc Hr. unfold calls_for in Hc. rewrite !andb_true_iff, !bool_decide_eq_true in Hc.
  destruct Hc as [[Hk Ha] Hi]. assert (Hrows := to_rows _ _ _ _ Ht).
  assert (qc_accepted_spend (th_call t) = None) as Hown.
  { unfold keyed in Hk. apply andb_true_iff in Hk as [_ Hk]. by destruct (qc_accepted_spend (th_call t)). }
  destruct (ro_spent _ _ _ _ _ Hrows _ Hown Hr) as (row & Hf & Hp).
  assert (reference ∈ accepted_refs (th_history t)) as Hin
    by (apply (view_member (th_call t) _ g); [by eapply thread_view|by left]).
  apply list_elem_of_fmap in Hin as (r & -> & Hin).
  destruct (ro_accepted _ _ _ _ _ Hrows r Hin) as (row' & Hf' & Er & Hl).
  rewrite Hf in Hf'. injection Hf' as <-. destruct (find_row_elem _ _ _ Hf) as [Hrow Href].
  destruct (history_reservations _ _ _ _ _ r Hown (to_history _ _ _ _ Ht) Hin) as [Eac Ein].
  apply list_elem_of_fmap. exists row. split; [done|]. apply elem_of_select_where. split.
  - apply elem_of_select_where. split; [done|]. apply in_chain_spec. rewrite Er. split; congruence.
  - unfold used_attempt. rewrite Hp, andb_true_r. destruct (Hl Hk) as [n Hn]. by rewrite Hn.
Qed.

(** The used attempts of a chain are within the limit of any of its receipts. *)
Lemma chain_within l account invocation row n :
  ledger_ok l → row ∈ spend_receipts l → in_chain account invocation row = true → rr_attempt_limit row = Some n →
  count_where used_attempt (select_where (in_chain account invocation) (spend_receipts l)) ≤ n.
Proof.
  intros Hok Hr Hi Hn. set (chain := select_where _ _).
  assert (row ∈ chain) as Hin by (by apply elem_of_select_where).
  destruct (last chain) as [x|] eqn:Hx.
  - destruct (chain_attempts _ (ok_chains _ Hok account invocation) x Hx) as [Eu Hm].
    destruct (rr_attempt_limit x) as [m|]; [|rewrite Hm in Hn; done].
    destruct Hm as [Hle Hall]. destruct (Hall row Hin) as [E|E]; rewrite Hn in E; [done|]. injection E as ->.
    fold chain in Eu. lia.
  - apply last_None in Hx. rewrite Hx in Hin. by apply elem_of_nil in Hin.
Qed.

Lemma select_bind_sublist {A B} (q : A → bool) (f : A → list B) l : (select_where q l ≫= f) `sublist_of` (l ≫= f).
Proof.
  induction l as [|x l IH]; [constructor|]. rewrite select_where_cons, bind_cons. destruct (q x).
  - rewrite bind_cons. by apply sublist_app.
  - by apply sublist_inserts_l.
Qed.

Lemma provider_calls_spent l granted account invocation ts :
  Forall (λ t, ∃ g, thread_ok l granted t g) ts →
  provider_calls account invocation ts = Z.of_nat (length (calls_spent account invocation ts)).
Proof.
  unfold calls_spent. induction 1 as [|t ts [g Hg] _ IH]; [done|].
  cbn [provider_calls foldr]. fold (provider_calls account invocation ts).
  rewrite IH, select_where_cons. destruct (calls_for account invocation t); [|done].
  unfold pool_spent. rewrite bind_cons, length_app, Nat2Z.inj_add. f_equal. by eapply thread_spent.
Qed.

(** The receipts of a set of distinct references, and the rest. *)
Lemma count_split (rows : list ReceiptRow) (refs : list string) (q : ReceiptRow → bool) :
  NoDup refs → (∀ reference, reference ∈ refs → reference ∈ row_reference <$> select_where q rows) →
  Z.of_nat (length refs) + count_where (λ row, q row && negb (bool_decide (row_reference row ∈ refs))) rows
    ≤ count_where q rows.
Proof.
  intros Hn Hin.
  assert (count_where q rows = count_where (λ row, q row && bool_decide (row_reference row ∈ refs)) rows
    + count_where (λ row, q row && negb (bool_decide (row_reference row ∈ refs))) rows) as ->.
  { clear Hin. induction rows as [|row rows IH]; [done|]. rewrite !count_where_cons, IH.
    destruct (q row), (bool_decide _); cbn; lia. }
  apply Z.add_le_mono_r. unfold count_where. rewrite <- (length_fmap row_reference).
  apply Nat2Z.inj_le, submseteq_length, NoDup_submseteq; [done|]. intros reference Hr.
  destruct (proj1 (list_elem_of_fmap _ _ _) (Hin _ Hr)) as (row & -> & [Hrow Hq]%elem_of_select_where).
  apply list_elem_of_fmap. exists row. split; [done|]. apply elem_of_select_where. split; [done|].
  by rewrite Hq, bool_decide_eq_true_2.
Qed.

(** A thread about to call its provider. *)
Lemma thread_turn l granted c provider (tr : list Event) request k g :
  qc_accepted_spend c = None → ledger_ok l → thread_ok l granted (mkThread c provider tr (Do (Dispatch request) k)) g →
  ∃ row, in_use tr = Some (row_reference row) ∧
    latest l (qc_queue_id c) (qc_invocation c) = Some row ∧ rr_state row = SpendUnknown ∧
    ∀ row', row' ∈ spend_receipts l → in_chain (qc_queue_id c) (qc_invocation c) row' = true →
      row' ≠ row → rr_state row' ≠ SpendUnknown.
Proof.
  intros Hsp Hok Hg. assert (Hv := thread_view _ _ _ _ Hg). destruct Hg as [Hf Hr _ Hrows]. cbn in Hf, Hrows, Hv.
  specialize (Hr None). cbn in Hr. unfold guard in Hr.
  destruct (is_some (g_reserved g) && g_confirmed g && negb (g_sent g) && negb (g_released g) && negb (g_closed g)) eqn:Hb;
    [|done]. rewrite !andb_true_iff, !negb_true_iff in Hb. destruct Hb as [[[[Hres _] Hs] Hrel] _].
  destruct (g_reserved g) as [reference|] eqn:Eres; [|done].
  assert (reference ∈ open_refs g) as Hlive. { unfold open_refs. rewrite Eres, Hs, Hrel. by apply list_elem_of_singleton. }
  destruct (ro_open _ _ _ _ _ Hrows _ Hsp Hlive) as (row & Hfind & Hst).
  assert (reference ∈ accepted_refs tr) as (r & -> & Hin)%list_elem_of_fmap by (apply (view_member c _ g); auto).
  destruct (ro_accepted _ _ _ _ _ Hrows r Hin) as (row0 & Hf0 & Er & _). rewrite Hfind in Hf0. injection Hf0 as <-.
  destruct (history_reservations _ _ _ _ _ r Hsp Hf Hin) as [Ea Ei]. destruct (find_row_elem _ _ _ Hfind) as [Hrow Href].
  assert (row ∈ select_where (in_chain (qc_queue_id c) (qc_invocation c)) (spend_receipts l)) as Hc.
  { apply elem_of_select_where. split; [done|]. apply in_chain_spec. rewrite Er. split; congruence. }
  exists row. rewrite Href. split; [by apply (v_in_use _ _ _ Hv)|].
  apply list_elem_of_split in Hc as (c1 & c2 & Ec). pose proof (ok_chains _ Hok (qc_queue_id c) (qc_invocation c)) as Hch.
  rewrite Ec in Hch. pose proof (chain_unknown_last _ _ _ Hch Hst) as ->. split; [|split; [done|]].
  - unfold latest. rewrite Ec. by rewrite last_snoc.
  - intros row' Hr' Hc' Hne. apply (chain_decided _ Hch c1 row eq_refl).
    assert (row' ∈ c1 ++ [row]) as [Hin'|Hin']%elem_of_app by (rewrite <- Ec; by apply elem_of_select_where); [done|].
    by apply list_elem_of_singleton in Hin'.
Qed.

End Pool.
