(* ===== verification/ExecutorJobs.v ===== *)
(** A durable job's execution ([run_job]) against its monitor.

    The job's owner hands out the claim, admits the credential and takes the
    end of the attempt; [watch_job] refuses a provider's call without claim and
    admission, a second end, and an end that says more than the provider's
    answer proved. *)

From Stdlib Require Import ZArith Lia.
From stdpp Require Import base gmap strings list.
From S2P Require Import Prelude Core QueueTypes SpendTypes Program Json Trace ExecutionPolicy Responses Executor ExecutorProofs ExecutorCalls ExecutorGuards.

#[local] Open Scope Z_scope.
#[local] Existing Instance json_values.

(** What an observer of one job's execution knows. *)
Record JobGhost : Type := mkJobGhost {
  j_claimed : bool;
  j_prepared : option ModelProvider;
  j_admitted : bool;
  j_sent : bool;
  j_zero : bool;
  j_answered : bool;
  j_ended : bool;
  j_retry : bool;
}.

Definition job_idle : JobGhost := mkJobGhost false None false false false false false false.
Definition j_claim (g : JobGhost) : JobGhost :=
  mkJobGhost true (j_prepared g) (j_admitted g) (j_sent g) (j_zero g) (j_answered g) (j_ended g) (j_retry g).
Definition j_prepare (p : ModelProvider) (g : JobGhost) : JobGhost :=
  mkJobGhost (j_claimed g) (Some p) (j_admitted g) (j_sent g) (j_zero g) (j_answered g) (j_ended g) (j_retry g).
Definition j_admit (g : JobGhost) : JobGhost :=
  mkJobGhost (j_claimed g) (j_prepared g) true (j_sent g) (j_zero g) (j_answered g) (j_ended g) (j_retry g).
Definition j_send (zero answered : bool) (g : JobGhost) : JobGhost :=
  mkJobGhost (j_claimed g) (j_prepared g) (j_admitted g) true zero answered (j_ended g) (j_retry g).
Definition j_end (retry : bool) (g : JobGhost) : JobGhost :=
  mkJobGhost (j_claimed g) (j_prepared g) (j_admitted g) (j_sent g) (j_zero g) (j_answered g) true retry.

Definition job_guard (b : bool) (g : JobGhost) : option JobGhost := if b then Some g else None.

Lemma job_guard_some b (g g' : JobGhost) : job_guard b g = Some g' ↔ b = true ∧ g' = g.
Proof. destruct b; cbn; naive_solver. Qed.

Section Jobs.
Context `{!Chrono, !Sha256, !TextEncodings}.
Context {Req Res : Type} `{!TraceCarrier Res, !CredentialResponse Res, !Serde Res}.
Abbreviation Op' := (@Op Req).
Abbreviation Ans' := (@Ans Req Res).
Variable c : @QueuedCall Req.

(** The provider's answer proves that the job's call cost nothing; a panic
    proves nothing. *)
Definition job_zero (provider : ModelProvider) (sent : option (result ModelError Res)) : bool :=
  match sent with Some Panic => false | _ => dispatch_zero provider sent end.

Definition job_answered (provider : ModelProvider) (sent : option (result ModelError Res)) : bool :=
  match sent with Some Panic => false | _ => is_ok (dispatch_outcome provider sent) end.

Definition own_reservation (r : SpendReservation) : bool :=
  bool_decide (sr_account r = qc_queue_id c) && bool_decide (sr_invocation r = qc_invocation c)
  && bool_decide (sr_binding r = qc_attempt_binding c).

(** The monitor of one job's execution. *)
Definition watch_job (g : JobGhost) (op : Op') : Ans' op → option JobGhost :=
  match op as op return Ans' op → option JobGhost with
  | JobRecover r => λ _, job_guard (negb (j_claimed g) && own_reservation r) g
  | JobClaim r limit => λ a,
      job_guard (negb (j_claimed g) && own_reservation r && (limit =? logical_max_attempts (qc_config c)))
        (match a with Ok (Some _) => j_claim g | _ => g end)
  | PrepareCall => λ a,
      job_guard (j_claimed g && negb (is_some (j_prepared g)))
        (match a with Ok provider => j_prepare provider g | _ => g end)
  | JobAdmit fingerprint => λ a,
      job_guard (j_claimed g && negb (j_sent g) && negb (j_admitted g)
                 && match j_prepared g with
                    | Some provider => bool_decide (fingerprint = mp_credential_fingerprint provider)
                    | None => false
                    end)
        (if is_ok a then j_admit g else g)
  | Dispatch _ => λ a,
      match j_prepared g with
      | Some provider =>
          job_guard (j_admitted g && negb (j_sent g) && negb (j_ended g))
            (j_send (job_zero provider a) (job_answered provider a) g)
      | None => None
      end
  | JobFinish state usage output failure retry => λ _,
      job_guard (j_claimed g && negb (j_ended g)
                 && (negb retry || j_sent g && j_zero g)
                 && (if j_sent g
                     then if j_answered g then negb (bool_decide (state = SpendReleased)) && is_some output
                          else bool_decide (state = if j_zero g then SpendReleased else SpendUnknown)
                               && negb (is_some output)
                     else bool_decide (state = SpendReleased) && negb (is_some output)))
        (j_end retry g)
  | JobRelease => λ _, job_guard (j_claimed g && negb (j_sent g) && negb (j_ended g)) (j_end false g)
  | ClaimItem _ _ _ _ | HeartbeatItem _ _ _ | CompleteItem _ _ | FailItem _ _ _ | EnqueueItem _ | EnqueueReplacing _ _
  | LedgerReserve _ | LedgerReserveExplicit _ _ | LedgerAcquireHandoff _ _ _ _ | LedgerRelease _
  | LedgerFinish _ _ _ _ _ => λ _, None
  | _ => λ _, Some g
  end.

(** The calls it does not mind. *)
Definition job_unwatched (op : Op') : bool :=
  match op with
  | JobRecover _ | JobClaim _ _ | PrepareCall | JobAdmit _ | Dispatch _ | JobFinish _ _ _ _ _ | JobRelease
  | ClaimItem _ _ _ _ | HeartbeatItem _ _ _ | CompleteItem _ _ | FailItem _ _ _ | EnqueueItem _ | EnqueueReplacing _ _
  | LedgerReserve _ | LedgerReserveExplicit _ _ | LedgerAcquireHandoff _ _ _ _ | LedgerRelease _
  | LedgerFinish _ _ _ _ _ => false
  | _ => true
  end.

Lemma job_unwatched_ok g op a : job_unwatched op = true → watch_job g op a = Some g.
Proof. by destruct op. Qed.
#[local] Hint Resolve job_unwatched_ok : executor.
Ltac skip := skip_quiet job_unwatched.

Abbreviation quiet p := (@inert Op' Ans' job_unwatched _ p).

Lemma job_record_quiet status item trace error timing : quiet (record_attempt c status item trace error timing).
Proof. unfold record_attempt. inert. Qed.
Lemma job_record_trace_quiet t id : quiet (record_trace c t id).
Proof. unfold record_trace. inert. Qed.
#[local] Hint Resolve job_record_quiet job_record_trace_quiet : executor.
Lemma job_success_quiet r id : quiet (record_success_diagnostic c r id).
Proof. unfold record_success_diagnostic. inert. Qed.
Lemma job_trace_failure_quiet id e : quiet (trace_failure c id e).
Proof. unfold trace_failure. inert. Qed.
Lemma job_elapsed_quiet since : quiet (elapsed since).
Proof. unfold elapsed. inert. Qed.
Lemma job_cooldown_wait_quiet fuel queue_id : quiet (wait_for_model_cooldown fuel queue_id).
Proof. induction fuel as [|fuel IH]; cbn [wait_for_model_cooldown]; inert. Qed.
Lemma job_unwrap_quiet {A} (o : option A) : quiet (unwrap o).
Proof. by destruct o. Qed.
#[local] Hint Resolve job_success_quiet job_trace_failure_quiet job_elapsed_quiet job_cooldown_wait_quiet job_unwrap_quiet : executor.
Lemma job_cooldown_quiet e delay : quiet (note_model_cooldown c e delay).
Proof. unfold note_model_cooldown. inert. Qed.
Lemma job_admission_quiet fuel : quiet (job_admission fuel c).
Proof. induction fuel as [|fuel IH]; cbn [job_admission]; inert. Qed.
#[local] Hint Resolve job_cooldown_quiet job_admission_quiet : executor.

Lemma check_eligible_quiet {A} n stop (k : prog Ans' (result ModelError A)) :
  (∀ e, quiet (stop e)) → quiet k → quiet (check_eligible n stop k).
Proof.
  intros Hs Hk. induction n as [|n IH]; cbn; [done|]. split; [done|]. intros [[]|e|]; [done|apply Hs|apply Hs|done].
Qed.

Lemma while_eligible_quiet {A} (p : prog Ans' (result ModelError A)) : quiet p → quiet (while_eligible p).
Proof.
  induction p as [r|op k IH|]; intros Hp; [done| |done]. destruct Hp as [Hq Hk]. cbn. split; [done|]. intros n.
  apply check_eligible_quiet; [done|]. cbn. split; [done|auto].
Qed.

(** ** Work under the job's lease *)

(** After dispatch a heartbeat never ends the work. *)
Lemma job_renew_after {A} n fenced monitoring stop (k : bool → list ModelError → prog Ans' A) g Q :
  (∀ fenced monitoring, safe watch_job (k fenced monitoring) g Q) →
  safe watch_job (job_renew false n fenced monitoring stop k) g Q.
Proof.
  intros Hk. revert fenced monitoring. induction n as [|n IH]; intros fenced monitoring; [apply Hk|].
  cbn. destruct fenced; [apply Hk|]. intros [[]|e|]; cbn; [apply IH|apply IH|apply IH|done].
Qed.

Lemma holding_after {A} fenced monitoring (work : prog Ans' (result ModelError A)) g (Q : _ → JobGhost → Prop) :
  safe watch_job work g (λ r g, ∀ monitoring, Q (r, monitoring) g) →
  safe watch_job (holding_job_lease false fenced monitoring work) g Q.
Proof.
  revert fenced monitoring g. induction work as [r|op k IH|]; intros fenced monitoring g Hw; [apply Hw| |done].
  intros n. cbn [watch_job]. apply job_renew_after. intros fenced' monitoring' a. specialize (Hw a).
  destruct (watch_job g op a) as [g'|]; [|done]. by apply IH.
Qed.

(** Claimed, and nothing sent or ended. *)
Definition preparing (g : JobGhost) : Prop := j_claimed g = true ∧ j_sent g = false ∧ j_ended g = false.

(** The calls of the preparation. *)
Definition preparation (op : Op') : bool :=
  job_unwatched op || match op with PrepareCall | JobAdmit _ => true | _ => false end.

Lemma preparation_keeps g op a g' :
  preparation op = true → preparing g → watch_job g op a = Some g' → preparing g'.
Proof.
  intros Hp Hg Hw. unfold preparing in *. destruct op; cbn in *; try done; simplify_eq; try done;
    apply job_guard_some in Hw as [_ ->].
  - by destruct (is_ok a).
  - by destruct a.
Qed.

Lemma job_renew_before {A} n fenced monitoring stop (k : bool → list ModelError → prog Ans' A) g Q :
  (∀ e, safe watch_job (stop e) g Q) → (∀ fenced monitoring, safe watch_job (k fenced monitoring) g Q) →
  safe watch_job (job_renew true n fenced monitoring stop k) g Q.
Proof.
  intros Hs Hk. revert fenced monitoring. induction n as [|n IH]; intros fenced monitoring; [apply Hk|].
  cbn. destruct fenced; [apply Hk|]. intros [[]|e|]; cbn; [apply Hs|apply IH|apply Hs|done].
Qed.

(** Before dispatch it may end the work at any call. *)
Lemma holding_before {A} fenced monitoring (work : prog Ans' (result ModelError A)) g (Q : _ → JobGhost → Prop) :
  inert preparation work → preparing g → (∀ e monitoring g, preparing g → Q (Err e, monitoring) g) →
  safe watch_job work g (λ r g, ∀ monitoring, Q (r, monitoring) g) →
  safe watch_job (holding_job_lease true fenced monitoring work) g Q.
Proof.
  intros Hi Hg Hstop. revert fenced monitoring g Hg Hi.
  induction work as [r|op k IH|]; intros fenced monitoring g Hg Hi Hw; [apply Hw| |done].
  destruct Hi as [Hop Hk]. intros n. cbn [watch_job]. apply job_renew_before; [intros e; by apply Hstop|].
  intros fenced' monitoring' a. specialize (Hw a). destruct (watch_job g op a) as [g'|] eqn:E; [|done].
  apply IH; [by eapply preparation_keeps|apply Hk|done].
Qed.

(** ** Preparation, transport, end *)

Definition prepared_ok (r : result ModelError (Req * ModelProvider * result ModelError unit)) (g : JobGhost) : Prop :=
  preparing g ∧ match r with
                | Ok (_, provider, Ok _) => j_prepared g = Some provider ∧ j_admitted g = true
                | _ => True
                end.

Lemma preparation_quiet {A} (p : prog Ans' A) : quiet p → inert preparation p.
Proof.
  induction p as [r|op k IH|]; [done| |done]. intros [Hq Hk]. split; [|auto]. unfold preparation. by rewrite Hq.
Qed.

Lemma prepare_job_preparation payload reference attempt grant :
  inert preparation (prepare_job (Res:=Res) c payload reference attempt grant).
Proof.
  assert (∀ status item, inert preparation (record_attempt (Res:=Res) c status item None None no_timing)) as Hr.
  { intros. apply preparation_quiet. eauto with executor. }
  unfold prepare_job. inert; auto.
Qed.

Lemma prepare_job_safe payload reference attempt grant g :
  preparing g → j_prepared g = None → j_admitted g = false →
  safe watch_job (prepare_job c payload reference attempt grant) g prepared_ok.
Proof.
  intros (Hc & Hs & He) Hp Ha. assert (preparing g) as Hg by done. unfold prepare_job.
  skip; [intros [request hash]|done]. destruct (negb _); [done|].
  skip; [intros _|done]. skip. intros _. skip. intros _.
  intros provider. cbn [watch_job]. rewrite Hc, Hp. cbn [is_some negb andb job_guard].
  destruct provider as [provider|e|]; [|done|done]. cbn [pbind].
  set (g' := j_prepare provider g). assert (preparing g') as Hg' by done.
  skip; [intros cancelled|done]. destruct cancelled; [done|]. skip; [intros _|done].
  intros a. cbn. rewrite Hc, Hs, Ha, bool_decide_eq_true_2 by done. cbn. destruct a as [u|e|]; by split.
Qed.

(** What a transport result must match. *)
Definition transported (provider : ModelProvider)
    (r : result ModelError (result ModelError Res * option ModelError * bool)) (g : JobGhost) : Prop :=
  j_claimed g = true ∧ j_sent g = true ∧ j_ended g = false ∧
  match r with
  | Ok (result_, _, panicked) =>
      j_answered g = is_ok result_ ∧
      j_zero g = match result_ with Err e => negb panicked && known_zero_error provider e | _ => false end
  | _ => True
  end.

Lemma job_retry_wait_safe provider reference r panicked g :
  (∀ side, transported provider (Ok (r, side, panicked)) g) →
  safe watch_job (job_retry_wait c provider reference r panicked) g (transported provider).
Proof.
  intros Hok. assert (∀ e, transported provider (Err e) g) as Herr.
  { intros e. destruct (Hok None) as (Hc & Hs & He & _). by split_and!. }
  unfold job_retry_wait. destruct r as [r|e|]; [apply Hok| |apply Hok].
  destruct (negb panicked && known_zero_error provider e && is_retryable e (qc_config c)); [|apply Hok].
  skip. intros [[]|side|]; [|apply Hok|apply Hok|done].
  skip; [intros attempt|auto]. skip; [intros delay|auto]. skip. intros [u|side|]; [|apply Hok|done].
  skip. intros _. apply Hok.
Qed.

Lemma job_transport_safe provider request reference g :
  preparing g → j_prepared g = Some provider → j_admitted g = true →
  safe watch_job (job_transport c provider request reference) g (transported provider).
Proof.
  intros (Hc & Hs & He) Hp Ha sent. cbn [watch_job]. rewrite Hp, Ha, Hs, He. cbn [negb andb job_guard pbind].
  apply safe_bind. unfold job_result. destruct sent as [[r|e|]|]; cbn [within_timeout pbind]; [..|destruct (is_some _)].
  all: cbn [pbind safe fail]; try done.
  all: try (destruct (composed_result provider _) as [r'|e'|] eqn:Ec; cbn [rbind safe]).
  all: apply job_retry_wait_safe; intros side; unfold transported, job_zero, job_answered, dispatch_zero, dispatch_outcome;
    cbn [j_send j_claimed j_sent j_ended j_answered j_zero]; rewrite ?Ec; cbn; rewrite ?andb_true_l; auto.
Qed.

Definition job_ok (r : result ModelError Res) (g : JobGhost) : Prop :=
  match r with Ok _ => j_sent g = true ∧ j_answered g = true ∧ j_ended g = true | _ => True end.

Lemma job_ok_combined r side g :
  (is_ok r = true → j_sent g = true ∧ j_answered g = true ∧ j_ended g = true) → job_ok (combine_attempt_errors r side) g.
Proof. intros Hr. destruct r as [r|e|]; [|done|done]. destruct side; cbn; [by apply Hr|done]. Qed.

Lemma job_settle_safe provider reference attempt started transport monitoring g :
  transported provider (Ok transport) g →
  safe watch_job (job_settle c provider reference attempt started transport monitoring) g job_ok.
Proof.
  destruct transport as [[r side] panicked]. intros (Hc & Hs & He & Ha & Hz). unfold job_settle.
  set (zero := match r with Err e => _ | _ => _ end) in *. cbv zeta.
  set (retry := match r with Err e => zero && negb (is_some side) && is_retryable e (qc_config c) | _ => false end).
  set (r' := match r with Ok response => Ok (set_job_trace c reference response) | _ => r end).
  assert (retry = true → zero = true) as Hretry.
  { unfold retry. destruct r as [|e|]; [done| |done]. intros [[? ?]%andb_true_iff ?]%andb_true_iff. done. }
  assert (is_ok r' = j_answered g) as Hr' by (rewrite Ha; by destruct r).
  destruct (job_evidence c zero r') as [[[[state usage] output] failure]|e|] eqn:Ee; cbn [lift try_bind pbind]; [|done|done].
  assert (watch_job g (JobFinish state usage output failure retry) = λ _, Some (j_end retry g)) as Hw.
  { cbn. rewrite Hc, He, Hs, Hz. cbn. replace (negb retry || zero) with true by (destruct retry; [by rewrite Hretry|done]).
    cbn. rewrite <- Hr'. unfold job_evidence in Ee. destruct r' as [response|e|]; cbn in Ee |- *; [| |done].
    - destruct (to_value response); cbn in Ee; [|done]. injection Ee as <- _ <- _. by destruct (has_measured_usage _).
    - injection Ee as <- _ <- _. rewrite bool_decide_eq_true_2 by done. done. }
  intros finished. rewrite Hw. destruct finished as [u|e|]; [| |done].
  - assert (is_ok r' = true → j_sent (j_end retry g) = true ∧ j_answered (j_end retry g) = true
              ∧ j_ended (j_end retry g) = true) as Hend by (rewrite Hr'; cbn; auto).
    cbn [pbind]. destruct r' as [response|e|]; [| |done].
    + skip. intros o. apply job_ok_combined. intros _. by apply Hend.
    + apply safe_bind. skip. intros ms. skip. intros _. skip. intros traced. by destruct traced.
  - apply job_ok_combined. rewrite Hr'. by cbn.
Qed.

(** A job that was prepared in vain ends unsent. *)
Lemma refused_end e g :
  preparing g →
  safe watch_job (let! _ := call (JobFinish SpendReleased None None (Some (ModelError_code e)) false) in fail e) g job_ok.
Proof. intros (Hc & Hs & He) a. cbn. rewrite Hc, Hs, He. cbn. by destruct a. Qed.

Lemma unprepared_end provider e g :
  preparing g →
  safe watch_job
    (let! _ := (match mp_failure_charge provider e with
                | KnownZero => call (JobFinish SpendReleased None None (Some (ModelError_code e)) false)
                | ChargeUnknown => call JobRelease
                end) in fail e) g job_ok.
Proof.
  intros Hg. destruct (mp_failure_charge provider e); [|by apply refused_end].
  destruct Hg as (Hc & Hs & He). intros a. cbn. rewrite Hc, Hs, He. cbn. by destruct a.
Qed.

(** [run_job] keeps to its monitor. *)
Lemma run_job_safe fuel admission provider : safe watch_job (run_job fuel c admission provider) job_idle job_ok.
Proof.
  unfold run_job. skip. intros fresh. destruct (SpendReceiptRef_new _) as [reference|e|]; [|done|done].
  cbn [lift try_bind pbind]. set (r := mkReservation _ _ _ _ _).
  assert (own_reservation r = true) as Hr.
  { unfold own_reservation. cbn. by rewrite !bool_decide_eq_true_2. }
  intros done_. cbn [watch_job]. rewrite Hr. cbn [j_claimed job_idle negb andb job_guard].
  destruct done_ as [done_|e|]; [|done|done]. cbn [pbind]. destruct done_; [done|]. destruct (negb admission); [done|].
  apply (safe_inert_try job_unwatched); [eauto with executor|apply while_eligible_quiet; eauto with executor| |done].
  intros grant. apply safe_bind. eapply (safe_mono _ _ _ job_ok); [|intros outcome g Hg; skip; intros _; exact Hg].
  intros payload. cbn [watch_job]. rewrite Hr, Z.eqb_refl. cbn [j_claimed job_idle negb andb job_guard].
  destruct payload as [[payload|]|e|]; [|done|done|done]. cbn [pbind]. set (g := j_claim job_idle).
  assert (preparing g) as Hg by done. skip; [intros attempt|done].
  apply safe_bind, holding_before; [apply prepare_job_preparation|done| |].
  - intros e monitoring g' Hg'. by apply unprepared_end.
  - eapply safe_mono; [by apply prepare_job_safe|]. intros prepared g' [Hg' Hp] monitoring.
    destruct prepared as [[[request prepared] [u|e|]]|e|]; [|by apply refused_end|done|by apply unprepared_end|done].
    destruct Hp as [Hp Ha]. skip. intros started. apply safe_bind, holding_after.
    eapply safe_mono; [by apply job_transport_safe|]. intros transport g2 Ht monitoring'.
    destruct transport as [transport|e|]; [|done|done]. by apply job_settle_safe.
Qed.

(** ** Histories *)

Abbreviation Event := (event Ans').

Definition claims_job (e : Event) : bool :=
  match e with mkCall op a =>
    match op as op return Ans' op → bool with
    | JobClaim _ _ => λ a, match a with Ok (Some _) => true | _ => false end
    | _ => λ _, false
    end a
  end.

Definition admits_job (e : Event) : bool :=
  match e with mkCall op a =>
    match op as op return Ans' op → bool with JobAdmit _ => λ a, is_ok a | _ => λ _, false end a
  end.

Definition ends_job (e : Event) : bool :=
  match ev_op e with JobFinish _ _ _ _ _ | JobRelease => true | _ => false end.

(** What a history shows of the provider's call: the provider that was prepared
    and its answer. *)
Definition job_called (tr : list Event) (provider : ModelProvider) (a : option (result ModelError Res)) : Prop :=
  mkCall PrepareCall (Ok provider) ∈ tr ∧ ∃ request, mkCall (Dispatch request) a ∈ tr.

Record job_view (tr : list Event) (g : JobGhost) : Prop := {
  jv_claims : tally claims_job tr = Z.b2z (j_claimed g);
  jv_admits : tally admits_job tr = Z.b2z (j_admitted g);
  jv_sent : tally dispatches tr = Z.b2z (j_sent g);
  jv_ends : tally ends_job tr = Z.b2z (j_ended g);
  jv_order : (j_admitted g = true → j_claimed g = true) ∧ (j_sent g = true → j_admitted g = true);
  jv_prepared provider : j_prepared g = Some provider → mkCall PrepareCall (Ok provider) ∈ tr;
  jv_called : j_sent g = true → ∃ provider a, job_called tr provider a
    ∧ j_zero g = job_zero provider a ∧ j_answered g = job_answered provider a;
}.

Lemma job_called_app tr e provider a : job_called tr provider a → job_called (tr ++ [e]) provider a.
Proof.
  intros [Hp [request Hd]]. split; [apply elem_of_app; by left|]. exists request. apply elem_of_app. by left.
Qed.

(** A call that changes none of the flags. *)
Lemma job_view_idle tr g e :
  job_view tr g → claims_job e = false → admits_job e = false → dispatches e = false → ends_job e = false →
  job_view (tr ++ [e]) g.
Proof.
  intros [Hc Ha Hs He Ho Hp Hcall] E1 E2 E3 E4. split; rewrite ?tally_history_app; cbn.
  all: rewrite ?E1, ?E2, ?E3, ?E4; cbn; try lia.
  - done.
  - intros provider Hp'. apply elem_of_app. left. by apply Hp.
  - intros Hs'. destruct (Hcall Hs') as (provider & a & H1' & H2'). exists provider, a. split; [by apply job_called_app|done].
Qed.

Lemma job_view_step tr g op a g' : job_view tr g → watch_job g op a = Some g' → job_view (tr ++ [mkCall op a]) g'.
Proof.
  intros Hv Hw. destruct op; cbn in Hw; try discriminate Hw.
  all: try (injection Hw as <-; by apply job_view_idle).
  all: try (apply job_guard_some in Hw as [Hb ->]).
  all: try (by apply job_view_idle).
  - destruct (j_prepared g) as [provider|] eqn:Hp; [|done]. apply job_guard_some in Hw as [Hb ->].
    rewrite !andb_true_iff, !negb_true_iff in Hb. destruct Hb as [[Ha Hs] He], Hv as [V1 V2 V3 V4 V5 V6 V7].
    split; rewrite ?tally_history_app; cbn; rewrite ?Hs in *; cbn [Z.b2z] in *; try lia.
    + split; [apply V5|done].
    + intros p Hp'. apply elem_of_app. left. by apply V6.
    + intros _. exists provider, a. split; [|done]. split; [apply elem_of_app; left; by apply V6|].
      exists request. apply elem_of_app. right. by apply list_elem_of_singleton.
  - destruct a as [[payload|]|e|]; [|by apply job_view_idle..].
    rewrite !andb_true_iff, negb_true_iff in Hb. destruct Hb as [[Hc _] _], Hv as [V1 V2 V3 V4 V5 V6 V7].
    split; rewrite ?tally_history_app; cbn; rewrite ?Hc in *; cbn [Z.b2z] in *; try lia.
    + split; [done|apply V5].
    + intros p Hp. apply elem_of_app. left. by apply V6.
    + intros Hs. destruct (V7 Hs) as (p & x & H1' & H2'). exists p, x. split; [by apply job_called_app|done].
  - rewrite !andb_true_iff, !negb_true_iff in Hb. destruct Hb as [[[Hc Hs] Ha] _].
    destruct (is_ok a) eqn:Hok; [|by apply job_view_idle]. destruct Hv as [V1 V2 V3 V4 V5 V6 V7].
    split; rewrite ?tally_history_app; cbn; rewrite ?Ha, ?Hok in *; cbn [Z.b2z] in *; try lia.
    + split; [done|by rewrite Hs].
    + intros p Hp. apply elem_of_app. left. by apply V6.
    + congruence.
  - rewrite !andb_true_iff, !negb_true_iff in Hb. destruct Hb as [[[Hc He] _] _], Hv as [V1 V2 V3 V4 V5 V6 V7].
    split; rewrite ?tally_history_app; cbn; rewrite ?He in *; cbn [Z.b2z] in *; try lia; [done| |].
    + intros p Hp. apply elem_of_app. left. by apply V6.
    + intros Hs. destruct (V7 Hs) as (p & x & H1' & H2'). exists p, x. split; [by apply job_called_app|done].
  - rewrite !andb_true_iff, !negb_true_iff in Hb. destruct Hb as [[Hc Hs] He], Hv as [V1 V2 V3 V4 V5 V6 V7].
    split; rewrite ?tally_history_app; cbn; rewrite ?He in *; cbn [Z.b2z] in *; try lia; [done| |congruence].
    intros p Hp. apply elem_of_app. left. by apply V6.
  - destruct a as [provider|e|]; [|by apply job_view_idle..].
    assert (job_view (tr ++ [mkCall (Ans := Ans') PrepareCall (Ok provider)]) g) as [V1 V2 V3 V4 V5 V6 V7]
      by (by apply job_view_idle).
    split; try done. cbn. intros p [= <-]. apply elem_of_app. right. by apply list_elem_of_singleton.
Qed.

Lemma job_history_view tr tr' g g' : job_view tr g → follow watch_job g tr' = Some g' → job_view (tr ++ tr') g'.
Proof.
  revert tr g. induction tr' as [|[op a] tr' IH]; intros tr g Hv Hf; cbn in Hf; [injection Hf as <-; by rewrite app_nil_r|].
  destruct (watch_job g op a) as [g1|] eqn:Hw; [|done].
  rewrite (cons_middle _ tr tr'), app_assoc. apply (IH _ g1); [by eapply job_view_step|done].
Qed.

Lemma job_idle_view : job_view [] job_idle.
Proof. by split. Qed.

(** The state in which a call of a history was made. *)
Lemma job_history_at tr op a rest g' :
  follow watch_job job_idle (tr ++ mkCall op a :: rest) = Some g' →
  ∃ g, job_view tr g ∧ is_Some (watch_job g op a).
Proof.
  rewrite follow_app. destruct (follow watch_job job_idle tr) as [g|] eqn:Hf; [|done]. cbn. intros Hw.
  exists g. split; [by apply (job_history_view [] tr job_idle)|]. destruct (watch_job g op a); [by eexists|done].
Qed.

End Jobs.
