(* ===== verification/ExecutorTheorems.v ===== *)
(** What the model executor promises: no provider's call without a reservation
    of its own and a confirmed lease; a call that returns has given back its
    items and accounted for its reservations; over one ledger, a reservation is
    dispatched once and an invocation's provider calls stay within its frozen
    limit, however many callers there are. *)

From Stdlib Require Import ZArith Lia.
From stdpp Require Import base gmap strings list sorting relations.
From S2P Require Import Prelude Core QueueTypes SpendTypes SpendLedger SpendInv SpendProofs Program Json Trace ExecutionPolicy Responses Executor ExecutorProofs ExecutorCalls ExecutorGuards ExecutorLedger ExecutorBooks ExecutorPool ExecutorJobs.

#[local] Open Scope Z_scope.
#[local] Existing Instance json_values.

Section Theorems.
Context `{!Chrono, !ExpiryOrder, !Sha256, !TextEncodings}.
Context {Req Res : Type} `{!TraceCarrier Res, !CredentialResponse Res, !Serde Res}.
Abbreviation Op' := (@Op Req).
Abbreviation Ans' := (@Ans Req Res).
Abbreviation Event := (event Ans').
Variable payload_value : string → Value.
Variable handoff_input_identity : @QueuedCall Req → result ModelError string.
Variable retention : Z.
Abbreviation submitted := (submitted (Res := Res) payload_value handoff_input_identity).
Abbreviation reachable := (reachable (Res := Res) payload_value handoff_input_identity retention).

Lemma submitted_followed s c tr q : rt_job (sb_runtime s) = false → submitted_call s = Ok c →
  runs (submitted s) tr q → ∃ g, follow (watch_call c (sb_provider s)) idle tr = Some g
    ∧ safe (watch_call c (sb_provider s)) q g (λ _ g, accounted_b c g = true).
Proof. intros Hj Hc Hr. eapply safe_runs; [|done]. by apply submitted_safe. Qed.

(** C1: in every history of a queued call, whatever its environment answers,
    each provider's call follows an accepted reservation that is for this
    call's account, invocation and binding and names the claimed item and
    attempt (or is the reservation the call was handed); since that acceptance
    no other provider's call and no release were made, and the lease on that
    item was renewed in this worker's name. *)
Theorem dispatch_guarded s c (tr rest : list Event) request a q :
  rt_job (sb_runtime s) = false → submitted_call s = Ok c →
  runs (submitted s) (tr ++ mkCall (Dispatch request) a :: rest) q →
  ∃ id attempt before e since r,
    tr = before ++ e :: since ∧ reserved_as e = Some r ∧ reservation_for c id attempt r ∧
    (∃ e0, e0 ∈ before ∧ claimed_as e0 = Some (id, attempt)) ∧
    tally dispatches since = 0 ∧ tally releases since = 0 ∧ (∃ e1, e1 ∈ since ∧ renewed c id e1).
Proof.
  intros Hj Hc Hr. destruct (submitted_followed s c _ q Hj Hc Hr) as (g & Hf & _). by eapply dispatch_backed.
Qed.

(** C2: when a queued call that is no durable job returns, the items it gave
    back are, in order, exactly the items it claimed, and no reference was
    settled more often than it was spent on a provider's call; another attempt
    was asked for at most once per provider's call that is known to be free.
    If the call makes its own reservations, those it was granted are exactly
    the ones it spent, each on one provider's call, and the ones it released
    before dispatch; and the references it settled as free of cost are, in
    order, exactly those of the provider's calls known to be free.  If it was
    handed a reservation, each provider's call spent one grant of that
    reservation and of no other, and the call neither released nor settled
    anything: that is its owner's. *)
Theorem call_accounts s c tr r :
  rt_job (sb_runtime s) = false → submitted_call s = Ok c → runs (submitted s) tr (Ret r) →
  claimed_items tr = closed_items tr ∧ finished_refs tr ⊆+ spent tr ∧
  tally dispatches tr = Z.of_nat (length (spent tr)) ∧
  tally schedules_retry tr ≤ tally (dispatches_free (sb_provider s)) tr ∧
  match rt_accepted_spend (sb_runtime s) with
  | None => accepted_refs tr ≡ₚ spent tr ++ released_refs tr ∧ free_refs (sb_provider s) tr = freed_refs tr
  | Some h => spent tr ⊆+ accepted_refs tr ∧ Forall (λ r, r = ah_reservation h) (accepted_reservations tr) ∧
      released_refs tr = [] ∧ finished_refs tr = []
  end.
Proof.
  intros Hj Hc Hr. destruct (submitted_followed s c _ _ Hj Hc Hr) as (g & Hf & Hacc). cbn in Hacc.
  destruct (queued_call_parts s c Hc) as [<- _].
  destruct (call_books c (sb_provider s) tr g Hf Hacc) as (Hi & Hs & Hp). split; [done|]. split; [done|].
  split; [by apply (history_spent c (sb_provider s) idle [] tr g idle_wf (view_nil c))|]. split; [|done].
  destruct (history_balance _ _ _ _ _ idle_wf Hf) as [_ Hre]. unfold balance in Hre. cbn in Hre.
  destruct (open_retry g); cbn in Hre; lia.
Qed.

(** C3: over one ledger, for any number of callers that are no durable jobs,
    some of them handed a reservation, and whatever their interleaving with
    each other and with other users of the ledger, where another user releases
    or settles only reservations that were granted to it: no reservation is
    used for two provider's calls; every provider's call has a reservation;
    its receipt is in the ledger and was not released before dispatch if the
    caller made the reservation itself, and names the owner of its one dispatch
    if the caller was handed it. *)
Theorem pool_dispatches_once p :
  reachable p →
  NoDup (pool_spent (pl_threads p)) ∧
  (∀ t, t ∈ pl_threads p →
    tally dispatches (th_history t) = Z.of_nat (length (spent (th_history t))) ∧
    ∀ reference, reference ∈ spent (th_history t) →
      ∃ row, find_row (pl_ledger p) reference = Some row ∧
        match qc_accepted_spend (th_call t) with
        | None => rr_pre_dispatch_released row = false
        | Some h => row_reference row = sr_reference (ah_reservation h) ∧ is_Some (rr_dispatch_owner row)
        end).
Proof.
  intros Hr. destruct (reachable_ok _ _ _ _ Hr) as [Hok Hn _ Ht]. split; [by eapply spent_distinct|].
  rewrite Forall_forall in Ht. intros t Hin. destruct (Ht t Hin) as [g Hg]. split; [by eapply thread_spent|].
  intros reference Hs. by eapply thread_row.
Qed.

(** C4: the provider's calls of an explicit invocation, of all its callers that
    are no durable jobs and make their own reservations, together with every
    other attempt the ledger counts for the invocation (of durable jobs and
    other users, of handed reservations, or granted and not dispatched), never
    exceed the attempt limit frozen in its receipts; where another user of the
    ledger releases or settles only reservations that were granted to it. *)
Theorem pool_attempts_bounded p account invocation row n :
  reachable p → row ∈ spend_receipts (pl_ledger p) → in_chain account invocation row = true →
  rr_attempt_limit row = Some n →
  provider_calls account invocation (pl_threads p)
    + other_attempts account invocation (pl_ledger p) (pl_threads p) ≤ n.
Proof.
  intros Hr Hrow Hin Hl. destruct (reachable_ok _ _ _ _ Hr) as [Hok Hn _ Ht].
  etrans; [|by eapply (chain_within (pl_ledger p))].
  assert (NoDup (pool_spent (pl_threads p))) as Hsd by (by eapply spent_distinct). erewrite provider_calls_spent by exact Ht.
  apply count_split.
  - eapply sublist_NoDup; [exact Hsd|]. apply select_bind_sublist.
  - intros reference (t & Hs & [Ht' Hc]%elem_of_select_where)%list_elem_of_bind.
    rewrite Forall_forall in Ht. destruct (Ht t Ht') as [g Hg]. by eapply thread_counted.
Qed.

(** a caller that makes its own reservations and is about to call its provider
    holds the latest receipt of its invocation, which is undecided, and every
    other receipt of the invocation is decided: no provider's call starts while
    another one's outcome is open. *)
Theorem pool_dispatch_turn l ts1 ts2 granted c provider tr request k :
  qc_accepted_spend c = None →
  reachable (mkPool l (ts1 ++ mkThread c provider tr (Do (Dispatch request) k) :: ts2) granted) →
  ∃ row, in_use tr = Some (row_reference row) ∧
    latest l (qc_queue_id c) (qc_invocation c) = Some row ∧ rr_state row = SpendUnknown ∧
    ∀ row', row' ∈ spend_receipts l → in_chain (qc_queue_id c) (qc_invocation c) row' = true →
      row' ≠ row → rr_state row' ≠ SpendUnknown.
Proof.
  intros Hsp Hr. destruct (reachable_ok _ _ _ _ Hr) as [Hok _ _ Ht]. cbn in Hok, Ht.
  apply Forall_app in Ht as [_ [(g & Hg) _]%Forall_cons]. by eapply thread_turn.
Qed.

(** ** Durable jobs *)

Lemma job_followed s c tr q : rt_job (sb_runtime s) = true → submitted_call s = Ok c →
  runs (submitted s) tr q → ∃ g, follow (watch_job c) job_idle tr = Some g ∧ safe (watch_job c) q g job_ok.
Proof.
  intros Hj Hc Hr. eapply safe_runs; [|done]. unfold submitted, run_queued. fold (submitted_call s).
  apply (safe_inert_bind job_unwatched); [apply job_unwatched_ok|by split|]. intros now.
  destruct (ModelQueueConfig_validate _ _ _) as [u|e|]; [|done|done]. cbn [lift try_bind pbind].
  destruct (mp_validate_configuration _) as [u'|e|]; [|done|done]. cbn [pbind]. rewrite Hc. cbn [pbind].
  apply (safe_inert_try job_unwatched); [apply job_unwatched_ok|by destruct (is_some _)| |done].
  intros _. rewrite Hj. apply run_job_safe.
Qed.

(** C5: a durable job calls its provider at most once per execution, and only
    after it claimed the job and its credential was admitted, and before the
    execution was ended. *)
Theorem job_dispatch_guarded s c (tr rest : list Event) request a q :
  rt_job (sb_runtime s) = true → submitted_call s = Ok c →
  runs (submitted s) (tr ++ mkCall (Dispatch request) a :: rest) q →
  tally claims_job tr = 1 ∧ tally admits_job tr = 1 ∧ tally dispatches tr = 0 ∧ tally ends_job tr = 0.
Proof.
  intros Hj Hc Hr. destruct (job_followed s c _ q Hj Hc Hr) as (g' & Hf & _).
  destruct (job_history_at _ _ _ _ _ _ Hf) as (g & [V1 V2 V3 V4 V5 _ _] & [g1 Hw]). cbn in Hw.
  destruct (j_prepared g); [|done]. apply job_guard_some in Hw as [Hb _].
  rewrite !andb_true_iff, !negb_true_iff in Hb. destruct Hb as [[Ha Hs] He].
  rewrite V1, V2, V3, V4, Ha, Hs, He, (proj1 V5 Ha). done.
Qed.

(** C6: a durable job is ended at most once, by the execution that claimed it,
    and the end says what the provider's answer proved: released and without
    output when no call was made; with the output when an answer came; released
    when the failure is known to be free and unknown otherwise.  Another
    attempt is asked for only after a failure that is known to be free. *)
Theorem job_end_evidence s c (tr rest : list Event) state usage output failure retry a q :
  rt_job (sb_runtime s) = true → submitted_call s = Ok c →
  runs (submitted s) (tr ++ mkCall (JobFinish state usage output failure retry) a :: rest) q →
  tally claims_job tr = 1 ∧ tally ends_job tr = 0 ∧
  (tally dispatches tr = 0 ∧ state = SpendReleased ∧ output = None ∧ retry = false ∨
   ∃ provider answer, job_called tr provider answer ∧ (retry = true → job_zero provider answer = true) ∧
     (if job_answered provider answer then state ≠ SpendReleased ∧ is_Some output
      else output = None ∧ state = if job_zero provider answer then SpendReleased else SpendUnknown)).
Proof.
  intros Hj Hc Hr. destruct (job_followed s c _ q Hj Hc Hr) as (g' & Hf & _).
  destruct (job_history_at _ _ _ _ _ _ Hf) as (g & [V1 V2 V3 V4 V5 _ V7] & [g1 Hw]). cbn in Hw.
  apply job_guard_some in Hw as [Hb _]. rewrite !andb_true_iff, !negb_true_iff in Hb.
  destruct Hb as [[[Hcl He] Hre] Hst]. rewrite V1, V4, Hcl, He. split; [done|]. split; [done|].
  destruct (j_sent g) eqn:Hs.
  - right. destruct (V7 eq_refl) as (provider & answer & Hcall & Hz & Ha). exists provider, answer. split; [done|].
    rewrite <- Hz, <- Ha. split; [intros ->; done|].
    destruct (j_answered g); apply andb_true_iff in Hst as [H1' H2'].
    + split; [|by destruct output]. intros ->. done.
    + apply bool_decide_eq_true in H1'. by destruct output.
  - left. rewrite V3. apply andb_true_iff in Hst as [H1'%bool_decide_eq_true H2']. split; [done|]. split; [done|].
    split; [by destruct output|]. by destruct retry.
Qed.

(** a durable job that returns an answer made exactly one provider's call
    and was ended exactly once, by this execution. *)
Theorem job_answer_ended s c (tr : list Event) response :
  rt_job (sb_runtime s) = true → submitted_call s = Ok c → runs (submitted s) tr (Ret (Ok response)) →
  tally dispatches tr = 1 ∧ tally ends_job tr = 1.
Proof.
  intros Hj Hc Hr. destruct (job_followed s c _ _ Hj Hc Hr) as (g & Hf & Hs & _ & He).
  destruct (job_history_view c [] tr job_idle g job_idle_view Hf) as [_ _ V3 V4 _ _ _]. cbn [app] in V3, V4.
  by rewrite V3, V4, Hs, He.
Qed.

End Theorems.

(** ** A story: one explicit invocation, its first attempt rate limited *)

Section Story.
#[local] Existing Instance chrono_range.
#[local] Instance story_order : ExpiryOrder := expiry_merge.
#[local] Instance story_sha : Sha256 := {| sha256 s := s |}.
#[local] Instance story_text : TextEncodings := {|
  json_text v := match v with VString s => quoted s | _ => EmptyString end;
  base64 _ s := s;
  json_string_quoted s := ex_intro _ s eq_refl;
|}.

Definition story_identity : ModelIdentity := mkModelIdentity "chat" "acme" "m1".
Definition story_trace : ModelInvocationTrace :=
  mkTrace "t" None story_identity None None "h" None default_CacheTrace default_UsageTrace default_TimingTrace
    OutcomeSucceeded None [] VNull 0.
Definition story_response : ChatResponse := mkChatResponse "hi" None story_trace None.

#[local] Instance story_serde : Serde ChatResponse := {|
  to_value r := Some (VString (ch_text r));
  from_value v := match v with VString t => Some (mkChatResponse t None story_trace None) | _ => None end;
|}.

Definition story_descriptor : ProviderDescriptor := mkDescriptor story_identity CloudProvider [Chat] AuthNone VNull.
Definition story_provider : ModelProvider := mkProvider story_descriptor failure_charge (Ok tt) None None.
Definition story_runtime : QueueRuntime :=
  mkQueueRuntime false false false Retain None false (Some "i1"%string) false None
    (Some (mkBindingIdentity "tenant" "acme" "1" "a")) "w" default_ModelQueueConfig.
Definition story_hashes : @CallHashes string :=
  mkCallHashes (λ r, Ok r) (λ r, Some (VString r)) (λ _ _ _, "p"%string) (λ s, s) (λ _ _ _ _, "b"%string)
    (λ _ s, s) (λ s, s) (λ _, 1).
Definition story_submission : @Submission string :=
  mkSubmission true 5 story_hashes story_runtime story_descriptor Chat "chat" "r" story_provider.

Definition story_item (status : QueueStatus) (attempt : Z) : QueueItem :=
  mkQueueItem "x" "chat:acme:m1" "chat" "" status attempt 3 0 None None None None None 0 0.

(** The attempts claimed so far, and the ledger. *)
Definition story_handler (op : @Op string) (s : Z * Ledger) : (Z * Ledger) * @Ans string ChatResponse op :=
  let on (r : Ledger * result ModelError unit) := ((s.1, r.1), r.2) in
  match op as op return (Z * Ledger) * @Ans string ChatResponse op with
  | GetItem _ => (s, Ok (Some (story_item Pending s.1)))
  | ReclaimExpired _ => (s, Ok 0)
  | ClaimItem _ _ _ _ => ((s.1 + 1, s.2), Ok (Some (story_item Running (s.1 + 1))))
  | HeartbeatItem _ _ _ => (s, Ok tt)
  | CompleteItem _ _ => (s, Ok tt)
  | FailItem _ _ _ => (s, Ok RetryScheduled)
  | EnqueueItem _ | EnqueueReplacing _ _ => (s, Ok (mkEnqueueOutcome (story_item Pending 0) Inserted))
  | CooldownUntil _ => (s, Ok None)
  | NoteCooldown _ _ => (s, Ok tt)
  | LedgerInvocation account invocation => (s, invocation_in s.2 0 account invocation)
  | LedgerReceipt reference => (s, receipt_in s.2 0 reference)
  | LedgerReserve r => let '(l, a) := reserve s.2 0 r in ((s.1, l), a)
  | LedgerReserveExplicit r limit => let '(l, a) := reserve_explicit s.2 0 r limit in ((s.1, l), a)
  | LedgerAcquireHandoff handoff account input owner => on (acquire_handoff s.2 0 handoff account input owner)
  | LedgerRelease reference => on (release_before_dispatch s.2 0 reference)
  | LedgerFinish reference state usage output invocation =>
      on (SpendLedger.finish (λ _ _, Ok (false, None)) 1000 s.2 0 0 reference state usage output invocation)
  | ContextClear | ContextCapture _ => (s, Ok tt)
  | ContextReference => (s, Ok None)
  | CacheLoad _ => (s, Ok None)
  | CacheStore _ _ | DebugStore _ _ => (s, Ok tt)
  | RecordTrace _ => (s, Ok tt)
  | RecordReceipt _ => (s, tt)
  | UtcNow | InstantNow => (s, 0)
  | FreshTraceId | FreshItemId => (s, "id"%string)
  | AcquireSlot _ _ => (s, Ok tt)
  | DropSlot | Sleep _ => (s, tt)
  | CheckRate _ _ _ => (s, Ok (Cleared true))
  | ChargeRate => (s, Ok tt)
  | RenewalsDue => (s, O)
  | OwnershipLost => (s, false)
  | Dispatch _ => (s, Some (if s.1 =? 1 then Err (HttpNotSent (RateLimited HttpRateLimited)) else Ok story_response))
  | JobRecover _ | JobHeartbeat | JobCanRetry _ => (s, Ok false)
  | JobEligible => (s, Ok true)
  | JobClaim _ _ => (s, Ok (Some EmptyString))
  | JobAttempt => (s, Ok 1)
  | JobAdmit _ | JobFinish _ _ _ _ _ | JobRelease => (s, Ok tt)
  | DecodeRequest _ => (s, Ok ("r"%string, "r"%string))
  | PrepareCall => (s, Ok story_provider)
  end.

Definition story_prog : prog (@Ans string ChatResponse) (result ModelError ChatResponse) :=
  submitted (λ _, VNull) (λ _, Ok EmptyString) story_submission.
Definition story_run := interp story_handler story_prog (0, empty_ledger).
Definition story_history : list (event (@Ans string ChatResponse)) := story_run.1.2.

Lemma story_runs : ∃ r, runs story_prog story_history (Ret r).
Proof.
  assert (is_some story_run.2 = true) as Hr by (vm_compute; reflexivity).
  destruct story_run.2 as [r|] eqn:E; [|discriminate Hr]. exists r. by apply interp_history.
Qed.

Lemma call_accounts_witness : ∃ r,
  runs story_prog story_history (Ret r) ∧ length (spent story_history) = 2%nat ∧
  claimed_items story_history = closed_items story_history ∧
  accepted_refs story_history ≡ₚ spent story_history ++ released_refs story_history ∧
  length (freed_refs story_history) = 1%nat ∧
  free_refs story_provider story_history = freed_refs story_history.
Proof.
  destruct story_runs as [r Hr]. exists r. split; [exact Hr|]. split; [vm_compute; reflexivity|].
  assert (∃ c, submitted_call story_submission = Ok c) as [c Hc] by (eexists; reflexivity).
  destruct (call_accounts (λ _, VNull) (λ _, Ok EmptyString) story_submission c story_history r
              eq_refl Hc Hr) as (Hi & _ & _ & _ & Ha & Hz).
  split; [exact Hi|]. split; [exact Ha|]. split; [vm_compute; reflexivity|exact Hz].
Defined.

(** The second provider's call is the 76th call of the history. *)
Lemma story_split : ∃ a, story_history =
  take 75 story_history ++ mkCall (Dispatch "r"%string) a :: drop 76 story_history.
Proof.
  assert (match story_history !! 75%nat with
          | Some e => match ev_op e with Dispatch r => bool_decide (r = "r"%string) | _ => false end
          | None => false
          end = true) as He by (vm_compute; reflexivity).
  destruct (story_history !! 75%nat) as [[op a]|] eqn:E; [|discriminate He]. cbn in He.
  destruct op; try discriminate He.
  apply bool_decide_eq_true in He as ->. exists a. symmetry. exact (take_drop_middle _ _ _ E).
Qed.

Lemma dispatch_guarded_witness : ∃ c id attempt before e since r,
  submitted_call story_submission = Ok c ∧
  take 75 story_history = before ++ e :: since ∧ reserved_as e = Some r ∧ reservation_for c id attempt r ∧
  (∃ e0, e0 ∈ before ∧ claimed_as e0 = Some (id, attempt)) ∧
  tally dispatches since = 0 ∧ tally releases since = 0 ∧ (∃ e1, e1 ∈ since ∧ renewed c id e1).
Proof.
  destruct story_runs as [r Hr]. destruct story_split as [a Hs]. rewrite Hs in Hr.
  assert (∃ c, submitted_call story_submission = Ok c) as [c Hc] by (eexists; reflexivity). exists c.
  destruct (dispatch_guarded (λ _, VNull) (λ _, Ok EmptyString) story_submission c _ _ _ _ _ eq_refl Hc Hr)
    as (id & n & before & e & since & r' & Hd).
  exists id, n, before, e, since, r'. split; [exact Hc|exact Hd].
Defined.

(** The pool that holds the story's only caller, after [n] calls. *)
Definition story_call : @QueuedCall string :=
  match submitted_call story_submission with
  | Ok c => c
  | _ => mkQueuedCall None Off "" None "" "" default_ModelQueueConfig "" story_descriptor story_provider Chat "" None None
           false false false 0 ""%string "" VNull None
  end.

Definition story_state (n : nat) := interp_steps story_handler n story_prog (0, empty_ledger).

Definition story_pool (n : nat) : Callers :=
  mkPool (story_state n).1.1.2 [mkThread story_call story_provider (story_state n).1.2 (story_state n).2] [].

Lemma story_handler_answers op s : ledger_answers 1000 s.2 op (story_handler op s).2 (story_handler op s).1.2.
Proof.
  destruct op; try reflexivity; cbn.
  - exists 0. left. split; reflexivity.
  - exists 0. left. split; reflexivity.
  - exists 0. left. destruct (reserve s.2 0 r) as [l a]. split; reflexivity.
  - exists 0. left. destruct (reserve_explicit s.2 0 r limit) as [l a]. split; reflexivity.
  - exists 0. left. split; reflexivity.
  - exists 0. left. split; reflexivity.
  - exists (λ _ _, Ok (false, None)), 0, 0. left. split; reflexivity.
Qed.

Lemma story_reachable n : reachable (λ _, VNull) (λ _, Ok EmptyString) 1000 (story_pool n).
Proof.
  eapply rtc_l.
  - apply (step_submit _ _ _ empty_ledger [] [] story_submission story_call); [reflexivity| |reflexivity].
    vm_compute. discriminate.
  - exact (interp_reachable (λ _, VNull) (λ _, Ok EmptyString) 1000 (λ s : Z * Ledger, s.2) story_handler n story_prog (0, empty_ledger) story_call
             story_provider [] [] [] story_handler_answers).
Qed.

(** Another user reserves, hands the reservation over, and the caller spends
    it. *)
Definition handed_reservation : SpendReservation := mkReservation "h" "chat:acme:m1" "i2" "b2" None.
Definition story_handoff : AcceptedSpendHandoff := mkHandoff handed_reservation "in".
Definition handed_runtime : QueueRuntime :=
  mkQueueRuntime false false false Retain (Some story_handoff) false None false None
    (Some (mkBindingIdentity "tenant" "acme" "1" "a")) "w" default_ModelQueueConfig.
Definition handed_submission : @Submission string :=
  mkSubmission true 5 story_hashes handed_runtime story_descriptor Chat "chat" "r" story_provider.
Definition handed_call : @QueuedCall string :=
  match submitted_call handed_submission with Ok c => c | _ => story_call end.
Definition handed_prog : prog (@Ans string ChatResponse) (result ModelError ChatResponse) :=
  submitted (λ _, VNull) (λ _, Ok "in"%string) handed_submission.
Definition handed_ledger : Ledger :=
  (ledger_exec (λ _ _, Ok (false, None)) 1000 empty_ledger 0 0 (CReserveHandoff story_handoff)).1.
Definition handed_state (n : nat) := interp_steps story_handler n handed_prog (1, handed_ledger).
Definition handed_pool (n : nat) : Callers :=
  mkPool (handed_state n).1.1.2 [mkThread handed_call story_provider (handed_state n).1.2 (handed_state n).2]
    (grants empty_ledger handed_ledger (CReserveHandoff story_handoff)).

Lemma handed_reachable n : reachable (λ _, VNull) (λ _, Ok "in"%string) 1000 (handed_pool n).
Proof.
  eapply rtc_l; [|eapply rtc_l].
  - apply (step_other _ _ _ empty_ledger handed_ledger [] [] (λ _ _, Ok (false, None)) 0 0 (CReserveHandoff story_handoff));
      [|reflexivity]. split; [vm_compute; discriminate|exact I].
  - apply (step_submit _ _ _ handed_ledger [] _ handed_submission handed_call); [reflexivity| |reflexivity].
    vm_compute. discriminate.
  - exact (interp_reachable (λ _, VNull) (λ _, Ok "in"%string) 1000 (λ s : Z * Ledger, s.2) story_handler n handed_prog
             (1, handed_ledger) handed_call story_provider [] [] _ story_handler_answers).
Qed.

Lemma pool_dispatches_once_witness :
  length (pool_spent (pl_threads (story_pool 85))) = 2%nat ∧ NoDup (pool_spent (pl_threads (story_pool 85))) ∧
  pool_spent (pl_threads (handed_pool 60)) = ["h"%string] ∧
  ∃ row, find_row (pl_ledger (handed_pool 60)) "h" = Some row ∧ is_Some (rr_dispatch_owner row).
Proof.
  split; [vm_compute; reflexivity|]. split; [exact (proj1 (pool_dispatches_once _ _ _ _ (story_reachable 85)))|].
  split; [vm_compute; reflexivity|].
  destruct (proj2 (pool_dispatches_once _ _ _ _ (handed_reachable 60)) _ (list_elem_of_here _ _)) as [_ Hs].
  assert (spent (handed_state 60).1.2 = ["h"%string]) as Es by (vm_compute; reflexivity).
  destruct (Hs "h"%string) as (row & Hf & _ & Ho); [cbn [th_history]; rewrite Es; apply list_elem_of_here|].
  exists row. split; [exact Hf|exact Ho].
Defined.

Lemma pool_attempts_bounded_witness :
  provider_calls "chat:acme:m1" "i1" (pl_threads (story_pool 85)) = 2 ∧
  provider_calls "chat:acme:m1" "i1" (pl_threads (story_pool 85))
    + other_attempts "chat:acme:m1" "i1" (pl_ledger (story_pool 85)) (pl_threads (story_pool 85)) ≤ 3.
Proof.
  split; [vm_compute; reflexivity|].
  assert (match head (spend_receipts (pl_ledger (story_pool 85))) with
          | Some row => in_chain "chat:acme:m1" "i1" row && bool_decide (rr_attempt_limit row = Some 3)
          | None => false
          end = true) as He by (vm_compute; reflexivity).
  destruct (head (spend_receipts (pl_ledger (story_pool 85)))) as [row|] eqn:E; [|discriminate He].
  apply andb_true_iff in He as [Hin Hl%bool_decide_eq_true].
  exact (pool_attempts_bounded _ _ _ _ _ _ row 3 (story_reachable 85) (head_Some_elem_of _ _ E) Hin Hl).
Defined.

Lemma pool_dispatch_turn_witness : ∃ k row,
  reachable (λ _, VNull) (λ _, Ok EmptyString) 1000
    (mkPool (story_state 75).1.1.2
       ([] ++ mkThread story_call story_provider (story_state 75).1.2 (Do (Dispatch "r"%string) k) :: []) []) ∧
  latest (story_state 75).1.1.2 (qc_queue_id story_call) (qc_invocation story_call) = Some row ∧
  rr_state row = SpendUnknown.
Proof.
  assert (match next_call (story_state 75).2 with Some (Dispatch r) => bool_decide (r = "r"%string) | _ => false end = true)
    as Hn by (vm_compute; reflexivity).
  destruct (next_call (story_state 75).2) as [op|] eqn:E; [|discriminate Hn]. destruct op; try discriminate Hn.
  apply bool_decide_eq_true in Hn as ->. apply next_call_some in E as [k E].
  pose proof (story_reachable 75) as Hr. unfold story_pool in Hr. rewrite E in Hr.
  destruct (pool_dispatch_turn _ _ _ _ [] [] [] _ _ _ _ k (eq_refl : qc_accepted_spend story_call = None) Hr) as (row & _ & Hl & Hs & _).
  exists k, row. split; [exact Hr|]. split; [exact Hl|exact Hs].
Defined.

(** The same request as a durable job. *)
Definition job_story_runtime : QueueRuntime :=
  mkQueueRuntime false false true Retain None true (Some "i1"%string) false None
    (Some (mkBindingIdentity "tenant" "acme" "1" "a")) "w" default_ModelQueueConfig.
Definition job_submission : @Submission string :=
  mkSubmission true 5 story_hashes job_story_runtime story_descriptor Chat "chat" "r" story_provider.
Definition job_prog : prog (@Ans string ChatResponse) (result ModelError ChatResponse) :=
  submitted (λ _, VNull) (λ _, Ok EmptyString) job_submission.
Definition job_run := interp story_handler job_prog (0, empty_ledger).
Definition job_history : list (event (@Ans string ChatResponse)) := job_run.1.2.

Lemma job_runs : ∃ response, runs job_prog job_history (Ret (Ok response)).
Proof.
  assert (match job_run.2 with Some (Ok _) => true | _ => false end = true) as Hr by (vm_compute; reflexivity).
  destruct job_run.2 as [[response|e|]|] eqn:E; try discriminate Hr. exists response. by apply interp_history.
Qed.

Lemma job_call : ∃ c, submitted_call job_submission = Ok c.
Proof. eexists. reflexivity. Qed.

(** The 26th call is the provider's, the 27th the end of the job. *)
Lemma job_split_dispatch : ∃ request a, job_history = take 25 job_history ++ mkCall (Dispatch request) a :: drop 26 job_history.
Proof.
  assert (match job_history !! 25%nat with Some e => dispatches e | None => false end = true) as He by (vm_compute; reflexivity).
  destruct (job_history !! 25%nat) as [[op a]|] eqn:E; [|discriminate He]. destruct op; try discriminate He.
  exists request, a. symmetry. exact (take_drop_middle _ _ _ E).
Qed.

Lemma job_split_finish : ∃ state usage output failure retry a,
  job_history = take 26 job_history ++ mkCall (JobFinish state usage output failure retry) a :: drop 27 job_history.
Proof.
  assert (match job_history !! 26%nat with
          | Some e => match ev_op e with JobFinish _ _ _ _ _ => true | _ => false end
          | None => false
          end = true) as He by (vm_compute; reflexivity).
  destruct (job_history !! 26%nat) as [[op a]|] eqn:E; [|discriminate He]. destruct op; try discriminate He.
  exists state, usage, output, failure, retry, a. symmetry. exact (take_drop_middle _ _ _ E).
Qed.

Lemma job_dispatch_guarded_witness :
  tally claims_job (take 25 job_history) = 1 ∧ tally admits_job (take 25 job_history) = 1 ∧
  tally dispatches (take 25 job_history) = 0 ∧ tally ends_job (take 25 job_history) = 0.
Proof.
  destruct job_runs as [response Hr]. destruct job_split_dispatch as (request & a & Hs). destruct job_call as [c Hc].
  rewrite Hs in Hr.
  exact (job_dispatch_guarded (λ _, VNull) (λ _, Ok EmptyString) job_submission c _ _ _ _ _ eq_refl Hc Hr).
Defined.

Lemma job_end_evidence_witness :
  tally claims_job (take 26 job_history) = 1 ∧ tally ends_job (take 26 job_history) = 0.
Proof.
  destruct job_runs as [response Hr]. destruct job_split_finish as (state & usage & output & failure & retry & a & Hs).
  destruct job_call as [c Hc]. rewrite Hs in Hr.
  destruct (job_end_evidence (λ _, VNull) (λ _, Ok EmptyString) job_submission c _ _ _ _ _ _ _ _ _ eq_refl Hc Hr)
    as (Hcl & He & _).
  split; [exact Hcl|exact He].
Defined.

Lemma job_answer_ended_witness : tally dispatches job_history = 1 ∧ tally ends_job job_history = 1.
Proof.
  destruct job_runs as [response Hr]. destruct job_call as [c Hc].
  exact (job_answer_ended (λ _, VNull) (λ _, Ok EmptyString) job_submission c job_history response eq_refl Hc Hr).
Defined.

End Story.
