(* ===== verification/Float64.v ===== *)
(** Rust's [f64] and [f32]: the standard library's specification of IEEE 754
    arithmetic at binary64 and binary32, with the operations and comparisons the
    classifiers use and the order facts their proofs need.

    Every operation is executable; sums start at minus zero, as
    [Iterator::sum] does.  The value of a decimal literal is the nearest float,
    ties to even. *)

From Stdlib Require Import ZArith Lia.
From Stdlib Require Import SpecFloat.
From stdpp Require Import base list strings.
From S2P Require Import Prelude Text Json Responses.

#[local] Open Scope Z_scope.

Notation f64 := spec_float.
Notation f32 := spec_float (only parsing).

Definition f64_add : f64 → f64 → f64 := SFadd 53 1024.
Definition f64_sub : f64 → f64 → f64 := SFsub 53 1024.
Definition f64_mul : f64 → f64 → f64 := SFmul 53 1024.
Definition f64_div : f64 → f64 → f64 := SFdiv 53 1024.

(** [x < y], [x <= y] and [x >= y]: false when an operand is NaN. *)
Notation f64_lt := SFltb.
Notation f64_le := SFleb.

Definition f64_zero : f64 := S754_zero false.

(** [n as f64] of an integer. *)
Definition f64_of_Z (n : Z) : f64 := binary_normalize 53 1024 n 0 false.

(** The float nearest to [m * 10^e], for [m] not negative. *)
Definition nearest_decimal (prec emax : Z) (negative : bool) (m e : Z) : spec_float :=
  match m with
  | Zpos _ =>
      if 0 <=? e then
        binary_normalize prec emax (if negative then - (m * 10 ^ e) else m * 10 ^ e) 0 negative
      else
        let '(quotient, exponent, location) := SFdiv_core_binary prec emax m 0 (10 ^ (- e)) 0 in
        binary_round_aux prec emax negative quotient exponent location
  | _ => S754_zero negative
  end.

Definition f64_of_decimal (m e : Z) : f64 := nearest_decimal 53 1024 false m e.

Definition is_finite (x : spec_float) : bool :=
  match x with S754_zero _ | S754_finite _ _ _ => true | _ => false end.

(** [Value::as_f64]: the number's text read as a float, unless it is infinite. *)
Definition as_f64 (v : Value) : option f64 :=
  match v with
  | VNumber text =>
      '(negative, m, e) ← parse_decimal text;
      let x := nearest_decimal 53 1024 negative m e in
      if is_finite x then Some x else None
  | _ => None
  end.

(** [x.max(y)] and [x.min(y)]: an operand that is not NaN. *)
Definition f64_max (x y : f64) : f64 :=
  match x, y with
  | S754_nan, _ => y
  | _, S754_nan => x
  | _, _ => if f64_lt x y then y else x
  end.

(** [x.clamp(lo, hi)]. *)
Definition f64_clamp (lo hi x : f64) : f64 :=
  let x := if f64_lt x lo then lo else x in
  if f64_lt hi x then hi else x.

(** [(lo..=hi).contains(&x)]. *)
Definition f64_within (lo hi x : f64) : bool := f64_le lo x && f64_le x hi.

(** [values.iter().sum::<f64>()]. *)
Definition f64_sum (values : list f64) : f64 := foldl f64_add (S754_zero true) values.

(** [a.total_cmp(b)] of numbers: by value, minus zero below plus zero. *)
Definition total_key (x : spec_float) : Z * Z * Z :=
  match x with
  | S754_infinity true => (-2, 0, 0)
  | S754_finite true m e => (-1, - e, - Zpos m)
  | S754_zero true => (0, -1, 0)
  | S754_zero false => (0, 0, 0)
  | S754_finite false m e => (1, e, Zpos m)
  | S754_infinity false => (2, 0, 0)
  | S754_nan => (3, 0, 0)
  end.

Definition key_cmp (a b : Z * Z * Z) : comparison :=
  match a.1.1 ?= b.1.1 with
  | Eq => match a.1.2 ?= b.1.2 with Eq => a.2 ?= b.2 | c => c end
  | c => c
  end.

Definition total_cmp (x y : spec_float) : comparison := key_cmp (total_key x) (total_key y).

(** ** Order *)

Definition is_nan (x : spec_float) : bool := match x with S754_nan => true | _ => false end.

(** The zeros are equal to each other for [<] and [<=]. *)
Definition order_key (x : spec_float) : Z * Z * Z :=
  match x with S754_zero _ => (0, 0, 0) | x => total_key x end.

Lemma key_cmp_refl a : key_cmp a a = Eq.
Proof. unfold key_cmp. by rewrite !Z.compare_refl. Qed.

Lemma key_cmp_eq a b : key_cmp a b = Eq → a = b.
Proof.
  destruct a as [[a1 a2] a3], b as [[b1 b2] b3]. unfold key_cmp. simpl.
  destruct (Z.compare_spec a1 b1), (Z.compare_spec a2 b2), (Z.compare_spec a3 b3); intros; by subst.
Qed.

Lemma key_cmp_opp a b : key_cmp b a = CompOpp (key_cmp a b).
Proof.
  unfold key_cmp. rewrite (Z.compare_antisym a.1.1), (Z.compare_antisym a.1.2), (Z.compare_antisym a.2).
  by destruct (a.1.1 ?= _), (a.1.2 ?= _), (a.2 ?= _).
Qed.

Lemma key_cmp_trans a b c : key_cmp a b ≠ Gt → key_cmp b c ≠ Gt → key_cmp a c ≠ Gt.
Proof.
  destruct a as [[a1 a2] a3], b as [[b1 b2] b3], c as [[c1 c2] c3]. unfold key_cmp. simpl.
  destruct (Z.compare_spec a1 b1), (Z.compare_spec b1 c1), (Z.compare_spec a1 c1); try lia; try congruence;
  destruct (Z.compare_spec a2 b2), (Z.compare_spec b2 c2), (Z.compare_spec a2 c2); try lia; try congruence;
  destruct (Z.compare_spec a3 b3), (Z.compare_spec b3 c3), (Z.compare_spec a3 c3); try lia; congruence.
Qed.

Lemma SFcompare_key x y : is_nan x = false → is_nan y = false → SFcompare x y = Some (key_cmp (order_key x) (order_key y)).
Proof.
  destruct x as [[]|[]| |[] m e], y as [[]|[]| |[] m' e']; intros Hx Hy; try discriminate Hx; try discriminate Hy; try done.
  unfold key_cmp. cbn [order_key total_key fst snd SFcompare].
  rewrite Z.compare_refl, !Z.compare_opp, (Z.compare_antisym e e'). destruct (e ?= e'); try done.
  by rewrite (Z.compare_antisym (Z.pos m) (Z.pos m')).
Qed.

Lemma f64_le_key x y : f64_le x y = true ↔ is_nan x = false ∧ is_nan y = false ∧ key_cmp (order_key x) (order_key y) ≠ Gt.
Proof.
  unfold f64_le. destruct (is_nan x) eqn:Hx.
  { destruct x; try discriminate Hx. naive_solver. }
  destruct (is_nan y) eqn:Hy.
  { destruct y; try discriminate Hy. destruct x as [[]|[]| |[] ? ?]; naive_solver. }
 
  rewrite SFcompare_key by done. destruct (key_cmp _ _); naive_solver.
Qed.

Lemma f64_lt_key x y : f64_lt x y = true ↔ is_nan x = false ∧ is_nan y = false ∧ key_cmp (order_key x) (order_key y) = Lt.
Proof.
  unfold f64_lt. destruct (is_nan x) eqn:Hx.
  { destruct x; try discriminate Hx. naive_solver. }
  destruct (is_nan y) eqn:Hy.
  { destruct y; try discriminate Hy. destruct x as [[]|[]| |[] ? ?]; naive_solver. }
 
  rewrite SFcompare_key by done. destruct (key_cmp _ _); naive_solver.
Qed.

Lemma f64_le_refl x : is_nan x = false → f64_le x x = true.
Proof. intros Hx. apply f64_le_key. by rewrite key_cmp_refl. Qed.

Lemma f64_le_trans x y z : f64_le x y = true → f64_le y z = true → f64_le x z = true.
Proof.
  rewrite !f64_le_key. intros (Hx & Hy & Hxy) (_ & Hz & Hyz). by split_and!; [..|eapply key_cmp_trans].
Qed.

(** Of two numbers one is not above the other. *)
Lemma f64_not_lt x y : is_nan x = false → is_nan y = false → f64_lt x y = false → f64_le y x = true.
Proof.
  intros Hx Hy Hlt. apply f64_le_key. split_and!; [done..|]. rewrite key_cmp_opp. intros E.
  assert (f64_lt x y = true) as Hc; [|by rewrite Hlt in Hc]. apply f64_lt_key. by destruct (key_cmp (order_key x) (order_key y)).
Qed.

Lemma f64_lt_le x y : f64_lt x y = true → f64_le x y = true.
Proof. rewrite f64_lt_key, f64_le_key. intros (? & ? & ->). done. Qed.

Lemma f64_le_nan x y : f64_le x y = true → is_nan x = false ∧ is_nan y = false.
Proof. rewrite f64_le_key. naive_solver. Qed.

Lemma within_spec lo hi x : f64_within lo hi x = true ↔ f64_le lo x = true ∧ f64_le x hi = true.
Proof. apply andb_true_iff. Qed.

Lemma f64_clamp_within lo hi x : f64_le lo hi = true → is_nan x = false → f64_within lo hi (f64_clamp lo hi x) = true.
Proof.
  intros Hb Hx. destruct (f64_le_nan _ _ Hb) as [Hl Hh]. apply within_spec. unfold f64_clamp.
  destruct (f64_lt x lo) eqn:E1.
  - destruct (f64_lt hi lo) eqn:E2; split; auto using f64_le_refl.
  - apply f64_not_lt in E1; [|done..]. destruct (f64_lt hi x) eqn:E2; split; auto using f64_le_refl, f64_not_lt.
Qed.

Lemma f64_max_spec x y : is_nan x = false → is_nan y = false →
  f64_le x (f64_max x y) = true ∧ f64_le y (f64_max x y) = true ∧ is_nan (f64_max x y) = false.
Proof.
  intros Hx Hy. unfold f64_max. destruct (f64_lt x y) eqn:E.
  - replace (match x with S754_nan => _ | _ => _ end) with y by (by destruct x, y).
    auto using f64_le_refl, f64_lt_le.
  - replace (match x with S754_nan => _ | _ => _ end) with x by (by destruct x, y).
    auto using f64_le_refl, f64_not_lt.
Qed.
