(* ===== verification/Wire.v ===== *)
(** [symbiotic-model], [wire.rs]: the encoding of provider requests through a
    writer that refuses to pass a byte limit, and the bodies of the chat and
    Gemini protocols.

    [Wire] is what a serializer is told, fields in the order they are written.
    The byte strings serde_json hands to the writer are a parameter
    ([JsonWriter]); how the text is cut into writes does not matter
    ([encode_exact]). *)

From Stdlib Require Import ZArith Lia.
From Stdlib Require Import SpecFloat.
From stdpp Require Import base list strings.
From S2P Require Import Prelude Text Core SpendTypes Json Float64.

#[local] Open Scope Z_scope.

(** ** Requests ([lib.rs]) *)

Record ChatMessage : Type := mkChatMessage { cm_role : string; cm_content : string }.

Record ChatRequest : Type := mkChatRequest {
  cq_messages : list ChatMessage;
  cq_max_output_tokens : option Z;
  cq_temperature : option f32;
  cq_response_format : option string;
  cq_role_binding : option string;
  cq_source : option string;
  cq_metadata : Value;
}.

Record EmbeddingRequest : Type := mkEmbeddingRequest {
  eq_inputs : list string;
  eq_dimensions : option Z;
  eq_task : option string;
  eq_role_binding : option string;
  eq_source : option string;
  eq_metadata : Value;
}.

Record RerankRequest : Type := mkRerankRequest {
  rq_query : string;
  rq_documents : list string;
  rq_top_k : option Z;
  rq_role_binding : option string;
  rq_source : option string;
  rq_metadata : Value;
}.

Inductive ThinkingMode : Type := ThinkingEnabled | ThinkingDisabled.
#[export] Instance ThinkingMode_eq_dec : EqDecision ThinkingMode.
Proof. solve_decision. Defined.

(** ** The capped writer *)

(** What a value tells its serializer. *)
Inductive Wire : Type :=
| WBool (b : bool)
| WInt (n : Z)
| WFloat (x : f32)
| WString (s : string)
| WArray (values : list Wire)
| WMap (entries : list (string * Wire))
| WValue (v : Value).

(** The byte strings the compact serializer writes for a value, in order. *)
Class JsonWriter : Type := { write_calls : Wire → list string }.

Record CappedWriter : Type := mkCappedWriter {
  cw_output : string;
  cw_written : Z;
  cw_max_bytes : Z;
}.

(** [CappedWriter::write]: all of the bytes or none. *)
Definition cw_write (bytes : string) (w : CappedWriter) : result unit CappedWriter :=
  if cw_max_bytes w <? cw_written w then Panic
  else if cw_max_bytes w - cw_written w <? byte_len bytes then Err tt
  else Ok (mkCappedWriter (cw_output w +:+ bytes) (cw_written w + byte_len bytes) (cw_max_bytes w)).

(** [serde_json::to_writer]: it stops at the first write that fails. *)
Fixpoint write_all (writes : list string) (w : CappedWriter) : result unit CappedWriter :=
  match writes with
  | [] => Ok w
  | bytes :: writes => let? w := cw_write bytes w in write_all writes w
  end.

Definition limit_exceeded : ModelError := InvalidRequest ProviderRequestLimitExceeded.

Section Encoding.
Context `{!JsonWriter}.

Definition encode (value : Wire) (max_bytes : option Z) : result ModelError string :=
  let? body := map_err (λ _, limit_exceeded)
                 (write_all (write_calls value) (mkCappedWriter "" 0 (default usize_max max_bytes))) in
  Ok (cw_output body).

Definition encoded_len (value : Wire) (max_bytes : Z) : result ModelError Z :=
  let? counter := map_err (λ _, limit_exceeded) (write_all (write_calls value) (mkCappedWriter "" 0 max_bytes)) in
  Ok (cw_written counter).

(** The whole text of a value. *)
Definition text_of (value : Wire) : string := foldr String.append EmptyString (write_calls value).

(** ** Chat bodies *)

(** A field that is left out when it has no value. *)
Definition skip_none {A : Type} (name : string) (f : A → Wire) (o : option A) : list (string * Wire) :=
  match o with Some a => [(name, f a)] | None => [] end.

Definition message_wire (m : ChatMessage) : Wire :=
  WMap [("role", WString (cm_role m)); ("content", WString (cm_content m))]%string.

Definition thinking_text (mode : ThinkingMode) : string :=
  match mode with ThinkingEnabled => "enabled" | ThinkingDisabled => "disabled" end.

(** [validate_chat_settings] of [lib.rs]. *)
Definition validate_chat_settings (thinking : option ThinkingMode) (effort : option string) :
    result ModelError unit :=
  if match effort with Some s => blank s | None => false end
     || bool_decide (thinking = Some ThinkingDisabled) && is_some effort
  then Err (InvalidRequest UnsupportedChatSettingsReasoningEffortRequiresThinkingAndMustBeNonempty)
  else Ok tt.

Definition openai_wire (model : string) (request : ChatRequest) (thinking : option ThinkingMode)
    (reasoning_effort : option string) : Wire :=
  WMap ([("model", WString model); ("messages", WArray (map message_wire (cq_messages request)))]%string
        ++ skip_none "max_tokens" WInt (cq_max_output_tokens request)
        ++ skip_none "temperature" WFloat (cq_temperature request)
        ++ skip_none "response_format" (λ kind, WMap [("type"%string, WString kind)]) (cq_response_format request)
        ++ skip_none "thinking" (λ mode, WMap [("type"%string, WString (thinking_text mode))]) thinking
        ++ skip_none "reasoning_effort" WString reasoning_effort
        ++ [("stream", WBool false)%string]).

Definition openai_chat_body (model : string) (request : ChatRequest) (thinking : option ThinkingMode)
    (reasoning_effort : option string) (max_bytes : option Z) : result ModelError string :=
  let? _ := validate_chat_settings thinking reasoning_effort in
  encode (openai_wire model request thinking reasoning_effort) max_bytes.

(** A leading system message apart from the turns that follow. *)
Definition split_system (messages : list ChatMessage) : option string * list ChatMessage :=
  match messages with
  | first :: rest => if String.eqb (cm_role first) "system" then (Some (cm_content first), rest) else (None, messages)
  | [] => (None, [])
  end.

Definition f32_one : f32 := nearest_decimal 24 128 false 1 0.

Definition turn_role (m : ChatMessage) : bool :=
  String.eqb (cm_role m) "user" || String.eqb (cm_role m) "assistant".

(** The requests the Messages protocol cannot carry. *)
Definition anthropic_refuses (request : ChatRequest) (thinking : option ThinkingMode) : bool :=
  let messages := (split_system (cq_messages request)).2 in
  is_some (cq_response_format request)
  || match cq_temperature request with
     | Some t => negb (is_finite t) || negb (f64_within (S754_zero false) f32_one t)
     | None => false
     end
  || match last messages with Some m => negb (String.eqb (cm_role m) "user") | None => true end
  || bool_decide (thinking = Some ThinkingEnabled)
     && match cq_temperature request with Some t => negb (SFeqb t f32_one) | None => false end
  || existsb (λ m, negb (turn_role m)) messages.

Definition anthropic_wire (model : string) (request : ChatRequest) (thinking : option ThinkingMode) : Wire :=
  let '(system, messages) := split_system (cq_messages request) in
  WMap ([("model", WString model);
         ("max_tokens", match cq_max_output_tokens request with Some n => WInt n | None => WValue VNull end)]%string
        ++ skip_none "system" WString system
        ++ [("messages"%string, WArray (map message_wire messages))]
        ++ skip_none "temperature" WFloat (cq_temperature request)
        ++ skip_none "thinking"
             (λ mode, WMap [("type", WString (match mode with ThinkingEnabled => "adaptive" | _ => "disabled" end))]%string)
             thinking
        ++ [("stream", WBool false)%string]).

Definition anthropic_chat_body (model : string) (request : ChatRequest) (thinking : option ThinkingMode)
    (max_bytes : option Z) : result ModelError string :=
  if anthropic_refuses request thinking then Err (InvalidRequest InvalidConfiguration)
  else encode (anthropic_wire model request thinking) max_bytes.

(** ** Gemini bodies *)

(** [s.strip_prefix(p)]. *)
Fixpoint strip_prefix (p s : string) : option string :=
  match p, s with
  | EmptyString, _ => Some s
  | String a p, String b s => if Ascii.eqb a b then strip_prefix p s else None
  | String _ _, EmptyString => None
  end.

Fixpoint strip_prefixes (fuel : nat) (p s : string) : string :=
  match fuel with
  | O => s
  | S fuel => match strip_prefix p s with Some s => strip_prefixes fuel p s | None => s end
  end.

(** [s.trim_start_matches(p)] for a text [p] that is not empty: each match takes
    at least one byte. *)
Definition trim_start_matches (p s : string) : string := strip_prefixes (String.length s) p s.

Definition gemini_model (model : string) : string := ("models/" +:+ trim_start_matches "models/" model)%string.

Definition gemini_one_wire (model input : string) (dimensions : Z) : Wire :=
  WMap [("model", WString model);
        ("content", WMap [("parts", WArray [WMap [("text", WString input)]])]);
        ("output_dimensionality", WInt dimensions)]%string.

Definition gemini_wire (model : string) (dimensions : Z) (inputs : list string) : Wire :=
  match inputs with
  | [input] => gemini_one_wire (gemini_model model) input dimensions
  | inputs => WMap [("requests", WArray (map (λ input, gemini_one_wire (gemini_model model) input dimensions) inputs))]%string
  end.

Definition validate_gemini_options (dimensions : Z) (request : EmbeddingRequest) : result ModelError unit :=
  if (dimensions =? 0) || match eq_dimensions request with Some n => negb (n =? dimensions) | None => false end
  then Err (InvalidRequest GeminiRequestDimensionsDifferFromConfiguredBinding)
  else if is_some (eq_task request) then Err (InvalidRequest GeminiTaskOptionIsUnsupported)
  else Ok tt.

Definition gemini_embedding_body (model : string) (dimensions : Z) (request : EmbeddingRequest)
    (max_bytes : option Z) : result ModelError string :=
  let? _ := validate_gemini_options dimensions request in
  encode (gemini_wire model dimensions (eq_inputs request)) max_bytes.

(** ** The writer encodes exactly *)

Lemma write_all_exact writes out written max :
  written = byte_len out → written ≤ max →
  write_all writes (mkCappedWriter out written max)
  = let text := foldr String.append EmptyString writes in
    if written + byte_len text <=? max
    then Ok (mkCappedWriter (out +:+ text) (written + byte_len text) max) else Err tt.
Proof.
  revert out written. induction writes as [|bytes writes IH]; intros out written Hw Hm; simpl.
  { rewrite Z.add_0_r, str_app_nil_r, (proj2 (Z.leb_le _ _)) by lia. done. }
  unfold cw_write. simpl. rewrite (proj2 (Z.ltb_ge max written)) by lia. rewrite byte_len_app.
  pose proof (byte_len_nonneg (foldr String.append EmptyString writes)) as Hn.
  destruct (Z.ltb_spec (max - written) (byte_len bytes)) as [Hl|Hl]; simpl.
  - destruct (Z.leb_spec (written + (byte_len bytes + byte_len (foldr String.append EmptyString writes))) max); [lia|done].
  - rewrite IH by (rewrite ?byte_len_app; lia). simpl. by rewrite str_app_assoc, Z.add_assoc.
Qed.

Lemma encode_exact value max_bytes : 0 ≤ default usize_max max_bytes →
  encode value max_bytes
  = if byte_len (text_of value) <=? default usize_max max_bytes then Ok (text_of value) else Err limit_exceeded.
Proof.
  intros Hm. unfold encode. rewrite write_all_exact by done. fold (text_of value). simpl. by destruct (_ <=? _).
Qed.

Lemma encoded_len_exact value max : 0 ≤ max →
  encoded_len value max
  = if byte_len (text_of value) <=? max then Ok (byte_len (text_of value)) else Err limit_exceeded.
Proof.
  intros Hm. unfold encoded_len. rewrite write_all_exact by done. fold (text_of value). simpl. by destruct (_ <=? _).
Qed.

End Encoding.
