(* ===== verification/ModelRegistry.v ===== *)
(** [symbiotic-model], [registry.rs]: the deployment's model registry, checked as a
    whole before any binding is served.

    The URL parser and the date parser are parameters ([Urls], [Dates]).  The
    registry compares account policies by their JSON, which keeps every field of
    the policy: the model compares the records. *)

From Stdlib Require Import ZArith Lia.
From stdpp Require Import base gmap strings list.
From S2P Require Import Prelude Text Core SpendTypes Json Trace ExecutionPolicy Responses Wire.

#[local] Open Scope Z_scope.

(** ** Configuration *)

Inductive ModelAdapter : Type :=
| OpenAiChat | AnthropicChat | GeminiEmbedding | OpenAiEmbedding | OllamaEmbedding | CohereRerank | JevClassifier.
#[export] Instance ModelAdapter_eq_dec : EqDecision ModelAdapter.
Proof. solve_decision. Defined.
#[export] Instance capability_eq_dec : EqDecision ModelCapability.
Proof. solve_decision. Defined.
#[export] Instance model_identity_eq_dec : EqDecision ModelIdentity.
Proof. solve_decision. Defined.
#[export] Instance queue_config_eq_dec : EqDecision ModelQueueConfig.
Proof. solve_decision. Defined.

Definition adapter_capability (a : ModelAdapter) : ModelCapability :=
  match a with
  | OpenAiChat | AnthropicChat => Chat
  | GeminiEmbedding | OpenAiEmbedding | OllamaEmbedding => Embedding
  | CohereRerank => Rerank
  | JevClassifier => Classify
  end.

Definition adapter_operation (a : ModelAdapter) : string :=
  match a with
  | OpenAiChat | AnthropicChat => "chat"
  | GeminiEmbedding | OpenAiEmbedding | OllamaEmbedding => "embedding"
  | CohereRerank => "rerank"
  | JevClassifier => "classify"
  end.

Inductive CostClass : Type := CostFree | CostBudget | CostStandard | CostPremium.
Inductive ReasoningTier : Type := ReasoningNone | ReasoningStandard | ReasoningExtended.

Record ModelCapabilities : Type := mkCapabilities {
  mc_context_window : option Z;
  mc_tool_use : bool;
  mc_structured_output : bool;
  mc_reasoning_tier : ReasoningTier;
  mc_cost_class : CostClass;
  mc_pricing : option ModelPricing;
}.

Record PricingProvenance : Type := mkProvenance { pp_source : string; pp_date : string }.

Record ModelEntry : Type := mkModelEntry {
  me_id : string;
  me_aliases : list string;
  me_identity : ModelIdentity;
  me_adapter : ModelAdapter;
  me_operations : list ModelCapability;
  me_capabilities : ModelCapabilities;
  me_pricing_provenance : option PricingProvenance;
}.

Definition DEFAULT_MAX_REQUEST_BYTES : Z := 1024 * 1024.
Definition DEFAULT_MAX_RESPONSE_BYTES : Z := 1024 * 1024.

Record ProviderLimits : Type := mkLimits {
  pl_max_request_bytes : Z;
  pl_max_response_bytes : Z;
  pl_max_output_tokens : option Z;
}.

Record TransportSettings : Type := mkSettings {
  ts_thinking : option ThinkingMode;
  ts_reasoning_effort : option string;
  ts_dimensions : option Z;
  ts_embedding_full_dimensions : option Z;
  ts_embedding_input_tokens : option Z;
  ts_rerank_input_bytes : option Z;
  ts_rerank_candidates : option Z;
  ts_rerank_context_tokens : option Z;
  ts_rerank_query_tokens : option Z;
  ts_served_model : option string;
}.

Record TenantProviderBinding : Type := mkBinding {
  tb_identity : BindingIdentity;
  tb_model : string;
  tb_endpoint : string;
  tb_secret_ref : option string;
  tb_account_policy : string;
  tb_account_sharing_key : option string;
  tb_limits : ProviderLimits;
  tb_settings : TransportSettings;
}.

Record AccountExecutionPolicy : Type := mkAccount { ap_id : string; ap_policy : ModelQueueConfig }.

Record RegistryConfig : Type := mkRegistryConfig {
  rc_version : Z;
  rc_models : list ModelEntry;
  rc_bindings : list TenantProviderBinding;
  rc_accounts : list AccountExecutionPolicy;
}.

Record ModelRegistry : Type := mkRegistry {
  mr_config : RegistryConfig;
  mr_models : gmap string nat;
  mr_bindings : gmap (string * string) nat;
  mr_accounts : gmap string nat;
}.

Record RegistryBinding : Type := mkRegistryBinding {
  rb_binding : TenantProviderBinding;
  rb_model : ModelEntry;
  rb_account : AccountExecutionPolicy;
}.

(** A parsed URL. *)
Record Url : Type := mkUrl {
  url_scheme : string;
  url_host : option string;
  url_username : string;
  url_password : option string;
  url_query : option string;
  url_fragment : option string;
}.
Class Urls : Type := { parse_url : string → option Url }.

(** [NaiveDate::parse_from_str] with ["%Y-%m-%d"] succeeds. *)
Class Dates : Type := { date_ok : string → bool }.

Definition invalid : ModelError := InvalidRequest InvalidConfiguration.
Definition nonempty (s : string) : bool := negb (blank s).

(** ** Checks of single settings *)

(** [o.is_none_or(|n| n == 0)]. *)
Definition none_or_zero (o : option Z) : bool := match o with Some n => n =? 0 | None => true end.

(** [a > b] of options: a missing value is the least. *)
Definition option_gt (a b : option Z) : bool :=
  match a, b with
  | Some a, Some b => b <? a
  | Some _, None => true
  | None, _ => false
  end.

Definition validate_retrieval (s : TransportSettings) (adapter : ModelAdapter) : result ModelError unit :=
  let embedding := bool_decide (adapter = OpenAiEmbedding) || bool_decide (adapter = OllamaEmbedding) in
  let rerank := bool_decide (adapter = CohereRerank) in
  if negb embedding && (is_some (ts_embedding_full_dimensions s) || is_some (ts_embedding_input_tokens s))
     || negb rerank && (is_some (ts_rerank_input_bytes s) || is_some (ts_rerank_candidates s)
                        || is_some (ts_rerank_context_tokens s) || is_some (ts_rerank_query_tokens s))
     || embedding && (none_or_zero (ts_dimensions s) || none_or_zero (ts_embedding_full_dimensions s)
                      || none_or_zero (ts_embedding_input_tokens s)
                      || option_gt (ts_dimensions s) (ts_embedding_full_dimensions s))
     || rerank && (is_some (ts_dimensions s) || none_or_zero (ts_rerank_input_bytes s)
                   || none_or_zero (ts_rerank_candidates s) || none_or_zero (ts_rerank_context_tokens s)
                   || none_or_zero (ts_rerank_query_tokens s)
                   || option_gt (ts_rerank_query_tokens s) (ts_rerank_context_tokens s))
     || (embedding || rerank) && (is_some (ts_thinking s) || is_some (ts_reasoning_effort s) || is_some (ts_served_model s))
  then Err invalid else Ok tt.

Definition validate_endpoint `{!Urls} (endpoint : string) : result ModelError unit :=
  let? url := ok_or (parse_url endpoint) invalid in
  if negb (String.eqb (url_scheme url) "http" || String.eqb (url_scheme url) "https")
     || negb (is_some (url_host url)) || negb (String.eqb (url_username url) "") || is_some (url_password url)
     || is_some (url_query url) || is_some (url_fragment url)
  then Err invalid else Ok tt.

(** ** Models, accounts and bindings *)

Section Registry.
Context `{!Chrono, !Urls, !Dates, !TextEncodings} (debug_assertions : bool) (now : DateTime).

Definition model_refused (identities : list ModelIdentity) (m : ModelEntry) : bool :=
  bool_decide (me_identity m ∈ identities)
  || negb (nonempty (me_id m))
  || negb (nonempty (mi_operator (me_identity m)))
  || negb (nonempty (mi_model (me_identity m)))
  || negb (String.eqb (mi_operation (me_identity m)) (adapter_operation (me_adapter m)))
  || negb (bool_decide (me_operations m = [adapter_capability (me_adapter m)]))
  || bool_decide (mc_context_window (me_capabilities m) = Some 0)
  || is_some (mc_pricing (me_capabilities m))
     && negb match me_pricing_provenance m with
             | Some p => nonempty (pp_source p) && date_ok (pp_date p)
             | None => false
             end.

Fixpoint add_names (names : list string) (index : nat) (models : gmap string nat) :
    result ModelError (gmap string nat) :=
  match names with
  | [] => Ok models
  | id :: names =>
      if negb (nonempty id) || is_some (models !! id) then Err invalid
      else add_names names index (<[id := index]> models)
  end.

Fixpoint add_models (entries : list ModelEntry) (index : nat) (identities : list ModelIdentity)
    (models : gmap string nat) : result ModelError (gmap string nat) :=
  match entries with
  | [] => Ok models
  | m :: entries =>
      if model_refused identities m then Err invalid
      else
        let? models := add_names (me_id m :: me_aliases m) index models in
        add_models entries (S index) (me_identity m :: identities) models
  end.

Fixpoint add_accounts (entries : list AccountExecutionPolicy) (index : nat) (accounts : gmap string nat) :
    result ModelError (gmap string nat) :=
  match entries with
  | [] => Ok accounts
  | account :: entries =>
      let? _ := ModelQueueConfig_validate debug_assertions now (ap_policy account) in
      if negb (nonempty (ap_id account)) || is_some (accounts !! ap_id account)
         || is_some (mq_response_cache_dir (ap_policy account))
      then Err invalid
      else add_accounts entries (S index) (<[ap_id account := index]> accounts)
  end.

(** [ModelRegistry::model]; an index past the catalogue would panic. *)
Definition lookup_model (models : gmap string nat) (entries : list ModelEntry) (id : string) :
    result ModelError ModelEntry :=
  let? i := ok_or (models !! id) invalid in
  match entries !! i with Some m => Ok m | None => Panic end.

(** Settings a binding's adapter does not take. *)
Definition settings_refused (b : TenantProviderBinding) (adapter : ModelAdapter) : bool :=
  let s := tb_settings b in
  match adapter with
  | OpenAiChat => is_some (ts_dimensions s) || is_some (ts_served_model s)
  | AnthropicChat => is_some (ts_reasoning_effort s) || is_some (ts_dimensions s) || is_some (ts_served_model s)
  | GeminiEmbedding =>
      none_or_zero (ts_dimensions s) || is_some (ts_thinking s) || is_some (ts_reasoning_effort s)
      || is_some (ts_served_model s)
      || negb (String.eqb (tb_endpoint b) "https://generativelanguage.googleapis.com/v1beta")
  | JevClassifier => is_some (ts_dimensions s) || is_some (ts_thinking s) || is_some (ts_reasoning_effort s)
  | _ => false
  end.

(** The checks of one binding against its model. *)
Definition check_binding (b : TenantProviderBinding) (m : ModelEntry) : result ModelError unit :=
  let chat := bool_decide (adapter_capability (me_adapter m) = Chat) in
  let s := tb_settings b in
  if chat && negb (is_some (pl_max_output_tokens (tb_limits b)))
     || negb chat && is_some (pl_max_output_tokens (tb_limits b))
  then Err invalid
  else
    let? _ := validate_retrieval s (me_adapter m) in
    if match ts_served_model s with Some name => negb (nonempty name) | None => false end then Err invalid
    else
      let? _ := if chat then validate_chat_settings (ts_thinking s) (ts_reasoning_effort s) else Ok tt in
      if settings_refused b (me_adapter m) then Err invalid else Ok tt.

(** The text that identifies the account a binding draws on. *)
Definition sharing_key (b : TenantProviderBinding) : result ModelError string :=
  match tb_account_sharing_key b with
  | Some key => if nonempty key then Ok (json_text (VArray [VString "shared"; VString key])) else Err invalid
  | None =>
      Ok (json_text (VArray [VString "tenant-account"; VString (bi_tenant (tb_identity b));
                             VString (bi_account (tb_identity b))]))
  end.

Definition binding_refused (b : TenantProviderBinding) : bool :=
  negb (BindingIdentity_is_valid (tb_identity b))
  || (pl_max_request_bytes (tb_limits b) =? 0) || (pl_max_response_bytes (tb_limits b) =? 0)
  || bool_decide (pl_max_output_tokens (tb_limits b) = Some 0)
  || match tb_secret_ref b with Some s => negb (nonempty s) | None => false end.

(** The tenant and provider a binding is looked up by. *)
Definition binding_key (b : TenantProviderBinding) : string * string :=
  (bi_tenant (tb_identity b), bi_provider (tb_identity b)).

Definition add_binding (config : RegistryConfig) (models accounts : gmap string nat) (b : TenantProviderBinding)
    (index : nat) (state : gmap string ModelQueueConfig * gmap (string * string) nat) :
    result ModelError (gmap string ModelQueueConfig * gmap (string * string) nat) :=
  let '(shared, bindings) := state in
  if binding_refused b then Err invalid
  else
    let? _ := validate_endpoint (tb_endpoint b) in
    let? m := lookup_model models (rc_models config) (tb_model b) in
    let? _ := check_binding b m in
    let? i := ok_or (accounts !! tb_account_policy b) invalid in
    match rc_accounts config !! i with
    | None => Panic
    | Some account =>
        let? key := sharing_key b in
        if match shared !! key with Some previous => negb (bool_decide (previous = ap_policy account)) | None => false end
        then Err invalid
        else if is_some (bindings !! binding_key b) then Err invalid
        else Ok (<[key := ap_policy account]> shared, <[binding_key b := index]> bindings)
    end.

Fixpoint add_bindings (config : RegistryConfig) (models accounts : gmap string nat)
    (entries : list TenantProviderBinding) (index : nat)
    (state : gmap string ModelQueueConfig * gmap (string * string) nat) :
    result ModelError (gmap (string * string) nat) :=
  match entries with
  | [] => Ok state.2
  | b :: entries =>
      let? state := add_binding config models accounts b index state in
      add_bindings config models accounts entries (S index) state
  end.

(** [ModelRegistry::new]. *)
Definition ModelRegistry_new (config : RegistryConfig) : result ModelError ModelRegistry :=
  if negb (rc_version config =? 1) then Err invalid
  else
    let? models := add_models (rc_models config) 0 [] ∅ in
    let? accounts := add_accounts (rc_accounts config) 0 ∅ in
    let? bindings := add_bindings config models accounts (rc_bindings config) 0 (∅, ∅) in
    Ok (mkRegistry config models bindings accounts).

Definition registry_model (r : ModelRegistry) (id : string) : result ModelError ModelEntry :=
  lookup_model (mr_models r) (rc_models (mr_config r)) id.

(** [ModelRegistry::binding]; a missing index or account would panic. *)
Definition registry_binding (r : ModelRegistry) (tenant provider : string) : result ModelError RegistryBinding :=
  let? i := ok_or (mr_bindings r !! (tenant, provider)) invalid in
  match rc_bindings (mr_config r) !! i with
  | None => Panic
  | Some b =>
      let? m := registry_model r (tb_model b) in
      match mr_accounts r !! tb_account_policy b ≫= λ j, rc_accounts (mr_config r) !! j with
      | Some account => Ok (mkRegistryBinding b m account)
      | None => Panic
      end
  end.

(** ** What an accepted registry serves *)

Definition names_of (m : ModelEntry) : list string := me_id m :: me_aliases m.

(** A model entry as the catalogue takes it: named texts that are not blank, the
    operation and the one capability of its adapter, a window that is not zero,
    and a price only with a source and a date. *)
Record model_valid (m : ModelEntry) : Prop := {
  mv_names : Forall (λ name, blank name = false) (names_of m);
  mv_operator : blank (mi_operator (me_identity m)) = false;
  mv_model : blank (mi_model (me_identity m)) = false;
  mv_operation : mi_operation (me_identity m) = adapter_operation (me_adapter m);
  mv_operations : me_operations m = [adapter_capability (me_adapter m)];
  mv_window : mc_context_window (me_capabilities m) ≠ Some 0;
  mv_pricing : is_Some (mc_pricing (me_capabilities m)) →
    ∃ p, me_pricing_provenance m = Some p ∧ blank (pp_source p) = false ∧ date_ok (pp_date p) = true;
}.

Record account_valid (a : AccountExecutionPolicy) : Prop := {
  av_id : blank (ap_id a) = false;
  av_cache : mq_response_cache_dir (ap_policy a) = None;
  av_policy : ModelQueueConfig_validate debug_assertions now (ap_policy a) = Ok tt;
}.

(** A binding on its own: a valid identity, bounds that are not zero, a secret
    reference that is not blank, an output bound exactly for chat, and an http
    or https endpoint with a host and without credentials, query or fragment. *)
Record binding_valid (b : TenantProviderBinding) (m : ModelEntry) : Prop := {
  bv_identity : BindingIdentity_is_valid (tb_identity b) = true;
  bv_bytes : pl_max_request_bytes (tb_limits b) ≠ 0 ∧ pl_max_response_bytes (tb_limits b) ≠ 0;
  bv_output : pl_max_output_tokens (tb_limits b) ≠ Some 0
    ∧ (is_Some (pl_max_output_tokens (tb_limits b)) ↔ adapter_capability (me_adapter m) = Chat);
  bv_secret s : tb_secret_ref b = Some s → blank s = false;
  bv_endpoint : ∃ url, parse_url (tb_endpoint b) = Some url
    ∧ (url_scheme url = "http"%string ∨ url_scheme url = "https"%string) ∧ is_Some (url_host url)
    ∧ url_username url = EmptyString ∧ url_password url = None ∧ url_query url = None ∧ url_fragment url = None;
}.

(** A table of names built from the entries from [index] on, over [before]. *)
Record built {A : Type} (names : A → list string) (entries : list A) (index : nat)
    (before after : gmap string nat) : Prop := {
  built_named j a id : entries !! j = Some a → id ∈ names a → after !! id = Some (index + j)%nat;
  built_only id k : after !! id = Some k →
    before !! id = Some k ∨ ∃ j a, entries !! j = Some a ∧ id ∈ names a ∧ k = (index + j)%nat;
  built_kept id k : before !! id = Some k → after !! id = Some k;
}.

Lemma built_nil {A} (names : A → list string) index before : built names [] index before before.
Proof. split; [done|by left|done]. Qed.

Lemma built_cons {A} (names : A → list string) a entries index before middle after :
  (∀ id, middle !! id = if bool_decide (id ∈ names a) then Some index else before !! id) →
  (∀ id, id ∈ names a → before !! id = None) →
  built names entries (S index) middle after → built names (a :: entries) index before after.
Proof.
  intros Hm Hn [Ha1 Ha2 Ha3]. split.
  - intros [|j] a' id; simpl.
    + intros [= <-] Hid. rewrite Nat.add_0_r. apply Ha3. rewrite Hm. by rewrite bool_decide_eq_true_2.
    + intros Ha Hid. rewrite (Ha1 j a' id Ha Hid). f_equal. lia.
  - intros id k Hk. destruct (Ha2 id k Hk) as [Hb|(j & a' & Ha & Hid & ->)].
    + rewrite Hm in Hb. case_bool_decide as Hid; [|by left]. injection Hb as <-. right. exists 0%nat, a.
      split_and!; [done..|lia].
    + right. exists (S j), a'. split_and!; [done..|lia].
  - intros id k Hk. apply Ha3. rewrite Hm. case_bool_decide as Hid; [|done]. by rewrite (Hn id Hid) in Hk.
Qed.

Lemma add_names_ok names index models models' : add_names names index models = Ok models' →
  (∀ id, models' !! id = if bool_decide (id ∈ names) then Some index else models !! id)
  ∧ (∀ id, id ∈ names → models !! id = None).
Proof.
  revert models. induction names as [|name names IH]; intros models; simpl.
  { intros [= <-]. split; [done|]. by intros id Hid%elem_of_nil. }
  destruct (negb (nonempty name)); simpl; [done|]. destruct (models !! name) eqn:E; simpl; [done|].
  intros Ha. destruct (IH _ Ha) as [Ha1 Ha2]. split.
  - intros id. rewrite Ha1. destruct (decide (id = name)) as [->|Hne].
    + rewrite lookup_insert_eq, (bool_decide_eq_true_2 (name ∈ name :: names)) by left. by case_bool_decide.
    + rewrite lookup_insert_ne by done. rewrite (bool_decide_ext (id ∈ name :: names) (id ∈ names)); [done|].
      rewrite elem_of_cons. naive_solver.
  - intros id. rewrite elem_of_cons. intros [->|Hid]; [done|]. specialize (Ha2 id Hid).
    destruct (decide (id = name)) as [->|Hne]; [done|]. by rewrite lookup_insert_ne in Ha2.
Qed.

Lemma add_names_nonblank names index models models' : add_names names index models = Ok models' →
  Forall (λ name, blank name = false) names.
Proof.
  revert models. induction names as [|name names IH]; intros models; simpl; [done|]. unfold nonempty.
  destruct (blank name) eqn:E; simpl; [done|]. destruct (is_some _); [done|]. intros Ha. constructor; [done|by eapply IH].
Qed.

Lemma model_accepted identities m index models models' : model_refused identities m = false →
  add_names (names_of m) index models = Ok models' → model_valid m ∧ me_identity m ∉ identities.
Proof.
  unfold model_refused, nonempty. intros Hr Hn%add_names_nonblank. bools. split; [|done]. split; try done; [by apply String.eqb_eq|].
  intros [p Hp]. rewrite Hp in *. cbn [is_some andb] in *. destruct (me_pricing_provenance m) as [q|]; [|done].
  exists q. bools. done.
Qed.

Lemma add_models_valid entries index identities models models' :
  add_models entries index identities models = Ok models' →
  Forall model_valid entries ∧ NoDup (me_identity <$> entries) ∧ Forall (λ m, me_identity m ∉ identities) entries.
Proof.
  revert index identities models. induction entries as [|m entries IH]; intros index identities models; simpl.
  { intros _. split_and!; constructor. }
  walk. intros Ha. destruct (model_accepted _ _ _ _ _ E E0) as [Hv Hi]. destruct (IH _ _ _ Ha) as (Hf & Hn & Hout).
  split_and!; [by constructor| |constructor; [done|]].
  - constructor; [|done]. intros (x & Hx & Hin)%list_elem_of_fmap. rewrite Forall_forall in Hout.
    apply (Hout x Hin). rewrite <-Hx. left.
  - eapply Forall_impl; [exact Hout|]. intros x Hx Hin. apply Hx. by right.
Qed.

Lemma add_models_built entries index identities models models' :
  add_models entries index identities models = Ok models' → built names_of entries index models models'.
Proof.
  revert index identities models. induction entries as [|m entries IH]; intros index identities models; simpl.
  { intros [= <-]. apply built_nil. }
  walk. intros Ha. destruct (add_names_ok (names_of m) _ _ _ E0). eapply built_cons; [done..|by eapply IH].
Qed.

Lemma add_accounts_built entries index accounts accounts' : add_accounts entries index accounts = Ok accounts' →
  built (λ a, [ap_id a]) entries index accounts accounts'
  ∧ Forall account_valid entries.
Proof.
  revert index accounts. induction entries as [|a entries IH]; intros index accounts; simpl.
  { intros [= <-]. split; [apply built_nil|done]. }
  walk. bools. intros Ha. destruct (IH _ _ Ha) as [Hb Hf]. destruct a0. split.
  2: { constructor; [|done]. unfold nonempty in *. split; [by destruct (blank (ap_id a))|by destruct (mq_response_cache_dir _)|done]. }
  eapply built_cons; [..|exact Hb].
  - intros id. destruct (decide (id = ap_id a)) as [->|Hne].
    + by rewrite lookup_insert_eq, bool_decide_eq_true_2 by set_solver.
    + by rewrite lookup_insert_ne, bool_decide_eq_false_2 by set_solver.
  - intros id ->%list_elem_of_singleton. by destruct (accounts !! ap_id a).
Qed.

(** A binding that passed every check, with its model and its account. *)
Record served (config : RegistryConfig) (b : TenantProviderBinding) (m : ModelEntry) (a : AccountExecutionPolicy) :
    Prop := {
  served_model : m ∈ rc_models config ∧ tb_model b ∈ names_of m;
  served_account : a ∈ rc_accounts config ∧ ap_id a = tb_account_policy b;
  served_endpoint : validate_endpoint (tb_endpoint b) = Ok tt;
  served_limits : binding_refused b = false;
  served_settings : check_binding b m = Ok tt;
}.

Lemma served_valid config b m a : served config b m a → binding_valid b m.
Proof.
  intros [_ _ He Hl Hs]. unfold binding_refused, nonempty in Hl. bools.
  assert (is_Some (pl_max_output_tokens (tb_limits b)) ↔ adapter_capability (me_adapter m) = Chat) as Hc.
  { revert Hs. unfold check_binding. case_bool_decide; destruct (pl_max_output_tokens (tb_limits b)); simpl; try done;
      intros _; (split; [|by eauto]); intros [? ?]; done. }
  split; try done.
  - intros s Hsec. rewrite Hsec in *. by destruct (blank s).
  - revert He. unfold validate_endpoint. walk. intros _. apply ok_or_ok in E. exists a0. split; [done|]. bools.
    destruct (url_host a0), (url_password a0), (url_query a0), (url_fragment a0); try done.
    split_and!; try done; [by rewrite <-!String.eqb_eq, <-orb_true_iff|by apply String.eqb_eq].
Qed.

Section Tables.
Context (config : RegistryConfig) (models accounts : gmap string nat).
Context (Hmodels : built names_of (rc_models config) 0 ∅ models).
Context (Haccounts : built (λ a, [ap_id a]) (rc_accounts config) 0 ∅ accounts).

Lemma lookup_model_ok id m :
  lookup_model models (rc_models config) id = Ok m ↔ m ∈ rc_models config ∧ id ∈ names_of m.
Proof.
  unfold lookup_model. split.
  - destruct (models !! id) as [k|] eqn:E; rsimpl; [|done].
    destruct (built_only _ _ _ _ _ Hmodels id k E) as [Hn|(j & m' & Hj & Hid & ->)]; [by rewrite lookup_empty in Hn|].
    rewrite Nat.add_0_l, Hj. intros [= <-]. split; [by eapply list_elem_of_lookup_2|done].
  - intros [[j Hj]%list_elem_of_lookup_1 Hid]. rewrite (built_named _ _ _ _ _ Hmodels j m id Hj Hid). rsimpl.
    by rewrite Nat.add_0_l, Hj.
Qed.

Lemma lookup_model_total id : lookup_model models (rc_models config) id ≠ Panic.
Proof.
  unfold lookup_model. destruct (models !! id) as [k|] eqn:E; rsimpl; [|done].
  destruct (built_only _ _ _ _ _ Hmodels id k E) as [Hn|(j & m' & Hj & _ & ->)]; [by rewrite lookup_empty in Hn|].
  by rewrite Nat.add_0_l, Hj.
Qed.

Lemma lookup_account id k : accounts !! id = Some k →
  ∃ a, rc_accounts config !! k = Some a ∧ a ∈ rc_accounts config ∧ ap_id a = id.
Proof.
  intros E. destruct (built_only _ _ _ _ _ Haccounts id k E) as [Hn|(j & a & Hj & Hid & ->)];
    [by rewrite lookup_empty in Hn|].
  exists a. split_and!; [done|by eapply list_elem_of_lookup_2|by apply list_elem_of_singleton in Hid].
Qed.

Lemma add_binding_ok b index shared bindings state : add_binding config models accounts b index (shared, bindings) = Ok state →
  ∃ m a k key, served config b m a ∧ accounts !! tb_account_policy b = Some k ∧ rc_accounts config !! k = Some a
    ∧ sharing_key b = Ok key ∧ (shared !! key = None ∨ shared !! key = Some (ap_policy a))
    ∧ bindings !! binding_key b = None
    ∧ state = (<[key := ap_policy a]> shared, <[binding_key b := index]> bindings).
Proof.
  unfold add_binding. walk. apply lookup_model_ok in E1. apply ok_or_ok in E3.
  destruct (lookup_account _ _ E3) as (acc & Hacc & Hin & Hid). rewrite Hacc. walk.
  destruct (bindings !! binding_key b) eqn:Eb; simpl; [done|]. intros [= <-].
  exists a0, acc, a2, a3. destruct a, a1. split_and!; try done.
  destruct (shared !! a3) as [p|]; [|by left]. bools. subst. by right.
Qed.

(** The checks leave one policy per account key: [final] has it. *)
Lemma add_bindings_ok entries index shared bindings bindings' :
  add_bindings config models accounts entries index (shared, bindings) = Ok bindings' →
  (∀ j b, entries !! j = Some b → bindings' !! binding_key b = Some (index + j)%nat)
  ∧ (∀ key k, bindings' !! key = Some k → bindings !! key = Some k
       ∨ ∃ j b, entries !! j = Some b ∧ key = binding_key b ∧ k = (index + j)%nat)
  ∧ bindings ⊆ bindings'
  ∧ ∃ final, shared ⊆ final ∧ ∀ b, b ∈ entries → ∃ m a k key, served config b m a
      ∧ accounts !! tb_account_policy b = Some k ∧ rc_accounts config !! k = Some a
      ∧ sharing_key b = Ok key ∧ final !! key = Some (ap_policy a).
Proof.
  revert index shared bindings. induction entries as [|b entries IH]; intros index shared bindings; simpl.
  { intros [= <-]. split_and!; [done|by left|done|]. exists shared. split; [done|]. by intros b Hb%elem_of_nil. }
  walk. destruct (add_binding_ok _ _ _ _ _ E) as (m & acct & k & key & Hs & Hk & Ha & Hkey & Hold & Hnew & ->).
  intros Hadd. destruct (IH _ _ _ Hadd) as (Hb & Honly & Hkept & final & Hsub & Hall). split_and!.
  - intros [|j] b'; simpl; [|intros Hj; rewrite (Hb j b' Hj); f_equal; lia]. intros [= <-].
    rewrite Nat.add_0_r. eapply lookup_weaken; [|exact Hkept]. apply lookup_insert_eq.
  - intros key' k' Hk'. destruct (Honly key' k' Hk') as [Hin|(j & b' & Hj & -> & ->)].
    + destruct (decide (key' = binding_key b)) as [->|Hne].
      * rewrite lookup_insert_eq in Hin. injection Hin as <-. right. exists 0%nat, b. split_and!; [done..|lia].
      * left. by rewrite lookup_insert_ne in Hin.
    + right. exists (S j), b'. split_and!; [done..|lia].
  - etrans; [|exact Hkept]. by apply insert_subseteq.
  - exists final. split.
    + etrans; [|exact Hsub]. destruct Hold as [Hn|Hsome]; [by apply insert_subseteq|]. by rewrite insert_id.
    + intros b'. rewrite elem_of_cons. intros [->|Hin]; [|by apply Hall]. exists m, acct, k, key.
      split_and!; [done..|]. eapply lookup_weaken; [|exact Hsub]. apply lookup_insert_eq.
Qed.

End Tables.

(** Every binding is served, and the bindings of one account key under the one
    policy [final] has for it. *)
Lemma registry_serves config r : ModelRegistry_new config = Ok r →
  ∃ final : gmap string ModelQueueConfig, ∀ b, b ∈ rc_bindings config → ∃ m a key,
    registry_binding r (binding_key b).1 (binding_key b).2 = Ok (mkRegistryBinding b m a)
    ∧ served config b m a ∧ account_valid a ∧ sharing_key b = Ok key ∧ final !! key = Some (ap_policy a).
Proof.
  unfold ModelRegistry_new. walk. apply add_models_built in E0. apply add_accounts_built in E1 as [Hacc Hvalid].
  destruct (add_bindings_ok config a a0 E0 Hacc _ _ _ _ _ E2) as (Hb & _ & _ & final & _ & Hall).
  intros [= <-]. exists final. intros b Hin. destruct (Hall b Hin) as (m & ac & k & key & Hs & Hk & Hac & Hkey & Hfin).
  exists m, ac, key. split_and!; try done.
  - apply list_elem_of_lookup_1 in Hin as [j Hj].
    unfold registry_binding. rewrite <-surjective_pairing. simpl. rewrite (Hb j b Hj). rsimpl.
    rewrite Nat.add_0_l, Hj. unfold registry_model. simpl.
    rewrite (proj2 (lookup_model_ok config a E0 _ _) (served_model _ _ _ _ Hs)). rsimpl. rewrite Hk. simpl. by rewrite Hac.
  - exact (proj1 (Forall_forall _ _) Hvalid ac (proj1 (served_account _ _ _ _ Hs))).
Qed.

(** C21: a registry that is accepted serves exactly what it was configured with.
    Its catalogue is sound: every model has texts that are not blank, its
    adapter's operation and capability, a window that is not zero and a
    documented price, and no two models one identity; every account has a name, no
    cache directory and a valid policy.  Every name or alias resolves to its own
    entry and nothing else resolves; every binding resolves, by tenant and
    provider, to itself with its model and its account, has bounds that are not
    zero, an output bound exactly for chat, a plain http or https endpoint and
    settings its adapter takes; an unknown pair is refused; and bindings that
    draw on one account have one policy. *)
Theorem registry_resolves config r : ModelRegistry_new config = Ok r →
  Forall model_valid (rc_models config) ∧ NoDup (me_identity <$> rc_models config)
  ∧ Forall account_valid (rc_accounts config)
  ∧ (∀ id m, registry_model r id = Ok m ↔ m ∈ rc_models config ∧ id ∈ names_of m)
  ∧ (∀ b, b ∈ rc_bindings config → ∃ m a,
       registry_binding r (binding_key b).1 (binding_key b).2 = Ok (mkRegistryBinding b m a)
       ∧ m ∈ rc_models config ∧ tb_model b ∈ names_of m ∧ a ∈ rc_accounts config ∧ ap_id a = tb_account_policy b
       ∧ binding_valid b m ∧ check_binding b m = Ok tt)
  ∧ (∀ tenant provider, match registry_binding r tenant provider with
       | Ok x => rb_binding x ∈ rc_bindings config ∧ binding_key (rb_binding x) = (tenant, provider)
       | Err e => e = invalid
       | Panic => False
       end)
  ∧ (∀ b b' m m' a a', b ∈ rc_bindings config → b' ∈ rc_bindings config →
       registry_binding r (binding_key b).1 (binding_key b).2 = Ok (mkRegistryBinding b m a) →
       registry_binding r (binding_key b').1 (binding_key b').2 = Ok (mkRegistryBinding b' m' a') →
       sharing_key b = sharing_key b' → ap_policy a = ap_policy a').
Proof.
  intros Hnew. destruct (registry_serves config r Hnew) as [final Hres]. revert Hnew.
  unfold ModelRegistry_new. walk. destruct (add_models_valid _ _ _ _ _ E0) as (Hmv & Hmi & _).
  apply add_models_built in E0. apply add_accounts_built in E1 as [Hacc Hav].
  destruct (add_bindings_ok config a a0 E0 Hacc _ _ _ _ _ E2) as (_ & Honly & _). intros [= <-].
  split; [done|]. split; [done|]. split; [done|]. split_and!.
  - intros id m. apply (lookup_model_ok config a E0).
  - intros b Hin. destruct (Hres b Hin) as (m & ac & key & Hr & Hs & _). exists m, ac.
    destruct (served_model _ _ _ _ Hs), (served_account _ _ _ _ Hs), (served_settings _ _ _ _ Hs).
    split_and!; try done. by eapply served_valid.
  - intros tenant provider. destruct (a1 !! (tenant, provider)) as [k|] eqn:Ek.
    + destruct (Honly _ _ Ek) as [Hn|(j & b & Hj & Hkey & ->)]; [by rewrite lookup_empty in Hn|].
      assert (b ∈ rc_bindings config) as Hin by (by eapply list_elem_of_lookup_2).
      destruct (Hres b Hin) as (m & ac & key & Hr & _). rewrite <-Hkey in Hr. simpl in Hr. by rewrite Hr.
    + unfold registry_binding. simpl. by rewrite Ek.
  - intros b b' m m' ac ac' Hin Hin' Hr Hr' Hk.
    destruct (Hres b Hin) as (m1 & a1' & key & Hr1 & _ & _ & Hkey & Hf).
    destruct (Hres b' Hin') as (m2 & a2' & key' & Hr2 & _ & _ & Hkey' & Hf').
    rewrite Hr in Hr1. rewrite Hr' in Hr2. simplify_eq. congruence.
Qed.

End Registry.

(** ** A registry with one model and two tenants *)

Section Deployment.
#[local] Instance sample_urls : Urls := {| parse_url s := Some (mkUrl "https" (Some s) "" None None None) |}.
#[local] Instance sample_dates : Dates := {| date_ok _ := true |}.
#[local] Instance sample_chrono : Chrono := chrono_range.
#[local] Instance sample_text : TextEncodings := {|
  json_text v := match v with
                 | VArray values => join "," (map (λ v, match v with VString s => s | _ => EmptyString end) values)
                 | VString s => quoted s
                 | _ => EmptyString
                 end;
  base64 _ s := s;
  json_string_quoted s := ex_intro _ s eq_refl;
|}.

Definition sample_model : ModelEntry :=
  mkModelEntry "m1" ["fast"] (mkModelIdentity "chat" "acme" "m1") OpenAiChat [Chat]
    (mkCapabilities (Some 8192) false false ReasoningNone CostStandard None) None.

Definition sample_binding (tenant : string) : TenantProviderBinding :=
  mkBinding (mkBindingIdentity tenant "acme" "r1" "a1") "fast" "https://api.acme.example" (Some "key") "standard"
    (Some "pool") (mkLimits 65536 65536 (Some 1000)) (mkSettings None None None None None None None None None None).

Definition sample_registry : RegistryConfig :=
  mkRegistryConfig 1 [sample_model] [sample_binding "t1"; sample_binding "t2"]
    [mkAccount "standard" default_ModelQueueConfig].

Lemma registry_resolves_witness : ∃ r, ModelRegistry_new true 0 sample_registry = Ok r
  ∧ registry_model r "fast" = Ok sample_model
  ∧ ∃ m a, registry_binding r "t2" "acme" = Ok (mkRegistryBinding (sample_binding "t2") m a).
Proof.
  assert (match ModelRegistry_new true 0 sample_registry with Ok _ => true | _ => false end = true) as Hok
    by (vm_compute; reflexivity).
  destruct (ModelRegistry_new true 0 sample_registry) as [r| |] eqn:E; [|discriminate Hok..].
  destruct (registry_resolves true 0 sample_registry r E) as (_ & _ & _ & Hm & Hb & _). exists r. split; [reflexivity|]. split.
  - apply Hm. split; [apply list_elem_of_singleton; reflexivity|]. right. left.
  - destruct (Hb (sample_binding "t2")) as (m & a & Hr & _); [right; left|]. exists m, a. exact Hr.
Defined.

End Deployment.
