(* ===== verification/Adapters.v ===== *)
(** [symbiotic-model], [lib.rs], [anthropic.rs] and [retrieval.rs]: the HTTP provider
    adapters, as programs over the requests they send and the clock.

    A program posts a request and is given the response's head and the chunks
    of its body; the clock and fresh trace ids are calls too.  What comes from
    outside the repository is a parameter: the HTTP client's construction, header
    values and dates ([Web]), the JSON parser and serde's decoding of the response
    structs ([WireResponses]), SHA-256.  [egress] is the task-local flag
    of [with_egress_http_observations]. *)

From Stdlib Require Import ZArith Lia Ascii.
From Stdlib Require Import SpecFloat.
From stdpp Require Import base gmap strings list sorting pretty.
From S2P Require Import Prelude Text Core SpendTypes Json Trace ExecutionPolicy Responses Program.
From S2P Require Import Float64 Wire ModelRegistry.

#[local] Open Scope Z_scope.

(** ** Transport *)

Record HttpRequest : Type := mkHttpRequest {
  hq_url : string;
  hq_headers : list (string * string);
  hq_body : string;
}.

(** A request that failed: in the connect phase, by a timeout. *)
Record SendFailure : Type := mkSendFailure { sf_connect : bool; sf_timeout : bool }.

(** The head of a response, its [Retry-After] header (which need not be text)
    and the chunks of its body, up to one that failed by a timeout or otherwise. *)
Record HttpResponse : Type := mkHttpResponse {
  hp_status : Z;
  hp_retry_after : option (option string);
  hp_content_length : option Z;
  hp_chunks : list (result bool string);
}.

Inductive WebOp : Type :=
| Post (request : HttpRequest)
| UtcNow
| InstantNow
| FreshTraceId.

Definition WebAns (op : WebOp) : Type :=
  match op with
  | Post _ => result SendFailure HttpResponse
  | UtcNow => DateTime
  | InstantNow => Z
  | FreshTraceId => string
  end.

Definition Web_prog (A : Type) : Type := prog WebAns (result ModelError A).

Definition web (op : WebOp) : prog WebAns (WebAns op) := ask op.
Definition give {A : Type} (a : A) : Web_prog A := Ret (Ok a).
Definition refuse {A : Type} (e : ModelError) : Web_prog A := Ret (Err e).
Definition lifted {A : Type} (r : result ModelError A) : Web_prog A :=
  match r with Panic => Unwind | r => Ret r end.

Class Web : Type := {
  client_builds : option Z → bool;      (* timeout in seconds *)
  header_value_ok : string → bool;      (* HeaderValue::from_str *)
  http_date : string → option Z;        (* httpdate::parse_http_date, seconds *)
}.

(** [hex::encode], and the digest of a text in hexadecimal. *)
Definition hex_encode (bytes : string) : string :=
  map_bytes (λ a, String (hex_digit false (Z.shiftr (code a) 4)) (String (hex_digit false (Z.land (code a) 15)) "")) bytes.

Definition sha256_hex `{!Sha256} (text : string) : string := hex_encode (sha256 text).

(** ** Response structs *)

Record OpenAiUsage : Type := mkOpenAiUsage {
  ou_prompt_tokens : option Z;
  ou_completion_tokens : option Z;
  ou_prompt_cache_hit_tokens : option Z;
  ou_prompt_cache_miss_tokens : option Z;
  ou_cached_tokens : option (option Z);
  ou_reasoning_tokens : option (option Z);
}.
Definition default_OpenAiUsage : OpenAiUsage := mkOpenAiUsage None None None None None None.

(** A choice: its message's content, and its finish reason. *)
Record OpenAiChoice : Type := mkOpenAiChoice {
  oc_message : option (option string);
  oc_finish_reason : option string;
}.
Record OpenAiChatWireResponse : Type := mkOpenAiChat {
  ow_choices : list OpenAiChoice;
  ow_usage : option OpenAiUsage;
}.

Inductive ContentBlock : Type :=
| TextBlock (text : string)
| Thinking (thinking signature : string)
| RedactedThinking (data : string).

Record MessagesUsage : Type := mkMessagesUsage {
  mu_input_tokens : option Z;
  mu_output_tokens : option Z;
  mu_thinking_tokens : option (option Z);
  mu_cache_read_input_tokens : option Z;
  mu_cache_creation_input_tokens : option Z;
}.
Definition default_MessagesUsage : MessagesUsage := mkMessagesUsage None None None None None.
Record MessagesResponse : Type := mkMessages {
  ms_content : list ContentBlock;
  ms_stop_reason : string;
  ms_usage : option MessagesUsage;
}.

Record EmbeddingItem : Type := mkEmbeddingItem { ei_index : Z; ei_embedding : list f32 }.
Record CompatibleEmbeddingResponse : Type := mkCompatible {
  ce_data : list EmbeddingItem;
  ce_usage : option OpenAiUsage;
}.
Record RerankResult : Type := mkRerankResult { rr_index : Z; rr_relevance_score : f32 }.

(** [serde_json::from_str], and [from_value] of the derived structs. *)
Class WireResponses : Type := {
  json_parse : string → option Value;
  decode_openai : Value → option OpenAiChatWireResponse;
  decode_messages : Value → option MessagesResponse;
  decode_gemini : Value → option (option (list f32));
  decode_gemini_batch : Value → option (option (list (list f32)));
  decode_compatible : Value → option CompatibleEmbeddingResponse;
  decode_ollama : Value → option (list f32);
  decode_rerank : Value → option (list RerankResult);
}.

(** ** Clients and limits *)

(** A client that was built, with its timeout, or the failure to build it. *)
Definition HttpClient : Type := result unit (option Z).

Section Adapters.
Context `{!Web, !Sha256, !WireResponses, !JsonWriter, !TextEncodings, !Urls} (egress : bool).

Definition invalid_http_client : ModelError := InvalidRequest InvalidHttpClientConfiguration.

Definition default_client : HttpClient := if client_builds None then Ok None else Err tt.

Definition get_client (c : HttpClient) : result ModelError (option Z) := map_err (λ _, invalid_http_client) c.

Definition http_client (timeout_seconds : option Z) : result ModelError HttpClient :=
  match timeout_seconds with
  | Some n =>
      if 0 <? n then if client_builds (Some n) then Ok (Ok (Some n)) else Err invalid_http_client
      else Err (InvalidRequest FiniteTimeoutIsRequired)
  | None => Err (InvalidRequest FiniteTimeoutIsRequired)
  end.

Definition required_byte_limit (limit : option Z) : result ModelError Z :=
  match limit with
  | Some n => if 0 <? n then Ok n else Err (InvalidRequest FiniteNonzeroRequestResponseByteLimitsAreRequired)
  | None => Err (InvalidRequest FiniteNonzeroRequestResponseByteLimitsAreRequired)
  end.

(** ** Reading a response *)

Definition http_transport_error (timeout : bool) (direct_code : DiagnosticCode) : ModelError :=
  if negb egress then Unavailable direct_code
  else if timeout then Timeout HttpTimeout
  else Unavailable HttpUnavailable.

Definition http_send_error (f : SendFailure) : ModelError :=
  let primary := http_transport_error (sf_timeout f) HttpUnavailable in
  if sf_connect f && negb (sf_timeout f) then HttpNotSent primary else primary.

Definition response_limit_exceeded : ModelError := Provider ProviderResponseLimitExceeded.

Fixpoint read_chunks (limit : Z) (bytes : string) (chunks : list (result bool string)) : result ModelError string :=
  match chunks with
  | [] => Ok bytes
  | Ok chunk :: chunks =>
      if limit <? Z.min usize_max (byte_len bytes + byte_len chunk) then Err response_limit_exceeded
      else read_chunks limit (bytes +:+ chunk) chunks
  | Err timeout :: _ => Err (http_transport_error timeout ProviderResponseReadFailed)
  | Panic :: _ => Panic
  end.

Definition bounded_response_bytes (r : HttpResponse) (max_bytes : option Z) : result ModelError string :=
  let? limit := required_byte_limit max_bytes in
  if match hp_content_length r with Some len => limit <? len | None => false end then Err response_limit_exceeded
  else read_chunks limit "" (hp_chunks r).

(** Whole seconds of an instant in nanoseconds. *)
Definition timestamp (t : DateTime) : Z := t / nanos_per_second.

Definition parse_retry_after (header : option string) (now : DateTime) : result ModelError Z :=
  let bad := Provider InvalidResponse in
  let? text := ok_or header bad in
  if all_bytes digit text && negb (String.eqb text "") then ok_or (parse_unsigned u64_max text) bad
  else
    let? deadline := ok_or (http_date text) bad in
    Ok (Z.max 0 (deadline - timestamp now)).

Definition provider_response_json (request : HttpRequest) (max_bytes : option Z)
    (invalid_json : DiagnosticCode → ModelError) : Web_prog (Value * string) :=
  let* sent := web (Post request) in
  match sent with
  | Panic => Unwind
  | Err failure => refuse (http_send_error failure)
  | Ok response =>
      let status := hp_status response in
      if negb ((200 <=? status) && (status <? 300)) then
        let primary := if (300 <=? status) && (status <? 400) then Provider ProviderRedirectRefused
                       else status_error status in
        if negb egress then refuse primary
        else
          match hp_retry_after response with
          | None => refuse (Http primary status None)
          | Some header =>
              let* now := web UtcNow in
              match parse_retry_after header now with
              | Ok delay => refuse (Http primary status (Some delay))
              | Err bad => refuse (with_diagnostics (Http primary status None) [ModelError_code bad])
              | Panic => Unwind
              end
          end
      else
        let! bytes := lifted (bounded_response_bytes response max_bytes) in
        if negb (utf8_valid bytes) then refuse (Provider ProviderResponseIsNotValidUtf8)
        else
          let! raw := lifted (ok_or (json_parse bytes) (invalid_json InvalidResponse)) in
          give (raw, bytes)
  end.

(** ** Traces *)

Definition hash_text (text : string) : string := sha256_hex text.

(** [hash_json]: of the compact JSON. *)
Definition hash_json (request : Wire) : string := sha256_hex (text_of request).

Definition success_trace (d : ProviderDescriptor) (role_binding source : option string) (request_hash : string)
    (response : option string) : prog WebAns ModelInvocationTrace :=
  let* trace_id := web FreshTraceId in
  let* now := web UtcNow in
  Ret (mkTrace trace_id None (pd_identity d) role_binding source request_hash (hash_text <$> response)
         (mkCacheTrace Miss NotApplicable None) default_UsageTrace default_TimingTrace OutcomeSucceeded None []
         (object []) now).

Definition set_cache (c : CacheTrace) (t : ModelInvocationTrace) : ModelInvocationTrace :=
  mkTrace (it_trace_id t) (it_queue_item_id t) (it_model t) (it_role_binding t) (it_source t) (it_request_hash t)
    (it_response_hash t) c (it_usage t) (it_timing t) (it_outcome t) (it_error_class t) (it_audit_refs t)
    (it_metadata t) (it_timestamp t).

Definition reported_cost (raw : Value) : option string :=
  let found := match pointer ["usage"; "cost"] raw with
               | Some v => Some v
               | None => pointer ["usage"; "cost_usd"] raw
               end in
  text ← match found with
         | Some (VNumber text) => Some text
         | Some (VString text) => Some text
         | _ => None
         end;
  if valid_reported_cost_usd text then Some text else None.

Definition observed_prompt_cache_counts (total hit miss nested_hit : option Z) :
    result ModelError (option Z * option Z) :=
  match normalize_prompt_cache_counts total hit miss nested_hit with
  | Ok counts => Ok counts
  | Err e => if egress then Err e else Ok (None, None)
  | Panic => Panic
  end.

(** [Value::as_i64]. *)
Definition as_i64 (v : Value) : option Z :=
  match v with
  | VNumber (String "-"%char text) => n ← parse_unsigned (i64_max + 1) text; Some (- n)
  | VNumber text => parse_unsigned i64_max text
  | _ => None
  end.

(** A number from a signed integer. *)
Definition signed_number (n : Z) : Value :=
  if n <? 0 then VNumber (String "-"%char (pretty (Z.to_N (- n)))) else number n.

(** A field of the raw response that is a string, as JSON. *)
Definition raw_string (raw : Value) (name : string) : Value := opt_value VString (get name raw ≫= as_str).

(** ** The credential boundary of an adapter *)

Definition guard_result {T : Type} `{!Serde T, !CredentialResponse T} (result_ : result ModelError T) (secret : string) :
    result ModelError T :=
  if String.eqb secret "" then result_
  else
    match result_ with
    | Ok response =>
        let? value := ok_or (to_value response) (Provider InvalidResponse) in
        let? _ := check_response value secret in
        Ok (discard_raw response)
    | Err error =>
        let? _ := match http_details error with
                  | Some (status, retry) => check_response (http_details_value status retry) secret
                  | None => Ok tt
                  end in
        Err error
    | Panic => Panic
    end.

(** An adapter's program with its result behind the boundary. *)
Definition behind {T : Type} `{!Serde T, !CredentialResponse T} (secret : string) (p : Web_prog T) : Web_prog T :=
  let* r := p in lifted (guard_result r secret).

Definition api_key_fingerprint (api_key : string) : option string :=
  if blank api_key then None
  else Some (sha256_hex ("symbiotic-model/credential-fingerprint/v1" +:+ String "000"%char api_key)).

(** [s.trim_end_matches('/')]. *)
Fixpoint trim_end_slash (s : string) : string :=
  match s with
  | EmptyString => EmptyString
  | String a s =>
      match trim_end_slash s with
      | EmptyString => if Ascii.eqb a "/"%char then EmptyString else String a EmptyString
      | s => String a s
      end
  end.

(** A JSON request; [auth] is the credential's header, if there is one. *)
Definition json_request (url body : string) (extra auth : list (string * string)) : HttpRequest :=
  mkHttpRequest url ([("content-type", "application/json")]%string ++ extra ++ auth) body.

Definition bearer (secret : string) : list (string * string) :=
  if String.eqb secret "" then [] else [("authorization", "Bearer " +:+ secret)]%string.

End Adapters.
