(* ===== verification/ChatAdapters.v ===== *)
(** [symbiotic-model], [lib.rs] and [anthropic.rs]: the chat adapters, configured by
    their builders, as programs of the calls they make. *)

From Stdlib Require Import ZArith Lia Ascii.
From Stdlib Require Import SpecFloat.
From stdpp Require Import base gmap strings list pretty.
From S2P Require Import Prelude Text Core SpendTypes Json Trace ExecutionPolicy Responses Program.
From S2P Require Import Float64 Wire ModelRegistry Adapters.

#[local] Open Scope Z_scope.

Record OpenAiCompatibleChatProvider : Type := mkOpenAi {
  ai_descriptor : ProviderDescriptor;
  ai_client : HttpClient;
  ai_base_url : string;
  ai_api_key : string;
  ai_max_response_bytes : option Z;
  ai_max_request_bytes : option Z;
  ai_thinking : option ThinkingMode;
  ai_reasoning_effort : option string;
  ai_max_output_tokens : option Z;
}.

(** [metadata[key] = v] of a descriptor, whose metadata is an object. *)
Definition index_set (key : string) (v : Value) (d : ProviderDescriptor) : ProviderDescriptor :=
  mkDescriptor (pd_identity d) (pd_provider_class d) (pd_capabilities d) (pd_auth_mode d)
    match pd_metadata d with
    | VObject fields => VObject (set_field key v fields)
    | m => m
    end.

Definition chat_output_tokens (requested ceiling : option Z) : result ModelError Z :=
  match (match requested with Some n => Some n | None => ceiling end) with
  | Some output =>
      if 0 <? output then
        if match ceiling with Some limit => limit <? output | None => false end
        then Err (InvalidRequest OutputTokenLimitExceeded) else Ok output
      else Err (InvalidRequest FiniteOutputTokensAreRequired)
  | None => Err (InvalidRequest FiniteOutputTokensAreRequired)
  end.

Definition with_tokens (tokens : Z) (r : ChatRequest) : ChatRequest :=
  mkChatRequest (cq_messages r) (Some tokens) (cq_temperature r) (cq_response_format r) (cq_role_binding r)
    (cq_source r) (cq_metadata r).

Definition opt_wire {A : Type} (f : A → Wire) (o : option A) : Wire :=
  match o with Some a => f a | None => WValue VNull end.

(** [ChatRequest] as it is hashed. *)
Definition chat_request_wire (r : ChatRequest) : Wire :=
  WMap [("messages", WArray (map message_wire (cq_messages r)));
        ("max_output_tokens", opt_wire WInt (cq_max_output_tokens r));
        ("temperature", opt_wire WFloat (cq_temperature r));
        ("response_format", opt_wire WString (cq_response_format r));
        ("role_binding", opt_wire WString (cq_role_binding r));
        ("source", opt_wire WString (cq_source r));
        ("metadata", WValue (cq_metadata r))]%string.

(** Some message's content contains the text. *)
Definition messages_contain (r : ChatRequest) (identity : string) : bool :=
  existsb (λ m, contains_str identity (cm_content m)) (cq_messages r).

Section Chat.
Context `{!Web, !Sha256, !WireResponses, !JsonWriter, !TextEncodings, !Urls, !Serde ChatResponse} (egress : bool).

(** ** Configuration *)

Definition ai_with_request_limit (max_bytes : Z) (p : OpenAiCompatibleChatProvider) : OpenAiCompatibleChatProvider :=
  mkOpenAi (index_set "max_request_bytes" (number max_bytes) (ai_descriptor p)) (ai_client p) (ai_base_url p)
    (ai_api_key p) (ai_max_response_bytes p) (Some max_bytes) (ai_thinking p) (ai_reasoning_effort p)
    (ai_max_output_tokens p).

Definition ai_with_response_limit (max_bytes : Z) (p : OpenAiCompatibleChatProvider) : OpenAiCompatibleChatProvider :=
  mkOpenAi (index_set "max_response_bytes" (number max_bytes) (ai_descriptor p)) (ai_client p) (ai_base_url p)
    (ai_api_key p) (Some max_bytes) (ai_max_request_bytes p) (ai_thinking p) (ai_reasoning_effort p)
    (ai_max_output_tokens p).

Definition ai_with_output_limit (max_tokens : Z) (p : OpenAiCompatibleChatProvider) : OpenAiCompatibleChatProvider :=
  mkOpenAi (index_set "max_output_tokens" (number max_tokens) (ai_descriptor p)) (ai_client p) (ai_base_url p)
    (ai_api_key p) (ai_max_response_bytes p) (ai_max_request_bytes p) (ai_thinking p) (ai_reasoning_effort p)
    (Some max_tokens).

Definition ai_with_thinking (thinking : option ThinkingMode) (p : OpenAiCompatibleChatProvider) :
    OpenAiCompatibleChatProvider :=
  mkOpenAi (index_set "thinking" (opt_value (λ m, VString (thinking_text m)) thinking) (ai_descriptor p)) (ai_client p)
    (ai_base_url p) (ai_api_key p) (ai_max_response_bytes p) (ai_max_request_bytes p) thinking
    (ai_reasoning_effort p) (ai_max_output_tokens p).

Definition ai_with_reasoning_effort (effort : string) (p : OpenAiCompatibleChatProvider) :
    OpenAiCompatibleChatProvider :=
  mkOpenAi (index_set "reasoning_effort" (VString effort) (ai_descriptor p)) (ai_client p) (ai_base_url p)
    (ai_api_key p) (ai_max_response_bytes p) (ai_max_request_bytes p) (ai_thinking p) (Some effort)
    (ai_max_output_tokens p).

Definition ai_with_timeout (timeout_seconds : Z) (p : OpenAiCompatibleChatProvider) :
    result ModelError OpenAiCompatibleChatProvider :=
  let? client := http_client (Some timeout_seconds) in
  Ok (mkOpenAi (ai_descriptor p) client (ai_base_url p) (ai_api_key p) (ai_max_response_bytes p)
        (ai_max_request_bytes p) (ai_thinking p) (ai_reasoning_effort p) (ai_max_output_tokens p)).

(** The endpoint of a descriptor: only a valid one is shown. *)
Definition shown_endpoint (base_url : string) : Value :=
  match validate_endpoint base_url with Ok _ => VString base_url | _ => VNull end.

Definition OpenAi_new (operator model base_url api_key : string) : OpenAiCompatibleChatProvider :=
  ai_with_response_limit DEFAULT_MAX_RESPONSE_BYTES
    (ai_with_request_limit DEFAULT_MAX_REQUEST_BYTES
       (mkOpenAi
          (mkDescriptor (mkModelIdentity "chat" operator model) CloudProvider [Chat] (ApiKey "runtime")
             (object [("wire", VString "openai-compatible"); ("endpoint", shown_endpoint base_url)]%string))
          default_client base_url api_key None None None None None)).

Definition ai_validate_configuration (p : OpenAiCompatibleChatProvider) : result ModelError unit :=
  let? _ := validate_endpoint (ai_base_url p) in
  let? _ := get_client (ai_client p) in
  let? _ := required_byte_limit (ai_max_request_bytes p) in
  let? _ := required_byte_limit (ai_max_response_bytes p) in
  if bool_decide (ai_max_output_tokens p = Some 0) then Err (InvalidRequest OutputTokenLimitMustBeNonzero)
  else validate_chat_settings (ai_thinking p) (ai_reasoning_effort p).

Definition ai_provider (p : OpenAiCompatibleChatProvider) : ModelProvider :=
  mkProvider (ai_descriptor p) failure_charge (ai_validate_configuration p) (api_key_fingerprint (ai_api_key p))
    (Some (ai_api_key p)).

(** ** OpenAI-compatible chat *)

Definition openai_metadata (raw : Value) (usage : OpenAiUsage) (u : UsageTrace) (miss nested_hit : option Z) : Value :=
  object
    [("provider", object
        [("response_id", raw_string raw "id"); ("served_model", raw_string raw "model");
         ("created", opt_value signed_number (get "created" raw ≫= as_i64));
         ("reasoning_tokens", opt_value number (reasoning_tokens u));
         ("reported_cost_usd", opt_value VString (reported_cost_usd u))]);
     ("cache_miss_tokens", opt_value number miss);
     ("observed_cache_tokens", object
        [("hit", opt_value number (ou_prompt_cache_hit_tokens usage));
         ("miss", opt_value number (ou_prompt_cache_miss_tokens usage));
         ("nested_hit", opt_value number nested_hit)])]%string.

(** The answer of a decoded response. *)
Definition openai_answer (p : OpenAiCompatibleChatProvider) (request : ChatRequest) (raw : Value)
    (parsed : OpenAiChatWireResponse) : Web_prog ChatResponse :=
  match ow_choices parsed with
  | [] => refuse (Provider OpenaiCompatibleResponseHadNoChoices)
  | choice :: _ =>
      let usage := default default_OpenAiUsage (ow_usage parsed) in
      let content := default EmptyString (oc_message choice ≫= id) in
      let* trace := success_trace (ai_descriptor p) (cq_role_binding request) (cq_source request)
                      (hash_json (chat_request_wire request)) (Some content) in
      let nested_hit := ou_cached_tokens usage ≫= id in
      let! '(hit, miss) := lifted (observed_prompt_cache_counts egress (ou_prompt_tokens usage)
                                     (ou_prompt_cache_hit_tokens usage) (ou_prompt_cache_miss_tokens usage) nested_hit) in
      let u := mkUsageTrace hit miss None None None (ou_prompt_tokens usage) (ou_completion_tokens usage)
                 (ou_reasoning_tokens usage ≫= id) None None (reported_cost raw) in
      let trace := set_metadata (openai_metadata raw usage u miss nested_hit) (set_usage u trace) in
      let trace := provider_usage_identity trace raw (messages_contain request) in
      let trace := set_cache (mkCacheTrace Miss (prompt_cache_status (ou_prompt_tokens usage) hit miss) hit) trace in
      let '(trace, reason) := provider_finish_reason trace (oc_finish_reason choice) in
      give (mkChatResponse content reason trace (Some raw))
  end.

Definition openai_chat (p : OpenAiCompatibleChatProvider) (request : ChatRequest) : Web_prog ChatResponse :=
  behind (ai_api_key p)
    (let! _ := lifted (ai_validate_configuration p) in
     let! tokens := lifted (chat_output_tokens (cq_max_output_tokens request) (ai_max_output_tokens p)) in
     let request := with_tokens tokens request in
     let! body := lifted (openai_chat_body (mi_model (pd_identity (ai_descriptor p))) request (ai_thinking p)
                            (ai_reasoning_effort p) (ai_max_request_bytes p)) in
     let! _ := lifted (get_client (ai_client p)) in
     let! '(raw, _) := provider_response_json egress
                         (json_request (trim_end_slash (ai_base_url p) +:+ "/chat/completions") body []
                            (bearer (ai_api_key p)))
                         (ai_max_response_bytes p) Unavailable in
     let! parsed := lifted (ok_or (decode_openai raw) (Unavailable InvalidResponse)) in
     openai_answer p request raw parsed).

(** ** Anthropic Messages *)

(** [AnthropicChatProvider::new]: the same transport under another protocol. *)
Definition Anthropic_new (operator model base_url api_key : string) : OpenAiCompatibleChatProvider :=
  let t := ai_with_output_limit 16000 (OpenAi_new operator model base_url api_key) in
  mkOpenAi (index_set "wire" (VString "anthropic-messages") (ai_descriptor t)) (ai_client t) (ai_base_url t)
    (ai_api_key t) (ai_max_response_bytes t) (ai_max_request_bytes t) (ai_thinking t) (ai_reasoning_effort t)
    (ai_max_output_tokens t).

Definition block_text (b : ContentBlock) : string := match b with TextBlock text => text | _ => EmptyString end.

(** [a + b] of counters, an overflow being an invalid response. *)
Definition add_tokens (a b : Z) : result ModelError Z := ok_or (checked_add u64_max a b) (Provider InvalidResponse).

Definition anthropic_metadata (raw : Value) (usage : MessagesUsage) (miss : option Z) : Value :=
  object
    [("provider", object [("response_id", raw_string raw "id"); ("served_model", raw_string raw "model")]);
     ("cache_miss_tokens", opt_value number miss);
     ("cache_creation_input_tokens", opt_value number (mu_cache_creation_input_tokens usage))]%string.

Definition transpose {A B : Type} (f : A → result ModelError B) (o : option A) : result ModelError (option B) :=
  match o with Some a => let? b := f a in Ok (Some b) | None => Ok None end.

Definition anthropic_answer (p : OpenAiCompatibleChatProvider) (request : ChatRequest) (raw : Value)
    (parsed : MessagesResponse) : Web_prog ChatResponse :=
  if existsb (String.eqb (ms_stop_reason parsed)) ["tool_use"; "pause_turn"; "refusal"]%string
  then refuse (Provider ProviderFailure)
  else
    let text := foldr String.append EmptyString (map block_text (ms_content parsed)) in
    let usage := default default_MessagesUsage (ms_usage parsed) in
    let written := default 0 (mu_cache_creation_input_tokens usage) in
    let! input := lifted (transpose (λ n, let? n := add_tokens n (default 0 (mu_cache_read_input_tokens usage)) in
                                          add_tokens n written) (mu_input_tokens usage)) in
    let* trace := success_trace (ai_descriptor p) (cq_role_binding request) (cq_source request)
                    (hash_json (chat_request_wire request)) (Some text) in
    let! miss := lifted (transpose (λ n, add_tokens n written) (mu_input_tokens usage)) in
    let! '(hit, _) := lifted (observed_prompt_cache_counts egress input (mu_cache_read_input_tokens usage) None None) in
    let u := mkUsageTrace hit miss None None None input (mu_output_tokens usage) (mu_thinking_tokens usage ≫= id)
               None None (reported_cost raw) in
    let trace := set_cache (mkCacheTrace Miss (prompt_cache_status input hit miss) hit) (set_usage u trace) in
    let trace := set_metadata (anthropic_metadata raw usage miss) trace in
    let trace := provider_usage_identity trace raw (messages_contain request) in
    let '(trace, reason) := provider_finish_reason trace (Some (ms_stop_reason parsed)) in
    give (mkChatResponse text reason trace (Some raw)).

(** The credential's header; a key that cannot be one is refused. *)
Definition anthropic_auth (secret : string) : result ModelError (list (string * string)) :=
  if String.eqb secret "" then Ok []
  else if header_value_ok secret then Ok [("x-api-key"%string, secret)]
  else Err (Auth AuthenticationRejected).

Definition anthropic_chat (p : OpenAiCompatibleChatProvider) (request : ChatRequest) : Web_prog ChatResponse :=
  behind (ai_api_key p)
    (let! _ := lifted (ai_validate_configuration p) in
     let! tokens := lifted (chat_output_tokens (cq_max_output_tokens request) (ai_max_output_tokens p)) in
     let request := with_tokens tokens request in
     let! body := lifted (anthropic_chat_body (mi_model (pd_identity (ai_descriptor p))) request (ai_thinking p)
                            (ai_max_request_bytes p)) in
     let! _ := lifted (get_client (ai_client p)) in
     let! auth := lifted (anthropic_auth (ai_api_key p)) in
     let! '(raw, _) := provider_response_json egress
                         (json_request (trim_end_slash (ai_base_url p) +:+ "/messages") body
                            [("anthropic-version", "2023-06-01")]%string auth)
                         (ai_max_response_bytes p) Unavailable in
     let! parsed := lifted (ok_or (decode_messages raw) (Unavailable InvalidResponse)) in
     anthropic_answer p request raw parsed).

(** ** A scripted answer *)

Definition static_descriptor : ProviderDescriptor :=
  mkDescriptor (mkModelIdentity "chat" "static" "static-chat-v1") LocalProvider [Chat] AuthNone (object []).

Definition static_chat (response : string) (request : ChatRequest) : Web_prog ChatResponse :=
  let* trace := success_trace static_descriptor (cq_role_binding request) (cq_source request)
                  (hash_json (chat_request_wire request)) (Some response) in
  give (mkChatResponse response (Some "stop"%string) trace None).

End Chat.
