(* ===== verification/RetrievalAdapters.v ===== *)
(** [symbiotic-model], [lib.rs] and [retrieval.rs]: the embedding and rerank adapters. *)

From Stdlib Require Import ZArith Lia Ascii.
From Stdlib Require Import SpecFloat.
From stdpp Require Import base gmap strings list sorting pretty.
From S2P Require Import Prelude Text Core SpendTypes Json Trace ExecutionPolicy Responses Program.
From S2P Require Import Float64 Wire ModelRegistry Adapters ChatAdapters.

#[local] Open Scope Z_scope.

(** The requests as they are hashed. *)
Definition embedding_request_wire (r : EmbeddingRequest) : Wire :=
  WMap [("inputs", WArray (map WString (eq_inputs r)));
        ("dimensions", opt_wire WInt (eq_dimensions r));
        ("task", opt_wire WString (eq_task r));
        ("role_binding", opt_wire WString (eq_role_binding r));
        ("source", opt_wire WString (eq_source r));
        ("metadata", WValue (eq_metadata r))]%string.

Definition rerank_request_wire (r : RerankRequest) : Wire :=
  WMap [("query", WString (rq_query r));
        ("documents", WArray (map WString (rq_documents r)));
        ("top_k", opt_wire WInt (rq_top_k r));
        ("role_binding", opt_wire WString (rq_role_binding r));
        ("source", opt_wire WString (rq_source r));
        ("metadata", WValue (rq_metadata r))]%string.

Definition malformed : ModelError := Provider InvalidResponse.

Definition zlen {A : Type} (l : list A) : Z := Z.of_nat (length l).

(** ** Request bodies *)

(** [o.is_none_or(|limit| n > limit)]. *)
Definition over (n : Z) (limit : option Z) : bool := match limit with Some limit => limit <? n | None => true end.

Definition compatible_wire (model : string) (request : EmbeddingRequest) (dimensions : Z) : Wire :=
  WMap ([("model", WString model); ("input", WArray (map WString (eq_inputs request)));
         ("dimensions", WInt dimensions)]%string
        ++ skip_none "input_type" WString (eq_task request)).

Definition ollama_wire (model prompt : string) : Wire :=
  WMap [("model", WString model); ("prompt", WString prompt)]%string.

Definition rerank_wire (model : string) (request : RerankRequest) (top_n context_tokens : Z) : Wire :=
  WMap [("model", WString model); ("query", WString (rq_query request));
        ("documents", WArray (map WString (rq_documents request)));
        ("top_n", WInt top_n); ("max_tokens_per_doc", WInt context_tokens)]%string.

(** The sum of lengths, with the overflow of a [usize] checked. *)
Definition checked_bytes (start : Z) (parts : list string) : option Z :=
  foldl (λ sum part, sum ← sum; checked_add usize_max sum (byte_len part)) (Some start) parts.

Section Bodies.
Context `{!JsonWriter}.

Definition compatible_embedding_body (adapter : ModelAdapter) (model : string) (s : TransportSettings)
    (request : EmbeddingRequest) (max_bytes : Z) : result ModelError (string * Z) :=
  let? _ := validate_retrieval s adapter in
  let? dimensions := ok_or (match eq_dimensions request with Some n => Some n | None => ts_dimensions s end) invalid in
  if (dimensions =? 0) || over dimensions (ts_embedding_full_dimensions s)
     || bool_decide (eq_inputs request = [])
     || match eq_task request with Some task => blank task | None => false end
  then Err invalid
  else if existsb (λ input, over (byte_len input) (ts_embedding_input_tokens s)) (eq_inputs request)
  then Err limit_exceeded
  else
    let? body :=
      match adapter with
      | OpenAiEmbedding => encode (compatible_wire model request dimensions) (Some max_bytes)
      | OllamaEmbedding =>
          match eq_inputs request with
          | [input] =>
              if negb (is_some (eq_task request)) && bool_decide (Some dimensions = ts_dimensions s)
              then encode (ollama_wire model input) (Some max_bytes) else Err invalid
          | _ => Err invalid
          end
      | _ => Err invalid
      end in
    Ok (body, dimensions).

Definition cohere_rerank_body (model : string) (s : TransportSettings) (request : RerankRequest) (max_bytes : Z) :
    result ModelError (string * Z) :=
  let? _ := validate_retrieval s CohereRerank in
  let count := zlen (rq_documents request) in
  if (count =? 0) || bool_decide (rq_top_k request = Some 0) then Err invalid
  else if over count (ts_rerank_candidates s) then Err limit_exceeded
  else
    let? context_tokens := ok_or (ts_rerank_context_tokens s) invalid in
    let query := byte_len (rq_query request) in
    if over query (ts_rerank_query_tokens s)
       || existsb (λ doc, match checked_add usize_max query (byte_len doc) with
                          | Some n => context_tokens <? n
                          | None => true
                          end) (rq_documents request)
    then Err limit_exceeded
    else if match checked_bytes query (rq_documents request) with
            | Some bytes => over bytes (ts_rerank_input_bytes s)
            | None => true
            end
    then Err limit_exceeded
    else
      let top_n := Z.min (default count (rq_top_k request)) count in
      let? body := encode (rerank_wire model request top_n context_tokens) (Some max_bytes) in
      Ok (body, top_n).

End Bodies.

Record RetrievalTransport : Type := mkRetrieval {
  rt_descriptor : ProviderDescriptor;
  rt_client : HttpClient;
  rt_key : string;
  rt_adapter : ModelAdapter;
  rt_endpoint : string;
  rt_limits : ProviderLimits;
  rt_settings : TransportSettings;
}.

Record GeminiEmbeddingProvider : Type := mkGemini {
  ge_descriptor : ProviderDescriptor;
  ge_client : HttpClient;
  ge_api_key : string;
  ge_max_response_bytes : option Z;
  ge_max_request_bytes : option Z;
  ge_dimensions : Z;
}.

Section Retrieval.
Context `{!Web, !Sha256, !WireResponses, !JsonWriter, !TextEncodings, !Urls}.
Context `{!Serde (EmbeddingResponse f32), !Serde (RerankResponse f32)} (egress : bool).

(** ** Gemini *)

Definition gemini_endpoint : string := "https://generativelanguage.googleapis.com/v1beta".

Definition ge_with_request_limit (max_bytes : Z) (p : GeminiEmbeddingProvider) : GeminiEmbeddingProvider :=
  mkGemini (index_set "max_request_bytes" (number max_bytes) (ge_descriptor p)) (ge_client p) (ge_api_key p)
    (ge_max_response_bytes p) (Some max_bytes) (ge_dimensions p).

Definition ge_with_response_limit (max_bytes : Z) (p : GeminiEmbeddingProvider) : GeminiEmbeddingProvider :=
  mkGemini (index_set "max_response_bytes" (number max_bytes) (ge_descriptor p)) (ge_client p) (ge_api_key p)
    (Some max_bytes) (ge_max_request_bytes p) (ge_dimensions p).

Definition ge_with_timeout (timeout_seconds : Z) (p : GeminiEmbeddingProvider) :
    result ModelError GeminiEmbeddingProvider :=
  let? client := http_client (Some timeout_seconds) in
  Ok (mkGemini (ge_descriptor p) client (ge_api_key p) (ge_max_response_bytes p) (ge_max_request_bytes p)
        (ge_dimensions p)).

Definition Gemini_new (operator model api_key : string) (dimensions : Z) : GeminiEmbeddingProvider :=
  ge_with_response_limit DEFAULT_MAX_RESPONSE_BYTES
    (ge_with_request_limit DEFAULT_MAX_REQUEST_BYTES
       (mkGemini
          (mkDescriptor (mkModelIdentity "embedding" operator model) CloudProvider [Embedding] (ApiKey "runtime")
             (object [("dimensions", number dimensions); ("endpoint", VString gemini_endpoint)]%string))
          default_client api_key None None dimensions)).

Definition ge_validate_configuration (p : GeminiEmbeddingProvider) : result ModelError unit :=
  let? _ := get_client (ge_client p) in
  let? _ := required_byte_limit (ge_max_request_bytes p) in
  let? _ := required_byte_limit (ge_max_response_bytes p) in
  if ge_dimensions p =? 0 then Err (InvalidRequest EmbeddingDimensionsMustBeNonzero) else Ok tt.

(** [GeminiEmbedding::into_values]. *)
Definition into_values (dimensions : Z) (values : list f32) : result ModelError (list f32) :=
  if negb (zlen values =? dimensions) then Err (Provider GeminiEmbeddingDimensionMismatch)
  else if existsb (λ x, negb (is_finite x)) values then Err (Provider GeminiEmbeddingContainsNonFiniteComponents)
  else Ok values.

(** [.map(f).collect::<Result<Vec<_>, _>>()]. *)
Fixpoint collect {A B E : Type} (f : A → result E B) (l : list A) : result E (list B) :=
  match l with
  | [] => Ok []
  | a :: l => let? b := f a in let? l := collect f l in Ok (b :: l)
  end.

Definition gemini_vectors (p : GeminiEmbeddingProvider) (inputs : list string) (raw : Value) :
    result ModelError (list (list f32)) :=
  match inputs with
  | [_] =>
      let? embedding := ok_or (decode_gemini raw) (Unavailable HttpUnavailable) in
      let? values := ok_or embedding (Provider GeminiResponseMissingEmbedding) in
      let? values := into_values (ge_dimensions p) values in
      Ok [values]
  | inputs =>
      let? embeddings := ok_or (decode_gemini_batch raw) (Unavailable HttpUnavailable) in
      let? embeddings := ok_or embeddings (Provider GeminiBatchResponseMissingEmbeddings) in
      if negb (zlen embeddings =? zlen inputs) then Err (Provider ProviderFailure)
      else collect (into_values (ge_dimensions p)) embeddings
  end.

Definition gemini_trace (p : GeminiEmbeddingProvider) (request : EmbeddingRequest) : prog WebAns ModelInvocationTrace :=
  success_trace (ge_descriptor p) (eq_role_binding request) (eq_source request)
    (hash_json (embedding_request_wire request)) None.

Definition gemini_embed (p : GeminiEmbeddingProvider) (request : EmbeddingRequest) : Web_prog (EmbeddingResponse f32) :=
  behind (ge_api_key p)
    (let! _ := lifted (ge_validate_configuration p) in
     let! _ := lifted (validate_gemini_options (ge_dimensions p) request) in
     if bool_decide (eq_inputs request = []) then
       let* trace := gemini_trace p request in
       give (mkEmbeddingResponse [] (ge_dimensions p) trace None)
     else
       let model := trim_start_matches "models/" (mi_model (pd_identity (ge_descriptor p))) in
       let! body := lifted (gemini_embedding_body model (ge_dimensions p) request (ge_max_request_bytes p)) in
       let! _ := lifted (get_client (ge_client p)) in
       let method := match eq_inputs request with [_] => ":embedContent" | _ => ":batchEmbedContents" end%string in
       let! '(raw, _) := provider_response_json egress
                           (json_request (gemini_endpoint +:+ "/models/" +:+ model +:+ method) body
                              [] [("x-goog-api-key"%string, ge_api_key p)])
                           (ge_max_response_bytes p) Unavailable in
       let! vectors := lifted (gemini_vectors p (eq_inputs request) raw) in
       let* trace := gemini_trace p request in
       give (mkEmbeddingResponse vectors (ge_dimensions p) trace (Some raw))).

(** ** Hash embeddings *)

Definition f32_of_Z (n : Z) : f32 := binary_normalize 24 128 n 0 false.

(** [vector[idx % dimensions] += byte as f32 / 255.0 - 0.5] along the digest. *)
Fixpoint hash_components (idx : nat) (bytes : string) (vector : list f32) : list f32 :=
  match bytes with
  | EmptyString => vector
  | String a bytes =>
      let term := SFsub 24 128 (SFdiv 24 128 (f32_of_Z (code a)) (f32_of_Z 255)) (nearest_decimal 24 128 false 5 (-1)) in
      hash_components (S idx) bytes (alter (λ x, SFadd 24 128 x term) (idx mod length vector)%nat vector)
  end.

(** A dimension of zero divides by zero. *)
Definition hash_vector (dimensions : nat) (input : string) : result ModelError (list f32) :=
  match dimensions with
  | O => Panic
  | _ => Ok (hash_components 0 (sha256 input) (replicate dimensions (S754_zero false)))
  end.

Definition hash_descriptor (dimensions : nat) : ProviderDescriptor :=
  mkDescriptor (mkModelIdentity "embedding" "hash" "hash-embedding-v1") LocalProvider [Embedding] AuthNone
    (object [("dimensions"%string, number (Z.of_nat dimensions))]).

Definition hash_embed (dimensions : nat) (request : EmbeddingRequest) : Web_prog (EmbeddingResponse f32) :=
  let! vectors := lifted (collect (hash_vector dimensions) (eq_inputs request)) in
  let* trace := success_trace (hash_descriptor dimensions) (eq_role_binding request) (eq_source request)
                  (hash_json (embedding_request_wire request)) None in
  give (mkEmbeddingResponse vectors (Z.of_nat dimensions) trace None).

(** ** Bindings of the registry *)

Definition adapter_name (a : ModelAdapter) : string :=
  match a with
  | OpenAiChat => "open_ai_chat" | AnthropicChat => "anthropic_chat" | GeminiEmbedding => "gemini_embedding"
  | OpenAiEmbedding => "open_ai_embedding" | OllamaEmbedding => "ollama_embedding"
  | CohereRerank => "cohere_rerank" | JevClassifier => "jev_classifier"
  end.

Definition settings_value (s : TransportSettings) : Value :=
  object [("thinking", opt_value (λ m, VString (thinking_text m)) (ts_thinking s));
          ("reasoning_effort", opt_value VString (ts_reasoning_effort s));
          ("dimensions", opt_value number (ts_dimensions s));
          ("embedding_full_dimensions", opt_value number (ts_embedding_full_dimensions s));
          ("embedding_input_tokens", opt_value number (ts_embedding_input_tokens s));
          ("rerank_input_bytes", opt_value number (ts_rerank_input_bytes s));
          ("rerank_candidates", opt_value number (ts_rerank_candidates s));
          ("rerank_context_tokens", opt_value number (ts_rerank_context_tokens s));
          ("rerank_query_tokens", opt_value number (ts_rerank_query_tokens s));
          ("served_model", opt_value VString (ts_served_model s))]%string.

Definition RetrievalTransport_new (b : RegistryBinding) (key : string) : result ModelError RetrievalTransport :=
  let config := rb_binding b in
  let limits := tb_limits config in
  let adapter := me_adapter (rb_model b) in
  let? _ := validate_endpoint (tb_endpoint config) in
  let? _ := validate_retrieval (tb_settings config) adapter in
  let? _ := required_byte_limit (Some (pl_max_request_bytes limits)) in
  let? _ := required_byte_limit (Some (pl_max_response_bytes limits)) in
  if is_some (pl_max_output_tokens limits) then Err invalid
  else
    let auth_mode := if String.eqb key "" then AuthNone else ApiKey "runtime" in
    let metadata :=
      object [("endpoint", VString (tb_endpoint config));
              ("dimensions", opt_value number (ts_dimensions (tb_settings config)));
              ("retrieval_settings", settings_value (tb_settings config));
              ("adapter", VString (adapter_name adapter));
              ("max_request_bytes", number (pl_max_request_bytes limits));
              ("max_response_bytes", number (pl_max_response_bytes limits))]%string in
    let? client := http_client (mq_request_timeout_seconds (ap_policy (rb_account b))) in
    Ok (mkRetrieval (mkDescriptor (me_identity (rb_model b)) CloudProvider [adapter_capability adapter] auth_mode metadata)
          client key adapter (tb_endpoint config) limits (tb_settings config)).

Definition embedding_from_binding (b : RegistryBinding) (key : string) : result ModelError RetrievalTransport :=
  match me_adapter (rb_model b) with
  | OpenAiEmbedding | OllamaEmbedding => RetrievalTransport_new b key
  | _ => Err invalid
  end.

Definition rerank_from_binding (b : RegistryBinding) (key : string) : result ModelError RetrievalTransport :=
  match me_adapter (rb_model b) with
  | CohereRerank => RetrievalTransport_new b key
  | _ => Err invalid
  end.

Definition retrieval_provider (t : RetrievalTransport) : ModelProvider :=
  mkProvider (rt_descriptor t) failure_charge (let? _ := get_client (rt_client t) in Ok tt)
    (api_key_fingerprint (rt_key t)) (Some (rt_key t)).

Definition retrieval_send (t : RetrievalTransport) (path body : string) : Web_prog (Value * string) :=
  let! _ := lifted (get_client (rt_client t)) in
  provider_response_json egress (json_request (trim_end_slash (rt_endpoint t) +:+ path) body [] (bearer (rt_key t)))
    (Some (pl_max_response_bytes (rt_limits t))) Provider.

(** ** Compatible embeddings *)

Definition validate_vector (dimensions : Z) (vector : list f32) : result ModelError unit :=
  if negb (zlen vector =? dimensions) || existsb (λ x, negb (is_finite x)) vector then Err malformed else Ok tt.

(** The loop that puts each item at its index. *)
Fixpoint place_items (dimensions : Z) (items : list EmbeddingItem) (vectors : list (list f32)) :
    result ModelError (list (list f32)) :=
  match items with
  | [] => Ok vectors
  | item :: items =>
      let? _ := validate_vector dimensions (ei_embedding item) in
      match vectors !! Z.to_nat (ei_index item) with
      | Some [] => place_items dimensions items (<[Z.to_nat (ei_index item) := ei_embedding item]> vectors)
      | _ => Err malformed
      end
  end.

Definition compatible_vectors (t : RetrievalTransport) (inputs : list string) (dimensions : Z) (raw : Value) :
    result ModelError (list (list f32) * option (option Z)) :=
  if bool_decide (rt_adapter t = OllamaEmbedding) then
    let? embedding := ok_or (decode_ollama raw) malformed in
    let? _ := validate_vector dimensions embedding in
    Ok ([embedding], None)
  else
    let? parsed := ok_or (decode_compatible raw) malformed in
    if negb (zlen (ce_data parsed) =? zlen inputs) then Err malformed
    else
      let? vectors := place_items dimensions (ce_data parsed) (replicate (length inputs) []) in
      Ok (vectors, ou_prompt_tokens <$> ce_usage parsed).

(** The raw response is dropped from the answer, whether or not there is a key. *)
Definition without_raw {T : Type} `{!CredentialResponse T} (p : Web_prog T) : Web_prog T :=
  let! r := p in give (discard_raw r).

Definition compatible_embed (t : RetrievalTransport) (request : EmbeddingRequest) : Web_prog (EmbeddingResponse f32) :=
  without_raw
    (behind (rt_key t)
       (let! '(body, dimensions) := lifted (compatible_embedding_body (rt_adapter t)
                                              (mi_model (pd_identity (rt_descriptor t))) (rt_settings t) request
                                              (pl_max_request_bytes (rt_limits t))) in
        let path := if bool_decide (rt_adapter t = OllamaEmbedding) then "/api/embeddings" else "/embeddings" in
        let! '(raw, text) := retrieval_send t path body in
        let* trace := success_trace (rt_descriptor t) (eq_role_binding request) (eq_source request)
                        (hash_json (embedding_request_wire request)) (Some text) in
        let! '(vectors, tokens) := lifted (compatible_vectors t (eq_inputs request) dimensions raw) in
        let u := mkUsageTrace None None None None None (tokens ≫= id) None None None None (reported_cost raw) in
        give (mkEmbeddingResponse vectors dimensions (set_usage u trace) (Some raw)))).

(** ** Reranking *)

Fixpoint collect_hits (documents : Z) (results : list RerankResult) (indices : list Z) :
    result ModelError (list (RerankHit f32)) :=
  match results with
  | [] => Ok []
  | r :: results =>
      if (documents <=? rr_index r) || negb (is_finite (rr_relevance_score r)) || bool_decide (rr_index r ∈ indices)
      then Err malformed
      else
        let? hits := collect_hits documents results (rr_index r :: indices) in
        Ok (mkRerankHit f32 (rr_index r) (rr_relevance_score r) :: hits)
  end.

(** The order of [sort_by]: higher scores first, then lower indices. *)
Definition hit_cmp (a b : RerankHit f32) : comparison :=
  match total_cmp (rh_score f32 b) (rh_score f32 a) with
  | Eq => rh_index f32 a ?= rh_index f32 b
  | c => c
  end.
Definition hit_le (a b : RerankHit f32) : Prop := hit_cmp a b ≠ Gt.
#[local] Instance hit_le_dec a b : Decision (hit_le a b).
Proof. unfold hit_le. apply _. Defined.

Definition cohere_rerank (t : RetrievalTransport) (request : RerankRequest) : Web_prog (RerankResponse f32) :=
  without_raw
    (behind (rt_key t)
       (let! '(body, top_n) := lifted (cohere_rerank_body (mi_model (pd_identity (rt_descriptor t))) (rt_settings t)
                                         request (pl_max_request_bytes (rt_limits t))) in
        let! '(raw, text) := retrieval_send t "/rerank" body in
        let! results := lifted (ok_or (decode_rerank raw) malformed) in
        if negb (zlen results =? top_n) then refuse malformed
        else
          let! hits := lifted (collect_hits (zlen (rq_documents request)) results []) in
          let hits := merge_sort hit_le hits in
          let* trace := success_trace (rt_descriptor t) (rq_role_binding request) (rq_source request)
                          (hash_json (rerank_request_wire request)) (Some text) in
          let u := mkUsageTrace None None None None None None None None None None (reported_cost raw) in
          give (mkRerankResponse hits (set_usage u trace) (Some raw)))).

End Retrieval.
