(* ===== verification/AdapterProofs.v ===== *)
(** Reasoning about the adapters' programs: a program that posts at most one
    request ([sends]), what it returns ([returns]), the bounded reading of
    responses and what passes the credential boundary. *)

From Stdlib Require Import ZArith Lia Ascii.
From Stdlib Require Import SpecFloat.
From stdpp Require Import base gmap strings list sorting.
From S2P Require Import Prelude Text Core SpendTypes Json Trace ExecutionPolicy Responses Program.
From S2P Require Import Float64 Wire ModelRegistry Adapters.

#[local] Open Scope Z_scope.

Definition posted (e : event WebAns) : list HttpRequest := match ev_op e with Post r => [r] | _ => [] end.

(** The requests of a history. *)
Definition posts (tr : list (event WebAns)) : list HttpRequest := tr ≫= posted.

Lemma posts_cons e tr : posts (e :: tr) = posted e ++ posts tr.
Proof. done. Qed.

Definition no_post (op : WebOp) : bool := match op with Post _ => false | _ => true end.

(** ** Programs that post at most once *)

Section Sends.
Context (R : HttpRequest → Prop).

Fixpoint sends {A : Type} (p : prog WebAns A) : Prop :=
  match p with
  | Ret _ | Unwind => True
  | Do op k =>
      match op with Post r => R r | _ => True end
      ∧ ∀ a, if no_post op then sends (k a) else inert no_post (k a)
  end.

Lemma sends_inert {A} (p : prog WebAns A) : inert no_post p → sends p.
Proof.
  induction p as [a|op k IH|]; simpl; [done| |done]. intros [Hq Hk]. split; [by destruct op|].
  intros a. rewrite Hq. auto.
Qed.

Lemma sends_after {A B} (p : prog WebAns A) (f : A → prog WebAns B) :
  sends p → (∀ a, inert no_post (f a)) → sends (pbind p f).
Proof.
  intros Hp Hf. induction p as [a|op k IH|]; simpl in *; [by apply sends_inert| |done].
  destruct Hp as [HR Hk]. split; [done|]. intros a. specialize (Hk a). destruct (no_post op); [auto|by apply inert_bind].
Qed.

Lemma sends_before {A B} (p : prog WebAns A) (f : A → prog WebAns B) :
  inert no_post p → (∀ a, sends (f a)) → sends (pbind p f).
Proof.
  intros Hp Hf. induction p as [a|op k IH|]; simpl in *; [done| |done].
  destruct Hp as [Hq Hk]. split; [by destruct op|]. intros a. rewrite Hq. auto.
Qed.

(** A pure step, whose result the rest of the program may rely on. *)
Lemma sends_lifted {A B} (r : result ModelError A) (f : A → Web_prog B) :
  (∀ a, r = Ok a → sends (f a)) → sends (try_bind (lifted r) f).
Proof. intros Hf. destruct r as [a|e|]; [by apply Hf|done|done]. Qed.

Lemma sends_try {A B} (p : Web_prog A) (f : A → Web_prog B) :
  sends p → (∀ a, inert no_post (f a)) → sends (try_bind p f).
Proof. intros Hp Hf. apply sends_after; [done|]. intros [a|e|]; [apply Hf|done|done]. Qed.

Lemma inert_history {A} (p q : prog WebAns A) tr : inert no_post p → runs p tr q → posts tr = [].
Proof.
  intros Hp Hr. induction Hr as [p|op k a tr q _ IH]; [done|]. destruct Hp as [Hq Hk].
  rewrite posts_cons, (IH (Hk a)). by destruct op.
Qed.

Lemma sends_history {A} (p q : prog WebAns A) tr : sends p → runs p tr q →
  posts tr = [] ∨ ∃ r, posts tr = [r] ∧ R r.
Proof.
  intros Hp Hr. induction Hr as [p|op k a tr q Hr IH]; [by left|]. destruct Hp as [HR Hk]. specialize (Hk a).
  destruct op as [r| | |]; cbn [no_post] in Hk; try exact (IH Hk).
  right. exists r. split; [|done]. by rewrite posts_cons, (inert_history _ _ _ Hk Hr).
Qed.

End Sends.

(** ** What a program returns *)

Fixpoint returns {A : Type} (Q : A → Prop) (p : prog WebAns A) : Prop :=
  match p with
  | Ret a => Q a
  | Unwind => True
  | Do _ k => ∀ a, returns Q (k a)
  end.

Lemma returns_runs {A} (Q : A → Prop) (p : prog WebAns A) tr a : returns Q p → runs p tr (Ret a) → Q a.
Proof.
  intros Hp Hr. remember (Ret a) as q eqn:E. induction Hr as [p|op k b tr q _ IH]; [by subst|]. apply IH; [apply Hp|done].
Qed.

Lemma returns_mono {A} (Q Q' : A → Prop) (p : prog WebAns A) : returns Q p → (∀ a, Q a → Q' a) → returns Q' p.
Proof. intros Hp HQ. induction p as [a|op k IH|]; simpl in *; auto. Qed.

Lemma returns_any {A} (p : prog WebAns A) : returns (λ _, True) p.
Proof. induction p; simpl; auto. Qed.

Lemma returns_bind {A B} (Q : B → Prop) (p : prog WebAns A) (f : A → prog WebAns B) :
  returns (λ a, returns Q (f a)) p → returns Q (pbind p f).
Proof. intros Hp. induction p as [a|op k IH|]; simpl in *; auto. Qed.

(** The predicate on results that says something of answers only. *)
Definition answers {A : Type} (Q : A → Prop) (r : result ModelError A) : Prop := ∀ a, r = Ok a → Q a.

Lemma returns_try {A B} (Q : B → Prop) (p : Web_prog A) (f : A → Web_prog B) :
  returns (answers (λ a, returns (answers Q) (f a))) p → returns (answers Q) (try_bind p f).
Proof.
  intros Hp. apply returns_bind. eapply returns_mono; [exact Hp|]. intros [a|e|] Ha; simpl; [by apply Ha|done|done].
Qed.

Lemma returns_try_any {A B} (Q : B → Prop) (p : Web_prog A) (f : A → Web_prog B) :
  (∀ a, returns (answers Q) (f a)) → returns (answers Q) (try_bind p f).
Proof. intros Hf. apply returns_try. eapply returns_mono; [apply returns_any|]. intros r _ a _. apply Hf. Qed.

Lemma returns_lifted {A B} (Q : B → Prop) (r : result ModelError A) (f : A → Web_prog B) :
  (∀ a, r = Ok a → returns (answers Q) (f a)) → returns (answers Q) (try_bind (lifted r) f).
Proof. intros Hf. destruct r as [a|e|]; [by apply Hf|done|done]. Qed.

Lemma returns_give {A} (Q : A → Prop) a : Q a → returns (answers Q) (give a).
Proof. intros HQ b [= <-]. done. Qed.

Lemma returns_refuse {A} (Q : A → Prop) e : returns (answers Q) (refuse e).
Proof. by intros b. Qed.

(** ** Histories of compositions *)

Lemma runs_steps {A} (p q : prog WebAns A) tr : runs p tr q →
  match p with
  | Do op k => tr = [] ∧ q = Do op k ∨ ∃ a tr', tr = mkCall op a :: tr' ∧ runs (k a) tr' q
  | _ => True
  end.
Proof. intros [[]|]; [done|by left|done|right; eauto]. Qed.

Lemma runs_step {A} op (k : WebAns op → prog WebAns A) tr q : runs (Do op k) tr q →
  tr = [] ∧ q = Do op k ∨ ∃ a tr', tr = mkCall op a :: tr' ∧ runs (k a) tr' q.
Proof. exact (runs_steps (Do op k) q tr). Qed.

Lemma runs_ret {A} (a b : A) tr : runs (Ret a : prog WebAns A) tr (Ret b) → tr = [] ∧ a = b.
Proof. inversion 1. done. Qed.

Lemma runs_bind {A B} (p : prog WebAns A) (f : A → prog WebAns B) tr b : runs (pbind p f) tr (Ret b) →
  ∃ tr1 tr2 a, tr = tr1 ++ tr2 ∧ runs p tr1 (Ret a) ∧ runs (f a) tr2 (Ret b).
Proof.
  revert tr. induction p as [a|op k IH|]; intros tr Hr; simpl in Hr.
  - exists [], tr, a. split; [done|]. split; [constructor|done].
  - apply runs_step in Hr as [[_ ?]|(x & tr' & -> & Hr)]; [done|].
    destruct (IH x tr' Hr) as (tr1 & tr2 & a & -> & H1 & H2). exists (mkCall op x :: tr1), tr2, a.
    split; [done|]. split; [by constructor|done].
  - inversion Hr.
Qed.

(** An answer behind [?]: every step before it answered. *)
Lemma runs_try {A B} (p : Web_prog A) (f : A → Web_prog B) tr b : runs (try_bind p f) tr (Ret (Ok b)) →
  ∃ tr1 tr2 a, tr = tr1 ++ tr2 ∧ runs p tr1 (Ret (Ok a)) ∧ runs (f a) tr2 (Ret (Ok b)).
Proof.
  intros Hr. apply runs_bind in Hr as (tr1 & tr2 & [a|e|] & -> & H1 & H2); [by exists tr1, tr2, a| |by inversion H2].
  by apply runs_ret in H2 as [_ ?].
Qed.

Lemma runs_lifted {A} (r : result ModelError A) tr a : runs (lifted r) tr (Ret (Ok a)) → tr = [] ∧ r = Ok a.
Proof. destruct r as [x|e|]; intros Hr; [by apply runs_ret in Hr as [-> [= <-]]|by apply runs_ret in Hr as [_ ?]|by inversion Hr]. Qed.

Lemma runs_try_lifted {A B} (r : result ModelError A) (f : A → Web_prog B) tr b :
  runs (try_bind (lifted r) f) tr (Ret (Ok b)) → ∃ a, r = Ok a ∧ runs (f a) tr (Ret (Ok b)).
Proof. intros Hr. apply runs_try in Hr as (tr1 & tr2 & a & -> & [-> ->]%runs_lifted & Hr). by exists a. Qed.

(** ** Exchanges *)

(** A request and what the network answered. *)
Definition exchanged (e : event WebAns) : list (HttpRequest * result SendFailure HttpResponse) :=
  match e with
  | mkCall op a => match op return WebAns op → list (HttpRequest * result SendFailure HttpResponse) with
                   | Post r => λ a, [(r, a)]
                   | _ => λ _, []
                   end a
  end.

(** The requests of a history, with their answers. *)
Definition exchanges (tr : list (event WebAns)) : list (HttpRequest * result SendFailure HttpResponse) := tr ≫= exchanged.

Lemma exchanges_app tr tr' : exchanges (tr ++ tr') = exchanges tr ++ exchanges tr'.
Proof. unfold exchanges. apply bind_app. Qed.

Lemma inert_exchanges {A} (p q : prog WebAns A) tr : inert no_post p → runs p tr q → exchanges tr = [].
Proof.
  intros Hp Hr. induction Hr as [p|op k a tr q _ IH]; [done|]. destruct Hp as [Hq Hk].
  change (exchanged (mkCall op a) ++ exchanges tr = []). rewrite (IH (Hk a)). by destruct op.
Qed.

(** The history made one request, a success came back, its body was read to
    the end and is the text of [raw]. *)
Definition answered_with `{!WireResponses} (tr : list (event WebAns)) (raw : Value) : Prop :=
  ∃ request response parts, exchanges tr = [(request, Ok response)] ∧ 200 ≤ hp_status response < 300
    ∧ hp_chunks response = map Ok parts ∧ json_parse (foldl String.append EmptyString parts) = Some raw.

(** ** Shared parts *)

Section Shared.
Context `{!Web, !Sha256, !WireResponses, !JsonWriter, !TextEncodings, !Urls} (egress : bool).

Lemma read_chunks_exact limit bytes chunks text : limit < usize_max → byte_len bytes ≤ limit →
  read_chunks egress limit bytes chunks = Ok text →
  ∃ parts, chunks = map Ok parts ∧ text = foldl String.append bytes parts ∧ byte_len text ≤ limit.
Proof.
  intros Hl. revert bytes. induction chunks as [|[chunk| |] chunks IH]; intros bytes Hb; simpl; [|walk|done|done].
  - intros [= <-]. by exists [].
  - bools. intros Hr. destruct (IH (bytes +:+ chunk)) as (parts & -> & -> & Ht); [rewrite byte_len_app; lia|done|].
    by exists (chunk :: parts).
Qed.

Lemma read_chunks_body limit bytes chunks text : read_chunks egress limit bytes chunks = Ok text →
  ∃ parts, chunks = map Ok parts ∧ text = foldl String.append bytes parts.
Proof.
  revert bytes. induction chunks as [|[chunk| |] chunks IH]; intros bytes; simpl; [|walk|done|done].
  - intros [= <-]. by exists [].
  - intros (parts & -> & ->)%IH. by exists (chunk :: parts).
Qed.

(** What is buffered of a response is its whole body, within the limit. *)
Lemma bounded_response_exact r max text : bounded_response_bytes egress r max = Ok text →
  match max with Some limit => limit < usize_max | None => False end →
  ∃ limit parts, max = Some limit ∧ hp_chunks r = map Ok parts ∧ text = foldl String.append EmptyString parts
    ∧ byte_len text ≤ limit.
Proof.
  unfold bounded_response_bytes. walk. intros Hr Hm. destruct max as [limit|]; [|done]. unfold required_byte_limit in E.
  destruct (0 <? limit) eqn:Ez; [|done]. injection E as <-. bools.
  destruct (read_chunks_exact limit "" (hp_chunks r) text) as (parts & Hc & Ht & Hb); [done|change (byte_len "") with 0; lia|done|].
  exists limit, parts. done.
Qed.

Lemma inert_lifted {A} (r : result ModelError A) : inert no_post (lifted r).
Proof. by destruct r. Qed.

Lemma success_trace_quiet d role source hash response : inert no_post (success_trace d role source hash response).
Proof. done. Qed.

Lemma provider_response_sends (R : HttpRequest → Prop) request max invalid_json :
  R request → sends R (provider_response_json egress request max invalid_json).
Proof.
  intros HR. split; [done|]. intros [response|failure|]; [|done|done]. cbn -[status_error bounded_response_bytes].
  destruct (negb _).
  - destruct (negb egress); [done|]. destruct (hp_retry_after response) as [header|]; [|done].
    split; [done|]. intros now. by destruct (parse_retry_after header now).
  - apply inert_bind; [apply inert_lifted|]. intros [bytes|e|]; [|done|done]. destruct (negb _); [done|].
    apply inert_bind; [apply inert_lifted|]. by intros [raw|e|].
Qed.

(** The JSON that comes back is that of the one answer. *)
Lemma provider_response_answered request max invalid_json tr raw text :
  runs (provider_response_json egress request max invalid_json) tr (Ret (Ok (raw, text))) → answered_with tr raw.
Proof.
  intros Hr. unfold provider_response_json in Hr.
  apply runs_step in Hr as [[_ ?]|([response|failure|] & tr' & -> & Hr)]; [done| |by apply runs_ret in Hr as [_ ?]|by inversion Hr].
  cbv beta iota zeta in Hr. cbn [pbind] in Hr. destruct (negb _) eqn:Es.
  - exfalso. destruct (negb egress); [by apply runs_ret in Hr as [_ ?]|].
    destruct (hp_retry_after response) as [header|]; [|by apply runs_ret in Hr as [_ ?]].
    apply runs_step in Hr as [[_ ?]|(now & tr'' & -> & Hr)]; [done|]. cbn [pbind] in Hr.
    destruct (parse_retry_after header now); [by apply runs_ret in Hr as [_ ?]..|by inversion Hr].
  - bools. apply runs_try_lifted in Hr as (bytes & Hb & Hr). destruct (negb _); [by apply runs_ret in Hr as [_ ?]|].
    apply runs_try_lifted in Hr as (v & Hj%ok_or_ok & Hr). apply runs_ret in Hr as [-> [= -> ->]].
    unfold bounded_response_bytes in Hb. revert Hb. walk. intros (parts & Hc & ->)%read_chunks_body.
    exists request, response, parts. split_and!; [done|lia|lia|done|done].
Qed.

Lemma answered_app tr tr' tr'' raw : exchanges tr = [] → exchanges tr'' = [] → answered_with tr' raw →
  answered_with (tr ++ tr' ++ tr'') raw.
Proof.
  intros Hb Hl (request & response & parts & He & Ha). exists request, response, parts.
  by rewrite !exchanges_app, Hb, Hl, He, app_nil_r.
Qed.

Lemma behind_sends {T} `{!Serde T, !CredentialResponse T} (R : HttpRequest → Prop) secret (p : Web_prog T) :
  sends R p → sends R (behind secret p).
Proof. intros Hp. apply sends_after; [done|]. intros r. apply inert_lifted. Qed.

(** What passes the boundary: the response as it was, without its raw part
    where there is a credential, which nothing of it named. *)
Lemma guard_result_ok {T} `{!Serde T, !CredentialResponse T} (r : result ModelError T) secret out :
  guard_result r secret = Ok out →
  ∃ a, r = Ok a ∧ (if String.eqb secret "" then out = a
                   else out = discard_raw a ∧ ∃ v, to_value a = Some v ∧ clean secret v).
Proof.
  unfold guard_result. destruct (String.eqb_spec secret "") as [->|Hs].
  { intros ->. by exists out. }
  destruct r as [a|e|]; [walk|destruct (http_details e) as [[]|]; walk; done|done].
  intros [= <-]. exists a. split; [done|]. split; [done|]. apply ok_or_ok in E. exists a0. split; [done|].
  apply check_response_clean; [done|]. by destruct a1.
Qed.

(** What comes from behind the boundary was computed in front of it. *)
Definition released {T} `{!Serde T, !CredentialResponse T} (secret : string) (a out : T) : Prop :=
  if String.eqb secret "" then out = a else out = discard_raw a ∧ ∃ v, to_value a = Some v ∧ clean secret v.

Lemma behind_runs {T} `{!Serde T, !CredentialResponse T} secret (p : Web_prog T) tr out :
  runs (behind secret p) tr (Ret (Ok out)) → ∃ a, runs p tr (Ret (Ok a)) ∧ released secret a out.
Proof.
  intros Hr. apply runs_bind in Hr as (tr1 & tr2 & r & -> & Hp & [-> Hg]%runs_lifted). rewrite app_nil_r.
  apply guard_result_ok in Hg as (a & -> & Ha). by exists a.
Qed.

Lemma behind_returns {T} `{!Serde T, !CredentialResponse T} (Q : T → Prop) secret (p : Web_prog T) :
  returns (answers Q) p →
  returns (answers (λ out, ∃ a, Q a ∧ if String.eqb secret "" then out = a
                                      else out = discard_raw a ∧ ∃ v, to_value a = Some v ∧ clean secret v))
    (behind secret p).
Proof.
  intros Hp. apply returns_bind. eapply returns_mono; [exact Hp|]. intros r Hr.
  destruct (guard_result r secret) as [out|e|] eqn:E; simpl; [|done|done]. intros b [= <-].
  apply guard_result_ok in E as (a & -> & Ha). exists a. split; [by apply Hr|done].
Qed.

End Shared.
