(* ===== verification/AdapterTheorems.v ===== *)
(** What the provider adapters promise: one bounded request per call, to the
    configured endpoint and only under a valid configuration; answers with
    consistent counters and known labels; complete embeddings; ranked hits; and
    no credential in what they return. *)

From Stdlib Require Import ZArith Lia Ascii.
From Stdlib Require Import SpecFloat.
From stdpp Require Import base gmap strings list sorting.
From S2P Require Import Prelude Text Core SpendTypes Json Trace ExecutionPolicy Responses Program.
From S2P Require Import Float64 Wire ModelRegistry Adapters ChatAdapters RetrievalAdapters AdapterProofs.

#[local] Open Scope Z_scope.

Lemma required_limit_some o n : required_byte_limit o = Ok n → o = Some n ∧ 0 < n.
Proof. unfold required_byte_limit. destruct o as [m|]; [|done]. destruct (0 <? m) eqn:E; [|done]. intros [= ->]. by bools. Qed.

Lemma encode_ok `{!JsonWriter} w max body : 0 ≤ max → encode w (Some max) = Ok body →
  body = text_of w ∧ byte_len (text_of w) ≤ max.
Proof. intros Hm. rewrite encode_exact by done. simpl. destruct (_ <=? _) eqn:E; [|done]. intros [= <-]. by bools. Qed.

Lemma and_then_unit {E B} (c : result E unit) (k : result E B) b : (let? _ := c in k) = Ok b → c = Ok tt ∧ k = Ok b.
Proof. by destruct c as [[]| |]. Qed.

(** ** Traces keep their counters *)

(** What the runtime's notes leave of a trace. *)
Record same_counts (t t' : ModelInvocationTrace) : Prop := {
  same_model : it_model t' = it_model t;
  same_cache : it_cache t' = it_cache t;
  same_input : input_tokens (it_usage t') = input_tokens (it_usage t);
  same_hit : cache_hit_tokens (it_usage t') = cache_hit_tokens (it_usage t);
  same_miss : cache_miss_tokens (it_usage t') = cache_miss_tokens (it_usage t);
}.

Lemma note_same t kind e : same_counts t (note_trace_diagnostic t kind e).
Proof. by unfold note_trace_diagnostic. Qed.

Lemma identity_same t raw f : same_counts t (provider_usage_identity t raw f).
Proof.
  unfold provider_usage_identity. destruct (identity_field raw f "id") as [id bad], (identity_field raw f "model") as [model bad'].
  destruct (match get "created" raw with Some value => _ | None => _ end) as [seconds bad''].
  by destruct (bad || bad' || bad'').
Qed.

Lemma finish_reason_same t reason t' reason' : provider_finish_reason t reason = (t', reason') →
  same_counts t t' ∧ match reason' with Some label => is_known_finish_reason label = true | None => reason = None end.
Proof.
  unfold provider_finish_reason. destruct reason as [r|]; [|by intros [= <- <-]].
  destruct (is_known_finish_reason r) eqn:E; intros [= <- <-]; [by split|]. split; [apply note_same|done].
Qed.

(** Counters that are all known add up. *)
Definition counted (u : UsageTrace) : Prop :=
  match input_tokens u, cache_hit_tokens u, cache_miss_tokens u with
  | Some total, Some hit, Some miss => hit + miss = total
  | _, _, _ => True
  end.

Lemma observed_counts egress total hit miss nested h m :
  observed_prompt_cache_counts egress total hit miss nested = Ok (h, m) →
  match total, h, m with Some t, Some h, Some m => h + m = t | _, _, _ => True end.
Proof.
  unfold observed_prompt_cache_counts. destruct (normalize_prompt_cache_counts total hit miss nested) as [[h' m']| |] eqn:E;
    [|destruct egress; [done|intros [= <- <-]; by destruct total]|done].
  intros [= <- <-]. revert E. unfold normalize_prompt_cache_counts. walk. intros [= Hh Hm]. rewrite Hh in Hm, E0. rewrite Hm in E0.
  destruct total as [t|], h' as [x|], m' as [y|]; try done. bools.
  rename select (checked_add _ _ _ = _) into Hc. by apply checked_add_some in Hc as [].
Qed.

Section Chat.
Context `{!Web, !Sha256, !WireResponses, !JsonWriter, !TextEncodings, !Urls, !Serde ChatResponse} (egress : bool).

(** A request under the configured limit, and the tokens it asks for: those of
    the request, or the ceiling where it names none; positive, and never more
    than a configured ceiling. *)
Definition admitted (p : OpenAiCompatibleChatProvider) (request : ChatRequest) (tokens : Z) (wire : Wire) : Prop :=
  ai_validate_configuration p = Ok tt
  ∧ (cq_max_output_tokens request = Some tokens
     ∨ cq_max_output_tokens request = None ∧ ai_max_output_tokens p = Some tokens)
  ∧ 0 < tokens ∧ (∀ ceiling, ai_max_output_tokens p = Some ceiling → tokens ≤ ceiling)
  ∧ ∃ limit, ai_max_request_bytes p = Some limit ∧ byte_len (text_of wire) ≤ limit.

Lemma output_tokens_ok requested ceiling tokens : chat_output_tokens requested ceiling = Ok tokens →
  (requested = Some tokens ∨ requested = None ∧ ceiling = Some tokens)
  ∧ 0 < tokens ∧ (∀ c, ceiling = Some c → tokens ≤ c).
Proof.
  unfold chat_output_tokens. destruct (match requested with Some n => Some n | None => ceiling end) as [n|] eqn:En; [|done].
  destruct (0 <? n) eqn:Ez; [|done]. destruct (match ceiling with Some limit => limit <? n | None => false end) eqn:Ec; [done|].
  intros [= <-]. bools. split; [by destruct requested; [left|right]|]. split; [done|]. intros c ->. bools. lia.
Qed.

Lemma admitted_intro p request tokens wire limit : ai_validate_configuration p = Ok tt →
  chat_output_tokens (cq_max_output_tokens request) (ai_max_output_tokens p) = Ok tokens →
  ai_max_request_bytes p = Some limit → byte_len (text_of wire) ≤ limit → admitted p request tokens wire.
Proof. intros Hv (Ht & Hp & Hc)%output_tokens_ok Hl Hb. split_and!; [done..|]. by exists limit. Qed.

Lemma configured_limit p : ai_validate_configuration p = Ok tt → ∃ limit, ai_max_request_bytes p = Some limit ∧ 0 < limit.
Proof.
  unfold ai_validate_configuration. walk. intros _. apply required_limit_some in E1 as []. by eexists.
Qed.

Lemma openai_answer_quiet p request raw parsed : inert no_post (openai_answer egress p request raw parsed).
Proof.
  unfold openai_answer. destruct (ow_choices parsed) as [|choice ?]; [done|].
  apply inert_bind; [apply success_trace_quiet|]. intros trace. apply inert_bind; [apply inert_lifted|].
  intros [[hit miss]|e|]; [|done|done]. cbv beta iota zeta. by destruct (provider_finish_reason _ _).
Qed.

Lemma anthropic_answer_quiet p request raw parsed : inert no_post (anthropic_answer egress p request raw parsed).
Proof.
  unfold anthropic_answer. destruct (existsb _ _); [done|]. apply inert_bind; [apply inert_lifted|].
  intros [input|e|]; [|done|done]. apply inert_bind; [apply success_trace_quiet|]. intros trace.
  apply inert_bind; [apply inert_lifted|]. intros [miss|e|]; [|done|done]. apply inert_bind; [apply inert_lifted|].
  intros [[hit ?]|e|]; [|done|done]. cbv beta iota zeta. by destruct (provider_finish_reason _ _).
Qed.

(** C18: whatever its caller and the network do, a chat adapter posts at most one
    request per call, to the path of its protocol below the configured base,
    with a valid configuration and a body that is the whole encoded request and
    within the byte limit; the output bound it asks for is the request's, or the
    ceiling where the request names none, is positive and never exceeds a
    configured ceiling; the credential is in its own header and nowhere else of
    the head. *)
Theorem chat_requests_bounded p request tr q :
  (runs (openai_chat egress p request) tr q →
   posts tr = [] ∨ ∃ tokens,
     let wire := openai_wire (mi_model (pd_identity (ai_descriptor p))) (with_tokens tokens request) (ai_thinking p)
                   (ai_reasoning_effort p) in
     admitted p request tokens wire
     ∧ posts tr = [json_request (trim_end_slash (ai_base_url p) +:+ "/chat/completions") (text_of wire) []
                     (bearer (ai_api_key p))])
  ∧ (runs (anthropic_chat egress p request) tr q →
     posts tr = [] ∨ ∃ tokens,
       let wire := anthropic_wire (mi_model (pd_identity (ai_descriptor p))) (with_tokens tokens request) (ai_thinking p) in
       admitted p request tokens wire ∧ anthropic_refuses (with_tokens tokens request) (ai_thinking p) = false
       ∧ posts tr = [json_request (trim_end_slash (ai_base_url p) +:+ "/messages") (text_of wire)
                       [("anthropic-version", "2023-06-01")]%string
                       (if String.eqb (ai_api_key p) "" then [] else [("x-api-key"%string, ai_api_key p)])]).
Proof.
  split; intros Hr.
  - eapply sends_history in Hr as [Hn|(r & Hr & HR)]; [by left|right; rewrite Hr; exact HR|].
    apply behind_sends, sends_lifted. intros [] Hv. apply sends_lifted. intros tokens Ht. apply sends_lifted.
    intros body Hb. apply sends_lifted. intros _ _. apply sends_try.
    + apply provider_response_sends. destruct (configured_limit p Hv) as (limit & Hl & Hpos). exists tokens.
      unfold openai_chat_body in Hb. apply and_then_unit in Hb as [_ Hb]. rewrite Hl in Hb.
      apply encode_ok in Hb as [-> Hb]; [|lia]. split; [by eapply admitted_intro|done].
    + intros [raw text]. apply inert_try; [apply inert_lifted|]. intros parsed. apply openai_answer_quiet.
  - eapply sends_history in Hr as [Hn|(r & Hr & HR)]; [by left|right; rewrite Hr; exact HR|].
    apply behind_sends, sends_lifted. intros [] Hv. apply sends_lifted. intros tokens Ht. apply sends_lifted.
    intros body Hb. apply sends_lifted. intros _ _.
    apply sends_lifted. intros auth Ha. apply sends_try.
    + apply provider_response_sends. destruct (configured_limit p Hv) as (limit & Hl & Hpos). exists tokens.
      unfold anthropic_chat_body in Hb. destruct (anthropic_refuses _ _) eqn:Er; [done|]. rewrite Hl in Hb.
      apply encode_ok in Hb as [-> Hb]; [|lia]. split; [by eapply admitted_intro|split; [done|]].
      unfold anthropic_auth in Ha. destruct (String.eqb _ _); [by injection Ha as <-|].
      destruct (header_value_ok _); [by injection Ha as <-|done].
    + intros [raw text]. apply inert_try; [apply inert_lifted|]. intros parsed. apply anthropic_answer_quiet.
Qed.

(** A chat answer under the adapter's own identity, with a known finish label and
    counters that add up. *)
Definition accounted_answer (p : OpenAiCompatibleChatProvider) (r : ChatResponse) : Prop :=
  it_model (ch_trace r) = pd_identity (ai_descriptor p)
  ∧ counted (it_usage (ch_trace r))
  ∧ it_cache (ch_trace r)
    = mkCacheTrace Miss (prompt_cache_status (input_tokens (it_usage (ch_trace r)))
                           (cache_hit_tokens (it_usage (ch_trace r))) (cache_miss_tokens (it_usage (ch_trace r))))
        (cache_hit_tokens (it_usage (ch_trace r)))
  ∧ match ch_finish_reason r with Some label => is_known_finish_reason label = true | None => True end.

Lemma same_accounted p t t' text reason raw : same_counts t t' →
  match reason with Some label => is_known_finish_reason label = true | None => True end →
  it_model t = pd_identity (ai_descriptor p) → counted (it_usage t) →
  it_cache t = mkCacheTrace Miss (prompt_cache_status (input_tokens (it_usage t)) (cache_hit_tokens (it_usage t))
                                    (cache_miss_tokens (it_usage t))) (cache_hit_tokens (it_usage t)) →
  accounted_answer p (mkChatResponse text reason t' raw).
Proof.
  intros [S1 S2 S3 S4 S5] Hl Hm Hc Hk. unfold accounted_answer, counted in *. simpl.
  rewrite S1, S2, S3, S4, S5. done.
Qed.

Lemma same_trans t t' t'' : same_counts t t' → same_counts t' t'' → same_counts t t''.
Proof. intros [] []. split; congruence. Qed.

Lemma set_cache_same c t t' : same_counts t t' → same_counts (set_cache c t) (set_cache c t').
Proof. by intros []. Qed.

Lemma openai_answer_accounted p request raw parsed :
  returns (answers (λ r, (accounted_answer p r ∧ ch_raw_provider_response r = Some raw)
                         ∧ ∃ choice choices, ow_choices parsed = choice :: choices
                         ∧ ch_text r = default EmptyString (oc_message choice ≫= id)))
    (openai_answer egress p request raw parsed).
Proof.
  unfold openai_answer. destruct (ow_choices parsed) as [|choice choices]; [apply returns_refuse|].
  apply returns_bind. intros trace_id now. cbn beta. apply returns_lifted. intros [hit miss] Hc.
  cbv beta iota zeta. destruct (provider_finish_reason _ _) as [t reason] eqn:Ef.
  apply finish_reason_same in Ef as [Hs Hl]. apply returns_give. split; [split; [|done]|by exists choice, choices].
  eapply same_accounted; [eapply same_trans; [apply set_cache_same, identity_same|exact Hs]|by destruct reason|done| |done].
  unfold counted. simpl. exact (observed_counts _ _ _ _ _ _ _ Hc).
Qed.

Lemma transpose_some {A B} (f : A → result ModelError B) o b : transpose f o = Ok b →
  match o, b with Some a, Some b => f a = Ok b | None, None => True | _, _ => False end.
Proof. unfold transpose. destruct o as [a|]; [walk|]; intros [= <-]; done. Qed.

Lemma add_tokens_ok a b c : add_tokens a b = Ok c → c = a + b.
Proof. unfold add_tokens. intros Hc%ok_or_ok. by apply checked_add_some in Hc as []. Qed.

Lemma anthropic_answer_accounted p request raw parsed :
  returns (answers (λ r, (accounted_answer p r ∧ ch_raw_provider_response r = Some raw)
                         ∧ ch_text r = foldr String.append EmptyString (map block_text (ms_content parsed))))
    (anthropic_answer egress p request raw parsed).
Proof.
  unfold anthropic_answer. destruct (existsb _ _); [apply returns_refuse|]. apply returns_lifted. intros input Hi.
  apply returns_bind. intros trace_id now. cbn beta. apply returns_lifted. intros miss Hm. apply returns_lifted.
  intros [hit ?] Hc. cbv beta iota zeta. destruct (provider_finish_reason _ _) as [t reason] eqn:Ef.
  apply finish_reason_same in Ef as [Hs Hl]. apply returns_give. split; [split; [|done]|done].
  eapply same_accounted; [eapply same_trans; [apply identity_same|exact Hs]|by destruct reason|done| |done].
  unfold counted. simpl. apply transpose_some in Hi, Hm.
  destruct (mu_input_tokens _) as [n|], input as [total|], miss as [m|]; try done.
  destruct hit as [h|]; [|done]. apply rbind_ok in Hi as (x & Hx%add_tokens_ok & Ht%add_tokens_ok).
  apply add_tokens_ok in Hm. revert Hc. unfold observed_prompt_cache_counts, normalize_prompt_cache_counts.
  destruct (mu_cache_read_input_tokens _) as [read|]; simpl in *; [|by destruct egress].
  destruct (_ || _ || _); simpl; [by destruct egress|]. intros [= <- _]. lia.
Qed.

(** What an adapter computed from the response [raw], and what left it: the
    whole answer, or, with a credential, the answer without its raw part, after
    nothing of the answer with it, and nothing of the response, spelt the
    credential. *)
Definition answer_released (p : OpenAiCompatibleChatProvider) (raw : Value) (a out : ChatResponse) : Prop :=
  accounted_answer p a ∧ ch_raw_provider_response a = Some raw
  ∧ if String.eqb (ai_api_key p) "" then out = a
    else out = mkChatResponse (ch_text a) (ch_finish_reason a) (ch_trace a) None
         ∧ (∃ v, to_value a = Some v ∧ clean (ai_api_key p) v)
         ∧ ∀ spelt text, spelling (ai_api_key p) spelt → text_in text raw → ¬ occurs spelt text.

(** [derive(Serialize)]: the raw part is the field of its name. *)
Definition raw_serialized : Prop := ∀ (a : ChatResponse) v raw,
  to_value a = Some v → ch_raw_provider_response a = Some raw → get "raw_provider_response" v = Some raw.

Lemma answer_released_intro p raw a out : raw_serialized → accounted_answer p a → ch_raw_provider_response a = Some raw →
  released (ai_api_key p) a out → answer_released p raw a out.
Proof.
  intros Hs Ha Hr Hg. split; [done|]. split; [done|]. unfold released in Hg. destruct (String.eqb _ _); [done|].
  destruct Hg as (-> & v & Hv & Hc). split; [done|]. split; [by exists v|]. exact (clean_field _ _ _ _ Hc (Hs _ _ _ Hv Hr)).
Qed.

(** The end of an adapter's run: the exchange, and the answer computed from it. *)
Lemma chat_answer_history {A} req max (k : Value * string → Web_prog A) tr a :
  (∀ x, inert no_post (k x)) →
  runs (try_bind (provider_response_json egress req max Unavailable) k) tr (Ret (Ok a)) →
  ∃ raw text tr', answered_with tr raw ∧ runs (k (raw, text)) tr' (Ret (Ok a)).
Proof.
  intros Hk Hr. apply runs_try in Hr as (tr1 & tr2 & [raw text] & -> & Hp & Hr). exists raw, text, tr2. split; [|done].
  apply (answered_app [] tr1 tr2 raw eq_refl); [by eapply inert_exchanges|by eapply provider_response_answered].
Qed.

(** C19: an answer that a chat adapter returns was computed from the provider's
    one answer to the one request of the call, whose body was read to its end:
    it carries the text of the response's first choice (or its text blocks in
    order, never its reasoning), the adapter's own model identity, a finish label
    from the known list, and cache counters that add up to the input tokens
    wherever all are known.  Without a credential the raw response comes with
    it; with one, the raw response is gone, after no text of the answer with its
    raw part, nor of the response itself, spelt the credential, plainly or
    encoded. *)
Theorem chat_answers_accounted p request tr out : raw_serialized →
  (runs (openai_chat egress p request) tr (Ret (Ok out)) →
   ∃ a raw parsed choice choices, answered_with tr raw ∧ decode_openai raw = Some parsed
     ∧ ow_choices parsed = choice :: choices ∧ ch_text a = default EmptyString (oc_message choice ≫= id)
     ∧ answer_released p raw a out)
  ∧ (runs (anthropic_chat egress p request) tr (Ret (Ok out)) →
     ∃ a raw parsed, answered_with tr raw ∧ decode_messages raw = Some parsed
       ∧ ch_text a = foldr String.append EmptyString (map block_text (ms_content parsed))
       ∧ answer_released p raw a out).
Proof.
  intros Hs. split; intros (a & Hr & Hg)%behind_runs.
  - do 4 (apply runs_try_lifted in Hr as (? & _ & Hr)).
    apply chat_answer_history in Hr as (raw & text & tr' & Ha & Hr).
    2: { intros [raw text]. apply inert_try; [apply inert_lifted|]. intros parsed. apply openai_answer_quiet. }
    apply runs_try_lifted in Hr as (parsed & Hd%ok_or_ok & Hr).
    destruct (returns_runs _ _ _ _ (openai_answer_accounted _ _ _ _) Hr a eq_refl) as ([Hacc Hraw] & choice & choices & Hc & Ht).
    exists a, raw, parsed, choice, choices. split_and!; [done..|]. by apply answer_released_intro.
  - do 5 (apply runs_try_lifted in Hr as (? & _ & Hr)).
    apply chat_answer_history in Hr as (raw & text & tr' & Ha & Hr).
    2: { intros [raw text]. apply inert_try; [apply inert_lifted|]. intros parsed. apply anthropic_answer_quiet. }
    apply runs_try_lifted in Hr as (parsed & Hd%ok_or_ok & Hr).
    destruct (returns_runs _ _ _ _ (anthropic_answer_accounted _ _ _ _) Hr a eq_refl) as ([Hacc Hraw] & Ht).
    exists a, raw, parsed. split_and!; [done..|]. by apply answer_released_intro.
Qed.

End Chat.

(** ** One exchange *)

(** A provider that answers every request with the same body. *)
Definition answering (body : string) (op : WebOp) (n : Z) : Z * WebAns op :=
  match op with
  | Post _ => (n + 1, Ok (mkHttpResponse 200 None None [Ok body]))
  | UtcNow => (n, 0)
  | InstantNow => (n, 0)
  | FreshTraceId => (n, "t1"%string)
  end.

Section Exchange.
#[local] Instance sample_web : Web := {| client_builds _ := true; header_value_ok _ := true; http_date _ := None |}.
#[local] Instance sample_sha : Sha256 := {| sha256 s := s |}.
#[local] Instance sample_writer : JsonWriter := {| write_calls _ := ["{"; "}"]%string |}.
#[local] Instance sample_urls' : Urls := {| parse_url s := Some (mkUrl "https" (Some s) "" None None None) |}.
#[local] Instance sample_encodings : TextEncodings := {|
  json_text v := match v with VString s => quoted s | _ => "{}"%string end;
  base64 _ s := s;
  json_string_quoted s := ex_intro _ s eq_refl;
|}.
#[local] Instance sample_chat_serde : Serde ChatResponse := {|
  to_value r := Some (VObject [("raw_provider_response"%string, default VNull (ch_raw_provider_response r));
                               ("text"%string, VString (ch_text r))]);
  from_value _ := None;
|}.
#[local] Instance sample_wire : WireResponses := {|
  json_parse s := Some (VString s);
  decode_openai v := Some (mkOpenAiChat
    [mkOpenAiChoice (as_str v ≫= λ s, Some (Some s)) (Some "stop"%string)]
    (Some (mkOpenAiUsage (Some 10) (Some 3) (Some 4) None None None)));
  decode_messages v := None;
  decode_gemini _ := None;
  decode_gemini_batch _ := None;
  decode_compatible _ := None;
  decode_ollama _ := None;
  decode_rerank _ := None;
|}.

Definition sample_provider : OpenAiCompatibleChatProvider :=
  ai_with_output_limit 100 (OpenAi_new "acme" "m1" "https://api.acme.example/" "s3cret").

Definition sample_request : ChatRequest :=
  mkChatRequest [mkChatMessage "user" "hi"] None None None None None (object []).

Definition sample_exchange := interp (answering "hello") (openai_chat true sample_provider sample_request) 0.

Lemma sample_runs : ∃ out, runs (openai_chat true sample_provider sample_request) sample_exchange.1.2 (Ret (Ok out))
  ∧ ch_text out = "hello"%string.
Proof.
  assert (match sample_exchange.2 with Some (Ok out) => String.eqb (ch_text out) "hello" | _ => false end = true) as Hc
    by (vm_compute; reflexivity).
  destruct (sample_exchange.2) as [[out| |]|] eqn:E; try discriminate Hc. exists out.
  split; [exact (interp_history _ _ _ _ E)|by apply String.eqb_eq].
Qed.

Lemma chat_requests_bounded_witness : ∃ body, posts sample_exchange.1.2
  = [json_request "https://api.acme.example/chat/completions" body [] (bearer "s3cret")].
Proof.
  destruct sample_runs as (out & Hr & _).
  destruct (proj1 (chat_requests_bounded true sample_provider sample_request _ _) Hr) as [Hn|(tokens & _ & Hp)].
  - vm_compute in Hn. discriminate Hn.
  - exists (text_of (openai_wire (mi_model (pd_identity (ai_descriptor sample_provider)))
              (with_tokens tokens sample_request) (ai_thinking sample_provider) (ai_reasoning_effort sample_provider))).
    exact Hp.
Defined.

Lemma chat_answers_accounted_witness : ∃ a out, answered_with sample_exchange.1.2 (VString "hello")
  ∧ ch_text out = "hello"%string ∧ counted (it_usage (ch_trace a)) ∧ ch_raw_provider_response out = None.
Proof.
  destruct sample_runs as (out & Hr & Ht).
  assert (raw_serialized) as Hs by (intros a v raw [= <-] Hraw; cbn; rewrite Hraw; reflexivity).
  destruct (proj1 (chat_answers_accounted true sample_provider sample_request _ out Hs) Hr)
    as (a & raw & parsed & choice & choices & Ha & _ & _ & _ & (_ & Hc & _) & _ & Hout & _).
  exists a, out. split; [|split; [exact Ht|split; [exact Hc|rewrite Hout; reflexivity]]].
  destruct Ha as (req & response & parts & He & Hst & Hch & Hj). exists req, response, parts.
  split; [exact He|]. split; [exact Hst|]. split; [exact Hch|]. rewrite Hj.
  vm_compute in He. injection He as _ <-. cbn in Hch. destruct parts as [|part [|? ?]]; [discriminate Hch| |discriminate Hch].
  injection Hch as <-. rewrite <-Hj. reflexivity.
Defined.

End Exchange.
