(* ===== verification/RetrievalTheorems.v ===== *)
(** What the embedding and rerank adapters promise: bounded requests, one finite
    vector of the right dimension per input and in input order, and hits that
    are distinct candidates in ranked order. *)

From Stdlib Require Import ZArith Lia Ascii.
From Stdlib Require Import SpecFloat.
From stdpp Require Import base gmap strings list sorting.
From S2P Require Import Prelude Text Core SpendTypes Json Trace ExecutionPolicy Responses Program.
From S2P Require Import Float64 Wire ModelRegistry Adapters ChatAdapters RetrievalAdapters AdapterProofs AdapterTheorems.

#[local] Open Scope Z_scope.






(** ** Items at their indices *)








(** ** Ranked hits *)

Lemma hit_cmp_opp a b : hit_cmp b a = CompOpp (hit_cmp a b).
Proof.
  unfold hit_cmp, total_cmp. rewrite (key_cmp_opp (total_key (rh_score f32 b))).
  destruct (key_cmp _ _); simpl; try done. apply Z.compare_antisym.
Qed.

#[export] Instance hit_le_total : Total hit_le.
Proof. intros a b. unfold hit_le. rewrite (hit_cmp_opp a b). destruct (hit_cmp a b); simpl; auto. Qed.

#[export] Instance hit_le_trans : Transitive hit_le.
Proof.
  intros a b c. unfold hit_le, hit_cmp, total_cmp.
  destruct (key_cmp (total_key (rh_score f32 b)) (total_key (rh_score f32 a))) eqn:E1; [| |done].
  - apply key_cmp_eq in E1 as ->. destruct (key_cmp (total_key (rh_score f32 c)) (total_key (rh_score f32 a))) eqn:E2; try done.
    rewrite !Z.compare_le_iff. lia.
  - destruct (key_cmp (total_key (rh_score f32 c)) (total_key (rh_score f32 b))) eqn:E2; [| |done].
    + apply key_cmp_eq in E2 as ->. by rewrite E1.
    + intros _ _. destruct (key_cmp (total_key (rh_score f32 c)) (total_key (rh_score f32 a))) eqn:E3; [|done|].
      * apply key_cmp_eq in E3. rewrite E3 in E2. by rewrite key_cmp_opp, E2 in E1.
      * exfalso. eapply key_cmp_trans; [| |exact E3]; [by rewrite E2|by rewrite E1].
Qed.

Lemma collect_hits_ok documents results indices hits : collect_hits documents results indices = Ok hits →
  hits = map (λ r, mkRerankHit f32 (rr_index r) (rr_relevance_score r)) results
  ∧ NoDup (map (rh_index f32) hits)
  ∧ Forall (λ h, rh_index f32 h < documents ∧ is_finite (rh_score f32 h) = true ∧ rh_index f32 h ∉ indices) hits.
Proof.
  revert indices hits. induction results as [|r results IH]; intros indices hits; simpl.
  { intros [= <-]. split_and!; constructor. }
  walk. bools. intros [= <-]. destruct (IH _ _ E0) as (-> & Hnd & Hf). split_and!; [done|..]; simpl.
  - constructor; [|done]. rewrite list_elem_of_fmap. intros (h & Hi & Hin). rewrite Forall_forall in Hf.
    destruct (Hf h Hin) as (_ & _ & Hn). apply Hn. rewrite <-Hi. left.
  - constructor; [done|]. eapply Forall_impl; [exact Hf|]. intros h (? & ? & Hn). split_and!; [done..|].
    intros Hx. apply Hn. by right.
Qed.

(** ** The adapters *)

Section Retrieval.
Context `{!Web, !Sha256, !WireResponses, !JsonWriter, !TextEncodings, !Urls}.
Context `{!Serde (EmbeddingResponse f32), !Serde (RerankResponse f32)} (egress : bool).

(** A transport is its binding, with limits that are not zero. *)
Lemma transport_new_ok b key t : RetrievalTransport_new b key = Ok t →
  validate_endpoint (tb_endpoint (rb_binding b)) = Ok tt
  ∧ 0 < pl_max_request_bytes (tb_limits (rb_binding b))
  ∧ t = mkRetrieval (rt_descriptor t) (rt_client t) key (me_adapter (rb_model b)) (tb_endpoint (rb_binding b))
          (tb_limits (rb_binding b)) (tb_settings (rb_binding b)).
Proof.
  unfold RetrievalTransport_new. walk. intros [= <-]. destruct a. apply required_limit_some in E1 as [[= ->] Hl].
  done.
Qed.

Lemma compatible_body_ok adapter model settings request max body d : 0 ≤ max →
  compatible_embedding_body adapter model settings request max = Ok (body, d) →
  d ≠ 0 ∧ byte_len body ≤ max
  ∧ (adapter = OpenAiEmbedding ∧ body = text_of (compatible_wire model request d)
     ∨ adapter = OllamaEmbedding ∧ ∃ input, eq_inputs request = [input] ∧ body = text_of (ollama_wire model input)).
Proof.
  intros Hm. unfold compatible_embedding_body. walk. bools. intros [= <- <-]. split; [done|].
  destruct adapter; try done.
  - apply encode_ok in E3 as [-> Hb]; [|done]. split; [done|by left].
  - destruct (eq_inputs request) as [|input []]; try done. destruct (_ && _); [|done].
    apply encode_ok in E3 as [-> Hb]; [|done]. split; [done|]. right. split; [done|]. by exists input.
Qed.

Lemma rerank_body_ok model settings request max body n : 0 ≤ max →
  cohere_rerank_body model settings request max = Ok (body, n) →
  n = Z.min (default (zlen (rq_documents request)) (rq_top_k request)) (zlen (rq_documents request))
  ∧ byte_len body ≤ max
  ∧ ∃ context, ts_rerank_context_tokens settings = Some context ∧ body = text_of (rerank_wire model request n context)
    ∧ Forall (λ doc, byte_len (rq_query request) + byte_len doc ≤ context) (rq_documents request).
Proof.
  intros Hm. unfold cohere_rerank_body. walk. intros [= <- <-]. apply encode_ok in E5 as [-> Hb]; [|done].
  split; [done|]. split; [done|]. apply ok_or_ok in E2. exists a0. split_and!; [done..|]. bools.
  rename select (existsb _ _ = false) into Hd. revert Hd. clear. induction (rq_documents request) as [|doc docs IH]; simpl; [constructor|].
  intros Hd. bools. constructor; [|auto]. destruct (checked_add _ _ _) as [n|] eqn:En; [|done].
  apply checked_add_some in En as [-> _]. bools. lia.
Qed.

Lemma retrieval_send_sends (R : HttpRequest → Prop) t path body :
  R (json_request (trim_end_slash (rt_endpoint t) +:+ path) body [] (bearer (rt_key t))) →
  sends R (retrieval_send egress t path body).
Proof. intros HR. apply sends_lifted. intros _ _. by apply provider_response_sends. Qed.

(** an adapter of a registry binding posts at most one request per call, to
    its protocol's path below the binding's valid endpoint, and the body is the
    whole encoded request within the binding's limit; Ollama is sent a single
    input, and every query and document pair of a rerank fits the context. *)
Theorem retrieval_requests_bounded b key t tr :
  (∀ request q, embedding_from_binding b key = Ok t → runs (compatible_embed egress t request) tr q →
   posts tr = [] ∨ ∃ path body d, posts tr = [json_request (trim_end_slash (tb_endpoint (rb_binding b)) +:+ path) body [] (bearer key)]
     ∧ byte_len body ≤ pl_max_request_bytes (tb_limits (rb_binding b))
     ∧ validate_endpoint (tb_endpoint (rb_binding b)) = Ok tt
     ∧ let model := mi_model (pd_identity (rt_descriptor t)) in
       (path = "/embeddings"%string ∧ body = text_of (compatible_wire model request d)
        ∨ path = "/api/embeddings"%string ∧ ∃ input, eq_inputs request = [input] ∧ body = text_of (ollama_wire model input)))
  ∧ (∀ request q, rerank_from_binding b key = Ok t → runs (cohere_rerank egress t request) tr q →
     posts tr = [] ∨ ∃ body n context, posts tr = [json_request (trim_end_slash (tb_endpoint (rb_binding b)) +:+ "/rerank") body [] (bearer key)]
       ∧ byte_len body ≤ pl_max_request_bytes (tb_limits (rb_binding b))
       ∧ validate_endpoint (tb_endpoint (rb_binding b)) = Ok tt
       ∧ body = text_of (rerank_wire (mi_model (pd_identity (rt_descriptor t))) request n context)
       ∧ Forall (λ doc, byte_len (rq_query request) + byte_len doc ≤ context) (rq_documents request)).
Proof.
  split; intros request q Hb Hr.
  - assert (RetrievalTransport_new b key = Ok t) as Hn by (unfold embedding_from_binding in Hb; by destruct (me_adapter (rb_model b))).
    destruct (transport_new_ok _ _ _ Hn) as (Hv & Hl & Ht).
    eapply sends_history in Hr as [Hp|(r & Hp & HR)]; [by left|right; rewrite Hp; exact HR|].
    apply sends_try; [|done]. apply behind_sends, sends_lifted. intros [body d] Hbody.
    rewrite Ht in Hbody. cbn [rt_adapter rt_settings rt_limits rt_descriptor] in Hbody.
    apply compatible_body_ok in Hbody as (Hd & Hb1 & Hb2); [|lia]. apply sends_try.
    + apply retrieval_send_sends.
      exists (if bool_decide (rt_adapter t = OllamaEmbedding) then "/api/embeddings" else "/embeddings")%string, body, d.
      rewrite Ht. cbn [rt_adapter rt_settings rt_limits rt_descriptor rt_key rt_endpoint]. split_and!; [done..|].
      destruct Hb2 as [[-> ->]|[-> Hin]]; [by left|by right].
    + intros [raw text]. repeat first [done|apply inert_try; [apply inert_lifted|intros []]|apply inert_bind; [done|intros ?]].
  - assert (RetrievalTransport_new b key = Ok t) as Hn by (unfold rerank_from_binding in Hb; by destruct (me_adapter (rb_model b))).
    destruct (transport_new_ok _ _ _ Hn) as (Hv & Hl & Ht).
    eapply sends_history in Hr as [Hp|(r & Hp & HR)]; [by left|right; rewrite Hp; exact HR|].
    apply sends_try; [|done]. apply behind_sends, sends_lifted. intros [body n] Hbody.
    rewrite Ht in Hbody. cbn [rt_adapter rt_settings rt_limits rt_descriptor] in Hbody.
    apply rerank_body_ok in Hbody as (_ & Hb1 & context & _ & Hb2 & Hb3); [|lia]. apply sends_try.
    + apply retrieval_send_sends. exists body, n, context.
      rewrite Ht. cbn [rt_adapter rt_settings rt_limits rt_descriptor rt_key rt_endpoint]. by split_and!.
    + intros [raw text]. apply inert_try; [apply inert_lifted|]. intros results. destruct (negb _); [done|].
      apply inert_try; [apply inert_lifted|]. intros hits. done.
Qed.

Lemma without_raw_returns {T} `{!CredentialResponse T} (Q : T → Prop) (p : Web_prog T) :
  returns (answers (λ a, Q (discard_raw a))) p → returns (answers Q) (without_raw p).
Proof. intros Hp. apply returns_try. eapply returns_mono; [exact Hp|]. intros r Hr a Ha. apply returns_give. by apply Hr. Qed.














Lemma rerank_returns t request : 0 ≤ pl_max_request_bytes (rt_limits t) →
  returns (answers (λ out, re_raw_provider_response out = None
      ∧ zlen (re_hits out) = Z.min (default (zlen (rq_documents request)) (rq_top_k request)) (zlen (rq_documents request))
      ∧ NoDup (map (rh_index f32) (re_hits out))
      ∧ Forall (λ h, rh_index f32 h < zlen (rq_documents request) ∧ is_finite (rh_score f32 h) = true) (re_hits out)
      ∧ StronglySorted hit_le (re_hits out)))
    (cohere_rerank egress t request).
Proof.
  intros Hm. apply without_raw_returns. eapply returns_mono.
  - apply (behind_returns (λ out, zlen (re_hits out) = Z.min (default (zlen (rq_documents request)) (rq_top_k request)) (zlen (rq_documents request))
      ∧ NoDup (map (rh_index f32) (re_hits out))
      ∧ Forall (λ h, rh_index f32 h < zlen (rq_documents request) ∧ is_finite (rh_score f32 h) = true) (re_hits out)
      ∧ StronglySorted hit_le (re_hits out))).
    apply returns_lifted. intros [body n] Hb. apply rerank_body_ok in Hb as (Hn & _); [|done].
    apply returns_try_any. intros [raw text]. apply returns_lifted. intros results Hres. destruct (negb _) eqn:El; [apply returns_refuse|].
    bools. apply returns_lifted. intros hits Hh. apply collect_hits_ok in Hh as (Heq & Hnd & Hf).
    apply returns_bind. intros trace_id now. apply returns_give. simpl.
    pose proof (merge_sort_Permutation hit_le hits) as Hperm. split_and!.
    + unfold zlen. rewrite Hperm, Heq, length_map. fold (zlen results). by rewrite El.
    + by rewrite Hperm.
    + rewrite Hperm. eapply Forall_impl; [exact Hf|]. naive_solver.
    + apply Sorted_StronglySorted; [apply _|]. apply Sorted_merge_sort; apply _.
  - intros r Hr out Ho. destruct (Hr out Ho) as (a & Ha & Hg). split; [done|].
    destruct (String.eqb _ _); [by subst|]. by destruct Hg as [-> _].
Qed.

(** a rerank's answer has exactly as many hits as were asked for (no more
    than there are candidates), for distinct candidates, with finite scores, the
    best first and equal scores in candidate order. *)
Theorem rerank_hits_ranked b key t request tr out :
  rerank_from_binding b key = Ok t → runs (cohere_rerank egress t request) tr (Ret (Ok out)) →
  zlen (re_hits out) = Z.min (default (zlen (rq_documents request)) (rq_top_k request)) (zlen (rq_documents request))
  ∧ NoDup (map (rh_index f32) (re_hits out))
  ∧ Forall (λ h, rh_index f32 h < zlen (rq_documents request) ∧ is_finite (rh_score f32 h) = true) (re_hits out)
  ∧ StronglySorted hit_le (re_hits out) ∧ re_raw_provider_response out = None.
Proof.
  intros Hb Hr.
  assert (RetrievalTransport_new b key = Ok t) as Hn by (unfold rerank_from_binding in Hb; by destruct (me_adapter (rb_model b))).
  destruct (transport_new_ok _ _ _ Hn) as (_ & Hl & Ht).
  assert (0 ≤ pl_max_request_bytes (rt_limits t)) as Hm by (rewrite Ht; simpl; lia).
  by destruct (returns_runs _ _ _ _ (rerank_returns t request Hm) Hr out eq_refl) as (? & ? & ? & ? & ?).
Qed.

End Retrieval.

(** ** A batch of embeddings and a rerank *)

Section Exchange.
#[local] Instance batch_web : Web := {| client_builds _ := true; header_value_ok _ := true; http_date _ := None |}.
#[local] Instance batch_sha : Sha256 := {| sha256 s := s |}.
#[local] Instance batch_writer : JsonWriter := {| write_calls _ := ["{"; "}"]%string |}.
#[local] Instance batch_urls : Urls := {| parse_url s := Some (mkUrl "https" (Some s) "" None None None) |}.
#[local] Instance batch_encodings : TextEncodings := {|
  json_text v := match v with VString s => quoted s | _ => "{}"%string end;
  base64 _ s := s;
  json_string_quoted s := ex_intro _ s eq_refl;
|}.
#[local] Instance batch_embedding_serde : Serde (EmbeddingResponse f32) := {|
  to_value r := Some (VObject [("raw_provider_response"%string, default VNull (em_raw_provider_response r))]);
  from_value _ := None;
|}.
#[local] Instance batch_rerank_serde : Serde (RerankResponse f32) := {| to_value _ := Some VNull; from_value _ := None |}.

Definition half : f32 := nearest_decimal 24 128 false 5 (-1).

#[local] Instance batch_wire : WireResponses := {|
  json_parse s := Some (VString s);
  decode_openai _ := None;
  decode_messages _ := None;
  decode_gemini _ := None;
  decode_gemini_batch _ := None;
  decode_compatible _ := Some (mkCompatible [mkEmbeddingItem 1 [half; half]; mkEmbeddingItem 0 [f32_one; half]] None);
  decode_ollama _ := None;
  decode_rerank _ := Some [mkRerankResult 0 half; mkRerankResult 2 f32_one];
|}.

Definition batch_account : AccountExecutionPolicy := mkAccount "standard" default_ModelQueueConfig.

Definition batch_binding (adapter : ModelAdapter) (settings : TransportSettings) : RegistryBinding :=
  mkRegistryBinding
    (mkBinding (mkBindingIdentity "t1" "acme" "r1" "a1") "m1" "https://api.acme.example" (Some "key"%string) "standard"
       None (mkLimits 1000 1000 None) settings)
    (mkModelEntry "m1" [] (mkModelIdentity (adapter_operation adapter) "acme" "m1") adapter [adapter_capability adapter]
       (mkCapabilities None false false ReasoningNone CostStandard None) None)
    batch_account.

Definition rerank_settings : TransportSettings :=
  mkSettings None None None None None (Some 1000) (Some 10) (Some 100) (Some 50) None.

Definition rank_request : RerankRequest := mkRerankRequest "q" ["a"; "b"; "c"]%string (Some 2) None None (object []).


Lemma rerank_hits_ranked_witness : ∃ t tr out,
  runs (cohere_rerank true t rank_request) tr (Ret (Ok out)) ∧ StronglySorted hit_le (re_hits out).
Proof.
  destruct (rerank_from_binding (batch_binding CohereRerank rerank_settings) "s3cret") as [t| |] eqn:Et;
    [|vm_compute in Et; discriminate Et..].
  assert (match (interp (answering "x") (cohere_rerank true t rank_request) 0).2 with Some (Ok _) => true | _ => false end
          = true) as Hc by (vm_compute in Et; injection Et as <-; vm_compute; reflexivity).
  destruct (interp (answering "x") (cohere_rerank true t rank_request) 0).2 as [[out| |]|] eqn:E; try discriminate Hc.
  exists t, (interp (answering "x") (cohere_rerank true t rank_request) 0).1.2, out.
  pose proof (interp_history _ _ _ _ E) as Hr. split; [exact Hr|].
  destruct (rerank_hits_ranked true _ _ t rank_request _ out Et Hr) as (_ & _ & _ & Hs & _). exact Hs.
Defined.

Lemma retrieval_requests_bounded_witness : ∃ t tr out body,
  runs (cohere_rerank true t rank_request) tr (Ret (Ok out))
  ∧ posts tr = [json_request (trim_end_slash "https://api.acme.example" +:+ "/rerank") body [] (bearer "s3cret")]
  ∧ byte_len body ≤ 1000.
Proof.
  destruct (rerank_from_binding (batch_binding CohereRerank rerank_settings) "s3cret") as [t| |] eqn:Et;
    [|vm_compute in Et; discriminate Et..].
  assert (match interp (answering "x") (cohere_rerank true t rank_request) 0 with
          | (_, tr, Some (Ok _)) => Nat.eqb (length (posts tr)) 1 | _ => false end
          = true) as Hc by (vm_compute in Et; injection Et as <-; vm_compute; reflexivity).
  destruct (interp (answering "x") (cohere_rerank true t rank_request) 0) as [[n tr] [[out| |]|]] eqn:E; try discriminate Hc.
  pose proof (interp_runs _ _ _ _ _ _ E) as Hr.
  destruct (proj2 (retrieval_requests_bounded true _ _ t tr) rank_request _ Et Hr)
    as [Hn|(body & top & context & Hp & Hl & _)].
  - rewrite Hn in Hc. discriminate Hc.
  - exists t, tr, out, body. split; [exact Hr|]. split; [exact Hp|exact Hl].
Defined.

End Exchange.
