(* ===== verification/Classify.v ===== *)
(** [symbiotic-model], [classify.rs]: typed questions about a JSON state, answered
    with probabilities: requests and their checks, the validation of answers
    shared by the providers, the System One protocol, and the classifier that
    asks a chat provider.

    Probabilities are binary64 floats, computed as the code computes them.  A
    [HashMap] of reported probabilities is a finite map; the JSON parser and the
    writer are the parameters of [Adapters] and [Wire]. *)

From Stdlib Require Import ZArith Lia Ascii.
From Stdlib Require Import SpecFloat.
From stdpp Require Import base gmap strings list pretty.
From S2P Require Import Prelude Text Core SpendTypes Json Trace ExecutionPolicy Responses Program.
From S2P Require Import Float64 Wire ModelRegistry Adapters ChatAdapters RetrievalAdapters.

#[local] Open Scope Z_scope.

Definition JEV_MAX_CHOICE_OPTIONS : Z := 255.
Definition JEV_MAX_SCORE_LEVELS : Z := 10.
Definition JEV_MAX_STATE_AND_LONGEST_QUESTION_TOKENS : Z := 32000.
Definition JEV_MAX_REQUEST_TOKENS : Z := 64000.
Definition JEV_TEMPLATE_RESERVE_TOKENS : Z := 512.
Definition PROBABILITY_EPSILON : f64 := f64_of_decimal 1 (-6).
Definition REPORTED_SUM_TOLERANCE : f64 := f64_of_decimal 2 (-2).
Definition TIE_EPSILON : f64 := f64_of_decimal 1 (-9).
Definition SCORE_TOLERANCE_LEVELS : f64 := f64_of_decimal 5 (-1).
Definition f64_one : f64 := f64_of_Z 1.

(** ** Requests *)

Record ChoiceOption : Type := mkOption { co_id : string; co_criterion : string }.

Inductive QuestionKind : Type :=
| Noul (when_true when_false : option string)
| Choice (options : list ChoiceOption)
| Score (levels : list string).

Definition kind_label (k : QuestionKind) : string :=
  match k with Noul _ _ => "noul" | Choice _ => "choice" | Score _ => "score" end.

Record ClassifierQuestion : Type := mkQuestion {
  qn_id : string;
  qn_instructions : string;
  qn_kind : QuestionKind;
}.

Record ClassifyRequest : Type := mkClassifyRequest {
  cy_state : list (string * Value);
  cy_questions : list ClassifierQuestion;
  cy_state_description : option string;
  cy_role_binding : option string;
  cy_source : option string;
  cy_metadata : Value;
}.

(** Some option id is empty or was seen before. *)
Fixpoint options_clash (seen : gset string) (options : list ChoiceOption) : bool :=
  match options with
  | [] => false
  | o :: options =>
      String.eqb (co_id o) "" || bool_decide (co_id o ∈ seen) || options_clash ({[co_id o]} ∪ seen) options
  end.

Definition kind_refused (k : QuestionKind) : bool :=
  match k with
  | Noul _ _ => false
  | Choice options => bool_decide (options = []) || options_clash ∅ options
  | Score levels => zlen levels <? 2
  end.

Fixpoint validate_questions (ids : gset string) (questions : list ClassifierQuestion) : result ModelError unit :=
  match questions with
  | [] => Ok tt
  | q :: questions =>
      if String.eqb (qn_id q) "" || bool_decide (qn_id q ∈ ids) then Err invalid
      else if kind_refused (qn_kind q) then Err invalid
      else validate_questions ({[qn_id q]} ∪ ids) questions
  end.

(** [ClassifyRequest::validate]. *)
Definition classify_validate (r : ClassifyRequest) : result ModelError unit :=
  if bool_decide (cy_questions r = []) then Err (InvalidRequest AClassifyRequestNeedsAtLeastOneQuestion)
  else validate_questions ∅ (cy_questions r).

(** ** Answers *)

Record OptionProbability : Type := mkProbability { pr_id : string; pr_probability : f64 }.

Inductive AnswerValue : Type :=
| NoulAnswer (probability : f64)
| ChoiceAnswer (chosen : string) (probabilities : list OptionProbability) (confidence : option f64)
| ScoreAnswer (value : f64) (probabilities : list f64) (confidence : option f64).

Record ClassifierAnswer : Type := mkAnswer { an_question_id : string; an_value : AnswerValue }.

Fixpoint most_probable_from (best : option OptionProbability) (probabilities : list OptionProbability) :
    option OptionProbability :=
  match probabilities with
  | [] => best
  | entry :: probabilities =>
      most_probable_from
        match best with
        | Some b => if f64_lt (pr_probability b) (pr_probability entry) then Some entry else best
        | None => Some entry
        end probabilities
  end.

Definition most_probable (probabilities : list OptionProbability) : string :=
  match most_probable_from None probabilities with Some entry => pr_id entry | None => EmptyString end.

Definition expected_level (probabilities : list f64) : f64 :=
  f64_sum (imap (λ level p, f64_mul (f64_of_Z (Z.of_nat level)) p) probabilities).

(** The builders of answers. *)
Definition answer_noul (id : string) (probability : f64) : ClassifierAnswer := mkAnswer id (NoulAnswer probability).
Definition answer_choice (id : string) (pairs : list (string * f64)) : ClassifierAnswer :=
  let probabilities := map (λ p, mkProbability p.1 p.2) pairs in
  mkAnswer id (ChoiceAnswer (most_probable probabilities) probabilities None).
Definition answer_score (id : string) (probabilities : list f64) : ClassifierAnswer :=
  mkAnswer id (ScoreAnswer (expected_level probabilities) probabilities None).

Record ClassifyResponse : Type := mkClassifyResponse {
  cl_answers : list ClassifierAnswer;
  cl_served_model : string;
  cl_trace : ModelInvocationTrace;
  cl_raw_provider_response : option Value;
}.

#[export] Instance classify_carrier : TraceCarrier ClassifyResponse := {|
  trace_of := cl_trace;
  set_trace t r := mkClassifyResponse (cl_answers r) (cl_served_model r) t (cl_raw_provider_response r);
  trace_set t r := eq_refl;
|}.

#[export] Instance classify_response : CredentialResponse ClassifyResponse := {|
  discard_raw r := mkClassifyResponse (cl_answers r) (cl_served_model r) (cl_trace r) None;
  normalize_finish_reason r := r;
|}.

Definition answer_of (r : ClassifyResponse) (question_id : string) : option AnswerValue :=
  an_value <$> find (λ a, String.eqb (an_question_id a) question_id) (cl_answers r).

Definition response_noul (r : ClassifyResponse) (question_id : string) : option f64 :=
  match answer_of r question_id with Some (NoulAnswer p) => Some p | _ => None end.

Definition response_chosen (r : ClassifyResponse) (question_id : string) : option string :=
  match answer_of r question_id with Some (ChoiceAnswer chosen _ _) => Some chosen | _ => None end.

Definition option_probability (probabilities : list OptionProbability) (id : string) : option f64 :=
  pr_probability <$> find (λ e, String.eqb (pr_id e) id) probabilities.

Definition choice_probability (r : ClassifyResponse) (question_id option_id : string) : option f64 :=
  match answer_of r question_id with
  | Some (ChoiceAnswer _ probabilities _) => option_probability probabilities option_id
  | _ => None
  end.

Definition response_score (r : ClassifyResponse) (question_id : string) : option f64 :=
  match answer_of r question_id with Some (ScoreAnswer value _ _) => Some value | _ => None end.

Definition noul_at_least (r : ClassifyResponse) (question_id : string) (threshold : f64) : option bool :=
  (λ p, f64_le threshold p) <$> response_noul r question_id.

Inductive ChoiceDecision : Type :=
| Selected (option_ : string) (probability : f64)
| Abstained.

(** More probable than [other], or tied with it and the provider's choice. *)
Definition beats (chosen : string) (entry : OptionProbability) (other : f64) : bool :=
  f64_lt (f64_add other TIE_EPSILON) (pr_probability entry)
  || f64_le (SFabs (f64_sub (pr_probability entry) other)) TIE_EPSILON && String.eqb (pr_id entry) chosen.

Definition best_entry (chosen : string) (entries : list OptionProbability) : option OptionProbability :=
  foldl (λ best entry, match best with
                       | Some b => if negb (beats chosen entry (pr_probability b)) then Some b else Some entry
                       | None => Some entry
                       end) None entries.

(** The entries that are not the abstain option. *)
Definition candidates (abstain_option : option string) (probabilities : list OptionProbability) :
    list OptionProbability :=
  select_where (λ e, negb (bool_decide (Some (pr_id e) = abstain_option))) probabilities.

Definition decide_choice (r : ClassifyResponse) (question_id : string) (abstain_option : option string)
    (min_probability : f64) : option ChoiceDecision :=
  match answer_of r question_id with
  | Some (ChoiceAnswer chosen probabilities _) =>
      let abstain := (λ a, default f64_zero (option_probability probabilities a)) <$> abstain_option in
      Some match best_entry chosen (candidates abstain_option probabilities) with
           | Some best =>
               if f64_le min_probability (pr_probability best)
                  && match abstain with Some a => beats chosen best a | None => true end
               then Selected (pr_id best) (pr_probability best) else Abstained
           | None => Abstained
           end
  | _ => None
  end.

(** ** Validation shared by the providers *)

Definition provider_failure : ModelError := Provider ProviderFailure.

Definition check_probability (value : f64) : result ModelError f64 :=
  if is_finite value && f64_within (SFopp PROBABILITY_EPSILON) (f64_add f64_one PROBABILITY_EPSILON) value
  then Ok (f64_clamp f64_zero f64_one value) else Err provider_failure.

Definition normalise_distribution (values : list f64) (max_sum_error : option f64) : result ModelError (list f64) :=
  let total := f64_sum values in
  if f64_le total PROBABILITY_EPSILON then Err provider_failure
  else if match max_sum_error with
          | Some max_error => f64_lt max_error (SFabs (f64_sub total f64_one))
          | None => false
          end
  then Err provider_failure
  else Ok (map (λ value, f64_div value total) values).

(** The reported value of each key, taken out of the report. *)
Fixpoint take_reported (keys : list string) (reported : gmap string f64) :
    result ModelError (list f64 * gmap string f64) :=
  match keys with
  | [] => Ok ([], reported)
  | key :: keys =>
      let? value := ok_or (reported !! key) provider_failure in
      let? p := check_probability value in
      let? '(ps, rest) := take_reported keys (delete key reported) in
      Ok (p :: ps, rest)
  end.

(** The probabilities of exactly the given keys, rescaled. *)
Definition reported_distribution (keys : list string) (reported : gmap string f64) (max_sum_error : option f64) :
    result ModelError (list f64) :=
  let? '(values, extra) := take_reported keys reported in
  if negb (bool_decide (extra = ∅)) then Err provider_failure
  else normalise_distribution values max_sum_error.

Definition choice_probabilities (options : list ChoiceOption) (reported : gmap string f64)
    (max_sum_error : option f64) : result ModelError (list OptionProbability) :=
  let? values := reported_distribution (map co_id options) reported max_sum_error in
  Ok (zip_with (λ o v, mkProbability (co_id o) v) options values).

(** [level.to_string()]. *)
Definition level_key (level : nat) : string := pretty (N.of_nat level).

Definition score_probabilities (level_count : nat) (reported : gmap string f64) (max_sum_error : option f64) :
    result ModelError (list f64) :=
  reported_distribution (map level_key (seq 0 level_count)) reported max_sum_error.

Definition in_range (value : f64) : bool := is_finite value && f64_within f64_zero f64_one value.

Definition sums_to_one (values : list f64) : bool :=
  f64_le (SFabs (f64_sub (f64_sum values) f64_one)) PROBABILITY_EPSILON.

Definition confidence_ok (confidence : option f64) : bool :=
  match confidence with Some value => in_range value | None => true end.

Definition value_ok (k : QuestionKind) (v : AnswerValue) : bool :=
  match k, v with
  | Noul _ _, NoulAnswer p => in_range p
  | Choice options, ChoiceAnswer chosen probabilities confidence =>
      bool_decide (map pr_id probabilities = map co_id options)
      && forallb (λ e, in_range (pr_probability e)) probabilities
      && sums_to_one (map pr_probability probabilities)
      && (let max := foldl f64_max f64_zero (map pr_probability probabilities) in
          existsb (λ e, String.eqb (pr_id e) chosen && f64_le (f64_sub max TIE_EPSILON) (pr_probability e)) probabilities)
      && confidence_ok confidence
  | Score levels, ScoreAnswer value probabilities confidence =>
      (zlen probabilities =? zlen levels) && forallb in_range probabilities && sums_to_one probabilities
      && is_finite value
      && negb (f64_lt PROBABILITY_EPSILON (SFabs (f64_sub value (expected_level probabilities))))
      && confidence_ok confidence
  | _, _ => false
  end.

Fixpoint validate_each (questions : list ClassifierQuestion) (answers : list ClassifierAnswer) : result ModelError unit :=
  match questions, answers with
  | q :: questions, a :: answers =>
      if negb (String.eqb (an_question_id a) (qn_id q)) then Err provider_failure
      else if negb (value_ok (qn_kind q) (an_value a)) then Err provider_failure
      else validate_each questions answers
  | _, _ => Ok tt
  end.

Definition validate_answers (r : ClassifyRequest) (answers : list ClassifierAnswer) : result ModelError unit :=
  if negb (zlen answers =? zlen (cy_questions r)) then Err provider_failure
  else validate_each (cy_questions r) answers.

(** [number_map]: an object of numbers. *)
Fixpoint read_numbers (fields : list (string * Value)) : result ModelError (gmap string f64) :=
  match fields with
  | [] => Ok ∅
  | (key, value) :: fields =>
      let? number := ok_or (as_f64 value) provider_failure in
      let? rest := read_numbers fields in
      Ok (<[key := number]> rest)
  end.

Definition number_map (raw : Value) : result ModelError (gmap string f64) :=
  match raw with VObject fields => read_numbers fields | _ => Err provider_failure end.

(** ** System One: limits and encoding *)

(** [a - b] of unsigned integers. *)
Definition sub_u64 (a b : Z) : result ModelError Z := if a <? b then Panic else Ok (a - b).

Definition question_wire (q : ClassifierQuestion) : Wire :=
  WMap ([("type", WString (kind_label (qn_kind q))); ("instructions", WString (qn_instructions q))]%string
        ++ match qn_kind q with
           | Noul when_true when_false =>
               if is_some when_true || is_some when_false
               then [("criteria"%string, WMap (skip_none "true" WString when_true ++ skip_none "false" WString when_false))]
               else []
           | Choice options => [("criteria"%string, WMap (map (λ o, (co_id o, WString (co_criterion o))) options))]
           | Score levels => [("criteria"%string, WArray (map WString levels))]
           end).

Definition jev_wire (model : string) (r : ClassifyRequest) : Wire :=
  WMap [("model", WString model); ("state", WValue (VObject (cy_state r)));
        ("questions", WMap (map (λ q, (qn_id q, question_wire q)) (cy_questions r)))]%string.

Definition too_many (q : ClassifierQuestion) : bool :=
  match qn_kind q with
  | Choice options => JEV_MAX_CHOICE_OPTIONS <? zlen options
  | Score levels => JEV_MAX_SCORE_LEVELS <? zlen levels
  | Noul _ _ => false
  end.

Definition pair_budget : Z := JEV_MAX_STATE_AND_LONGEST_QUESTION_TOKENS - JEV_TEMPLATE_RESERVE_TOKENS.
Definition total_budget : Z := JEV_MAX_REQUEST_TOKENS - JEV_TEMPLATE_RESERVE_TOKENS.

Section Jev.
Context `{!JsonWriter}.

Fixpoint count_questions (state all : Z) (questions : list ClassifierQuestion) : result ModelError unit :=
  match questions with
  | [] => Ok tt
  | q :: questions =>
      let? both := sub_u64 pair_budget state in
      let? rest := sub_u64 total_budget state in
      let? rest := sub_u64 rest all in
      let? n := map_err (λ _, invalid) (encoded_len (question_wire q) (Z.min both rest)) in
      count_questions state (all + n) questions
  end.

Definition check_limits (r : ClassifyRequest) : result ModelError unit :=
  if existsb too_many (cy_questions r) then Err invalid
  else
    let? state := map_err (λ _, invalid) (encoded_len (WValue (VObject (cy_state r))) pair_budget) in
    count_questions state 0 (cy_questions r).

Definition jev_classify_body (model : string) (r : ClassifyRequest) (max_bytes : option Z) : result ModelError string :=
  let? _ := if bool_decide (cy_questions r = []) then classify_validate r else Ok tt in
  let? _ := check_limits r in
  let? body := match max_bytes with
               | Some max => let? b := encode (jev_wire model r) (Some max) in Ok (Some b)
               | None => Ok None
               end in
  let? _ := classify_validate r in
  match body with
  | Some body => Ok body
  | None => encode (jev_wire model r) None
  end.

End Jev.

(** ** System One: answers *)

Fixpoint value_contains (identity : string) (v : Value) : bool :=
  match v with
  | VString text => contains_str identity text
  | VArray values => existsb (value_contains identity) values
  | VObject fields => existsb (λ f : string * Value, contains_str identity f.1 || value_contains identity f.2) fields
  | _ => false
  end.

Definition contained (identity : string) (o : option string) : bool :=
  match o with Some text => contains_str identity text | None => false end.

Definition jev_request_contains_identity (r : ClassifyRequest) (identity : string) : bool :=
  existsb (λ f : string * Value, contains_str identity f.1 || value_contains identity f.2) (cy_state r)
  || existsb (λ q, contains_str identity (qn_id q) || contains_str identity (qn_instructions q)
                   || match qn_kind q with
                      | Noul when_true when_false => contained identity when_true || contained identity when_false
                      | Choice options =>
                          existsb (λ o, contains_str identity (co_id o) || contains_str identity (co_criterion o)) options
                      | Score levels => existsb (contains_str identity) levels
                      end) (cy_questions r).

(** A number of an answer. *)
Definition answer_number (answer : list (string * Value)) (name : string) : result ModelError f64 :=
  ok_or (field name answer ≫= as_f64) provider_failure.

Definition answer_confidence (answer : list (string * Value)) : result ModelError (option f64) :=
  match field "confidence" answer with
  | None | Some VNull => Ok None
  | Some _ =>
      let? n := answer_number answer "confidence" in
      let? p := check_probability n in
      Ok (Some p)
  end.

Definition answer_distribution (answer : list (string * Value)) : result ModelError (gmap string f64) :=
  let? raw := ok_or (field "probabilities" answer) provider_failure in
  number_map raw.

Definition parse_value (k : QuestionKind) (answer : list (string * Value)) (confidence : option f64) :
    result ModelError AnswerValue :=
  match k with
  | Noul _ _ =>
      let? n := answer_number answer "noul" in
      let? p := check_probability n in
      Ok (NoulAnswer p)
  | Choice options =>
      let? chosen := ok_or (field "choice" answer ≫= as_str) provider_failure in
      if negb (existsb (λ o, String.eqb (co_id o) chosen) options) then Err provider_failure
      else
        let? reported := answer_distribution answer in
        let? probabilities := choice_probabilities options reported (Some REPORTED_SUM_TOLERANCE) in
        Ok (ChoiceAnswer chosen probabilities confidence)
  | Score levels =>
      let? reported := answer_distribution answer in
      let? probabilities := score_probabilities (length levels) reported (Some REPORTED_SUM_TOLERANCE) in
      let value := expected_level probabilities in
      let? reported := answer_number answer "score" in
      let? top := sub_u64 (zlen levels) 1 in
      if negb (f64_within f64_zero (f64_of_Z top) reported)
         || f64_lt SCORE_TOLERANCE_LEVELS (SFabs (f64_sub reported value))
      then Err provider_failure
      else Ok (ScoreAnswer value probabilities confidence)
  end.

Definition parse_answer (answers : list (string * Value)) (q : ClassifierQuestion) : result ModelError ClassifierAnswer :=
  let? raw := ok_or (field (qn_id q) answers) provider_failure in
  match raw with
  | VObject answer =>
      let kind := default EmptyString (field "type" answer ≫= as_str) in
      if negb (String.eqb kind (kind_label (qn_kind q))) then Err provider_failure
      else
        let? confidence := answer_confidence answer in
        let? value := parse_value (qn_kind q) answer confidence in
        Ok (mkAnswer (qn_id q) value)
  | _ => Err provider_failure
  end.

Definition parse_answers (r : ClassifyRequest) (answers : list (string * Value)) :
    result ModelError (list ClassifierAnswer) :=
  let? parsed := collect (parse_answer answers) (cy_questions r) in
  if existsb (λ f : string * Value, negb (existsb (λ q, String.eqb (qn_id q) f.1) (cy_questions r))) answers
  then Err provider_failure
  else
    let? _ := validate_answers r parsed in
    Ok parsed.

(** ** Asking a chat provider *)

Definition count_word (count : Z) : string :=
  match ["zero"; "one"; "two"; "three"; "four"; "five"; "six"; "seven"; "eight"; "nine"; "ten"]%string !! Z.to_nat count with
  | Some word => word
  | None => pretty (Z.to_N count)
  end.

Section Prompt.
Context `{!TextEncodings}.

Definition quoted_text (text : string) : string := json_text (VString text).

Definition newline_text : string := String newline EmptyString.

Definition render_question (q : ClassifierQuestion) : string :=
  let id := quoted_text (qn_id q) in
  let lines := join newline_text in
  match qn_kind q with
  | Noul when_true when_false =>
      ("Question " +:+ id +:+ " (give the probability from 0 to 1 that the answer is yes). " +:+ qn_instructions q)
      +:+ match when_true with Some yes => newline_text +:+ "Yes means: " +:+ yes | None => "" end
      +:+ match when_false with Some no => newline_text +:+ "No means: " +:+ no | None => "" end
  | Choice options =>
      "Question " +:+ id +:+ " (give a probability for each option; they sum to 1). " +:+ qn_instructions q
      +:+ newline_text +:+ "Options:" +:+ newline_text
      +:+ lines (map (λ o, "- " +:+ co_id o +:+ ": " +:+ co_criterion o) options)
  | Score levels =>
      "Question " +:+ id +:+ " (give a probability for each level; they sum to 1). " +:+ qn_instructions q
      +:+ newline_text +:+ "Levels:" +:+ newline_text
      +:+ lines (imap (λ i level, "- " +:+ level_key i +:+ ": " +:+ level) levels)
  end%string.

Definition keyed_slots (keys : list string) : string :=
  ("{" +:+ join ", " (map (λ key, quoted_text key +:+ ": <p>") keys) +:+ "}")%string.

Definition reply_slot (q : ClassifierQuestion) : string :=
  match qn_kind q with
  | Noul _ _ => "<p>"
  | Choice options => keyed_slots (map co_id options)
  | Score levels => keyed_slots (map level_key (seq 0 (length levels)))
  end.

Definition render_system_prompt (r : ClassifyRequest) : string :=
  let count := zlen (cy_questions r) in
  let subject := default "the JSON object in the user turn."%string (cy_state_description r) in
  let opening := if count =? 1 then "You answer one question about " +:+ subject
                 else "You answer " +:+ count_word count +:+ " independent questions about " +:+ subject in
  let blocks := map render_question (cy_questions r) in
  let shape := map (λ q, quoted_text (qn_id q) +:+ ": " +:+ reply_slot q) (cy_questions r) in
  (opening +:+ newline_text +:+ newline_text +:+ join (newline_text +:+ newline_text) blocks
   +:+ newline_text +:+ newline_text +:+ "Reply with only this JSON object: {" +:+ join ", " shape +:+ "}")%string.

Definition render_user_message (r : ClassifyRequest) : string := json_text (VObject (cy_state r)).

End Prompt.

Definition reply_value (k : QuestionKind) (raw : Value) : result ModelError AnswerValue :=
  match k with
  | Noul _ _ =>
      let? n := ok_or (as_f64 raw) provider_failure in
      let? p := check_probability n in
      Ok (NoulAnswer p)
  | Choice options =>
      let? reported := number_map raw in
      let? probabilities := choice_probabilities options reported None in
      Ok (ChoiceAnswer (most_probable probabilities) probabilities None)
  | Score levels =>
      let? reported := number_map raw in
      let? probabilities := score_probabilities (length levels) reported None in
      Ok (ScoreAnswer (expected_level probabilities) probabilities None)
  end.

(** The answers in request order, each taken out of the reply's object. *)
Fixpoint take_answers (questions : list ClassifierQuestion) (reply : list (string * Value)) :
    result ModelError (list ClassifierAnswer * list (string * Value)) :=
  match questions with
  | [] => Ok ([], reply)
  | q :: questions =>
      let? raw := ok_or (field (qn_id q) reply) provider_failure in
      let? value := reply_value (qn_kind q) raw in
      let? '(answers, rest) := take_answers questions (remove_field (qn_id q) reply) in
      Ok (mkAnswer (qn_id q) value :: answers, rest)
  end.

(** [s.trim_end()]: up to the suffix that is blank. *)
Fixpoint trim_end (s : string) : string :=
  if blank s then EmptyString
  else match s with String a s => String a (trim_end s) | EmptyString => EmptyString end.

Definition trimmed (s : string) : string := trim_end (trim_start s).

Definition parse_reply `{!WireResponses} (r : ClassifyRequest) (reply : string) :
    result ModelError (list ClassifierAnswer) :=
  let? value := ok_or (json_parse (trimmed reply)) provider_failure in
  match value with
  | VObject fields =>
      let? '(answers, rest) := take_answers (cy_questions r) fields in
      if negb (bool_decide (rest = [])) then Err provider_failure
      else
        let? _ := validate_answers r answers in
        Ok answers
  | _ => Err provider_failure
  end.
