(* ===== verification/Classifiers.v ===== *)
(** [symbiotic-model], [classify.rs]: the classifier providers, as programs of the
    calls they make: System One over HTTP, any chat provider, and scripted
    answers. *)

From Stdlib Require Import ZArith Lia Ascii.
From Stdlib Require Import SpecFloat.
From stdpp Require Import base gmap strings list pretty.
From S2P Require Import Prelude Text Core SpendTypes Json Trace ExecutionPolicy Responses Program.
From S2P Require Import Float64 Wire ModelRegistry Adapters ChatAdapters RetrievalAdapters Classify.

#[local] Open Scope Z_scope.

Definition TYPESAFE_BASE_URL : string := "https://api.typesafe.ai/v1".
Definition JEV_DEFAULT_MODEL : string := "jev-1.13.0".

(** [ClassifyRequest] as it is hashed: a question's kind lies beside its id. *)
Definition hashed_question (q : ClassifierQuestion) : Wire :=
  WMap ([("id", WString (qn_id q)); ("instructions", WString (qn_instructions q));
         ("type", WString (kind_label (qn_kind q)))]%string
        ++ match qn_kind q with
           | Noul when_true when_false =>
               skip_none "when_true" WString when_true ++ skip_none "when_false" WString when_false
           | Choice options =>
               [("options"%string,
                 WArray (map (λ o, WMap [("id", WString (co_id o)); ("criterion", WString (co_criterion o))]%string) options))]
           | Score levels => [("levels"%string, WArray (map WString levels))]
           end).

Definition classify_request_wire (r : ClassifyRequest) : Wire :=
  WMap ([("state", WValue (VObject (cy_state r))); ("questions", WArray (map hashed_question (cy_questions r)))]%string
        ++ skip_none "state_description" WString (cy_state_description r)
        ++ [("role_binding", opt_wire WString (cy_role_binding r)); ("source", opt_wire WString (cy_source r));
            ("metadata", WValue (cy_metadata r))]%string).

Definition set_timing (f : TimingTrace → TimingTrace) (t : ModelInvocationTrace) : ModelInvocationTrace :=
  mkTrace (it_trace_id t) (it_queue_item_id t) (it_model t) (it_role_binding t) (it_source t) (it_request_hash t)
    (it_response_hash t) (it_cache t) (it_usage t) (f (it_timing t)) (it_outcome t) (it_error_class t)
    (it_audit_refs t) (it_metadata t) (it_timestamp t).

Definition set_provider_ms (ms : option Z) (t : TimingTrace) : TimingTrace :=
  mkTimingTrace (tt_queued_ms t) ms (tt_total_ms t) (tt_queue_wait_ms t) (tt_throttle_wait_ms t).

(** The whole milliseconds between two readings of the monotonic clock. *)
Definition elapsed_since (started now : Z) : Z := Z.max 0 (now - started) / 1000000.

Inductive ResolvedAuth : Type :=
| ResolvedNone
| ResolvedBearer (secret : string)
| ResolvedApiKey (secret : string)
| ResolvedHeaders (headers : list (string * string))
| LocalSession (tool account : string).

Record JevClassifierProvider : Type := mkJev {
  jv_descriptor : ProviderDescriptor;
  jv_client : HttpClient;
  jv_base_url : string;
  jv_api_key : string;
  jv_max_request_bytes : option Z;
  jv_max_response_bytes : option Z;
  jv_served_model : string;
}.

(** A classifier over a chat provider: the provider's own answers to what the
    runtime asks, and its [chat]. *)
Record ChatClassifierProvider : Type := mkChatClassifier {
  cc_descriptor : ProviderDescriptor;
  cc_provider : ModelProvider;
  cc_chat : ChatRequest → Web_prog ChatResponse;
  cc_max_output_tokens : option Z;
}.

Section Classifiers.
Context `{!Web, !Sha256, !WireResponses, !JsonWriter, !TextEncodings, !Urls, !Serde ClassifyResponse} (egress : bool).

Definition classify_trace (d : ProviderDescriptor) (r : ClassifyRequest) (response_text : string) (started : Z) :
    prog WebAns ModelInvocationTrace :=
  let* trace := success_trace d (cy_role_binding r) (cy_source r) (hash_json (classify_request_wire r))
                  (Some response_text) in
  let* now := web InstantNow in
  Ret (set_timing (set_provider_ms (Some (elapsed_since started now))) trace).

(** ** System One *)

Definition jv_with_request_limit (max_bytes : Z) (p : JevClassifierProvider) : JevClassifierProvider :=
  mkJev (index_set "max_request_bytes" (number max_bytes) (jv_descriptor p)) (jv_client p) (jv_base_url p) (jv_api_key p)
    (Some max_bytes) (jv_max_response_bytes p) (jv_served_model p).

Definition jv_with_response_limit (max_bytes : Z) (p : JevClassifierProvider) : JevClassifierProvider :=
  mkJev (index_set "max_response_bytes" (number max_bytes) (jv_descriptor p)) (jv_client p) (jv_base_url p) (jv_api_key p)
    (jv_max_request_bytes p) (Some max_bytes) (jv_served_model p).

Definition jv_with_timeout (timeout_seconds : Z) (p : JevClassifierProvider) : result ModelError JevClassifierProvider :=
  let? client := http_client (Some timeout_seconds) in
  Ok (mkJev (jv_descriptor p) client (jv_base_url p) (jv_api_key p) (jv_max_request_bytes p) (jv_max_response_bytes p)
        (jv_served_model p)).

Definition jv_with_served_model (served_model : string) (p : JevClassifierProvider) : JevClassifierProvider :=
  mkJev (index_set "served_model" (VString served_model) (jv_descriptor p)) (jv_client p) (jv_base_url p) (jv_api_key p)
    (jv_max_request_bytes p) (jv_max_response_bytes p) served_model.

Definition Jev_new (operator model base_url api_key : string) : JevClassifierProvider :=
  jv_with_response_limit DEFAULT_MAX_RESPONSE_BYTES
    (jv_with_request_limit DEFAULT_MAX_REQUEST_BYTES
       (mkJev
          (mkDescriptor (mkModelIdentity "classify" operator model) CloudProvider [Classify] (ApiKey "runtime")
             (object [("wire", VString "systemone"); ("served_model", VString model);
                      ("endpoint", shown_endpoint base_url)]%string))
          default_client base_url api_key None None model)).

Definition Jev_typesafe (api_key : string) : JevClassifierProvider :=
  Jev_new "typesafe" JEV_DEFAULT_MODEL TYPESAFE_BASE_URL api_key.

(** [from_resolver], given the resolver's answer. *)
Definition Jev_from_resolver (resolved : result ModelError ResolvedAuth) (auth_mode : ProviderAuthMode)
    (operator model base_url : string) : result ModelError JevClassifierProvider :=
  let? auth := resolved in
  let? key := match auth with
              | ResolvedBearer key | ResolvedApiKey key => if blank key then Err (Auth SystemOneNeedsABearerApiKey) else Ok key
              | _ => Err (Auth SystemOneNeedsABearerApiKey)
              end in
  let p := Jev_new operator model base_url key in
  let d := jv_descriptor p in
  Ok (mkJev (mkDescriptor (pd_identity d) (pd_provider_class d) (pd_capabilities d) auth_mode (pd_metadata d))
        (jv_client p) (jv_base_url p) (jv_api_key p) (jv_max_request_bytes p) (jv_max_response_bytes p)
        (jv_served_model p)).

Definition jv_validate_configuration (p : JevClassifierProvider) : result ModelError unit :=
  let? _ := validate_endpoint (jv_base_url p) in
  let? _ := get_client (jv_client p) in
  let? _ := required_byte_limit (jv_max_request_bytes p) in
  let? _ := required_byte_limit (jv_max_response_bytes p) in
  Ok tt.

Definition jv_provider (p : JevClassifierProvider) : ModelProvider :=
  mkProvider (jv_descriptor p) failure_charge (jv_validate_configuration p) (api_key_fingerprint (jv_api_key p))
    (Some (jv_api_key p)).

(** A cache counter that is there must be a count, where it is observed. *)
Definition cache_counter (raw : Value) (name : string) : result ModelError (option Z) :=
  match pointer ["usage"%string; name] raw with
  | None => Ok None
  | Some v =>
      match as_u64 v with
      | Some count => Ok (Some count)
      | None => if egress then Err (Provider InvalidResponse) else Ok None
      end
  end.

Definition jev_metadata (raw : Value) (served_model : string) (cost : option string) : Value :=
  object [("provider"%string,
           object [("response_id", raw_string raw "id"); ("served_model", VString served_model);
                   ("reported_cost_usd", opt_value VString cost)]%string)].

(** The answer of a parsed response. *)
Definition jev_answer (p : JevClassifierProvider) (r : ClassifyRequest) (started : Z) (raw : Value) (text : string) :
    Web_prog ClassifyResponse :=
  let! served := lifted (ok_or (get "model" raw ≫= as_str) provider_failure) in
  if negb (String.eqb served (jv_served_model p)) then refuse provider_failure
  else
    let! fields := lifted (ok_or (match get "answers" raw with Some (VObject fields) => Some fields | _ => None end)
                             provider_failure) in
    let! answers := lifted (parse_answers r fields) in
    let* trace := classify_trace (jv_descriptor p) r text started in
    let usage name := pointer ["usage"%string; name] raw ≫= as_u64 in
    let cost := reported_cost raw in
    let! hits := lifted (cache_counter raw "cache_hit_tokens") in
    let! misses := lifted (cache_counter raw "cache_miss_tokens") in
    let! '(hit, miss) := lifted (observed_prompt_cache_counts egress (usage "input_tokens"%string) hits misses None) in
    let u := mkUsageTrace hit miss None None None (usage "input_tokens"%string) (usage "output_tokens"%string)
               None None None cost in
    let trace := set_metadata (jev_metadata raw served cost) (set_usage u trace) in
    let trace := provider_usage_identity trace raw (jev_request_contains_identity r) in
    give (mkClassifyResponse answers served trace (Some raw)).

Definition jev_classify (p : JevClassifierProvider) (r : ClassifyRequest) : Web_prog ClassifyResponse :=
  behind (jv_api_key p)
    (let! _ := lifted (jv_validate_configuration p) in
     let! body := lifted (jev_classify_body (mi_model (pd_identity (jv_descriptor p))) r (jv_max_request_bytes p)) in
     let* started := web InstantNow in
     let! _ := lifted (get_client (jv_client p)) in
     let! '(raw, text) := provider_response_json egress
                            (json_request (trim_end_slash (jv_base_url p) +:+ "/systemone") body []
                               (bearer (jv_api_key p)))
                            (jv_max_response_bytes p) Provider in
     jev_answer p r started raw text).

(** ** Any chat provider *)

Definition ChatClassifier_new (provider : ModelProvider) (inner : Value) (chat : ChatRequest → Web_prog ChatResponse) :
    ChatClassifierProvider :=
  let d := mp_descriptor provider in
  mkChatClassifier
    (mkDescriptor (mkModelIdentity "classify" (mi_operator (pd_identity d)) (mi_model (pd_identity d)))
       (pd_provider_class d) [Classify] (pd_auth_mode d)
       (object [("wire", VString "chat-json"); ("chat", inner)]%string))
    provider chat None.

Definition cc_with_max_output_tokens (n : Z) (c : ChatClassifierProvider) : ChatClassifierProvider :=
  mkChatClassifier (index_set "max_output_tokens" (number n) (cc_descriptor c)) (cc_provider c) (cc_chat c) (Some n).

(** The classifier as a provider: its own descriptor, and the chat provider's
    configuration and credential. *)
Definition classifier_provider (c : ChatClassifierProvider) : ModelProvider :=
  mkProvider (cc_descriptor c) failure_charge (mp_validate_configuration (cc_provider c))
    (mp_credential_fingerprint (cc_provider c)) (mp_credential_boundary (cc_provider c)).

Definition classifier_chat_request (c : ChatClassifierProvider) (r : ClassifyRequest) : ChatRequest :=
  mkChatRequest [mkChatMessage "system" (render_system_prompt r); mkChatMessage "user" (render_user_message r)]
    (cc_max_output_tokens c) (Some (S754_zero false)) (Some "json_object"%string) (cy_role_binding r) (cy_source r)
    (cy_metadata r).

Definition chat_classify (c : ChatClassifierProvider) (r : ClassifyRequest) : Web_prog ClassifyResponse :=
  let* result_ :=
    (let! _ := lifted (classify_validate r) in
     let* started := web InstantNow in
     let! response := cc_chat c (classifier_chat_request c r) in
     let! answers := lifted (parse_reply r (ch_text response)) in
     let served := default (mi_model (pd_identity (cc_descriptor c)))
                     (pointer ["provider"; "served_model"]%string (it_metadata (ch_trace response)) ≫= as_str) in
     let t := ch_trace response in
     let* now := web InstantNow in
     let ms := default (elapsed_since started now) (tt_provider_ms (it_timing t)) in
     let t := mkTrace (it_trace_id t) (it_queue_item_id t) (pd_identity (cc_descriptor c)) (it_role_binding t) (it_source t)
                (hash_json (classify_request_wire r)) (it_response_hash t) (it_cache t) (it_usage t)
                (set_provider_ms (Some ms) (it_timing t)) (it_outcome t) (it_error_class t) (it_audit_refs t)
                (it_metadata t) (it_timestamp t) in
     give (mkClassifyResponse answers served t (ch_raw_provider_response response))) in
  lifted (composed_result (classifier_provider c) result_).

(** ** Scripted answers *)

Definition static_classifier_descriptor : ProviderDescriptor :=
  mkDescriptor (mkModelIdentity "classify" "static" "static-classifier-v1") LocalProvider [Classify] AuthNone (object []).

Definition static_answers (scripted : list ClassifierAnswer) (r : ClassifyRequest) :
    result ModelError (list ClassifierAnswer) :=
  let? answers := collect (λ q, ok_or (find (λ a, String.eqb (an_question_id a) (qn_id q)) scripted) provider_failure)
                    (cy_questions r) in
  let? _ := validate_answers r answers in
  Ok answers.

(** [answers_text] is the JSON of the answers. *)
Definition static_classify (answers_text : list ClassifierAnswer → option string) (scripted : list ClassifierAnswer)
    (r : ClassifyRequest) : Web_prog ClassifyResponse :=
  let! _ := lifted (classify_validate r) in
  let* started := web InstantNow in
  let! answers := lifted (static_answers scripted r) in
  let! text := lifted (ok_or (answers_text answers) provider_failure) in
  let* trace := classify_trace static_classifier_descriptor r text started in
  give (mkClassifyResponse answers (mi_model (pd_identity static_classifier_descriptor)) trace None).

End Classifiers.
