(* ===== verification/ClassifyTheorems.v ===== *)
(** What classification promises: a request within System One's limits is encoded
    whole and an oversized one is refused; answers meet the public contract
    whatever the provider said; decisions follow the caller's thresholds. *)

From Stdlib Require Import ZArith Lia Ascii.
From Stdlib Require Import SpecFloat.
From stdpp Require Import base gmap strings list.
From S2P Require Import Prelude Text Core SpendTypes Json Trace ExecutionPolicy Responses Program.
From S2P Require Import Float64 Wire ModelRegistry Adapters ChatAdapters RetrievalAdapters AdapterProofs AdapterTheorems.
From S2P Require Import Classify Classifiers.

#[local] Open Scope Z_scope.

(** ** Limits *)

Section Limits.
Context `{!JsonWriter}.

Definition wire_len (w : Wire) : Z := byte_len (text_of w).

Definition questions_len (questions : list ClassifierQuestion) : Z :=
  foldr (λ q n, wire_len (question_wire q) + n) 0 questions.

(** System One's documented limits, on encoded bytes. *)
Definition fits (r : ClassifyRequest) : bool :=
  let state := wire_len (WValue (VObject (cy_state r))) in
  forallb (λ q, negb (too_many q)) (cy_questions r)
  && (state <=? pair_budget)
  && forallb (λ q, state + wire_len (question_wire q) <=? pair_budget) (cy_questions r)
  && (state + questions_len (cy_questions r) <=? total_budget).

Lemma forallb_negb {A} (f : A → bool) l : forallb (λ a, negb (f a)) l = negb (existsb f l).
Proof. induction l as [|a l IH]; simpl; [done|]. by rewrite IH, negb_orb. Qed.

Lemma questions_len_nonneg questions : 0 ≤ questions_len questions.
Proof. induction questions as [|q qs IH]; simpl; [lia|]. pose proof (byte_len_nonneg (text_of (question_wire q))). unfold wire_len. lia. Qed.

Lemma count_questions_exact state all questions : 0 ≤ state ≤ pair_budget → 0 ≤ all → state + all ≤ total_budget →
  count_questions state all questions
  = if forallb (λ q, state + wire_len (question_wire q) <=? pair_budget) questions
       && (state + all + questions_len questions <=? total_budget)
    then Ok tt else Err invalid.
Proof.
  intros Hs. revert all. induction questions as [|q questions IH]; intros all Ha Ht.
  { simpl. rewrite Z.add_0_r, (proj2 (Z.leb_le _ _)) by lia. done. }
  pose proof (byte_len_nonneg (text_of (question_wire q))) as Hq. fold (wire_len (question_wire q)) in Hq.
  pose proof (questions_len_nonneg questions) as Hn.
  cbn [count_questions forallb questions_len foldr]. fold (questions_len questions). unfold sub_u64.
  rewrite !(proj2 (Z.ltb_ge _ _)) by lia. rsimpl. rewrite (proj2 (Z.ltb_ge _ _)) by lia. rsimpl.
  rewrite encoded_len_exact by lia. fold (wire_len (question_wire q)).
  destruct (Z.leb_spec (wire_len (question_wire q)) (Z.min (pair_budget - state) (total_budget - state - all))) as [Hf|Hf]; simpl.
  - rewrite (proj2 (Z.leb_le (state + wire_len (question_wire q)) pair_budget)) by lia. simpl.
    rewrite IH by lia. by rewrite !Z.add_assoc.
  - destruct (Z.leb_spec (state + wire_len (question_wire q)) pair_budget); simpl; [|done].
    rewrite (proj2 (Z.leb_gt _ _)) by lia. by rewrite andb_false_r.
Qed.

Lemma check_limits_exact r : check_limits r = if fits r then Ok tt else Err invalid.
Proof.
  unfold check_limits, fits. rewrite forallb_negb. destruct (existsb too_many _); simpl; [done|].
  pose proof (byte_len_nonneg (text_of (WValue (VObject (cy_state r))))) as Hs.
  rewrite encoded_len_exact by done. fold (wire_len (WValue (VObject (cy_state r)))) in *.
  destruct (Z.leb_spec (wire_len (WValue (VObject (cy_state r)))) pair_budget) as [Hp|Hp]; simpl; [|done].
  rewrite count_questions_exact; [by rewrite Z.add_0_r|done|done|]. change total_budget with (pair_budget + 32000). lia.
Qed.

Lemma jev_body_ok model r max_bytes : 0 ≤ default usize_max max_bytes →
  (∀ body, jev_classify_body model r max_bytes = Ok body ↔
     classify_validate r = Ok tt ∧ fits r = true ∧ body = text_of (jev_wire model r)
     ∧ byte_len body ≤ default usize_max max_bytes)
  ∧ jev_classify_body model r max_bytes ≠ Panic.
Proof.
  intros Hm. unfold jev_classify_body. rewrite check_limits_exact.
  assert (classify_validate r ≠ Panic) as Hp.
  { unfold classify_validate. case_bool_decide as Hne; [done|]. clear Hne. generalize (∅ : gset string).
    induction (cy_questions r) as [|q qs IH]; intros ids; simpl; [done|]. destruct (_ || _); [done|]. destruct (kind_refused _); [done|]. apply IH. }
  assert (bool_decide (cy_questions r = []) = true → classify_validate r ≠ Ok tt) as He.
  { unfold classify_validate. by intros ->. }
  destruct (bool_decide (cy_questions r = [])).
  { destruct (classify_validate r) as [[]| |]; rsimpl; [by destruct He|split; [|done]; naive_solver|done]. }
  rsimpl. destruct (fits r); rsimpl; [|split; [naive_solver|done]].
  destruct max_bytes as [max|]; rewrite encode_exact by done; simpl in *.
  - destruct (Z.leb_spec (byte_len (text_of (jev_wire model r))) max); rsimpl.
    + destruct (classify_validate r) as [[]| |]; rsimpl; [|split; [naive_solver|done]|done].
      split; [|done]. intros body. split; [by intros [= <-]|]. by intros (_ & _ & -> & _).
    + split; [|done]. intros body. split; [done|]. intros (_ & _ & -> & Hb). lia.
  - destruct (classify_validate r) as [[]| |]; rsimpl; [|split; [naive_solver|done]|done].
    destruct (Z.leb_spec (byte_len (text_of (jev_wire model r))) usize_max); (split; [|done]); intros body; split.
    + by intros [= <-].
    + by intros (_ & _ & -> & _).
    + done.
    + intros (_ & _ & -> & Hb). lia.
Qed.

End Limits.

(** ** The contract of answers *)

(** A probability. *)
Definition unit_interval (p : f64) : Prop := f64_le f64_zero p = true ∧ f64_le p f64_one = true.

Lemma in_range_spec p : in_range p = true ↔ unit_interval p.
Proof.
  unfold in_range, unit_interval. rewrite andb_true_iff, within_spec. split; [naive_solver|]. intros [Hl Hh].
  split; [|done]. destruct p as [[]|[]| |[] m e]; try done.
Qed.

Lemma foldl_max_bound l acc : is_nan acc = false → Forall (λ p, is_nan p = false) l →
  let m := foldl f64_max acc l in
  is_nan m = false ∧ f64_le acc m = true ∧ Forall (λ p, f64_le p m = true) l ∧ (m = acc ∨ m ∈ l).
Proof.
  intros Ha Hl. revert acc Ha. induction Hl as [|p l Hp _ IH]; intros acc Ha; simpl.
  { split_and!; [done|by apply f64_le_refl|constructor|by left]. }
  destruct (f64_max_spec acc p Ha Hp) as (H1 & H2 & H3). destruct (IH _ H3) as (Hn & Hle & Hf & Hm). split_and!; [done|..].
  - by eapply f64_le_trans.
  - constructor; [by eapply f64_le_trans|done].
  - destruct Hm as [->|Hm]; [|right; by right].
    assert (f64_max acc p = acc ∨ f64_max acc p = p) as [->| ->]; [|by left|right; left].
    unfold f64_max. destruct (f64_lt acc p); destruct acc; try discriminate Ha; destruct p; auto.
Qed.

(** The public contract of an answer's value. *)
Definition value_contract (k : QuestionKind) (v : AnswerValue) : Prop :=
  match k, v with
  | Noul _ _, NoulAnswer p => unit_interval p
  | Choice options, ChoiceAnswer chosen probabilities confidence =>
      map pr_id probabilities = map co_id options
      ∧ Forall (λ e, unit_interval (pr_probability e)) probabilities
      ∧ sums_to_one (map pr_probability probabilities) = true
      ∧ (∃ best max, best ∈ probabilities ∧ pr_id best = chosen
           ∧ Forall (λ e, f64_le (pr_probability e) max = true) probabilities
           ∧ f64_le (f64_sub max TIE_EPSILON) (pr_probability best) = true)
      ∧ match confidence with Some c => unit_interval c | None => True end
  | Score levels, ScoreAnswer value probabilities confidence =>
      length probabilities = length levels
      ∧ Forall unit_interval probabilities
      ∧ sums_to_one probabilities = true
      ∧ is_finite value = true
      ∧ f64_lt PROBABILITY_EPSILON (SFabs (f64_sub value (expected_level probabilities))) = false
      ∧ match confidence with Some c => unit_interval c | None => True end
  | _, _ => False
  end.

Definition answer_contract (q : ClassifierQuestion) (a : ClassifierAnswer) : Prop :=
  an_question_id a = qn_id q ∧ value_contract (qn_kind q) (an_value a).

Lemma forallb_Forall_iff {A} (f : A → bool) (P : A → Prop) l : (∀ a, f a = true ↔ P a) → forallb f l = true ↔ Forall P l.
Proof.
  intros Hf. induction l as [|a l IH]; simpl; [by split|]. rewrite andb_true_iff, Forall_cons, IH, Hf. done.
Qed.

Lemma confidence_spec c : confidence_ok c = true ↔ match c with Some c => unit_interval c | None => True end.
Proof. destruct c; simpl; [apply in_range_spec|done]. Qed.

Lemma unit_not_nan p : unit_interval p → is_nan p = false.
Proof. intros [Hp _]. exact (proj2 (f64_le_nan _ _ Hp)). Qed.

Lemma value_ok_contract k v : value_ok k v = true → value_contract k v.
Proof.
  destruct k as [? ?|options|levels], v as [p|chosen ps c|value ps c]; cbn [value_ok value_contract]; try discriminate.
  - apply in_range_spec.
  - rewrite !andb_true_iff, bool_decide_eq_true, confidence_spec.
    rewrite (forallb_Forall_iff _ _ _ (λ e, in_range_spec (pr_probability e))).
    intros ((((Hids & Hf) & Hs) & Hm) & Hc). split_and!; [assumption..| |assumption].
    apply existsb_exists in Hm as (e & Hin & Hb). rewrite andb_true_iff, String.eqb_eq in Hb. destruct Hb as [Hid Hle].
    destruct (foldl_max_bound (map pr_probability ps) f64_zero) as (_ & _ & Hmax & _); [done| |].
    { apply Forall_map. eapply Forall_impl; [exact Hf|]. intros x Hx. by apply unit_not_nan. }
    exists e, (foldl f64_max f64_zero (map pr_probability ps)). apply Forall_map in Hmax.
    split_and!; [by apply list_elem_of_In|done|done|done].
  - rewrite !andb_true_iff, confidence_spec, negb_true_iff, Z.eqb_eq.
    rewrite (forallb_Forall_iff _ _ _ in_range_spec). unfold zlen.
    intros (((((Hl & Hf) & Hs) & Hfin) & Hv) & Hc). split_and!; [lia|assumption..].
Qed.

Lemma validate_each_contract questions answers : length answers = length questions →
  validate_each questions answers = Ok tt → Forall2 answer_contract questions answers.
Proof.
  revert answers. induction questions as [|q questions IH]; intros [|a answers] Hl; simpl; try done.
  walk. bools. intros Hv. constructor; [|by apply IH; [injection Hl|]]. split; [by apply String.eqb_eq|by apply value_ok_contract].
Qed.

Lemma validate_answers_contract r answers u : validate_answers r answers = Ok u →
  Forall2 answer_contract (cy_questions r) answers.
Proof.
  unfold validate_answers, zlen. walk. bools. destruct u. apply validate_each_contract. lia.
Qed.

(** ** Distributions *)

(** A distribution is read only from a report of exactly the given keys. *)
Lemma take_reported_ok keys reported ps rest : take_reported keys reported = Ok (ps, rest) →
  length ps = length keys ∧ NoDup keys ∧ dom reported = list_to_set keys ∪ dom rest ∧ (∀ key, key ∈ keys → rest !! key = None)
  ∧ Forall unit_interval ps.
Proof.
  revert reported ps rest. induction keys as [|key keys IH]; intros reported ps rest; simpl.
  { intros [= <- <-]. split_and!; [done|constructor|set_solver|set_solver|constructor]. }
  walk. intros [= <- <-]. apply ok_or_ok in E. destruct (IH _ _ _ E1) as (Hl & Hn & Hd & Hr & Hu).
  assert (reported !! key = Some a) as Hk by done.
  assert (key ∉ keys ∧ g !! key = None) as [Hnk Hgk].
  { assert (key ∉ (list_to_set keys ∪ dom g : gset string)) as Hx.
    { rewrite <-Hd, dom_delete_L. set_solver. }
    apply not_elem_of_union in Hx as [Hx1 Hx2]. split; [set_solver|by apply not_elem_of_dom]. }
  split_and!.
  - simpl. by rewrite Hl.
  - by constructor.
  - rewrite dom_delete_L in Hd. rewrite <-union_assoc_L, <-Hd, <-union_difference_L; [done|].
    apply singleton_subseteq_l, elem_of_dom. by eexists.
  - intros key'. rewrite elem_of_cons. intros [->|Hin]; [done|by apply Hr].
  - constructor; [|done]. revert E0. unfold check_probability. destruct (_ && _) eqn:Eb; [|done]. intros [= <-].
    apply andb_true_iff in Eb as [_ [Hlo Hhi]%within_spec]. apply within_spec, f64_clamp_within; [done|].
    exact (proj2 (f64_le_nan _ _ Hlo)).
Qed.

Lemma reported_distribution_ok keys reported tolerance ps : reported_distribution keys reported tolerance = Ok ps →
  length ps = length keys ∧ NoDup keys ∧ dom reported = list_to_set keys.
Proof.
  unfold reported_distribution. walk. bools. subst. destruct (take_reported_ok _ _ _ _ E) as (Hl & Hn & Hd & _).
  unfold normalise_distribution. walk. intros [= <-]. rewrite length_map. split_and!; [done..|]. set_solver.
Qed.

Lemma choice_probabilities_ok options reported tolerance ps : choice_probabilities options reported tolerance = Ok ps →
  map pr_id ps = map co_id options ∧ NoDup (map co_id options) ∧ dom reported = list_to_set (map co_id options).
Proof.
  unfold choice_probabilities. walk. apply reported_distribution_ok in E as (Hl & Hn & Hd). intros [= <-].
  split_and!; [|done..]. clear Hn Hd. rewrite length_map in Hl. revert a Hl.
  induction options as [|o options IH]; intros [|v values] Hl; simpl in *; try done. by rewrite IH by lia.
Qed.

(** ** The most probable option *)

Lemma most_probable_from_max best l : (∀ b, best = Some b → is_nan (pr_probability b) = false) →
  Forall (λ e, is_nan (pr_probability e) = false) l → (best = None → l ≠ []) →
  ∃ e, most_probable_from best l = Some e ∧ (best = Some e ∨ e ∈ l)
    ∧ (∀ b, best = Some b → f64_le (pr_probability b) (pr_probability e) = true)
    ∧ Forall (λ x, f64_le (pr_probability x) (pr_probability e) = true) l.
Proof.
  intros Hb Hl. revert best Hb. induction Hl as [|x l Hx _ IH]; intros best Hb Hne; simpl.
  { destruct best as [b|]; [|by destruct (Hne eq_refl)]. exists b. split_and!; [done|by left| |constructor].
    intros b' [= <-]. apply f64_le_refl. by apply Hb. }
  destruct best as [b|].
  - destruct (f64_lt (pr_probability b) (pr_probability x)) eqn:E.
    + destruct (IH (Some x)) as (e & He & Hin & Hxe & Hall); [by intros ? [= <-]|done|]. exists e. split_and!; [done|..].
      * destruct Hin as [[= ->]|Hin]; right; [left|by right].
      * intros b' [= <-]. eapply f64_le_trans; [by apply f64_lt_le|by apply Hxe].
      * constructor; [by apply Hxe|done].
    + destruct (IH (Some b)) as (e & He & Hin & Hbe & Hall); [by intros ? [= <-]; apply Hb|done|]. exists e. split_and!; [done|..].
      * destruct Hin as [[= ->]|Hin]; [by left|right; by right].
      * intros b' [= <-]. by apply Hbe.
      * constructor; [|done]. eapply f64_le_trans; [apply f64_not_lt; [by apply Hb|done|done]|by apply Hbe].
  - destruct (IH (Some x)) as (e & He & Hin & Hxe & Hall); [by intros ? [= <-]|done|]. exists e. split_and!; [done|..|done|].
    + destruct Hin as [[= ->]|Hin]; right; [left|by right].
    + constructor; [by apply Hxe|done].
Qed.

(** ** Replies of a chat model *)

Lemma field_remove key key' fields :
  field key (remove_field key' fields) = if String.eqb key' key then None else field key fields.
Proof.
  unfold remove_field. induction fields as [|[k v] fields IH]; simpl; [by destruct (String.eqb key' key)|].
  rewrite select_where_cons. simpl. destruct (String.eqb_spec k key') as [->|Hk]; simpl.
  - rewrite IH. by destruct (String.eqb key' key).
  - rewrite IH. destruct (String.eqb_spec k key) as [->|]; [|done]. by destruct (String.eqb_spec key' key) as [->|].
Qed.

Lemma take_answers_ok questions reply answers rest : take_answers questions reply = Ok (answers, rest) →
  (∀ key, is_Some (field key reply) ↔ key ∈ map qn_id questions ∨ is_Some (field key rest))
  ∧ Forall2 (λ q a, an_question_id a = qn_id q ∧ ∃ raw, reply_value (qn_kind q) raw = Ok (an_value a)) questions answers.
Proof.
  revert reply answers rest. induction questions as [|q questions IH]; intros reply answers rest; simpl.
  { intros [= <- <-]. split; [|constructor]. intros key. split; [by right|]. by intros [Hn%elem_of_nil|]. }
  walk. intros [= <- <-]. apply ok_or_ok in E. destruct (IH _ _ _ E1) as [Hk Hf]. split.
  - intros key. specialize (Hk key). rewrite field_remove in Hk. rewrite elem_of_cons.
    destruct (String.eqb_spec (qn_id q) key) as [Heq|Hne].
    + split; [intros _; left; by left|]. intros _. rewrite <-Heq, E. by eexists.
    + rewrite Hk. naive_solver.
  - constructor; [|done]. split; [done|]. by exists a.
Qed.

Lemma parse_reply_ok `{!WireResponses} r reply answers : parse_reply r reply = Ok answers →
  Forall2 answer_contract (cy_questions r) answers
  ∧ (∃ fields, json_parse (trimmed reply) = Some (VObject fields)
       ∧ ∀ key, is_Some (field key fields) ↔ key ∈ map qn_id (cy_questions r))
  ∧ Forall2 (λ q a, ∃ raw, reply_value (qn_kind q) raw = Ok (an_value a)) (cy_questions r) answers.
Proof.
  unfold parse_reply. walk. destruct a as [| | | | |fields]; try done. walk. bools. subst. intros [= <-].
  apply ok_or_ok in E. destruct (take_answers_ok _ _ _ _ E0) as [Hk Hf].
  split_and!; [by eapply validate_answers_contract| |eapply Forall2_impl; [exact Hf|]; naive_solver].
  exists fields. split; [done|]. intros key. rewrite Hk. simpl. split; [|by left]. by intros [|[? [=]]].
Qed.

(** The chosen option of a chat reply is a most probable one. *)
Lemma reply_chosen_maximal options raw chosen ps c :
  reply_value (Choice options) raw = Ok (ChoiceAnswer chosen ps c) →
  value_contract (Choice options) (ChoiceAnswer chosen ps c) →
  ∃ best, best ∈ ps ∧ pr_id best = chosen ∧ Forall (λ e, f64_le (pr_probability e) (pr_probability best) = true) ps.
Proof.
  simpl. walk. intros [= <- <- <-] (_ & Hu & _ & (b & _ & Hb & _) & _).
  destruct (most_probable_from_max None a0) as (e & He & Hin & _ & Hall); [done| | |].
  - eapply Forall_impl; [exact Hu|]. intros x Hx. by apply unit_not_nan.
  - intros _ ->. by apply elem_of_nil in Hb.
  - exists e. destruct Hin as [|Hin]; [done|]. split_and!; [done| |done]. unfold most_probable. by rewrite He.
Qed.

(** ** The providers *)

Section Providers.
Context `{!Web, !Sha256, !WireResponses, !JsonWriter, !TextEncodings, !Urls, !Serde ClassifyResponse} (egress : bool).

Lemma jev_answer_valid p r started raw text :
  returns (answers (λ out, Forall2 answer_contract (cy_questions r) (cl_answers out)
                           ∧ cl_served_model out = jv_served_model p
                           ∧ it_model (cl_trace out) = pd_identity (jv_descriptor p)
                           ∧ counted (it_usage (cl_trace out))))
    (jev_answer egress p r started raw text).
Proof.
  unfold jev_answer. apply returns_lifted. intros served Hs. destruct (String.eqb_spec served (jv_served_model p)) as [Hm|]; [|apply returns_refuse].
  cbn [negb]. apply returns_lifted. intros fields Hf. apply returns_lifted. intros parsed Hp. apply returns_bind.
  intros trace_id now instant. do 2 (apply returns_lifted; intros ? _). apply returns_lifted. intros [hit miss] Hc.
  cbv beta iota zeta. apply returns_give. simpl. split_and!.
  - revert Hp. unfold parse_answers. walk. intros [= <-]. by eapply validate_answers_contract.
  - done.
  - by rewrite (same_model _ _ (identity_same _ _ _)).
  - unfold counted. rewrite (same_input _ _ (identity_same _ _ _)), (same_hit _ _ (identity_same _ _ _)),
      (same_miss _ _ (identity_same _ _ _)). simpl. exact (observed_counts _ _ _ _ _ _ _ Hc).
Qed.

Lemma jev_returns p r :
  returns (answers (λ out, ∃ a, (Forall2 answer_contract (cy_questions r) (cl_answers a)
                           ∧ cl_served_model a = jv_served_model p
                           ∧ it_model (cl_trace a) = pd_identity (jv_descriptor p)
                           ∧ counted (it_usage (cl_trace a)))
      ∧ if String.eqb (jv_api_key p) "" then out = a
        else out = discard_raw a ∧ ∃ v, to_value a = Some v ∧ clean (jv_api_key p) v))
    (jev_classify egress p r).
Proof.
  apply behind_returns. do 2 (apply returns_try_any; intros ?). apply returns_bind. intros started.
  apply returns_try_any. intros _. apply returns_try_any. intros [raw text]. apply jev_answer_valid.
Qed.

(** C17: whatever a provider says, what a classifier returns meets the public
    contract: one answer per question, in order and under its id, of the
    question's kind; probabilities between zero and one that sum to one; exactly
    the requested options, the chosen one within the tie tolerance of the
    greatest; a score that is its levels' weighted mean.  A System One answer
    names the expected model; a chat model's reply answers exactly the questions
    that were asked, with a most probable option chosen. *)
Theorem classified_answers_valid r :
  (∀ p tr out, runs (jev_classify egress p r) tr (Ret (Ok out)) →
     Forall2 answer_contract (cy_questions r) (cl_answers out) ∧ cl_served_model out = jv_served_model p
     ∧ counted (it_usage (cl_trace out))
     ∧ (jv_api_key p ≠ EmptyString → cl_raw_provider_response out = None))
  ∧ (∀ reply answers, parse_reply r reply = Ok answers →
       Forall2 answer_contract (cy_questions r) answers
       ∧ (∃ fields, json_parse (trimmed reply) = Some (VObject fields)
            ∧ ∀ key, is_Some (field key fields) ↔ key ∈ map qn_id (cy_questions r))
       ∧ ∀ i q a options chosen ps c, cy_questions r !! i = Some q → answers !! i = Some a →
           qn_kind q = Choice options → an_value a = ChoiceAnswer chosen ps c →
           ∃ best, best ∈ ps ∧ pr_id best = chosen
             ∧ Forall (λ e, f64_le (pr_probability e) (pr_probability best) = true) ps)
  ∧ (∀ scripted answers, static_answers scripted r = Ok answers → Forall2 answer_contract (cy_questions r) answers).
Proof.
  split_and!.
  - intros p tr out Hr. destruct (returns_runs _ _ _ _ (jev_returns p r) Hr out eq_refl) as (a & (Ha & Hs & _ & Hc) & Hg).
    destruct (String.eqb_spec (jv_api_key p) "") as [->|]; [subst out; by split_and!|]. destruct Hg as [-> _]. by split_and!.
  - intros reply answers Hp. destruct (parse_reply_ok _ _ _ Hp) as (Hc & Hk & Hv). split_and!; [done..|].
    intros i q a options chosen ps c Hq Ha Hkind Hval.
    destruct (Forall2_lookup_lr _ _ _ _ _ _ Hc Hq Ha) as [_ Hcon].
    destruct (Forall2_lookup_lr _ _ _ _ _ _ Hv Hq Ha) as [raw Hraw]. rewrite Hkind, Hval in *.
    by eapply reply_chosen_maximal.
  - intros scripted answers. unfold static_answers. walk. intros [= <-]. by eapply validate_answers_contract.
Qed.

Lemma jev_sends (R : HttpRequest → Prop) p r :
  (∀ body, jv_validate_configuration p = Ok tt →
     jev_classify_body (mi_model (pd_identity (jv_descriptor p))) r (jv_max_request_bytes p) = Ok body →
     R (json_request (trim_end_slash (jv_base_url p) +:+ "/systemone") body [] (bearer (jv_api_key p)))) →
  sends R (jev_classify egress p r).
Proof.
  intros HR. apply behind_sends, sends_lifted. intros [] Hv. apply sends_lifted. intros body Hb.
  split; [done|]. intros started. cbn [no_post]. apply sends_lifted. intros _ _. apply sends_try.
  - apply provider_response_sends. by apply HR.
  - intros [raw text]. unfold jev_answer. apply inert_try; [apply inert_lifted|]. intros served. destruct (negb _); [done|].
    do 2 (apply inert_try; [apply inert_lifted|intros ?]). apply inert_bind; [done|]. intros trace.
    do 2 (apply inert_try; [apply inert_lifted|intros ?]). apply inert_try; [apply inert_lifted|]. by intros [hit miss].
Qed.

(** A System One call posts at most one request, and only one that has the right
    shape and fits the model's and the configured limits. *)
Lemma jev_requests_bounded p r tr q : runs (jev_classify egress p r) tr q →
  posts tr = [] ∨ ∃ limit, jv_max_request_bytes p = Some limit
    ∧ let wire := jev_wire (mi_model (pd_identity (jv_descriptor p))) r in
      classify_validate r = Ok tt ∧ fits r = true ∧ byte_len (text_of wire) ≤ limit
      ∧ posts tr = [json_request (trim_end_slash (jv_base_url p) +:+ "/systemone") (text_of wire) [] (bearer (jv_api_key p))].
Proof.
  intros Hr. eapply sends_history in Hr as [Hn|(request & Hr & HR)]; [by left|right; rewrite Hr; exact HR|].
  apply jev_sends. intros body Hv Hb. unfold jv_validate_configuration in Hv.
  apply rbind_ok in Hv as (? & _ & Hv). apply rbind_ok in Hv as (? & _ & Hv). apply rbind_ok in Hv as (limit & Hl & _).
  apply required_limit_some in Hl as [Hl Hpos]. rewrite Hl in Hb. exists limit. split; [done|].
  destruct (jev_body_ok (mi_model (pd_identity (jv_descriptor p))) r (Some limit)) as [Hok _]; [simpl; lia|].
  by apply Hok in Hb as (? & ? & -> & ?).
Qed.

(** a System One request is encoded exactly when it has the right shape and
    fits the model's limits (options, levels, the state with each question, and
    all of it) and the byte limit; then the body is the whole request, questions
    and options in order, and a call posts at most that, to the configured
    endpoint.  The budgets' subtractions never underflow. *)
Theorem jev_requests_exact r :
  (∀ model max_bytes body, 0 ≤ max_bytes →
     jev_classify_body model r (Some max_bytes) = Ok body ↔
     classify_validate r = Ok tt ∧ fits r = true ∧ body = text_of (jev_wire model r) ∧ byte_len body ≤ max_bytes)
  ∧ check_limits r ≠ Panic
  ∧ ∀ p tr q, runs (jev_classify egress p r) tr q →
      posts tr = [] ∨ ∃ limit, jv_max_request_bytes p = Some limit
        ∧ let wire := jev_wire (mi_model (pd_identity (jv_descriptor p))) r in
          classify_validate r = Ok tt ∧ fits r = true ∧ byte_len (text_of wire) ≤ limit
          ∧ posts tr
            = [json_request (trim_end_slash (jv_base_url p) +:+ "/systemone") (text_of wire) [] (bearer (jv_api_key p))].
Proof.
  split_and!.
  - intros model max_bytes body Hm. by apply (proj1 (jev_body_ok model r (Some max_bytes) Hm)).
  - rewrite check_limits_exact. by destruct (fits r).
  - intros p tr q. apply jev_requests_bounded.
Qed.

End Providers.

(** ** Decisions *)

Lemma best_entry_elem chosen entries best : best_entry chosen entries = Some best → best ∈ entries.
Proof.
  unfold best_entry. assert (∀ acc, foldl (λ best entry, match best with
      | Some b => if negb (beats chosen entry (pr_probability b)) then Some b else Some entry
      | None => Some entry end) acc entries = Some best → acc = Some best ∨ best ∈ entries) as Hf.
  { induction entries as [|e entries IH]; intros acc; simpl; [by left|]. intros Hb.
    destruct (IH _ Hb) as [Ha|Hin]; [|right; by right]. destruct acc as [b|]; [|right; injection Ha as ->; left].
    destruct (negb _); [by left|]. injection Ha as ->. right. left. }
  intros Hb. by destruct (Hf None Hb).
Qed.

(** a decision on a choice selects only an option of the answer that is not
    the abstain option, whose probability reaches the caller's minimum and beats
    the abstain option's; and it abstains only where the best candidate does not,
    or where there is none. *)
Theorem decide_choice_sound r question abstain min d : decide_choice r question abstain min = Some d →
  ∃ chosen ps c, answer_of r question = Some (ChoiceAnswer chosen ps c)
    ∧ match d with
      | Selected o p => ∃ e, e ∈ ps ∧ pr_id e = o ∧ pr_probability e = p ∧ abstain ≠ Some o
          ∧ best_entry chosen (candidates abstain ps) = Some e ∧ f64_le min p = true
          ∧ ∀ a, abstain = Some a → beats chosen e (default f64_zero (option_probability ps a)) = true
      | Abstained => ∀ e, best_entry chosen (candidates abstain ps) = Some e →
          f64_le min (pr_probability e) = false
          ∨ ∃ a, abstain = Some a ∧ beats chosen e (default f64_zero (option_probability ps a)) = false
      end.
Proof.
  unfold decide_choice. destruct (answer_of r question) as [[|chosen ps c|]|]; try done. intros [= <-].
  exists chosen, ps, c. split; [done|]. destruct (best_entry chosen (candidates abstain ps)) as [e|] eqn:Eb; [|done].
  destruct (f64_le min (pr_probability e)) eqn:Em; simpl; [|intros e' [= <-]; by left].
  destruct abstain as [a|]; simpl.
  - destruct (beats chosen e _) eqn:Ew; [|intros e' [= <-]; right; by exists a].
    pose proof (best_entry_elem _ _ _ Eb) as Hin. apply elem_of_select_where in Hin as [Hin Hp]. bools.
    exists e. split_and!; try done. by intros a' [= <-].
  - pose proof (best_entry_elem _ _ _ Eb) as Hin. apply elem_of_select_where in Hin as [Hin _]. by exists e.
Qed.

(** An answer whose chosen option is more probable than the first one by just
    the tie tolerance, rounded up. *)
Definition gap_first : f64 := f64_of_decimal 4 (-1).
Definition gap_answer : AnswerValue :=
  ChoiceAnswer "b" [mkProbability "a" gap_first; mkProbability "b" (f64_add gap_first TIE_EPSILON);
                    mkProbability "c" (f64_of_decimal 2 (-1))] None.
Definition gap_trace : ModelInvocationTrace :=
  mkTrace "t1" None (mkModelIdentity "classify" "acme" "m1") None None "h" None default_CacheTrace default_UsageTrace
    default_TimingTrace OutcomeSucceeded None [] (object []) 0.
Definition gap_response : ClassifyResponse := mkClassifyResponse [mkAnswer "q" gap_answer] "m1" gap_trace None.
Definition gap_options : QuestionKind := Choice [mkOption "a" "A"; mkOption "b" "B"; mkOption "c" "C"].

(** The tie test leaves a gap: a valid answer's chosen option, which no other
    option's probability reaches, loses to the option before it, because
    the difference rounds above the tolerance while the sum does not exceed it. *)
Theorem decide_choice_gap :
  value_ok gap_options gap_answer = true
  ∧ response_chosen gap_response "q" = Some "b"%string
  ∧ (∃ p p', choice_probability gap_response "q" "b" = Some p ∧ choice_probability gap_response "q" "a" = Some p'
       ∧ f64_lt p' p = true)
  ∧ decide_choice gap_response "q" None f64_zero = Some (Selected "a" gap_first).
Proof.
  split_and!; [by vm_compute|by vm_compute| |by vm_compute].
  exists (f64_add gap_first TIE_EPSILON), gap_first. split_and!; by vm_compute.
Qed.

Lemma decide_choice_sound_witness :
  ∃ e, decide_choice gap_response "q" (Some "c"%string) f64_zero = Some (Selected (pr_id e) (pr_probability e))
    ∧ f64_le f64_zero (pr_probability e) = true.
Proof.
  assert (decide_choice gap_response "q" (Some "c"%string) f64_zero = Some (Selected "a" gap_first)) as Hd
    by (vm_compute; reflexivity).
  destruct (decide_choice_sound _ _ _ _ _ Hd) as (chosen & ps & c & _ & e & _ & Ho & Hp & _ & _ & Hm & _).
  exists e. rewrite Ho, Hp. split; [exact Hd|exact Hm].
Defined.

(** ** A question and a reply *)

Section Reply.
#[local] Instance reply_web : Web := {| client_builds _ := true; header_value_ok _ := true; http_date _ := None |}.
#[local] Instance reply_sha : Sha256 := {| sha256 s := s |}.
#[local] Instance reply_writer : JsonWriter := {| write_calls _ := ["{"; "}"]%string |}.
#[local] Instance reply_urls : Urls := {| parse_url s := Some (mkUrl "https" (Some s) "" None None None) |}.
#[local] Instance reply_encodings : TextEncodings := {|
  json_text v := match v with VString s => quoted s | _ => "{}"%string end;
  base64 _ s := s;
  json_string_quoted s := ex_intro _ s eq_refl;
|}.
#[local] Instance reply_serde : Serde ClassifyResponse := {| to_value _ := Some VNull; from_value _ := None |}.
#[local] Instance reply_wire : WireResponses := {|
  json_parse _ := Some (VObject [("q"%string, VObject [("a", VNumber "0.25"); ("b", VNumber "0.75")]%string)]);
  decode_openai _ := None;
  decode_messages _ := None;
  decode_gemini _ := None;
  decode_gemini_batch _ := None;
  decode_compatible _ := None;
  decode_ollama _ := None;
  decode_rerank _ := None;
|}.

Definition reply_request : ClassifyRequest :=
  mkClassifyRequest [] [mkQuestion "q" "Which?" (Choice [mkOption "a" "A"; mkOption "b" "B"])] None None None (object []).

Lemma classified_answers_valid_witness : ∃ a ps,
  parse_reply reply_request "..." = Ok [a] ∧ answer_contract (mkQuestion "q" "Which?" (Choice [mkOption "a" "A"; mkOption "b" "B"])) a
  ∧ an_value a = ChoiceAnswer "b" ps None.
Proof.
  destruct (parse_reply reply_request "...") as [answers| |] eqn:E; [|vm_compute in E; discriminate E..].
  destruct (proj1 (proj2 (classified_answers_valid true reply_request)) "..."%string answers E) as (Hc & _).
  vm_compute in E. injection E as <-. inversion Hc as [|q a qs l Ha _]. eexists _, _.
  split; [reflexivity|]. split; [exact Ha|reflexivity].
Defined.

Lemma jev_requests_exact_witness :
  classify_validate reply_request = Ok tt ∧ fits reply_request = true
  ∧ jev_classify_body "m1" reply_request (Some 1000) = Ok (text_of (jev_wire "m1" reply_request)).
Proof.
  assert (classify_validate reply_request = Ok tt) as Hv by (vm_compute; reflexivity).
  assert (fits reply_request = true) as Hf by (vm_compute; reflexivity).
  split; [exact Hv|]. split; [exact Hf|].
  apply (proj1 (jev_requests_exact true reply_request)); [lia|]. split; [exact Hv|]. split; [exact Hf|].
  split; [reflexivity|]. vm_compute. discriminate.
Defined.

End Reply.
