(* ===== verification/EgressTypes.v ===== *)
(** [symbiotic-egress], [lib.rs]: the records, errors and signatures of the
    boundary between a caller that keeps durable admissions and the process
    that holds the provider credentials.

    A digest is SHA-256 of the compact JSON, in hexadecimal; the JSON text and
    the digest are the parameters of [Wire] and [Adapters], HMAC is the class
    [Hmac].  Serializing these records cannot fail, so a digest is a value. *)

From Stdlib Require Import ZArith Lia Ascii.
From Stdlib Require Import SpecFloat.
From stdpp Require Import base strings list.
From S2P Require Import Prelude Text Core SpendTypes Json Trace ExecutionPolicy Responses.
From S2P Require Import Float64 Wire Adapters ChatAdapters RetrievalAdapters Classify Classifiers.

#[local] Open Scope Z_scope.

(** ** Errors *)

Inductive EgressError : Type :=
| EgVersion | EgInvalidRequest | EgInvalidFrameConfiguration | EgResolverRequiresThreadMode | EgUnauthorized
| EgRouteRefused | EgPermitRefused | EgAuthorityExpired | EgReconciliationRequired | EgInvocationComplete
| EgBudgetRefused | EgRequestBudgetExhausted | EgCredentialUnavailable | EgStateUnavailable | EgLimitExceeded
| EgRateLimited (retry_after_seconds : option Z)
| EgTimeout
| EgProvider (status : option Z)
| EgInvalidProviderJson | EgTransport.

#[export] Instance EgressError_eq_dec : EqDecision EgressError.
Proof. solve_decision. Defined.

Definition PROTOCOL_VERSION : Z := 4.

(** ** Attempts *)

Record DurableAttempt : Type := mkAttempt {
  da_tenant : string;
  da_incarnation : string;
  da_invocation_id : string;
  da_job_queue : option string;
  da_attempt_ordinal : Z;
  da_record_sequence : Z;
  da_recorded_at : Z;
  da_expires_at : Z;
  da_recovery_expires_at : Z;
  da_caller_binding : string;
  da_route : string;
  da_destination : string;
  da_model : string;
  da_method : string;
  da_secret_ref : string;
  da_manifest_ref : string;
  da_input_manifest_digest : string;
  da_input_digest : string;
  da_grant_revision : Z;
}.

#[export] Instance DurableAttempt_eq_dec : EqDecision DurableAttempt.
Proof. solve_decision. Defined.

Record AttemptId : Type := mkAttemptId {
  aid_tenant : string;
  aid_incarnation : string;
  aid_invocation_id : string;
  aid_job_queue : option string;
  aid_attempt_ordinal : Z;
}.

#[export] Instance AttemptId_eq_dec : EqDecision AttemptId.
Proof. solve_decision. Defined.

Definition attempt_id (a : DurableAttempt) : AttemptId :=
  mkAttemptId (da_tenant a) (da_incarnation a) (da_invocation_id a) (da_job_queue a) (da_attempt_ordinal a).

Record GrantRevision : Type := mkGrantRevision {
  gr_tenant : string;
  gr_incarnation : string;
  gr_revision : Z;
}.

(** One supported provider call. *)
Inductive ProviderPayload : Type :=
| PayChat (request : ChatRequest)
| PayEmbedding (request : EmbeddingRequest)
| PayRerank (request : RerankRequest)
| PayClassify (request : ClassifyRequest).

(** ** What is serialized *)

Definition attempt_wire (a : DurableAttempt) : Wire :=
  WMap [("tenant", WString (da_tenant a)); ("incarnation", WString (da_incarnation a));
        ("invocation_id", WString (da_invocation_id a)); ("job_queue", opt_wire WString (da_job_queue a));
        ("attempt_ordinal", WInt (da_attempt_ordinal a)); ("record_sequence", WInt (da_record_sequence a));
        ("recorded_at", WInt (da_recorded_at a)); ("expires_at", WInt (da_expires_at a));
        ("recovery_expires_at", WInt (da_recovery_expires_at a));
        ("caller_binding", WString (da_caller_binding a)); ("route", WString (da_route a));
        ("destination", WString (da_destination a)); ("model", WString (da_model a));
        ("method", WString (da_method a)); ("secret_ref", WString (da_secret_ref a));
        ("manifest_ref", WString (da_manifest_ref a));
        ("input_manifest_digest", WString (da_input_manifest_digest a));
        ("input_digest", WString (da_input_digest a)); ("grant_revision", WInt (da_grant_revision a))]%string.

Definition attempt_id_wire (i : AttemptId) : Wire :=
  WMap [("tenant", WString (aid_tenant i)); ("incarnation", WString (aid_incarnation i));
        ("invocation_id", WString (aid_invocation_id i)); ("job_queue", opt_wire WString (aid_job_queue i));
        ("attempt_ordinal", WInt (aid_attempt_ordinal i))]%string.

Definition grant_wire (g : GrantRevision) : Wire :=
  WMap [("tenant", WString (gr_tenant g)); ("incarnation", WString (gr_incarnation g));
        ("revision", WInt (gr_revision g))]%string.

(** The tagged form of a payload. *)
Definition payload_wire (p : ProviderPayload) : Wire :=
  let tagged kind request := WMap [("kind", WString kind); ("request", request)]%string in
  match p with
  | PayChat r => tagged "chat"%string (chat_request_wire r)
  | PayEmbedding r => tagged "embedding"%string (embedding_request_wire r)
  | PayRerank r => tagged "rerank"%string (rerank_request_wire r)
  | PayClassify r => tagged "classify"%string (classify_request_wire r)
  end.

(** ** Results *)

Inductive FinishReason : Type := FinishStop | FinishLength | FinishOther.

Inductive ProviderOutput : Type :=
| OutChat (text : string) (finish_reason : option FinishReason)
| OutEmbedding (vectors : list (list f32)) (dimensions : Z)
| OutRerank (hits : list (RerankHit f32))
| OutClassify (answers : list ClassifierAnswer).

Inductive DispatchStatus : Type := DispatchSucceeded | DispatchProviderFailed | DispatchCredentialUnavailable.

#[export] Instance DispatchStatus_eq_dec : EqDecision DispatchStatus.
Proof. solve_decision. Defined.

Record DispatchReceipt : Type := mkDispatchReceipt {
  dr_attempt_digest : string;
  dr_attempt_id : AttemptId;
  dr_reference : string;
  dr_status : DispatchStatus;
  dr_usage : UsageTrace;
  dr_spend_state : SpendState;
}.

Inductive DispatchDiagnostic : Type :=
| DiagMaxResponseBytesExceeded | DiagInvalidUsageIdentity | DiagInvalidRetryAfter | DiagQueueCompleteFailed
| DiagTraceWriteFailed | DiagResponseCacheWriteFailed.

(** [Receipt] is the receipt of a reply, or its stored part. *)
Record DispatchResultOf (Receipt : Type) : Type := mkDispatchResult {
  ds_error : option EgressError;
  ds_diagnostics : list DispatchDiagnostic;
  ds_receipt_persisted : bool;
  ds_receipt : Receipt;
  ds_output : option ProviderOutput;
}.
Arguments mkDispatchResult {Receipt}.
Arguments ds_error {Receipt}.
Arguments ds_diagnostics {Receipt}.
Arguments ds_receipt_persisted {Receipt}.
Arguments ds_receipt {Receipt}.
Arguments ds_output {Receipt}.

Definition DispatchResult : Type := DispatchResultOf DispatchReceipt.

Inductive AttemptStatus : Type :=
| NotIssued | Permitted | Invalidated
| Dispatched (receipt : DispatchReceipt)
| FinishedWithoutAnswer (receipt : DispatchReceipt)
| Completed (result : DispatchResult)
| FailedAttempt (result : DispatchResult)
| Expired.

Record DispatchPermit : Type := mkDispatchPermit { dp_token : string; dp_attempt_digest : string }.

Record PermitGrant : Type := mkPermitGrant { pg_permit : DispatchPermit; pg_status : AttemptStatus }.

(** ** Digests and frames *)

Section Digests.
Context `{!Sha256, !JsonWriter}.

Definition digest (value : Wire) : string := sha256_hex (text_of value).

Definition invocation_key (i : AttemptId) : string :=
  digest (WArray [WString (aid_tenant i); WString (aid_incarnation i); opt_wire WString (aid_job_queue i);
                  WString (aid_invocation_id i)]).

Definition payload_digest (p : ProviderPayload) : string := digest (payload_wire p).

(** [Capped::write] of [encode_frame]. *)
Definition frame_write (max : Z) (bytes buf : string) : option string :=
  if max <? Z.min usize_max (byte_len bytes + byte_len buf) then None else Some (bytes +:+ buf).

Fixpoint frame_writes (max : Z) (bytes : string) (writes : list string) : option string :=
  match writes with
  | [] => Some bytes
  | buf :: writes => bytes ← frame_write max bytes buf; frame_writes max bytes writes
  end.

Definition encode_frame (value : Wire) (max_bytes : Z) : result EgressError string :=
  ok_or (frame_writes max_bytes "" (write_calls value)) EgLimitExceeded.

End Digests.

(** ** Signatures *)

(** HMAC-SHA256 of a message, as bytes; any key length is accepted. *)
Class Hmac : Type := { hmac_sha256 : string → string → string }.

(** [hex::decode]: digits of either case, in pairs. *)
Definition hex_value (a : ascii) : option Z :=
  let n := code a in
  if (48 <=? n) && (n <=? 57) then Some (n - 48)
  else if (97 <=? n) && (n <=? 102) then Some (n - 87)
  else if (65 <=? n) && (n <=? 70) then Some (n - 55)
  else None.

Fixpoint hex_decode (text : string) : option string :=
  match text with
  | EmptyString => Some EmptyString
  | String hi (String lo rest) =>
      h ← hex_value hi; l ← hex_value lo; bytes ← hex_decode rest;
      Some (String (ascii_of_N (Z.to_N (16 * h + l))) bytes)
  | String _ EmptyString => None
  end.

(** The domains end in a zero byte. *)
Definition in_domain (name : string) : string := "symbiotic-egress/v4/" +:+ name +:+ String zero EmptyString.
Definition attempt_domain : string := in_domain "attempt".
Definition status_domain : string := in_domain "attempt-status".
Definition revision_domain : string := in_domain "grant-revision".

Record Signed (T : Type) : Type := mkSigned { signed_value : T; authentication : string }.
Arguments mkSigned {T}.
Arguments signed_value {T}.
Arguments authentication {T}.

Definition SignedAttempt : Type := Signed DurableAttempt.
Definition SignedAttemptId : Type := Signed AttemptId.
Definition SignedGrantRevision : Type := Signed GrantRevision.

Section Keys.
Context `{!JsonWriter, !Hmac}.

(** [AdmissionKey::new]; the key is held as its bytes. *)
Definition AdmissionKey_new (bytes : string) : result EgressError string :=
  if byte_len bytes <? 32 then Err EgUnauthorized else Ok bytes.

Definition mac (key domain : string) (value : Wire) : string := hmac_sha256 key (domain +:+ text_of value).

Definition sign (key domain : string) (value : Wire) : string := hex_encode (mac key domain value).

Definition verify (key domain : string) (value : Wire) (tag : string) : result EgressError unit :=
  let? tag := ok_or (hex_decode tag) EgUnauthorized in
  if String.eqb (mac key domain value) tag then Ok tt else Err EgUnauthorized.

Definition sign_attempt (key : string) (a : DurableAttempt) : SignedAttempt :=
  mkSigned a (sign key attempt_domain (attempt_wire a)).
Definition sign_attempt_id (key : string) (i : AttemptId) : SignedAttemptId :=
  mkSigned i (sign key status_domain (attempt_id_wire i)).
Definition sign_grant_revision (key : string) (g : GrantRevision) : SignedGrantRevision :=
  mkSigned g (sign key revision_domain (grant_wire g)).

Definition verify_attempt (key : string) (s : SignedAttempt) : result EgressError unit :=
  verify key attempt_domain (attempt_wire (signed_value s)) (authentication s).
Definition verify_attempt_id (key : string) (s : SignedAttemptId) : result EgressError unit :=
  verify key status_domain (attempt_id_wire (signed_value s)) (authentication s).
Definition verify_grant_revision (key : string) (s : SignedGrantRevision) : result EgressError unit :=
  verify key revision_domain (grant_wire (signed_value s)) (authentication s).

End Keys.
