(* ===== verification/EgressRegistry.v ===== *)
(** [symbiotic-credential-process], [registry.rs]: the durable permits of the
    credential process, which share a database with the spend ledger.

    [EgressDb] holds the three tables of the registry and the ledger.  The
    trigger [egress_retire_request_binding] belongs to the ledger's table: the
    ledger is only ever replaced through [with_ledger], which fires it.  Each
    operation is a transaction, a function from the tables to an error or to
    the new tables and an answer.

    Clock readings are arguments: [None] is a clock before the epoch, which
    [now] refuses.  [token] is the fresh permit token.  Columns that hold the
    JSON of a record are held as the record. *)

From Stdlib Require Import ZArith Lia Ascii.
From stdpp Require Import base gmap strings list sorting.
From S2P Require Import Prelude Text Core SpendTypes Json Trace ExecutionPolicy Responses Wire Adapters ChatAdapters.
From S2P Require Import SpendLedger EgressTypes.

#[local] Open Scope Z_scope.

(** ** Tables *)

Record StoredReceipt : Type := mkStoredReceipt {
  sd_attempt_digest : string;
  sd_status : DispatchStatus;
  sd_attempt_id : AttemptId;
  sd_reference : string;
}.

#[export] Instance StoredReceipt_eq_dec : EqDecision StoredReceipt.
Proof. solve_decision. Defined.

Definition stored_receipt (r : DispatchReceipt) : StoredReceipt :=
  mkStoredReceipt (dr_attempt_digest r) (dr_status r) (dr_attempt_id r) (dr_reference r).

Definition StoredResult : Type := DispatchResultOf StoredReceipt.

(** A result with another receipt. *)
Definition with_receipt {R R' : Type} (receipt : R') (d : DispatchResultOf R) : DispatchResultOf R' :=
  mkDispatchResult (ds_error d) (ds_diagnostics d) (ds_receipt_persisted d) receipt (ds_output d).

(** A row of [egress_permits].  [pm_finished] is 0 in flight, 1 with a
    recoverable completion, 2 without a retained answer. *)
Record PermitRow : Type := mkPermit {
  pm_attempt_digest : string;
  pm_invocation_key : string;
  pm_invocation_binding : string;
  pm_grant_key : string;
  pm_grant_revision : Z;
  pm_accepted_attempts : Z;
  pm_ordinal : Z;
  pm_record_sequence : Z;
  pm_token : string;
  pm_expires_at : Z;
  pm_recovery_expires_at : Z;
  pm_finished : Z;
  pm_result : option StoredResult;
  pm_consumed : bool;
  pm_receipt : option StoredReceipt;
  pm_request_key : option string;
}.

Record EgressDb `{!JsonValues} : Type := mkEgressDb {
  eg_permits : list PermitRow;
  eg_revisions : gmap string Z;
  eg_failures : gmap string (Z * Z);      (* failed_sends, last_failure *)
  eg_ledger : Ledger;
}.
Arguments mkEgressDb {_}.

Record RequestBudget : Type := mkRequestBudget {
  rb_attempts : Z;
  rb_renewal_seconds : option Z;
}.

Record RequestBudgetAdmission : Type := mkBudgetAdmission {
  ba_key : string;
  ba_previous : option (Z * Z);
}.

Definition EXPIRY_BATCH_SIZE : nat := 64.

(** [SET consumed=1, receipt=?, accepted_attempts=accepted_attempts+1]. *)
Definition set_consumed (receipt : StoredReceipt) (p : PermitRow) : PermitRow :=
  mkPermit (pm_attempt_digest p) (pm_invocation_key p) (pm_invocation_binding p) (pm_grant_key p)
    (pm_grant_revision p) (pm_accepted_attempts p + 1) (pm_ordinal p) (pm_record_sequence p) (pm_token p)
    (pm_expires_at p) (pm_recovery_expires_at p) (pm_finished p) (pm_result p) true (Some receipt) (pm_request_key p).

(** [SET request_key=?]. *)
Definition set_request_key (key : option string) (p : PermitRow) : PermitRow :=
  mkPermit (pm_attempt_digest p) (pm_invocation_key p) (pm_invocation_binding p) (pm_grant_key p)
    (pm_grant_revision p) (pm_accepted_attempts p) (pm_ordinal p) (pm_record_sequence p) (pm_token p)
    (pm_expires_at p) (pm_recovery_expires_at p) (pm_finished p) (pm_result p) (pm_consumed p) (pm_receipt p) key.

(** [SET receipt=?, request_key=NULL, finished=?, result=?]. *)
Definition set_finished (receipt : StoredReceipt) (finished : Z) (answer : option StoredResult) (p : PermitRow) :
    PermitRow :=
  mkPermit (pm_attempt_digest p) (pm_invocation_key p) (pm_invocation_binding p) (pm_grant_key p)
    (pm_grant_revision p) (pm_accepted_attempts p) (pm_ordinal p) (pm_record_sequence p) (pm_token p)
    (pm_expires_at p) (pm_recovery_expires_at p) finished answer (pm_consumed p) (Some receipt) None.

(** [SET result=NULL]. *)
Definition clear_result (p : PermitRow) : PermitRow :=
  mkPermit (pm_attempt_digest p) (pm_invocation_key p) (pm_invocation_binding p) (pm_grant_key p)
    (pm_grant_revision p) (pm_accepted_attempts p) (pm_ordinal p) (pm_record_sequence p) (pm_token p)
    (pm_expires_at p) (pm_recovery_expires_at p) (pm_finished p) None (pm_consumed p) (pm_receipt p) (pm_request_key p).

(** [ORDER BY recovery_expires_at] of rows with their [rowid]s, equal rows in
    any order. *)
Definition due_first (p q : nat * PermitRow) : Prop := pm_recovery_expires_at p.2 ≤ pm_recovery_expires_at q.2.

#[export] Instance due_first_dec : RelDecision due_first.
Proof. intros p q. unfold due_first. apply _. Defined.

Class PermitOrder : Type := {
  permit_order : list (nat * PermitRow) → list (nat * PermitRow);
  permit_order_perm l : permit_order l ≡ₚ l;
  permit_order_sorted l : Sorted due_first (permit_order l);
}.

Definition permit_merge : PermitOrder.
Proof.
  refine {| permit_order := merge_sort due_first |}.
  - intros l. apply merge_sort_Permutation.
  - intros l. apply Sorted_merge_sort. intros p q. unfold due_first. lia.
Defined.

(** [now]: a clock before the epoch is refused. *)
Definition now (clock : option Z) : result EgressError Z := ok_or clock EgStateUnavailable.

(** A [u64] parameter of a statement. *)
Definition sql_u64 (n : Z) : result EgressError Z := ok_or (i64_try_from n) EgStateUnavailable.

Definition ledger_error (e : ModelError) : EgressError :=
  match e with
  | BudgetExhausted _ => EgBudgetRefused
  | Queue SpendReconciliationRequired => EgReconciliationRequired
  | _ => EgStateUnavailable
  end.

Section Registry.
Context `{!JsonValues, !Sha256, !JsonWriter}.

(** ** The ledger and its trigger *)

Definition ledger_state (l : Ledger) (reference : string) : option SpendState := rr_state <$> find_row l reference.

Definition decided (l : Ledger) (reference : string) : bool :=
  match ledger_state l reference with Some SpendReleased | Some SpendSettled => true | _ => false end.

(** A send that is bound to its request and not finished. *)
Definition in_flight (p : PermitRow) : bool := pm_consumed p && (pm_finished p =? 0).

Definition reference_of (p : PermitRow) : option string := sd_reference <$> pm_receipt p.

(** [egress_retire_request_binding]: the ledger updates the state of a receipt
    only while it is unknown, so the trigger fires for the receipts that
    become released or settled. *)
Definition retires (old new : Ledger) (p : PermitRow) : bool :=
  in_flight p && is_some (pm_request_key p)
  && match reference_of p with
     | Some reference => decided new reference && negb (decided old reference)
     | None => false
     end.

Definition with_ledger (new : Ledger) (db : EgressDb) : EgressDb :=
  mkEgressDb (update_where (retires (eg_ledger db) new) (set_request_key None) (eg_permits db))
    (eg_revisions db) (eg_failures db) new.

Definition with_permits (rows : list PermitRow) (db : EgressDb) : EgressDb :=
  mkEgressDb rows (eg_revisions db) (eg_failures db) (eg_ledger db).

Definition with_failures (failures : gmap string (Z * Z)) (db : EgressDb) : EgressDb :=
  mkEgressDb (eg_permits db) (eg_revisions db) failures (eg_ledger db).

(** ** Identities of an attempt *)

Definition attempt_digest (a : DurableAttempt) : string := digest (attempt_wire a).

Definition grant_key (tenant incarnation : string) : string := digest (WArray [WString tenant; WString incarnation]).

(** [invocation_binding] of [lib.rs]: the attempt without what a successor may
    change. *)
Definition invocation_binding (a : DurableAttempt) : string :=
  digest (attempt_wire (mkAttempt (da_tenant a) (da_incarnation a) (da_invocation_id a) (da_job_queue a) 0 0 0 0
    (da_recovery_expires_at a) (da_caller_binding a) (da_route a) (da_destination a) (da_model a) (da_method a)
    (da_secret_ref a) (da_manifest_ref a) (da_input_manifest_digest a) (da_input_digest a) 0)).

(** ** Revisions *)

(** The conflicting row is updated only where its revision is not above. *)
Definition publish_revision (db : EgressDb) (g : GrantRevision) : result EgressError (EgressDb * unit) :=
  let key := grant_key (gr_tenant g) (gr_incarnation g) in
  let? revision := sql_u64 (gr_revision g) in
  if match eg_revisions db !! key with Some old => revision <? old | None => false end then Err EgRouteRefused
  else Ok (mkEgressDb (eg_permits db) (<[key := revision]> (eg_revisions db)) (eg_failures db) (eg_ledger db), tt).

Definition check_revision (db : EgressDb) (a : DurableAttempt) : result EgressError unit :=
  if bool_decide (eg_revisions db !! grant_key (da_tenant a) (da_incarnation a) = Some (da_grant_revision a))
  then Ok tt else Err EgRouteRefused.

(** ** Queries *)

Definition of_invocation (key : string) (p : PermitRow) : bool := bool_decide (pm_invocation_key p = key).

Definition with_digest (d : string) (p : PermitRow) : bool := bool_decide (pm_attempt_digest p = d).

(** [WHERE invocation_key=? AND ordinal=?], unique. *)
Definition permit_at (db : EgressDb) (key : string) (ordinal : Z) : option PermitRow :=
  head (select_where (λ p, of_invocation key p && (pm_ordinal p =? ordinal)) (eg_permits db)).

(** [EXISTS] of a successor. *)
Definition superseded (db : EgressDb) (p : PermitRow) : bool :=
  existsb (λ s, of_invocation (pm_invocation_key p) s && (pm_ordinal p <? pm_ordinal s)) (eg_permits db).

(** The row of greatest ordinal: [ORDER BY ordinal DESC LIMIT 1]. *)
Definition later_permit (best : option PermitRow) (p : PermitRow) : option PermitRow :=
  match best with
  | Some b => if pm_ordinal b <? pm_ordinal p then Some p else best
  | None => Some p
  end.

Definition latest_permit (db : EgressDb) (key : string) : option PermitRow :=
  foldl later_permit None (select_where (of_invocation key) (eg_permits db)).

(** ** Issuing *)

(** What the latest permit of the invocation allows its successor: the
    handoffs accepted so far. *)
Definition successor_of (db : EgressDb) (a : DurableAttempt) (clock : option Z) (p : PermitRow) :
    result EgressError Z :=
  if negb (bool_decide (pm_invocation_binding p = invocation_binding a)) then Err EgInvalidRequest
  else if da_attempt_ordinal a <=? pm_ordinal p then Err EgPermitRefused
  else if da_record_sequence a <=? pm_record_sequence p then Err EgInvalidRequest
  else
    let? pending :=
      if pm_consumed p then Ok true
      else if pm_grant_revision p =? da_grant_revision a then
        let? time := now clock in Ok (time <? pm_expires_at p)
      else Ok false in
    if pending : bool then
      let? receipt := ok_or (pm_receipt p) EgReconciliationRequired in
      if bool_decide (sd_status receipt = DispatchSucceeded) then Err EgInvocationComplete
      else if negb (bool_decide (ledger_state (eg_ledger db) (sd_reference receipt) = Some SpendReleased))
      then Err EgReconciliationRequired
      else Ok (pm_accepted_attempts p)
    else Ok (pm_accepted_attempts p).

Definition new_permit (a : DurableAttempt) (accepted : Z) (token : string) : PermitRow :=
  mkPermit (attempt_digest a) (invocation_key (attempt_id a)) (invocation_binding a)
    (grant_key (da_tenant a) (da_incarnation a)) (da_grant_revision a) accepted (da_attempt_ordinal a)
    (da_record_sequence a) token (da_expires_at a) (da_recovery_expires_at a) 0 None false None None.

(** The primary key and the unique pair of [egress_permits]. *)
Definition clashes (new p : PermitRow) : bool :=
  with_digest (pm_attempt_digest new) p
  || of_invocation (pm_invocation_key new) p && (pm_ordinal p =? pm_ordinal new).

Definition insert_permit (db : EgressDb) (new : PermitRow) : result EgressError EgressDb :=
  let? _ := sql_u64 (pm_record_sequence new) in
  let? _ := sql_u64 (pm_recovery_expires_at new) in
  let? _ := sql_u64 (pm_grant_revision new) in
  let? _ := sql_u64 (pm_expires_at new) in
  if existsb (clashes new) (eg_permits db) then Err EgStateUnavailable
  else Ok (with_permits (eg_permits db ++ [new]) db).

(** [issue_in]; [first] and [second] are its two readings of the clock. *)
Definition issue_in (db : EgressDb) (a : DurableAttempt) (max_attempts : Z) (first second : option Z)
    (token : string) : result EgressError (EgressDb * PermitGrant) :=
  let? _ := check_revision db a in
  let? accepted := match latest_permit db (invocation_key (attempt_id a)) with
                   | Some p => successor_of db a first p
                   | None => Ok 0
                   end in
  if max_attempts <=? accepted then Err EgBudgetRefused
  else
    let? time := now second in
    if da_expires_at a <=? time then Err EgAuthorityExpired
    else
      let? db := insert_permit db (new_permit a accepted token) in
      Ok (db, mkPermitGrant (mkDispatchPermit token (attempt_digest a)) Permitted).

(** ** Reads *)

(** [SELECT state, usage FROM spend_receipts WHERE reference=?]. *)
Definition project_receipt (db : EgressDb) (s : StoredReceipt) : result EgressError DispatchReceipt :=
  let? row := ok_or (find_row (eg_ledger db) (sd_reference s)) EgStateUnavailable in
  Ok (mkDispatchReceipt (sd_attempt_digest s) (sd_attempt_id s) (sd_reference s) (sd_status s)
        (default default_UsageTrace (rr_usage row)) (rr_state row)).

(** The inner join drops a permit whose grant has no revision. *)
Definition attempt_status (db : EgressDb) (i : AttemptId) (time : Z) : result EgressError AttemptStatus :=
  match permit_at db (invocation_key i) (aid_attempt_ordinal i) with
  | None => Ok NotIssued
  | Some p =>
      match eg_revisions db !! pm_grant_key p with
      | None => Ok NotIssued
      | Some revision =>
          if negb (pm_consumed p) then
            Ok (if negb (superseded db p) && (pm_grant_revision p =? revision) && (time <? pm_expires_at p)
                then Permitted else Invalidated)
          else if pm_finished p =? 0 then
            let? stored := ok_or (pm_receipt p) EgStateUnavailable in
            let? receipt := project_receipt db stored in
            Ok (Dispatched receipt)
          else if pm_finished p =? 2 then
            let? stored := ok_or (pm_receipt p) EgStateUnavailable in
            let? receipt := project_receipt db stored in
            Ok (FinishedWithoutAnswer receipt)
          else if pm_recovery_expires_at p <=? time then Ok Expired
          else
            let? answer := ok_or (pm_result p) EgStateUnavailable in
            let? receipt := project_receipt db (ds_receipt answer) in
            let answer := with_receipt receipt answer in
            Ok (if is_some (ds_error answer) then FailedAttempt answer else Completed answer)
      end
  end.

Definition existing (db : EgressDb) (a : DurableAttempt) (clock : option Z) :
    result EgressError (option PermitGrant) :=
  match permit_at db (invocation_key (attempt_id a)) (da_attempt_ordinal a) with
  | None => Ok None
  | Some p =>
      if negb (bool_decide (pm_attempt_digest p = attempt_digest a)) then Err EgInvalidRequest
      else
        let? time := now clock in
        let? status := attempt_status db (attempt_id a) time in
        Ok (Some (mkPermitGrant (mkDispatchPermit (pm_token p) (pm_attempt_digest p)) status))
  end.

(** [issue]: [clocks] are its readings in order. *)
Definition issue (db : EgressDb) (a : DurableAttempt) (max_attempts : Z) (clock first second : option Z)
    (token : string) : result EgressError (EgressDb * PermitGrant) :=
  let? old := existing db a clock in
  match old with
  | Some grant => Ok (db, grant)
  | None => issue_in db a max_attempts first second token
  end.

Definition receipt (db : EgressDb) (i : AttemptId) : result EgressError (option DispatchReceipt) :=
  match permit_at db (invocation_key i) (aid_attempt_ordinal i) with
  | Some p =>
      if pm_consumed p then
        let? stored := ok_or (pm_receipt p) EgStateUnavailable in
        let? receipt := project_receipt db stored in
        Ok (Some receipt)
      else Ok None
  | None => Ok None
  end.

(** ** Acceptance *)

(** [WHERE attempt_digest=? AND token=? AND consumed=0]. *)
Definition usable (permit : DispatchPermit) (p : PermitRow) : bool :=
  with_digest (dp_attempt_digest permit) p && bool_decide (pm_token p = dp_token permit) && negb (pm_consumed p).

Definition accept_in (db : EgressDb) (a : DurableAttempt) (permit : DispatchPermit) (reference : string)
    (max_attempts : Z) (clock : option Z) : result EgressError (EgressDb * DispatchReceipt) :=
  if negb (bool_decide (attempt_digest a = dp_attempt_digest permit)) then Err EgPermitRefused
  else
    let receipt := mkDispatchReceipt (attempt_digest a) (attempt_id a) reference DispatchProviderFailed
                     default_UsageTrace SpendUnknown in
    let? p := ok_or (head (select_where (usable permit) (eg_permits db))) EgPermitRefused in
    let? _ := check_revision db a in
    if superseded db p then Err EgPermitRefused
    else if max_attempts <=? pm_accepted_attempts p then Err EgBudgetRefused
    else
      let? time := now clock in
      if da_expires_at a <=? time then Err EgAuthorityExpired
      else if negb (bool_decide (length (select_where (usable permit) (eg_permits db)) = 1%nat))
      then Err EgPermitRefused
      else Ok (with_permits (update_where (usable permit) (set_consumed (stored_receipt receipt)) (eg_permits db)) db,
               receipt).

(** [consume]: acceptance and reservation in one transaction. *)
Definition consume (db : EgressDb) (a : DurableAttempt) (permit : DispatchPermit) (handoff : AcceptedSpendHandoff)
    (max_attempts : Z) (clock : option Z) (utc : DateTime) : result EgressError (EgressDb * DispatchReceipt) :=
  let? '(db, receipt) := accept_in db a permit (sr_reference (ah_reservation handoff)) max_attempts clock in
  let? '(l, accepted) := map_err ledger_error (reserve_handoff_in (eg_ledger db) utc handoff) in
  if accepted : bool then Ok (with_ledger l db, receipt) else Err EgPermitRefused.

Definition accept_job_in (db : EgressDb) (a : DurableAttempt) (reference : string) (max_attempts : Z)
    (first second third : option Z) (token : string) : result EgressError (EgressDb * unit) :=
  let? '(db, permit) :=
    match permit_at db (invocation_key (attempt_id a)) (da_attempt_ordinal a) with
    | Some p => Ok (db, mkDispatchPermit (pm_token p) (pm_attempt_digest p))
    | None => let? '(db, grant) := issue_in db a max_attempts first second token in Ok (db, pg_permit grant)
    end in
  let? '(db, _) := accept_in db a permit reference max_attempts third in
  Ok (db, tt).

(** ** Requests and their budget *)

(** A send of the request whose charge is open: [s.state] is null, or not
    decided. *)
Definition unresolved (db : EgressDb) (key : string) (p : PermitRow) : bool :=
  bool_decide (pm_request_key p = Some key) && in_flight p
  && match reference_of p with Some reference => negb (decided (eg_ledger db) reference) | None => true end.

(** A renewed allowance forgets the failures. *)
Definition renewed (policy : RequestBudget) (time last_failure : Z) : bool :=
  match rb_renewal_seconds policy with
  | Some seconds => (seconds =? 0) || (last_failure <=? time) && (seconds <=? time - last_failure)
  | None => false
  end.

Definition admit_request_budget_in (db : EgressDb) (key : string) (policy : RequestBudget) (clock : option Z) :
    result EgressError (EgressDb * RequestBudgetAdmission) :=
  let? time := now clock in
  let previous := match eg_failures db !! key with
                  | Some (failures, last_failure) =>
                      if renewed policy time last_failure then None else Some (failures, last_failure)
                  | None => None
                  end in
  let failures := match previous with Some (n, _) => n | None => 0 end in
  if rb_attempts policy <=? failures then Err EgRequestBudgetExhausted
  else
    let? last_failure := sql_u64 (match previous with Some (_, t) => Z.max t time | None => time end) in
    Ok (with_failures (<[key := (failures + 1, last_failure)]> (eg_failures db)) db, mkBudgetAdmission key previous).

Definition bindable (d : string) (p : PermitRow) : bool :=
  with_digest d p && in_flight p && negb (is_some (pm_request_key p)).

Definition admit_request_in (db : EgressDb) (d key : string) (policy : option RequestBudget) (clock : option Z) :
    result EgressError (EgressDb * option RequestBudgetAdmission) :=
  match head (select_where (unresolved db key) (eg_permits db)) with
  | Some p =>
      Err (match reference_of p ≫= ledger_state (eg_ledger db) with
           | Some _ => EgReconciliationRequired
           | None => EgStateUnavailable
           end)
  | None =>
      if negb (bool_decide (length (select_where (bindable d) (eg_permits db)) = 1%nat)) then Err EgPermitRefused
      else
        let db := with_permits (update_where (bindable d) (set_request_key (Some key)) (eg_permits db)) db in
        match policy with
        | Some policy =>
            let? '(db, admission) := admit_request_budget_in db key policy clock in Ok (db, Some admission)
        | None => Ok (db, None)
        end
  end.

(** [complete_job_in]. *)
Definition completes (reference : string) (p : PermitRow) : bool :=
  bool_decide (reference_of p = Some reference) && in_flight p && is_some (pm_request_key p).

Definition complete_job_in (db : EgressDb) (reference : string) : EgressDb :=
  with_permits (update_where (completes reference) (set_request_key None) (eg_permits db)) db.

(** ** Completion *)


(** What a completion does to the request's allowance. *)
Definition settle_budget (failures : gmap string (Z * Z)) (budget : RequestBudgetAdmission) (answered : bool)
    (state : SpendState) (clock : option Z) : result EgressError (gmap string (Z * Z)) :=
  let key := ba_key budget in
  if answered then Ok (delete key failures)
  else if bool_decide (state = SpendReleased) then
    match ba_previous budget with
    | Some (count, last_failure) =>
        let? last_failure := sql_u64 last_failure in
        Ok (alter (λ _, (count, last_failure)) key failures)
    | None => Ok (delete key failures)
    end
  else
    let? time := now clock in
    let? time := sql_u64 time in
    Ok (alter (λ p, (p.1, Z.max p.2 time)) key failures).

Definition finishes (d : string) (p : PermitRow) : bool := with_digest d p && in_flight p.

(** The row's new answer: [CASE WHEN recovery_expires_at>now THEN ? ELSE NULL]. *)
Definition finish_row (stored : StoredReceipt) (mode : AnswerRecovery) (answer : StoredResult) (time : Z)
    (p : PermitRow) : PermitRow :=
  set_finished stored (match mode with Off => 2 | Retain => 1 end)
    (if time <? pm_recovery_expires_at p
     then match mode with Retain => Some answer | Off => None end else None) p.

Definition finish (db : EgressDb) (mode : AnswerRecovery) (result_ : DispatchResult)
    (request_budget : option RequestBudgetAdmission) (output_received_ : bool) (first second : option Z)
    (utc : DateTime) : result EgressError (EgressDb * unit) :=
  let r := ds_receipt result_ in
  let stored := stored_receipt r in
  let? time := now first in
  let? time := sql_u64 time in
  if negb (bool_decide (length (select_where (finishes (dr_attempt_digest r)) (eg_permits db)) = 1%nat))
  then Err EgStateUnavailable
  else
    let db := with_permits
                (update_where (finishes (dr_attempt_digest r))
                   (finish_row stored mode (with_receipt stored result_) time) (eg_permits db)) db in
    let usage := if output_received_ || has_measured_usage (dr_usage r)
                 then Some (stored_usage mode (dr_usage r)) else None in
    let? '(l, _) := map_err ledger_error
                      (finish_in (eg_ledger db) utc (dr_reference r) (dr_spend_state r) usage
                         (if output_received_ then Some output_received else None)) in
    let db := with_ledger l db in
    match request_budget with
    | Some budget =>
        let? failures := settle_budget (eg_failures db) budget (is_some (ds_output result_)) (dr_spend_state r) second in
        Ok (with_failures failures db, tt)
    | None => Ok (db, tt)
    end.

(** ** Expiry *)

Definition due (time : Z) (p : PermitRow) : bool := (pm_recovery_expires_at p <=? time) && is_some (pm_result p).

(** [purge_expired]: one batch, the earliest deadlines first. *)
Definition purge_expired `{!PermitOrder} (db : EgressDb) (time : Z) : result EgressError (EgressDb * unit) :=
  let? time := sql_u64 time in
  if negb (existsb (due time) (eg_permits db)) then Ok (db, tt)
  else
    let chosen := take EXPIRY_BATCH_SIZE
                    (permit_order (select_where (λ p, due time p.2) (imap pair (eg_permits db)))) in
    Ok (with_permits
          (imap (λ i p, if bool_decide (i ∈ chosen.*1) then clear_result p else p) (eg_permits db)) db, tt).

(** ** Opening *)

Definition REGISTRY_SCHEMA_VERSION : Z := 9.

(** A binding that an old index left behind. *)
Definition stale (l : Ledger) (p : PermitRow) : bool :=
  in_flight p && is_some (pm_request_key p)
  && match reference_of p with Some reference => decided l reference | None => false end.

(** The bindings are repaired where the trigger was not installed, or the index
    is rebuilt. *)
Definition repair (db : EgressDb) (installed_retirement rebuild_request_index : bool) : EgressDb :=
  if negb installed_retirement || rebuild_request_index
  then with_permits (update_where (stale (eg_ledger db)) (set_request_key None) (eg_permits db)) db
  else db.

(** [open] of an existing registry: its version, how many of its four tables
    there are, and what its derived objects were.  The repair is committed
    before the purge. *)
Definition open_registry `{!PermitOrder} (db : EgressDb) (version tables : Z)
    (installed_retirement rebuild_request_index : bool) (clock : option Z) : EgressDb * result EgressError unit :=
  if negb (version =? REGISTRY_SCHEMA_VERSION) then (db, Err EgVersion)
  else if negb (tables =? 4) then (db, Err EgStateUnavailable)
  else
    let db := repair db installed_retirement rebuild_request_index in
    match (let? time := now clock in purge_expired db time) with
    | Ok (db, _) => (db, Ok tt)
    | Err e => (db, Err e)
    | Panic => (db, Panic)
    end.

End Registry.
