(* ===== verification/EgressRoutes.v ===== *)
(** [symbiotic-credential-process], [lib.rs] and [provider.rs]: the routes of a
    deployment, what an attempt and a payload must be to use one, and the
    identities a dispatch is accounted under.

    A configuration revision is the digest of the compact JSON, so the
    [*_wire] definitions list the fields a type serializes, in order. *)

From Stdlib Require Import ZArith Lia Ascii.
From Stdlib Require Import SpecFloat.
From stdpp Require Import base gmap strings list.
From S2P Require Import Prelude Text Core SpendTypes Json Trace ExecutionPolicy Responses.
From S2P Require Import Float64 Wire ModelRegistry Adapters ChatAdapters RetrievalAdapters Classify Classifiers.
From S2P Require Import SpendLedger EgressTypes EgressRegistry.

#[local] Open Scope Z_scope.

(** ** Configuration *)

Inductive ReasoningEffort : Type := EffortLow | EffortMedium | EffortHigh.

Definition effort_text (e : ReasoningEffort) : string :=
  match e with EffortLow => "low" | EffortMedium => "medium" | EffortHigh => "high" end.

Inductive RouteProvider : Type :=
| RouteOpenAiChat (operator : string) (thinking : option ThinkingMode) (reasoning_effort : option ReasoningEffort)
| RouteAnthropicChat (operator : string) (thinking : option ThinkingMode)
| RouteJevClassifier (operator : string)
| RouteGeminiEmbedding (dimensions : Z)
| RouteCompatibleEmbedding (adapter : ModelAdapter) (operator : string)
    (dimensions embedding_full_dimensions embedding_input_tokens : Z)
| RouteCohereRerank (operator : string)
    (rerank_input_bytes rerank_candidates rerank_context_tokens rerank_query_tokens : Z).

(** Where a secret comes from; a resolver is known by its name. *)
Inductive SecretSource : Type := SecretNone | SecretFile (path : string) | SecretResolver (name : string).

Definition is_secret_none (s : SecretSource) : bool := match s with SecretNone => true | _ => false end.
Definition is_resolver (s : SecretSource) : bool := match s with SecretResolver _ => true | _ => false end.

Record RouteConfig : Type := mkRoute {
  rt_tenant : string;
  rt_account : string;
  rt_account_sharing_key : option string;
  rt_provider_request_limit : option Z;
  rt_max_attempts : Z;
  rt_request_budget : option RequestBudget;
  rt_answer_recovery : AnswerRecovery;
  rt_route : string;
  rt_secret_ref : string;
  rt_secret : SecretSource;
  rt_destination : string;
  rt_model : string;
  rt_provider : RouteProvider;
  rt_allow_loopback_http : bool;
  rt_max_input_bytes : Z;
  rt_max_response_bytes : Z;
  rt_max_field_bytes : Z;
  rt_max_output_tokens : Z;
  rt_max_in_flight : Z;
  rt_requests_per_minute : option Z;
  rt_input_units_per_minute : option Z;
  rt_timeout_seconds : Z;
}.

Record ProcessConfig : Type := mkProcessConfig {
  pc_version : Z;
  pc_admission_key : SecretSource;
  pc_max_secret_bytes : Z;
  pc_max_frame_bytes : Z;
  pc_max_connections : Z;
  pc_io_timeout_seconds : Z;
  pc_routes : list RouteConfig;
}.

Definition validate_child_process (c : ProcessConfig) : result EgressError unit :=
  if existsb is_resolver (pc_admission_key c :: map rt_secret (pc_routes c))
  then Err EgResolverRequiresThreadMode else Ok tt.

Definition REPLY_ENVELOPE_BYTES : Z := 4096.

Definition validate_frame_size (max_frame_bytes : Z) : result EgressError unit :=
  if max_frame_bytes <? REPLY_ENVELOPE_BYTES + 4 * 6 + 4 then Err EgInvalidFrameConfiguration else Ok tt.

(** ** What is serialized *)

Definition wire_tagged (tag kind : string) (fields : list (string * Wire)) : Wire := WMap ((tag, WString kind) :: fields).

Definition thinking_wire (t : ThinkingMode) : Wire := WString (thinking_text t).

Definition adapter_text (a : ModelAdapter) : string :=
  match a with
  | OpenAiChat => "open_ai_chat" | AnthropicChat => "anthropic_chat" | GeminiEmbedding => "gemini_embedding"
  | OpenAiEmbedding => "open_ai_embedding" | OllamaEmbedding => "ollama_embedding"
  | CohereRerank => "cohere_rerank" | JevClassifier => "jev_classifier"
  end.

Definition provider_wire (p : RouteProvider) : Wire :=
  let kind k fields := wire_tagged "kind" k fields in
  match p with
  | RouteOpenAiChat operator thinking effort =>
      kind "open_ai_chat"%string ([("operator"%string, WString operator)] ++ skip_none "thinking" thinking_wire thinking
        ++ skip_none "reasoning_effort" (λ e, WString (effort_text e)) effort)
  | RouteAnthropicChat operator thinking =>
      kind "anthropic_chat"%string [("operator", WString operator); ("thinking", opt_wire thinking_wire thinking)]%string
  | RouteJevClassifier operator => kind "jev_classifier"%string [("operator"%string, WString operator)]
  | RouteGeminiEmbedding dimensions => kind "gemini_embedding"%string [("dimensions"%string, WInt dimensions)]
  | RouteCompatibleEmbedding adapter operator dimensions full tokens =>
      kind "compatible_embedding"%string
        [("adapter", WString (adapter_text adapter)); ("operator", WString operator); ("dimensions", WInt dimensions);
         ("embedding_full_dimensions", WInt full); ("embedding_input_tokens", WInt tokens)]%string
  | RouteCohereRerank operator bytes candidates context query =>
      kind "cohere_rerank"%string
        [("operator", WString operator); ("rerank_input_bytes", WInt bytes); ("rerank_candidates", WInt candidates);
         ("rerank_context_tokens", WInt context); ("rerank_query_tokens", WInt query)]%string
  end.

(** A resolver has no serialization; [route_revision] replaces it first. *)
Definition secret_wire (s : SecretSource) : Wire :=
  match s with
  | SecretFile path => wire_tagged "backend" "owner_only_file" [("path"%string, WString path)]
  | _ => wire_tagged "backend" "none" []
  end.

Definition budget_wire (b : RequestBudget) : Wire :=
  WMap [("attempts", WInt (rb_attempts b)); ("renewal_seconds", opt_wire WInt (rb_renewal_seconds b))]%string.

Definition route_wire (r : RouteConfig) : Wire :=
  WMap ([("tenant", WString (rt_tenant r)); ("account", WString (rt_account r));
         ("account_sharing_key", opt_wire WString (rt_account_sharing_key r));
         ("provider_request_limit", opt_wire WInt (rt_provider_request_limit r));
         ("max_attempts", WInt (rt_max_attempts r))]%string
        ++ skip_none "request_budget" budget_wire (rt_request_budget r)
        ++ match rt_answer_recovery r with Retain => [] | Off => [("answer_recovery", WString "off")]%string end
        ++ [("route", WString (rt_route r)); ("secret_ref", WString (rt_secret_ref r)); ("secret", secret_wire (rt_secret r));
            ("destination", WString (rt_destination r)); ("model", WString (rt_model r));
            ("provider", provider_wire (rt_provider r)); ("allow_loopback_http", WBool (rt_allow_loopback_http r));
            ("max_input_bytes", WInt (rt_max_input_bytes r)); ("max_response_bytes", WInt (rt_max_response_bytes r));
            ("max_field_bytes", WInt (rt_max_field_bytes r)); ("max_output_tokens", WInt (rt_max_output_tokens r));
            ("max_in_flight", WInt (rt_max_in_flight r));
            ("requests_per_minute", opt_wire WInt (rt_requests_per_minute r));
            ("input_units_per_minute", opt_wire WInt (rt_input_units_per_minute r));
            ("timeout_seconds", WInt (rt_timeout_seconds r))]%string).

Definition keyless (r : RouteConfig) : RouteConfig :=
  mkRoute (rt_tenant r) (rt_account r) (rt_account_sharing_key r) (rt_provider_request_limit r) (rt_max_attempts r)
    (rt_request_budget r) (rt_answer_recovery r) (rt_route r) (rt_secret_ref r) SecretNone (rt_destination r)
    (rt_model r) (rt_provider r) (rt_allow_loopback_http r) (rt_max_input_bytes r) (rt_max_response_bytes r)
    (rt_max_field_bytes r) (rt_max_output_tokens r) (rt_max_in_flight r) (rt_requests_per_minute r)
    (rt_input_units_per_minute r) (rt_timeout_seconds r).

Definition binding_wire (b : BindingIdentity) : Wire :=
  WMap [("tenant", WString (bi_tenant b)); ("provider", WString (bi_provider b)); ("revision", WString (bi_revision b));
        ("account", WString (bi_account b))]%string.

(** ** Checks of a route *)

(** An octet of [Ipv4Addr::from_str]: no leading zero. *)
Definition octet (s : string) : option Z :=
  match s with String "0"%char (String _ _) => None | _ => parse_unsigned 255 s end.

(** The host is a loopback address: of the URL hosts only those in dotted form
    parse, since a bracketed one does not. *)
Definition loopback_ip (host : string) : bool :=
  match map octet (split_on "."%char host) with
  | [Some a; Some _; Some _; Some _] => a =? 127
  | _ => false
  end.

Definition route_refused (r : RouteConfig) (max_frame : Z) : bool :=
  blank (rt_account r) || String.eqb (rt_tenant r) "" || String.eqb (rt_route r) ""
  || negb (Bool.eqb (is_secret_none (rt_secret r)) (String.eqb (rt_secret_ref r) ""))
  || String.eqb (rt_model r) "" || (rt_max_field_bytes r =? 0) || (rt_max_input_bytes r =? 0)
  || (rt_max_response_bytes r =? 0) || (rt_max_output_tokens r =? 0) || (rt_max_in_flight r =? 0)
  || bool_decide (rt_requests_per_minute r = Some 0) || bool_decide (rt_input_units_per_minute r = Some 0)
  || (rt_max_attempts r =? 0)
  || match rt_request_budget r with Some b => rb_attempts b =? 0 | None => false end
  || (rt_timeout_seconds r =? 0) || (max_frame / 2 <? rt_max_input_bytes r).

(** A product or a sum that is [None] on overflow. *)
Definition usize_checked (n : Z) : option Z := if n <=? usize_max then Some n else None.

Definition reply_bound (r : RouteConfig) : option Z :=
  identity ← usize_checked (rt_max_field_bytes r * (4 * 6));
  response ← usize_checked (rt_max_response_bytes r * 4);
  both ← usize_checked (identity + response);
  usize_checked (both + REPLY_ENVELOPE_BYTES).

Definition url_refused (r : RouteConfig) (url : Url) : bool :=
  let loopback := match url_host url with
                  | Some host => String.eqb host "localhost" || loopback_ip host
                  | None => false
                  end in
  negb (String.eqb (url_username url) "") || is_some (url_password url) || is_some (url_query url)
  || is_some (url_fragment url) || negb (is_some (url_host url))
  || negb (String.eqb (url_scheme url) "https"
           || rt_allow_loopback_http r && loopback && String.eqb (url_scheme url) "http").

Definition gemini_model_byte (a : ascii) : bool :=
  between 48 57 a || between 65 90 a || between 97 122 a || existsb (Ascii.eqb a) ["-"; "_"; "."]%char.

Definition validate_route `{!Urls} (r : RouteConfig) (max_frame : Z) : result EgressError unit :=
  if match reply_bound r with Some bytes => max_frame <? bytes | None => true end then Err EgInvalidFrameConfiguration
  else if route_refused r max_frame then Err EgInvalidRequest
  else
    let? url := ok_or (parse_url (rt_destination r)) EgInvalidRequest in
    if url_refused r url then Err EgInvalidRequest
    else
      match rt_provider r with
      | RouteGeminiEmbedding dimensions =>
          if (dimensions =? 0)
             || negb (String.eqb (rt_destination r) "https://generativelanguage.googleapis.com/v1beta")
             || negb (all_bytes gemini_model_byte (rt_model r))
          then Err EgInvalidRequest else Ok tt
      | RouteOpenAiChat operator _ _ | RouteAnthropicChat operator _ | RouteJevClassifier operator =>
          if String.eqb operator "" then Err EgInvalidRequest else Ok tt
      | _ => Ok tt
      end.

(** The routes of a deployment by tenant and name, refused when two are the
    same. *)
Fixpoint check_routes `{!Urls} (routes : list RouteConfig) (max_frame : Z) (identities : gset (string * string)) :
    result EgressError unit :=
  match routes with
  | [] => Ok tt
  | r :: routes =>
      let? _ := validate_route r max_frame in
      if bool_decide ((rt_tenant r, rt_route r) ∈ identities) then Err EgInvalidRequest
      else check_routes routes max_frame ({[(rt_tenant r, rt_route r)]} ∪ identities)
  end.

(** [routes] of [Inner]. *)
Definition route_map (routes : list RouteConfig) : gmap (string * string) RouteConfig :=
  foldl (λ m r, <[(rt_tenant r, rt_route r) := r]> m) ∅ routes.

(** ** Settings of the transport *)

Definition default_settings : TransportSettings := mkSettings None None None None None None None None None None.

Definition route_settings (r : RouteConfig) : ModelAdapter * string * TransportSettings :=
  match rt_provider r with
  | RouteOpenAiChat operator thinking effort =>
      (OpenAiChat, operator, mkSettings thinking (effort_text <$> effort) None None None None None None None None)
  | RouteJevClassifier operator => (JevClassifier, operator, default_settings)
  | RouteAnthropicChat operator thinking =>
      (AnthropicChat, operator, mkSettings thinking None None None None None None None None None)
  | RouteGeminiEmbedding dimensions =>
      (GeminiEmbedding, "gemini"%string, mkSettings None None (Some dimensions) None None None None None None None)
  | RouteCompatibleEmbedding adapter operator dimensions full tokens =>
      (adapter, operator, mkSettings None None (Some dimensions) (Some full) (Some tokens) None None None None None)
  | RouteCohereRerank operator bytes candidates context query =>
      (CohereRerank, operator,
       mkSettings None None None None None (Some bytes) (Some candidates) (Some context) (Some query) None)
  end.

(** No hidden retry may spend a permit twice. *)
Definition queue_policy (r : RouteConfig) : ModelQueueConfig :=
  let d := default_ModelQueueConfig in
  mkModelQueueConfig (rt_provider_request_limit r) (rt_max_in_flight r) (mq_lease_seconds d) 1 1
    (mq_retry_jitter_seconds d) (Some (rt_timeout_seconds r)) (rt_requests_per_minute r) (rt_input_units_per_minute r)
    (mq_response_cache_dir d) (mq_rate_burst_seconds d) (mq_retry_base_delay_ms d) (mq_retry_provider_errors d)
    (mq_request_debug_dir d) None.

(** ** Attempts *)

Definition hex_byte (a : ascii) : bool := between 48 57 a || between 97 102 a.

Definition is_digest (value : string) : bool := (byte_len value =? 64) && all_bytes hex_byte value.

Definition field_refused (r : RouteConfig) (field : string) : bool :=
  String.eqb field "" || (rt_max_field_bytes r <? byte_len field).

Definition attempt_refused (r : RouteConfig) (a : DurableAttempt) : bool :=
  existsb (field_refused r)
    [da_tenant a; da_incarnation a; da_invocation_id a; da_caller_binding a; da_route a; da_destination a; da_model a;
     da_method a; da_manifest_ref a]
  || match da_job_queue a with Some queue => field_refused r queue | None => false end
  || (rt_max_field_bytes r <? byte_len (da_secret_ref a))
  || (da_attempt_ordinal a =? 0) || (da_grant_revision a =? 0) || (i64_max <? da_grant_revision a)
  || (da_record_sequence a =? 0) || (i64_max <? da_record_sequence a)
  || (da_expires_at a <=? da_recorded_at a) || (i64_max <? da_expires_at a)
  || (da_recovery_expires_at a =? 0)
  || negb (bool_decide (rt_answer_recovery r = Off)) && (da_attempt_ordinal a =? 1)
     && (da_recovery_expires_at a <=? da_recorded_at a)
  || (i64_max <? da_recovery_expires_at a)
  || negb (is_digest (da_input_digest a)) || negb (is_digest (da_input_manifest_digest a)).

Definition validate_attempt (routes : gmap (string * string) RouteConfig) (a : DurableAttempt) :
    result EgressError RouteConfig :=
  let? route := ok_or (routes !! (da_tenant a, da_route a)) EgRouteRefused in
  if attempt_refused route a then Err EgInvalidRequest
  else if negb (String.eqb (da_destination a) (rt_destination route)) || negb (String.eqb (da_model a) (rt_model route))
          || negb (String.eqb (da_method a) "POST") || negb (String.eqb (da_secret_ref a) (rt_secret_ref route))
  then Err EgRouteRefused
  else Ok route.

(** ** Payloads *)

Definition payload_error (e : ModelError) : EgressError :=
  if bool_decide (ModelError_code e = ProviderRequestLimitExceeded) then EgLimitExceeded else EgInvalidRequest.

(** The body is built and dropped. *)
Definition checked {A : Type} (f : ModelError → EgressError) (body : result ModelError A) : result EgressError unit :=
  let? _ := map_err f body in Ok tt.

Definition chat_fits (r : RouteConfig) (request : ChatRequest) : bool :=
  negb (bool_decide (cq_messages request = [])) && (Z.of_nat (length (cq_messages request)) <=? 128)
  && forallb (λ m, byte_len (cm_role m) <=? rt_max_field_bytes r) (cq_messages request)
  && match cq_max_output_tokens request with
     | Some limit => (0 <? limit) && (limit <=? rt_max_output_tokens r)
     | None => false
     end.

Section Routes.
Context `{!Sha256, !JsonWriter}.

Definition validate_payload (r : RouteConfig) (payload : ProviderPayload) : result EgressError unit :=
  if u32_max <? rt_max_input_bytes r then Err EgInvalidRequest
  else
    let? _ := encode_frame (payload_wire payload) (rt_max_input_bytes r) in
    let '(adapter, _, settings) := route_settings r in
    let limit := Some (rt_max_input_bytes r) in
    match rt_provider r, payload with
    | RouteJevClassifier _, PayClassify request =>
        checked payload_error (jev_classify_body (rt_model r) request limit)
    | RouteCompatibleEmbedding _ _ _ _ _, PayEmbedding request =>
        checked payload_error (compatible_embedding_body adapter (rt_model r) settings request (rt_max_input_bytes r))
    | RouteCohereRerank _ _ _ _ _, PayRerank request =>
        checked payload_error (cohere_rerank_body (rt_model r) settings request (rt_max_input_bytes r))
    | RouteAnthropicChat _ thinking, PayChat request =>
        if chat_fits r request then checked payload_error (anthropic_chat_body (rt_model r) request thinking limit)
        else Err EgInvalidRequest
    | RouteOpenAiChat _ thinking effort, PayChat request =>
        if chat_fits r request
        then checked payload_error (openai_chat_body (rt_model r) request thinking (effort_text <$> effort) limit)
        else Err EgInvalidRequest
    | RouteGeminiEmbedding dimensions, PayEmbedding request =>
        if negb (bool_decide (eq_inputs request = [])) && (Z.of_nat (length (eq_inputs request)) <=? 128)
           && match eq_dimensions request with Some value => value =? dimensions | None => true end
        then checked (λ _, EgLimitExceeded) (gemini_embedding_body (rt_model r) dimensions request limit)
        else Err EgInvalidRequest
    | _, _ => Err EgInvalidRequest
    end.

(** The attempt's digest becomes the source; provider-visible input stays. *)
Definition prepare_payload (payload : ProviderPayload) (d : string) : ProviderPayload :=
  match payload with
  | PayChat r => PayChat (mkChatRequest (cq_messages r) (cq_max_output_tokens r) (cq_temperature r)
                            (cq_response_format r) None (Some d) VNull)
  | PayEmbedding r => PayEmbedding (mkEmbeddingRequest (eq_inputs r) (eq_dimensions r) (eq_task r) None (Some d) VNull)
  | PayRerank r => PayRerank (mkRerankRequest (rq_query r) (rq_documents r) (rq_top_k r) None (Some d) VNull)
  | PayClassify r => PayClassify (mkClassifyRequest (cy_state r) (cy_questions r) (cy_state_description r) None (Some d) VNull)
  end.

(** ** Identities of a dispatch *)

Definition route_revision (r : RouteConfig) : string :=
  match rt_secret r with
  | SecretResolver name => digest (WArray [route_wire (keyless r); WString "resolver"; WString name])
  | _ => digest (route_wire r)
  end.

Definition account_scope (identity : BindingIdentity) (sharing : option string) : result ModelError string :=
  match sharing with
  | Some key =>
      if negb (blank key) then Ok ("account:" +:+ digest (WValue (object [("shared", VString key)]%string)))
      else Err (InvalidRequest AccountSharingKeyIsEmpty)
  | None =>
      Ok ("account:" +:+ digest (WValue (object [("tenant", VString (bi_tenant identity));
                                                 ("account", VString (bi_account identity))]%string)))
  end.

Definition egress_reference (a : DurableAttempt) : result EgressError string :=
  map_err (λ _, EgLimitExceeded) (SpendReceiptRef_new ("egress:" +:+ attempt_digest a)).

Definition request_key (r : RouteConfig) (input_digest : string) (credential_fingerprint : option string) : string :=
  digest (WArray [WString (rt_tenant r); WString (rt_route r); opt_wire WString credential_fingerprint;
                  WString input_digest]).

Definition spend_reservation (a : DurableAttempt) (r : RouteConfig) : result EgressError SpendReservation :=
  let? reference := egress_reference a in
  let? account := map_err (λ _, EgInvalidRequest)
                    (account_scope (mkBindingIdentity (rt_tenant r) (rt_route r) "ledger" (rt_account r))
                       (rt_account_sharing_key r)) in
  Ok (mkReservation reference account (invocation_key (attempt_id a)) (invocation_binding a)
        (rt_provider_request_limit r)).

Definition handoff_input_identity (kind : string) (binding : BindingIdentity) (request_hash : string) : string :=
  digest (WArray [WString kind; binding_wire binding; WString request_hash]).

Definition accepted_handoff (a : DurableAttempt) (r : RouteConfig) (payload : ProviderPayload) :
    result EgressError AcceptedSpendHandoff :=
  let '(kind, request_hash) :=
    match payload with
    | PayChat request => ("chat"%string, digest (chat_request_wire request))
    | PayEmbedding request => ("embedding"%string, digest (embedding_request_wire request))
    | PayRerank request => ("rerank"%string, digest (rerank_request_wire request))
    | PayClassify request => ("classify"%string, digest (classify_request_wire request))
    end in
  let binding := mkBindingIdentity (rt_tenant r) (rt_route r) (route_revision r) (rt_account r) in
  let? reservation := spend_reservation a r in
  Ok (mkHandoff reservation (handoff_input_identity kind binding request_hash)).

End Routes.

(** ** Results of an execution *)

Definition finish_reason (reason : option string) : option FinishReason :=
  (λ reason, if existsb (String.eqb reason) ["stop"; "end_turn"; "stop_sequence"]%string then FinishStop
             else if existsb (String.eqb reason) ["length"; "max_tokens"; "model_context_window_exceeded"]%string
             then FinishLength else FinishOther) <$> reason.

Record ExecuteError : Type := mkExecuteError {
  ee_code : EgressError;
  ee_may_have_dispatched : bool;
  ee_diagnostics : list DispatchDiagnostic;
}.

(** A failure before the provider was reached. *)
Definition not_sent (code : EgressError) : ExecuteError := mkExecuteError code false [].

Definition error_code (e : ModelError) : EgressError :=
  match ModelError_primary e with
  | RateLimited _ => EgRateLimited (http_details e ≫= snd)
  | Timeout _ => EgTimeout
  | primary =>
      match http_details e with
      | Some (status, _) => EgProvider (Some status)
      | None =>
          match primary with
          | Unavailable InvalidResponse => EgInvalidProviderJson
          | Provider _ | Auth _ | BudgetExhausted _ => EgProvider None
          | Queue _ => EgStateUnavailable
          | InvalidRequest _ => EgInvalidRequest
          | _ => EgTransport
          end
      end
  end.

Definition execute_error (e : ModelError) (started : bool) : ExecuteError :=
  mkExecuteError (error_code e) started
    (match ModelError_primary e with
     | Provider ProviderResponseLimitExceeded => [DiagMaxResponseBytesExceeded]
     | _ => []
     end
     ++ omap (λ c, if bool_decide (c = InvalidResponse) then Some DiagInvalidRetryAfter else None)
          (ModelError_diagnostics e)).

(** [Dispatched::outcome]: whether the call still counts as started. *)
Definition dispatch_outcome {T : Type} (failure_charge_ : ModelError → FailureCharge) (outcome : result ModelError T) : bool :=
  match outcome with
  | Err e =>
      negb (match ModelError_primary e with Timeout _ => false | _ => true end
            && match failure_charge_ e with KnownZero => true | ChargeUnknown => false end)
  | _ => true
  end.

(** The diagnostics [completed] finds in a trace, each once. *)
Definition diagnostic_of (entry : Value) : option DispatchDiagnostic :=
  kind ← get "kind" entry ≫= as_str;
  if String.eqb kind "invalid_usage_identity" then Some DiagInvalidUsageIdentity
  else if String.eqb kind "queue_complete_failed" then Some DiagQueueCompleteFailed
  else if String.eqb kind "trace_write_failed" then Some DiagTraceWriteFailed
  else if String.eqb kind "response_cache_write_failed" then Some DiagResponseCacheWriteFailed
  else None.

#[export] Instance DispatchDiagnostic_eq_dec : EqDecision DispatchDiagnostic.
Proof. solve_decision. Defined.

Definition add_diagnostic (found : list DispatchDiagnostic) (entry : Value) : list DispatchDiagnostic :=
  match diagnostic_of entry with
  | Some d => if bool_decide (d ∈ found) then found else found ++ [d]
  | None => found
  end.

Definition completed (output : ProviderOutput) (t : ModelInvocationTrace) :
    ProviderOutput * UsageTrace * list DispatchDiagnostic :=
  (output, it_usage t,
   match get RUNTIME_DIAGNOSTICS (it_metadata t) with
   | Some (VArray entries) => foldl add_diagnostic [] entries
   | _ => []
   end).
