(* ===== verification/EgressDeployment.v ===== *)
(** [symbiotic-credential-process], [validated_registry] of [lib.rs] and
    [configured_registry] of [provider.rs]: the routes of a deployment are
    checked and compiled into the model registry an embedded runtime uses.

    Models and account policies are collected in hash maps keyed by the digest
    of their JSON; [MapValues] is the order those maps give their values in. *)

From Stdlib Require Import ZArith Lia.
From stdpp Require Import base gmap strings list.
From S2P Require Import Prelude Text Core SpendTypes Json Trace ExecutionPolicy Responses Wire ModelRegistry Adapters ChatAdapters.
From S2P Require Import SpendLedger EgressTypes EgressRegistry EgressRoutes.

#[local] Open Scope Z_scope.

(** [HashMap::into_values]. *)
Class MapValues : Type := {
  map_values {A : Type} : gmap string A → list A;
  map_values_perm {A : Type} (m : gmap string A) : map_values m ≡ₚ (map_to_list m).*2;
}.

Definition map_values_listed : MapValues :=
  {| map_values A m := (map_to_list m).*2; map_values_perm A m := Permutation_refl _ |}.

(** ** What is serialized *)

Definition identity_wire (i : ModelIdentity) : Wire :=
  WMap [("operation", WString (mi_operation i)); ("operator", WString (mi_operator i)); ("model", WString (mi_model i))]%string.

Definition policy_wire (p : ModelQueueConfig) : Wire :=
  WMap [("provider_request_limit", opt_wire WInt (mq_provider_request_limit p));
        ("max_in_flight", WInt (mq_max_in_flight p)); ("lease_seconds", WInt (mq_lease_seconds p));
        ("logical_retry_attempts", WInt (mq_logical_retry_attempts p)); ("retry_attempts", WInt (mq_retry_attempts p));
        ("retry_jitter_seconds", WInt (mq_retry_jitter_seconds p));
        ("request_timeout_seconds", opt_wire WInt (mq_request_timeout_seconds p));
        ("requests_per_minute", opt_wire WInt (mq_requests_per_minute p));
        ("input_units_per_minute", opt_wire WInt (mq_input_units_per_minute p));
        ("response_cache_dir", opt_wire WString (mq_response_cache_dir p));
        ("rate_burst_seconds", WInt (mq_rate_burst_seconds p)); ("retry_base_delay_ms", WInt (mq_retry_base_delay_ms p));
        ("retry_provider_errors", WBool (mq_retry_provider_errors p));
        ("request_debug_dir", opt_wire WString (mq_request_debug_dir p));
        ("budget_renewal_seconds", opt_wire WInt (mq_budget_renewal_seconds p))]%string.

Definition default_ModelCapabilities : ModelCapabilities := mkCapabilities None false false ReasoningNone CostStandard None.

Section Deployment.
Context `{!Chrono, !Urls, !Dates, !TextEncodings, !Sha256, !JsonWriter, !MapValues} (debug_assertions : bool) (now : DateTime).

(** ** The registry of the routes *)

Definition route_adapter (r : RouteConfig) : ModelAdapter := let '(adapter, _, _) := route_settings r in adapter.

Definition operation_text (a : ModelAdapter) : string :=
  match adapter_capability a with Chat => "chat" | Rerank => "rerank" | Classify => "classify" | _ => "embedding" end.

Definition route_identity (r : RouteConfig) : ModelIdentity :=
  let '(adapter, operator, _) := route_settings r in mkModelIdentity (operation_text adapter) operator (rt_model r).

Definition model_id (r : RouteConfig) : string := digest (identity_wire (route_identity r)).

Definition route_model (r : RouteConfig) : ModelEntry :=
  mkModelEntry (model_id r) [] (route_identity r) (route_adapter r) [adapter_capability (route_adapter r)]
    default_ModelCapabilities None.

Definition policy_id (r : RouteConfig) : string := digest (policy_wire (queue_policy r)).

Definition route_account (r : RouteConfig) : AccountExecutionPolicy := mkAccount (policy_id r) (queue_policy r).

Definition route_limits (r : RouteConfig) : ProviderLimits :=
  mkLimits (rt_max_input_bytes r) (rt_max_response_bytes r)
    (if bool_decide (adapter_capability (route_adapter r) = Chat) then Some (rt_max_output_tokens r) else None).

Definition route_tenant_binding (r : RouteConfig) : TenantProviderBinding :=
  let '(_, _, settings) := route_settings r in
  mkBinding (mkBindingIdentity (rt_tenant r) (rt_route r) (route_revision r) (rt_account r)) (model_id r)
    (rt_destination r) (if String.eqb (rt_secret_ref r) "" then None else Some (rt_secret_ref r)) (policy_id r)
    (rt_account_sharing_key r) (route_limits r) settings.

(** [entry(id).or_insert(value)]. *)
Definition or_insert {A : Type} (id : string) (value : A) (m : gmap string A) : gmap string A :=
  match m !! id with Some _ => m | None => <[id := value]> m end.

Fixpoint configure (routes : list RouteConfig) (models : gmap string ModelEntry)
    (accounts : gmap string AccountExecutionPolicy) (bindings : list TenantProviderBinding) :
    result EgressError (gmap string ModelEntry * gmap string AccountExecutionPolicy * list TenantProviderBinding) :=
  match routes with
  | [] => Ok (models, accounts, bindings)
  | r :: routes =>
      let models := or_insert (model_id r) (route_model r) models in
      if match models !! model_id r with Some e => negb (bool_decide (me_adapter e = route_adapter r)) | None => true end
      then Err EgInvalidRequest
      else configure routes models (or_insert (policy_id r) (route_account r) accounts) (bindings ++ [route_tenant_binding r])
  end.

Definition configured_registry (routes : list RouteConfig) : result EgressError ModelRegistry :=
  let? '(models, accounts, bindings) := configure routes ∅ ∅ [] in
  map_err (λ _, EgInvalidRequest)
    (ModelRegistry_new debug_assertions now (mkRegistryConfig 1 (map_values models) bindings (map_values accounts))).

Definition validated_registry (routes : list RouteConfig) (max_frame_bytes : Z) : result EgressError ModelRegistry :=
  let? _ := validate_frame_size max_frame_bytes in
  if bool_decide (length routes = 0%nat) then Err EgInvalidRequest
  else
    let? _ := check_routes routes max_frame_bytes ∅ in
    configured_registry routes.

(** ** What the tables hold *)

Lemma or_insert_self {A : Type} id (v : A) m : is_Some (or_insert id v m !! id).
Proof. unfold or_insert. destruct (m !! id) eqn:E; [by rewrite E|]. rewrite lookup_insert_eq. by eexists. Qed.

Lemma or_insert_keeps {A : Type} id (v : A) m : m ⊆ or_insert id v m.
Proof. unfold or_insert. destruct (m !! id) eqn:E; [done|]. by apply insert_subseteq. Qed.

Lemma or_insert_inv {A : Type} id (v : A) m id' v' : or_insert id v m !! id' = Some v' →
  m !! id' = Some v' ∨ (id' = id ∧ v' = v).
Proof.
  unfold or_insert. destruct (m !! id) eqn:E; [by left|]. destruct (decide (id' = id)) as [->|Hne].
  - rewrite lookup_insert_eq. intros [= <-]. by right.
  - rewrite lookup_insert_ne by done. by left.
Qed.

(** The tables come from the routes, and hold one entry of each. *)
Lemma configure_ok routes models accounts bindings models' accounts' bindings' :
  configure routes models accounts bindings = Ok (models', accounts', bindings') →
  bindings' = bindings ++ map route_tenant_binding routes
  ∧ models ⊆ models' ∧ accounts ⊆ accounts'
  ∧ (∀ id m, models' !! id = Some m → models !! id = Some m ∨ ∃ r, r ∈ routes ∧ id = model_id r ∧ m = route_model r)
  ∧ (∀ id a, accounts' !! id = Some a → accounts !! id = Some a ∨ ∃ r, r ∈ routes ∧ id = policy_id r ∧ a = route_account r)
  ∧ (∀ r, r ∈ routes → ∃ m, models' !! model_id r = Some m ∧ me_adapter m = route_adapter r).
Proof.
  revert models accounts bindings. induction routes as [|r routes IH]; intros models accounts bindings; simpl.
  { intros [= <- <- <-]. rewrite app_nil_r. split_and!; [done|done|done|by left|by left|by intros r Hr%elem_of_nil]. }
  destruct (or_insert_self (model_id r) (route_model r) models) as [e He]. rewrite He.
  case_bool_decide as Had; [|done]. simpl. intros Hc. destruct (IH _ _ _ Hc) as (Hb & Hm & Ha & Hmi & Hai & Hr).
  split_and!.
  - by rewrite Hb, <-app_assoc.
  - etrans; [apply or_insert_keeps|done].
  - etrans; [apply or_insert_keeps|done].
  - intros id m Hid. destruct (Hmi id m Hid) as [Hold|(r' & Hin & Hr')]; [|right; exists r'; split; [by right|done]].
    apply or_insert_inv in Hold as [Hold|[-> ->]]; [by left|]. right. exists r. split; [by left|done].
  - intros id a Hid. destruct (Hai id a Hid) as [Hold|(r' & Hin & Hr')]; [|right; exists r'; split; [by right|done]].
    apply or_insert_inv in Hold as [Hold|[-> ->]]; [by left|]. right. exists r. split; [by left|done].
  - intros r' [->|Hin]%elem_of_cons; [|by apply Hr]. exists e. split; [by eapply lookup_weaken|done].
Qed.

Lemma map_values_elem {A : Type} (m : gmap string A) v : v ∈ map_values m → ∃ id, m !! id = Some v.
Proof.
  rewrite map_values_perm. intros ([id v'] & -> & Hin)%list_elem_of_fmap. exists id. by apply elem_of_map_to_list in Hin.
Qed.

(** ** What a deployment serves *)

(** The digests tell the models and the policies of a deployment apart. *)
Definition digests_distinct (routes : list RouteConfig) : Prop := ∀ r r', r ∈ routes → r' ∈ routes →
  (model_id r = model_id r' → route_identity r = route_identity r')
  ∧ (policy_id r = policy_id r' → queue_policy r = queue_policy r').

(** The entry a binding's model and account name. *)
Lemma configured_entries routes models accounts bindings r m a b :
  configure routes ∅ ∅ [] = Ok (models, accounts, bindings) → r ∈ routes →
  served (mkRegistryConfig 1 (map_values models) bindings (map_values accounts)) b m a →
  tb_model b = model_id r → tb_account_policy b = policy_id r →
  me_adapter m = route_adapter r
  ∧ (∃ r', r' ∈ routes ∧ model_id r' = model_id r ∧ m = route_model r')
  ∧ ∃ r', r' ∈ routes ∧ policy_id r' = policy_id r ∧ a = route_account r'.
Proof.
  intros Hc Hr [[Hm Hname] [Ha Hid] _ _ _] Hbm Hba. simpl in *.
  apply configure_ok in Hc as (_ & _ & _ & Hmi & Hai & Hent).
  apply map_values_elem in Hm as [id Hm], Ha as [id' Ha].
  destruct (Hmi id m Hm) as [Hn|(rm & Hrm & -> & ->)]; [by rewrite lookup_empty in Hn|].
  destruct (Hai id' a Ha) as [Hn|(ra & Hra & -> & ->)]; [by rewrite lookup_empty in Hn|].
  unfold names_of in Hname. simpl in Hname. apply list_elem_of_singleton in Hname. simpl in Hid.
  destruct (Hent r Hr) as (m' & Hm' & Had). split_and!.
  - rewrite <-Had. f_equal. rewrite <-Hbm, Hname in Hm'. congruence.
  - exists rm. split_and!; [done|congruence|done].
  - exists ra. split_and!; [done|congruence|done].
Qed.

(** C16: A deployment that is accepted serves each of its routes, by tenant and
    name, with the destination, limits, settings and account of its own
    configuration, through its own adapter; the model it asks for and the policy
    it runs under are its own where digests do not collide, and in any case no
    policy retries a send on its own. *)
Theorem deployment_resolves routes max_frame r : validated_registry routes max_frame = Ok r →
  ∀ route, route ∈ routes → ∃ m a,
    registry_binding r (rt_tenant route) (rt_route route) = Ok (mkRegistryBinding (route_tenant_binding route) m a)
    ∧ me_adapter m = route_adapter route
    ∧ mq_retry_attempts (ap_policy a) = 1 ∧ mq_logical_retry_attempts (ap_policy a) = 1
    ∧ (digests_distinct routes → me_identity m = route_identity route ∧ ap_policy a = queue_policy route).
Proof.
  unfold validated_registry, configured_registry. walk.
  match goal with Hc : configure _ _ _ _ = Ok _ |- _ => rename Hc into Hconf end. intros Hnew route Hroute.
  destruct (ModelRegistry_new _ _ _) as [r'| |] eqn:Hr; [|done..]. injection Hnew as ->.
  apply registry_serves in Hr as [final Hserves]. cbn [rc_bindings] in Hserves.
  pose proof (configure_ok _ _ _ _ _ _ _ Hconf) as (Hb & _). simpl in Hb.
  destruct (Hserves (route_tenant_binding route)) as (m & ac & key & Hbind & Hs & _).
  { rewrite Hb. apply list_elem_of_fmap. by exists route. }
  assert (binding_key (route_tenant_binding route) = (rt_tenant route, rt_route route)) as Hkey
    by (unfold binding_key, route_tenant_binding; by destruct (route_settings route) as [[? ?] ?]).
  assert (tb_model (route_tenant_binding route) = model_id route ∧ tb_account_policy (route_tenant_binding route) = policy_id route)
    as [Hbm Hba] by (unfold route_tenant_binding; by destruct (route_settings route) as [[? ?] ?]).
  destruct (configured_entries _ _ _ _ route m ac _ Hconf Hroute Hs Hbm Hba) as (Had & (rm & Hrm & Hmid & ->) & ra & Hra & Hpid & ->).
  exists (route_model rm), (route_account ra). rewrite Hkey in Hbind. split_and!; [exact Hbind|exact Had|done|done|].
  intros Hd. split; [by apply (Hd rm route)|by apply (Hd ra route)].
Qed.

End Deployment.

(** ** A deployment of two routes *)

Section Sample.
#[local] Instance routes_urls : Urls := {| parse_url s := Some (mkUrl "https" (Some s) "" None None None) |}.
#[local] Instance routes_dates : Dates := {| date_ok _ := true |}.
#[local] Instance routes_chrono : Chrono := chrono_range.
#[local] Instance routes_text : TextEncodings := {|
  json_text v := match v with
                 | VArray values => join "," (map (λ v, match v with VString s => s | _ => EmptyString end) values)
                 | VString s => quoted s
                 | _ => EmptyString
                 end;
  base64 _ s := s;
  json_string_quoted s := ex_intro _ s eq_refl;
|}.
#[local] Instance routes_sha : Sha256 := {| sha256 s := s |}.
#[local] Instance routes_writer : JsonWriter := {|
  write_calls w := match w with
                   | WMap [(_, WString a); (_, WString b); (_, WString c)] => [a; b; c]
                   | _ => ["{"; "}"]%string
                   end
|}.
#[local] Instance routes_values : MapValues := map_values_listed.

Definition sample_route (name model : string) : RouteConfig :=
  mkRoute "t" "acct" None (Some 100) 3 None Retain name "ref" (SecretFile "/k") "https://x" model
    (RouteOpenAiChat "op" None None) false 10000 10000 100 50 1 None None 30.

Definition sample_routes : list RouteConfig := [sample_route "r1" "m1"; sample_route "r2" "m2"].

Lemma deployment_resolves_witness : ∃ r m a, validated_registry true 0 sample_routes 100000 = Ok r
  ∧ registry_binding r "t" "r2" = Ok (mkRegistryBinding (route_tenant_binding (sample_route "r2" "m2")) m a)
  ∧ me_identity m = mkModelIdentity "chat" "op" "m2" ∧ mq_retry_attempts (ap_policy a) = 1.
Proof.
  assert (match validated_registry true 0 sample_routes 100000 with Ok _ => true | _ => false end = true) as Hok
    by (vm_compute; reflexivity).
  destruct (validated_registry true 0 sample_routes 100000) as [r| |] eqn:E; [|discriminate Hok..].
  destruct (deployment_resolves true 0 sample_routes 100000 r E (sample_route "r2" "m2")) as (m & a & Hr & _ & Hretry & _ & Hd);
    [right; left|].
  exists r, m, a. split; [reflexivity|]. split; [exact Hr|]. split; [|exact Hretry].
  apply Hd. intros r1 r2 Hin1 Hin2. split.
  - apply elem_of_cons in Hin1 as [->| ->%list_elem_of_singleton]; apply elem_of_cons in Hin2 as [->| ->%list_elem_of_singleton].
    + intros _. reflexivity.
    + intros Hid. vm_compute in Hid. discriminate Hid.
    + intros Hid. vm_compute in Hid. discriminate Hid.
    + intros _. reflexivity.
  - intros _. apply elem_of_cons in Hin1 as [->| ->%list_elem_of_singleton];
      apply elem_of_cons in Hin2 as [->| ->%list_elem_of_singleton]; reflexivity.
Defined.

End Sample.
