(* ===== verification/EgressProcess.v ===== *)
(** [symbiotic-credential-process], [lib.rs] and the [Admission] of [jobs.rs]:
    the credential process over its durable registry.

    [operation] answers a protocol request.  A dispatch is spawned by the
    request that consumed its permit and runs as a [Task]: it resolves the
    credential, admits the request, executes it and records the completion.
    Tasks, requests, durable jobs and the executor's own calls of the ledger
    interleave between transactions: [process_step] performs one transaction or
    one outcome of the environment.  A crash drops the tasks and keeps the
    tables. *)

From Stdlib Require Import ZArith Lia Ascii.
From stdpp Require Import base gmap strings list.
From S2P Require Import Prelude Text Core SpendTypes Json Trace ExecutionPolicy Responses.
From S2P Require Import Float64 Wire ModelRegistry Adapters ChatAdapters RetrievalAdapters Classify Classifiers.
From S2P Require Import SpendLedger JobTypes EgressTypes EgressRegistry EgressRoutes.

#[local] Open Scope Z_scope.

(** ** Requests *)

Record InjectProviderCredential : Type := mkInject {
  ij_operation_version : Z;
  ij_admission : SignedAttempt;
  ij_permit : DispatchPermit;
  ij_payload : ProviderPayload;
}.

(** The operations on single attempts; the job operations are those of the
    durable model jobs. *)
Inductive Operation : Type :=
| IssuePermit (signed : SignedAttempt)
| QueryStatus (signed : SignedAttemptId)
| Inject (request : InjectProviderCredential)
| PublishGrantRevision (signed : SignedGrantRevision)
| QueryReceipt (signed : SignedAttemptId).

Inductive Reply : Type :=
| ReplyPermit (grant : PermitGrant)
| ReplyStatus (status : AttemptStatus)
| ReplyDispatched (answer : DispatchResult)
| ReplyPublished
| ReplyReceipt (receipt : option DispatchReceipt).

(** ** Dispatches *)

(** How the work of a dispatch ends. *)
Inductive Outcome : Type :=
| NoCredential
| Failed (failure : ExecuteError)
| Succeeded (answer : ProviderOutput) (usage : UsageTrace) (diagnostics : list DispatchDiagnostic).

(** [held] says the gate of the key is held, as on a route with a budget; a
    task that panicked is lost, its gate with it. *)
Inductive Phase : Type :=
| Resolving
| Waiting (key : string)
| Executing (key : string) (held : bool) (admission : option RequestBudgetAdmission)
| Finishing (gate : option string) (admission : option RequestBudgetAdmission) (outcome : Outcome)
| Replied (answer : DispatchResult)
| Lost.

Definition AnswerValidator : Type := ProviderOutput → bool.

Record Task : Type := mkTask {
  tk_route : RouteConfig;
  tk_payload : ProviderPayload;
  tk_receipt : DispatchReceipt;
  tk_handoff : AcceptedSpendHandoff;
  tk_input_digest : string;
  tk_validator : option AnswerValidator;
  tk_phase : Phase;
}.

Definition with_phase (phase : Phase) (t : Task) : Task :=
  mkTask (tk_route t) (tk_payload t) (tk_receipt t) (tk_handoff t) (tk_input_digest t) (tk_validator t) phase.

(** The gate a task holds: from its admission until its completion. *)
Definition holds (t : Task) : option string :=
  match tk_phase t with
  | Executing key true _ => Some key
  | Finishing gate _ _ => gate
  | _ => None
  end.

Definition with_status (status : DispatchStatus) (r : DispatchReceipt) : DispatchReceipt :=
  mkDispatchReceipt (dr_attempt_digest r) (dr_attempt_id r) (dr_reference r) status (dr_usage r) (dr_spend_state r).

Definition with_spend (state : SpendState) (r : DispatchReceipt) : DispatchReceipt :=
  mkDispatchReceipt (dr_attempt_digest r) (dr_attempt_id r) (dr_reference r) (dr_status r) (dr_usage r) state.

Definition with_usage (usage : UsageTrace) (r : DispatchReceipt) : DispatchReceipt :=
  mkDispatchReceipt (dr_attempt_digest r) (dr_attempt_id r) (dr_reference r) (dr_status r) usage (dr_spend_state r).

(** What an execution says about the receipt. *)
Definition observe (r : DispatchReceipt) (outcome : Outcome) : DispatchResult :=
  match outcome with
  | NoCredential =>
      mkDispatchResult (Some EgCredentialUnavailable) [] true
        (with_spend SpendReleased (with_status DispatchCredentialUnavailable r)) None
  | Succeeded answer usage diagnostics =>
      let r := with_usage usage (with_status DispatchSucceeded r) in
      mkDispatchResult None diagnostics true
        (if has_measured_usage usage then with_spend SpendSettled r else r) (Some answer)
  | Failed failure =>
      mkDispatchResult (Some (ee_code failure)) (ee_diagnostics failure) true
        (if ee_may_have_dispatched failure then r else with_spend SpendReleased r) None
  end.

(** A rejected answer is still paid. *)
Definition validated (validator : option AnswerValidator) (d : DispatchResult) : DispatchResult :=
  match ds_output d, validator with
  | Some answer, Some validate =>
      if validate answer then d
      else mkDispatchResult (Some (EgProvider None)) (ds_diagnostics d) (ds_receipt_persisted d)
             (with_status DispatchProviderFailed (ds_receipt d)) None
  | _, _ => d
  end.

(** A completion that was not recorded claims no decision. *)
Definition unpersisted (d : DispatchResult) : DispatchResult :=
  mkDispatchResult (ds_error d) (ds_diagnostics d) false (with_spend SpendUnknown (ds_receipt d)) (ds_output d).

(** A failed admission keeps the gate until the completion. *)
Definition gate_of (key : string) (held : bool) : option string := if held then Some key else None.

(** ** The process *)

Record Process `{!JsonValues} : Type := mkProcess {
  pr_db : EgressDb;
  pr_tasks : list Task;
}.
Arguments mkProcess {_}.

Section Process.
Context `{!JsonValues, !Sha256, !JsonWriter, !Hmac, !PermitOrder}.

(** The deployment: its routes and its admission key. *)
Context (routes : gmap (string * string) RouteConfig) (key : string).

(** *** Requests *)

Definition purge_expired_results (db : EgressDb) (clock : option Z) : result EgressError (EgressDb * unit) :=
  let? time := now clock in purge_expired db time.

(** [clock] lists the readings of the clock. *)
Definition issue_permit (db : EgressDb) (signed : SignedAttempt) (clock : nat → option Z) (token : string) :
    result EgressError (EgressDb * PermitGrant) :=
  let? _ := verify_attempt key signed in
  let? _ := now (clock 0%nat) in
  let? old := existing db (signed_value signed) (clock 1%nat) in
  match old with
  | Some grant => Ok (db, grant)
  | None =>
      let? route := validate_attempt routes (signed_value signed) in
      issue db (signed_value signed) (rt_max_attempts route) (clock 2%nat) (clock 3%nat) (clock 4%nat) token
  end.

Definition query_status (db : EgressDb) (signed : SignedAttemptId) (clock : option Z) :
    result EgressError AttemptStatus :=
  let? _ := verify_attempt_id key signed in
  let? time := now clock in
  attempt_status db (signed_value signed) time.

Definition publish_grant (db : EgressDb) (signed : SignedGrantRevision) : result EgressError (EgressDb * unit) :=
  let? _ := verify_grant_revision key signed in
  let g := signed_value signed in
  if String.eqb (gr_tenant g) "" || String.eqb (gr_incarnation g) "" || (gr_revision g =? 0) || (i64_max <? gr_revision g)
  then Err EgInvalidRequest else publish_revision db g.

Definition query_receipt (db : EgressDb) (signed : SignedAttemptId) : result EgressError (option DispatchReceipt) :=
  let? _ := verify_attempt_id key signed in receipt db (signed_value signed).

(** The permit is consumed and the dispatch spawned with nothing in between. *)
Definition inject (db : EgressDb) (request : InjectProviderCredential) (validator : option AnswerValidator)
    (clock second : option Z) (utc : DateTime) : result EgressError (EgressDb * Task) :=
  if negb (ij_operation_version request =? PROTOCOL_VERSION) then Err EgVersion
  else
    let? _ := verify_attempt key (ij_admission request) in
    let? _ := now clock in
    let a := signed_value (ij_admission request) in
    let? route := validate_attempt routes a in
    let? _ := validate_payload route (ij_payload request) in
    if negb (String.eqb (payload_digest (ij_payload request)) (da_input_digest a)) then Err EgInvalidRequest
    else
      let payload := prepare_payload (ij_payload request) (attempt_digest a) in
      let? handoff := accepted_handoff a route payload in
      let? '(db, receipt) := consume db a (ij_permit request) handoff (rt_max_attempts route) second utc in
      Ok (db, mkTask route payload receipt handoff (da_input_digest a) validator Resolving).

(** The answer of an operation, or the dispatch whose completion answers it. *)
Definition operation (db : EgressDb) (op : Operation) (validator : option AnswerValidator) (clock : nat → option Z)
    (token : string) (utc : DateTime) : result EgressError (EgressDb * (Reply + Task)) :=
  match op with
  | IssuePermit signed =>
      let? '(db, grant) := issue_permit db signed clock token in Ok (db, inl (ReplyPermit grant))
  | QueryStatus signed =>
      let? status := query_status db signed (clock 0%nat) in Ok (db, inl (ReplyStatus status))
  | PublishGrantRevision signed =>
      let? '(db, _) := publish_grant db signed in Ok (db, inl ReplyPublished)
  | QueryReceipt signed =>
      let? found := query_receipt db signed in Ok (db, inl (ReplyReceipt found))
  | Inject request =>
      let? '(db, task) := inject db request validator (clock 0%nat) (clock 1%nat) utc in Ok (db, inr task)
  end.

(** A request of this protocol: what has expired is purged first. *)
Definition handle (db : EgressDb) (version : Z) (op : Operation) (validator : option AnswerValidator)
    (purged : option Z) (clock : nat → option Z) (token : string) (utc : DateTime) :
    result EgressError (EgressDb * (Reply + Task)) :=
  if negb (version =? PROTOCOL_VERSION) then Err EgVersion
  else
    let? '(db, _) := purge_expired_results db purged in
    operation db op validator clock token utc.

(** *** Dispatches *)

(** The credential arrives, or not. *)
Definition resolve (t : Task) (secret : option string) : Phase :=
  match secret with
  | Some value => Waiting (request_key (tk_route t) (tk_input_digest t) (api_key_fingerprint value))
  | None => Finishing None None NoCredential
  end.

Definition gate_taken (tasks : list Task) (key : string) : bool :=
  existsb (λ t, bool_decide (holds t = Some key)) tasks.

(** The gate is taken when the route has a budget; [None]: it has to wait. *)
Definition admit_dispatch (s : Process) (t : Task) (request : string) (clock : option Z) : option (EgressDb * Phase) :=
  let held := is_some (rt_request_budget (tk_route t)) in
  if held && gate_taken (pr_tasks s) request then None
  else
    Some (match admit_request_in (pr_db s) (dr_attempt_digest (tk_receipt t)) request (rt_request_budget (tk_route t)) clock with
          | Ok (db, admission) => (db, Executing request held admission)
          | Err e => (pr_db s, Finishing (gate_of request held) None (Failed (not_sent e)))
          | Panic => (pr_db s, Lost)
          end).

(** The completion is recorded in one transaction, or not at all. *)
Definition complete (db : EgressDb) (t : Task) (admission : option RequestBudgetAdmission) (outcome : Outcome)
    (first second : option Z) (utc : DateTime) : EgressDb * Phase :=
  let observed := observe (tk_receipt t) outcome in
  let answer := validated (tk_validator t) observed in
  match finish db (rt_answer_recovery (tk_route t)) answer admission (is_some (ds_output observed)) first second utc with
  | Ok (db, _) => (db, Replied answer)
  | _ => (db, Replied (unpersisted answer))
  end.

(** *** Durable jobs: [Admission] *)

Definition accept_error (e : EgressError) : JobError :=
  match e with
  | EgStateUnavailable => EStorage
  | EgAuthorityExpired => EAuthorityExpired
  | EgBudgetRefused => EExecution AttemptBudgetExhausted
  | EgPermitRefused | EgReconciliationRequired | EgInvocationComplete => EExecution InvocationCompleted
  | _ => EInvalidRequest
  end.

(** [accept], in the transaction that has reserved the receipt. *)
Definition job_accept (db : EgressDb) (a : DurableAttempt) (reservation : SpendReservation)
    (first second third : option Z) (token : string) : result JobError (EgressDb * unit) :=
  let? route := map_err (λ _, EInvalidRequest) (validate_attempt routes a) in
  map_err accept_error
    (accept_job_in db a (sr_reference reservation) (rt_max_attempts route) first second third token).

(** The claim of a signed job: the reservation, then its acceptance. *)
Definition job_claim_in (db : EgressDb) (a : DurableAttempt) (reservation : SpendReservation) (limit : Z)
    (first second third : option Z) (token : string) (utc : DateTime) : result JobError (EgressDb * unit) :=
  let? '(l, accepted) := map_err (λ e, EExecution (ModelError_code e))
    (reserve_with_limit_in (eg_ledger db) utc reservation (Some limit) false) in
  if accepted : bool
  then job_accept (with_ledger l db) a reservation first second third token
  else Err EStorage.

Definition job_before_send (db : EgressDb) (a : DurableAttempt) (credential_fingerprint : option string) :
    result JobError (EgressDb * unit) :=
  let? route := map_err (λ _, EInvalidRequest) (validate_attempt routes a) in
  let request := request_key route (da_input_digest a) credential_fingerprint in
  map_err (λ e, match e with
                | EgReconciliationRequired => EExecution SpendReconciliationRequired
                | _ => EStorage
                end)
    (let? '(db, _) := admit_request_in db (attempt_digest a) request None None in Ok (db, tt)).

Definition job_finish (db : EgressDb) (receipt : option string) : result JobError (EgressDb * unit) :=
  let? reference := ok_or receipt EStorage in
  Ok (complete_job_in db reference, tt).

(** [claim]: whether the signed authority is current. *)
Definition job_current (db : EgressDb) (signed : SignedAttempt) (generation timestamp : Z) : result JobError bool :=
  let? _ := map_err (λ _, EInvalidRequest) (verify_attempt key signed) in
  let a := signed_value signed in
  let? route := map_err (λ _, EInvalidRequest) (validate_attempt routes a) in
  if rt_max_attempts route <? Z.min u64_max (generation + 1) then Err EInvalidRequest
  else
    match check_revision db a with
    | Ok _ => Ok ((0 <=? timestamp) && (timestamp <? da_expires_at a))
    | Err EgRouteRefused => Ok false
    | Err _ => Err EStorage
    | Panic => Panic
    end.

(** [enqueue]. *)
Definition job_enqueue (signed : SignedAttempt) (spec_key spec_kind : string) (max_attempts : Z) : result JobError unit :=
  let? _ := map_err (λ _, EInvalidRequest) (verify_attempt key signed) in
  let a := signed_value signed in
  let? route := map_err (λ _, EInvalidRequest) (validate_attempt routes a) in
  if negb (String.eqb (da_invocation_id a) spec_key) || negb (String.eqb (da_route a) spec_kind)
     || negb (rt_max_attempts route =? max_attempts)
  then Err EInvalidRequest else Ok tt.

(** [admit]: a renewed authority replaces the job's own. *)
Definition job_admit (signed old : SignedAttempt) : result JobError bool :=
  let? _ := map_err (λ _, EInvalidRequest) (verify_attempt key signed) in
  let a := signed_value signed in
  let? _ := map_err (λ _, EInvalidRequest) (validate_attempt routes a) in
  let b := signed_value old in
  if bool_decide (a = b) then Ok false
  else if negb (String.eqb (invocation_binding a) (invocation_binding b))
          || (da_attempt_ordinal a <=? da_attempt_ordinal b) || (da_record_sequence a <=? da_record_sequence b)
  then Err EKeyConflict
  else Ok true.

(** *** Interleavings *)

(** One transaction of the process, or one thing the environment does: a
    request's own transaction (its purge is an event of its own), a step of the
    [i]-th dispatch, a transaction of a signed job, a call of the ledger by the
    executor, a crash, or the start after one. *)
Inductive ProcessEvent : Type :=
| EvPurge (clock : option Z)
| EvOperation (op : Operation) (validator : option AnswerValidator) (clock : nat → option Z) (token : string)
    (utc : DateTime)
| EvResolve (i : nat) (secret : option string)
| EvAdmit (i : nat) (clock : option Z)
| EvExecuted (i : nat) (outcome : Outcome)
| EvComplete (i : nat) (first second : option Z) (utc : DateTime)
| EvPanic (i : nat)
| EvJobClaim (a : DurableAttempt) (reservation : SpendReservation) (limit : Z) (first second third : option Z)
    (token : string) (utc : DateTime)
| EvJobSend (a : DurableAttempt) (credential_fingerprint : option string)
| EvJobFinish (receipt : option string)
| EvLedger (call : LedgerCall) (time clock : DateTime)
| EvCrash
| EvOpen (version tables : Z) (installed_retirement rebuild_request_index : bool) (clock : option Z).

Definition set_phase (i : nat) (t : Task) (phase : Phase) (tasks : list Task) : list Task := <[i := with_phase phase t]> tasks.

Definition committed {E A : Type} (s : Process) (c : result E (EgressDb * A)) : Process :=
  match c with Ok (db, _) => mkProcess db (pr_tasks s) | _ => s end.

Definition executes (outcome : Outcome) : bool := match outcome with NoCredential => false | _ => true end.

(** A step of the [i]-th dispatch, where it is in the phase for it. *)
Definition task_step (s : Process) (i : nat) (t : Task) (phase : Phase) : Process :=
  mkProcess (pr_db s) (set_phase i t phase (pr_tasks s)).

Definition process_step `{!Chrono, !ExpiryOrder}
    (policy : option string → string → result ModelError (bool * option DateTime)) (retention : Z) (s : Process) (e : ProcessEvent) :
    Process :=
  match e with
  | EvPurge clock => committed s (purge_expired_results (pr_db s) clock)
  | EvOperation op validator clock token utc =>
      match operation (pr_db s) op validator clock token utc with
      | Ok (db, inl _) => mkProcess db (pr_tasks s)
      | Ok (db, inr task) => mkProcess db (pr_tasks s ++ [task])
      | _ => s
      end
  | EvResolve i secret =>
      match pr_tasks s !! i with
      | Some t => match tk_phase t with Resolving => task_step s i t (resolve t secret) | _ => s end
      | None => s
      end
  | EvAdmit i clock =>
      match pr_tasks s !! i with
      | Some t =>
          match tk_phase t with
          | Waiting request =>
              match admit_dispatch s t request clock with
              | Some (db, phase) => mkProcess db (set_phase i t phase (pr_tasks s))
              | None => s
              end
          | _ => s
          end
      | None => s
      end
  | EvExecuted i outcome =>
      match pr_tasks s !! i with
      | Some t =>
          match tk_phase t with
          | Executing request held admission =>
              if executes outcome then task_step s i t (Finishing (gate_of request held) admission outcome) else s
          | _ => s
          end
      | None => s
      end
  | EvComplete i first second utc =>
      match pr_tasks s !! i with
      | Some t =>
          match tk_phase t with
          | Finishing _ admission outcome =>
              let '(db, phase) := complete (pr_db s) t admission outcome first second utc in
              mkProcess db (set_phase i t phase (pr_tasks s))
          | _ => s
          end
      | None => s
      end
  | EvPanic i =>
      match pr_tasks s !! i with
      | Some t => match tk_phase t with Replied _ => s | _ => task_step s i t Lost end
      | None => s
      end
  | EvJobClaim a reservation limit first second third token utc =>
      committed s (job_claim_in (pr_db s) a reservation limit first second third token utc)
  | EvJobSend a credential_fingerprint => committed s (job_before_send (pr_db s) a credential_fingerprint)
  | EvJobFinish receipt => committed s (job_finish (pr_db s) receipt)
  | EvLedger call time clock =>
      mkProcess (with_ledger (ledger_exec policy retention (eg_ledger (pr_db s)) time clock call).1 (pr_db s)) (pr_tasks s)
  | EvCrash => mkProcess (pr_db s) []
  | EvOpen version tables installed_retirement rebuild_request_index clock =>
      mkProcess (open_registry (pr_db s) version tables installed_retirement rebuild_request_index clock).1 []
  end.

Definition empty_db : EgressDb := mkEgressDb [] ∅ ∅ empty_ledger.

Definition started : Process := mkProcess empty_db [].

End Process.
