(* ===== verification/EgressInv.v ===== *)
(** The invariant of the permit registry and its ledger.

    [permits_ok] says what the rows of [egress_permits] mean: digests and
    ordinals are unique, an invocation keeps one binding and grows along its
    ordinals, a consumed permit has its own receipt in the ledger, every
    consumed permit but the latest of an invocation was free of charge, the
    stored count of handoffs is the number of consumed permits, and at most one
    open send is bound to a request. *)

From Stdlib Require Import ZArith Lia.
From stdpp Require Import base gmap strings list sorting.
From S2P Require Import Prelude Text Core SpendTypes ExecutionPolicy Wire Adapters.
From S2P Require Import SpendLedger SpendInv SpendProofs EgressTypes EgressRegistry.

#[local] Open Scope Z_scope.

(** ** Rows *)

Record permit_ok (p : PermitRow) : Prop := {
  permit_receipt : pm_consumed p = is_some (pm_receipt p);
  permit_digest s : pm_receipt p = Some s → sd_attempt_digest s = pm_attempt_digest p;
  permit_finished : pm_finished p = 0 ∨ pm_finished p = 1 ∨ pm_finished p = 2;
  permit_done : pm_finished p ≠ 0 → pm_consumed p = true;
  permit_bound : is_Some (pm_request_key p) → in_flight p = true;
  permit_answer : is_Some (pm_result p) → pm_finished p = 1;
}.

(** What no statement changes. *)
Definition identity (p : PermitRow) :=
  (pm_attempt_digest p, pm_invocation_key p, pm_invocation_binding p, pm_grant_key p, pm_grant_revision p,
   pm_ordinal p, pm_record_sequence p, pm_token p, pm_expires_at p, pm_recovery_expires_at p).

(** A change that touches neither the identity nor the accounting of a row. *)
Definition same_row (p p' : PermitRow) : Prop :=
  identity p' = identity p ∧ pm_accepted_attempts p' = pm_accepted_attempts p
  ∧ pm_consumed p' = pm_consumed p ∧ reference_of p' = reference_of p.

(** A consumed permit of the same invocation that is not later. *)
Definition counted (p s : PermitRow) : bool :=
  of_invocation (pm_invocation_key p) s && pm_consumed s && (pm_ordinal s <=? pm_ordinal p).

Section Inv.
Context {J : JsonValues}.

(** ** Histories of the ledger *)

Lemma later_find l l' reference row : sound l l' → ledger_ok l → find_row l reference = Some row →
  ∃ row', find_row l' reference = Some row' ∧ row_later row row'.
Proof.
  intros [Hok' Hl] Hok Hf. apply find_row_elem in Hf as [Hr <-].
  destruct (ledger_later_row _ _ _ Hl Hr) as (row' & Hr' & Hrow). exists row'. split; [|done].
  rewrite <-(find_row_unique l' row') by done. unfold row_reference. by rewrite (later_reservation _ _ Hrow).
Qed.

Lemma decided_spec l reference : decided l reference = true ↔
  ∃ row, find_row l reference = Some row ∧ rr_state row ≠ SpendUnknown.
Proof.
  unfold decided, ledger_state. destruct (find_row l reference) as [row|]; simpl; [|naive_solver].
  destruct (rr_state row) eqn:E; split; intros Hd; try done; try (by exists row; rewrite E).
  destruct Hd as (? & [= <-] & ?). congruence.
Qed.

Lemma decided_later l l' reference : sound l l' → ledger_ok l → decided l reference = true → decided l' reference = true.
Proof.
  intros Hs Hok (row & Hf & Hd)%decided_spec. destruct (later_find _ _ _ _ Hs Hok Hf) as (row' & Hf' & Hl).
  apply decided_spec. exists row'. split; [done|]. by destruct (later_evidence _ _ Hl Hd) as [-> _].
Qed.

Lemma released_later l l' reference : sound l l' → ledger_ok l →
  ledger_state l reference = Some SpendReleased → ledger_state l' reference = Some SpendReleased.
Proof.
  unfold ledger_state. intros Hs Hok. destruct (find_row l reference) as [row|] eqn:Hf; [|done].
  intros [= Hr]. destruct (later_find _ _ _ _ Hs Hok Hf) as (row' & -> & Hl). simpl.
  destruct (later_evidence _ _ Hl) as [-> _]; congruence.
Qed.

(** ** The invariant *)

(** What the identities of the rows say. *)
Record identities_ok (rows : list PermitRow) (revisions : gmap string Z) : Prop := {
  id_digests p q : p ∈ rows → q ∈ rows → pm_attempt_digest p = pm_attempt_digest q → p = q;
  id_ordinals p q : p ∈ rows → q ∈ rows →
    pm_invocation_key p = pm_invocation_key q → pm_ordinal p = pm_ordinal q → p = q;
  id_nodup : NoDup rows;
  id_binding p q : p ∈ rows → q ∈ rows →
    pm_invocation_key p = pm_invocation_key q → pm_invocation_binding p = pm_invocation_binding q;
  id_sequence p q : p ∈ rows → q ∈ rows →
    pm_invocation_key p = pm_invocation_key q → pm_ordinal p < pm_ordinal q →
    pm_record_sequence p < pm_record_sequence q;
  id_revision p : p ∈ rows →
    ∃ revision, revisions !! pm_grant_key p = Some revision ∧ pm_grant_revision p ≤ revision;
}.

Record permits_ok (db : EgressDb) : Prop := {
  ok_ledger : ledger_ok (eg_ledger db);
  ok_identities : identities_ok (eg_permits db) (eg_revisions db);
  ok_permit p : p ∈ eg_permits db → permit_ok p;
  ok_free p q reference : p ∈ eg_permits db → q ∈ eg_permits db →
    pm_invocation_key p = pm_invocation_key q → pm_ordinal p < pm_ordinal q →
    reference_of p = Some reference → ledger_state (eg_ledger db) reference = Some SpendReleased;
  ok_accepted p : p ∈ eg_permits db → pm_accepted_attempts p = count_where (counted p) (eg_permits db);
  ok_reference p q reference : p ∈ eg_permits db → q ∈ eg_permits db →
    reference_of p = Some reference → reference_of q = Some reference → p = q;
  ok_reserved p reference : p ∈ eg_permits db → reference_of p = Some reference →
    is_Some (find_row (eg_ledger db) reference);
  ok_request key p q : p ∈ eg_permits db → q ∈ eg_permits db →
    unresolved db key p = true → unresolved db key q = true → p = q;
}.

Definition ok_digests db (Hok : permits_ok db) := id_digests _ _ (ok_identities db Hok).
Definition ok_ordinals db (Hok : permits_ok db) := id_ordinals _ _ (ok_identities db Hok).

Lemma permit_unconsumed p : permit_ok p → pm_consumed p = false → pm_receipt p = None.
Proof. intros Hp Hc. rewrite (permit_receipt p Hp) in Hc. by destruct (pm_receipt p). Qed.

Lemma reference_consumed p reference : permit_ok p → reference_of p = Some reference → pm_consumed p = true.
Proof. intros Hp. unfold reference_of. rewrite (permit_receipt p Hp). by destruct (pm_receipt p). Qed.

Lemma consumed_reference p : permit_ok p → pm_consumed p = true → is_Some (reference_of p).
Proof. intros Hp. unfold reference_of. rewrite (permit_receipt p Hp). destruct (pm_receipt p); [by eexists|done]. Qed.

(** ** Updates that keep identities *)

Lemma same_row_refl p : same_row p p.
Proof. done. Qed.

Lemma identity_fields p p' : identity p' = identity p →
  pm_attempt_digest p' = pm_attempt_digest p ∧ pm_invocation_key p' = pm_invocation_key p
  ∧ pm_invocation_binding p' = pm_invocation_binding p ∧ pm_grant_key p' = pm_grant_key p
  ∧ pm_grant_revision p' = pm_grant_revision p ∧ pm_ordinal p' = pm_ordinal p
  ∧ pm_record_sequence p' = pm_record_sequence p.
Proof. unfold identity. intros [= -> -> -> -> -> -> -> _ _ _]. done. Qed.

Lemma same_row_counted p p' s s' : same_row p p' → same_row s s' → counted p' s' = counted p s.
Proof.
  intros (Hp & _) (Hs & _ & Hc & _). unfold counted, of_invocation.
  apply identity_fields in Hp as (_ & -> & _ & _ & _ & -> & _), Hs as (_ & -> & _ & _ & _ & -> & _).
  by rewrite Hc.
Qed.

(** The image of a row under an update. *)
Definition updated (c : PermitRow → bool) (f : PermitRow → PermitRow) (p : PermitRow) : PermitRow :=
  if c p then f p else p.

Lemma updated_same c f p : (c p = true → same_row p (f p)) → same_row p (updated c f p).
Proof. intros Hf. unfold updated. destruct (c p); [by apply Hf|apply same_row_refl]. Qed.

Lemma count_updated (q q' : PermitRow → bool) c f l :
  (∀ x, x ∈ l → q' (updated c f x) = q x) → count_where q' (update_where c f l) = count_where q l.
Proof.
  induction l as [|x l IH]; intros Hq; [done|]. unfold update_where. rewrite fmap_cons, !count_where_cons.
  fold (update_where c f l). fold (updated c f x). rewrite IH by (intros; apply Hq; by right).
  by rewrite Hq by left.
Qed.

Lemma count_where_ext {A : Type} (p q : A → bool) l :
  (∀ x, x ∈ l → p x = q x) → count_where p l = count_where q l.
Proof.
  induction l as [|x l IH]; intros Hpq; [done|]. rewrite !count_where_cons, (Hpq x), IH; [done| |by left].
  intros y Hy. apply Hpq. by right.
Qed.

Lemma identities_update rows revisions c f : identities_ok rows revisions →
  (∀ p, p ∈ rows → c p = true → identity (f p) = identity p) →
  identities_ok (update_where c f rows) revisions.
Proof.
  intros Hok Hf. set (u := updated c f).
  assert (∀ y, y ∈ update_where c f rows → ∃ x, x ∈ rows ∧ y = u x) as Hin.
  { intros y Hy. by apply elem_of_update_where in Hy. }
  assert (∀ x, x ∈ rows → identity (u x) = identity x) as Hu.
  { intros x Hx. unfold u, updated. destruct (c x) eqn:E; [by apply Hf|done]. }
  pose proof (λ x Hx, identity_fields x (u x) (Hu x Hx)) as Hid.
  assert (∀ x, x ∈ rows → pm_attempt_digest (u x) = pm_attempt_digest x) as Hdi by apply Hid.
  assert (∀ x, x ∈ rows → pm_invocation_key (u x) = pm_invocation_key x) as Hinv by apply Hid.
  assert (∀ x, x ∈ rows → pm_ordinal (u x) = pm_ordinal x) as Hord by apply Hid.
  split.
  - intros p q (x & Hx & ->)%Hin (y & Hy & ->)%Hin. rewrite !Hdi by done. intros. f_equal. by apply (id_digests _ _ Hok).
  - intros p q (x & Hx & ->)%Hin (y & Hy & ->)%Hin. rewrite !Hinv, !Hord by done. intros. f_equal.
    by apply (id_ordinals _ _ Hok).
  - apply (NoDup_fmap_1 pm_attempt_digest). replace (pm_attempt_digest <$> update_where c f rows)
      with (pm_attempt_digest <$> rows).
    + apply NoDup_fmap_2_strong; [|apply (id_nodup _ _ Hok)]. apply (id_digests _ _ Hok).
    + unfold update_where. rewrite <-list_fmap_compose. apply list_fmap_ext. intros i x Hx. symmetry.
      by eapply Hdi, list_elem_of_lookup_2.
  - intros p q (x & Hx & ->)%Hin (y & Hy & ->)%Hin. rewrite !Hinv by done.
    destruct (Hid x Hx) as (_ & _ & -> & _), (Hid y Hy) as (_ & _ & -> & _). by apply (id_binding _ _ Hok).
  - intros p q (x & Hx & ->)%Hin (y & Hy & ->)%Hin. rewrite !Hinv, !Hord by done.
    destruct (Hid x Hx) as (_ & _ & _ & _ & _ & _ & ->), (Hid y Hy) as (_ & _ & _ & _ & _ & _ & ->).
    by apply (id_sequence _ _ Hok).
  - intros p (x & Hx & ->)%Hin. destruct (Hid x Hx) as (_ & _ & _ & -> & -> & _). by apply (id_revision _ _ Hok).
Qed.

(** An update that keeps identities and accounting keeps the invariant, if the
    new rows are well formed and no two open sends share a request. *)
Lemma update_permits_ok db c f : permits_ok db →
  (∀ p, p ∈ eg_permits db → c p = true → same_row p (f p) ∧ permit_ok (f p)) →
  let db' := with_permits (update_where c f (eg_permits db)) db in
  (∀ key p q, p ∈ eg_permits db → q ∈ eg_permits db →
     unresolved db key (updated c f p) = true → unresolved db key (updated c f q) = true → p = q) →
  permits_ok db'.
Proof.
  intros Hok Hf db' Hreq. set (u := updated c f).
  assert (∀ y, y ∈ eg_permits db' → ∃ x, x ∈ eg_permits db ∧ y = u x) as Hin.
  { intros y Hy. by apply elem_of_update_where in Hy. }
  assert (∀ x, x ∈ eg_permits db → same_row x (u x)) as Hsame.
  { intros x Hx. apply updated_same. intros Hc. by apply Hf. }
  pose proof (λ x Hx, identity_fields x (u x) (proj1 (Hsame x Hx))) as Hid.
  assert (∀ x, x ∈ eg_permits db → reference_of (u x) = reference_of x) as Hre by apply Hsame.
  split; simpl.
  - apply Hok.
  - apply identities_update; [apply Hok|]. intros p Hp Hc. by apply Hf.
  - intros p (x & Hx & ->)%Hin. unfold u, updated. destruct (c x) eqn:E; [by apply Hf|by apply (ok_permit db)].
  - intros p q reference (x & Hx & ->)%Hin (y & Hy & ->)%Hin. rewrite Hre by done.
    destruct (Hid x Hx) as (_ & -> & _ & _ & _ & -> & _), (Hid y Hy) as (_ & -> & _ & _ & _ & -> & _).
    by apply (ok_free db Hok).
  - intros p (x & Hx & ->)%Hin. destruct (Hsame x Hx) as (_ & -> & _).
    rewrite (ok_accepted db Hok x Hx). symmetry. apply count_updated. intros s Hs.
    apply same_row_counted; by apply Hsame.
  - intros p q reference (x & Hx & ->)%Hin (y & Hy & ->)%Hin. rewrite !Hre by done. intros. f_equal.
    by eapply (ok_reference db Hok).
  - intros p reference (x & Hx & ->)%Hin. rewrite Hre by done. by apply (ok_reserved db Hok).
  - intros key p q (x & Hx & ->)%Hin (y & Hy & ->)%Hin E1 E2. f_equal. by apply (Hreq key).
Qed.

End Inv.
