(* ===== verification/EgressProofs.v ===== *)
(** Every operation of the permit registry keeps its invariant. *)

From Stdlib Require Import ZArith Lia.
From stdpp Require Import base gmap strings list sorting.
From S2P Require Import Prelude Text Core SpendTypes ExecutionPolicy Wire Adapters Trace.
From S2P Require Import SpendLedger SpendInv SpendProofs EgressTypes EgressRegistry EgressInv.

#[local] Open Scope Z_scope.

Section Proofs.
Context {J : JsonValues} `{!Sha256, !JsonWriter}.

(** ** The ledger *)

Definition set_ledger (l : Ledger) (db : EgressDb) : EgressDb :=
  mkEgressDb (eg_permits db) (eg_revisions db) (eg_failures db) l.

Lemma unresolved_earlier db l key p : sound (eg_ledger db) l → ledger_ok (eg_ledger db) →
  unresolved (set_ledger l db) key p = true → unresolved db key p = true.
Proof.
  intros Hs Hl. unfold unresolved. simpl. rewrite !andb_true_iff. intros [Hk Hr]. split; [done|].
  destruct (reference_of p) as [reference|]; [|done]. bools. apply negb_true_iff, not_true_iff_false.
  intros Hd. apply (decided_later _ l) in Hd; [congruence|done|done].
Qed.

Lemma set_ledger_ok db l : permits_ok db → sound (eg_ledger db) l → permits_ok (set_ledger l db).
Proof.
  intros Hok Hs. pose proof (ok_ledger db Hok) as Hl. split; try apply Hok.
  - apply Hs.
  - intros p q reference Hp Hq Hi Ho Hr. eapply released_later; [done|done|]. by apply (ok_free db Hok p q).
  - intros p reference Hp Hr. destruct (ok_reserved db Hok p reference Hp Hr) as [row Hf].
    destruct (later_find _ _ _ _ Hs Hl Hf) as (row' & Hf' & _). by exists row'.
  - intros key p q Hp Hq H1 H2. apply (ok_request db Hok key); [done|done|by eapply unresolved_earlier..].
Qed.

Lemma same_key key p : same_row p (set_request_key key p).
Proof. done. Qed.

Lemma unbound_ok p : permit_ok p → permit_ok (set_request_key None p).
Proof. intros [A B C D E F]. split; simpl; try done. Qed.

Lemma unresolved_unbound db key p : unresolved db key (set_request_key None p) = false.
Proof. done. Qed.

(** Clearing request bindings. *)
Lemma unbind_ok db c : permits_ok db →
  permits_ok (with_permits (update_where c (set_request_key None) (eg_permits db)) db).
Proof.
  intros Hok. apply update_permits_ok; [done| |].
  - intros p Hp _. split; [apply same_key|by apply unbound_ok, (ok_permit db)].
  - intros key p q Hp Hq. unfold updated. destruct (c p); [by rewrite unresolved_unbound|].
    destruct (c q); [by rewrite unresolved_unbound|]. by apply (ok_request db Hok).
Qed.

Lemma with_ledger_ok db l : permits_ok db → sound (eg_ledger db) l → permits_ok (with_ledger l db).
Proof.
  intros Hok Hs. exact (unbind_ok (set_ledger l db) (retires (eg_ledger db) l) (set_ledger_ok _ _ Hok Hs)).
Qed.

(** A ledger that decides nothing new fires no trigger. *)
Lemma with_ledger_quiet db l : (∀ reference, decided l reference = true → decided (eg_ledger db) reference = true) →
  with_ledger l db = set_ledger l db.
Proof.
  intros Hd. unfold with_ledger, set_ledger. f_equal. apply update_where_none. intros p _. unfold retires.
  destruct (reference_of p) as [reference|]; [|by rewrite andb_false_r].
  destruct (decided l reference) eqn:E; [by rewrite (Hd _ E), andb_false_r|by rewrite andb_false_r].
Qed.

(** ** Revisions *)

Lemma publish_ok db g db' u : permits_ok db → publish_revision db g = Ok (db', u) → permits_ok db'.
Proof.
  intros Hok. unfold publish_revision, sql_u64. unfold i64_try_from. destruct (_ <=? _); rsimpl; [|done].
  destruct (match eg_revisions db !! _ with Some _ => _ | None => _ end) eqn:E; [done|]. intros [= <- _].
  destruct Hok as [Hl [A B C D F G] Hp Hf Ha Hr Hv Hq]. split; try done. split; try done. clear Hp Hq Hr.
  simpl. intros p Hp. destruct (G p Hp) as (r & Hr & Hle).
  destruct (decide (grant_key (gr_tenant g) (gr_incarnation g) = pm_grant_key p)) as [Hk|Hk].
  - rewrite Hk in *. rewrite Hr in E. bools. exists (gr_revision g). rewrite lookup_insert_eq. split; [done|lia].
  - exists r. by rewrite lookup_insert_ne.
Qed.

(** ** Issuing *)

Lemma latest_fold rows best : 
  match foldl later_permit best rows with
  | Some p => (p ∈ rows ∨ best = Some p) ∧ (∀ x, x ∈ rows → pm_ordinal x ≤ pm_ordinal p)
              ∧ ∀ b, best = Some b → pm_ordinal b ≤ pm_ordinal p
  | None => rows = [] ∧ best = None
  end.
Proof.
  revert best. induction rows as [|x rows IH]; intros best; simpl.
  { destruct best; [|done]. split_and!; [by right|by intros ? ?%elem_of_nil|by intros ? [= ->]]. }
  specialize (IH (later_permit best x)). destruct (foldl _ _ rows) as [p|].
  - destruct IH as (Hin & Hall & Hb). unfold later_permit in *. destruct best as [b|].
    + destruct (Z.ltb_spec (pm_ordinal b) (pm_ordinal x)) as [Hlt|Hge].
      * specialize (Hb x eq_refl). split_and!.
        -- destruct Hin as [Hin|[= ->]]; left; [by right|left].
        -- intros y [->|Hy]%elem_of_cons; [done|by apply Hall].
        -- intros ? [= <-]. lia.
      * specialize (Hb b eq_refl). split_and!.
        -- destruct Hin as [Hin|[= ->]]; [left; by right|by right].
        -- intros y [->|Hy]%elem_of_cons; [lia|by apply Hall].
        -- by intros ? [= <-].
    + specialize (Hb x eq_refl). split_and!; [|intros y [->|Hy]%elem_of_cons; [done|by apply Hall]|done].
      destruct Hin as [Hin|[= ->]]; left; [by right|left].
  - destruct IH as [_ IH]. unfold later_permit in IH. destruct best; [|done]. by destruct (_ <? _).
Qed.

Lemma of_invocation_spec key p : of_invocation key p = true ↔ pm_invocation_key p = key.
Proof. unfold of_invocation. by rewrite bool_decide_eq_true. Qed.

(** The latest permit of an invocation, or that there is none. *)
Lemma latest_spec db key :
  match latest_permit db key with
  | Some p => p ∈ eg_permits db ∧ pm_invocation_key p = key
              ∧ ∀ x, x ∈ eg_permits db → pm_invocation_key x = key → pm_ordinal x ≤ pm_ordinal p
  | None => ∀ x, x ∈ eg_permits db → pm_invocation_key x ≠ key
  end.
Proof.
  pose proof (latest_fold (select_where (of_invocation key) (eg_permits db)) None) as Hf.
  unfold latest_permit. destruct (foldl _ _ _) as [p|].
  - destruct Hf as ([Hin|[=]] & Hall & _). apply elem_of_select_where in Hin as [Hin Hk%of_invocation_spec].
    split_and!; [done|done|]. intros x Hx Hkx. apply Hall, elem_of_select_where. by rewrite of_invocation_spec.
  - destruct Hf as [Hn _]. intros x Hx Hk.
    assert (x ∈ select_where (of_invocation key) (eg_permits db)) as Hin
      by (apply elem_of_select_where; by rewrite of_invocation_spec).
    rewrite Hn in Hin. by apply elem_of_nil in Hin.
Qed.

(** What a successor was granted. *)
Lemma successor_ok db a clock p accepted : successor_of db a clock p = Ok accepted →
  accepted = pm_accepted_attempts p ∧ pm_invocation_binding p = invocation_binding a
  ∧ pm_ordinal p < da_attempt_ordinal a ∧ pm_record_sequence p < da_record_sequence a
  ∧ (pm_consumed p = true → ∃ s, pm_receipt p = Some s ∧ sd_status s ≠ DispatchSucceeded
       ∧ ledger_state (eg_ledger db) (sd_reference s) = Some SpendReleased).
Proof.
  unfold successor_of. case_bool_decide as Hb; [|done]. simpl. walk. bools. destruct a0.
  - walk. bools. intros [= <-]. split_and!; [done..|].
    intros _. destruct (pm_receipt p); [|done]. injection E2 as ->. by eexists.
  - intros [= <-]. split_and!; [done..|]. intros Hc. by rewrite Hc in E1.
Qed.

Lemma in_clashes new p : clashes new p = false →
  pm_attempt_digest p ≠ pm_attempt_digest new
  ∧ (pm_invocation_key p = pm_invocation_key new → pm_ordinal p ≠ pm_ordinal new).
Proof.
  unfold clashes, with_digest, of_invocation. intros [Hd Hi]%orb_false_iff. bools. split; [done|].
  intros Hk. rewrite bool_decide_eq_true_2 in Hi by done. simpl in Hi. by bools.
Qed.

Lemma insert_permit_ok db new db' : insert_permit db new = Ok db' →
  (∀ p, p ∈ eg_permits db → clashes new p = false) ∧ db' = with_permits (eg_permits db ++ [new]) db.
Proof.
  unfold insert_permit. walk. intros [= <-]. split; [|done]. intros p Hp. apply not_true_iff_false. intros Hc.
  apply not_true_iff_false in E3. apply E3, existsb_exists. exists p. by rewrite <-list_elem_of_In.
Qed.

Lemma elem_of_snoc {A : Type} (x y : A) l : x ∈ l ++ [y] → x ∈ l ∨ x = y.
Proof. by rewrite elem_of_app, list_elem_of_singleton. Qed.

Lemma identities_snoc rows revisions new (free : PermitRow → Prop) : identities_ok rows revisions →
  (∀ p, p ∈ rows → clashes new p = false) →
  (∀ p, p ∈ rows → pm_invocation_key p = pm_invocation_key new →
     pm_invocation_binding p = pm_invocation_binding new ∧ pm_ordinal p < pm_ordinal new
     ∧ pm_record_sequence p < pm_record_sequence new ∧ free p) →
  revisions !! pm_grant_key new = Some (pm_grant_revision new) →
  identities_ok (rows ++ [new]) revisions.
Proof.
  intros Hok Hcl Hprev Hrev. split.
  - intros p q [Hp| ->]%elem_of_snoc [Hq| ->]%elem_of_snoc E; [by apply (id_digests _ _ Hok)|..|done];
      [destruct (in_clashes _ _ (Hcl _ Hp))|destruct (in_clashes _ _ (Hcl _ Hq))]; congruence.
  - intros p q [Hp| ->]%elem_of_snoc [Hq| ->]%elem_of_snoc E E'; [by apply (id_ordinals _ _ Hok)|..|done];
      [destruct (in_clashes _ _ (Hcl _ Hp)) as [_ Hn]|destruct (in_clashes _ _ (Hcl _ Hq)) as [_ Hn]];
      destruct Hn; congruence.
  - apply NoDup_app. split_and!; [apply Hok| |apply NoDup_singleton].
    intros p Hp ->%list_elem_of_singleton. by destruct (in_clashes _ _ (Hcl _ Hp)).
  - intros p q [Hp| ->]%elem_of_snoc [Hq| ->]%elem_of_snoc E; [by apply (id_binding _ _ Hok)|..|done].
    + by apply Hprev.
    + symmetry. by apply Hprev.
  - intros p q [Hp| ->]%elem_of_snoc [Hq| ->]%elem_of_snoc E L; [by apply (id_sequence _ _ Hok)|..|lia].
    + by apply Hprev.
    + destruct (Hprev q Hq) as (_ & ? & _); [done|lia].
  - intros p [Hp| ->]%elem_of_snoc; [by apply (id_revision _ _ Hok)|]. by eexists.
Qed.

(** Appending a permit that follows what is there. *)
Lemma append_permit_ok db new : permits_ok db → permit_ok new → pm_consumed new = false → 
  (∀ p, p ∈ eg_permits db → clashes new p = false) →
  pm_accepted_attempts new = count_where (counted new) (eg_permits db) →
  (∀ p, p ∈ eg_permits db → pm_invocation_key p = pm_invocation_key new →
     pm_invocation_binding p = pm_invocation_binding new ∧ pm_ordinal p < pm_ordinal new
     ∧ pm_record_sequence p < pm_record_sequence new
     ∧ ∀ reference, reference_of p = Some reference → ledger_state (eg_ledger db) reference = Some SpendReleased) →
  eg_revisions db !! pm_grant_key new = Some (pm_grant_revision new) →
  permits_ok (with_permits (eg_permits db ++ [new]) db).
Proof.
  intros Hok Hnew Hc Hcl Hacc Hprev Hrev.
  assert (reference_of new = None) as Href by (unfold reference_of; by rewrite (permit_unconsumed new)).
  assert (∀ key, unresolved db key new = false) as Hun
    by (intros key; unfold unresolved, in_flight; by rewrite Hc, andb_false_r).
  split; simpl.
  - apply Hok.
  - eapply identities_snoc; [apply Hok|done|exact Hprev|done].
  - intros p [Hp| ->]%elem_of_snoc; [by apply (ok_permit db)|done].
  - intros p q reference [Hp| ->]%elem_of_snoc [Hq| ->]%elem_of_snoc E L Hr; [by apply (ok_free db Hok p q)|..|congruence].
    + by apply (Hprev p).
    + congruence.
  - intros p Hp. rewrite count_where_app, count_where_cons, count_where_nil.
    replace (counted p new) with false by (unfold counted; by rewrite Hc, andb_false_r).
    apply elem_of_snoc in Hp as [Hp| ->]; [rewrite (ok_accepted db Hok p Hp)|rewrite Hacc]; lia.
  - intros p q reference [Hp| ->]%elem_of_snoc [Hq| ->]%elem_of_snoc; [by apply (ok_reference db Hok)|congruence..].
  - intros p reference [Hp| ->]%elem_of_snoc; [by apply (ok_reserved db Hok)|congruence].
  - intros key p q [Hp| ->]%elem_of_snoc [Hq| ->]%elem_of_snoc H1 H2; [by apply (ok_request db Hok key)|..|done];
      by rewrite (Hun key : unresolved (with_permits _ _) _ _ = _) in *.
Qed.

Lemma issue_in_ok db a max_attempts first second token db' grant : permits_ok db →
  issue_in db a max_attempts first second token = Ok (db', grant) →
  permits_ok db' ∧ ∃ accepted, db' = with_permits (eg_permits db ++ [new_permit a accepted token]) db
    ∧ accepted < max_attempts ∧ pg_permit grant = mkDispatchPermit token (attempt_digest a)
    ∧ check_revision db a = Ok tt.
Proof.
  intros Hok. unfold issue_in. walk. intros [= <- <-]. rename a1 into accepted. bools.
  apply insert_permit_ok in E4 as [Hcl ->]. destruct a0.
  split; [|by exists accepted; split_and!].
  unfold check_revision in E. case_bool_decide as Hrev; [|done].
  apply append_permit_ok; [done|split; simpl; try done; by left|done|done| | |done].
  - simpl. pose proof (latest_spec db (invocation_key (attempt_id a))) as Hl.
    destruct (latest_permit db _) as [p|]; cycle 1.
    { injection E0 as <-. symmetry. unfold count_where. rewrite select_where_none; [done|].
      intros x Hx. unfold counted, of_invocation. simpl. rewrite bool_decide_eq_false_2; [done|]. intros Hk. by apply (Hl x Hx). }
    destruct Hl as (Hp & Hk & Hall). apply successor_ok in E0 as (-> & _ & Hord & _).
    rewrite (ok_accepted db Hok p Hp). apply count_where_ext. intros x Hx. unfold counted, of_invocation. simpl.
    rewrite Hk. case_bool_decide as Hkx; [|done]. simpl. specialize (Hall x Hx Hkx).
    rewrite !(proj2 (Z.leb_le _ _)) by lia. done.
  - intros x Hx Hkx. simpl in *. pose proof (latest_spec db (invocation_key (attempt_id a))) as Hl.
    destruct (latest_permit db _) as [p|]; [|by destruct (Hl x Hx)].
    destruct Hl as (Hp & Hk & Hall). apply successor_ok in E0 as (-> & Hb & Hord & Hseq & Hfree).
    specialize (Hall x Hx Hkx). rewrite <-Hb.
    split_and!; [apply (id_binding _ _ (ok_identities db Hok)); congruence|lia| |].
    + destruct (Z.eq_dec (pm_ordinal x) (pm_ordinal p)) as [He|He].
      * by rewrite (ok_ordinals db Hok x p Hx Hp) by congruence.
      * assert (pm_record_sequence x < pm_record_sequence p) by (apply (id_sequence _ _ (ok_identities db Hok)); [done|done|congruence|lia]). lia.
    + intros reference Hr. destruct (Z.eq_dec (pm_ordinal x) (pm_ordinal p)) as [He|He].
      * rewrite (ok_ordinals db Hok x p Hx Hp) in Hr by congruence.
        destruct Hfree as (s & Hs & _ & Hst); [by eapply reference_consumed; [apply (ok_permit db)|]|].
        unfold reference_of in Hr. rewrite Hs in Hr. by injection Hr as <-.
      * apply (ok_free db Hok x p); [done|done|congruence|lia|done].
Qed.

(** ** Reservations *)

Lemma ledger_state_update l reference f x :
  (∀ row, row_reference (f row) = row_reference row ∧ rr_state (f row) = rr_state row) →
  ledger_state (update_receipt reference f l) x = ledger_state l x.
Proof.
  intros Hf. unfold ledger_state, find_row, update_receipt. simpl. rewrite select_update.
  - rewrite head_update, <-option_fmap_compose. destruct (head _) as [row|]; [|done]. simpl. f_equal.
    destruct (has_reference reference row); [apply Hf|done].
  - intros row. unfold has_reference. by rewrite (proj1 (Hf row)).
Qed.

Lemma ledger_state_snoc accounts l row x : find_row l (row_reference row) = None →
  ledger_state (mkLedger accounts (spend_receipts l ++ [row])) x
  = if bool_decide (row_reference row = x) then Some (rr_state row) else ledger_state l x.
Proof.
  unfold ledger_state, find_row. simpl. rewrite select_where_app, select_where_cons.
  change (select_where (has_reference x) []) with (@nil ReceiptRow).
  assert (has_reference x row = bool_decide (row_reference row = x)) as -> by done.
  case_bool_decide as Hx; [subst x|by rewrite app_nil_r]. intros Hn. apply head_None in Hn. by rewrite Hn.
Qed.

(** An accepted reservation adds its own receipt, undecided, and decides
    nothing. *)
Lemma reserved_state l clock r limit handoff l' : ledger_ok l →
  reserve_with_limit_in l clock r limit handoff = Ok (l', true) →
  find_row l (sr_reference r) = None
  ∧ ∀ x, ledger_state l' x = if bool_decide (sr_reference r = x) then Some SpendUnknown else ledger_state l x.
Proof.
  intros Hok Hr. apply reserve_accepted in Hr as [Hf _ _ _ _ _ ->]; [|done]. split; [done|]. intros x.
  by rewrite ledger_state_snoc.
Qed.

Lemma handoff_state l clock handoff l' : ledger_ok l → reserve_handoff_in l clock handoff = Ok (l', true) →
  find_row l (sr_reference (ah_reservation handoff)) = None
  ∧ ∀ x, ledger_state l' x
         = if bool_decide (sr_reference (ah_reservation handoff) = x) then Some SpendUnknown else ledger_state l x.
Proof.
  intros Hok. unfold reserve_handoff_in. case_bool_decide; [done|]. walk. destruct b; [|walk; by case_bool_decide].
  intros [= <-]. destruct (reserved_state _ _ _ _ _ _ Hok E) as [Hf Hs]. split; [done|]. intros x.
  by rewrite ledger_state_update.
Qed.

Lemma quiet_decided l l' reference : 
  (∀ x, ledger_state l' x = if bool_decide (reference = x) then Some SpendUnknown else ledger_state l x) →
  ∀ x, decided l' x = true → decided l x = true.
Proof. intros Hs x. unfold decided. rewrite Hs. by case_bool_decide. Qed.

(** ** Acceptance *)

Lemma usable_spec permit p : usable permit p = true ↔
  pm_attempt_digest p = dp_attempt_digest permit ∧ pm_token p = dp_token permit ∧ pm_consumed p = false.
Proof.
  unfold usable, with_digest. rewrite !andb_true_iff, !bool_decide_eq_true, negb_true_iff. naive_solver.
Qed.

Lemma usable_unique db permit p q : permits_ok db → p ∈ eg_permits db → q ∈ eg_permits db →
  usable permit p = true → usable permit q = true → p = q.
Proof. intros Hok Hp Hq [Hd _]%usable_spec [Hd' _]%usable_spec. apply (ok_digests db Hok); congruence. Qed.

(** The receipt of an acceptance. *)
Definition accepted_receipt (a : DurableAttempt) (reference : string) : DispatchReceipt :=
  mkDispatchReceipt (attempt_digest a) (attempt_id a) reference DispatchProviderFailed default_UsageTrace SpendUnknown.

(** Everything an acceptance has checked. *)
Record accepts (db : EgressDb) (a : DurableAttempt) (permit : DispatchPermit) (max_attempts : Z) (clock : option Z)
    (p : PermitRow) : Prop := {
  as_row : p ∈ eg_permits db;
  as_usable : usable permit p = true;
  as_digest : attempt_digest a = dp_attempt_digest permit;
  as_revision : check_revision db a = Ok tt;
  as_latest q : q ∈ eg_permits db → pm_invocation_key q = pm_invocation_key p → pm_ordinal q ≤ pm_ordinal p;
  as_budget : pm_accepted_attempts p < max_attempts;
  as_authority : ∃ time, clock = Some time ∧ time < da_expires_at a;
}.

Lemma accept_in_ok db a permit reference max_attempts clock db' r :
  accept_in db a permit reference max_attempts clock = Ok (db', r) →
  r = accepted_receipt a reference
  ∧ db' = with_permits (update_where (usable permit) (set_consumed (stored_receipt r)) (eg_permits db)) db
  ∧ ∃ p, accepts db a permit max_attempts clock p.
Proof.
  unfold accept_in. case_bool_decide as Hd; [|done]. simpl. walk. bools. intros [= <- <-].
  destruct (head _) as [p|] eqn:Hh; [|done]. injection E as ->. split_and!; [done..|].
  apply head_Some_elem_of in Hh. apply elem_of_select_where in Hh as [Hp Hu]. exists a0. split; try done.
  - by destruct a1.
  - intros q Hq Hk. apply Z.nlt_ge. intros Hlt. apply not_true_iff_false in E1. apply E1, existsb_exists. exists q.
    rewrite <-list_elem_of_In. split; [done|]. apply andb_true_iff. rewrite of_invocation_spec. split; [done|by apply Z.ltb_lt].
  - destruct clock as [time|]; [|done]. injection E3 as <-. by exists time.
Qed.

Lemma consumed_ok p s : permit_ok p → pm_consumed p = false → sd_attempt_digest s = pm_attempt_digest p →
  permit_ok (set_consumed s p).
Proof.
  intros [A B C D E F] Hc Hs. split; simpl; try done.
  - by intros ? [= <-].
  - intros Hb. specialize (E Hb). unfold in_flight in E. by rewrite Hc in E.
Qed.

(** The row that is consumed, and the others. *)
Lemma consumed_row db permit s p x : permits_ok db → p ∈ eg_permits db → usable permit p = true → x ∈ eg_permits db →
  updated (usable permit) (set_consumed s) x = (if usable permit x then set_consumed s p else x)
  ∧ (usable permit x = true → x = p).
Proof.
  intros Hok Hp Hu Hx. unfold updated. destruct (usable permit x) eqn:E; [|done].
  by rewrite (usable_unique db permit x p).
Qed.

(** Consuming a permit raises the count of its own row by one. *)
Lemma count_consumed rows (c : PermitRow → bool) s p : NoDup rows → p ∈ rows → c p = true →
  (∀ z, z ∈ rows → c z = true → z = p) → pm_consumed p = false →
  count_where (counted p) rows + 1 = count_where (counted (set_consumed s p)) (update_where c (set_consumed s) rows).
Proof.
  intros Hnd Hp Hc Hall Hf. apply list_elem_of_split in Hp as (l1 & l2 & ->).
  apply NoDup_app in Hnd as (_ & Hnd1 & Hnd2). apply NoDup_cons in Hnd2 as [Hnd2 _].
  rewrite update_where_app. unfold update_where at 2. rewrite fmap_cons. fold (update_where c (set_consumed s) l2).
  rewrite Hc, !(update_where_none c).
  - rewrite !count_where_app, !count_where_cons. unfold counted at 2 5, of_invocation. simpl. rewrite Hf, andb_false_r.
    rewrite bool_decide_eq_true_2, Z.leb_refl by done. simpl.
    change (counted (set_consumed s p)) with (counted p). lia.
  - intros z Hz. apply not_true_iff_false. intros Hcz. rewrite (Hall z) in Hz; [done| |done].
    apply elem_of_app. right. by right.
  - intros z Hz. apply not_true_iff_false. intros Hcz. rewrite (Hall z) in Hz; [|apply elem_of_app; by left|done].
    apply (Hnd1 p Hz). left.
Qed.

(** Consuming the latest permit of an invocation with a receipt that is new to
    the ledger. *)
Lemma consume_rows_ok db a permit max_attempts clock p reference l : permits_ok db →
  accepts db a permit max_attempts clock p → sound (eg_ledger db) l →
  (∀ x, x ∈ eg_permits db → reference_of x ≠ Some reference) → is_Some (find_row l reference) →
  permits_ok (mkEgressDb (update_where (usable permit) (set_consumed (stored_receipt (accepted_receipt a reference)))
                            (eg_permits db)) (eg_revisions db) (eg_failures db) l).
Proof.
  intros Hdb [Hp Hu Hd _ Hlast _ _] Hs Hno Hnew. set (s := stored_receipt (accepted_receipt a reference)).
  pose proof (set_ledger_ok _ _ Hdb Hs) as Hok. set (u := updated (usable permit) (set_consumed s)).
  assert (∀ y, y ∈ update_where (usable permit) (set_consumed s) (eg_permits db) →
            ∃ x, x ∈ eg_permits db ∧ y = u x ∧ (usable permit x = true → x = p)) as Hin.
  { intros y (x & Hx & ->)%elem_of_update_where. exists x. split_and!; [done..|].
    intros Hux. by apply (usable_unique db permit). }
  assert (∀ x, identity (u x) = identity x) as Hid by (intros x; unfold u, updated; by destruct (usable permit x)).
  pose proof (λ x, identity_fields x (u x) (Hid x)) as Hfields.
  apply usable_spec in Hu as Hu'. destruct Hu' as (Hdp & _ & Hcp).
  assert (∀ x, x ∈ eg_permits db → (usable permit x = true → x = p) →
            reference_of (u x) = if usable permit x then Some reference else reference_of x) as Href.
  { intros x Hx _. unfold u, updated. by destruct (usable permit x). }
  assert (∀ x, x ∈ eg_permits db → usable permit x = false → u x = x) as Hsame.
  { intros x _ Hx. unfold u, updated. by rewrite Hx. }
  assert (u p = set_consumed s p) as Hup by (unfold u, updated; by rewrite Hu).
  assert (pm_request_key p = None) as Hkey.
  { destruct (pm_request_key p) eqn:E; [|done]. exfalso. assert (in_flight p = true) as Hf.
    { apply (permit_bound p); [by apply (ok_permit db)|by eexists]. } unfold in_flight in Hf. by rewrite Hcp in Hf. }
  split; simpl.
  - apply Hs.
  - apply identities_update; [apply Hdb|done].
  - intros y (x & Hx & -> & Hxp)%Hin. unfold u, updated. destruct (usable permit x) eqn:E; [|by apply (ok_permit db)].
    rewrite Hxp by done. apply consumed_ok; [by apply (ok_permit db)|done|]. simpl. congruence.
  - intros y z r (x & Hx & -> & Hxp)%Hin (x' & Hx' & -> & _)%Hin.
    destruct (Hfields x) as (_ & -> & _ & _ & _ & -> & _), (Hfields x') as (_ & -> & _ & _ & _ & -> & _).
    intros Hk Ho. rewrite Href by done. destruct (usable permit x) eqn:E.
    + rewrite (Hxp eq_refl) in *. specialize (Hlast x' Hx' (eq_sym Hk)). lia.
    + by apply (ok_free _ Hok x x').
  - intros y (x & Hx & -> & Hxp)%Hin. unfold u at 1, updated. destruct (usable permit x) eqn:E.
    + rewrite (Hxp eq_refl) in *. simpl. rewrite Hup, (ok_accepted db Hdb p Hp). apply count_consumed; [apply Hdb|done|done| |done].
      intros z Hz Hcz. by apply (usable_unique db permit).
    + rewrite (Hsame x Hx E), (ok_accepted db Hdb x Hx). symmetry. apply count_updated.
      intros z Hz. fold u. destruct (usable permit z) eqn:Ez; [|by rewrite (Hsame z Hz Ez)].
      rewrite (usable_unique db permit z p Hdb Hz Hp Ez Hu), Hup.
      unfold counted, of_invocation. simpl. rewrite Hcp, !andb_false_r. simpl.
      case_bool_decide as Hkx; [|done]. simpl. apply Z.leb_gt.
      pose proof (Hlast x Hx (eq_sym Hkx)) as Hle. apply Z.le_neq. split; [done|]. intros Hoe.
      assert (x = p) as -> by (by apply (ok_ordinals db Hdb)). congruence.
  - intros y z r (x & Hx & -> & Hxp)%Hin (x' & Hx' & -> & Hxp')%Hin. rewrite !Href by done.
    destruct (usable permit x) eqn:E, (usable permit x') eqn:E'; [by rewrite Hxp, Hxp'|..].
    + intros [= <-] Hr. by apply Hno in Hr.
    + intros Hr [= <-]. by apply Hno in Hr.
    + intros Hr Hr'. f_equal. by eapply (ok_reference db Hdb).
  - intros y r (x & Hx & -> & Hxp)%Hin. rewrite Href by done. destruct (usable permit x); [by intros [= <-]|].
    by apply (ok_reserved _ Hok).
  - intros key y z (x & Hx & -> & Hxp)%Hin (x' & Hx' & -> & Hxp')%Hin.
    assert (∀ D, unresolved D key (set_consumed s p) = false) as Hnu by (intros D; unfold unresolved; simpl; by rewrite Hkey).
    unfold u, updated. destruct (usable permit x) eqn:E; [rewrite Hxp by done; by rewrite Hnu|].
    destruct (usable permit x') eqn:E'; [rewrite (Hxp' eq_refl); by rewrite Hnu|].
    by apply (ok_request _ Hok key).
Qed.

Lemma find_of_state l reference s : ledger_state l reference = Some s → is_Some (find_row l reference).
Proof. unfold ledger_state. destruct (find_row l reference); [by eexists|done]. Qed.

(** A consumed permit, on the tables before and after. *)
Record consumes (db : EgressDb) (a : DurableAttempt) (permit : DispatchPermit) (reference : string) (max_attempts : Z)
    (clock : option Z) (db' : EgressDb) (p : PermitRow) : Prop := {
  cs_checked : accepts db a permit max_attempts clock p;
  cs_fresh x : x ∈ eg_permits db → reference_of x ≠ Some reference;
  cs_rows : eg_permits db'
    = update_where (usable permit) (set_consumed (stored_receipt (accepted_receipt a reference))) (eg_permits db);
  cs_reserved : ledger_state (eg_ledger db') reference = Some SpendUnknown;
  cs_ledger : sound (eg_ledger db) (eg_ledger db');
  cs_revisions : eg_revisions db' = eg_revisions db;
  cs_failures : eg_failures db' = eg_failures db;
}.

Lemma consumes_ok db a permit reference max_attempts clock db' p : permits_ok db →
  consumes db a permit reference max_attempts clock db' p → permits_ok db'.
Proof.
  intros Hok [Hacc Hf Hr Hs Hl Hv Hx]. destruct db' as [rows revisions failures l]. simpl in *. subst.
  eapply consume_rows_ok; [done|done|done|done|]. by eapply find_of_state.
Qed.

Lemma consume_spec db a permit handoff max_attempts clock utc db' r : permits_ok db →
  reservation_ok (ah_reservation handoff) →
  consume db a permit handoff max_attempts clock utc = Ok (db', r) →
  r = accepted_receipt a (sr_reference (ah_reservation handoff))
  ∧ ∃ p, consumes db a permit (sr_reference (ah_reservation handoff)) max_attempts clock db' p.
Proof.
  intros Hok Hres. unfold consume. walk. apply accept_in_ok in E as (-> & -> & p & Hacc). simpl in E0.
  destruct (reserve_handoff_in _ _ _) as [[l' accepted]| |] eqn:Hl; simpl in E0; [|done..]. injection E0 as -> ->.
  destruct b; [|done]. intros [= <- <-]. split; [done|]. exists p.
  destruct (handoff_state _ _ _ _ (ok_ledger db Hok) Hl) as [Hf Hs].
  rewrite with_ledger_quiet by (by eapply quiet_decided). split; simpl; try done.
  - intros x Hx Hr. destruct (ok_reserved db Hok x _ Hx Hr). congruence.
  - by rewrite Hs, bool_decide_eq_true_2.
  - by eapply reserve_handoff_sound; [apply Hok| |].
Qed.

(** An acceptance on tables whose ledger already holds the reservation. *)
Lemma accept_on db a permit reference max_attempts clock db' r : permits_ok db →
  (∀ x, x ∈ eg_permits db → reference_of x ≠ Some reference) → ledger_state (eg_ledger db) reference = Some SpendUnknown →
  accept_in db a permit reference max_attempts clock = Ok (db', r) →
  ∃ p, consumes db a permit reference max_attempts clock db' p.
Proof.
  intros Hok Hno Hs Ha. apply accept_in_ok in Ha as (-> & -> & p & Hacc). exists p. split; try done.
  apply sound_refl, Hok.
Qed.

Lemma accept_job_spec db a reference max_attempts first second third token db' u : permits_ok db →
  (∀ x, x ∈ eg_permits db → reference_of x ≠ Some reference) → ledger_state (eg_ledger db) reference = Some SpendUnknown →
  accept_job_in db a reference max_attempts first second third token = Ok (db', u) →
  ∃ db1 permit p, permits_ok db1 ∧ consumes db1 a permit reference max_attempts third db' p
    ∧ (db1 = db ∨ ∃ accepted, db1 = with_permits (eg_permits db ++ [new_permit a accepted token]) db).
Proof.
  intros Hok Hno Hs. unfold accept_job_in. walk. intros [= <- <-]. revert E.
  destruct (permit_at db _ _) as [q|]; walk.
  - intros [= <- <-]. apply accept_on in E0 as [p Hp]; [|done..]. exists db. naive_solver.
  - intros [= <- <-]. apply issue_in_ok in E as (Hok1 & accepted & -> & _); [|done].
    apply accept_on in E0 as [p' Hp]; [|done| |done].
    + eexists _, _, p'. split_and!; [done|done|]. right. by exists accepted.
    + simpl. intros x [Hx| ->]%elem_of_snoc; [by apply Hno|done].
Qed.

(** ** Requests *)

Lemma bindable_spec d p : bindable d p = true ↔
  pm_attempt_digest p = d ∧ in_flight p = true ∧ pm_request_key p = None.
Proof.
  unfold bindable, with_digest. rewrite !andb_true_iff, bool_decide_eq_true, negb_true_iff.
  destruct (pm_request_key p); naive_solver.
Qed.

Lemma budget_failures db key policy clock db' admission : admit_request_budget_in db key policy clock = Ok (db', admission) →
  db' = with_failures (eg_failures db') db.
Proof.
  unfold admit_request_budget_in. walk. intros [= <- <-]. done.
Qed.

Lemma failures_ok db failures : permits_ok db → permits_ok (with_failures failures db).
Proof. intros [A B C D E F G K]. by split. Qed.

Lemma admit_request_spec db d key policy clock db' admission :
  admit_request_in db d key policy clock = Ok (db', admission) →
  (∀ p, p ∈ eg_permits db → unresolved db key p = false)
  ∧ (∃ p, select_where (bindable d) (eg_permits db) = [p])
  ∧ db' = with_failures (eg_failures db')
            (with_permits (update_where (bindable d) (set_request_key (Some key)) (eg_permits db)) db)
  ∧ (policy = None → eg_failures db' = eg_failures db ∧ admission = None).
Proof.
  unfold admit_request_in. destruct (head _) as [q|] eqn:Hh; [done|]. apply head_None in Hh. walk. intros Hp. split_and!.
  - intros p Hin. apply not_true_iff_false. intros Hu.
    assert (p ∈ select_where (unresolved db key) (eg_permits db)) as He by (by apply elem_of_select_where).
    rewrite Hh in He. by apply elem_of_nil in He.
  - bools. destruct (select_where (bindable d) _) as [|p [|]]; [done|by exists p|done].
  - destruct policy as [policy|]; revert Hp; [walk|by intros [= <- _]].
    intros [= <- <-]. by eapply budget_failures.
  - intros ->. by injection Hp as <- <-.
Qed.

Lemma admit_request_ok db d key policy clock db' admission : permits_ok db →
  admit_request_in db d key policy clock = Ok (db', admission) → permits_ok db'.
Proof.
  intros Hok Ha. apply admit_request_spec in Ha as (Hnone & (p0 & Hone) & -> & _). apply failures_ok, update_permits_ok; [done| |].
  - intros p Hp (_ & Hf & _)%bindable_spec. split; [apply same_key|].
    destruct (ok_permit db Hok p Hp) as [A B C D E F]. by split.
  - assert (∀ x, x ∈ eg_permits db → bindable d x = true → x = p0) as Hp0.
    { intros x Hx Hb. assert (x ∈ select_where (bindable d) (eg_permits db)) as He by (by apply elem_of_select_where).
      rewrite Hone in He. by apply list_elem_of_singleton in He. }
    intros k p q Hp Hq. unfold updated. destruct (bindable d p) eqn:Ep, (bindable d q) eqn:Eq.
    + intros _ _. by rewrite (Hp0 p), (Hp0 q).
    + intros Hu Hv. assert (k = key) as ->.
      { unfold unresolved in Hu. simpl in Hu. bools. congruence. }
      by rewrite (Hnone q Hq) in Hv.
    + intros Hu Hv. assert (k = key) as ->.
      { unfold unresolved in Hv. simpl in Hv. bools. congruence. }
      by rewrite (Hnone p Hp) in Hu.
    + by apply (ok_request db Hok).
Qed.

(** ** Completion *)

Lemma finishes_spec d p : finishes d p = true ↔ pm_attempt_digest p = d ∧ in_flight p = true.
Proof. unfold finishes, with_digest. by rewrite andb_true_iff, bool_decide_eq_true. Qed.

(** The row a completion leaves, and its allowance. *)
Lemma finish_spec db mode answer budget received first second utc db' u :
  finish db mode answer budget received first second utc = Ok (db', u) →
  let r := ds_receipt answer in
  ∃ time l p, now first = Ok time
    ∧ select_where (finishes (dr_attempt_digest r)) (eg_permits db) = [p]
    ∧ finish_in (eg_ledger db) utc (dr_reference r) (dr_spend_state r)
        (if received || has_measured_usage (dr_usage r) then Some (Responses.stored_usage mode (dr_usage r)) else None)
        (if received then Some output_received else None) = Ok (l, tt)
    ∧ db' = with_failures (eg_failures db')
              (with_ledger l (with_permits
                 (update_where (finishes (dr_attempt_digest r))
                    (finish_row (stored_receipt r) mode (with_receipt (stored_receipt r) answer) time)
                    (eg_permits db)) db))
    ∧ match budget with
      | Some b => settle_budget (eg_failures db) b (is_some (ds_output answer)) (dr_spend_state r) second
                  = Ok (eg_failures db')
      | None => eg_failures db' = eg_failures db
      end.
Proof.
  unfold finish. cbv zeta. destruct (now first) as [time| |]; rsimpl; [|done..].
  unfold sql_u64 at 1. unfold i64_try_from. destruct (time <=? i64_max); rsimpl; [|done]. walk. bools. destruct u0.
  destruct (finish_in _ _ _ _ _ _) as [[l' []]| |] eqn:Hl; simpl in E0; [|done..]. injection E0 as ->. simpl in Hl.
  destruct (select_where _ _) as [|p [|]] eqn:Hs; [done| |done]. intros Hb. exists time, l, p. split_and!; [done..| |].
  - destruct budget; revert Hb; [walk|]; by intros [= <- _].
  - destruct budget as [b|]; revert Hb; [|by intros [= <- _]]. simpl. walk. by intros [= <- _].
Qed.

Lemma finish_row_ok p stored mode answer time : permit_ok p → in_flight p = true →
  sd_attempt_digest stored = pm_attempt_digest p → permit_ok (finish_row stored mode answer time p).
Proof.
  intros [A B C D E F] Hf Hd. unfold in_flight in Hf. apply andb_true_iff in Hf as [Hc _].
  split; unfold finish_row; simpl; try done.
  - by intros ? [= <-].
  - destruct mode; naive_solver.
  - intros [x Hx]. destruct (time <? _); [|done]. by destruct mode.
Qed.

(** A completion keeps the invariant when its receipt is the one the permit
    was consumed with. *)
Lemma finish_permit_ok db mode answer budget received first second utc db' u : permits_ok db →
  (∀ p, p ∈ eg_permits db → pm_attempt_digest p = dr_attempt_digest (ds_receipt answer) → in_flight p = true →
     reference_of p = Some (dr_reference (ds_receipt answer))) →
  finish db mode answer budget received first second utc = Ok (db', u) → permits_ok db'.
Proof.
  intros Hok Href Hf. apply finish_spec in Hf as (time & l & p & Ht & Hp & Hl & -> & _).
  apply failures_ok, with_ledger_ok; [|by eapply finish_in_sound; [apply Hok|]].
  apply update_permits_ok; [done| |].
  - intros q Hq [Hd Hfl]%finishes_spec. split; [|by apply finish_row_ok; [apply (ok_permit db)|..]].
    split_and!; try done. unfold reference_of at 1. simpl. by rewrite (Href q).
  - intros key q q' Hq Hq'. unfold updated. destruct (finishes _ q); [done|]. destruct (finishes _ q'); [done|].
    by apply (ok_request db Hok).
Qed.

(** ** Expiry *)

Lemma clear_result_ok p : permit_ok p → permit_ok (clear_result p).
Proof. intros [A B C D E F]. split; simpl; try done. Qed.

Context `{!PermitOrder}.

(** The rows a batch chooses, with their positions. *)
Definition batch (db : EgressDb) (time : Z) : list (nat * PermitRow) :=
  take EXPIRY_BATCH_SIZE (permit_order (select_where (λ p, due time p.2) (imap pair (eg_permits db)))).

Definition in_batch (db : EgressDb) (time : Z) (p : PermitRow) : bool :=
  bool_decide (pm_attempt_digest p ∈ (λ x : nat * PermitRow, pm_attempt_digest x.2) <$> batch db time).

Lemma batch_elem db time i p : (i, p) ∈ batch db time → eg_permits db !! i = Some p ∧ due time p = true.
Proof.
  intros Hin. assert ((i, p) ∈ select_where (λ p, due time p.2) (imap pair (eg_permits db))) as He.
  { rewrite <-(permit_order_perm (select_where _ _)). by eapply subseteq_take. }
  apply elem_of_select_where in He as [He Hd]. split; [|done].
  apply list_elem_of_lookup_1 in He as [j Hj]. rewrite list_lookup_imap in Hj.
  destruct (eg_permits db !! j) as [q|] eqn:Hq; [|done]. by injection Hj as <- <-.
Qed.

Lemma in_batch_spec db time i p : permits_ok db → eg_permits db !! i = Some p →
  in_batch db time p = true ↔ i ∈ (batch db time).*1.
Proof.
  intros Hok Hi. unfold in_batch. rewrite bool_decide_eq_true, !list_elem_of_fmap. split.
  - intros ([j q] & Hd & Hq). exists (j, q). split; [|done]. simpl in *. pose proof (batch_elem _ _ _ _ Hq) as [Hj _].
    eapply NoDup_lookup; [apply (id_nodup _ _ (ok_identities db Hok))|done|].
    rewrite (ok_digests db Hok p q); [done|by eapply list_elem_of_lookup_2..|done].
  - intros ([j q] & -> & Hq). exists (j, q). split; [|done]. simpl in *. apply batch_elem in Hq as [Hj _]. congruence.
Qed.

(** A purge clears the answers of its batch. *)
Lemma purge_spec db time db' u : permits_ok db → purge_expired db time = Ok (db', u) →
  db' = with_permits (update_where (in_batch db time) clear_result (eg_permits db)) db.
Proof.
  intros Hok. unfold purge_expired, sql_u64, i64_try_from. destruct (time <=? i64_max); rsimpl; [|done].
  destruct (existsb _ _) eqn:He; simpl; intros [= <- _].
  - unfold with_permits. f_equal. unfold update_where. apply list_eq. intros i.
    rewrite list_lookup_imap, list_lookup_fmap. destruct (eg_permits db !! i) as [p|] eqn:Hi; [|done]. simpl. f_equal.
    pose proof (in_batch_spec db time i p Hok Hi) as Hb. unfold batch in Hb. case_bool_decide as Hc.
    + by rewrite (proj2 Hb).
    + destruct (in_batch db time p) eqn:Eb; [|done]. destruct Hc. by apply Hb.
  - rewrite update_where_none; [by destruct db|]. intros p Hp. apply not_true_iff_false. intros Hb.
    apply list_elem_of_lookup_1 in Hp as [i Hi]. apply (in_batch_spec db time i p Hok Hi) in Hb.
    apply list_elem_of_fmap in Hb as ([j q] & -> & Hq). apply batch_elem in Hq as [Hj Hd].
    apply not_true_iff_false in He. apply He, existsb_exists. exists q. split; [|done].
    apply list_elem_of_In. by eapply list_elem_of_lookup_2.
Qed.

Lemma purge_ok db time db' u : permits_ok db → purge_expired db time = Ok (db', u) → permits_ok db'.
Proof.
  intros Hok ->%purge_spec; [|done]. apply update_permits_ok; [done| |].
  - intros p Hp _. split; [done|by apply clear_result_ok, (ok_permit db)].
  - intros key p q Hp Hq. assert (∀ x, unresolved db key (updated (in_batch db time) clear_result x) = unresolved db key x) as Hu.
    { intros x. unfold updated. by destruct (in_batch db time x). }
    rewrite !Hu. by apply (ok_request db Hok).
Qed.

End Proofs.
