(* ===== verification/EgressMachine.v ===== *)
(** The credential process keeps its invariant in every interleaving.

    [process_ok] adds to the invariant of the tables that every dispatch works
    on the permit it consumed, that a gate has one holder, and that the
    allowance of a request whose send is under way counts that send on top of
    the snapshot its admission took. *)

From Stdlib Require Import ZArith Lia.
From stdpp Require Import base gmap strings list sorting.
From S2P Require Import Prelude Text Core SpendTypes ExecutionPolicy Wire Adapters Trace.
From S2P Require Import SpendLedger SpendInv SpendProofs JobTypes EgressTypes EgressRegistry EgressRoutes EgressProcess EgressInv EgressProofs.

#[local] Open Scope Z_scope.

Section Machine.
Context {J : JsonValues} `{!Sha256, !JsonWriter, !Hmac, !PermitOrder}.

(** ** What no transaction takes back *)

(** A consumed permit stays, with its receipt. *)
Definition kept (db db' : EgressDb) : Prop := ∀ p reference, p ∈ eg_permits db → reference_of p = Some reference →
  ∃ p', p' ∈ eg_permits db' ∧ identity p' = identity p ∧ reference_of p' = Some reference.

Lemma kept_refl db : kept db db.
Proof. intros p reference Hp Hr. by exists p. Qed.

Lemma kept_trans db1 db2 db3 : kept db1 db2 → kept db2 db3 → kept db1 db3.
Proof.
  intros H12 H23 p reference Hp Hr. destruct (H12 p reference Hp Hr) as (p2 & Hp2 & Hi2 & Hr2).
  destruct (H23 p2 reference Hp2 Hr2) as (p3 & Hp3 & Hi3 & Hr3). exists p3. split_and!; congruence.
Qed.

Lemma kept_update db db' c f : eg_permits db' = update_where c f (eg_permits db) →
  (∀ p, p ∈ eg_permits db → c p = true → is_Some (reference_of p) → identity (f p) = identity p
     ∧ reference_of (f p) = reference_of p) → kept db db'.
Proof.
  intros He Hf p reference Hp Hr. exists (updated c f p). rewrite He. split.
  - apply elem_of_update_where. by exists p.
  - unfold updated. destruct (c p) eqn:E; [|done]. destruct (Hf p Hp E) as [-> ->]; [by eexists|done].
Qed.

Lemma kept_rows db db' : eg_permits db' = eg_permits db → kept db db'.
Proof. intros He p reference Hp Hr. exists p. by rewrite He. Qed.

Lemma kept_snoc db db' new : eg_permits db' = eg_permits db ++ [new] → kept db db'.
Proof. intros He p reference Hp Hr. exists p. rewrite He, elem_of_app. by split; [left|]. Qed.

Lemma kept_ledger db l : kept db (with_ledger l db).
Proof. by eapply kept_update. Qed.

Lemma consumes_kept db a permit reference max_attempts clock db' p : permits_ok db →
  consumes db a permit reference max_attempts clock db' p → kept db db'.
Proof.
  intros Hok Hc. eapply kept_update; [apply Hc|]. intros x Hx (_ & _ & Hu)%usable_spec [r Hr].
  rewrite (reference_consumed x r) in Hu; [done|by apply (ok_permit db)|done].
Qed.

(** ** Transactions that leave the allowances alone *)

Record advances (db db' : EgressDb) : Prop := {
  adv_ok : permits_ok db';
  adv_kept : kept db db';
  adv_failures : eg_failures db' = eg_failures db;
}.

Lemma purge_advances db clock db' u : permits_ok db → purge_expired_results db clock = Ok (db', u) → advances db db'.
Proof.
  intros Hok. unfold purge_expired_results. walk. intros Hp. split; [by eapply purge_ok|..].
  - apply purge_spec in Hp as ->; [|done]. by eapply kept_update.
  - by apply purge_spec in Hp as ->.
Qed.

Lemma open_advances db version tables installed rebuild clock : permits_ok db →
  advances db (open_registry db version tables installed rebuild clock).1.
Proof.
  intros Hok. assert (advances db db) as Hrefl by (split; [done|apply kept_refl|done]). unfold open_registry.
  destruct (negb (version =? _)); [done|]. destruct (negb (tables =? 4)); [done|].
  assert (advances db (repair db installed rebuild)) as [Hok1 Hk1 Hf1].
  { unfold repair. destruct (_ || _); [|done]. split; [by apply unbind_ok|by eapply kept_update|done]. }
  destruct (let? time := now clock in purge_expired (repair db installed rebuild) time) as [[db' u]| |] eqn:Hp; simpl; [|by split..].
  apply (purge_advances _ clock _ u Hok1) in Hp as [Hok' Hk' Hf']. split; [done|by eapply kept_trans|congruence].
Qed.

Lemma issue_advances db a max_attempts clock first second token db' grant : permits_ok db →
  issue db a max_attempts clock first second token = Ok (db', grant) → advances db db'.
Proof.
  intros Hok. unfold issue. walk. destruct a0 as [g|].
  - intros [= <- <-]. split; [done|apply kept_refl|done].
  - intros Hi. apply issue_in_ok in Hi as (Hok' & accepted & -> & _); [|done]. split; [done|by eapply kept_snoc|done].
Qed.

Lemma publish_advances db g db' u : permits_ok db → publish_revision db g = Ok (db', u) → advances db db'.
Proof.
  intros Hok Hp. split; [by eapply publish_ok|..]; revert Hp; unfold publish_revision; walk; intros [= <- _];
    [by apply kept_rows|done].
Qed.

Lemma ledger_advances db l : permits_ok db → sound (eg_ledger db) l → advances db (with_ledger l db).
Proof. intros Hok Hs. split; [by apply with_ledger_ok|apply kept_ledger|done]. Qed.

Lemma job_finish_advances db receipt db' u : permits_ok db → job_finish db receipt = Ok (db', u) → advances db db'.
Proof.
  intros Hok. unfold job_finish. walk. intros [= <- _]. split; [by apply unbind_ok|by eapply kept_update|done].
Qed.

Lemma bound_kept db key d : kept db (with_permits (update_where (bindable d) (set_request_key key) (eg_permits db)) db).
Proof. by eapply kept_update. Qed.

Lemma job_send_advances routes db a fingerprint db' u : permits_ok db →
  job_before_send routes db a fingerprint = Ok (db', u) → advances db db'.
Proof.
  intros Hok. unfold job_before_send. walk. destruct (admit_request_in _ _ _ _ _) as [[db1 adm]| |] eqn:Ha; simpl; [|done..].
  intros [= <- _]. split; [by eapply admit_request_ok|..];
    apply admit_request_spec in Ha as (_ & _ & Heq & Hnone); destruct (Hnone eq_refl) as [Hf _]; [|done].
  eapply kept_update; [by rewrite Heq|done].
Qed.

Lemma job_claim_advances routes db a reservation limit first second third token utc db' u : permits_ok db →
  reservation_ok reservation → 0 ≤ limit ≤ u32_max →
  job_claim_in routes db a reservation limit first second third token utc = Ok (db', u) → advances db db'.
Proof.
  intros Hok Hres Hlim. unfold job_claim_in.
  destruct (reserve_with_limit_in _ _ _ _ _) as [[l accepted]| |] eqn:Hl; simpl; [|done..]. destruct accepted; [|done].
  destruct (reserved_state _ _ _ _ _ _ (ok_ledger db Hok) Hl) as [Hf Hs].
  rewrite with_ledger_quiet by (by eapply quiet_decided). fold (set_ledger l db). unfold job_accept. walk.
  destruct (accept_job_in _ _ _ _ _ _ _ _) as [[db1 u1]| |] eqn:Ha; simpl; [|done..]. intros [= <- _].
  assert (sound (eg_ledger db) l) as Hsound.
  { eapply reserve_sound; [apply Hok|done| |done]. by intros ? [= <-]. }
  pose proof (set_ledger_ok db l Hok Hsound) as Hok1.
  apply accept_job_spec in Ha as (db2 & permit & p & Hok2 & Hc & Hdb); [|done| |].
  - split; [exact (consumes_ok _ _ _ _ _ _ _ _ Hok2 Hc)| |].
    + eapply kept_trans; [|exact (consumes_kept _ _ _ _ _ _ _ _ Hok2 Hc)]. destruct Hdb as [->|[n ->]]; [by apply kept_rows|by eapply kept_snoc].
    + rewrite (cs_failures _ _ _ _ _ _ _ _ Hc). by destruct Hdb as [->|[n ->]].
  - simpl. intros x Hx Hr. destruct (ok_reserved db Hok x _ Hx Hr). congruence.
  - simpl. by rewrite Hs, bool_decide_eq_true_2.
Qed.

(** ** Dispatches *)

Lemma handoff_reference a route payload handoff : accepted_handoff a route payload = Ok handoff →
  reservation_ok (ah_reservation handoff).
Proof.
  unfold accepted_handoff, spend_reservation, egress_reference. destruct payload; walk; intros [= <-]; simpl;
    revert E; walk; intros [= <-]; simpl; revert E;
    unfold SpendReceiptRef_new, reservation_ok; destruct (_ <? _) eqn:Hl; simpl; try done; intros [= <-]; simpl;
    by apply Z.ltb_ge in Hl.
Qed.

(** A spawned dispatch owns the permit it has consumed. *)
Record spawned (db db' : EgressDb) (t : Task) : Prop := {
  sp_advances : advances db db';
  sp_phase : tk_phase t = Resolving;
  sp_state : dr_spend_state (tk_receipt t) = SpendUnknown;
  sp_permit : ∃ p, p ∈ eg_permits db' ∧ pm_attempt_digest p = dr_attempt_digest (tk_receipt t)
    ∧ reference_of p = Some (dr_reference (tk_receipt t));
}.

Lemma inject_spawns routes key db request validator clock second utc db' t : permits_ok db →
  inject routes key db request validator clock second utc = Ok (db', t) → spawned db db' t.
Proof.
  intros Hok. unfold inject. destruct (negb _); [done|]. walk. intros [= <- <-].
  match goal with Ha : accepted_handoff _ _ _ = Ok _, Hc : consume _ _ _ _ _ _ _ = Ok _ |- _ =>
    apply handoff_reference in Ha as Hres; apply consume_spec in Hc as (-> & p & Hcs); [|done|done] end.
  split; simpl; try done.
  - split; [by eapply consumes_ok|by eapply consumes_kept|apply Hcs].
  - destruct (cs_checked _ _ _ _ _ _ _ _ Hcs) as [Hp Hu Hd _ _ _ _].
    eexists. rewrite (cs_rows _ _ _ _ _ _ _ _ Hcs). split; [apply elem_of_update_where; by exists p|].
    rewrite Hu. simpl. apply usable_spec in Hu as (-> & _). by rewrite Hd.
Qed.

(** ** Allowances *)

(** The failures an admission found. *)
Definition failures_before (b : RequestBudgetAdmission) : Z := match ba_previous b with Some (n, _) => n | None => 0 end.

(** The send under way is counted on top of them. *)
Definition allowance_ok (failures : gmap string (Z * Z)) (b : RequestBudgetAdmission) : Prop :=
  ∃ last, failures !! ba_key b = Some (failures_before b + 1, last).

Lemma budget_admitted db d key policy clock db' admission :
  admit_request_in db d key policy clock = Ok (db', admission) →
  match admission with
  | Some b => is_some policy = true ∧ ba_key b = key
      ∧ ∃ last, eg_failures db' = <[key := (failures_before b + 1, last)]> (eg_failures db)
  | None => eg_failures db' = eg_failures db
  end.
Proof.
  unfold admit_request_in. destruct (head _); [done|]. destruct (negb _); [done|].
  destruct policy as [policy|]; [|by intros [= <- <-]]. unfold admit_request_budget_in. walk. intros [= <- <-].
  revert E. walk. intros [= <- <-]. split_and!; [done..|]. eexists. reflexivity.
Qed.

Lemma settle_other failures b answered state clock failures' key : settle_budget failures b answered state clock = Ok failures' →
  key ≠ ba_key b → failures' !! key = failures !! key.
Proof.
  intros Hs Hk. revert Hs. unfold settle_budget. destruct answered; [intros [= <-]; by rewrite lookup_delete_ne|].
  case_bool_decide; [destruct (ba_previous b) as [[count last]|]|]; walk; intros [= <-];
    by rewrite ?lookup_delete_ne, ?lookup_alter_ne.
Qed.

(** ** The process *)

Definition admission_of (t : Task) : option RequestBudgetAdmission :=
  match tk_phase t with Executing _ _ admission => admission | Finishing _ admission _ => admission | _ => None end.

Definition owns (db : EgressDb) (t : Task) : Prop :=
  ∃ p, p ∈ eg_permits db ∧ pm_attempt_digest p = dr_attempt_digest (tk_receipt t)
    ∧ reference_of p = Some (dr_reference (tk_receipt t)).

Record process_ok (s : Process) : Prop := {
  po_db : permits_ok (pr_db s);
  po_owns i t : pr_tasks s !! i = Some t → owns (pr_db s) t;
  po_state i t : pr_tasks s !! i = Some t → dr_spend_state (tk_receipt t) = SpendUnknown;
  po_gate i j t u key : pr_tasks s !! i = Some t → pr_tasks s !! j = Some u →
    holds t = Some key → holds u = Some key → i = j;
  po_budget i t b : pr_tasks s !! i = Some t → admission_of t = Some b →
    holds t = Some (ba_key b) ∧ allowance_ok (eg_failures (pr_db s)) b;
}.

Lemma owns_kept db db' t : kept db db' → owns db t → owns db' t.
Proof.
  intros Hk (p & Hp & Hd & Hr). destruct (Hk p _ Hp Hr) as (p' & Hp' & Hi & Hr'). exists p'. split_and!; [done| |done].
  apply identity_fields in Hi as [Hd' _]. congruence.
Qed.

Lemma advances_ok s db' : process_ok s → advances (pr_db s) db' → process_ok (mkProcess db' (pr_tasks s)).
Proof.
  intros Hok [Hdb Hk Hf]. split; simpl; [done|..].
  - intros i t Ht. eapply owns_kept; [done|]. by eapply (po_owns s).
  - apply (po_state s Hok).
  - apply (po_gate s Hok).
  - rewrite Hf. apply (po_budget s Hok).
Qed.

Lemma committed_ok {E A : Type} s (c : result E (EgressDb * A)) : process_ok s →
  (∀ db' a, c = Ok (db', a) → advances (pr_db s) db') → process_ok (committed s c).
Proof. intros Hok Hc. destruct c as [[db' a]| |]; simpl; [|done..]. apply advances_ok; [done|]. by eapply Hc. Qed.

Lemma spawn_ok s db' t : process_ok s → spawned (pr_db s) db' t → process_ok (mkProcess db' (pr_tasks s ++ [t])).
Proof.
  intros Hok [Hadv Hph Hst Hpe]. pose proof (advances_ok s db' Hok Hadv) as Hok'.
  assert (∀ i u, (pr_tasks s ++ [t]) !! i = Some u → pr_tasks s !! i = Some u ∨ u = t) as Hin.
  { intros i u Hu. destruct (decide (i < length (pr_tasks s))%nat).
    - rewrite lookup_app_l in Hu by done. by left.
    - rewrite lookup_app_r in Hu by lia. right. apply list_elem_of_lookup_2 in Hu. by apply list_elem_of_singleton in Hu. }
  assert (holds t = None) as Hh by (unfold holds; by rewrite Hph).
  assert (admission_of t = None) as Ha by (unfold admission_of; by rewrite Hph).
  split; simpl.
  - apply Hok'.
  - intros i u [Hu| ->]%Hin; [by apply (po_owns _ Hok' i)|done].
  - intros i u [Hu| ->]%Hin; [by apply (po_state _ Hok' i)|done].
  - intros i j u v k [Hu| ->]%Hin [Hv| ->]%Hin; try congruence. by apply (po_gate _ Hok').
  - intros i u b [Hu| ->]%Hin; [by apply (po_budget _ Hok' i)|congruence].
Qed.

(** A step of one dispatch. *)
Lemma phase_ok s i t phase db' : process_ok s → pr_tasks s !! i = Some t → permits_ok db' → kept (pr_db s) db' →
  (∀ key j u, holds (with_phase phase t) = Some key → pr_tasks s !! j = Some u → holds u = Some key → i = j) →
  (∀ b, admission_of (with_phase phase t) = Some b →
     holds (with_phase phase t) = Some (ba_key b) ∧ allowance_ok (eg_failures db') b) →
  (∀ j u b, j ≠ i → pr_tasks s !! j = Some u → admission_of u = Some b → allowance_ok (eg_failures db') b) →
  process_ok (mkProcess db' (set_phase i t phase (pr_tasks s))).
Proof.
  intros Hok Ht Hdb Hk Hgate Hbud Hothers.
  assert (∀ j u, set_phase i t phase (pr_tasks s) !! j = Some u →
    (j = i ∧ u = with_phase phase t) ∨ (j ≠ i ∧ pr_tasks s !! j = Some u)) as Hin.
  { intros j u. unfold set_phase. destruct (decide (j = i)) as [->|Hne].
    - rewrite list_lookup_insert_eq by (by eapply lookup_lt_Some). intros [= <-]. by left.
    - rewrite list_lookup_insert_ne by done. by right. }
  split; simpl; [done|..].
  - intros j u [[-> ->]|[_ Hu]]%Hin; eapply owns_kept; [done| |done|by apply (po_owns s Hok j)].
    by apply (po_owns s Hok i) in Ht.
  - intros j u [[-> ->]|[_ Hu]]%Hin; [by apply (po_state s Hok i) in Ht|by apply (po_state s Hok j)].
  - intros j k u v key [[-> ->]|[Hj Hu]]%Hin [[-> ->]|[Hk' Hv]]%Hin Hhu Hhv; [done|by eapply Hgate| |by eapply (po_gate s Hok)].
    symmetry. by eapply Hgate.
  - intros j u b [[-> ->]|[Hj Hu]]%Hin Hb; [by apply Hbud|]. split; [by eapply (po_budget s Hok j)|by eapply Hothers].
Qed.

(** A step that takes no gate and changes no table. *)
Lemma quiet_phase_ok s i t phase : process_ok s → pr_tasks s !! i = Some t →
  (∀ key, holds (with_phase phase t) = Some key → holds t = Some key) →
  (∀ b, admission_of (with_phase phase t) = Some b → admission_of t = Some b ∧ holds (with_phase phase t) = holds t) →
  process_ok (task_step s i t phase).
Proof.
  intros Hok Ht Hh Ha. apply phase_ok; [done|done|apply Hok|apply kept_refl|..].
  - intros key j u Hkey Hu. eapply (po_gate s Hok); [done|done|by apply Hh].
  - intros b Hb. destruct (Ha b Hb) as [Hb' ->]. by eapply (po_budget s Hok i).
  - intros j u b _ Hu Hb. by eapply (po_budget s Hok j).
Qed.

Lemma gate_free tasks key j u : gate_taken tasks key = false → tasks !! j = Some u → holds u ≠ Some key.
Proof.
  intros Hg Hu Hh. apply not_true_iff_false in Hg. apply Hg, existsb_exists. exists u. split.
  - by eapply list_elem_of_In, list_elem_of_lookup_2.
  - by rewrite bool_decide_eq_true.
Qed.

Lemma admit_kept db d key policy clock db' admission : admit_request_in db d key policy clock = Ok (db', admission) →
  kept db db'.
Proof. intros (_ & _ & Heq & _)%admit_request_spec. eapply kept_update; [by rewrite Heq|done]. Qed.

Lemma admit_ok s i t request clock db' phase : process_ok s → pr_tasks s !! i = Some t → tk_phase t = Waiting request →
  admit_dispatch s t request clock = Some (db', phase) → process_ok (mkProcess db' (set_phase i t phase (pr_tasks s))).
Proof.
  intros Hok Ht Hph. unfold admit_dispatch. destruct (is_some (rt_request_budget (tk_route t))) eqn:Hheld; simpl.
  - destruct (gate_taken (pr_tasks s) request) eqn:Hg; [done|]. intros [= Hcase].
    pose proof (λ j u, gate_free _ _ j u Hg) as Hfree.
    destruct (admit_request_in _ _ _ _ _) as [[db1 adm]|e|] eqn:Ha; injection Hcase as <- <-.
    + pose proof (budget_admitted _ _ _ _ _ _ _ Ha) as Hb.
      apply phase_ok; [done|done|eapply admit_request_ok; [apply Hok|done]|by eapply admit_kept|..].
      * intros key j u [= <-] Hu Hhu. by destruct (Hfree j u).
      * unfold admission_of, holds. simpl. intros b ->. destruct Hb as (_ & Hkey & last & Hf). split; [by rewrite Hkey|]. exists last.
        rewrite Hf, Hkey. apply lookup_insert_eq.
      * intros j u b _ Hu Hadm. destruct (po_budget s Hok j u b Hu Hadm) as [Hh [last Hl]]. destruct adm as [b'|].
        -- destruct Hb as (_ & _ & last' & Hf). exists last. rewrite Hf, lookup_insert_ne; [done|]. intros Heq.
           apply (Hfree j u Hu). by rewrite Heq.
        -- rewrite Hb. by exists last.
    + apply phase_ok; [done|done|apply Hok|apply kept_refl|..].
      * intros key j u [= <-] Hu Hhu. by destruct (Hfree j u).
      * done.
      * intros j u b _ Hu Hb. by eapply (po_budget s Hok j).
    + by apply quiet_phase_ok.
  - intros [= Hcase]. destruct (admit_request_in _ _ _ _ _) as [[db1 adm]|e|] eqn:Ha; injection Hcase as <- <-.
    + pose proof (budget_admitted _ _ _ _ _ _ _ Ha) as Hb. destruct adm as [b|]; [destruct Hb; congruence|].
      apply phase_ok; [done|done|eapply admit_request_ok; [apply Hok|done]|by eapply admit_kept|done|done|].
      intros j u b _ Hu Hadm. rewrite Hb. by eapply (po_budget s Hok j).
    + by apply quiet_phase_ok.
    + by apply quiet_phase_ok.
Qed.

(** A completion speaks about the receipt of its dispatch. *)
Lemma observed_receipt t outcome : let r := ds_receipt (validated (tk_validator t) (observe (tk_receipt t) outcome)) in
  dr_attempt_digest r = dr_attempt_digest (tk_receipt t) ∧ dr_reference r = dr_reference (tk_receipt t)
  ∧ dr_attempt_id r = dr_attempt_id (tk_receipt t).
Proof.
  destruct outcome as [|failure|answer usage diagnostics]; simpl.
  - unfold validated. by destruct (tk_validator t).
  - unfold validated. simpl. by destruct (ee_may_have_dispatched failure), (tk_validator t).
  - unfold validated. simpl. destruct (has_measured_usage usage), (tk_validator t) as [v|]; try done; simpl; by destruct (v answer).
Qed.

Lemma owned_reference db t p : permits_ok db → owns db t → p ∈ eg_permits db →
  pm_attempt_digest p = dr_attempt_digest (tk_receipt t) → reference_of p = Some (dr_reference (tk_receipt t)).
Proof. intros Hok (q & Hq & Hd & Hr) Hp Hdp. rewrite (ok_digests db Hok p q); [done|done|done|congruence]. Qed.

(** What a recorded completion leaves. *)
Lemma finish_kept db t mode outcome admission first second utc db' u : permits_ok db → owns db t →
  let observed := observe (tk_receipt t) outcome in
  finish db mode (validated (tk_validator t) observed) admission (is_some (ds_output observed)) first second utc = Ok (db', u) →
  permits_ok db' ∧ kept db db'.
Proof.
  intros Hok Ho observed Hf. destruct (observed_receipt t outcome) as (Hd & Hr & _). cbv zeta in Hd, Hr. fold observed in Hd, Hr.
  assert (∀ p, p ∈ eg_permits db → pm_attempt_digest p = dr_attempt_digest (tk_receipt t) →
    reference_of p = Some (dr_reference (tk_receipt t))) as Href by (intros p; by apply owned_reference).
  split.
  - eapply finish_permit_ok; [done| |done]. rewrite Hd, Hr. intros p Hp Hdp _. by apply Href.
  - apply finish_spec in Hf as (time & l & p & _ & _ & _ & Heq & _). apply (f_equal eg_permits) in Heq.
    eapply kept_trans; [|eapply (kept_update (with_permits _ db)); [exact Heq|done]].
    eapply kept_update; [reflexivity|]. rewrite Hd. intros q Hq [Hdq _]%finishes_spec _. split; [done|].
    unfold reference_of at 1. simpl. by rewrite Hr, (Href q).
Qed.

Lemma complete_dispatch_ok s i t gate admission outcome first second utc db' phase : process_ok s →
  pr_tasks s !! i = Some t → tk_phase t = Finishing gate admission outcome →
  complete (pr_db s) t admission outcome first second utc = (db', phase) →
  process_ok (mkProcess db' (set_phase i t phase (pr_tasks s))) ∧ kept (pr_db s) db'.
Proof.
  intros Hok Ht Hph. unfold complete.
  destruct (finish _ _ _ _ _ _ _ _) as [[db1 u]| |] eqn:Hf; intros [= <- <-];
    [|by split; [apply quiet_phase_ok|apply kept_refl]..].
  destruct (finish_kept _ _ _ _ _ _ _ _ _ _ (po_db s Hok) (po_owns s Hok i t Ht) Hf) as [Hok1 Hk1]. split; [|done].
  apply phase_ok; [done|done|done|done|done|done|].
  intros j u' b Hj Hu Hb. destruct (po_budget s Hok j u' b Hu Hb) as [Hh [last Hl]].
  apply finish_spec in Hf as (time & l & p & _ & _ & _ & _ & Hbud). exists last. rewrite <-Hl.
  destruct admission as [b'|]; [|by rewrite Hbud]. eapply settle_other; [done|]. intros Hkey. apply Hj.
  eapply (po_gate s Hok); [done|done|done|]. rewrite Hkey. apply (po_budget s Hok i); [done|].
  unfold admission_of. by rewrite Hph.
Qed.

(** ** Every event *)

Context `{!Chrono, !ExpiryOrder} (routes : gmap (string * string) RouteConfig) (key : string).
Context (policy : option string → string → result ModelError (bool * option DateTime)) (retention : Z).

(** Arguments in the range of their Rust types. *)
Definition event_ok (e : ProcessEvent) : Prop :=
  match e with
  | EvJobClaim _ reservation limit _ _ _ _ _ => reservation_ok reservation ∧ 0 ≤ limit ≤ u32_max
  | EvLedger call _ _ => call_ok call
  | _ => True
  end.

Lemma operation_spec db op validator clock token utc db' answer : permits_ok db →
  operation routes key db op validator clock token utc = Ok (db', answer) →
  match answer with inl _ => advances db db' | inr t => spawned db db' t end.
Proof.
  intros Hok. destruct op; simpl; walk; intros [= <- <-].
  - revert E. unfold issue_permit. walk. destruct a1 as [grant|]; [|walk; by apply issue_advances].
    intros [= <- _]. split; [done|apply kept_refl|done].
  - split; [done|apply kept_refl|done].
  - by eapply inject_spawns.
  - revert E. unfold publish_grant. walk. by apply publish_advances.
  - split; [done|apply kept_refl|done].
Qed.

(** An event preserves the invariant and takes no acceptance back. *)
Definition progress (s s' : Process) : Prop := process_ok s' ∧ kept (pr_db s) (pr_db s').

Lemma progress_refl s : process_ok s → progress s s.
Proof. intros Hok. split; [done|apply kept_refl]. Qed.

Lemma progress_trans s1 s2 s3 : progress s1 s2 → progress s2 s3 → progress s1 s3.
Proof. intros [_ Hk12] [Hok Hk23]. split; [done|by eapply kept_trans]. Qed.

Lemma committed_progress {E A : Type} s (c : result E (EgressDb * A)) : process_ok s →
  (∀ db' a, c = Ok (db', a) → advances (pr_db s) db') → progress s (committed s c).
Proof.
  intros Hok Hc. split; [by apply committed_ok|]. destruct c as [[db' a]| |]; simpl; [|apply kept_refl..].
  by eapply adv_kept, Hc.
Qed.

Lemma operation_ok s op validator clock token utc : process_ok s →
  progress s (process_step routes key policy retention s (EvOperation op validator clock token utc)).
Proof.
  intros Hok. simpl. destruct (operation _ _ _ _ _ _ _ _) as [[db' [reply|task]]| |] eqn:Ho; [| |by apply progress_refl..];
    apply operation_spec in Ho as Hs; try apply (po_db s Hok).
  - split; [by apply advances_ok|apply Hs].
  - split; [by apply spawn_ok|apply Hs].
Qed.

Lemma admit_progress s i t request clock db' phase : process_ok s → pr_tasks s !! i = Some t → tk_phase t = Waiting request →
  admit_dispatch s t request clock = Some (db', phase) → progress s (mkProcess db' (set_phase i t phase (pr_tasks s))).
Proof.
  intros Hok Ht Hph Ha. split; [by eapply admit_ok|]. simpl. revert Ha. unfold admit_dispatch. destruct (_ && _); [done|].
  destruct (admit_request_in _ _ _ _ _) as [[db1 adm]|e|] eqn:Hr; intros [= <- <-]; [by eapply admit_kept|apply kept_refl..].
Qed.

Lemma process_step_ok s e : process_ok s → event_ok e → progress s (process_step routes key policy retention s e).
Proof.
  intros Hok He. pose proof (po_db s Hok) as Hdb. pose proof (progress_refl s Hok) as Hrefl.
  destruct e as [| |i|i|i|i|i| | | | | |version tables installed rebuild clock]; [|by apply operation_ok|..]; simpl in *.
  - apply committed_progress; [done|]. intros db' u. by apply purge_advances.
  - destruct (pr_tasks s !! i) as [t|] eqn:Ht; [|done]. destruct (tk_phase t) eqn:Hph; try done.
    split; [|apply kept_refl]. apply quiet_phase_ok; [done|done|..]; by destruct secret.
  - destruct (pr_tasks s !! i) as [t|] eqn:Ht; [|done]. destruct (tk_phase t) eqn:Hph; try done.
    destruct (admit_dispatch _ _ _ _) as [[db' phase]|] eqn:Ha; [|done]. by eapply admit_progress.
  - destruct (pr_tasks s !! i) as [t|] eqn:Ht; [|done]. destruct (tk_phase t) eqn:Hph; try done.
    destruct (executes outcome); [|done]. split; [|apply kept_refl].
    apply quiet_phase_ok; [done|done|..]; unfold holds, admission_of; rewrite Hph; simpl; by destruct held.
  - destruct (pr_tasks s !! i) as [t|] eqn:Ht; [|done]. destruct (tk_phase t) eqn:Hph; try done.
    destruct (complete _ _ _ _ _ _ _) as [db' phase] eqn:Hc. by eapply complete_dispatch_ok.
  - destruct (pr_tasks s !! i) as [t|] eqn:Ht; [|done].
    destruct (tk_phase t) eqn:Hph; try done; (split; [by apply quiet_phase_ok|apply kept_refl]).
  - destruct He as [Hres Hlim]. apply committed_progress; [done|]. intros db' u. by apply job_claim_advances.
  - apply committed_progress; [done|]. intros db' u. by apply job_send_advances.
  - apply committed_progress; [done|]. intros db' u. by apply job_finish_advances.
  - assert (advances (pr_db s) (with_ledger (ledger_exec policy retention (eg_ledger (pr_db s)) time clock call).1 (pr_db s))) as Ha.
    { apply ledger_advances; [done|]. apply ledger_exec_sound; [apply Hdb|done]. }
    split; [by apply advances_ok|apply Ha].
  - split; [|apply kept_refl]. split; simpl; [done|by intros..].
  - pose proof (open_advances (pr_db s) version tables installed rebuild clock Hdb) as [Hok' Hk' _].
    split; [|exact Hk']. split; simpl; [exact Hok'|by intros..].
Qed.

(** ** Histories *)

Definition run_process (s : Process) (events : list ProcessEvent) : Process :=
  foldl (process_step routes key policy retention) s events.

Lemma run_process_ok events s : process_ok s → Forall event_ok events → progress s (run_process s events).
Proof.
  revert s. induction events as [|e events IH]; intros s Hok Hev; [by apply progress_refl|].
  inversion Hev as [|? ? He Hev']. subst. pose proof (process_step_ok s e Hok He) as Hs.
  eapply progress_trans; [exact Hs|]. apply IH; [apply Hs|done].
Qed.

Lemma started_ok : process_ok started.
Proof.
  split; simpl; [|by intros..]. pose proof (λ x : PermitRow, proj1 (elem_of_nil x)) as Hnil.
  split; simpl; [apply empty_ledger_ok| |by intros; exfalso; eapply Hnil..].
  split; simpl; [..|constructor| | |]; by intros; exfalso; eapply Hnil.
Qed.

Lemma reached_process events : Forall event_ok events → process_ok (run_process started events).
Proof. intros Hev. by apply run_process_ok; [apply started_ok|]. Qed.

End Machine.
