(* ===== verification/EgressHistory.v ===== *)
(** What histories of the credential process keep: a finished permit row stays
    as it is until a purge after its deadline, and the allowance a dispatch
    carries is the one its admission found in the table. *)

From Stdlib Require Import ZArith Lia.
From stdpp Require Import base gmap strings list sorting.
From S2P Require Import Prelude Text Core SpendTypes ExecutionPolicy Wire Adapters Trace.
From S2P Require Import SpendLedger SpendInv SpendProofs JobTypes EgressTypes EgressRegistry EgressRoutes EgressProcess EgressInv EgressProofs EgressMachine.

#[local] Open Scope Z_scope.

Section History.
Context {J : JsonValues} `{!Sha256, !JsonWriter, !Hmac, !PermitOrder, !Chrono, !ExpiryOrder}.
Context (routes : gmap (string * string) RouteConfig) (key : string).
Context (policy : option string → string → result ModelError (bool * option DateTime)) (retention : Z).

#[local] Abbreviation step := (process_step routes key policy retention).
#[local] Abbreviation run := (run_process routes key policy retention).

Lemma run_snoc s events e : run s (events ++ [e]) = step (run s events) e.
Proof. unfold run_process. by rewrite foldl_app. Qed.

(** ** Finished rows *)

(** A row that no statement but the purge can touch. *)
Definition settled_row (p : PermitRow) : Prop := pm_consumed p = true ∧ pm_finished p ≠ 0.

Lemma settled_flight p : settled_row p → in_flight p = false.
Proof. intros [_ Hf]. unfold in_flight. rewrite (proj2 (Z.eqb_neq _ _)) by done. by rewrite andb_false_r. Qed.

(** The row is in the tables after the transaction, unchanged. *)
Definition stays (p : PermitRow) (db db' : EgressDb) : Prop := p ∈ eg_permits db → p ∈ eg_permits db'.

Lemma stays_rows p db db' : eg_permits db' = eg_permits db → stays p db db'.
Proof. unfold stays. by intros ->. Qed.

Lemma stays_snoc p db db' new : eg_permits db' = eg_permits db ++ [new] → stays p db db'.
Proof. intros He Hp. rewrite He, elem_of_app. by left. Qed.

Lemma stays_update p db db' c f : eg_permits db' = update_where c f (eg_permits db) →
  (p ∈ eg_permits db → c p = true → f p = p) → stays p db db'.
Proof.
  intros He Hc Hp. rewrite He. apply elem_of_update_where. exists p. split; [done|].
  destruct (c p) eqn:E; [by rewrite Hc|done].
Qed.

Lemma stays_trans p db1 db2 db3 : stays p db1 db2 → stays p db2 db3 → stays p db1 db3.
Proof. unfold stays. auto. Qed.

Lemma stays_flight p db db' c f : settled_row p → eg_permits db' = update_where c f (eg_permits db) →
  (c p = true → in_flight p = true) → stays p db db'.
Proof.
  intros Hs He Hc. eapply stays_update; [exact He|]. intros _ Ht.
  rewrite (settled_flight p Hs) in Hc. by specialize (Hc Ht).
Qed.

Lemma stays_ledger p db l : settled_row p → stays p db (with_ledger l db).
Proof. intros Hs. eapply stays_flight; [done|reflexivity|]. unfold retires. by intros [[Hf _]%andb_true_iff _]%andb_true_iff. Qed.

Lemma consumes_stays p db a permit reference max_attempts clock db' q : settled_row p →
  consumes db a permit reference max_attempts clock db' q → stays p db db'.
Proof.
  intros Hs Hc. eapply stays_update; [apply Hc|]. intros _ (_ & _ & Hu)%usable_spec.
  destruct Hs. congruence.
Qed.

(** The purges that leave the row its answer: it has none, or their clock is
    before its deadline. *)
Definition unpurged (p : PermitRow) (clock : option Z) : Prop :=
  pm_result p = None ∨ ∀ time, clock = Some time → time < pm_recovery_expires_at p.

Lemma purge_stays p db clock db' u : permits_ok db → unpurged p clock → purge_expired_results db clock = Ok (db', u) → stays p db db'.
Proof.
  intros Hok Hu. unfold purge_expired_results. destruct clock as [time|]; rsimpl; [|done]. intros Hp%purge_spec; [|done].
  eapply (stays_update p db db' (in_batch db time) clear_result); [by rewrite Hp|]. intros Hin Hb.
  destruct Hu as [Hn|Ht]; [destruct p; simpl in *; by subst|].
  unfold in_batch in Hb. apply bool_decide_eq_true, list_elem_of_fmap in Hb as ([i q] & Hd & Hq).
  apply batch_elem in Hq as [Hi Hdue]. simpl in Hd.
  rewrite <-(ok_digests db Hok p q) in Hdue by (done || by eapply list_elem_of_lookup_2).
  specialize (Ht time eq_refl). unfold due in Hdue. bools. lia.
Qed.

Lemma open_stays p db version tables installed rebuild clock : permits_ok db → settled_row p → unpurged p clock →
  stays p db (open_registry db version tables installed rebuild clock).1.
Proof.
  intros Hok Hs Hu. unfold open_registry. destruct (negb (version =? _)); [by apply stays_rows|]. destruct (negb (tables =? 4)); [by apply stays_rows|].
  assert (permits_ok (repair db installed rebuild) ∧ stays p db (repair db installed rebuild)) as [Hok1 Hs1].
  { unfold repair. destruct (_ || _); [|split; [done|by apply stays_rows]]. split; [by apply unbind_ok|].
    eapply stays_flight; [done|reflexivity|]. unfold stale. by intros [[Hf _]%andb_true_iff _]%andb_true_iff. }
  destruct (let? time := now clock in purge_expired (repair db installed rebuild) time) as [[db' u]| |] eqn:Hp; simpl; [|done..].
  eapply stays_trans; [exact Hs1|]. by eapply (purge_stays p _ clock).
Qed.

Lemma operation_stays p db op validator clock token utc db' answer : permits_ok db → settled_row p →
  operation routes key db op validator clock token utc = Ok (db', answer) → stays p db db'.
Proof.
  intros Hok Hs. destruct op; simpl; walk; intros [= <- <-]; [| | | |]; try (by apply stays_rows).
  - revert E. unfold issue_permit. walk. destruct a1 as [grant|]; [intros [= <- _]; by apply stays_rows|]. walk. unfold issue. walk.
    destruct a2 as [g|]; [intros [= <- _]; by apply stays_rows|]. intros Hi.
    apply issue_in_ok in Hi as (_ & accepted & -> & _); [|done]. by eapply stays_snoc.
  - revert E. unfold inject. destruct (negb _); [done|]. walk. intros [= <- <-].
    match goal with Ha : accepted_handoff _ _ _ = Ok _, Hc : consume _ _ _ _ _ _ _ = Ok _ |- _ =>
      apply handoff_reference in Ha as Hres; apply consume_spec in Hc as (-> & q & Hcs); [|done|done] end.
    by eapply consumes_stays.
  - revert E. unfold publish_grant. walk. unfold publish_revision. walk. intros [= <- _]. by apply stays_rows.
Qed.

Lemma admit_stays p db d request budget clock db' admission : settled_row p →
  admit_request_in db d request budget clock = Ok (db', admission) → stays p db db'.
Proof.
  intros Hs (_ & _ & Heq & _)%admit_request_spec. eapply stays_flight; [done|by rewrite Heq|].
  by intros (_ & Hf & _)%bindable_spec.
Qed.

Lemma finish_stays p db mode answer budget received first second utc db' u : settled_row p →
  finish db mode answer budget received first second utc = Ok (db', u) → stays p db db'.
Proof.
  intros Hs (time & l & q & _ & _ & _ & Heq & _)%finish_spec. rewrite Heq.
  eapply stays_trans; [|apply (stays_ledger p (with_permits _ db) l Hs)].
  eapply stays_flight; [done|reflexivity|]. by intros [_ Hf]%finishes_spec.
Qed.

Lemma job_claim_stays p db a reservation limit first second third token utc db' u : permits_ok db → settled_row p →
  reservation_ok reservation → 0 ≤ limit ≤ u32_max →
  job_claim_in routes db a reservation limit first second third token utc = Ok (db', u) → stays p db db'.
Proof.
  intros Hok Hs Hres Hlim. unfold job_claim_in.
  destruct (reserve_with_limit_in _ _ _ _ _) as [[l accepted]| |] eqn:Hl; simpl; [|done..]. destruct accepted; [|done].
  destruct (reserved_state _ _ _ _ _ _ (ok_ledger db Hok) Hl) as [Hf Hst].
  rewrite with_ledger_quiet by (by eapply quiet_decided). fold (set_ledger l db). unfold job_accept. walk.
  destruct (accept_job_in _ _ _ _ _ _ _ _) as [[db1 u1]| |] eqn:Ha; simpl; [|done..]. intros [= <- _].
  assert (permits_ok (set_ledger l db)) as Hok1.
  { apply set_ledger_ok; [done|]. eapply reserve_sound; [apply Hok|done| |done]. by intros ? [= <-]. }
  apply accept_job_spec in Ha as (db2 & permit & q & _ & Hc & Hdb); [|done| |].
  - eapply stays_trans; [|by eapply consumes_stays]. destruct Hdb as [->|[n ->]]; [by apply stays_rows|by eapply stays_snoc].
  - simpl. intros x Hx Hr. destruct (ok_reserved db Hok x _ Hx Hr). congruence.
  - simpl. by rewrite Hst, bool_decide_eq_true_2.
Qed.

Lemma committed_stays {E A : Type} p s (c : result E (EgressDb * A)) :
  (∀ db' a, c = Ok (db', a) → stays p (pr_db s) db') → stays p (pr_db s) (pr_db (committed s c)).
Proof. intros Hc. destruct c as [[db' a]| |]; simpl; [by eapply Hc|by apply stays_rows..]. Qed.

(** The clock reading of a purge, on its own or when the process starts. *)
Definition purge_clock (e : ProcessEvent) : option Z :=
  match e with EvPurge clock => clock | EvOpen _ _ _ _ clock => clock | _ => None end.

(** A finished row outlives every event but a purge after its deadline. *)
Lemma settled_stays p s e : process_ok s → event_ok e → settled_row p → unpurged p (purge_clock e) →
  stays p (pr_db s) (pr_db (step s e)).
Proof.
  intros Hok He Hs Hu. pose proof (po_db s Hok) as Hdb.
  assert (∀ (q : Process), pr_db q = pr_db s → stays p (pr_db s) (pr_db q)) as Hsame by (intros q ->; by apply stays_rows).
  destruct e as [clock|op validator clock token utc|i secret|i clock|i outcome|i first second utc|i|a reservation limit f1 f2 f3 token utc
    |a fp|receipt|call time clock| |version tables installed rebuild clock]; simpl in *; try (by apply Hsame).
  - apply committed_stays. intros db' u. by apply purge_stays.
  - destruct (operation _ _ _ _ _ _ _ _) as [[db' [reply|task]]| |] eqn:Ho; [by eapply operation_stays..|by apply Hsame|by apply Hsame].
  - destruct (pr_tasks s !! i) as [t|]; [|by apply Hsame]. destruct (tk_phase t); by apply Hsame.
  - destruct (pr_tasks s !! i) as [t|]; [|by apply Hsame]. destruct (tk_phase t); try (by apply Hsame).
    unfold admit_dispatch. destruct (_ && _); [by apply Hsame|].
    destruct (admit_request_in _ _ _ _ _) as [[db1 adm]|e|] eqn:Hr; [by eapply admit_stays|by apply Hsame..].
  - destruct (pr_tasks s !! i) as [t|]; [|by apply Hsame]. destruct (tk_phase t); try (by apply Hsame).
    destruct (executes outcome); by apply Hsame.
  - destruct (pr_tasks s !! i) as [t|]; [|by apply Hsame]. destruct (tk_phase t); try (by apply Hsame).
    unfold complete. destruct (finish _ _ _ _ _ _ _ _) as [[db1 u]| |] eqn:Hf; [by eapply finish_stays|by apply Hsame..].
  - destruct (pr_tasks s !! i) as [t|]; [|by apply Hsame]. destruct (tk_phase t); by apply Hsame.
  - destruct He. apply committed_stays. intros db' u. by apply job_claim_stays.
  - apply committed_stays. intros db' u. unfold job_before_send. walk.
    destruct (admit_request_in _ _ _ _ _) as [[db1 adm]| |] eqn:Ha; simpl; [|done..]. intros [= <- _]. by eapply admit_stays.
  - apply committed_stays. intros db' u. unfold job_finish. walk. intros [= <- _].
    eapply stays_flight; [done|reflexivity|]. unfold completes. by intros [[_ Hf]%andb_true_iff _]%andb_true_iff.
  - by apply stays_ledger.
  - by apply open_stays.
Qed.

Lemma settled_history p s later : process_ok s → Forall event_ok later → settled_row p →
  Forall (λ e, unpurged p (purge_clock e)) later → stays p (pr_db s) (pr_db (run s later)).
Proof.
  intros Hok Hev Hs Hu. revert s Hok. induction later as [|e later IH]; intros s Hok; [by apply stays_rows|].
  apply Forall_cons in Hev as [He Hev], Hu as [Hue Hu]. eapply stays_trans; [by apply (settled_stays p s e)|].
  apply IH; [done|done|]. by apply process_step_ok.
Qed.

(** Whatever the clocks of the purges, the row stays up to its answer. *)
Definition stands (p : PermitRow) (db : EgressDb) : Prop := p ∈ eg_permits db ∨ clear_result p ∈ eg_permits db.

Lemma purge_stands p db clock db' u : permits_ok db → purge_expired_results db clock = Ok (db', u) → p ∈ eg_permits db → stands p db'.
Proof.
  intros Hok. unfold purge_expired_results. walk. intros Hp%purge_spec Hin; [|done]. rewrite Hp. unfold stands. simpl.
  destruct (in_batch db a p) eqn:E1; [right|left]; apply elem_of_update_where; exists p; by rewrite E1.
Qed.

Lemma settled_cleared p : settled_row p → settled_row (clear_result p).
Proof. done. Qed.

Lemma settled_stands_step p s e : process_ok s → event_ok e → settled_row p → stands p (pr_db s) → stands p (pr_db (step s e)).
Proof.
  intros Hok He Hs [Hp|Hp]; [|right; by apply (settled_stays (clear_result p) s e Hok He (settled_cleared p Hs)); [left|]].
  assert (purge_clock e = None → stands p (pr_db (step s e))) as Hother.
  { intros Hn. left. apply (settled_stays p s e Hok He Hs); [|done]. right. by rewrite Hn. }
  destruct e as [clock| | | | | | | | | | | |version tables installed rebuild clock]; try (by apply Hother).
  - simpl. unfold committed. destruct (purge_expired_results _ _) as [[db' u]| |] eqn:E; [|by left..].
    by eapply purge_stands; [apply Hok|..].
  - simpl. unfold open_registry. destruct (negb (version =? _)); [by left|]. destruct (negb (tables =? 4)); [by left|].
    set (db1 := repair (pr_db s) installed rebuild).
    assert (permits_ok db1 ∧ p ∈ eg_permits db1) as [Hok1 Hp1].
    { unfold db1, repair. pose proof (po_db s Hok) as Hdb. destruct (_ || _); [|done]. split; [by apply unbind_ok|]. revert Hp.
      eapply stays_flight; [done|reflexivity|]. unfold stale. by intros [[Hf _]%andb_true_iff _]%andb_true_iff. }
    destruct (let? time := now clock in purge_expired db1 time) as [[db' u]| |] eqn:E; simpl; [|by left..].
    by apply (purge_stands p db1 clock db' u).
Qed.

Lemma settled_stands p s later : process_ok s → Forall event_ok later → settled_row p →
  stands p (pr_db s) → stands p (pr_db (run s later)).
Proof.
  intros Hok Hev Hs. revert s Hok. induction later as [|e later IH]; intros s Hok; [done|].
  apply Forall_cons in Hev as [He Hev]. intros Hp. apply IH; [done|by apply process_step_ok|]. by apply settled_stands_step.
Qed.

(** ** The origin of an allowance *)

(** A cohort of failures whose renewal period is over. *)
Definition lapsed (budget : RequestBudget) (time last_failure : Z) : Prop :=
  ∃ seconds, rb_renewal_seconds budget = Some seconds
    ∧ (seconds = 0 ∨ last_failure ≤ time ∧ seconds ≤ time - last_failure).

Lemma renewed_spec budget time last : renewed budget time last = true ↔ lapsed budget time last.
Proof.
  unfold renewed, lapsed. destruct (rb_renewal_seconds budget) as [seconds|]; [|naive_solver].
  rewrite orb_true_iff, andb_true_iff, Z.eqb_eq, !Z.leb_le. naive_solver.
Qed.

(** What the admission of a request finds in the table: its failures and their
    time, or nothing where there is no row or the cohort has lapsed. *)
Definition finds (failures : gmap string (Z * Z)) (request : string) (budget : RequestBudget) (time : Z)
    (found : option (Z * Z)) : Prop :=
  match failures !! request with
  | Some (n, last) => lapsed budget time last ∧ found = None ∨ ¬ lapsed budget time last ∧ found = Some (n, last)
  | None => found = None
  end.

Lemma admission_finds db d request budget clock db' b :
  admit_request_in db d request budget clock = Ok (db', Some b) →
  ∃ policy_ time, budget = Some policy_ ∧ clock = Some time ∧ ba_key b = request
    ∧ finds (eg_failures db) request policy_ time (ba_previous b).
Proof.
  unfold admit_request_in. destruct (head _); [done|]. destruct (negb _); [done|].
  destruct budget as [policy_|]; [|done]. destruct (admit_request_budget_in _ _ _ _) as [[db1 b1]| |] eqn:Hb; rsimpl; [|done..].
  intros [= _ ->]. exists policy_. revert Hb. unfold admit_request_budget_in.
  destruct clock as [time|]; rsimpl; [|done]. walk. injection E as <-. intros [= _ <-]. exists time.
  split_and!; [done..|]. unfold finds. simpl. destruct (eg_failures db !! request) as [[n last]|]; [|done].
  destruct (renewed policy_ time last) eqn:Er; [left|right]; [by apply renewed_spec in Er|].
  split; [|done]. rewrite <-renewed_spec. congruence.
Qed.

(** Events that keep the dispatches of the process. *)
Definition ongoing (e : ProcessEvent) : bool := match e with EvCrash | EvOpen _ _ _ _ _ => false | _ => true end.

Lemma lookup_set_phase i t phase tasks j u : set_phase i t phase tasks !! j = Some u →
  j = i ∧ u = with_phase phase t ∨ j ≠ i ∧ tasks !! j = Some u.
Proof.
  unfold set_phase. destruct (decide (j = i)) as [->|Hne].
  - destruct (decide (i < length tasks)%nat).
    + rewrite list_lookup_insert_eq by done. intros [= <-]. by left.
    + rewrite list_insert_ge by lia. intros Hu%lookup_lt_Some. lia.
  - rewrite list_lookup_insert_ne by done. by right.
Qed.

(** The admission a dispatch carries after an event: the one it had, or the one
    this event gave it. *)
Record given (s : Process) (e : ProcessEvent) (i : nat) (t : Task) (b : RequestBudgetAdmission) : Prop := {
  gv_event : ∃ clock policy_ time t0, e = EvAdmit i clock ∧ clock = Some time ∧ pr_tasks s !! i = Some t0
    ∧ tk_receipt t0 = tk_receipt t ∧ tk_phase t0 = Waiting (ba_key b) ∧ rt_request_budget (tk_route t0) = Some policy_
    ∧ finds (eg_failures (pr_db s)) (ba_key b) policy_ time (ba_previous b);
}.

Lemma admission_step s e i t b : process_ok s → pr_tasks (step s e) !! i = Some t → admission_of t = Some b →
  (ongoing e = true ∧ ∃ t', pr_tasks s !! i = Some t' ∧ tk_receipt t' = tk_receipt t ∧ admission_of t' = Some b)
  ∨ given s e i t b.
Proof.
  intros Hok Ht Hb.
  assert (ongoing e = true → pr_tasks s !! i = Some t → (ongoing e = true ∧ ∃ t', pr_tasks s !! i = Some t'
    ∧ tk_receipt t' = tk_receipt t ∧ admission_of t' = Some b) ∨ given s e i t b) as Hsame by (left; eauto).
  assert (∀ E A (c : result E (EgressDb * A)), pr_tasks (committed s c) = pr_tasks s) as Hcom by (intros E A [[? ?]| |]; done).
  destruct e as [clock|op validator clock token utc|j secret|j clock|j outcome|j first second utc|j|a reservation limit f1 f2 f3 token utc
    |a fp|receipt|call time clock| |version tables installed rebuild clock]; simpl in Ht; rewrite ?Hcom in Ht; try (by apply Hsame);
    try (by rewrite lookup_nil in Ht).
  - destruct (operation _ _ _ _ _ _ _ _) as [[db' [reply|task]]| |] eqn:Ho; [by apply Hsame| |by apply Hsame..].
    apply operation_spec in Ho as [_ Hph _ _]; [|apply Hok]. simpl in Ht. apply lookup_app_Some in Ht as [Ht|[_ Ht]]; [by apply Hsame|].
    apply list_elem_of_lookup_2, list_elem_of_singleton in Ht as ->. unfold admission_of in Hb. by rewrite Hph in Hb.
  - destruct (pr_tasks s !! j) as [u|]; [|by apply Hsame]. destruct (tk_phase u); try (by apply Hsame).
    apply lookup_set_phase in Ht as [[-> ->]|[_ Ht]]; [|by apply Hsame]. by destruct secret.
  - destruct (pr_tasks s !! j) as [u|] eqn:Hu; [|by apply Hsame]. destruct (tk_phase u) eqn:Hph; try (by apply Hsame).
    destruct (admit_dispatch s u key0 clock) as [[db' phase]|] eqn:Ha; [|by apply Hsame].
    apply lookup_set_phase in Ht as [[-> ->]|[_ Ht]]; [|by apply Hsame]. right. revert Ha. unfold admit_dispatch.
    destruct (_ && _); [done|]. destruct (admit_request_in _ _ _ _ _) as [[db1 adm]|e|] eqn:Hr; intros [= <- <-]; [|done..].
    unfold admission_of in Hb. simpl in Hb. subst adm. apply admission_finds in Hr as (policy_ & time & Hp & -> & <- & Hf).
    split. by exists (Some time), policy_, time, u.
  - destruct (pr_tasks s !! j) as [u|] eqn:Hu; [|by apply Hsame]. destruct (tk_phase u) eqn:Hph; try (by apply Hsame).
    destruct (executes outcome); [|by apply Hsame]. apply lookup_set_phase in Ht as [[-> ->]|[_ Ht]]; [|by apply Hsame].
    left. split; [done|]. exists u. split_and!; [done..|]. unfold admission_of in *. by rewrite Hph.
  - destruct (pr_tasks s !! j) as [u|] eqn:Hu; [|by apply Hsame]. destruct (tk_phase u) eqn:Hph; try (by apply Hsame).
    unfold complete in Ht. destruct (finish _ _ _ _ _ _ _ _) as [[db1 x]| |];
      (apply lookup_set_phase in Ht as [[-> ->]|[_ Ht]]; [done|by apply Hsame]).
  - destruct (pr_tasks s !! j) as [u|] eqn:Hu; [|by apply Hsame].
    destruct (tk_phase u); try (by apply Hsame); (apply lookup_set_phase in Ht as [[-> ->]|[_ Ht]]; [done|by apply Hsame]).
Qed.

(** Every allowance that is carried was given by an event of the history, to
    the same dispatch, out of the table of that moment. *)
Lemma admission_origin events i t b : Forall event_ok events →
  pr_tasks (run started events) !! i = Some t → admission_of t = Some b →
  ∃ before e after, events = before ++ e :: after ∧ Forall (λ e, ongoing e = true) after
    ∧ given (run started before) e i t b.
Proof.
  revert i t b. induction events as [|e events IH] using rev_ind; intros i t b Hev Ht Hb; [by destruct i|].
  apply Forall_app in Hev as [Hev He]. rewrite run_snoc in Ht.
  pose proof (reached_process routes key policy retention events Hev) as Hok.
  destruct (admission_step _ e i t b Hok Ht Hb) as [(Ho & t' & Ht' & Hr & Hb')|Hg].
  - destruct (IH i t' b Hev Ht' Hb') as (before & e' & after & -> & Hafter & [(clock & policy_ & time & t0 & Hx & Hc & Ht0 & Hr0 & Hrest)]).
    exists before, e', (after ++ [e]). rewrite <-app_assoc. split; [done|]. split; [apply Forall_app; by repeat constructor|].
    split. exists clock, policy_, time, t0. by rewrite Hr0, Hr.
  - exists events, e, []. split_and!; [done|constructor|done].
Qed.

End History.
