(* ===== verification/EgressTheorems.v ===== *)
(** What the credential process promises, in every interleaving of its
    requests, dispatches and jobs, and across crashes: an invocation is charged
    once and handed over a bounded number of times, an accepted attempt is never
    accepted again, an open charge has no successor, a request has one open
    send, a send that was free leaves the allowance its admission found, and a
    recorded completion is what the queries of any later history read. *)

From Stdlib Require Import ZArith Lia Ascii.
From stdpp Require Import base gmap strings list sorting.
From S2P Require Import Prelude Text Core SpendTypes Json Trace ExecutionPolicy Responses Wire Adapters.
From S2P Require Import SpendLedger SpendInv SpendProofs JobTypes EgressTypes EgressRegistry EgressRoutes EgressProcess EgressInv EgressProofs EgressMachine EgressHistory.

#[local] Open Scope Z_scope.

Section Theorems.
Context {J : JsonValues} `{!Sha256, !JsonWriter, !Hmac, !PermitOrder, !Chrono, !ExpiryOrder}.
Context (routes : gmap (string * string) RouteConfig) (key : string).
Context (policy : option string → string → result ModelError (bool * option DateTime)) (retention : Z).

#[local] Abbreviation run := (run_process routes key policy retention).

(** ** Charges *)

(** C8: In every reachable state, of two accepted attempts of one invocation at
    least one was released free of charge. *)
Theorem invocation_charged_once events p q rp rq : Forall event_ok events →
  let db := pr_db (run started events) in
  p ∈ eg_permits db → q ∈ eg_permits db → pm_invocation_key p = pm_invocation_key q → p ≠ q →
  reference_of p = Some rp → reference_of q = Some rq →
  ledger_state (eg_ledger db) rp = Some SpendReleased ∨ ledger_state (eg_ledger db) rq = Some SpendReleased.
Proof.
  intros Hev db Hp Hq Hk Hne Hrp Hrq. pose proof (po_db _ (reached_process routes key policy retention events Hev)) as Hok.
  destruct (Z.lt_trichotomy (pm_ordinal p) (pm_ordinal q)) as [Hlt|[Heq|Hlt]].
  - left. by apply (ok_free _ Hok p q).
  - destruct Hne. by apply (ok_ordinals _ Hok).
  - right. by apply (ok_free _ Hok q p).
Qed.

(** The accepted attempts of an invocation. *)
Definition handoffs (db : EgressDb) (invocation : string) : Z :=
  count_where (λ q, of_invocation invocation q && pm_consumed q) (eg_permits db).

Lemma handoffs_latest db p : (∀ q, q ∈ eg_permits db → pm_invocation_key q = pm_invocation_key p → pm_ordinal q ≤ pm_ordinal p) →
  handoffs db (pm_invocation_key p) = count_where (counted p) (eg_permits db).
Proof.
  intros Hall. apply count_where_ext. intros q Hq. unfold counted. destruct (of_invocation _ q) eqn:E; [|done]. simpl.
  apply of_invocation_spec in E. rewrite (proj2 (Z.leb_le _ _)) by (by apply Hall). by rewrite andb_true_r.
Qed.

Lemma consumes_handoffs db a permit reference max_attempts clock db' p : permits_ok db →
  consumes db a permit reference max_attempts clock db' p →
  handoffs db' (pm_invocation_key p) = handoffs db (pm_invocation_key p) + 1
  ∧ handoffs db' (pm_invocation_key p) ≤ max_attempts.
Proof.
  intros Hok Hc. pose proof (consumes_ok _ _ _ _ _ _ _ _ Hok Hc) as Hok'.
  destruct (cs_checked _ _ _ _ _ _ _ _ Hc) as [Hp Hu Hd _ Hlast Hmax _]. pose proof (cs_rows _ _ _ _ _ _ _ _ Hc) as Hrows.
  set (p' := set_consumed (stored_receipt (accepted_receipt a reference)) p).
  assert (p' ∈ eg_permits db') as Hp'.
  { rewrite Hrows. apply elem_of_update_where. exists p. by rewrite Hu. }
  assert (handoffs db' (pm_invocation_key p) = pm_accepted_attempts p') as ->.
  { rewrite (ok_accepted db' Hok' p' Hp'). change (pm_invocation_key p) with (pm_invocation_key p').
    apply handoffs_latest. rewrite Hrows. intros q (x & Hx & ->)%elem_of_update_where.
    destruct (usable permit x); intros Hkx; by apply (Hlast x). }
  rewrite handoffs_latest, <-(ok_accepted db Hok p Hp) by done. simpl. split; [done|]. lia.
Qed.

(** C9: Each handoff that the process accepts is one more of its invocation, and
    not above the attempts its route allows. *)
Theorem handoffs_bounded events request validator clock second utc db' t : Forall event_ok events →
  let db := pr_db (run started events) in
  inject routes key db request validator clock second utc = Ok (db', t) →
  ∃ p, p ∈ eg_permits db' ∧ pm_attempt_digest p = attempt_digest (signed_value (ij_admission request))
    ∧ handoffs db' (pm_invocation_key p) = handoffs db (pm_invocation_key p) + 1
    ∧ handoffs db' (pm_invocation_key p) ≤ rt_max_attempts (tk_route t).
Proof.
  intros Hev db. pose proof (po_db _ (reached_process routes key policy retention events Hev)) as Hok. fold db in Hok.
  unfold inject. destruct (negb _); [done|]. walk. intros [= <- <-].
  match goal with Ha : accepted_handoff _ _ _ = Ok _, Hc : consume _ _ _ _ _ _ _ = Ok _ |- _ =>
    apply handoff_reference in Ha as Hres; apply consume_spec in Hc as (-> & p & Hcs); [|done|done] end.
  destruct (consumes_handoffs _ _ _ _ _ _ _ _ Hok Hcs) as [Hn Hm].
  destruct (cs_checked _ _ _ _ _ _ _ _ Hcs) as [Hp Hu Hd _ _ _ _].
  eexists. split; [rewrite (cs_rows _ _ _ _ _ _ _ _ Hcs); apply elem_of_update_where; by exists p|].
  rewrite Hu. simpl. apply usable_spec in Hu as (-> & _). by rewrite Hd.
Qed.

(** ** Replay *)

Lemma accepted_refused db a reference p permit reference' max_attempts clock : permits_ok db →
  p ∈ eg_permits db → pm_attempt_digest p = attempt_digest a → reference_of p = Some reference →
  accept_in db a permit reference' max_attempts clock = Err EgPermitRefused.
Proof.
  intros Hok Hp Hd Hr. unfold accept_in. case_bool_decide as Hpd; [|done]. simpl.
  rewrite select_where_none; [done|]. intros q Hq. apply not_true_iff_false. intros (Hqd & _ & Hqc)%usable_spec.
  rewrite (ok_digests db Hok q p) in Hqc by (done || congruence).
  by rewrite (reference_consumed p reference) in Hqc by (done || by apply (ok_permit db)).
Qed.

Lemma job_refused db a reference p reference' max_attempts first second third token db' u : permits_ok db →
  p ∈ eg_permits db → pm_attempt_digest p = attempt_digest a → reference_of p = Some reference →
  accept_job_in db a reference' max_attempts first second third token ≠ Ok (db', u).
Proof.
  intros Hok Hp Hd Hr. unfold accept_job_in. destruct (permit_at db _ _) as [q|]; rsimpl.
  - by rewrite (accepted_refused db a reference p).
  - destruct (issue_in _ _ _ _ _ _) as [[db1 grant]| |] eqn:Hi; rsimpl; [|done..].
    apply issue_in_ok in Hi as (Hok1 & accepted & -> & _); [|done].
    by rewrite (accepted_refused _ a reference p) by (done || (simpl; apply elem_of_app; by left)).
Qed.

(** C7: Once the process has accepted an attempt, no later history, crashes
    included, lets it or a signed job accept that attempt again. *)
Theorem accepted_once events op validator clock token utc later db' t a : Forall event_ok events → Forall event_ok later →
  let s := run started events in
  operation routes key (pr_db s) op validator clock token utc = Ok (db', inr t) →
  attempt_digest a = dr_attempt_digest (tk_receipt t) →
  let db := pr_db (run s (EvOperation op validator clock token utc :: later)) in
  (∀ permit handoff max_attempts time utc', consume db a permit handoff max_attempts time utc' = Err EgPermitRefused)
  ∧ (∀ reference max_attempts first second third token' db'' u,
       accept_job_in db a reference max_attempts first second third token' ≠ Ok (db'', u)).
Proof.
  intros Hev Hlater s Hop Hd db. pose proof (reached_process routes key policy retention events Hev) as Hok. fold s in Hok.
  pose proof (operation_spec _ _ _ _ _ _ _ _ _ _ (po_db s Hok) Hop) as [_ _ _ (p & Hp & Hpd & Hpr)].
  assert (run s (EvOperation op validator clock token utc :: later) = run (mkProcess db' (pr_tasks s ++ [t])) later) as Hrun.
  { unfold run_process. simpl. by rewrite Hop. }
  assert (progress (mkProcess db' (pr_tasks s ++ [t])) (run (mkProcess db' (pr_tasks s ++ [t])) later)) as [Hok' Hk].
  { apply run_process_ok; [|done]. apply spawn_ok; [done|]. by apply (operation_spec _ _ _ _ _ _ _ _ _ _ (po_db s Hok) Hop). }
  rewrite <-Hrun in Hok', Hk. destruct (Hk p _ Hp Hpr) as (p' & Hp' & Hi & Hr'). fold db in Hp'. apply po_db in Hok'. fold db in Hok'.
  apply identity_fields in Hi as [Hdi _].
  assert (pm_attempt_digest p' = attempt_digest a) as Hda by congruence. split; intros.
  - unfold consume. by erewrite accepted_refused.
  - by eapply job_refused.
Qed.

(** ** Open charges *)

(** C10: An invocation with an attempt that was accepted and not released gets no
    further permit. *)
Theorem open_charge_blocks events p reference a max_attempts first second token db' grant : Forall event_ok events →
  let db := pr_db (run started events) in
  p ∈ eg_permits db → pm_invocation_key p = invocation_key (attempt_id a) → reference_of p = Some reference →
  ledger_state (eg_ledger db) reference ≠ Some SpendReleased →
  issue_in db a max_attempts first second token ≠ Ok (db', grant).
Proof.
  intros Hev db Hp Hk Hr Hs. pose proof (po_db _ (reached_process routes key policy retention events Hev)) as Hok. fold db in Hok.
  intros Hi. revert Hi. unfold issue_in. walk. intros _. pose proof (latest_spec db (invocation_key (attempt_id a))) as Hl.
  destruct (latest_permit db _) as [q|]; [|by apply (Hl p)]. destruct Hl as (Hq & Hkq & Hall).
  match goal with Hsu : successor_of _ _ _ _ = Ok _ |- _ => apply successor_ok in Hsu as (_ & _ & _ & _ & Hfree) end.
  destruct (Z.lt_ge_cases (pm_ordinal p) (pm_ordinal q)) as [Hlt|Hge].
  - apply Hs. apply (ok_free db Hok p q); [done|done|congruence|done|done].
  - specialize (Hall p Hp Hk). assert (p = q) as <- by (apply (ok_ordinals db Hok); [done|done|congruence|lia]).
    destruct (Hfree (reference_consumed p reference (ok_permit db Hok p Hp) Hr)) as (st & Hst & _ & Hrel).
    unfold reference_of in Hr. rewrite Hst in Hr. injection Hr as <-. done.
Qed.

(** C11: A request has at most one send under way whose charge is open, whoever
    admitted it. *)
Theorem one_open_send events request p q : Forall event_ok events →
  let db := pr_db (run started events) in
  p ∈ eg_permits db → q ∈ eg_permits db →
  unresolved db request p = true → unresolved db request q = true → p = q.
Proof.
  intros Hev db. apply (ok_request db (po_db _ (reached_process routes key policy retention events Hev))).
Qed.

(** ** Allowances *)

Lemma sql_u64_ok n m : sql_u64 n = Ok m → m = n.
Proof. unfold sql_u64, i64_try_from. destruct (n <=? i64_max); [by intros [= <-]|done]. Qed.

(** What a completion does to the allowance its send counts in. *)
Lemma settle_exact failures b answered state clock failures' : allowance_ok failures b →
  settle_budget failures b answered state clock = Ok failures' →
  if answered then failures' !! ba_key b = None
  else if bool_decide (state = SpendReleased) then failures' !! ba_key b = ba_previous b
  else ∃ last, failures' !! ba_key b = Some (failures_before b + 1, last).
Proof.
  intros [last Hl]. unfold settle_budget. destruct answered; [intros [= <-]; apply lookup_delete_eq|].
  case_bool_decide as Hs.
  - destruct (ba_previous b) as [[count time]|]; [|intros [= <-]; apply lookup_delete_eq].
    destruct (sql_u64 time) as [m| |] eqn:Hm; rsimpl; [|done..]. apply sql_u64_ok in Hm as ->. intros [= <-].
    by rewrite lookup_alter_eq, Hl.
  - walk. intros [= <-]. rewrite lookup_alter_eq, Hl. simpl. by eexists.
Qed.

(** C12: A recorded completion of a dispatch with a request budget settles the
    request's allowance against what its admission found.  The history has the
    event that admitted the dispatch, with no restart since; at that moment the
    table had the request's failures and their time, or nothing that still
    counted: no row, or a cohort whose renewal period was over.  The completion
    clears the request's row when it brought an answer, leaves exactly what was
    found when the send was free (no row where nothing counted), and leaves one
    failure more than was found otherwise, whatever ran in between. *)
Theorem allowance_settled events i t gate b outcome first second utc db' answer : Forall event_ok events →
  let s := run started events in
  pr_tasks s !! i = Some t → tk_phase t = Finishing gate (Some b) outcome →
  complete (pr_db s) t (Some b) outcome first second utc = (db', Replied answer) → ds_receipt_persisted answer = true →
  ∃ before time after t0 request budget found,
    events = before ++ EvAdmit i (Some time) :: after ∧ Forall (λ e, ongoing e = true) after
    ∧ pr_tasks (run started before) !! i = Some t0 ∧ tk_receipt t0 = tk_receipt t ∧ tk_phase t0 = Waiting request
    ∧ rt_request_budget (tk_route t0) = Some budget
    ∧ finds (eg_failures (pr_db (run started before))) request budget time found
    ∧ if is_some (ds_output answer) then eg_failures db' !! request = None
      else if bool_decide (dr_spend_state (ds_receipt answer) = SpendReleased) then eg_failures db' !! request = found
      else ∃ last, eg_failures db' !! request = Some (match found with Some (n, _) => n | None => 0 end + 1, last).
Proof.
  intros Hev s Ht Hph Hc Hp. pose proof (reached_process routes key policy retention events Hev) as Hok. fold s in Hok.
  assert (admission_of t = Some b) as Ha by (unfold admission_of; by rewrite Hph).
  destruct (po_budget s Hok i t b Ht Ha) as [_ Hal].
  destruct (admission_origin routes key policy retention events i t b Hev Ht Ha)
    as (before & e & after & Hsplit & Hafter & [(clock & budget & time & t0 & -> & -> & Ht0 & Hr0 & Hw & Hb & Hf)]).
  exists before, time, after, t0, (ba_key b), budget, (ba_previous b). do 7 (split; [done|]).
  revert Hc. unfold complete. destruct (finish _ _ _ _ _ _ _ _) as [[db1 u]| |] eqn:Hfin; intros [= <- <-]; [|done..].
  apply finish_spec in Hfin as (time' & l & p & _ & _ & _ & _ & Hbud). by apply settle_exact in Hbud.
Qed.

(** ** Queries *)

(** What the row of an attempt is after an update that keeps identities. *)
Lemma permit_at_update db db' c f k ordinal : eg_permits db' = update_where c f (eg_permits db) →
  (∀ p, identity (f p) = identity p) →
  permit_at db' k ordinal = updated c f <$> permit_at db k ordinal.
Proof.
  intros He Hf. unfold permit_at. rewrite He, select_update, head_update; [done|].
  intros p. unfold of_invocation. by destruct (identity_fields _ _ (Hf p)) as (_ & -> & _ & _ & _ & -> & _).
Qed.

Lemma existsb_update {A : Type} (q c : A → bool) f l : (∀ x, q (f x) = q x) → existsb q (update_where c f l) = existsb q l.
Proof.
  intros Hq. induction l as [|x l IH]; [done|]. unfold update_where in *. rewrite fmap_cons. cbn [existsb]. rewrite IH.
  destruct (c x); [by rewrite Hq|done].
Qed.

Lemma permit_at_elem db k ordinal p : permit_at db k ordinal = Some p → p ∈ eg_permits db ∧ pm_invocation_key p = k ∧ pm_ordinal p = ordinal.
Proof.
  unfold permit_at. intros Hh%head_Some_elem_of. apply elem_of_select_where in Hh as [Hp [Hk Ho]%andb_true_iff].
  split_and!; [done|by apply of_invocation_spec|by apply Z.eqb_eq].
Qed.

(** The row of a recorded completion. *)
Lemma finished_at db mode answer budget received first second utc db' u p k ordinal : permits_ok db →
  let r := stored_receipt (ds_receipt answer) in
  finish db mode answer budget received first second utc = Ok (db', u) →
  permit_at db k ordinal = Some p → pm_attempt_digest p = dr_attempt_digest (ds_receipt answer) →
  in_flight p = true ∧ eg_revisions db' = eg_revisions db
  ∧ ∃ time, first = Some time ∧ permit_at db' k ordinal = Some (finish_row r mode (with_receipt r answer) time p).
Proof.
  intros Hok r Hf Hat Hd. apply finish_spec in Hf as (time & l & q & Ht & Hq & _ & Heq & _). fold r in Heq.
  assert (finishes (dr_attempt_digest (ds_receipt answer)) p = true) as Hfp.
  { assert (q ∈ select_where (finishes (dr_attempt_digest (ds_receipt answer))) (eg_permits db)) as Hin by (rewrite Hq; left).
    apply elem_of_select_where in Hin as [Hq' Hfq]. pose proof Hfq as [Hdq _]%finishes_spec.
    apply permit_at_elem in Hat as [Hp _]. rewrite (ok_digests db Hok p q); [done|done|done|congruence]. }
  split_and!; [by apply finishes_spec in Hfp as [_ Hfl]|by rewrite Heq|]. exists time. split; [destruct first; [by injection Ht as ->|done]|].
  pose proof (f_equal eg_permits Heq) as Hrows. simpl in Hrows.
  unfold permit_at in *. rewrite Hrows, !select_update, !head_update, Hat by done. simpl. rewrite Hfp. unfold updated, retires, in_flight, finish_row. simpl.
  destruct mode; by rewrite andb_false_r.
Qed.

(** The row of an id, by its key and ordinal. *)
Lemma permit_at_unique db p : permits_ok db → p ∈ eg_permits db → permit_at db (pm_invocation_key p) (pm_ordinal p) = Some p.
Proof.
  intros Hok Hp. destruct (permit_at db (pm_invocation_key p) (pm_ordinal p)) as [q|] eqn:Hq.
  - apply permit_at_elem in Hq as (Hq & Hk & Ho). f_equal. by apply (ok_ordinals db Hok).
  - unfold permit_at in Hq. apply head_None in Hq.
    assert (p ∈ select_where (λ q, of_invocation (pm_invocation_key p) q && (pm_ordinal q =? pm_ordinal p)) (eg_permits db)) as He.
    { apply elem_of_select_where. split; [done|]. rewrite Z.eqb_refl, andb_true_r. by apply of_invocation_spec. }
    rewrite Hq in He. by apply elem_of_nil in He.
Qed.

(** What a query reads of a finished row. *)
Lemma finished_status db p stored id time : permits_ok db → p ∈ eg_permits db → settled_row p →
  pm_invocation_key p = invocation_key id → pm_ordinal p = aid_attempt_ordinal id → pm_receipt p = Some stored →
  ∃ r, project_receipt db stored = Ok r
    ∧ (pm_finished p = 2 → attempt_status db id time = Ok (FinishedWithoutAnswer r))
    ∧ (pm_finished p = 1 → pm_recovery_expires_at p ≤ time → attempt_status db id time = Ok Expired)
    ∧ (pm_finished p = 1 → time < pm_recovery_expires_at p → ∀ answer, pm_result p = Some answer → ds_receipt answer = stored →
       attempt_status db id time = Ok (if is_some (ds_error answer) then FailedAttempt (with_receipt r answer)
                                       else Completed (with_receipt r answer))).
Proof.
  intros Hok Hp [Hc Hf] Hk Ho Hs. destruct (id_revision _ _ (ok_identities _ Hok) p Hp) as (revision & Hrev & _).
  destruct (ok_reserved db Hok p (sd_reference stored) Hp) as [row Hfind]; [unfold reference_of; by rewrite Hs|].
  assert (∃ r, project_receipt db stored = Ok r) as [r Hr] by (unfold project_receipt; rewrite Hfind; by eexists).
  exists r. split; [done|]. pose proof (permit_at_unique db p Hok Hp) as Hat. rewrite Hk, Ho in Hat.
  unfold attempt_status. rewrite Hat, Hrev, Hc. simpl. split_and!.
  - intros ->. simpl. rewrite Hs. rsimpl. by rewrite Hr.
  - intros -> Ht. simpl. by rewrite (proj2 (Z.leb_le _ _)).
  - intros -> Ht answer Ha Hst. simpl. rewrite (proj2 (Z.leb_gt _ _)) by done. rewrite Ha. rsimpl. by rewrite Hst, Hr.
Qed.

(** The row of a recorded completion, in the tables after it. *)
Lemma completion_row s t gate admission outcome first second utc db' answer p : process_ok s →
  let id := dr_attempt_id (tk_receipt t) in
  let stored := stored_receipt (ds_receipt answer) in
  let row := finish_row stored (rt_answer_recovery (tk_route t)) (with_receipt stored answer) first p in
  tk_phase t = Finishing gate admission outcome →
  permit_at (pr_db s) (invocation_key id) (aid_attempt_ordinal id) = Some p →
  pm_attempt_digest p = dr_attempt_digest (tk_receipt t) →
  complete (pr_db s) t admission outcome (Some first) second utc = (db', Replied answer) →
  ds_receipt_persisted answer = true →
  row ∈ eg_permits db' ∧ settled_row row ∧ pm_invocation_key row = invocation_key id ∧ pm_ordinal row = aid_attempt_ordinal id.
Proof.
  cbv zeta. intros Hok Hph Hat Hd Hc Hpers. pose proof (po_db s Hok) as Hdb.
  destruct (observed_receipt t outcome) as (Hdi & _ & _). cbv zeta in Hdi. revert Hc. unfold complete.
  destruct (finish _ _ _ _ _ _ _ _) as [[db1 u]| |] eqn:Hf; intros [= <- <-]; [|done..].
  set (answer := validated _ _) in *. rewrite <-Hdi in Hd.
  destruct (finished_at _ _ _ _ _ _ _ _ _ _ _ _ _ Hdb Hf Hat Hd) as (Hfl & _ & time' & [= <-] & Hat').
  apply andb_true_iff in Hfl as [Hcons _]. apply permit_at_elem in Hat as (_ & Hk & Ho). apply permit_at_elem in Hat' as (Hrow & _ & _).
  split_and!; [exact Hrow|split; [exact Hcons|]|exact Hk|exact Ho]. unfold finish_row. simpl. by destruct (rt_answer_recovery _).
Qed.

(** C13: What a recorded completion left is what the attempt's query reads after
    any later history, crashes, restarts and other completions included, with the
    charge the ledger has at the query.  On a route that retains answers, a
    completion before the recovery deadline is read at every time before the
    deadline, as long as no purge ran with a clock past it, and the query says
    expired from the deadline on, whatever was purged; on a route that does not,
    the query reads the receipt alone, at any time.  The attempt's id is taken to
    name the row of its own digest. *)
Theorem completion_recovered events i t gate admission outcome first second utc db' answer p later time :
  Forall event_ok events → Forall event_ok later →
  let s := run started events in
  let id := dr_attempt_id (tk_receipt t) in
  let db := pr_db (run s (EvComplete i (Some first) second utc :: later)) in
  let deadline := pm_recovery_expires_at p in
  pr_tasks s !! i = Some t → tk_phase t = Finishing gate admission outcome →
  permit_at (pr_db s) (invocation_key id) (aid_attempt_ordinal id) = Some p →
  pm_attempt_digest p = dr_attempt_digest (tk_receipt t) →
  complete (pr_db s) t admission outcome (Some first) second utc = (db', Replied answer) →
  ds_receipt_persisted answer = true →
  ∃ r, project_receipt db (stored_receipt (ds_receipt answer)) = Ok r
    ∧ match rt_answer_recovery (tk_route t) with
      | Off => attempt_status db id time = Ok (FinishedWithoutAnswer r)
      | Retain =>
          (deadline ≤ time → attempt_status db id time = Ok Expired)
          ∧ (first < deadline → time < deadline →
             (∀ e clock, e ∈ later → purge_clock e = Some clock → clock < deadline) →
             attempt_status db id time
             = Ok (if is_some (ds_error answer) then FailedAttempt (with_receipt r answer)
                   else Completed (with_receipt r answer)))
      end.
Proof.
  intros Hev Hlater s id db deadline Ht Hph Hat Hd Hc Hpers.
  pose proof (reached_process routes key policy retention events Hev) as Hok. fold s in Hok.
  pose proof (complete_dispatch_ok s i t _ _ _ _ _ _ _ _ Hok Ht Hph Hc) as [Hok' _].
  destruct (completion_row s t gate admission outcome first second utc db' answer p Hok Hph Hat Hd Hc Hpers)
    as (Hrow & Hset & Hk & Ho).
  set (s1 := mkProcess db' (set_phase i t (Replied answer) (pr_tasks s))) in *.
  assert (db = pr_db (run s1 later)) as Hrun by (unfold db, run_process; cbn [foldl]; do 2 f_equal; simpl; by rewrite Ht, Hph, Hc).
  assert (permits_ok db) as Hfin by (rewrite Hrun; by apply po_db, run_process_ok).
  change (eg_permits db') with (eg_permits (pr_db s1)) in Hrow. set (stored := stored_receipt (ds_receipt answer)) in *.
  set (row := finish_row _ _ _ _ p) in *.
  pose proof (settled_history routes key policy retention row s1 later Hok' Hlater Hset) as Hstays. rewrite <-Hrun in Hstays.
  destruct (rt_answer_recovery (tk_route t)) eqn:Hmode.
  - pose proof (settled_stands routes key policy retention row s1 later Hok' Hlater Hset (or_introl Hrow)) as Hstand. rewrite <-Hrun in Hstand.
    assert (∃ r, project_receipt db stored = Ok r ∧ (deadline ≤ time → attempt_status db id time = Ok Expired)) as (r & Hr & He).
    { assert (∃ q, q ∈ eg_permits db ∧ (q = row ∨ q = clear_result row)) as (q & Hq & Hrq) by (destruct Hstand; eauto).
      destruct (finished_status db q stored id time Hfin Hq) as (r & Hr & _ & He & _); [by destruct Hrq as [->| ->]..|].
      exists r. split; [done|]. intros Htime. apply He; by destruct Hrq as [->| ->]. }
    exists r. split; [done|]. split; [done|]. intros Hfirst Htime Hpurge.
    assert (row ∈ eg_permits db) as Hin.
    { apply Hstays; [|done]. apply Forall_forall. intros e He'. right. intros c Hclock. by eapply Hpurge. }
    destruct (finished_status db row stored id time Hfin Hin) as (r' & Hr' & _ & _ & Hs); try done.
    rewrite Hr in Hr'. injection Hr' as <-. rewrite (Hs eq_refl Htime (with_receipt stored answer)); [done| |done].
    unfold row, finish_row. simpl. by rewrite (proj2 (Z.ltb_lt _ _)).
  - assert (row ∈ eg_permits db) as Hin.
    { apply Hstays; [|done]. apply Forall_forall. intros e He'. left. unfold row, finish_row. simpl. by destruct (_ <? _). }
    destruct (finished_status db row stored id time Hfin Hin) as (r & Hr & Hs & _); try done. exists r. split; [done|]. by apply Hs.
Qed.

(** ** Expiry *)

Lemma batch_length db time : Z.of_nat (length (batch db time)) = Z.min 64 (count_where (due time) (eg_permits db)).
Proof.
  unfold batch, count_where. rewrite length_take, (Permutation_length (permit_order_perm _)).
  assert (length (select_where (λ p, due time p.2) (imap pair (eg_permits db)))
          = length (select_where (due time) (eg_permits db))) as ->; [|unfold EXPIRY_BATCH_SIZE; lia].
  rewrite <-(imap_pair_snd (eg_permits db)) at 2. induction (imap pair (eg_permits db)) as [|x l IH]; [done|].
  rewrite fmap_cons, !select_where_cons. destruct (due time x.2); simpl; by rewrite IH.
Qed.

Lemma batch_nodup db time : permits_ok db → NoDup (batch db time).*2.
Proof.
  intros Hok. eapply sublist_NoDup; [|apply fmap_sublist, sublist_take].
  rewrite (permit_order_perm (select_where (λ p, due time p.2) (imap pair (eg_permits db)))).
  eapply sublist_NoDup; [|apply fmap_sublist; unfold select_where; apply sublist_filter].
  rewrite imap_pair_snd. apply (id_nodup _ _ (ok_identities db Hok)).
Qed.

(** The rows a batch takes out of those that are due. *)
Lemma batch_rows db time : permits_ok db →
  count_where (λ p, due time p && in_batch db time p) (eg_permits db) = Z.of_nat (length (batch db time)).
Proof.
  intros Hok. unfold count_where. rewrite <-(length_fmap snd (batch db time)). f_equal. apply Permutation_length, NoDup_Permutation.
  - unfold select_where. apply NoDup_filter, (id_nodup _ _ (ok_identities db Hok)).
  - by apply batch_nodup.
  - intros p. rewrite elem_of_select_where, andb_true_iff. unfold in_batch. rewrite bool_decide_eq_true, !list_elem_of_fmap. split.
    + intros (Hp & _ & [j q] & Hd & Hq). exists (j, q). split; [|done]. apply batch_elem in Hq as [Hj _].
      apply (ok_digests db Hok); [done|by eapply list_elem_of_lookup_2|done].
    + intros ([j q] & -> & Hq). pose proof (batch_elem _ _ _ _ Hq) as [Hj Hdue].
      split_and!; [by eapply list_elem_of_lookup_2|done|]. by exists (j, q).
Qed.

Lemma count_cleared time c rows : count_where (due time) (update_where c clear_result rows)
  + count_where (λ p, due time p && c p) rows = count_where (due time) rows.
Proof.
  induction rows as [|p rows IH]; [done|]. unfold update_where in *. rewrite fmap_cons, !count_where_cons, <-IH.
  destruct (c p) eqn:E; [|by rewrite andb_false_r; lia]. rewrite andb_true_r.
  assert (due time (clear_result p) = false) as -> by (unfold due; simpl; by rewrite andb_false_r). lia.
Qed.

Lemma cleared_status db db' time time' c i : permits_ok db → time ≤ time' →
  db' = with_permits (update_where c clear_result (eg_permits db)) db →
  (∀ p, p ∈ eg_permits db → c p = true → due time p = true) → attempt_status db' i time' = attempt_status db i time'.
Proof.
  intros Hok Ht -> Hdue. unfold attempt_status.
  erewrite (permit_at_update db (with_permits _ db) c clear_result) by reflexivity.
  destruct (permit_at db _ _) as [p|] eqn:Hat; [|done]. apply permit_at_elem in Hat as [Hp _]. simpl.
  assert (superseded (with_permits (update_where c clear_result (eg_permits db)) db) p = superseded db p) as Hs
    by (unfold superseded; simpl; by apply existsb_update).
  unfold updated. destruct (c p) eqn:Hcp; [|by rewrite Hs].
  specialize (Hdue p Hp Hcp). apply andb_true_iff in Hdue as [Hexp Hans]. apply Z.leb_le in Hexp.
  destruct (ok_permit db Hok p Hp) as [_ _ _ Hdone _ Hanswer]. destruct (pm_result p) as [answer|] eqn:Er; [|done].
  simpl. rewrite Hanswer by done. rewrite Hdone by (rewrite Hanswer; done). simpl.
  by rewrite (proj2 (Z.leb_le _ _)) by lia.
Qed.

(** C14: A purge changes no answer a query gets from then on, and takes out 64 of the
    expired results, or all of them when there are fewer. *)
Theorem purge_invisible events time db' u : Forall event_ok events →
  let db := pr_db (run started events) in
  purge_expired db time = Ok (db', u) →
  (∀ i time', time ≤ time' → attempt_status db' i time' = attempt_status db i time')
  ∧ count_where (due time) (eg_permits db') = Z.max 0 (count_where (due time) (eg_permits db) - 64).
Proof.
  intros Hev db Hp. pose proof (po_db _ (reached_process routes key policy retention events Hev)) as Hok. fold db in Hok.
  apply purge_spec in Hp; [|done]. split.
  - intros i time' Ht. eapply cleared_status; [done|exact Ht|exact Hp|]. intros p Hin. unfold in_batch.
    rewrite bool_decide_eq_true, list_elem_of_fmap. intros ([j q] & Hd & Hq). apply batch_elem in Hq as [Hj Hdue].
    simpl in Hd. rewrite (ok_digests db Hok p q); [done|done|by eapply list_elem_of_lookup_2|done].
  - pose proof (count_cleared time (in_batch db time) (eg_permits db)) as Hc. rewrite batch_rows, batch_length in Hc by done.
    rewrite Hp. simpl. pose proof (count_where_nonneg (due time) (eg_permits db)). lia.
Qed.

(** ** Signatures and frames *)

Lemma hex_pair : ∀ a : ascii,
  hex_value (Responses.hex_digit false (Z.shiftr (code a) 4)) = Some (Z.shiftr (code a) 4)
  ∧ hex_value (Responses.hex_digit false (Z.land (code a) 15)) = Some (Z.land (code a) 15)
  ∧ ascii_of_N (Z.to_N (16 * Z.shiftr (code a) 4 + Z.land (code a) 15)) = a.
Proof. intros [[] [] [] [] [] [] [] []]; vm_compute; by split_and!. Qed.

Lemma hex_roundtrip bytes : hex_decode (hex_encode bytes) = Some bytes.
Proof.
  induction bytes as [|a bytes IH]; [done|]. unfold hex_encode in *. simpl. destruct (hex_pair a) as (Hhi & Hlo & Ha).
  rewrite Hhi, Hlo. cbn [mbind option_bind]. rewrite str_app_nil, IH. cbn [mbind option_bind]. by rewrite Ha.
Qed.

Lemma verify_exact k domain value tag : verify k domain value tag = Ok tt ↔ hex_decode tag = Some (mac k domain value).
Proof.
  unfold verify. destruct (hex_decode tag) as [bytes|]; rsimpl; [|done].
  destruct (String.eqb_spec (mac k domain value) bytes) as [->|Hne]; [done|]. naive_solver.
Qed.

Lemma verify_signed k domain value : verify k domain value (sign k domain value) = Ok tt.
Proof. apply verify_exact, hex_roundtrip. Qed.

(** C15: The key that signed an attempt, an identity or a revision verifies it, a tag
    verifies an attempt only when it is that attempt's MAC, and no message of
    one kind is a message of another. *)
Theorem signatures_exact k a i g :
  verify_attempt k (sign_attempt k a) = Ok tt ∧ verify_attempt_id k (sign_attempt_id k i) = Ok tt
  ∧ verify_grant_revision k (sign_grant_revision k g) = Ok tt
  ∧ (∀ tag, verify_attempt k (mkSigned a tag) = Ok tt
       ↔ hex_decode tag = Some (hmac_sha256 k (attempt_domain +:+ text_of (attempt_wire a))))
  ∧ ∀ x y, attempt_domain +:+ x ≠ status_domain +:+ y ∧ attempt_domain +:+ x ≠ revision_domain +:+ y
       ∧ status_domain +:+ x ≠ revision_domain +:+ y.
Proof.
  split_and!; [apply verify_signed..| |].
  - intros tag. apply verify_exact.
  - intros x y. split_and!; unfold attempt_domain, status_domain, revision_domain, in_domain; simpl; intros [=].
Qed.

Lemma frame_writes_exact max writes bytes : 0 ≤ max ≤ u32_max → byte_len bytes ≤ max →
  frame_writes max bytes writes
  = let text := foldr String.append EmptyString writes in
    if byte_len bytes + byte_len text <=? max then Some (bytes +:+ text) else None.
Proof.
  intros Hm. revert bytes. induction writes as [|buf writes IH]; intros bytes Hb; simpl.
  { rewrite Z.add_0_r, str_app_nil_r, (proj2 (Z.leb_le _ _)) by lia. done. }
  unfold frame_write. rewrite byte_len_app. pose proof (byte_len_nonneg (foldr String.append EmptyString writes)) as Hn.
  assert (u32_max < usize_max) as Hu by done.
  destruct (Z.ltb_spec max (Z.min usize_max (byte_len bytes + byte_len buf))) as [Hl|Hl]; simpl.
  - by rewrite (proj2 (Z.leb_gt _ _)) by lia.
  - rewrite IH by (rewrite byte_len_app; lia). simpl. by rewrite byte_len_app, str_app_assoc, Z.add_assoc.
Qed.

(** A frame is the whole JSON of its value when that fits the limit, and refused
    otherwise. *)
Theorem frame_exact value max : 0 ≤ max ≤ u32_max →
  encode_frame value max = if byte_len (text_of value) <=? max then Ok (text_of value) else Err EgLimitExceeded.
Proof.
  intros Hm. unfold encode_frame. rewrite frame_writes_exact; [|done|apply Hm]. simpl. fold (text_of value).
  by destruct (_ <=? _).
Qed.

(** ** Completions *)

(** A dispatch reports its charge as released only when nothing was sent, as
    settled only with measured usage in an answer, and claims neither when its
    completion was not recorded. *)
Theorem completion_honest events i t gate admission outcome first second utc db' answer : Forall event_ok events →
  let s := run started events in
  pr_tasks s !! i = Some t → tk_phase t = Finishing gate admission outcome →
  complete (pr_db s) t admission outcome first second utc = (db', Replied answer) →
  match dr_spend_state (ds_receipt answer) with
  | SpendUnknown => True
  | SpendReleased => ds_receipt_persisted answer = true
      ∧ (outcome = NoCredential ∨ ∃ failure, outcome = Failed failure ∧ ee_may_have_dispatched failure = false)
  | SpendSettled => ds_receipt_persisted answer = true ∧ ∃ output usage diagnostics,
      outcome = Succeeded output usage diagnostics ∧ has_measured_usage usage = true ∧ dr_usage (ds_receipt answer) = usage
  end.
Proof.
  intros Hev s Ht Hph. pose proof (reached_process routes key policy retention events Hev) as Hok. fold s in Hok.
  pose proof (po_state s Hok i t Ht) as Hst. unfold complete.
  destruct (finish _ _ _ _ _ _ _ _) as [[db1 u]| |]; intros [= _ <-]; [|done..].
  destruct outcome as [|failure|output usage diagnostics]; unfold validated; simpl.
  - destruct (tk_validator t); simpl; auto.
  - destruct (ee_may_have_dispatched failure) eqn:E; destruct (tk_validator t); simpl; rewrite ?Hst; eauto.
  - destruct (has_measured_usage usage) eqn:E; destruct (tk_validator t) as [v|]; simpl; [destruct (v output)| |destruct (v output)|];
      simpl; rewrite ?Hst; eauto 8.
Qed.

End Theorems.
