(* ===== verification/EgressStory.v ===== *)
(** A deployment with one route, and histories of it: the theorems on the
    credential process applied to concrete states. *)

From Stdlib Require Import ZArith Lia Ascii.
From stdpp Require Import base gmap strings list sorting pretty.
From S2P Require Import Prelude Text Core SpendTypes Json Trace ExecutionPolicy Responses Wire Adapters.
From S2P Require Import SpendLedger SpendInv SpendProofs JobTypes EgressTypes EgressRegistry EgressRoutes EgressProcess EgressInv EgressProofs EgressMachine EgressHistory EgressTheorems.

#[local] Open Scope Z_scope.

(** ** Code outside the repository *)

Fixpoint tell (w : Wire) : string :=
  match w with
  | WBool b => (if b then "t" else "f")%string
  | WInt n => "i" +:+ pretty n
  | WString s => "s" +:+ s
  | WArray values => "[" +:+ foldr (λ v s, tell v +:+ "," +:+ s) "]" values
  | WMap entries => "{" +:+ foldr (λ e s, e.1 +:+ ":" +:+ tell e.2 +:+ "," +:+ s) "}" entries
  | WFloat _ | WValue _ => "v"%string
  end.

(** A checksum of 32 bytes. *)
Fixpoint checksum (h : Z) (s : string) : Z :=
  match s with
  | EmptyString => h
  | String a s => checksum (Z.land (h * 5 + Z.of_N (N_of_ascii a)) 65535) s
  end.

Fixpoint spread (n : nat) (h : Z) : string :=
  match n with
  | O => EmptyString
  | S n => String (ascii_of_N (Z.to_N (Z.land h 255))) (spread n (Z.shiftr h 8))
  end.

#[local] Instance story_sha : Sha256 := {| sha256 s := spread 32 (checksum 7 s) |}.
#[local] Instance story_writer : JsonWriter := {| write_calls w := [tell w] |}.
#[local] Instance story_hmac : Hmac := {| hmac_sha256 k m := spread 32 (checksum (checksum 11 k) m) |}.
#[local] Instance story_chrono : Chrono := chrono_range.
#[local] Instance story_json : JsonValues := json_values.
#[local] Instance story_expiry : ExpiryOrder := expiry_merge.
#[local] Instance story_permits : PermitOrder := permit_merge.

(** ** The deployment *)

Definition the_key : string := "an admission key of 32 bytes....".

Definition the_route : RouteConfig :=
  mkRoute "t" "acct" None (Some 100) 3 (Some (mkRequestBudget 2 None)) Retain "r" "ref" (SecretFile "/k")
    "https://x" "m" (RouteOpenAiChat "op" None None) false 10000 10000 100 50 1 None None 30.

Definition the_routes : gmap (string * string) RouteConfig := route_map [the_route].

Definition the_payload : ProviderPayload :=
  PayChat (mkChatRequest [mkChatMessage "user" "hi"] (Some 10) None None None None VNull).

Definition attempt (ordinal : Z) : DurableAttempt :=
  mkAttempt "t" "inc" "call" None ordinal ordinal 5 100 200 "caller" "r" "https://x" "m" "POST" "ref" "man"
    (payload_digest the_payload) (payload_digest the_payload) 1.

Definition no_policy : option string → string → result ModelError (bool * option DateTime) := λ _ _, Ok (false, None).

#[local] Abbreviation run_story := (run_process the_routes the_key no_policy 0 started).

Definition at_ten : nat → option Z := λ _, Some 10.

Definition publish : ProcessEvent :=
  EvOperation (PublishGrantRevision (sign_grant_revision the_key (mkGrantRevision "t" "inc" 1))) None at_ten "" 0.

Definition issued (ordinal : Z) (token : string) : ProcessEvent :=
  EvOperation (IssuePermit (sign_attempt the_key (attempt ordinal))) None at_ten token 0.

Definition injection (ordinal : Z) (token : string) : Operation :=
  Inject (mkInject PROTOCOL_VERSION (sign_attempt the_key (attempt ordinal))
            (mkDispatchPermit token (attempt_digest (attempt ordinal))) the_payload).

Definition injected (ordinal : Z) (token : string) : ProcessEvent := EvOperation (injection ordinal token) None at_ten "" 0.

(** ** Histories *)

Definition sent : list ProcessEvent :=
  [publish; issued 1 "k1"; injected 1 "k1"; EvResolve 0 (Some "sk"%string); EvAdmit 0 (Some 10)].

(** The provider could not be reached: the send was free. *)
Definition unsent : list ProcessEvent := sent ++ [EvExecuted 0 (Failed (not_sent EgTransport))].

(** The provider answered. *)
Definition answered : list ProcessEvent :=
  sent ++ [EvExecuted 0 (Succeeded (OutChat "hello" (Some FinishStop)) default_UsageTrace [])].

(** A successor is issued after the free send. *)
Definition reissued : list ProcessEvent := unsent ++ [EvComplete 0 (Some 10) (Some 10) 0; issued 2 "k2"].

Definition retried : list ProcessEvent := reissued ++ [injected 2 "k2"].

Lemma process_story_ok events : forallb (λ e, match e with EvJobClaim _ _ _ _ _ _ _ _ | EvLedger _ _ _ => false | _ => true end) events = true →
  Forall event_ok events.
Proof.
  intros Hall. apply Forall_forall. intros e He. apply list_elem_of_In in He. rewrite forallb_forall in Hall.
  specialize (Hall e He). by destruct e.
Qed.

(** ** The theorems on these histories *)

Lemma invocation_charged_once_witness : ∃ p q rp rq, eg_permits (pr_db (run_story retried)) = [p; q]
  ∧ reference_of p = Some rp ∧ reference_of q = Some rq
  ∧ (ledger_state (eg_ledger (pr_db (run_story retried))) rp = Some SpendReleased
     ∨ ledger_state (eg_ledger (pr_db (run_story retried))) rq = Some SpendReleased).
Proof.
  assert (match eg_permits (pr_db (run_story retried)) with
          | [p; q] => String.eqb (pm_invocation_key p) (pm_invocation_key q) && negb (pm_ordinal p =? pm_ordinal q)
                      && is_some (reference_of p) && is_some (reference_of q)
          | _ => false
          end = true) as Hc by (vm_compute; reflexivity).
  destruct (eg_permits (pr_db (run_story retried))) as [|p [|q [|]]] eqn:E; try discriminate Hc.
  apply andb_prop in Hc as [[[Hk Ho]%andb_prop Hp]%andb_prop Hq].
  destruct (reference_of p) as [rp|] eqn:Ep; [|discriminate Hp]. destruct (reference_of q) as [rq|] eqn:Eq; [|discriminate Hq].
  exists p, q, rp, rq. split; [reflexivity|]. split; [exact Ep|]. split; [exact Eq|].
  apply (invocation_charged_once the_routes the_key no_policy 0 retried p q rp rq).
  - apply process_story_ok. vm_compute. reflexivity.
  - rewrite E. left.
  - rewrite E. right. left.
  - apply String.eqb_eq, Hk.
  - intros ->. rewrite Z.eqb_refl in Ho. discriminate Ho.
  - exact Ep.
  - exact Eq.
Defined.

Definition the_injection : InjectProviderCredential :=
  mkInject PROTOCOL_VERSION (sign_attempt the_key (attempt 2)) (mkDispatchPermit "k2" (attempt_digest (attempt 2))) the_payload.

Lemma handoffs_bounded_witness : ∃ db' t p,
  inject the_routes the_key (pr_db (run_story reissued)) the_injection None (Some 10) (Some 10) 0 = Ok (db', t)
  ∧ p ∈ eg_permits db' ∧ handoffs db' (pm_invocation_key p) ≤ rt_max_attempts (tk_route t).
Proof.
  assert (match inject the_routes the_key (pr_db (run_story reissued)) the_injection None (Some 10) (Some 10) 0 with
          | Ok _ => true | _ => false end = true) as Hc by (vm_compute; reflexivity).
  destruct (inject the_routes the_key (pr_db (run_story reissued)) the_injection None (Some 10) (Some 10) 0)
    as [[db' t]| |] eqn:E; try discriminate Hc.
  destruct (handoffs_bounded the_routes the_key no_policy 0 reissued the_injection None (Some 10) (Some 10) 0 db' t)
    as (p & Hp & _ & _ & Hn); [apply process_story_ok; vm_compute; reflexivity|exact E|].
  exists db', t, p. split; [reflexivity|]. split; [exact Hp|exact Hn].
Defined.

(** The attempt cannot be accepted again after its completion and a crash. *)
Definition aftermath : list ProcessEvent :=
  [EvResolve 0 (Some "sk"%string); EvAdmit 0 (Some 10); EvExecuted 0 (Failed (not_sent EgTransport));
   EvComplete 0 (Some 10) (Some 10) 0; EvCrash; EvOpen 9 4 true false (Some 20)].

Definition issued_once : list ProcessEvent := [publish; issued 1 "k1"].

Definition any_handoff : AcceptedSpendHandoff := mkHandoff (mkReservation "again" "account" "invocation" "binding" None) "input".

Lemma accepted_once_witness :
  let db := pr_db (run_process the_routes the_key no_policy 0 (run_story issued_once) (injected 1 "k1" :: aftermath)) in
  pr_tasks (run_process the_routes the_key no_policy 0 (run_story issued_once) (injected 1 "k1" :: aftermath)) = []
  ∧ consume db (attempt 1) (mkDispatchPermit "k1" (attempt_digest (attempt 1))) any_handoff 3 (Some 20) 0 = Err EgPermitRefused.
Proof.
  split; [vm_compute; reflexivity|].
  assert (match operation the_routes the_key (pr_db (run_story issued_once)) (injection 1 "k1") None at_ten "" 0 with
          | Ok (_, inr t) => String.eqb (attempt_digest (attempt 1)) (dr_attempt_digest (tk_receipt t))
          | _ => false end = true) as Hc by (vm_compute; reflexivity).
  destruct (operation the_routes the_key (pr_db (run_story issued_once)) (injection 1 "k1") None at_ten "" 0)
    as [[db' [reply|t]]| |] eqn:E; try discriminate Hc.
  refine (proj1 (accepted_once the_routes the_key no_policy 0 issued_once (injection 1 "k1") None at_ten "" 0 aftermath
    db' t (attempt 1) _ _ E _) _ _ _ _ _); [apply process_story_ok; vm_compute; reflexivity..|]. apply String.eqb_eq, Hc.
Defined.

(** A send without an outcome: no successor is issued. *)
Lemma open_charge_blocks_witness :
  match issue_in (pr_db (run_story sent)) (attempt 2) 3 (Some 10) (Some 10) "k2" with Ok _ => False | _ => True end.
Proof.
  assert (match eg_permits (pr_db (run_story sent)) with
          | [p] => String.eqb (pm_invocation_key p) (invocation_key (attempt_id (attempt 2)))
                   && match reference_of p with
                      | Some r => match ledger_state (eg_ledger (pr_db (run_story sent))) r with Some SpendReleased => false | _ => true end
                      | None => false end
          | _ => false end = true) as Hc by (vm_compute; reflexivity).
  destruct (eg_permits (pr_db (run_story sent))) as [|p [|]] eqn:E; try discriminate Hc.
  apply andb_prop in Hc as [Hk Hr]. destruct (reference_of p) as [r|] eqn:Er; [|discriminate Hr].
  destruct (issue_in (pr_db (run_story sent)) (attempt 2) 3 (Some 10) (Some 10) "k2") as [[db' grant]| |] eqn:Ei; [|exact I..].
  revert Ei. apply (open_charge_blocks the_routes the_key no_policy 0 sent p r).
  - apply process_story_ok. vm_compute. reflexivity.
  - rewrite E. left.
  - apply String.eqb_eq, Hk.
  - exact Er.
  - intros Hs. rewrite Hs in Hr. discriminate Hr.
Defined.

Lemma one_open_send_witness : ∃ request p, unresolved (pr_db (run_story sent)) request p = true
  ∧ ∀ q, q ∈ eg_permits (pr_db (run_story sent)) → unresolved (pr_db (run_story sent)) request q = true → p = q.
Proof.
  assert (match eg_permits (pr_db (run_story sent)) with
          | p :: _ => match pm_request_key p with Some k => unresolved (pr_db (run_story sent)) k p | None => false end
          | [] => false end = true) as Hc by (vm_compute; reflexivity).
  destruct (eg_permits (pr_db (run_story sent))) as [|p rows] eqn:E; [discriminate Hc|].
  destruct (pm_request_key p) as [k|]; [|discriminate Hc]. exists k, p. split; [exact Hc|]. intros q Hq Hu.
  apply (one_open_send the_routes the_key no_policy 0 sent k p q).
  - apply process_story_ok. vm_compute. reflexivity.
  - rewrite E. left.
  - rewrite E. exact Hq.
  - exact Hc.
  - exact Hu.
Defined.

(** The allowance after the free send is what the admission found: nothing. *)
Lemma allowance_settled_witness : ∃ t gate b outcome db' answer before time after request,
  pr_tasks (run_story unsent) !! 0%nat = Some t ∧ tk_phase t = Finishing gate (Some b) outcome
  ∧ complete (pr_db (run_story unsent)) t (Some b) outcome (Some 10) (Some 10) 0 = (db', Replied answer)
  ∧ dr_spend_state (ds_receipt answer) = SpendReleased
  ∧ unsent = before ++ EvAdmit 0 (Some time) :: after
  ∧ finds (eg_failures (pr_db (run_story before))) request (mkRequestBudget 2 None) time (eg_failures db' !! request).
Proof.
  assert (match pr_tasks (run_story unsent) !! 0%nat with
          | Some t => match tk_phase t with
                      | Finishing _ (Some b) o =>
                          match (complete (pr_db (run_story unsent)) t (Some b) o (Some 10) (Some 10) 0).2 with
                          | Replied d => ds_receipt_persisted d && negb (is_some (ds_output d))
                              && match dr_spend_state (ds_receipt d) with SpendReleased => true | _ => false end
                          | _ => false end
                      | _ => false end
          | None => false end = true) as Hc by (vm_compute; reflexivity).
  destruct (pr_tasks (run_story unsent) !! 0%nat) as [t|] eqn:Et; [|discriminate Hc].
  destruct (tk_phase t) as [| | |gate [b|] o| |] eqn:Ep; [discriminate Hc|discriminate Hc|discriminate Hc| |discriminate Hc|discriminate Hc|discriminate Hc].
  destruct (complete (pr_db (run_story unsent)) t (Some b) o (Some 10) (Some 10) 0) as [db' phase] eqn:Ec.
  cbn [snd] in Hc. destruct phase as [| | | |d|]; try discriminate Hc. apply andb_prop in Hc as [[Hpers Hout]%andb_prop Hst].
  assert (Forall event_ok unsent) as Hev by (apply process_story_ok; vm_compute; reflexivity).
  destruct (allowance_settled the_routes the_key no_policy 0 unsent 0 t gate b o (Some 10) (Some 10) 0 db' d Hev Et Ep Ec Hpers)
    as (before & time & after & t0 & request & budget & found & Hsplit & _ & Ht0 & _ & Hw & Hb & Hf & Ha).
  destruct (dr_spend_state (ds_receipt d)) eqn:Es; try discriminate Hst.
  exists t, gate, b, o, db', d, before, time, after, request. split; [reflexivity|]. split; [exact Ep|]. split; [exact Ec|].
  split; [exact Es|]. split; [exact Hsplit|]. destruct (ds_output d); [discriminate Hout|]. cbn in Ha. rewrite Ha.
  assert (budget = mkRequestBudget 2 None) as <-; [|exact Hf].
  destruct before as [|e0 [|e1 [|e2 [|e3 [|e4 before]]]]]; try discriminate Hsplit;
    [|exfalso; destruct before as [|e5 before]; [discriminate Hsplit|destruct before; discriminate Hsplit]].
  injection Hsplit as <- <- <- <- _ _. vm_compute in Ht0. injection Ht0 as <-. injection Hb as <-. reflexivity.
Defined.

(** The answer is there for the attempt's query at 150, with the deadline 200,
    after a purge, a crash and a new start. *)
Definition restarted : list ProcessEvent := [EvPurge (Some 120); EvCrash; EvOpen 9 4 true false (Some 140)].

Lemma completion_recovered_witness : ∃ t (answer : DispatchResult) r,
  pr_tasks (run_story answered) !! 0%nat = Some t
  ∧ attempt_status (pr_db (run_process the_routes the_key no_policy 0 (run_story answered)
                             (EvComplete 0 (Some 10) (Some 10) 0 :: restarted))) (dr_attempt_id (tk_receipt t)) 150
    = Ok (Completed (with_receipt r answer)).
Proof.
  assert (match pr_tasks (run_story answered) !! 0%nat with
          | Some t => match tk_phase t, permit_at (pr_db (run_story answered)) (invocation_key (dr_attempt_id (tk_receipt t)))
                                 (aid_attempt_ordinal (dr_attempt_id (tk_receipt t))) with
                      | Finishing _ b o, Some p =>
                          match (complete (pr_db (run_story answered)) t b o (Some 10) (Some 10) 0).2 with
                          | Replied d => ds_receipt_persisted d && negb (is_some (ds_error d))
                              && String.eqb (pm_attempt_digest p) (dr_attempt_digest (tk_receipt t))
                              && (150 <? pm_recovery_expires_at p)
                              && match rt_answer_recovery (tk_route t) with Retain => true | _ => false end
                          | _ => false end
                      | _, _ => false end
          | None => false end = true) as Hc by (vm_compute; reflexivity).
  destruct (pr_tasks (run_story answered) !! 0%nat) as [t|] eqn:Et; [|discriminate Hc].
  destruct (tk_phase t) as [| | |gate b o| |] eqn:Ep; [discriminate Hc|discriminate Hc|discriminate Hc| |discriminate Hc|discriminate Hc].
  destruct (permit_at (pr_db (run_story answered)) (invocation_key (dr_attempt_id (tk_receipt t)))
    (aid_attempt_ordinal (dr_attempt_id (tk_receipt t)))) as [p|] eqn:Eat; [|discriminate Hc].
  destruct (complete (pr_db (run_story answered)) t b o (Some 10) (Some 10) 0) as [db' phase] eqn:Ec.
  cbn [snd] in Hc. destruct phase as [| | | |d|]; try discriminate Hc.
  apply andb_prop in Hc as [[[[Hpers Herr]%andb_prop Hd]%andb_prop Htime]%andb_prop Hret].
  apply Z.ltb_lt in Htime. apply String.eqb_eq in Hd.
  destruct (completion_recovered the_routes the_key no_policy 0 answered 0 t gate b o 10 (Some 10) 0 db' d p restarted 150)
    as (r & _ & Hr); [apply process_story_ok; vm_compute; reflexivity|apply process_story_ok; vm_compute; reflexivity
      |exact Et|exact Ep|exact Eat|exact Hd|exact Ec|exact Hpers|].
  exists t, d, r. split; [reflexivity|]. destruct (rt_answer_recovery (tk_route t)); [|discriminate Hret].
  destruct (ds_error d); [discriminate Herr|]. apply (proj2 Hr); [lia|exact Htime|]. intros e clock He Hclock. unfold restarted in He.
  rewrite !elem_of_cons in He. destruct He as [->|[->|[->|He]]]; [injection Hclock as <-; lia|discriminate Hclock
    |injection Hclock as <-; lia|]. apply elem_of_nil in He. destruct He.
Defined.

Definition completed_story : list ProcessEvent := answered ++ [EvComplete 0 (Some 10) (Some 10) 0].

(** A purge after the deadline takes the one answer out. *)
Lemma purge_invisible_witness : ∃ db',
  purge_expired (pr_db (run_story completed_story)) 300 = Ok (db', tt)
  ∧ count_where (due 300) (eg_permits db') = 0
  ∧ ∀ i, attempt_status db' i 300 = attempt_status (pr_db (run_story completed_story)) i 300.
Proof.
  assert (match purge_expired (pr_db (run_story completed_story)) 300 with Ok _ => true | _ => false end = true) as Hc
    by (vm_compute; reflexivity).
  assert (count_where (due 300) (eg_permits (pr_db (run_story completed_story))) = 1) as Hn by (vm_compute; reflexivity).
  destruct (purge_expired (pr_db (run_story completed_story)) 300) as [[db' []]| |] eqn:E; try discriminate Hc.
  destruct (purge_invisible the_routes the_key no_policy 0 completed_story 300 db' tt) as [Hs Hl];
    [apply process_story_ok; vm_compute; reflexivity|exact E|].
  exists db'. split; [reflexivity|]. rewrite Hn in Hl. split; [exact Hl|]. intros i. apply Hs. lia.
Defined.

Lemma frame_exact_witness : encode_frame (WInt 12) 2 = Err EgLimitExceeded ∧ encode_frame (WInt 12) 3 = Ok "i12"%string.
Proof.
  assert (text_of (WInt 12) = "i12"%string) as Ht by (vm_compute; reflexivity).
  rewrite !frame_exact, Ht by (vm_compute; split; discriminate). split; vm_compute; reflexivity.
Defined.

Lemma completion_honest_witness : ∃ t gate b outcome db' answer,
  pr_tasks (run_story unsent) !! 0%nat = Some t ∧ tk_phase t = Finishing gate b outcome
  ∧ complete (pr_db (run_story unsent)) t b outcome (Some 10) (Some 10) 0 = (db', Replied answer)
  ∧ ds_receipt_persisted answer = true.
Proof.
  assert (match pr_tasks (run_story unsent) !! 0%nat with
          | Some t => match tk_phase t with
                      | Finishing _ b o =>
                          match (complete (pr_db (run_story unsent)) t b o (Some 10) (Some 10) 0).2 with
                          | Replied d => match dr_spend_state (ds_receipt d) with SpendReleased => true | _ => false end
                          | _ => false end
                      | _ => false end
          | None => false end = true) as Hc by (vm_compute; reflexivity).
  destruct (pr_tasks (run_story unsent) !! 0%nat) as [t|] eqn:Et; [|discriminate Hc].
  destruct (tk_phase t) as [| | |gate b o| |] eqn:Ep; [discriminate Hc|discriminate Hc|discriminate Hc| |discriminate Hc|discriminate Hc].
  destruct (complete (pr_db (run_story unsent)) t b o (Some 10) (Some 10) 0) as [db' phase] eqn:Ec.
  cbn [snd] in Hc. destruct phase as [| | | |d|]; try discriminate Hc.
  exists t, gate, b, o, db', d. split; [reflexivity|]. split; [exact Ep|]. split; [exact Ec|].
  pose proof (completion_honest the_routes the_key no_policy 0 unsent 0 t gate b o (Some 10) (Some 10) 0 db' d) as Ha.
  assert (Forall event_ok unsent) as Hev by (apply process_story_ok; vm_compute; reflexivity).
  specialize (Ha Hev Et Ep Ec). destruct (dr_spend_state (ds_receipt d)); try discriminate Hc. exact (proj1 Ha).
Defined.
